(* ===== verification/_CoqProject ===== *)
-Q . S2P
Prelude.v
State.v
Bytes.v
Error.v
Cbor.v
CborSpec.v
CborRead.v
Hash.v
Codec.v
Radix.v
BigUint.v
Rsmst.v
RsmstSpec.v
RsmstBuild.v
ShardId.v
ShardOps.v
Search.v
Ids.v
CborMap.v
Bft.v
BftCodec.v
CodecFacts.v
BftSpec.v
FifoIndex.v
UcInterner.v
VerificationError.v
Topology.v
ShardTree.v
ViewCodec.v
Certificates.v
Secp.v
Predicates.v
TrustBase.v
Seal.v
SealSpec.v
Proofs.v
Transactions.v
TransactionsSpec.v
Verify.v
VerifySpec.v
TokenSpec.v
SnapshotSpec.v
History.v
Flow.v
Asset.v
Payment.v
PaymentSpec.v
SplitSpec.v
Ledger.v
Assemble.v
AssembleSpec.v
Plan.v
Batch.v
Executor.v
Time.v
HttpDate.v
Transport.v
TrustBaseJson.v
Rpc.v
Wait.v
HttpClient.v
Wp.v
RpcSpec.v
WaitSpec.v
Consolidate.v
ConsolidateSpec.v
HttpSpec.v
AdmissionSpec.v
RunSpec.v
ClientSpec.v
Toy.v
Scenario.v
ClientScenario.v
HttpScenario.v
PropertiesVerify.v
PropertiesPayment.v
PropertiesWire.v
PropertiesView.v
PropertiesClient.v
PropertiesHttp.v
