(* ===== verification/Prelude.v ===== *)
(** The state-transition SDK of Unicity, in Rocq.

    The crate (src/src/) is the client side of Unicity: tokens that travel as
    self-contained histories, their verification against a root trust base, the
    payment rules that split them, and the clients that have their transactions
    certified by an aggregator. This library is a shallow embedding of that crate:
    pure functions are functions, [Result] is [outcome] (with [Panic] for what
    would panic), methods on [&mut self] are the state monad [M], and each
    definition is executable. What the crate imports is a parameter with its laws.

    * How the parts interact

    Everything on the wire is canonical CBOR, decoded under limits. A token is a
    mint and a list of transfers, each with an inclusion proof; a proof carries a
    unicity certificate, which a sealed round of the BFT root chain authenticates.
    Verification walks a token's history in a session that remembers seals and
    certificates; registered verifiers judge what a mint claims, and may verify
    further tokens embedded in it. Splitting burns a token and mints outputs whose
    amounts a range-sum Merkle tree ties to the burned one. The clients build
    transactions, submit them over HTTP, wait for the proofs and may replace the
    proofs of a token by fresher ones under one seal (consolidation).

    * Files and sources

    This file, [State], [Bytes], [Wp]: outcomes, the state monad and its reasoning
    rules, machine integers ([uint w], a value below 2^w; [wrap] is the cast) and
    bounded slices.

    [Error], [Cbor] (cbor/encode.rs, decode.rs): errors; encoders, the budgeted item
    scanner and the accessors of [Decoder]. [CborSpec], [CborRead], [CborMap]: the
    grammar of items with minimal heads, which the decoder recognises exactly.

    [Hash] (crypto/hash.rs), [Secp] (crypto/signature.rs, signer.rs), [Codec],
    [CodecFacts]: digests; keys and recoverable signatures; the interface [Codec] of
    wire types, whose laws [CodecLaws] and [CodecCanonical] each type proves and
    each containing type uses.

    [Radix] (radix.rs), [BigUint], [Rsmst], [RsmstSpec], [RsmstBuild] (rsmst/):
    bit-addressed trees and the range-sum tree.

    [Ids] (api/network_id.rs, state_id.rs, leaf_value.rs, transaction/ids.rs,
    predicate/mod.rs), [ShardId], [ShardOps] (api/bft/shard_id.rs), [Bft], [BftCodec],
    [BftSpec] (api/bft/), [Predicates] (predicate/builtin.rs, unlock.rs,
    transaction/minter.rs), [TrustBase], [TrustBaseJson] (api/bft/root_trust_base.rs).

    [Certificates], [Proofs] (api/): inclusion and non-inclusion certificates; what
    an aggregator certifies and answers. [Transactions], [TransactionsSpec]
    (transaction/): mints, transfers and tokens, whose locks are never read from
    the wire.

    [FifoIndex] (fifo_index.rs), [UcInterner] (api/bft/uc_interner.rs), [Seal],
    [SealSpec] (verify/seal.rs): the bounded memo, whose construction panics for a
    capacity above 2^58, interning, and the session that authenticates seals. [VerificationError], [Verify] (verify/): certificates,
    proofs, tokens, registries and their recursion.
    [VerifySpec], [TokenSpec], [SnapshotSpec], [History]: the checks without memos,
    and the meaning of acceptance.

    [Asset], [Payment], [PaymentSpec], [SplitSpec] (payment/): assets, manifests, the
    two verifiers, the split a client builds; value is conserved. [Ledger] composes
    this with verification over many tokens: one history per id, and no inflation.

    [Search], [Topology], [ShardTree], [ViewCodec], [Assemble], [AssembleSpec], [Plan]
    (consolidation/): sharding schemes, the shard tree, partition views,
    certificates derived from them, and the plan of a consolidation.

    [Flow], [Batch] (client/mod.rs, batch.rs): the mint and transfer flows and the
    batch capability, each against an interface ([AggregatorClient],
    [BatchAggregatorClient]). [Executor], [Consolidate], [ConsolidateSpec],
    [AdmissionSpec], [RunSpec], [ClientSpec] (client/consolidate/): one attempt, from
    admission through the waves of requests to the placed proofs.

    [Time], [HttpDate], [Transport], [Rpc], [Wait], [HttpClient] (client/http.rs,
    http/wait.rs): the JSON-RPC client; [RpcSpec], [WaitSpec], [HttpSpec]: what its
    calls, waits and submissions promise. [http_aggregator] and [http_batch] are the
    implementations of the two interfaces above, and [http_decoded] and
    [http_batches] discharge what the flows and consolidation require of them.

    [Toy], [Scenario], [ClientScenario], [HttpScenario]: concrete parameters, and runs
    over them. The theorems are stated from the entry points in [PropertiesVerify],
    [PropertiesPayment], [PropertiesWire], [PropertiesView], [PropertiesClient]
    and [PropertiesHttp], each followed by a run of it; a few are
    stated where they are proved and run there too.

    * What the theorems show

    Wire: the decoder accepts exactly the well-formed items with minimal heads
    within its limits -- the order of a map's keys is checked when the map is
    entered -- and never panics; tokens and views are read back, and a view that is
    read re-encodes to its bytes.
    Trees: a certificate or proof that verifies shows that the tree holds the leaf,
    or exhibits a collision of the hash; building proves every entry.
    Verification: an accepted token is certified through its whole history and
    every embedded token; the memos change no verdict; verification returns for
    every memo capacity that fits; no state is spent twice under one root.
    Payment: outputs accepted against one burned token hold no more than it did,
    and the split a client builds is accepted. Over any set of accepted tokens, none
    an ancestor of another, what they hold was issued; and two tokens of one id have
    one history -- unless they exhibit a double spend: two different transactions
    that spend one state, each with its proof, certified under two roots, which the
    aggregator, not this crate, must prevent.
    Views: derived certificates are accepted, pins are enforced, routing is unique.
    Clients: a consolidated token is accepted and keeps its history, for any
    transport that hands over decoded proofs and any executor that returns only
    results of its jobs; waves run every job once in every interleaving; mints and
    transfers succeed exactly when the returned proof certifies them.
    HTTP: a result answers the very request sent to a safe endpoint; a wait is
    bounded by its deadline; a lost race is reported only on evidence.

    A collision is a value here: [Collision] names the two messages, among those
    the program hashed. No theorem assumes that hashing is injective. The seal memo
    is keyed by a hash, so theorems about sessions end in [seal_collision K tb]: two
    decoded seals, both in [K], one with the quorum of [tb] and one without, whose
    memo messages collide. [K] are the seals of the run: those that the tokens and
    the tokens they embed carry ([run_seal]), or, for a session in use, any
    collection that covers what it was used with. When all of them have the quorum
    there is none ([all_good_no_clash]), and so the runs of [Scenario] have none
    ([no_good_collision]). The policy digests of non-inclusion contexts are treated
    alike ([context_collision]).

    * Bounds and fuel

    Integers keep their width: [wrap], [try_uint] and the saturating operations are
    those of the code. [usize] is 64 bits wide. Fuel stands where the recursion is
    not structural, and a theorem shows that it suffices: the item scanner
    ([item_len_complete], [item_len_sound]: the length of the input); the
    range-sum builder ([build_subtree_spec]: 257 levels, a key has 256 bits);
    embedded tokens ([verify_token_total]: the policy's depth limit, for every memo
    capacity of at most 2^58); a wait and its
    pauses ([wait_bounded]: one iteration per ten milliseconds up to the deadline).

    * Parameters

    SHA-2 ([Sha2]), secp256k1 ([K256], with the laws of signing and recovery),
    [num_bigint] ([BigUintOps]), random bytes, clocks ([Clock], [Monotonic], whose
    laws say that time does not go back), cancellation, the HTTP agent ([Host]),
    [serde_json] ([Serde]), [hex] ([HexCodec]) and the texts of [Display] ([Texts]).

    * Not modelled

    [Display] and [Debug] output, which nothing decides on. Constructors that only
    call the platform's random generator. The counters of the scaling tests
    (comparisons, path visits, admission work). The construction of the HTTP agent
    (timeout, HTTPS only, no redirects), the wiping of the API key, and
    [SystemClock], which reads the platform. The examples, the end-to-end program
    and the zkVM guest and host, which only call the crate. Running out of memory:
    a [Vec] is limited by its address range only ([FifoIndex.new]). Arithmetic
    that a release build wraps is wrapped; debug builds panic instead. *)

From stdpp Require Export base tactics list option numbers sets.
From Stdlib Require Export NArith Lia.
From Stdlib Require Import Strings.Byte.
From Stdlib Require Strings.String.
Export String.StringSyntax.
Delimit Scope string_scope with string.
Bind Scope string_scope with String.string.

#[export] Set Default Goal Selector "!".

Abbreviation byte := Byte.byte.
Abbreviation string := String.string.

(** * Outcomes: [Result] plus the panics of partial operations *)

Inductive outcome (E A : Type) : Type :=
| Ok (a : A)
| Err (e : E)
| Panic.
Arguments Ok {E A} a.
Arguments Err {E A} e.
Arguments Panic {E A}.

#[export] Instance outcome_ret {E} : MRet (outcome E) := fun A a => Ok a.
#[export] Instance outcome_bind {E} : MBind (outcome E) := fun A B k m =>
  match m with Ok a => k a | Err e => Err e | Panic => Panic end.
#[export] Instance outcome_fmap {E} : FMap (outcome E) := fun A B f m =>
  match m with Ok a => Ok (f a) | Err e => Err e | Panic => Panic end.

Section outcome_ops.
Context {E E' A B : Type}.

(** [Result::map_err] *)
Definition map_err (f : E -> E') (m : outcome E A) : outcome E' A :=
  match m with Ok a => Ok a | Err e => Err (f e) | Panic => Panic end.

(** [Option::ok_or] *)
Definition ok_or (e : E) (o : option A) : outcome E A :=
  match o with Some a => Ok a | None => Err e end.

(** [Option::expect] and checked indexing: panics on [None] *)
Definition or_panic (o : option A) : outcome E A :=
  match o with Some a => Ok a | None => Panic end.

Definition is_ok (m : outcome E A) : bool :=
  match m with Ok _ => true | _ => false end.

Definition to_option (m : outcome E A) : option A :=
  match m with Ok a => Some a | _ => None end.

(** [no_panic m]: the computation ends in [Ok] or [Err]. *)
Definition no_panic (m : outcome E A) : Prop := m <> Panic.
End outcome_ops.

(** [xs.map(f).collect::<Result<Vec<_>, _>>()] and the loops that push. *)
Fixpoint mapO {E A B} (f : A -> outcome E B) (l : list A) : outcome E (list B) :=
  match l with
  | [] => Ok []
  | x :: l' => y ← f x; ys ← mapO f l'; Ok (y :: ys)
  end.

(** A [for] loop over [l] that updates a state and may return early. *)
Fixpoint foldM {E A S} (f : S -> A -> outcome E S) (s : S) (l : list A) : outcome E S :=
  match l with
  | [] => Ok s
  | x :: l' => s' ← f s x; foldM f s' l'
  end.

(** [Option] in code that may also panic: [None] is [Err tt]. *)
Abbreviation maybe := (outcome unit).

(** [r.expect(..)] and [r.unwrap()] *)
Definition expect {E E' A} (m : outcome E A) : outcome E' A :=
  match m with Ok a => Ok a | _ => Panic end.

Lemma bind_Ok {E A B} (m : outcome E A) (k : A -> outcome E B) b :
  (m ≫= k) = Ok b <-> exists a, m = Ok a /\ k a = Ok b.
Proof. destruct m; simpl; naive_solver. Qed.

Lemma bind_Ok_l {E A B} (a : A) (k : A -> outcome E B) : (Ok a ≫= k) = k a.
Proof. done. Qed.

Lemma map_err_Ok {E E' A} (f : E -> E') (m : outcome E A) a :
  map_err f m = Ok a <-> m = Ok a.
Proof. destruct m; simpl; naive_solver. Qed.

Lemma ok_or_Ok {E A} (e : E) (o : option A) a : ok_or e o = Ok a <-> o = Some a.
Proof. destruct o; simpl; naive_solver. Qed.

Lemma or_panic_Ok {E A} (o : option A) a : @or_panic E A o = Ok a <-> o = Some a.
Proof. destruct o; simpl; naive_solver. Qed.

Lemma fmap_Ok {E A B} (f : A -> B) (m : outcome E A) b :
  f <$> m = Ok b <-> exists a, m = Ok a /\ b = f a.
Proof. destruct m; simpl; naive_solver. Qed.

Lemma is_ok_Ok {E A} (m : outcome E A) : is_ok m = true <-> exists a, m = Ok a.
Proof. destruct m; simpl; naive_solver. Qed.

Lemma no_panic_bind {E A B} (m : outcome E A) (k : A -> outcome E B) :
  no_panic m -> (forall a, m = Ok a -> no_panic (k a)) -> no_panic (m ≫= k).
Proof. destruct m; unfold no_panic; simpl; eauto. Qed.

Lemma no_panic_Ok {E A} (a : A) : no_panic (@Ok E A a).
Proof. discriminate. Qed.

Lemma no_panic_Err {E A} (e : E) : no_panic (@Err E A e).
Proof. discriminate. Qed.

Lemma no_panic_map_err {E E' A} (f : E -> E') (m : outcome E A) :
  no_panic m -> no_panic (map_err f m).
Proof. destruct m; unfold no_panic; simpl; congruence. Qed.

Lemma no_panic_ok_or {E A} (e : E) (o : option A) : no_panic (ok_or e o).
Proof. by destruct o. Qed.

Lemma no_panic_fmap {E A B} (f : A -> B) (m : outcome E A) : no_panic m -> no_panic (f <$> m).
Proof. destruct m; unfold no_panic; simpl; congruence. Qed.

Lemma mapO_Forall2 {E A B} (f : A -> outcome E B) l k :
  mapO f l = Ok k <-> Forall2 (fun x y => f x = Ok y) l k.
Proof.
  revert k. induction l as [|x l IH]; intros k; simpl.
  - split; [intros [= <-]; constructor | intros H; by inversion H].
  - rewrite bind_Ok. setoid_rewrite bind_Ok. setoid_rewrite IH. split.
    + intros (y & Hy & ys & Hys & [= <-]). by constructor.
    + intros H. inversion H; subst. naive_solver.
Qed.

Lemma mapO_fmap {E A B C} (f : A -> outcome E B) (g : C -> A) (h : C -> B) l :
  (forall c, c ∈ l -> f (g c) = Ok (h c)) -> mapO f (g <$> l) = Ok (h <$> l).
Proof.
  induction l as [|c l IH]; intros H; csimpl; [done|].
  rewrite H by set_solver. simpl. rewrite IH by set_solver. done.
Qed.

Lemma no_panic_mapO {E A B} (f : A -> outcome E B) l :
  (forall x, x ∈ l -> no_panic (f x)) -> no_panic (mapO f l).
Proof.
  induction l as [|x l IH]; intros H; simpl; [apply no_panic_Ok|].
  apply no_panic_bind; [apply H; set_solver|]. intros y _.
  apply no_panic_bind; [apply IH; set_solver|]. intros; apply no_panic_Ok.
Qed.

Lemma foldM_app {E A S} (f : S -> A -> outcome E S) l k : forall s,
  foldM f s (l ++ k) = (s' ← foldM f s l; foldM f s' k).
Proof.
  induction l as [|x l IH]; intros s; simpl; [done|]. destruct (f s x); simpl; [apply IH|done..].
Qed.

Lemma foldM_inv {E A S} (P : S -> Prop) (f : S -> A -> outcome E S) l :
  (forall s x s', x ∈ l -> P s -> f s x = Ok s' -> P s') ->
  forall s s', P s -> foldM f s l = Ok s' -> P s'.
Proof.
  induction l as [|x l IH]; intros Hf s s' Hs; simpl; [by intros [= <-]|].
  intros (s1 & H1 & H2)%bind_Ok. eapply IH; [|eapply Hf, H1; set_solver|done].
  intros. eapply Hf; [|done..]. set_solver.
Qed.

Lemma no_panic_foldM {E A S} (f : S -> A -> outcome E S) l :
  (forall s x, x ∈ l -> no_panic (f s x)) -> forall s, no_panic (foldM f s l).
Proof.
  induction l as [|x l IH]; intros H s; simpl; [apply no_panic_Ok|].
  apply no_panic_bind; [apply H; set_solver|]. intros. apply IH. intros. apply H. set_solver.
Qed.

Lemma no_panic_foldM_inv {E A S} (P : S -> Prop) (f : S -> A -> outcome E S) l :
  (forall s x, x ∈ l -> P s -> no_panic (f s x) /\ forall s', f s x = Ok s' -> P s') ->
  forall s, P s -> no_panic (foldM f s l).
Proof.
  induction l as [|x l IH]; intros H s Hs; simpl; [apply no_panic_Ok|].
  destruct (H s x) as [Hn Hp]; [set_solver|done|].
  apply no_panic_bind; [done|]. intros s' Hs'. apply IH; [|by apply Hp]. intros. apply H; [set_solver|done].
Qed.

Create HintDb outcome discriminated.
#[export] Hint Resolve no_panic_Ok no_panic_Err no_panic_bind no_panic_fmap no_panic_map_err
  no_panic_ok_or no_panic_mapO no_panic_foldM : outcome.

(** Invert a successful run of monadic code, one bind and one guard at a time. *)
Ltac inv_ok :=
  repeat match goal with
  | H : Ok _ = Ok _ |- _ => injection H as H; subst
  | H : Err _ = Ok _ |- _ => discriminate H
  | H : Panic = Ok _ |- _ => discriminate H
  | H : (_ ≫= _) = Ok _ |- _ =>
      let a := fresh "a" in let E := fresh "E" in
      apply bind_Ok in H as (a & E & H)
  | H : map_err _ _ = Ok _ |- _ => apply map_err_Ok in H
  | H : ok_or _ _ = Ok _ |- _ => apply ok_or_Ok in H
  | H : or_panic _ = Ok _ |- _ => apply or_panic_Ok in H
  | H : (if ?b then Err _ else _) = Ok _ |- _ =>
      let E := fresh "G" in destruct b eqn:E; [discriminate H|]
  | H : (if ?b then _ else Err _) = Ok _ |- _ =>
      let E := fresh "G" in destruct b eqn:E; [|discriminate H]
  end.

(** Prove that monadic code does not panic: one bind or match at a time, the
    calls by the hint database. *)
Ltac solve_no_panic :=
  repeat first
  [ progress intros
  | solve [auto with outcome]
  | apply no_panic_bind
  | case_match ].

(** [lia] with division and remainder by constants. *)
Ltac divmod_lia := zify; Z.to_euclidean_division_equations; lia.
