(* ===== verification/State.v ===== *)
(** A state monad over [outcome]: methods on [&mut self] that may fail. The
    state a failing call leaves behind is kept, as in the code. *)

From S2P Require Import Prelude.

Definition M (S E A : Type) : Type := S -> outcome E A * S.

#[export] Instance M_ret S E : MRet (M S E) := fun A a s => (Ok a, s).
#[export] Instance M_bind S E : MBind (M S E) := fun A B k m s =>
  match m s with
  | (Ok a, s) => k a s
  | (Err e, s) => (Err e, s)
  | (Panic, s) => (Panic, s)
  end.

Section ops.
Context {S E : Type}.

Definition stateM {A} (f : S -> outcome E A * S) : M S E A := f.

(** [r?] for a call that does not touch the state *)
Definition liftM {A} (r : outcome E A) : M S E A := fun s => (r, s).
Definition get : M S E S := fun s => (Ok s, s).
Definition modify (f : S -> S) : M S E unit := fun s => (Ok tt, f s).
Definition map_errM {E' A} (f : E -> E') (m : M S E A) : M S E' A := fun s =>
  let '(r, s) := m s in (map_err f r, s).

(** A call on a field of the state. *)
Definition zoom {T A} (view : S -> T) (set : T -> S -> S) (m : M T E A) : M S E A := fun s =>
  let '(r, t) := m (view s) in (r, set t s).

(** [for a in l { f(a)? }] *)
Fixpoint forM_ {A} (f : A -> M S E unit) (l : list A) : M S E unit :=
  match l with
  | [] => mret tt
  | a :: l => _ ← f a; forM_ f l
  end.

(** One step of a run. *)
Lemma bindM_run {A B} (m : M S E A) (k : A -> M S E B) s : (m ≫= k) s =
  match m s with
  | (Ok a, s) => k a s
  | (Err e, s) => (Err e, s)
  | (Panic, s) => (Panic, s)
  end.
Proof. done. Qed.

Lemma bindM_Ok {A B} (m : M S E A) (k : A -> M S E B) s b s' :
  (m ≫= k) s = (Ok b, s') <-> exists a s1, m s = (Ok a, s1) /\ k a s1 = (Ok b, s').
Proof.
  unfold mbind, M_bind. destruct (m s) as [[a|e|] s1]; split; try done.
  - intros. by exists a, s1.
  - by intros (? & ? & [= <- <-] & ?).
  - by intros (? & ? & ? & ?).
  - by intros (? & ? & ? & ?).
Qed.

Lemma liftM_Ok {A} (r : outcome E A) s a s' : liftM r s = (Ok a, s') <-> r = Ok a /\ s' = s.
Proof. unfold liftM. split; [by intros [= -> <-]|by intros [-> ->]]. Qed.

(** A property of the state that every outcome keeps. *)
Definition keeps (I : S -> Prop) {A} (m : M S E A) : Prop := forall s, I s -> I (snd (m s)).

Lemma keeps_bind (I : S -> Prop) {A B} (m : M S E A) (k : A -> M S E B) :
  keeps I m -> (forall a, keeps I (k a)) -> keeps I (m ≫= k).
Proof.
  intros Hm Hk s Hs. unfold mbind, M_bind. pose proof (Hm s Hs) as H.
  destruct (m s) as [[a|e|] s1]; [by apply Hk|done..].
Qed.

Lemma keeps_lift (I : S -> Prop) {A} (r : outcome E A) : keeps I (liftM r).
Proof. by intros s. Qed.

Lemma keeps_ret (I : S -> Prop) {A} (a : A) : keeps I (mret a : M S E A).
Proof. by intros s. Qed.

Lemma keeps_map_err (I : S -> Prop) {E' A} (f : E -> E') (m : M S E A) : keeps I m -> forall s, I s -> I (snd (map_errM f m s)).
Proof. intros Hm s Hs. unfold map_errM. pose proof (Hm s Hs). by destruct (m s). Qed.

Lemma keeps_forM (I : S -> Prop) {A} (f : A -> M S E unit) l : (forall a, keeps I (f a)) -> keeps I (forM_ f l).
Proof. intros Hf. induction l as [|a l IH]; simpl; [apply keeps_ret|]. by apply keeps_bind. Qed.

(** No state makes the call panic. *)
Definition never_panics {A} (m : M S E A) : Prop := forall s, no_panic (fst (m s)).

Lemma never_panics_bind {A B} (m : M S E A) (k : A -> M S E B) :
  never_panics m -> (forall a, never_panics (k a)) -> never_panics (m ≫= k).
Proof.
  intros Hm Hk s. unfold mbind, M_bind. pose proof (Hm s) as H.
  destruct (m s) as [[a|e|] s1]; [by apply Hk|done..].
Qed.

Lemma never_panics_bind_lift {A B} (r : outcome E A) (k : A -> M S E B) :
  no_panic r -> (forall a, r = Ok a -> never_panics (k a)) -> never_panics (liftM r ≫= k).
Proof. intros Hr Hk s. rewrite bindM_run. unfold liftM. destruct r as [a|e|]; [by apply Hk|done..]. Qed.

Lemma never_panics_lift {A} (r : outcome E A) : no_panic r -> never_panics (liftM r).
Proof. by intros Hr s. Qed.

(** From a state with the invariant the call returns, and keeps it. *)
Definition steady (I : S -> Prop) {A} (m : M S E A) : Prop := forall s, I s -> no_panic (fst (m s)) /\ I (snd (m s)).

Lemma steady_bind (I : S -> Prop) {A B} (m : M S E A) (k : A -> M S E B) :
  steady I m -> (forall a, steady I (k a)) -> steady I (m ≫= k).
Proof.
  intros Hm Hk s Hs. rewrite bindM_run. destruct (Hm s Hs) as [Hn Hi]. destruct (m s) as [[a|e|] s1]; [by apply Hk|done..].
Qed.

Lemma steady_bind_lift (I : S -> Prop) {A B} (r : outcome E A) (k : A -> M S E B) :
  no_panic r -> (forall a, r = Ok a -> steady I (k a)) -> steady I (liftM r ≫= k).
Proof. intros Hr Hk s Hs. rewrite bindM_run. unfold liftM. destruct r as [a|e|]; [by apply Hk|done..]. Qed.

Lemma steady_lift (I : S -> Prop) {A} (r : outcome E A) : no_panic r -> steady I (liftM r).
Proof. by intros Hr s Hs. Qed.

Lemma steady_ret (I : S -> Prop) {A} (a : A) : steady I (mret a : M S E A).
Proof. by intros s Hs. Qed.

Lemma steady_modify (I : S -> Prop) f : (forall s, I s -> I (f s)) -> steady I (modify f).
Proof. intros Hf s Hs. split; [done|by apply Hf]. Qed.

Lemma steady_get (I : S -> Prop) {A} (k : S -> M S E A) : (forall s, steady I (k s)) -> steady I (s ← get; k s).
Proof. intros Hk s Hs. rewrite bindM_run. by apply Hk. Qed.
End ops.

Lemma steady_map_err {S E E'} (I : S -> Prop) {A} (f : E -> E') (m : M S E A) : steady I m -> steady I (map_errM f m).
Proof.
  intros Hm s Hs. unfold map_errM. destruct (Hm s Hs) as [Hn Hi]. destruct (m s) as [r s1]. simpl in *. auto with outcome.
Qed.

(** A call on a field keeps an invariant of the state when it keeps one of the field. *)
Lemma steady_zoom {S T E A} (I : S -> Prop) (J : T -> Prop) (view : S -> T) (set : T -> S -> S) (m : M T E A) :
  (forall s, I s -> J (view s)) -> (forall s t, I s -> J t -> I (set t s)) -> steady J m -> steady I (zoom view set m).
Proof.
  intros Hv Hs Hm s Hi. unfold zoom. destruct (Hm (view s) (Hv s Hi)) as [Hn Hj]. destruct (m (view s)) as [r t]. simpl in *.
  split; [done|by apply Hs].
Qed.
