(* ===== verification/Bytes.v ===== *)
(** Bytes, machine-width integers, fixed-size arrays and slices: the Rust data
    types the components share.

    A type whose values satisfy a decidable invariant ([u64], [[u8; n]], [str])
    is a subset record [sub p] with a boolean proof, so that two values with
    the same content are equal and no invariant has to be carried as a
    hypothesis. *)

From S2P Require Import Prelude.
From Stdlib Require Import Strings.Byte.
Local Open Scope N_scope.

(** * Subset types *)

Record sub {A : Type} (p : A -> bool) : Type := Sub { val : A; val_ok : p val = true }.
Arguments Sub {A p} val val_ok.
Arguments val {A p} _.
Arguments val_ok {A p} _.

Section sub.
Context {A : Type} {p : A -> bool}.

Lemma val_inj (x y : sub p) : val x = val y -> x = y.
Proof.
  destruct x as [x Hx], y as [y Hy]; simpl; intros ->. f_equal.
  apply (Eqdep_dec.UIP_dec Bool.bool_dec).
Qed.

(** The checked conversion ([TryFrom]). *)
Definition mk_sub_if (a : A) (b : bool) : p a = b -> option (sub p) :=
  match b with
  | true => fun H => Some (Sub a H)
  | false => fun _ => None
  end.

Definition mk_sub (a : A) : option (sub p) := mk_sub_if a (p a) eq_refl.

Lemma mk_sub_spec a :
  (exists s, mk_sub a = Some s /\ val s = a /\ p a = true) \/ (mk_sub a = None /\ p a = false).
Proof.
  unfold mk_sub.
  assert (forall b (H : p a = b), (exists s, mk_sub_if a b H = Some s /\ val s = a /\ b = true) \/
    (mk_sub_if a b H = None /\ b = false)) as G; [|apply G].
  intros [] H; simpl; [left; eauto | by right].
Qed.

Lemma mk_sub_Some a s : mk_sub a = Some s <-> val s = a.
Proof.
  destruct (mk_sub_spec a) as [(s' & -> & Hv & Hp)|[-> Hp]]; split.
  - intros [= <-]. done.
  - intros Hs. f_equal. apply val_inj. congruence.
  - done.
  - intros <-. by rewrite val_ok in Hp.
Qed.

Lemma mk_sub_val s : mk_sub (val s) = Some s.
Proof. by apply mk_sub_Some. Qed.

Lemma mk_sub_None a : mk_sub a = None <-> p a = false.
Proof.
  destruct (mk_sub_spec a) as [(s' & -> & _ & ->)|[-> ->]]; split; done.
Qed.

#[export] Instance sub_eq_dec `{EqDecision A} : EqDecision (sub p).
Proof.
  intros x y. destruct (decide (val x = val y)) as [H|H].
  - left. by apply val_inj.
  - right. by intros ->.
Defined.
End sub.

(** * Unsigned integers of [w] bits *)

Abbreviation uint w := (sub (fun v : N => v <? 2 ^ w)).
Abbreviation u16 := (uint 16).
Abbreviation u32 := (uint 32).
Abbreviation u64 := (uint 64).

(** [usize] of the 64-bit hosts the SDK runs on. *)
Abbreviation usize := (uint 64).
Definition usize_max : N := 2 ^ 64 - 1.

Lemma uint_bound {w} (x : uint w) : val x < 2 ^ w.
Proof. apply N.ltb_lt, (val_ok x). Qed.

Lemma wrap_ok w v : (v mod 2 ^ w <? 2 ^ w) = true.
Proof. apply N.ltb_lt, N.mod_upper_bound. by apply N.pow_nonzero. Qed.

(** [v as uW]: truncation. *)
Definition wrap (w v : N) : uint w := Sub (v mod 2 ^ w) (wrap_ok w v).

(** [+] and [-] of a release build, on counters. *)
Definition add_u64 (a : u64) (n : N) : u64 := wrap 64 (val a + n).
Definition sub_u64 (a b : u64) : u64 := wrap 64 (val a + (2 ^ 64 - val b)).

Lemma val_wrap w v : v < 2 ^ w -> val (wrap w v) = v.
Proof. intros. simpl. by apply N.mod_small. Qed.

Lemma wrap_val {w} (x : uint w) : wrap w (val x) = x.
Proof. apply val_inj, val_wrap, uint_bound. Qed.

(** [uW::try_from] *)
Definition try_uint (w v : N) : option (uint w) := mk_sub v.

Lemma try_uint_Some w v x : try_uint w v = Some x <-> val x = v.
Proof. apply mk_sub_Some. Qed.

Lemma try_uint_val {w} (x : uint w) : try_uint w (val x) = Some x.
Proof. by apply try_uint_Some. Qed.

(** Widening: [x as uK] for [w <= K]. *)
Lemma widen {w} k (x : uint w) : (w <=? k) = true -> val x mod 2 ^ k = val x.
Proof.
  intros Hw%N.leb_le. apply N.mod_small. eapply N.lt_le_trans; [apply uint_bound|].
  by apply N.pow_le_mono_r.
Qed.

(** [checked_add] on [usize] *)
Definition checked_add (a b : N) : option N :=
  if a + b <=? usize_max then Some (a + b) else None.

(** * Bytes *)

Abbreviation bytes := (list byte).

#[export] Instance byte_eq_decision : EqDecision byte := Byte.byte_eq_dec.

Definition b2n (b : byte) : N := Byte.to_N b.

Definition n2b (n : N) : byte :=
  match Byte.of_N (n mod 256) with Some b => b | None => x00 end.

Lemma b2n_bound b : b2n b < 256.
Proof. pose proof (Byte.to_N_bounded b). unfold b2n. lia. Qed.

Lemma b2n_n2b n : b2n (n2b n) = n mod 256.
Proof.
  unfold n2b, b2n. destruct (Byte.of_N (n mod 256)) eqn:E.
  - by apply Byte.to_of_N in E.
  - apply Byte.of_N_None_iff in E. pose proof (N.mod_upper_bound n 256). lia.
Qed.

Lemma n2b_b2n b : n2b (b2n b) = b.
Proof.
  unfold n2b, b2n. rewrite N.mod_small by apply b2n_bound.
  by rewrite Byte.of_to_N.
Qed.

Lemma b2n_n2b_small n : n < 256 -> b2n (n2b n) = n.
Proof. intros. rewrite b2n_n2b. by apply N.mod_small. Qed.

Lemma b2n_inj a b : b2n a = b2n b -> a = b.
Proof. intros H. rewrite <- (n2b_b2n a), <- (n2b_b2n b). congruence. Qed.

(** A property of all bytes is decided by evaluating it on each of them. *)
Definition all_bytes : bytes := n2b <$> (N.of_nat <$> seq 0 256).

Lemma all_bytes_complete b : b ∈ all_bytes.
Proof.
  unfold all_bytes. rewrite <- (n2b_b2n b). apply list_elem_of_fmap_2.
  rewrite <- (N2Nat.id (b2n b)). apply list_elem_of_fmap_2, elem_of_seq.
  pose proof (b2n_bound b). lia.
Qed.

Lemma byte_forall (f : byte -> bool) : forallb f all_bytes = true -> forall b, f b = true.
Proof.
  intros H b. rewrite forallb_forall in H. apply H.
  apply list_elem_of_In, all_bytes_complete.
Qed.

Lemma seqN_forall (f : N -> bool) n :
  forallb (fun i => f (N.of_nat i)) (seq 0 n) = true -> forall i, i < N.of_nat n -> f i = true.
Proof.
  intros H i Hi. rewrite forallb_forall in H.
  rewrite <- (N2Nat.id i). apply H, in_seq. lia.
Qed.

(** * Lengths and slices *)

Definition len {A} (l : list A) : N := N.of_nat (length l).

Lemma len_app {A} (l k : list A) : len (l ++ k) = len l + len k.
Proof. unfold len. rewrite length_app. lia. Qed.
Lemma len_cons {A} (x : A) l : len (x :: l) = 1 + len l.
Proof. unfold len. simpl length. lia. Qed.
Lemma len_nil {A} : len (@nil A) = 0.
Proof. done. Qed.

Create HintDb lens discriminated.
#[export] Hint Rewrite @len_app @len_cons @len_nil : lens.

(** Arithmetic on lengths. *)
Ltac len_lia := autorewrite with lens in *; lia.

(** [l.get(pos..)] *)
Definition get_from {A} (l : list A) (pos : N) : option (list A) :=
  if pos <=? len l then Some (drop (N.to_nat pos) l) else None.

(** [l.get(a..b)] *)
Definition get_range {A} (l : list A) (a b : N) : option (list A) :=
  if (a <=? b) && (b <=? len l)
  then Some (take (N.to_nat (b - a)) (drop (N.to_nat a) l)) else None.

Lemma get_from_app {A} (l k : list A) : get_from (l ++ k) (len l) = Some k.
Proof.
  unfold get_from. rewrite len_app. destruct (N.leb_spec (len l) (len l + len k)); [|lia].
  unfold len. by rewrite Nat2N.id, drop_app_length.
Qed.

Lemma get_from_Some {A} (l : list A) pos r :
  get_from l pos = Some r <-> exists p, l = p ++ r /\ len p = pos.
Proof.
  split.
  - unfold get_from. destruct (N.leb_spec pos (len l)) as [Hp|]; [|done].
    intros [= <-]. exists (take (N.to_nat pos) l). rewrite take_drop. split; [done|].
    unfold len in *. rewrite length_take. lia.
  - intros (p & -> & <-). apply get_from_app.
Qed.

Lemma get_range_app {A} (l k r : list A) :
  get_range (l ++ k ++ r) (len l) (len l + len k) = Some k.
Proof.
  unfold get_range. rewrite !len_app.
  destruct (N.leb_spec (len l) (len l + len k)); [|lia].
  destruct (N.leb_spec (len l + len k) (len l + (len k + len r))); [|lia]. simpl.
  replace (len l + len k - len l) with (len k) by lia.
  unfold len. by rewrite !Nat2N.id, drop_app_length, take_app_length.
Qed.

Lemma get_range_Some {A} (l : list A) a b k :
  get_range l a b = Some k <->
  exists p r, l = p ++ k ++ r /\ len p = a /\ len p + len k = b.
Proof.
  split.
  - unfold get_range. destruct (N.leb_spec a b); [|done].
    destruct (N.leb_spec b (len l)); [|done]. simpl. intros [= <-].
    exists (take (N.to_nat a) l), (drop (N.to_nat (b - a)) (drop (N.to_nat a) l)).
    rewrite !take_drop. unfold len in *. rewrite !length_take, length_drop.
    split_and!; [done|lia|lia].
  - intros (p & r & -> & <- & <-). apply get_range_app.
Qed.

(** * Fixed-size arrays [[u8; n]] *)

Abbreviation arr n := (sub (fun l : bytes => Nat.eqb (length l) n)).

Lemma arr_length {n} (a : arr n) : length (val a) = n.
Proof. apply Nat.eqb_eq, (val_ok a). Qed.

(** [<[u8; n]>::try_from(slice)] *)
Definition try_arr (n : nat) (l : bytes) : option (arr n) := mk_sub l.

Lemma try_arr_Some n l a : try_arr n l = Some a <-> val a = l.
Proof. apply mk_sub_Some. Qed.

Lemma try_arr_None n l : try_arr n l = None <-> length l <> n.
Proof. unfold try_arr. rewrite mk_sub_None. apply Nat.eqb_neq. Qed.

Lemma try_arr_val {n} (a : arr n) : try_arr n (val a) = Some a.
Proof. apply mk_sub_val. Qed.

(** An array from a list that is padded or cut to the length: for literals. *)
Lemma fit_ok n (l : bytes) : Nat.eqb (length (take n (l ++ replicate n x00))) n = true.
Proof. apply Nat.eqb_eq. rewrite length_take, length_app, length_replicate. lia. Qed.

Definition fit n (l : bytes) : arr n := Sub (take n (l ++ replicate n x00)) (fit_ok n l).

Lemma val_fit n l : length l = n -> val (fit n l) = l.
Proof. intros <-. simpl. by rewrite take_app_length. Qed.

Lemma fit_val {n} (a : arr n) : fit n (val a) = a.
Proof. apply val_inj, val_fit, arr_length. Qed.

Lemma arr_ext {n} (a b : arr n) : val a = val b <-> a = b.
Proof. split; [apply val_inj | by intros ->]. Qed.

(** * Big-endian integers *)

Fixpoint be_bytes (k : nat) (v : N) : bytes :=
  match k with
  | O => []
  | S k => be_bytes k (v / 256) ++ [n2b v]
  end.

Definition be_value (l : bytes) : N := fold_left (fun acc b => acc * 256 + b2n b) l 0.

Lemma be_value_snoc l b : be_value (l ++ [b]) = be_value l * 256 + b2n b.
Proof. unfold be_value. by rewrite fold_left_app. Qed.

Lemma length_be_bytes k v : length (be_bytes k v) = k.
Proof.
  revert v. induction k as [|k IH]; intros; simpl; [done|].
  rewrite length_app, IH. simpl. lia.
Qed.

Lemma len_be_bytes k v : len (be_bytes k v) = N.of_nat k.
Proof. unfold len. by rewrite length_be_bytes. Qed.

Lemma pow_256_S k : 256 ^ N.of_nat (S k) = 256 * 256 ^ N.of_nat k.
Proof. rewrite Nat2N.inj_succ, N.pow_succ_r'. done. Qed.

Lemma be_value_be_bytes k v : be_value (be_bytes k v) = v mod 256 ^ N.of_nat k.
Proof.
  revert v. induction k as [|k IH]; intros; simpl be_bytes.
  - symmetry. apply N.mod_1_r.
  - rewrite be_value_snoc, IH, b2n_n2b, pow_256_S, N.Div0.mod_mul_r. lia.
Qed.

Lemma be_value_bound l : be_value l < 256 ^ len l.
Proof.
  induction l as [|b l IH] using rev_ind; [done|].
  rewrite be_value_snoc, len_app. change (len [b]) with 1.
  rewrite N.pow_add_r, N.pow_1_r. pose proof (b2n_bound b). nia.
Qed.

Lemma be_value_lower b l : b2n b <> 0 -> 256 ^ len l <= be_value (b :: l).
Proof.
  intros Hb. induction l as [|x l IH] using rev_ind.
  - change (be_value [b]) with (0 * 256 + b2n b). change (256 ^ len []) with 1. lia.
  - change (b :: l ++ [x]) with ((b :: l) ++ [x]). rewrite be_value_snoc, len_app.
    change (len [x]) with 1. rewrite N.pow_add_r. lia.
Qed.

Lemma be_bytes_be_value l : be_bytes (length l) (be_value l) = l.
Proof.
  induction l as [|b l IH] using rev_ind; [done|].
  rewrite length_app, Nat.add_1_r. simpl be_bytes. rewrite be_value_snoc.
  pose proof (b2n_bound b).
  rewrite N.div_add_l, N.div_small, N.add_0_r, IH by lia. f_equal.
  f_equal. apply b2n_inj. rewrite b2n_n2b, N.add_comm, N.Div0.mod_add.
  by apply N.mod_small.
Qed.

Lemma be_value_inj l k : length l = length k -> be_value l = be_value k -> l = k.
Proof.
  intros Hl Hv. rewrite <- (be_bytes_be_value l), <- (be_bytes_be_value k).
  congruence.
Qed.

(** * Lexicographic order ([Ord] on slices) *)

Fixpoint bytes_cmp (a b : bytes) : comparison :=
  match a, b with
  | [], [] => Eq
  | [], _ => Lt
  | _, [] => Gt
  | x :: a', y :: b' =>
      match b2n x ?= b2n y with Eq => bytes_cmp a' b' | c => c end
  end.

Lemma bytes_cmp_refl a : bytes_cmp a a = Eq.
Proof. induction a as [|x a IH]; simpl; [done|]. by rewrite N.compare_refl. Qed.

Lemma bytes_cmp_eq a b : bytes_cmp a b = Eq <-> a = b.
Proof.
  split; [|intros ->; apply bytes_cmp_refl].
  revert b. induction a as [|x a IH]; intros [|y b]; simpl; try done.
  destruct (N.compare_spec (b2n x) (b2n y)) as [E| |]; try done.
  intros H. f_equal; [by apply b2n_inj | by apply IH].
Qed.

Lemma bytes_cmp_antisym a b : bytes_cmp b a = CompOpp (bytes_cmp a b).
Proof.
  revert b. induction a as [|x a IH]; intros [|y b]; simpl; try done.
  rewrite (N.compare_antisym (b2n x) (b2n y)).
  destruct (b2n x ?= b2n y); simpl; auto.
Qed.

Lemma bytes_cmp_trans a b c : bytes_cmp a b = Lt -> bytes_cmp b c = Lt -> bytes_cmp a c = Lt.
Proof.
  revert b c. induction a as [|x a IH]; intros [|y b] [|z c]; simpl; try done.
  destruct (N.compare_spec (b2n x) (b2n y)), (N.compare_spec (b2n y) (b2n z)),
    (N.compare_spec (b2n x) (b2n z)); try done; try lia. apply IH.
Qed.

(** * UTF-8 ([core::str::from_utf8]) *)

Definition in_range (lo hi : N) (b : byte) : bool := (lo <=? b2n b) && (b2n b <=? hi).
Definition utf8_cont : byte -> bool := in_range 0x80 0xBF.

Fixpoint utf8_valid (l : bytes) : bool :=
  match l with
  | [] => true
  | b :: r =>
      if in_range 0x00 0x7F b then utf8_valid r
      else match r with
      | c1 :: r1 =>
          if in_range 0xC2 0xDF b then utf8_cont c1 && utf8_valid r1
          else match r1 with
          | c2 :: r2 =>
              if in_range 0xE0 0xE0 b then in_range 0xA0 0xBF c1 && utf8_cont c2 && utf8_valid r2
              else if in_range 0xED 0xED b then in_range 0x80 0x9F c1 && utf8_cont c2 && utf8_valid r2
              else if in_range 0xE1 0xEF b then utf8_cont c1 && utf8_cont c2 && utf8_valid r2
              else match r2 with
              | c3 :: r3 =>
                  utf8_cont c2 && utf8_cont c3 &&
                  (if in_range 0xF0 0xF0 b then in_range 0x90 0xBF c1
                   else if in_range 0xF1 0xF3 b then utf8_cont c1
                   else if in_range 0xF4 0xF4 b then in_range 0x80 0x8F c1
                   else false) && utf8_valid r3
              | [] => false
              end
          | [] => false
          end
      | [] => false
      end
  end.

(** [String] and [&str] *)
Abbreviation str := (sub utf8_valid).
