(* ===== verification/Error.v ===== *)
(** The crate's error types ([src/error.rs]): the variants of [CborError] and
    [Error], with the payloads callers can observe. *)

From S2P Require Import Prelude Bytes.

Inductive CborError : Type :=
| UnexpectedEof
| UnexpectedMajorType (expected found : N)
| UnexpectedArrayLength (expected found : N)
| UnexpectedTag (expected found : N)
| UnsupportedAdditionalInfo (info : N)
| TrailingBytes
| IntegerOverflow
| NonCanonicalEncoding
| NonCanonicalMapOrder
| DuplicateMapKey
| LimitExceeded (resource : string).

Inductive Error : Type :=
| Cbor (e : CborError)
| InvalidLength (what : string) (expected actual : N)
| UnknownHashAlgorithm (id : N)
| Crypto (m : string)
| OutOfRange (m : string)
| UnexpectedValue (m : string)
| InvalidTrustBase (m : string).

(** [impl From<CborError> for Error]: the conversion the [?] operator inserts. *)
Definition from_cbor_error : CborError -> Error := Cbor.

Abbreviation cresult := (outcome CborError).
Abbreviation result := (outcome Error).

(** [r?] on a CBOR result inside a function returning [Result<_, Error>]. *)
Definition lift {A} (r : cresult A) : result A := map_err from_cbor_error r.

Lemma lift_Ok {A} (r : cresult A) a : lift r = Ok a <-> r = Ok a.
Proof. apply map_err_Ok. Qed.

Lemma no_panic_lift {A} (r : cresult A) : no_panic r -> no_panic (lift r).
Proof. apply no_panic_map_err. Qed.
#[export] Hint Resolve no_panic_lift : outcome.
