(* ===== verification/Cbor.v ===== *)
(** The canonical CBOR codec: [src/cbor/encode.rs] and [src/cbor/decode.rs].

    Encoders frame already-encoded children; the decoder hands out borrowed
    sub-slices, one per child item. [usize] is 64 bits wide, a [&mut usize]
    budget is threaded through the calls, and an allocation that fails
    ([Vec::try_reserve]) is not modelled. *)

From S2P Require Import Prelude Bytes Error.
Local Open Scope N_scope.

(** * [mod major], [mod simple] *)

Module major.
Definition UINT : N := 0x00.
Definition NEGINT : N := 0x20.
Definition BYTES : N := 0x40.
Definition TEXT : N := 0x60.
Definition ARRAY : N := 0x80.
Definition MAP : N := 0xa0.
Definition TAG : N := 0xc0.
Definition SIMPLE : N := 0xe0.
End major.

Module simple.
Definition FALSE : N := 0xf4.
Definition TRUE : N := 0xf5.
Definition NULL : N := 0xf6.
End simple.

(** * Encoders *)

Definition push_head (out : bytes) (major : N) (value : u64) : bytes :=
  let v := val value in
  if v <? 24 then out ++ [n2b (N.lor major v)]
  else if v <=? 0xff then out ++ [n2b (N.lor major 24)] ++ be_bytes 1 v
  else if v <=? 0xffff then out ++ [n2b (N.lor major 25)] ++ be_bytes 2 v
  else if v <=? 0xffffffff then out ++ [n2b (N.lor major 26)] ++ be_bytes 4 v
  else out ++ [n2b (N.lor major 27)] ++ be_bytes 8 v.

Definition head (major : N) (value : u64) : bytes := push_head [] major value.

Definition encode_uint (value : u64) : bytes := head major.UINT value.

Definition encode_byte_string (data : bytes) : bytes :=
  push_head [] major.BYTES (wrap 64 (len data)) ++ data.

Definition encode_text_string (text : str) : bytes :=
  push_head [] major.TEXT (wrap 64 (len (val text))) ++ val text.

Definition encode_array (items : list bytes) : bytes :=
  push_head [] major.ARRAY (wrap 64 (len items)) ++ concat items.

Definition encode_tag (tag : u64) (content : bytes) : bytes :=
  push_head [] major.TAG tag ++ content.

Definition encode_null : bytes := [n2b simple.NULL].

Definition encode_bool (value : bool) : bytes :=
  [n2b (if value then simple.TRUE else simple.FALSE)].

Definition encode_nullable {T} (value : option T) (encoder : T -> bytes) : bytes :=
  match value with Some v => encoder v | None => encode_null end.

(** [entries.sort_by(..)]: the standard library's sort is stable. *)
Fixpoint insert_by {A} (lt : A -> A -> bool) (x : A) (l : list A) : list A :=
  match l with
  | [] => [x]
  | y :: l' => if lt y x then y :: insert_by lt x l' else x :: l
  end.

Definition sort_by {A} (lt : A -> A -> bool) (l : list A) : list A :=
  foldr (insert_by lt) [] l.

(** The comparator of [encode_map] and [canonical_key_cmp]: the common prefix,
    then the lengths. *)
Definition canonical_key_cmp (a b : bytes) : comparison :=
  let common := Nat.min (length a) (length b) in
  match bytes_cmp (take common a) (take common b) with
  | Eq => len a ?= len b
  | c => c
  end.

Definition key_lt (a b : bytes * bytes) : bool :=
  match canonical_key_cmp (fst a) (fst b) with Lt => true | _ => false end.

(** An entry is kept unless the next one has the same key. *)
Fixpoint last_writers (entries : list (bytes * bytes)) : list (bytes * bytes) :=
  match entries with
  | [] => []
  | e :: rest =>
      match rest with
      | next :: _ => if decide (fst next = fst e) then last_writers rest else e :: last_writers rest
      | [] => [e]
      end
  end.

Definition encode_map (entries : list (bytes * bytes)) : bytes :=
  let kept := last_writers (sort_by key_lt entries) in
  push_head [] major.MAP (wrap 64 (len kept)) ++ concat ((fun e => fst e ++ snd e) <$> kept).

(** * Decoder *)

Record DecodeLimits : Type := {
  max_input_bytes : u64;
  max_nesting_depth : u64;
  max_collection_items : u64;
  max_total_items : u64;
}.

Definition DecodeLimits_DEFAULT : DecodeLimits := {|
  max_input_bytes := wrap 64 (16 * 1024 * 1024);
  max_nesting_depth := wrap 64 64;
  max_collection_items := wrap 64 4096;
  max_total_items := wrap 64 1000000;
|}.

(** [Decoder::with_limits] is the constructor, [Decoder::bytes] the projection
    [dbytes]. *)
Record Decoder : Type := with_limits { dbytes : bytes; dlimits : DecodeLimits }.

Record Head : Type := { h_major : N; h_arg : u64; h_len : N }.

Definition read_head (b : bytes) : cresult Head :=
  first ← ok_or UnexpectedEof (b !! 0%nat);
  let major := N.land (b2n first) 0xe0 in
  let info := N.land (b2n first) 0x1f in
  '(arg, len) ← (
    if info <? 24 then Ok (wrap 64 info, 1)
    else if info =? 24 then s ← ok_or UnexpectedEof (get_range b 1 2); Ok (wrap 64 (be_value s), 2)
    else if info =? 25 then s ← ok_or UnexpectedEof (get_range b 1 3); Ok (wrap 64 (be_value s), 3)
    else if info =? 26 then s ← ok_or UnexpectedEof (get_range b 1 5); Ok (wrap 64 (be_value s), 5)
    else if info =? 27 then s ← ok_or UnexpectedEof (get_range b 1 9); Ok (wrap 64 (be_value s), 9)
    else Err (UnsupportedAdditionalInfo info));
  let minimum :=
    if info =? 24 then Some 24
    else if info =? 25 then Some (2 ^ 8)
    else if info =? 26 then Some (2 ^ 16)
    else if info =? 27 then Some (2 ^ 32)
    else None in
  if match minimum with Some m => val arg <? m | None => false end
  then Err NonCanonicalEncoding
  else Ok {| h_major := major; h_arg := arg; h_len := len |}.

Definition checked_usize (value : u64) : cresult N :=
  if val value <=? usize_max then Ok (val value) else Err IntegerOverflow.

Definition collection_count (value : u64) (limits : DecodeLimits) : cresult N :=
  count ← checked_usize value;
  if val (max_collection_items limits) <? count
  then Err (LimitExceeded "CBOR collection items") else Ok count.

(** The body of the [for _ in 0..count] loops of [item_len_with_budget]:
    [measure] is the recursive call. *)
Fixpoint skip_items (measure : bytes -> N -> cresult (N * N))
    (count : nat) (b : bytes) (pos remaining : N) : cresult (N * N) :=
  match count with
  | O => Ok (pos, remaining)
  | S count' =>
      rest ← ok_or UnexpectedEof (get_from b pos);
      '(l, remaining') ← measure rest remaining;
      pos' ← ok_or IntegerOverflow (checked_add pos l);
      skip_items measure count' b pos' remaining'
  end.

(** The match on the major type in [item_len_with_budget]; [recurse] is the
    call at depth [depth + 1]. *)
Definition item_tail (recurse : bytes -> N -> cresult (N * N)) (b : bytes) (limits : DecodeLimits)
    (head : Head) (remaining : N) : cresult (N * N) :=
  let m := h_major head in
  if (m =? major.UINT) || (m =? major.NEGINT) || (m =? major.SIMPLE) then Ok (h_len head, remaining)
  else if (m =? major.BYTES) || (m =? major.TEXT) then
    value_len ← checked_usize (h_arg head);
    total ← ok_or IntegerOverflow (checked_add (h_len head) value_len);
    if len b <? total then Err UnexpectedEof else Ok (total, remaining)
  else if m =? major.ARRAY then
    count ← collection_count (h_arg head) limits;
    if len b - h_len head <? count then Err UnexpectedEof else
    skip_items recurse (N.to_nat count) b (h_len head) remaining
  else if m =? major.MAP then
    count ← collection_count (h_arg head) limits;
    item_count ← ok_or IntegerOverflow (checked_add count count);
    if len b - h_len head <? item_count then Err UnexpectedEof else
    skip_items recurse (N.to_nat item_count) b (h_len head) remaining
  else if m =? major.TAG then
    rest ← ok_or UnexpectedEof (get_from b (h_len head));
    '(l, remaining') ← recurse rest remaining;
    total ← ok_or IntegerOverflow (checked_add (h_len head) l);
    Ok (total, remaining')
  else Err (UnsupportedAdditionalInfo 0).

(** Length of the first item of [b] and the budget left. Every recursive call
    is on a strictly shorter slice, so [S (length b)] units of fuel are enough
    ([item_len_complete] and [item_len_sound] in [CborSpec]). *)
Fixpoint item_len_fuel (fuel : nat) (b : bytes) (limits : DecodeLimits)
    (depth remaining_items : N) : cresult (N * N) :=
  match fuel with
  | O => Err UnexpectedEof
  | S fuel' =>
      if remaining_items =? 0 then Err (LimitExceeded "total CBOR items") else
      if val (max_input_bytes limits) <? len b then Err (LimitExceeded "CBOR input bytes") else
      if val (max_nesting_depth limits) <? depth then Err (LimitExceeded "CBOR nesting depth") else
      head ← read_head b;
      item_tail (fun rest rem => item_len_fuel fuel' rest limits (depth + 1) rem)
        b limits head (remaining_items - 1)
  end.

Definition item_len_with_budget (b : bytes) (limits : DecodeLimits) (depth remaining : N) :
    cresult (N * N) :=
  item_len_fuel (S (length b)) b limits depth remaining.

Definition item_len (b : bytes) (limits : DecodeLimits) (depth : N) : cresult N :=
  fst <$> item_len_with_budget b limits depth (val (max_total_items limits)).

Module Decoder.

Definition new (b : bytes) : Decoder := with_limits b DecodeLimits_DEFAULT.

Definition finish (d : Decoder) : cresult unit :=
  n ← item_len (dbytes d) (dlimits d) 0;
  if n =? len (dbytes d) then Ok tt else Err TrailingBytes.

Definition expect (d : Decoder) (want : N) : cresult Head :=
  if val (max_input_bytes (dlimits d)) <? len (dbytes d) then Err (LimitExceeded "CBOR input bytes") else
  head ← read_head (dbytes d);
  if h_major head =? want then Ok head
  else Err (UnexpectedMajorType (N.shiftr want 5) (N.shiftr (h_major head) 5)).

Definition uint (d : Decoder) : cresult u64 :=
  head ← expect d major.UINT;
  if h_len head =? len (dbytes d) then Ok (h_arg head) else Err TrailingBytes.

(** The common part of [bytes_value] and [text]. *)
Definition string_value (d : Decoder) (want : N) : cresult bytes :=
  head ← expect d want;
  value_len ← checked_usize (h_arg head);
  end_ ← ok_or IntegerOverflow (checked_add (h_len head) value_len);
  value ← ok_or UnexpectedEof (get_range (dbytes d) (h_len head) end_);
  if end_ =? len (dbytes d) then Ok value else Err TrailingBytes.

Definition bytes_value (d : Decoder) : cresult bytes := string_value d major.BYTES.

Definition text (d : Decoder) : cresult str :=
  raw ← string_value d major.TEXT;
  ok_or IntegerOverflow (mk_sub raw).

Definition is_null (d : Decoder) : bool :=
  match dbytes d !! 0%nat with Some b => b2n b =? simple.NULL | None => false end.

Definition nullable {T} (d : Decoder) (f : Decoder -> result T) : result (option T) :=
  if is_null d then _ ← lift (finish d); Ok None
  else Some <$> f d.

(** One step of the loops of [array] and [map]: the item at [pos] and the
    position after it. *)
Definition item_at (b : bytes) (limits : DecodeLimits) (pos : N) : cresult (bytes * N) :=
  rest ← ok_or UnexpectedEof (get_from b pos);
  l ← item_len rest limits 1;
  item ← ok_or UnexpectedEof (get_range rest 0 l);
  pos' ← ok_or IntegerOverflow (checked_add pos l);
  Ok (item, pos').

Fixpoint array_items (count : nat) (b : bytes) (limits : DecodeLimits) (pos : N) :
    cresult (list Decoder * N) :=
  match count with
  | O => Ok ([], pos)
  | S count' =>
      '(item, pos') ← item_at b limits pos;
      '(out, end_) ← array_items count' b limits pos';
      Ok (with_limits item limits :: out, end_)
  end.

Definition array (d : Decoder) (expected : option N) : cresult (list Decoder) :=
  _ ← finish d;
  head ← expect d major.ARRAY;
  count ← collection_count (h_arg head) (dlimits d);
  if match expected with Some n => negb (n =? count) | None => false end
  then Err (UnexpectedArrayLength (default 0 expected) count) else
  if len (dbytes d) - h_len head <? count then Err UnexpectedEof else
  '(out, pos) ← array_items (N.to_nat count) (dbytes d) (dlimits d) (h_len head);
  if pos =? len (dbytes d) then Ok out else Err TrailingBytes.

Definition tag (d : Decoder) : cresult (u64 * Decoder) :=
  _ ← finish d;
  head ← expect d major.TAG;
  rest ← ok_or UnexpectedEof (get_from (dbytes d) (h_len head));
  l ← item_len rest (dlimits d) 1;
  end_ ← ok_or IntegerOverflow (checked_add (h_len head) l);
  if negb (end_ =? len (dbytes d)) then Err TrailingBytes else
  inner ← or_panic (get_range rest 0 l);
  Ok (h_arg head, with_limits inner (dlimits d)).

Definition expect_tag (d : Decoder) (expected : N) : cresult Decoder :=
  '(t, inner) ← tag d;
  if val t =? expected then Ok inner else Err (UnexpectedTag expected (val t)).

Fixpoint map_entries (count : nat) (b : bytes) (limits : DecodeLimits) (pos : N)
    (previous_key : option bytes) : cresult (list (Decoder * Decoder) * N) :=
  match count with
  | O => Ok ([], pos)
  | S count' =>
      '(key, pos1) ← item_at b limits pos;
      _ ← match previous_key with
          | Some previous =>
              match canonical_key_cmp previous key with
              | Lt => Ok tt
              | Eq => Err DuplicateMapKey
              | Gt => Err NonCanonicalMapOrder
              end
          | None => Ok tt
          end;
      '(value, pos2) ← item_at b limits pos1;
      '(out, end_) ← map_entries count' b limits pos2 (Some key);
      Ok ((with_limits key limits, with_limits value limits) :: out, end_)
  end.

Definition map (d : Decoder) : cresult (list (Decoder * Decoder)) :=
  _ ← finish d;
  head ← expect d major.MAP;
  count ← collection_count (h_arg head) (dlimits d);
  item_count ← ok_or IntegerOverflow (checked_add count count);
  if len (dbytes d) - h_len head <? item_count then Err UnexpectedEof else
  '(out, pos) ← map_entries (N.to_nat count) (dbytes d) (dlimits d) (h_len head) None;
  if pos =? len (dbytes d) then Ok out else Err TrailingBytes.

Definition bool (d : Decoder) : cresult bool :=
  if negb (len (dbytes d) =? 1) then Err TrailingBytes else
  match dbytes d !! 0%nat with
  | Some b =>
      if b2n b =? simple.TRUE then Ok true
      else if b2n b =? simple.FALSE then Ok false
      else Err (UnexpectedMajorType 7 (N.shiftr (b2n b) 5))
  | None => Err UnexpectedEof
  end.

End Decoder.

(** [items[i]]: indexing a decoded array. *)
Definition idx {A} (items : list A) (i : nat) : result A := or_panic (items !! i).

(** * Golden bytes *)

Example encode_uint_500 : encode_uint (wrap 64 500) = n2b <$> [0x19; 0x01; 0xf4].
Proof. reflexivity. Qed.

Example decode_array_of_two :
  Decoder.array (Decoder.new (encode_array [encode_uint (wrap 64 1); encode_byte_string [n2b 7]])) (Some 2)
  = Ok [Decoder.new (encode_uint (wrap 64 1)); Decoder.new (encode_byte_string [n2b 7])].
Proof. vm_compute. reflexivity. Qed.

Example decode_overlong_uint :
  Decoder.uint (Decoder.new (n2b <$> [0x18; 0x17])) = Err NonCanonicalEncoding.
Proof. reflexivity. Qed.
