(* ===== verification/CborSpec.v ===== *)
(** What the CBOR decoder accepts: the grammar of items, and the decoder's length
    scanner as an exact recogniser of it.

    [item] is the abstract syntax of a single definite-length item, [enc] its
    encoding with minimal heads; the order of the keys of a map is not the
    scanner's to check, [Decoder.map] does. [fits] are the resource limits it
    has to respect. The scanner succeeds exactly on encodings of items that fit ([item_len_complete],
    [item_len_sound]), and the compound accessors hand out exactly the children
    ([array_enc], [tag_enc]). The wire types are proved against these facts. *)

From S2P Require Import Prelude Bytes Error Cbor.
Local Open Scope N_scope.

Inductive scalar_kind := KUint | KNeg | KSimple.
Inductive string_kind := KBytes | KText.

(** The children of a map alternate keys and values. *)
Inductive item : Type :=
| IScalar (k : scalar_kind) (n : u64)
| IString (k : string_kind) (b : bytes)
| IArray (l : list item)
| IMap (l : list item)
| ITag (t : u64) (i : item).

Section item_ind.
Variable P : item -> Prop.
Hypothesis Hscalar : forall k n, P (IScalar k n).
Hypothesis Hstring : forall k b, P (IString k b).
Hypothesis Harray : forall l, Forall P l -> P (IArray l).
Hypothesis Hmap : forall l, Forall P l -> P (IMap l).
Hypothesis Htag : forall t i, P i -> P (ITag t i).

Fixpoint item_ind' (i : item) : P i :=
  match i with
  | IScalar k n => Hscalar k n
  | IString k b => Hstring k b
  | IArray l => Harray l ((fix go l : Forall P l := match l with
      | [] => Forall_nil_2 P | x :: l' => Forall_cons_2 P x l' (item_ind' x) (go l') end) l)
  | IMap l => Hmap l ((fix go l : Forall P l := match l with
      | [] => Forall_nil_2 P | x :: l' => Forall_cons_2 P x l' (item_ind' x) (go l') end) l)
  | ITag t j => Htag t j (item_ind' j)
  end.
End item_ind.

Definition scalar_major (k : scalar_kind) : N :=
  match k with KUint => major.UINT | KNeg => major.NEGINT | KSimple => major.SIMPLE end.
Definition string_major (k : string_kind) : N :=
  match k with KBytes => major.BYTES | KText => major.TEXT end.

Fixpoint enc (i : item) : bytes :=
  match i with
  | IScalar k n => head (scalar_major k) n
  | IString k b => head (string_major k) (wrap 64 (len b)) ++ b
  | IArray l => head major.ARRAY (wrap 64 (len l)) ++ concat (enc <$> l)
  | IMap l => head major.MAP (wrap 64 (len l / 2)) ++ concat (enc <$> l)
  | ITag t j => head major.TAG t ++ enc j
  end.

Fixpoint count (i : item) : N :=
  match i with
  | IScalar _ _ | IString _ _ => 1
  | IArray l | IMap l => 1 + foldr N.add 0 (count <$> l)
  | ITag _ j => 1 + count j
  end.

Definition counts (l : list item) : N := foldr N.add 0 (count <$> l).

(** The item at nesting depth [depth] respects the limits. *)
Fixpoint fits (limits : DecodeLimits) (depth : N) (i : item) : bool :=
  (depth <=? val (max_nesting_depth limits)) &&
  match i with
  | IScalar _ _ => true
  | IString _ b => len b <=? usize_max
  | IArray l =>
      (len l <=? val (max_collection_items limits)) && forallb (fits limits (depth + 1)) l
  | IMap l =>
      N.even (len l) && (len l / 2 <=? val (max_collection_items limits)) &&
      forallb (fits limits (depth + 1)) l
  | ITag _ j => fits limits (depth + 1) j
  end.

(** * Heads *)

Definition is_major (m : N) : Prop := exists k, m = 32 * k /\ k < 8.

Lemma major_cases m : is_major m ->
  (exists k, m = scalar_major k) \/ (exists k, m = string_major k) \/
  m = major.ARRAY \/ m = major.MAP \/ m = major.TAG.
Proof.
  intros (k & -> & Hk).
  assert (k = 0 \/ k = 1 \/ k = 2 \/ k = 3 \/ k = 4 \/ k = 5 \/ k = 6 \/ k = 7) as Hcase by lia.
  destruct Hcase as [->|[->|[->|[->|[->|[->|[->| ->]]]]]]].
  - left. by exists KUint.
  - left. by exists KNeg.
  - right; left. by exists KBytes.
  - right; left. by exists KText.
  - by right; right; left.
  - by right; right; right; left.
  - by right; right; right; right.
  - left. by exists KSimple.
Qed.

Lemma scalar_major_ok k : is_major (scalar_major k).
Proof. destruct k; [exists 0|exists 1|exists 7]; done. Qed.
Lemma string_major_ok k : is_major (string_major k).
Proof. destruct k; [exists 2|exists 3]; done. Qed.
Lemma array_major_ok : is_major major.ARRAY.
Proof. by exists 4. Qed.
Lemma map_major_ok : is_major major.MAP.
Proof. by exists 5. Qed.
Lemma tag_major_ok : is_major major.TAG.
Proof. by exists 6. Qed.
#[export] Hint Resolve scalar_major_ok string_major_ok array_major_ok map_major_ok tag_major_ok : core.

(** The initial byte splits back into the major type and the information. *)
Lemma initial_byte m v : is_major m -> v < 32 ->
  N.land (b2n (n2b (N.lor m v))) 0xe0 = m /\ N.land (b2n (n2b (N.lor m v))) 0x1f = v.
Proof.
  intros (k & -> & Hk) Hv.
  pose (f := fun k v => (N.land (b2n (n2b (N.lor (32 * k) v))) 0xe0 =? 32 * k) &&
                        (N.land (b2n (n2b (N.lor (32 * k) v))) 0x1f =? v)).
  assert (f k v = true) as E.
  { refine (seqN_forall (fun v => f k v) 32 _ v Hv).
    refine (seqN_forall (fun k => forallb (fun i => f k (N.of_nat i)) (seq 0 32)) 8 _ k Hk).
    vm_compute. reflexivity. }
  unfold f in E. apply andb_true_iff in E as [E1 E2].
  split; by apply N.eqb_eq.
Qed.

Lemma initial_byte_inv b :
  is_major (N.land (b2n b) 0xe0) /\ N.land (b2n b) 0x1f < 32 /\
  n2b (N.lor (N.land (b2n b) 0xe0) (N.land (b2n b) 0x1f)) = b.
Proof.
  pose (f := fun b => (N.land (b2n b) 0xe0 =? 32 * (N.land (b2n b) 0xe0 / 32)) &&
    (N.land (b2n b) 0xe0 / 32 <? 8) && (N.land (b2n b) 0x1f <? 32) &&
    bool_decide (n2b (N.lor (N.land (b2n b) 0xe0) (N.land (b2n b) 0x1f)) = b)).
  assert (f b = true) as E by (apply byte_forall; vm_compute; reflexivity).
  unfold f in E. rewrite !andb_true_iff, N.eqb_eq, !N.ltb_lt, bool_decide_eq_true in E.
  destruct E as [[[E1 E2] E3] E4]. split_and!; [by eexists | done | done].
Qed.

Lemma be_value_be_bytes_small k v : v < 256 ^ N.of_nat k -> be_value (be_bytes k v) = v.
Proof. intros. rewrite be_value_be_bytes. by apply N.mod_small. Qed.

Lemma head_nonempty m v : 1 <= len (head m v).
Proof.
  unfold head, push_head. repeat case_match; rewrite !app_nil_l, ?len_app, ?len_be_bytes;
    change (len [_]) with 1; lia.
Qed.

Lemma len_head_bound m v : len (head m v) <= 9.
Proof.
  unfold head, push_head. repeat case_match; rewrite !app_nil_l, ?len_app, ?len_be_bytes;
    change (len [_]) with 1; lia.
Qed.

Lemma get_range_tail (b : byte) (k : nat) (s r : bytes) :
  length s = k -> get_range (b :: s ++ r) 1 (1 + N.of_nat k) = Some s.
Proof.
  intros <-. change (b :: s ++ r) with ([b] ++ s ++ r).
  exact (get_range_app [b] s r).
Qed.

(** The multi-byte forms: information value, argument width, least argument. *)
Definition wide_forms : list (N * N * N) :=
  [(24, 1, 24); (25, 2, 2 ^ 8); (26, 4, 2 ^ 16); (27, 8, 2 ^ 32)].

Lemma read_head_narrow b0 r : N.land (b2n b0) 0x1f < 24 ->
  read_head (b0 :: r) =
  Ok {| h_major := N.land (b2n b0) 0xe0; h_arg := wrap 64 (N.land (b2n b0) 0x1f); h_len := 1 |}.
Proof.
  intros H. unfold read_head. simpl lookup. simpl ok_or. rewrite bind_Ok_l.
  generalize dependent (N.land (b2n b0) 0x1f). intros info H.
  destruct (N.ltb_spec info 24); [|lia]. rewrite bind_Ok_l.
  destruct (N.eqb_spec info 24), (N.eqb_spec info 25), (N.eqb_spec info 26), (N.eqb_spec info 27);
    done || lia.
Qed.

Lemma read_head_wide b0 s r info need least :
  N.land (b2n b0) 0x1f = info -> (info, need, least) ∈ wide_forms -> len s = need ->
  read_head (b0 :: s ++ r) =
    if val (wrap 64 (be_value s)) <? least then Err NonCanonicalEncoding
    else Ok {| h_major := N.land (b2n b0) 0xe0; h_arg := wrap 64 (be_value s); h_len := 1 + need |}.
Proof.
  intros E Hin Hs. unfold read_head. simpl lookup. simpl ok_or. rewrite bind_Ok_l, E.
  pose proof (get_range_tail b0 (length s) s r eq_refl) as G.
  change (N.of_nat (length s)) with (len s) in G. rewrite Hs in G.
  unfold wide_forms in Hin. rewrite !elem_of_cons in Hin.
  destruct Hin as [[= -> -> ->]|[[= -> -> ->]|[[= -> -> ->]|[[= -> -> ->]|Hin]]]];
    [..|by apply elem_of_nil in Hin];
    match type of G with get_range _ _ ?e = _ =>
      let e' := eval vm_compute in e in change e with e' in G end;
    rewrite G; reflexivity.
Qed.

(** [read_head] after [push_head] is the identity, whatever follows. *)
Lemma read_head_head m v r : is_major m ->
  read_head (head m v ++ r) = Ok {| h_major := m; h_arg := v; h_len := len (head m v) |}.
Proof.
  intros Hm. pose proof (uint_bound v) as Hv.
  assert (forall k info least, (info, N.of_nat k, least) ∈ wide_forms -> info < 32 ->
    least <= val v < 256 ^ N.of_nat k ->
    read_head (([n2b (N.lor m info)] ++ be_bytes k (val v)) ++ r) =
    Ok {| h_major := m; h_arg := v; h_len := len ([n2b (N.lor m info)] ++ be_bytes k (val v)) |}) as G.
  { intros k info least Hin Hi Hb. destruct (initial_byte m info Hm Hi) as [E1 E2].
    rewrite len_app, len_be_bytes, <- app_assoc. simpl app at 1.
    erewrite read_head_wide by (done || apply len_be_bytes).
    rewrite be_value_be_bytes_small, wrap_val, E1 by apply Hb.
    by destruct (N.ltb_spec (val v) least); [lia|]. }
  unfold head, push_head. rewrite !app_nil_l.
  destruct (N.ltb_spec (val v) 24) as [H1|H1].
  { destruct (initial_byte m (val v) Hm ltac:(lia)) as [E1 E2].
    cbn [app]. rewrite read_head_narrow by lia. by rewrite E1, E2, wrap_val. }
  destruct (N.leb_spec (val v) 0xff); [apply (G 1%nat 24 24); [unfold wide_forms; set_solver|simpl; lia..]|].
  destruct (N.leb_spec (val v) 0xffff); [apply (G 2%nat 25 (2^8)); [unfold wide_forms; set_solver|simpl; lia..]|].
  destruct (N.leb_spec (val v) 0xffffffff); [apply (G 4%nat 26 (2^16)); [unfold wide_forms; set_solver|simpl; lia..]|].
  apply (G 8%nat 27 (2^32)); [unfold wide_forms; set_solver|simpl in *; lia..].
Qed.

Lemma read_head_short b0 b info need least :
  N.land (b2n b0) 0x1f = info -> (info, need, least) ∈ wide_forms -> len b < need ->
  read_head (b0 :: b) = Err UnexpectedEof.
Proof.
  intros E Hin Hs. unfold read_head. simpl lookup. simpl ok_or. rewrite bind_Ok_l, E.
  assert (forall n, n = 1 + need -> get_range (b0 :: b) 1 n = None) as G.
  { intros n ->. unfold get_range. rewrite len_cons.
    destruct (N.leb_spec (1 + need) (1 + len b)); [lia|]. by rewrite andb_false_r. }
  unfold wide_forms in Hin. rewrite !elem_of_cons in Hin.
  destruct Hin as [[= -> -> ->]|[[= -> -> ->]|[[= -> -> ->]|[[= -> -> ->]|Hin]]]];
    [..|by apply elem_of_nil in Hin];
    match goal with |- context [get_range ?l 1 ?e] =>
      match e with 1 => fail 1 | _ => idtac end end;
    cbn -[get_range]; rewrite G by reflexivity; reflexivity.
Qed.

Lemma read_head_reserved b0 b : 28 <= N.land (b2n b0) 0x1f -> forall h, read_head (b0 :: b) <> Ok h.
Proof.
  intros H h. unfold read_head. simpl lookup. simpl ok_or. rewrite bind_Ok_l.
  generalize dependent (N.land (b2n b0) 0x1f). intros info H.
  destruct (N.ltb_spec info 24), (N.eqb_spec info 24), (N.eqb_spec info 25), (N.eqb_spec info 26),
    (N.eqb_spec info 27); try lia. done.
Qed.

(** Writing a wide argument gives back the bytes it was read from. *)
Lemma head_wide m info need least s :
  (info, need, least) ∈ wide_forms -> len s = need -> least <= be_value s ->
  head m (wrap 64 (be_value s)) = n2b (N.lor m info) :: s.
Proof.
  intros Hin Hs Hl. pose proof (be_value_bound s) as Hb. rewrite Hs in Hb.
  assert (s = be_bytes (N.to_nat need) (be_value s)) as Es.
  { rewrite <- (be_bytes_be_value s) at 1. f_equal. unfold len in Hs. lia. }
  unfold wide_forms in Hin. rewrite !elem_of_cons in Hin. unfold head, push_head.
  destruct Hin as [[= -> -> ->]|[[= -> -> ->]|[[= -> -> ->]|[[= -> -> ->]|Hin]]]];
    [..|by apply elem_of_nil in Hin]; simpl in Hb, Hl;
    rewrite val_wrap by (simpl; lia);
    repeat match goal with |- context [N.ltb ?a ?b] => destruct (N.ltb_spec a b); try lia
      | |- context [N.leb ?a ?b] => destruct (N.leb_spec a b); try lia end;
    rewrite app_nil_l; cbn [app]; f_equal; symmetry; exact Es.
Qed.

(** Conversely, a head that is read was written by [push_head]. *)
Lemma read_head_inv b h : read_head b = Ok h ->
  is_major (h_major h) /\ h_len h = len (head (h_major h) (h_arg h)) /\
  exists r, b = head (h_major h) (h_arg h) ++ r.
Proof.
  destruct b as [|b0 b]; [done|]. destruct (initial_byte_inv b0) as (Hm & Hi & Hb0).
  remember (N.land (b2n b0) 0x1f) as info eqn:Ei. symmetry in Ei.
  assert (info < 24 \/ exists need least, (info, need, least) ∈ wide_forms \/ 28 <= info) as Hc.
  { destruct (decide (info < 24)); [by left|right]. unfold wide_forms.
    destruct (decide (info = 24)) as [->|]; [exists 1, 24; left; set_solver|].
    destruct (decide (info = 25)) as [->|]; [exists 2, (2^8); left; set_solver|].
    destruct (decide (info = 26)) as [->|]; [exists 4, (2^16); left; set_solver|].
    destruct (decide (info = 27)) as [->|]; [exists 8, (2^32); left; set_solver|].
    exists 0, 0. right. lia. }
  destruct Hc as [Hc|(need & least & Hc)].
  { rewrite read_head_narrow by lia. rewrite Ei. intros [= <-]. simpl h_major. simpl h_arg. simpl h_len.
    unfold head, push_head. rewrite val_wrap by (simpl; lia).
    destruct (N.ltb_spec info 24); [|lia]. rewrite app_nil_l, Hb0. eauto. }
  destruct Hc as [Hc|Hc]; [|intros H; by apply read_head_reserved in H; [|lia]].
  destruct (decide (need <= len b)) as [Hn|Hn];
    [|erewrite read_head_short by (done || lia); discriminate].
  rewrite <- (take_drop (N.to_nat need) b).
  assert (len (take (N.to_nat need) b) = need) as Hs by (unfold len in *; rewrite length_take; lia).
  generalize dependent (take (N.to_nat need) b). intros s Hs.
  generalize (drop (N.to_nat need) b). intros r.
  rewrite (read_head_wide b0 s r info need least) by done.
  assert (be_value s < 2 ^ 64) as Hb.
  { pose proof (be_value_bound s) as Hb. rewrite Hs in Hb. clear -Hc Hb. revert Hc Hb.
    unfold wide_forms. rewrite !elem_of_cons, elem_of_nil.
    intros [[= -> -> ->]|[[= -> -> ->]|[[= -> -> ->]|[[= -> -> ->]|[]]]]] Hb; simpl in *; lia. }
  rewrite val_wrap by done. destruct (N.ltb_spec (be_value s) least); [done|].
  intros [= <-]. simpl h_major. simpl h_arg. simpl h_len.
  rewrite (head_wide _ info need least) by done. rewrite Hb0.
  split_and!; [done | by rewrite len_cons, Hs | by exists r].
Qed.

Lemma forallb_Forall {A} (f : A -> bool) l : forallb f l = true <-> Forall (fun x => f x = true) l.
Proof. rewrite forallb_forall, Forall_forall. by setoid_rewrite list_elem_of_In. Qed.

(** * The scanner recognises exactly the items that fit *)

Lemma enc_nonempty i : 1 <= len (enc i).
Proof.
  destruct i; simpl enc; rewrite ?len_app; pose proof head_nonempty; 
    match goal with |- context [head ?m ?v] => specialize (H m v) end; lia.
Qed.

Lemma len_concat_enc l : len l <= len (concat (enc <$> l)).
Proof.
  induction l as [|i l IH]; [done|]. csimpl. rewrite len_cons, len_app.
  pose proof (enc_nonempty i). lia.
Qed.

Lemma usize_max_u64 (x : u64) : val x <= usize_max.
Proof. pose proof (uint_bound x). unfold usize_max. lia. Qed.

Lemma checked_add_Some a b : a + b <= usize_max -> checked_add a b = Some (a + b).
Proof. intros. unfold checked_add. by destruct (N.leb_spec (a + b) usize_max); [|lia]. Qed.

Lemma checked_add_inv a b c : checked_add a b = Some c <-> c = a + b /\ a + b <= usize_max.
Proof.
  unfold checked_add. destruct (N.leb_spec (a + b) usize_max); split; try naive_solver lia.
Qed.

Lemma checked_usize_Ok v : checked_usize v = Ok (val v).
Proof.
  unfold checked_usize. pose proof (usize_max_u64 v).
  by destruct (N.leb_spec (val v) usize_max); [|lia].
Qed.

Lemma collection_count_Ok v limits n :
  collection_count v limits = Ok n <-> n = val v /\ val v <= val (max_collection_items limits).
Proof.
  unfold collection_count. rewrite checked_usize_Ok, bind_Ok_l.
  destruct (N.ltb_spec (val (max_collection_items limits)) (val v)); split; naive_solver lia.
Qed.

Lemma skip_items_complete measure limits B l : forall p r rem,
  (forall i r rem, i ∈ l -> count i <= rem -> len (enc i ++ r) <= B ->
    measure (enc i ++ r) rem = Ok (len (enc i), rem - count i)) ->
  counts l <= rem -> len (concat (enc <$> l) ++ r) <= B ->
  len (p ++ concat (enc <$> l) ++ r) <= val (max_input_bytes limits) ->
  skip_items measure (length l) (p ++ concat (enc <$> l) ++ r) (len p) rem =
  Ok (len p + len (concat (enc <$> l)), rem - counts l).
Proof.
  induction l as [|i l IH]; intros p r rem Hm Hc HB Hin.
  - simpl. f_equal. unfold counts. simpl. f_equal; len_lia.
  - csimpl in *. unfold counts in *. csimpl in *. rewrite !len_app in *.
    rewrite <- !app_assoc, get_from_app. simpl. rewrite Hm; [|set_solver|lia|rewrite !len_app; lia].
    simpl. pose proof (usize_max_u64 (max_input_bytes limits)).
    rewrite checked_add_Some by lia. simpl.
    specialize (IH (p ++ enc i) r (rem - count i)).
    rewrite <- app_assoc, !len_app in IH. rewrite IH; [|set_solver|lia|lia|lia].
    f_equal. f_equal; lia.
Qed.

Lemma item_len_fuel_S fuel b limits depth rem :
  rem <> 0 -> len b <= val (max_input_bytes limits) -> depth <= val (max_nesting_depth limits) ->
  item_len_fuel (S fuel) b limits depth rem =
  (head ← read_head b;
   item_tail (fun rest rem => item_len_fuel fuel rest limits (depth + 1) rem) b limits head (rem - 1)).
Proof.
  intros. simpl. destruct (N.eqb_spec rem 0); [done|].
  destruct (N.ltb_spec (val (max_input_bytes limits)) (len b)); [lia|].
  by destruct (N.ltb_spec (val (max_nesting_depth limits)) depth); [lia|].
Qed.

Section item_tail.
Context (recurse : bytes -> N -> cresult (N * N)) (b : bytes) (limits : DecodeLimits) (remaining : N).
Abbreviation tail m v l := (item_tail recurse b limits {| h_major := m; h_arg := v; h_len := l |} remaining).

Lemma item_tail_scalar k v l : tail (scalar_major k) v l = Ok (l, remaining).
Proof. by destruct k. Qed.

Lemma item_tail_string k v l x : tail (string_major k) v l = Ok x <->
  x = (l + val v, remaining) /\ l + val v <= usize_max /\ l + val v <= len b.
Proof.
  assert (tail (string_major k) v l =
    (total ← ok_or IntegerOverflow (checked_add l (val v));
     if len b <? total then Err UnexpectedEof else Ok (total, remaining))) as ->.
  { destruct k; unfold item_tail; simpl h_major; simpl h_arg; rewrite checked_usize_Ok; done. }
  rewrite bind_Ok. setoid_rewrite ok_or_Ok. setoid_rewrite checked_add_inv. split.
  - intros (t & [-> ?] & Hk). destruct (N.ltb_spec (len b) (l + val v)); [done|].
    injection Hk as <-. done.
  - intros (-> & ? & ?). exists (l + val v). split; [done|].
    by destruct (N.ltb_spec (len b) (l + val v)); [lia|].
Qed.

Lemma item_tail_array v l x : tail major.ARRAY v l = Ok x <->
  val v <= val (max_collection_items limits) /\ val v <= len b - l /\
  skip_items recurse (N.to_nat (val v)) b l remaining = Ok x.
Proof.
  assert (tail major.ARRAY v l =
    (count ← collection_count v limits;
     if len b - l <? count then Err UnexpectedEof else
     skip_items recurse (N.to_nat count) b l remaining)) as -> by reflexivity.
  rewrite bind_Ok. setoid_rewrite collection_count_Ok. split.
  - intros (t & [-> ?] & Hk). destruct (N.ltb_spec (len b - l) (val v)); [done|]. done.
  - intros (? & ? & ?). exists (val v). split; [done|].
    by destruct (N.ltb_spec (len b - l) (val v)); [lia|].
Qed.

Lemma item_tail_map v l x : tail major.MAP v l = Ok x <->
  val v <= val (max_collection_items limits) /\ 2 * val v <= usize_max /\ 2 * val v <= len b - l /\
  skip_items recurse (N.to_nat (2 * val v)) b l remaining = Ok x.
Proof.
  replace (2 * val v) with (val v + val v) by lia.
  assert (tail major.MAP v l =
    (count ← collection_count v limits;
     item_count ← ok_or IntegerOverflow (checked_add count count);
     if len b - l <? item_count then Err UnexpectedEof else
     skip_items recurse (N.to_nat item_count) b l remaining)) as -> by reflexivity.
  rewrite bind_Ok. setoid_rewrite collection_count_Ok. setoid_rewrite bind_Ok.
  setoid_rewrite ok_or_Ok. setoid_rewrite checked_add_inv. split.
  - intros (t & [-> ?] & t' & [-> ?] & Hk).
    destruct (N.ltb_spec (len b - l) (val v + val v)); [done|]. done.
  - intros (? & ? & ? & ?). exists (val v). split; [done|]. exists (val v + val v). split; [done|].
    by destruct (N.ltb_spec (len b - l) (val v + val v)); [lia|].
Qed.

Lemma item_tail_tag v l x : tail major.TAG v l = Ok x <->
  exists rest n rem', get_from b l = Some rest /\ recurse rest remaining = Ok (n, rem') /\
  l + n <= usize_max /\ x = (l + n, rem').
Proof.
  assert (tail major.TAG v l =
    (rest ← ok_or UnexpectedEof (get_from b l);
     '(n, remaining') ← recurse rest remaining;
     total ← ok_or IntegerOverflow (checked_add l n);
     Ok (total, remaining'))) as -> by reflexivity.
  split.
  - intros H. inv_ok. destruct a0 as [n rem']. inv_ok. apply checked_add_inv in E1 as [-> ?].
    by exists a, n, rem'.
  - intros (rest & n & rem' & -> & H & ? & ->). simpl. rewrite H. simpl.
    by rewrite checked_add_Some.
Qed.
End item_tail.

Lemma item_len_complete limits i : forall depth fuel r rem,
  fits limits depth i = true -> count i <= rem ->
  len (enc i ++ r) <= val (max_input_bytes limits) -> len (enc i ++ r) < N.of_nat fuel ->
  item_len_fuel fuel (enc i ++ r) limits depth rem = Ok (len (enc i), rem - count i).
Proof.
  pose proof (usize_max_u64 (max_input_bytes limits)) as Hu.
  pose proof (usize_max_u64 (max_collection_items limits)) as Hv.
  assert (forall l fuel depth, (forall i, In i l -> fits limits depth i = true) ->
    (forall i, i ∈ l -> forall depth fuel r rem, fits limits depth i = true -> count i <= rem ->
      len (enc i ++ r) <= val (max_input_bytes limits) -> len (enc i ++ r) < N.of_nat fuel ->
      item_len_fuel fuel (enc i ++ r) limits depth rem = Ok (len (enc i), rem - count i)) ->
    forall h r rem, counts l <= rem -> len (h ++ concat (enc <$> l) ++ r) <= val (max_input_bytes limits) ->
    len (concat (enc <$> l) ++ r) < N.of_nat fuel ->
    skip_items (fun rest rem => item_len_fuel fuel rest limits depth rem) (length l)
      (h ++ concat (enc <$> l) ++ r) (len h) rem =
    Ok (len h + len (concat (enc <$> l)), rem - counts l)) as Hskip.
  { intros l fuel depth Hf IH h r rem Hc Hin Hfu.
    apply (skip_items_complete _ limits (len (concat (enc <$> l) ++ r))); [|done|lia|done].
    intros i0 r' rem' Hi ? ?. apply IH; [done|by apply Hf, list_elem_of_In|done|len_lia|lia]. }
  induction i as [k n|k b|l IH|l IH|t j IH] using item_ind'; intros depth [|fuel] r rem Hf Hc Hin Hfu;
    try lia;
    simpl in Hf; apply andb_true_iff in Hf as [Hd Hf]; apply N.leb_le in Hd;
    (rewrite item_len_fuel_S by (done || simpl in Hc; lia));
    simpl enc in *; rewrite <- ?app_assoc in *; rewrite read_head_head by auto; rewrite bind_Ok_l.
  - apply item_tail_scalar.
  - apply N.leb_le in Hf. apply item_tail_string.
    rewrite val_wrap by (unfold usize_max in *; lia). split_and!; [f_equal; len_lia|len_lia|len_lia].
  - rewrite andb_true_iff, N.leb_le, forallb_forall in Hf. destruct Hf as [Hl Hf].
    pose proof (len_concat_enc l). pose proof (head_nonempty major.ARRAY (wrap 64 (len l))).
    apply item_tail_array. rewrite val_wrap by (unfold usize_max in *; lia).
    split_and!; [done|len_lia|]. unfold len at 1. rewrite Nat2N.id. rewrite Forall_forall in IH.
    simpl in Hc. rewrite Hskip; [|done..|unfold counts; lia|done|len_lia].
    unfold counts. f_equal. f_equal; simpl; len_lia.
  - rewrite !andb_true_iff, N.leb_le, forallb_forall in Hf. destruct Hf as [[He Hl] Hf].
    pose proof (len_concat_enc l). pose proof (head_nonempty major.MAP (wrap 64 (len l / 2))).
    assert (2 * (len l / 2) = len l) as Hdiv.
    { apply N.even_spec in He as [m ->]. rewrite (N.mul_comm 2 m), N.div_mul by lia. lia. }
    apply item_tail_map. rewrite val_wrap by (unfold usize_max in *; lia). rewrite Hdiv.
    split_and!; [done|len_lia|len_lia|]. unfold len at 1. rewrite Nat2N.id. rewrite Forall_forall in IH.
    simpl in Hc. rewrite Hskip; [|done..|unfold counts; lia|done|len_lia].
    unfold counts. f_equal. f_equal; simpl; len_lia.
  - pose proof (head_nonempty major.TAG t). apply item_tail_tag.
    idtac; exists (enc j ++ r), (len (enc j)), (rem - 1 - count j). simpl in Hc.
    split_and!; [apply get_from_app|apply IH; [done|lia|len_lia|len_lia]|len_lia|].
    f_equal; simpl; len_lia.
Qed.

Lemma skip_items_sound measure (Q : item -> Prop) k : forall b pos rem pos' rem' p b',
  (forall b rem n rem', measure b rem = Ok (n, rem') ->
    exists i r, b = enc i ++ r /\ n = len (enc i) /\ Q i /\ rem = count i + rem') ->
  b = p ++ b' -> len p = pos ->
  skip_items measure k b pos rem = Ok (pos', rem') ->
  exists l r, length l = k /\ b' = concat (enc <$> l) ++ r /\
    pos' = pos + len (concat (enc <$> l)) /\ Forall Q l /\ rem = counts l + rem'.
Proof.
  induction k as [|k IH]; intros b pos rem pos' rem' p b' Hm -> Hp H.
  - simpl in H. injection H as <- <-. exists [], b'. unfold counts. csimpl. split_and!; try done; len_lia.
  - simpl in H. inv_ok. destruct a0 as [n rem1]. inv_ok.
    rewrite <- Hp, get_from_app in E. injection E as <-.
    apply Hm in E0 as (i & r & -> & -> & Hi & ->). apply checked_add_inv in E1 as [-> _].
    rewrite app_assoc in H.
    assert (len (p ++ enc i) = pos + len (enc i)) as Hp' by (rewrite len_app; lia).
    destruct (IH _ _ _ _ _ (p ++ enc i) r Hm eq_refl Hp' H) as (l & r' & <- & -> & -> & Hl & ->).
    exists (i :: l), r'. unfold counts. csimpl. split_and!; [done|by rewrite <- app_assoc|len_lia|by constructor|lia].
Qed.

(** The item a run of the scanner has measured. *)
Lemma item_len_sound limits fuel : forall b depth rem n rem',
  item_len_fuel fuel b limits depth rem = Ok (n, rem') ->
  exists i r, b = enc i ++ r /\ n = len (enc i) /\ fits limits depth i = true /\
    rem = count i + rem' /\ len b <= val (max_input_bytes limits).
Proof.
  induction fuel as [|fuel IH]; intros b depth rem n rem' H; [done|].
  destruct (decide (rem = 0)) as [->|Hr]; [done|].
  destruct (decide (len b <= val (max_input_bytes limits))) as [Hb|Hb]; cycle 1.
  { simpl in H. destruct (N.eqb_spec rem 0); [done|].
    by destruct (N.ltb_spec (val (max_input_bytes limits)) (len b)); [|lia]. }
  destruct (decide (depth <= val (max_nesting_depth limits))) as [Hd|Hd]; cycle 1.
  { simpl in H. destruct (N.eqb_spec rem 0); [done|].
    destruct (N.ltb_spec (val (max_input_bytes limits)) (len b)); [done|].
    by destruct (N.ltb_spec (val (max_nesting_depth limits)) depth); [|lia]. }
  rewrite item_len_fuel_S in H by done. apply bind_Ok in H as ([m v l] & Hh & H).
  apply read_head_inv in Hh as (Hmaj & Hlen & r & ->).
  simpl in Hmaj, Hlen. simpl h_major in *. simpl h_arg in *. subst l.
  assert (forall b rem n rem', item_len_fuel fuel b limits (depth + 1) rem = Ok (n, rem') ->
    exists i r, b = enc i ++ r /\ n = len (enc i) /\ fits limits (depth + 1) i = true /\
    rem = count i + rem') as Hm by (intros; destruct (IH _ _ _ _ _ H0) as (?&?&?&?&?&?&?); eauto 10).
  apply N.leb_le in Hd. pose proof (wrap_val v) as Hw.
  destruct (major_cases m Hmaj) as [[k ->]|[[k ->]|[->|[->| ->]]]].
  - rewrite item_tail_scalar in H. injection H as <- <-.
    exists (IScalar k v), r. simpl. rewrite Hd. split_and!; done || lia.
  - apply item_tail_string in H as ([= -> ->] & Hu & Hl).
    set (h := head (string_major k) v) in *. autorewrite with lens in Hl.
    exists (IString k (take (N.to_nat (val v)) r)), (drop (N.to_nat (val v)) r).
    assert (len (take (N.to_nat (val v)) r) = val v) as Ht by (unfold len in *; rewrite length_take; lia).
    simpl. rewrite Ht, Hw, Hd, <- app_assoc, take_drop, len_app, Ht.
    pose proof (usize_max_u64 v). split_and!; try done; [by apply N.leb_le|lia].
  - apply item_tail_array in H as (Hc & _ & H).
    eapply (skip_items_sound _ _ _ _ _ _ _ _ (head major.ARRAY v) r Hm eq_refl eq_refl) in H
      as (l & r' & Hk & -> & -> & Hl & Hrem).
    assert (len l = val v) as Hlv by (unfold len; lia).
    exists (IArray l), r'. simpl. rewrite Hlv, Hw, Hd, <- app_assoc.
    split_and!; [done|len_lia| |unfold counts in *; lia|done].
    rewrite andb_true_l, andb_true_iff, N.leb_le, forallb_Forall. done.
  - apply item_tail_map in H as (Hc & _ & _ & H).
    eapply (skip_items_sound _ _ _ _ _ _ _ _ (head major.MAP v) r Hm eq_refl eq_refl) in H
      as (l & r' & Hk & -> & -> & Hl & Hrem).
    assert (len l = 2 * val v) as Hlv by (unfold len; lia).
    assert (len l / 2 = val v) as Hdv by (rewrite Hlv, N.mul_comm, N.div_mul; lia).
    exists (IMap l), r'. simpl. rewrite Hdv, Hw, Hd, <- app_assoc.
    split_and!; [done|len_lia| |unfold counts in *; lia|done].
    rewrite andb_true_l, !andb_true_iff, N.leb_le, forallb_Forall. split_and!; [|done..].
    rewrite Hlv. apply N.even_spec. by exists (val v).
  - apply item_tail_tag in H as (rest & n' & rem1 & Hg & H & _ & [= -> ->]).
    rewrite get_from_app in Hg. injection Hg as <-.
    apply Hm in H as (i & r' & -> & -> & Hf & Hrem).
    exists (ITag v i), r'. simpl. rewrite Hd, <- app_assoc. split_and!; done || len_lia.
Qed.

(** * Unique decodability *)

(** Maps hold complete pairs. *)
Fixpoint shape (i : item) : bool :=
  match i with
  | IScalar _ _ | IString _ _ => true
  | IArray l => forallb shape l
  | IMap l => N.even (len l) && forallb shape l
  | ITag _ j => shape j
  end.

Lemma fits_shape limits i : forall depth, fits limits depth i = true -> shape i = true.
Proof.
  induction i as [| |l IH|l IH|t j IH] using item_ind'; intros depth Hf; simpl in *;
    apply andb_true_iff in Hf as [_ Hf]; [done|done|..]; rewrite ?andb_true_iff in *; [..|eauto].
  - destruct Hf as [_ Hf]. rewrite forallb_Forall in *. rewrite Forall_forall in *. eauto.
  - destruct Hf as [[? _] Hf]. split; [done|]. rewrite forallb_Forall in *. rewrite Forall_forall in *. eauto.
Qed.

Lemma even_halves a b : N.even a = true -> N.even b = true -> a / 2 = b / 2 -> a = b.
Proof.
  rewrite !N.even_spec. intros [m ->] [k ->].
  rewrite !(N.mul_comm 2), !N.div_mul by lia. lia.
Qed.

Lemma head_inj m m' v v' r r' : is_major m -> is_major m' ->
  head m v ++ r = head m' v' ++ r' -> m = m' /\ v = v' /\ r = r'.
Proof.
  intros Hm Hm' H. pose proof (read_head_head m v r Hm) as E. rewrite H, read_head_head in E by done.
  injection E as <- <- _. by apply app_inv_head in H.
Qed.

Lemma wrap_inj w a b : a < 2 ^ w -> b < 2 ^ w -> wrap w a = wrap w b -> a = b.
Proof. intros Ha Hb H. rewrite <- (val_wrap w a Ha), <- (val_wrap w b Hb). congruence. Qed.

Lemma lt_usize n : n <= usize_max -> n < 2 ^ 64.
Proof. unfold usize_max. lia. Qed.

(** No encoding is a proper prefix of another, and an encoding determines its
    item. *)
Lemma enc_prefix_free i : forall j r r', shape i = true -> shape j = true ->
  len (enc i ++ r) <= usize_max -> enc i ++ r = enc j ++ r' -> i = j /\ r = r'.
Proof.
  assert (forall l, (forall i, i ∈ l -> forall j r r', shape i = true -> shape j = true ->
      len (enc i ++ r) <= usize_max -> enc i ++ r = enc j ++ r' -> i = j /\ r = r') ->
    forall l' r r', length l = length l' -> forallb shape l = true -> forallb shape l' = true ->
    len (concat (enc <$> l) ++ r) <= usize_max ->
    concat (enc <$> l) ++ r = concat (enc <$> l') ++ r' -> l = l' /\ r = r') as Hlist.
  { induction l as [|x l IHl]; intros IH [|j l'] r r' Hl Hs Hs' Hb H; try discriminate; [done|].
    csimpl in *. apply andb_true_iff in Hs as [Hi Hs], Hs' as [Hj Hs']. rewrite <- !app_assoc in *.
    apply IH in H as [-> H]; [|set_solver|done..].
    apply IHl in H as [-> ->]; [done|set_solver|lia|done|done|len_lia]. }
  induction i as [k n|k b|l IH|l IH|t i IH] using item_ind'; intros j r r' Hi Hj Hb H;
    assert (len (enc j ++ r') <= usize_max) as Hb' by congruence;
    destruct j as [k' n'|k' b'|l'|l'|t' j']; simpl enc in *; rewrite <- ?app_assoc in *;
    apply head_inj in H as (Hm & Hv & H); auto; try (destruct k; done); try (destruct k'; done);
    try (destruct k, k'; done); try done; simpl in Hi, Hj; rewrite ?andb_true_iff in Hi, Hj.
  - subst. by destruct k, k'.
  - apply wrap_inj in Hv; [|apply lt_usize; len_lia..].
    apply app_inj_1 in H as [-> ->]; [|unfold len in Hv; lia]. by destruct k, k'.
  - rewrite Forall_forall in IH. pose proof (len_concat_enc l). pose proof (len_concat_enc l').
    apply wrap_inj in Hv; [|apply lt_usize; len_lia..].
    apply Hlist in H as [-> ->]; try done; [unfold len in Hv; lia|len_lia].
  - rewrite Forall_forall in IH. pose proof (len_concat_enc l). pose proof (len_concat_enc l').
    apply wrap_inj in Hv; [|apply lt_usize, (N.le_trans _ (len (concat (enc <$> l)))); [|len_lia]
                           |apply lt_usize, (N.le_trans _ (len (concat (enc <$> l')))); [|len_lia]];
      [|apply N.Div0.div_le_upper_bound; lia..].
    apply even_halves in Hv; [|tauto..].
    apply Hlist in H as [-> ->]; try tauto; [unfold len in Hv; lia|len_lia].
  - apply IH in H as [-> ->]; try done; [by subst|len_lia].
Qed.

(** [b] is the encoding of one item. *)
Definition is_item (b : bytes) : Prop := exists i, shape i = true /\ b = enc i.

Lemma enc_inj i j : shape i = true -> shape j = true -> len (enc i) <= usize_max ->
  enc i = enc j -> i = j.
Proof.
  intros Hi Hj Hb H. apply (enc_prefix_free i j [] [] Hi Hj); rewrite !app_nil_r; done.
Qed.

(** * [finish] *)

(** A single item within the limits. *)
Definition within (limits : DecodeLimits) (i : item) : Prop :=
  fits limits 0 i = true /\ count i <= val (max_total_items limits) /\
  len (enc i) <= val (max_input_bytes limits).

Abbreviation accepts limits b := (Decoder.finish (with_limits b limits) = Ok tt).

Lemma item_len_enc limits depth i r :
  fits limits depth i = true -> count i <= val (max_total_items limits) ->
  len (enc i ++ r) <= val (max_input_bytes limits) ->
  item_len (enc i ++ r) limits depth = Ok (len (enc i)).
Proof.
  intros. unfold item_len, item_len_with_budget. rewrite item_len_complete; [done..|].
  unfold len. lia.
Qed.

Lemma item_len_inv limits depth b n : item_len b limits depth = Ok n ->
  exists i r, b = enc i ++ r /\ n = len (enc i) /\ fits limits depth i = true /\
    count i <= val (max_total_items limits) /\ len b <= val (max_input_bytes limits).
Proof.
  unfold item_len, item_len_with_budget. rewrite fmap_Ok. intros ([n' rem'] & H & ->).
  apply item_len_sound in H as (i & r & ? & ? & ? & ? & ?). exists i, r. split_and!; done || lia.
Qed.

Lemma accepts_iff limits b : accepts limits b <-> exists i, b = enc i /\ within limits i.
Proof.
  unfold Decoder.finish. simpl. split.
  - intros H. inv_ok. apply item_len_inv in E as (i & r & -> & -> & ? & ? & ?).
    apply N.eqb_eq in G. assert (r = []) as -> by (destruct r; [done|len_lia]).
    rewrite app_nil_r in *. by exists i.
  - intros (i & -> & Hf & Hc & Hl). pose proof (item_len_enc limits 0 i []) as E.
    rewrite app_nil_r in E. rewrite E by done. simpl. by rewrite N.eqb_refl.
Qed.

Lemma fits_mono limits i : forall depth depth', depth' <= depth ->
  fits limits depth i = true -> fits limits depth' i = true.
Proof.
  induction i as [| |l IH|l IH|t j IH] using item_ind'; intros depth depth' Hd; simpl;
    rewrite !andb_true_iff, !N.leb_le; intros [? Hf]; (split; [lia|]); try done;
    rewrite ?andb_true_iff, ?forallb_Forall, ?Forall_forall in *.
  - destruct Hf as [? Hf]. split; [done|]. intros x Hx. apply (IH x Hx (depth + 1)); [lia|auto].
  - destruct Hf as [? Hf]. split; [done|]. intros x Hx. apply (IH x Hx (depth + 1)); [lia|auto].
  - apply (IH (depth + 1)); [lia|done].
Qed.

Lemma count_le_counts i l : i ∈ l -> count i <= counts l.
Proof.
  unfold counts. induction 1 as [|x y l _ IH]; csimpl; lia.
Qed.

Lemma len_le_concat i l : i ∈ l -> len (enc i) <= len (concat (enc <$> l)).
Proof. induction 1 as [|x y l _ IH]; csimpl; len_lia. Qed.

(** What is known of every child of an accepted item. *)
Definition child_ok (limits : DecodeLimits) (i : item) : Prop :=
  fits limits 1 i = true /\ count i <= val (max_total_items limits).

Lemma child_within limits i : child_ok limits i -> len (enc i) <= val (max_input_bytes limits) ->
  within limits i.
Proof. intros [Hf ?] ?. split_and!; [apply (fits_mono _ _ 1); [lia|done]|done|done]. Qed.

Lemma within_array limits l : within limits (IArray l) ->
  len l <= val (max_collection_items limits) /\ Forall (child_ok limits) l /\ Forall (within limits) l.
Proof.
  intros (Hf & Hc & Hl). simpl in Hf, Hc, Hl.
  rewrite !andb_true_iff, forallb_Forall in Hf. destruct Hf as (_ & ? & Hf).
  assert (Forall (child_ok limits) l) as Hch.
  { rewrite Forall_forall in *. intros x Hx. split; [by apply Hf|].
    pose proof (count_le_counts x l Hx). unfold counts in *. lia. }
  split_and!; [by apply N.leb_le|done|]. rewrite Forall_forall in *. intros x Hx.
  apply child_within; [by apply Hch|]. pose proof (len_le_concat x l Hx). len_lia.
Qed.

Lemma within_map limits l : within limits (IMap l) ->
  exists n, length l = (2 * n)%nat /\ N.of_nat n <= val (max_collection_items limits) /\
  Forall (child_ok limits) l /\ Forall (within limits) l.
Proof.
  intros (Hf & Hc & Hl). simpl in Hf, Hc, Hl.
  rewrite !andb_true_iff, forallb_Forall in Hf. destruct Hf as (_ & (He & Hn) & Hf).
  apply N.leb_le in Hn.
  apply N.even_spec in He as [m Hm]. rewrite Hm, N.mul_comm, N.div_mul in Hn by lia.
  assert (Forall (child_ok limits) l) as Hch.
  { rewrite Forall_forall in *. intros x Hx. split; [by apply Hf|].
    pose proof (count_le_counts x l Hx). unfold counts in *. lia. }
  exists (N.to_nat m). split_and!; [unfold len in Hm; lia|lia|done|].
  rewrite Forall_forall in *. intros x Hx.
  apply child_within; [by apply Hch|]. pose proof (len_le_concat x l Hx). len_lia.
Qed.

Lemma within_tag limits t j : within limits (ITag t j) -> child_ok limits j /\ within limits j.
Proof.
  intros (Hf & Hc & Hl). simpl in Hf, Hc, Hl. rewrite !andb_true_iff in Hf. destruct Hf as [_ Hf].
  assert (child_ok limits j) as Hch by (split; [done|lia]).
  split; [done|]. apply child_within; [done|len_lia].
Qed.
