(* ===== verification/CborRead.v ===== *)
(** The accessors of [Decoder] ([src/cbor/decode.rs]) against the grammar of
    [CborSpec]: on an accepted encoding each returns exactly what was encoded,
    and whatever it returns is what the canonical encoder writes back. No
    accessor panics, and the scanner's fuel never runs out. *)

From S2P Require Import Prelude Bytes Error Cbor CborSpec.
Local Open Scope N_scope.

(** * Fuel *)

Lemma skip_items_ext m m' k : forall b pos rem,
  (forall n rest rem, pos <= n -> get_from b n = Some rest -> m rest rem = m' rest rem) ->
  skip_items m k b pos rem = skip_items m' k b pos rem.
Proof.
  induction k as [|k IH]; intros b pos rem H; simpl; [done|].
  destruct (get_from b pos) as [rest|] eqn:E; simpl; [|done].
  rewrite (H pos rest rem) by done. destruct (m' rest rem) as [[l rem']| |]; simpl; [|done..].
  destruct (checked_add pos l) as [pos'|] eqn:E'; simpl; [|done].
  apply checked_add_inv in E' as [-> _]. apply IH. intros. apply (H n); [lia|done].
Qed.

Lemma get_from_len {A} (b : list A) n rest : get_from b n = Some rest -> len rest + n = len b.
Proof. intros (p & -> & <-)%get_from_Some. len_lia. Qed.

Lemma item_tail_ext m m' b limits h rem :
  1 <= h_len h ->
  (forall rest rem, (length rest < length b)%nat -> m rest rem = m' rest rem) ->
  item_tail m b limits h rem = item_tail m' b limits h rem.
Proof.
  intros Hh H. unfold item_tail.
  assert (forall n rest rem, h_len h <= n -> get_from b n = Some rest -> m rest rem = m' rest rem) as G.
  { intros n rest rem' Hn E. apply H. apply get_from_len in E. unfold len in E. lia. }
  assert (forall k, skip_items m k b (h_len h) rem = skip_items m' k b (h_len h) rem) as S.
  { intros. apply skip_items_ext, G. }
  repeat case_match; try done.
  - destruct (collection_count _ _); simpl; [|done..]. by rewrite S.
  - destruct (collection_count _ _); simpl; [|done..].
    destruct (checked_add _ _); simpl; [|done]. by rewrite S.
  - destruct (get_from b (h_len h)) as [rest|] eqn:E; simpl; [|done].
    by rewrite (G (h_len h) rest) by done.
Qed.

(** Any fuel above the length of the input gives the same result. *)
Lemma item_len_fuel_irrel fuel : forall fuel' b limits depth rem,
  (length b < fuel)%nat -> (length b < fuel')%nat ->
  item_len_fuel fuel b limits depth rem = item_len_fuel fuel' b limits depth rem.
Proof.
  induction fuel as [|fuel IH]; intros [|fuel'] b limits depth rem Hf Hf'; try lia. simpl.
  destruct (rem =? 0); [done|]. destruct (_ <? len b); [done|]. destruct (_ <? depth); [done|].
  destruct (read_head b) as [h| |] eqn:E; simpl; [|done..].
  apply read_head_inv in E as (_ & Hh & _).
  apply item_tail_ext; [rewrite Hh; apply head_nonempty|]. intros. apply IH; lia.
Qed.

(** ** The accessors on encodings *)

Section children.
Context (limits : DecodeLimits).
Abbreviation sub b := (with_limits b limits).

Lemma item_at_enc p i r : child_ok limits i -> len (p ++ enc i ++ r) <= val (max_input_bytes limits) ->
  Decoder.item_at (p ++ enc i ++ r) limits (len p) = Ok (enc i, len (p ++ enc i)).
Proof.
  intros [Hf Hc] Hl. pose proof (usize_max_u64 (max_input_bytes limits)).
  unfold Decoder.item_at. rewrite get_from_app. simpl.
  rewrite item_len_enc by (done || len_lia). simpl.
  pose proof (get_range_app [] (enc i) r) as G. rewrite app_nil_l in G. change (len []) with 0 in G.
  rewrite N.add_0_l in G. rewrite G. simpl. rewrite checked_add_Some by len_lia. simpl.
  by rewrite len_app.
Qed.

Lemma array_items_enc l : forall p r, Forall (child_ok limits) l ->
  len (p ++ concat (enc <$> l) ++ r) <= val (max_input_bytes limits) ->
  Decoder.array_items (length l) (p ++ concat (enc <$> l) ++ r) limits (len p) =
  Ok ((fun i => sub (enc i)) <$> l, len (p ++ concat (enc <$> l))).
Proof.
  induction l as [|i l IH]; intros p r Hall Hl; csimpl in *; [by rewrite app_nil_r|].
  inversion Hall as [|? ? Hi Hall']; subst. rewrite <- !app_assoc in *.
  rewrite item_at_enc by done. simpl. rewrite app_assoc.
  rewrite IH by (done || by rewrite <- app_assoc). simpl. by rewrite <- app_assoc.
Qed.

(** The pairs of a flat list of keys and values. *)
Fixpoint pairs {A} (l : list A) : list (A * A) :=
  match l with
  | k :: v :: l' => (k, v) :: pairs l'
  | _ => []
  end.

(** The keys ascend strictly; [prev] is the key before them. *)
Fixpoint ascending (prev : option bytes) (keys : list bytes) : Prop :=
  match keys with
  | [] => True
  | k :: keys' =>
      match prev with Some p => canonical_key_cmp p k = Lt | None => True end /\ ascending (Some k) keys'
  end.

Lemma map_entries_enc n : forall l p r prev, length l = (2 * n)%nat -> Forall (child_ok limits) l ->
  len (p ++ concat (enc <$> l) ++ r) <= val (max_input_bytes limits) ->
  ascending prev ((fun e => enc (fst e)) <$> pairs l) ->
  Decoder.map_entries n (p ++ concat (enc <$> l) ++ r) limits (len p) prev =
  Ok ((fun e => (sub (enc (fst e)), sub (enc (snd e)))) <$> pairs l, len (p ++ concat (enc <$> l))).
Proof.
  induction n as [|n IH]; intros l p r prev Hn Hall Hl Hs.
  { destruct l; [|done]. csimpl. by rewrite app_nil_r. }
  destruct l as [|k [|v l]]; [done|simpl in Hn; lia|]. csimpl in *.
  inversion Hall as [|? ? Hk Hall']; subst. inversion Hall' as [|? ? Hv Hall'']; subst.
  rewrite <- !app_assoc in *. destruct Hs as [Hp Hs].
  rewrite item_at_enc by done. simpl.
  assert (match prev with
    | Some previous => match canonical_key_cmp previous (enc k) with
        Lt => Ok tt | Eq => Err DuplicateMapKey | Gt => Err NonCanonicalMapOrder end
    | None => Ok tt end = Ok tt) as -> by (destruct prev; [by rewrite Hp|done]). simpl.
  replace (p ++ enc k ++ enc v ++ concat (enc <$> l) ++ r)
    with ((p ++ enc k) ++ enc v ++ concat (enc <$> l) ++ r) in * by by rewrite <- app_assoc.
  rewrite item_at_enc by done. simpl. rewrite (app_assoc (p ++ enc k)).
  rewrite IH; [|lia|done|by rewrite <- (app_assoc (p ++ enc k))|done]. simpl.
  by rewrite <- !app_assoc.
Qed.

Lemma map_entries_sorted n : forall l p r prev x, length l = (2 * n)%nat -> Forall (child_ok limits) l ->
  len (p ++ concat (enc <$> l) ++ r) <= val (max_input_bytes limits) ->
  Decoder.map_entries n (p ++ concat (enc <$> l) ++ r) limits (len p) prev = Ok x ->
  ascending prev ((fun e => enc (fst e)) <$> pairs l).
Proof.
  induction n as [|n IH]; intros l p r prev x Hn Hall Hl H.
  { by destruct l. }
  destruct l as [|k [|v l]]; [done|simpl in Hn; lia|]. csimpl in *.
  inversion Hall as [|? ? Hk Hall']; subst. inversion Hall' as [|? ? Hv Hall'']; subst.
  rewrite <- !app_assoc in *. rewrite item_at_enc in H by done. simpl in H.
  apply bind_Ok in H as ([] & Hp & H). split; [destruct prev; [|done]; by destruct (canonical_key_cmp _ _)|].
  replace (p ++ enc k ++ enc v ++ concat (enc <$> l) ++ r)
    with ((p ++ enc k) ++ enc v ++ concat (enc <$> l) ++ r) in * by by rewrite <- app_assoc.
  rewrite item_at_enc in H by done. simpl in H. rewrite (app_assoc (p ++ enc k)) in H.
  apply bind_Ok in H as ([out e] & H & _).
  apply IH in H; [done|lia|done|by rewrite <- (app_assoc (p ++ enc k))].
Qed.
End children.

Lemma within_len limits i : within limits i -> len (enc i) <= val (max_input_bytes limits).
Proof. by intros (_ & _ & ?). Qed.

Lemma within_accepts limits i : within limits i -> accepts limits (enc i).
Proof. intros. apply accepts_iff. by exists i. Qed.

Lemma expect_head limits m v r want : is_major m -> len (head m v ++ r) <= val (max_input_bytes limits) ->
  Decoder.expect (with_limits (head m v ++ r) limits) want =
  if m =? want then Ok {| h_major := m; h_arg := v; h_len := len (head m v) |}
  else Err (UnexpectedMajorType (N.shiftr want 5) (N.shiftr m 5)).
Proof.
  intros Hm Hl. unfold Decoder.expect. simpl.
  destruct (N.ltb_spec (val (max_input_bytes limits)) (len (head m v ++ r))); [lia|].
  by rewrite read_head_head.
Qed.

Lemma expect_inv d want h : Decoder.expect d want = Ok h ->
  h_major h = want /\ h_len h = len (head want (h_arg h)) /\ is_major want /\
  len (dbytes d) <= val (max_input_bytes (dlimits d)) /\
  exists r, dbytes d = head want (h_arg h) ++ r.
Proof.
  unfold Decoder.expect. intros H. inv_ok. apply N.eqb_eq in G0. apply read_head_inv in E.
  rewrite G0 in E. destruct E as (? & ? & ?). apply N.ltb_ge in G. done.
Qed.

(** The major type of an item, the argument and the rest of its encoding. *)
Definition item_major (i : item) : N :=
  match i with
  | IScalar k _ => scalar_major k
  | IString k _ => string_major k
  | IArray _ => major.ARRAY
  | IMap _ => major.MAP
  | ITag _ _ => major.TAG
  end.

Lemma enc_head i : exists v r, enc i = head (item_major i) v ++ r /\ is_major (item_major i).
Proof.
  destruct i; simpl; [exists n, []; rewrite app_nil_r|..]; eauto.
Qed.

(** [expect] succeeds on an encoding iff its item has the wanted major type. *)
Lemma expect_enc limits i want h : Decoder.expect (with_limits (enc i) limits) want = Ok h ->
  item_major i = want.
Proof.
  intros H. destruct (enc_head i) as (v & r & E & Hm).
  apply expect_inv in H as (_ & _ & Hw & _ & r' & H). simpl in H. rewrite E in H.
  by apply head_inj in H as (? & _ & _).
Qed.

Definition length_ok (expected : option N) (n : N) : Prop :=
  match expected with Some e => e = n | None => True end.

Lemma array_within limits l expected : within limits (IArray l) -> length_ok expected (len l) ->
  Decoder.array (with_limits (enc (IArray l)) limits) expected =
  Ok ((fun i => with_limits (enc i) limits) <$> l).
Proof.
  intros Hw He. unfold Decoder.array. rewrite within_accepts by done. simpl.
  pose proof (within_array _ _ Hw) as (Hn & Hch & _). apply within_len in Hw. simpl in Hw.
  rewrite expect_head by auto. simpl.
  pose proof (len_concat_enc l). pose proof (usize_max_u64 (max_collection_items limits)).
  assert (val (wrap 64 (len l)) = len l) as Hwr by (apply val_wrap; apply lt_usize; lia).
  assert (collection_count (wrap 64 (len l)) limits = Ok (len l)) as ->.
  { apply collection_count_Ok. rewrite Hwr. done. }
  simpl. assert (match expected with Some n => negb (n =? len l) | None => false end = false) as ->.
  { destruct expected; [|done]. simpl in He. subst. by rewrite N.eqb_refl. }
  rewrite len_app. destruct (N.ltb_spec (len (head major.ARRAY (wrap 64 (len l))) + len (concat (enc <$> l)) -
    len (head major.ARRAY (wrap 64 (len l)))) (len l)); [lia|].
  replace (N.to_nat (len l)) with (length l) by (unfold len; lia).
  rewrite <- (app_nil_r (concat (enc <$> l))) at 1.
  rewrite array_items_enc by (done || by rewrite app_nil_r). simpl.
  by rewrite len_app, N.eqb_refl.
Qed.

Lemma array_length_mismatch limits l e : within limits (IArray l) -> e <> len l ->
  Decoder.array (with_limits (enc (IArray l)) limits) (Some e) = Err (UnexpectedArrayLength e (len l)).
Proof.
  intros Hw He. unfold Decoder.array. rewrite within_accepts by done. simpl.
  pose proof (within_array _ _ Hw) as (Hn & _ & _). apply within_len in Hw. simpl in Hw.
  rewrite expect_head by auto. simpl.
  pose proof (usize_max_u64 (max_collection_items limits)).
  assert (val (wrap 64 (len l)) = len l) as Hwr by (apply val_wrap; apply lt_usize; lia).
  assert (collection_count (wrap 64 (len l)) limits = Ok (len l)) as ->.
  { apply collection_count_Ok. rewrite Hwr. done. }
  simpl. by destruct (N.eqb_spec e (len l)).
Qed.

Lemma tag_within limits t j : within limits (ITag t j) ->
  Decoder.tag (with_limits (enc (ITag t j)) limits) = Ok (t, with_limits (enc j) limits).
Proof.
  intros Hw. unfold Decoder.tag. rewrite within_accepts by done. simpl.
  pose proof (within_tag _ _ _ Hw) as ([Hf Hc] & _). apply within_len in Hw. simpl in Hw.
  rewrite expect_head by auto. simpl. rewrite get_from_app. simpl.
  pose proof (item_len_enc limits 1 j []) as E. rewrite app_nil_r in E.
  pose proof (usize_max_u64 (max_input_bytes limits)).
  rewrite E by (done || len_lia). simpl. rewrite checked_add_Some by len_lia. simpl.
  rewrite len_app, N.eqb_refl. simpl.
  pose proof (get_range_app [] (enc j) []) as G. rewrite app_nil_l, app_nil_r in G.
  change (len [] + len (enc j)) with (len (enc j)) in G. change (len []) with 0 in G. by rewrite G.
Qed.

Lemma map_within limits l : within limits (IMap l) ->
  ascending None ((fun e => enc (fst e)) <$> pairs l) ->
  Decoder.map (with_limits (enc (IMap l)) limits) =
  Ok ((fun e => (with_limits (enc (fst e)) limits, with_limits (enc (snd e)) limits)) <$> pairs l).
Proof.
  intros Hw Hs. unfold Decoder.map. rewrite within_accepts by done. simpl.
  pose proof (within_map _ _ Hw) as (n & Hn & Hmax & Hch & _). apply within_len in Hw. simpl in Hw.
  rewrite expect_head by auto. simpl.
  pose proof (len_concat_enc l). pose proof (usize_max_u64 (max_collection_items limits)).
  pose proof (usize_max_u64 (max_input_bytes limits)).
  assert (len l = 2 * N.of_nat n) as Hlen by (unfold len; lia).
  assert (len l / 2 = N.of_nat n) as Hd by (rewrite Hlen, N.mul_comm, N.div_mul; lia).
  rewrite Hd in *.
  assert (val (wrap 64 (N.of_nat n)) = N.of_nat n) as Hwr by (apply val_wrap; apply lt_usize; lia).
  assert (collection_count (wrap 64 (N.of_nat n)) limits = Ok (N.of_nat n)) as ->.
  { apply collection_count_Ok. rewrite Hwr. done. }
  simpl. rewrite checked_add_Some by len_lia. simpl.
  rewrite len_app. destruct (N.ltb_spec (len (head major.MAP (wrap 64 (N.of_nat n))) + len (concat (enc <$> l)) -
    len (head major.MAP (wrap 64 (N.of_nat n)))) (N.of_nat n + N.of_nat n)); [lia|].
  rewrite Nat2N.id. rewrite <- (app_nil_r (concat (enc <$> l))) at 1.
  rewrite (map_entries_enc limits n l) by (done || by rewrite app_nil_r). simpl.
  by rewrite len_app, N.eqb_refl.
Qed.

(** A map that decodes has strictly ascending keys. *)
Lemma map_within_inv limits l x : within limits (IMap l) ->
  Decoder.map (with_limits (enc (IMap l)) limits) = Ok x ->
  ascending None ((fun e => enc (fst e)) <$> pairs l).
Proof.
  intros Hw. unfold Decoder.map. rewrite within_accepts by done. simpl.
  pose proof (within_map _ _ Hw) as (n & Hn & Hmax & Hch & _). apply within_len in Hw. simpl in Hw.
  rewrite expect_head by auto. simpl. pose proof (usize_max_u64 (max_collection_items limits)).
  assert (len l / 2 = N.of_nat n) as Hd.
  { replace (len l) with (2 * N.of_nat n) by (unfold len; lia). rewrite N.mul_comm, N.div_mul; lia. }
  rewrite Hd in *.
  assert (val (wrap 64 (N.of_nat n)) = N.of_nat n) as Hwr by (apply val_wrap; apply lt_usize; lia).
  assert (collection_count (wrap 64 (N.of_nat n)) limits = Ok (N.of_nat n)) as ->.
  { apply collection_count_Ok. rewrite Hwr. done. }
  simpl. clear H. intros H. apply bind_Ok in H as (ic & _ & H).
  destruct (_ <? ic); [done|]. rewrite Nat2N.id in H.
  rewrite <- (app_nil_r (concat (enc <$> l))) in H. apply bind_Ok in H as ([out pos] & H & _).
  eapply map_entries_sorted in H; [done|done|done|by rewrite app_nil_r].
Qed.

Lemma map_inv d x : Decoder.map d = Ok x -> exists l, dbytes d = enc (IMap l) /\ within (dlimits d) (IMap l) /\
  ascending None ((fun e => enc (fst e)) <$> pairs l) /\
  x = (fun e => (with_limits (enc (fst e)) (dlimits d), with_limits (enc (snd e)) (dlimits d))) <$> pairs l.
Proof.
  destruct d as [b limits]. intros H. pose proof H as H'. unfold Decoder.map in H'.
  apply bind_Ok in H' as ([] & E & H'). apply bind_Ok in H' as (h & E0 & _).
  apply accepts_iff in E as (i & -> & Hw).
  apply expect_enc in E0. destruct i as [[]|[]|l|l|]; simpl in E0; try discriminate.
  pose proof (map_within_inv _ _ _ Hw H) as Hs. exists l.
  rewrite map_within in H by done. injection H as <-. done.
Qed.

(** * The accessors at the level of bytes

    [is_item] for every encoder, then a pair of lemmas per accessor: what it
    returns on an accepted encoding ([_enc]) and what its success says about
    the input ([_inv]). *)

Lemma is_item_uint v : is_item (encode_uint v).
Proof. by exists (IScalar KUint v). Qed.
Lemma is_item_bytes b : is_item (encode_byte_string b).
Proof. by exists (IString KBytes b). Qed.
Lemma is_item_text s : is_item (encode_text_string s).
Proof. by exists (IString KText (val s)). Qed.
Lemma encode_null_item : encode_null = enc (IScalar KSimple (wrap 64 22)).
Proof. reflexivity. Qed.
Lemma is_item_null : is_item encode_null.
Proof. by eexists (IScalar KSimple (wrap 64 22)). Qed.
Lemma is_item_bool b : is_item (encode_bool b).
Proof. destruct b; [by eexists (IScalar KSimple (wrap 64 21))|by eexists (IScalar KSimple (wrap 64 20))]. Qed.

Lemma items_of bs : Forall is_item bs -> exists l, forallb shape l = true /\ bs = enc <$> l.
Proof.
  induction 1 as [|b bs (i & Hi & ->) _ (l & Hl & ->)]; [by exists []|].
  exists (i :: l). csimpl. by rewrite Hi, Hl.
Qed.

Lemma encode_array_items l : encode_array (enc <$> l) = enc (IArray l).
Proof. unfold encode_array, len. simpl. unfold len. by rewrite length_fmap. Qed.

Lemma is_item_array bs : Forall is_item bs -> is_item (encode_array bs).
Proof. intros (l & Hl & ->)%items_of. exists (IArray l). by rewrite encode_array_items. Qed.
Lemma is_item_tag t b : is_item b -> is_item (encode_tag t b).
Proof. intros (i & Hi & ->). by exists (ITag t i). Qed.
Lemma is_item_nullable {T} (o : option T) f : (forall a, is_item (f a)) -> is_item (encode_nullable o f).
Proof. intros. destruct o; simpl; auto using is_item_null. Qed.

(** An accepted encoding of a known item is that item. *)
Lemma accepts_item limits i : shape i = true -> accepts limits (enc i) -> within limits i.
Proof.
  intros Hi (j & E & Hw)%accepts_iff. pose proof Hw as (Hf & _ & Hl).
  pose proof (usize_max_u64 (max_input_bytes limits)).
  apply enc_inj in E as ->; [done|done|by eapply fits_shape|]. rewrite E. lia.
Qed.

Lemma uint_enc limits v : accepts limits (encode_uint v) ->
  Decoder.uint (with_limits (encode_uint v) limits) = Ok v.
Proof.
  intros Hw%(accepts_item limits (IScalar KUint v))%within_len; [|done].
  unfold Decoder.uint, encode_uint. rewrite <- (app_nil_r (head major.UINT v)).
  simpl in Hw. rewrite expect_head; [|exact (scalar_major_ok KUint)|by rewrite app_nil_r]. simpl.
  by rewrite app_nil_r, N.eqb_refl.
Qed.

Lemma uint_inv d v : Decoder.uint d = Ok v -> dbytes d = encode_uint v.
Proof.
  unfold Decoder.uint. intros H. inv_ok. apply expect_inv in E as (_ & Hl & _ & _ & r & Hr).
  apply N.eqb_eq in G. rewrite Hl, Hr in G. assert (r = []) as -> by (destruct r; [done|len_lia]).
  by rewrite Hr, app_nil_r.
Qed.

Lemma string_enc limits k b : accepts limits (enc (IString k b)) ->
  Decoder.string_value (with_limits (enc (IString k b)) limits) (string_major k) = Ok b.
Proof.
  intros Hw%(accepts_item limits (IString k b))%within_len; [|done]. simpl in *.
  unfold Decoder.string_value. rewrite expect_head by auto.
  rewrite N.eqb_refl. simpl. rewrite checked_usize_Ok. simpl.
  pose proof (usize_max_u64 (max_input_bytes limits)).
  rewrite N.mod_small by (apply lt_usize; len_lia).
  rewrite checked_add_Some by len_lia. simpl.
  set (h := head (string_major k) (wrap 64 (len b))) in *.
  pose proof (get_range_app h b []) as G. rewrite app_nil_r in G. rewrite G. simpl.
  by rewrite len_app, N.eqb_refl.
Qed.

Lemma string_inv d k b : Decoder.string_value d (string_major k) = Ok b -> dbytes d = enc (IString k b).
Proof.
  unfold Decoder.string_value. intros H. inv_ok. apply expect_inv in E as (_ & Hl & _ & _ & r & Hr).
  apply N.eqb_eq in G. rewrite checked_usize_Ok in E0. injection E0 as <-.
  apply checked_add_inv in E1 as [-> _]. apply get_range_Some in E2 as (p & s & Hb & Hp & Hs).
  rewrite Hb in Hr, G. rewrite Hl in *.
  apply app_inj_1 in Hr as [-> <-]; [|unfold len in Hp; lia].
  assert (len b = val (h_arg a)) as Hv by lia.
  assert (s = []) as -> by (destruct s; [done|len_lia]).
  simpl. rewrite Hv, wrap_val, Hb. by rewrite app_nil_r.
Qed.

Lemma bytes_value_enc limits b : accepts limits (encode_byte_string b) ->
  Decoder.bytes_value (with_limits (encode_byte_string b) limits) = Ok b.
Proof. apply (string_enc limits KBytes b). Qed.

Lemma bytes_value_inv d b : Decoder.bytes_value d = Ok b -> dbytes d = encode_byte_string b.
Proof. apply (string_inv d KBytes b). Qed.

Lemma text_enc limits s : accepts limits (encode_text_string s) ->
  Decoder.text (with_limits (encode_text_string s) limits) = Ok s.
Proof.
  intros H. unfold Decoder.text.
  assert (Decoder.string_value (with_limits (encode_text_string s) limits) major.TEXT = Ok (val s)) as ->
    by apply (string_enc limits KText (val s) H).
  simpl. by rewrite mk_sub_val.
Qed.

Lemma text_inv d s : Decoder.text d = Ok s -> dbytes d = encode_text_string s.
Proof.
  unfold Decoder.text. intros H. inv_ok. apply mk_sub_Some in H as <-.
  by apply (string_inv d KText) in E.
Qed.

Abbreviation children limits bs := ((fun b => with_limits b limits) <$> bs).

Lemma array_enc limits bs expected : Forall is_item bs -> accepts limits (encode_array bs) ->
  length_ok expected (len bs) ->
  Decoder.array (with_limits (encode_array bs) limits) expected = Ok (children limits bs) /\
  Forall (fun b => accepts limits b) bs.
Proof.
  intros (l & Hl & ->)%items_of Ha He. rewrite encode_array_items in *.
  apply accepts_item in Ha; [|done].
  assert (len (enc <$> l) = len l) as E by (unfold len; by rewrite length_fmap). rewrite E in He.
  rewrite array_within by done. rewrite <- list_fmap_compose. split; [done|].
  apply within_array in Ha as (_ & _ & Ha). rewrite Forall_fmap.
  eapply Forall_impl; [exact Ha|]. intros i Hi. by apply within_accepts.
Qed.

Lemma array_inv d expected ds : Decoder.array d expected = Ok ds ->
  exists bs, ds = children (dlimits d) bs /\ dbytes d = encode_array bs /\
    Forall (fun b => accepts (dlimits d) b) bs /\ length_ok expected (len bs) /\
    Forall is_item bs.
Proof.
  destruct d as [b limits]. intros H. pose proof H as H'. unfold Decoder.array in H'.
  apply bind_Ok in H' as ([] & E & H'). apply bind_Ok in H' as (h & E0 & _).
  apply accepts_iff in E as (i & -> & Hw).
  apply expect_enc in E0. destruct i as [[]|[]|l|l|]; simpl in E0; try discriminate.
  assert (length_ok expected (len l)) as He.
  { destruct expected as [e|]; [|done]. simpl. destruct (decide (e = len l)); [done|].
    by rewrite array_length_mismatch in H. }
  rewrite array_within in H by done. injection H as <-. exists (enc <$> l). simpl dlimits. simpl dbytes.
  rewrite <- list_fmap_compose, encode_array_items. split_and!; [done|done| | |].
  - apply within_array in Hw as (_ & _ & Hw). rewrite Forall_fmap.
    eapply Forall_impl; [exact Hw|]. intros i Hi. by apply within_accepts.
  - unfold len in *. by rewrite length_fmap.
  - pose proof Hw as (Hf & _). apply fits_shape in Hf. simpl in Hf. rewrite forallb_Forall in Hf.
    rewrite Forall_fmap. eapply Forall_impl; [exact Hf|]. intros i Hi. by exists i.
Qed.

Lemma tag_enc limits t b : is_item b -> accepts limits (encode_tag t b) ->
  Decoder.tag (with_limits (encode_tag t b) limits) = Ok (t, with_limits b limits) /\ accepts limits b.
Proof.
  intros (i & Hi & ->) Ha. change (encode_tag t (enc i)) with (enc (ITag t i)) in *.
  apply accepts_item in Ha; [|done]. rewrite tag_within by done. split; [done|].
  apply within_accepts. by apply within_tag in Ha as [_ ?].
Qed.

Lemma tag_inv d t d' : Decoder.tag d = Ok (t, d') ->
  dlimits d' = dlimits d /\ dbytes d = encode_tag t (dbytes d') /\ is_item (dbytes d') /\
  accepts (dlimits d) (dbytes d').
Proof.
  destruct d as [b limits]. intros H. pose proof H as H'. unfold Decoder.tag in H'.
  apply bind_Ok in H' as ([] & E & H'). apply bind_Ok in H' as (h & E0 & _).
  apply accepts_iff in E as (i & -> & Hw).
  apply expect_enc in E0. destruct i as [[]|[]|l|l|t' j]; simpl in E0; try discriminate.
  rewrite tag_within in H by done. injection H as <- <-. simpl. split_and!; [done..| |].
  - exists j. split; [|done]. destruct Hw as [Hf _]. by apply fits_shape in Hf.
  - apply within_accepts. by apply within_tag in Hw as [_ ?].
Qed.

Lemma expect_tag_enc limits t b expected : is_item b -> accepts limits (encode_tag t b) -> val t = expected ->
  Decoder.expect_tag (with_limits (encode_tag t b) limits) expected = Ok (with_limits b limits) /\
  accepts limits b.
Proof.
  intros Hi Ha <-. destruct (tag_enc limits t b Hi Ha) as [E ?]. split; [|done].
  unfold Decoder.expect_tag. rewrite E. simpl. by rewrite N.eqb_refl.
Qed.

(** Accessors that take an item apart check it first. *)
Lemma expect_tag_accepts d expected d' : Decoder.expect_tag d expected = Ok d' -> accepts (dlimits d) (dbytes d).
Proof.
  unfold Decoder.expect_tag, Decoder.tag. intros H. apply bind_Ok in H as ([t d''] & E & _).
  apply bind_Ok in E as ([] & E & _). by destruct d.
Qed.

Lemma array_accepts d n ds : Decoder.array d n = Ok ds -> accepts (dlimits d) (dbytes d).
Proof. unfold Decoder.array. intros H. apply bind_Ok in H as ([] & E & _). by destruct d. Qed.

Lemma accepts_len limits b : accepts limits b -> len b <= usize_max.
Proof.
  intros (i & -> & _ & _ & Hl)%accepts_iff. pose proof (uint_bound (max_input_bytes limits)). unfold usize_max. lia.
Qed.

Lemma expect_tag_inv d expected d' : Decoder.expect_tag d expected = Ok d' ->
  dlimits d' = dlimits d /\ dbytes d = encode_tag (wrap 64 expected) (dbytes d') /\
  is_item (dbytes d') /\ accepts (dlimits d) (dbytes d').
Proof.
  unfold Decoder.expect_tag. intros H. apply bind_Ok in H as ([t d''] & E & H). inv_ok.
  apply N.eqb_eq in G as <-. rewrite wrap_val. by apply tag_inv in E.
Qed.

(** ** Null *)

Lemma read_head_major b0 b h : read_head (b0 :: b) = Ok h -> h_major h = N.land (b2n b0) 0xe0.
Proof.
  unfold read_head. intros H. simpl lookup in H. simpl ok_or in H. rewrite bind_Ok_l in H.
  apply bind_Ok in H as ([arg l] & _ & H). inv_ok. done.
Qed.

Lemma is_null_head limits m v r : is_major m -> m <> major.SIMPLE ->
  Decoder.is_null (with_limits (head m v ++ r) limits) = false.
Proof.
  intros Hm Hs. unfold Decoder.is_null. simpl. pose proof (read_head_head m v r Hm) as H.
  destruct (head m v ++ r) as [|b0 b]; [done|]. simpl. apply read_head_major in H. simpl in H.
  destruct (N.eqb_spec (b2n b0) simple.NULL) as [E|]; [|done].
  rewrite E in H. by rewrite H in Hs.
Qed.

Lemma is_null_enc limits i : item_major i <> major.SIMPLE ->
  Decoder.is_null (with_limits (enc i) limits) = false.
Proof. intros Hs. destruct (enc_head i) as (v & r & -> & Hm). by apply is_null_head. Qed.

(** Encodings that [is_null] tells from null. *)
Definition not_null (b : bytes) : Prop := forall limits, Decoder.is_null (with_limits b limits) = false.

Lemma not_null_uint v : not_null (encode_uint v).
Proof. intros limits. by apply (is_null_enc limits (IScalar KUint v)). Qed.
Lemma not_null_bytes b : not_null (encode_byte_string b).
Proof. intros limits. by apply (is_null_enc limits (IString KBytes b)). Qed.
Lemma not_null_text s : not_null (encode_text_string s).
Proof. intros limits. by apply (is_null_enc limits (IString KText (val s))). Qed.
Lemma not_null_array bs : Forall is_item bs -> not_null (encode_array bs).
Proof.
  intros (l & _ & ->)%items_of limits. rewrite encode_array_items. by apply is_null_enc.
Qed.
Lemma not_null_tag t b : is_item b -> not_null (encode_tag t b).
Proof. intros (i & _ & ->) limits. by apply (is_null_enc limits (ITag t i)). Qed.

Lemma nullable_enc {T} limits (o : option T) (f : T -> bytes) g :
  (forall a, o = Some a -> not_null (f a)) ->
  (forall a, o = Some a -> accepts limits (f a) -> g (with_limits (f a) limits) = Ok a) ->
  accepts limits (encode_nullable o f) ->
  Decoder.nullable (with_limits (encode_nullable o f) limits) g = Ok o.
Proof.
  intros Hn Hg Ha. unfold Decoder.nullable. destruct o as [a|]; simpl in *.
  - by rewrite Hn, Hg.
  - replace (Decoder.is_null (with_limits encode_null limits)) with true by reflexivity. by rewrite Ha.
Qed.

Lemma is_null_inv d : Decoder.is_null d = true -> Decoder.finish d = Ok tt -> dbytes d = encode_null.
Proof.
  unfold Decoder.is_null. destruct d as [b limits]. simpl. intros Hn (i & -> & Hw)%accepts_iff.
  destruct (decide (item_major i = major.SIMPLE)) as [Hi|Hi]; cycle 1.
  { apply (is_null_enc limits) in Hi. unfold Decoder.is_null in Hi. simpl in Hi. congruence. }
  destruct i as [[]|[]|l|l|]; simpl in Hi; try discriminate. simpl in *. unfold head, push_head in *.
  pose proof (uint_bound n) as Hb. rewrite app_nil_l in *.
  destruct (N.ltb_spec (val n) 24) as [H|H].
  - simpl in Hn. apply N.eqb_eq in Hn.
    destruct (initial_byte major.SIMPLE (val n) (scalar_major_ok KSimple) ltac:(lia)) as [_ E].
    change (b2n (n2b (N.lor major.SIMPLE (val n))) = simple.NULL) in Hn. rewrite Hn in E. by rewrite <- E.
  - destruct (val n <=? 0xff), (val n <=? 0xffff), (val n <=? 0xffffffff); vm_compute in Hn; discriminate.
Qed.

Lemma nullable_inv {T} d (g : Decoder -> result T) o : Decoder.nullable d g = Ok o ->
  (o = None /\ dbytes d = encode_null) \/ exists a, o = Some a /\ g d = Ok a.
Proof.
  unfold Decoder.nullable. destruct (Decoder.is_null d) eqn:E; intros H.
  - inv_ok. apply lift_Ok in E0. destruct a. left. split; [done|]. by apply is_null_inv.
  - right. apply fmap_Ok in H as (a & ? & ->). eauto.
Qed.

Lemma bool_enc limits b : Decoder.bool (with_limits (encode_bool b) limits) = Ok b.
Proof. by destruct b. Qed.

Lemma bool_inv d b : Decoder.bool d = Ok b -> dbytes d = encode_bool b.
Proof.
  unfold Decoder.bool, encode_bool. destruct d as [[|b0 [|b1 l]] limits]; try done.
  - simpl. intros H. destruct (N.eqb_spec (b2n b0) simple.TRUE) as [E|].
    + injection H as <-. by rewrite <- E, n2b_b2n.
    + destruct (N.eqb_spec (b2n b0) simple.FALSE) as [E|]; [|done].
      injection H as <-. by rewrite <- E, n2b_b2n.
  - cbn [dbytes]. rewrite !len_cons. by destruct (N.eqb_spec (1 + (1 + len l)) 1); [lia|].
Qed.

(** ** No accessor panics *)

Lemma no_panic_read_head b : no_panic (read_head b).
Proof.
  unfold read_head. solve_no_panic.
Qed.

Lemma no_panic_checked_usize v : no_panic (checked_usize v).
Proof. rewrite checked_usize_Ok. auto with outcome. Qed.

Lemma no_panic_collection_count v limits : no_panic (collection_count v limits).
Proof.
  unfold collection_count. pose proof no_panic_checked_usize. solve_no_panic.
Qed.
#[export] Hint Resolve no_panic_read_head no_panic_checked_usize no_panic_collection_count : outcome.

Lemma no_panic_skip_items m k : (forall b rem, no_panic (m b rem)) -> forall b pos rem,
  no_panic (skip_items m k b pos rem).
Proof.
  intros Hm. induction k as [|k IH]; intros; simpl; solve_no_panic.
Qed.

Lemma no_panic_item_tail m b limits h rem : (forall b rem, no_panic (m b rem)) ->
  no_panic (item_tail m b limits h rem).
Proof.
  intros Hm. pose proof (no_panic_skip_items m) as Hs. unfold item_tail. solve_no_panic.
Qed.

Lemma no_panic_item_len_fuel fuel : forall b limits depth rem, no_panic (item_len_fuel fuel b limits depth rem).
Proof.
  pose proof no_panic_item_tail. induction fuel as [|fuel IH]; intros; simpl; solve_no_panic.
Qed.

Lemma no_panic_item_len b limits depth : no_panic (item_len b limits depth).
Proof.
  apply no_panic_fmap, no_panic_item_len_fuel.
Qed.
#[export] Hint Resolve no_panic_item_len : outcome.

Lemma no_panic_finish d : no_panic (Decoder.finish d).
Proof.
  unfold Decoder.finish. solve_no_panic.
Qed.

Lemma no_panic_expect d want : no_panic (Decoder.expect d want).
Proof.
  unfold Decoder.expect. solve_no_panic.
Qed.
#[export] Hint Resolve no_panic_finish no_panic_expect : outcome.

Lemma no_panic_uint d : no_panic (Decoder.uint d).
Proof.
  unfold Decoder.uint. solve_no_panic.
Qed.

Lemma no_panic_string d want : no_panic (Decoder.string_value d want).
Proof.
  unfold Decoder.string_value. solve_no_panic.
Qed.

Lemma no_panic_bytes_value d : no_panic (Decoder.bytes_value d).
Proof. apply no_panic_string. Qed.

Lemma no_panic_text d : no_panic (Decoder.text d).
Proof. unfold Decoder.text. apply no_panic_bind; [apply no_panic_string|auto with outcome]. Qed.
#[export] Hint Resolve no_panic_uint no_panic_bytes_value no_panic_text : outcome.

Lemma no_panic_nullable {T} d (g : Decoder -> result T) : no_panic (g d) -> no_panic (Decoder.nullable d g).
Proof.
  intros. unfold Decoder.nullable. solve_no_panic.
Qed.

Lemma no_panic_item_at b limits pos : no_panic (Decoder.item_at b limits pos).
Proof. unfold Decoder.item_at. solve_no_panic. Qed.
#[export] Hint Resolve no_panic_nullable no_panic_item_at : outcome.

Lemma no_panic_array_items k : forall b limits pos, no_panic (Decoder.array_items k b limits pos).
Proof.
  induction k as [|k IH]; intros; simpl; solve_no_panic.
Qed.

Lemma no_panic_map_entries k : forall b limits pos prev, no_panic (Decoder.map_entries k b limits pos prev).
Proof.
  induction k as [|k IH]; intros; simpl; solve_no_panic.
Qed.
#[export] Hint Resolve no_panic_array_items no_panic_map_entries : outcome.

Lemma no_panic_array d expected : no_panic (Decoder.array d expected).
Proof.
  unfold Decoder.array. solve_no_panic.
Qed.

Lemma no_panic_map d : no_panic (Decoder.map d).
Proof.
  unfold Decoder.map. solve_no_panic.
Qed.

(** The slice [&rest[..len]] of [tag] is in bounds: the length was checked. *)
Lemma no_panic_tag d : no_panic (Decoder.tag d).
Proof.
  destruct d as [b limits]. unfold Decoder.tag. apply no_panic_bind; [auto with outcome|]. intros [] Hfin.
  apply accepts_iff in Hfin as (i & -> & Hw). apply no_panic_bind; [auto with outcome|]. intros h Hh.
  pose proof (expect_enc _ _ _ _ Hh) as Hi.
  destruct i as [[]|[]|l|l|t j]; simpl in Hi; try discriminate.
  pose proof (tag_within limits t j Hw) as Ht. unfold Decoder.tag in Ht.
  rewrite (within_accepts _ _ Hw), bind_Ok_l, Hh, bind_Ok_l in Ht. intros Hp.
  rewrite Hp in Ht. discriminate.
Qed.

Lemma no_panic_expect_tag d expected : no_panic (Decoder.expect_tag d expected).
Proof.
  unfold Decoder.expect_tag. apply no_panic_bind; [apply no_panic_tag|]. intros [] _.
  case_match; auto with outcome.
Qed.

Lemma no_panic_bool d : no_panic (Decoder.bool d).
Proof. unfold Decoder.bool. repeat case_match; auto with outcome. Qed.
#[export] Hint Resolve no_panic_array no_panic_map no_panic_tag no_panic_expect_tag no_panic_bool : outcome.
