(* ===== verification/Hash.v ===== *)
(** Hash algorithms, digests with their imprint, and the streaming hasher:
    [src/crypto/hash.rs].

    The SHA-2 functions come from the [sha2] crate and are a parameter,
    [Sha2]. Theorems that need collision resistance say so as an alternative:
    the property holds, or two different messages among those that were hashed
    have the same digest ([Collision hashed]). The set [hashed] matters: over all
    byte strings a function to 32 bytes has collisions, so the theorems take the
    messages that the computation at hand really hashes. *)

From S2P Require Import Prelude Bytes Error.
Local Open Scope N_scope.

(** * The [sha2] crate *)

Class Sha2 : Type := {
  Sha224_digest : bytes -> arr 28;
  Sha256_digest : bytes -> arr 32;
  Sha384_digest : bytes -> arr 48;
  Sha512_digest : bytes -> arr 64;
}.

(** Two messages of [hashed] that SHA-256 does not tell apart. *)
Definition Collision `{Sha2} (hashed : bytes -> Prop) : Prop :=
  exists x y, hashed x /\ hashed y /\ x <> y /\ Sha256_digest x = Sha256_digest y.

(** * [HashAlgorithm] *)

Inductive HashAlgorithm : Type := Sha224 | Sha256 | Sha384 | Sha512 | Ripemd160.

#[export] Instance HashAlgorithm_eq_dec : EqDecision HashAlgorithm.
Proof. solve_decision. Defined.

Module HashAlgorithm.

Definition id (a : HashAlgorithm) : u16 :=
  wrap 16 (match a with Sha256 => 0 | Sha224 => 1 | Sha384 => 2 | Sha512 => 3 | Ripemd160 => 4 end).

Definition length (a : HashAlgorithm) : nat :=
  match a with Sha256 => 32 | Sha224 => 28 | Sha384 => 48 | Sha512 => 64 | Ripemd160 => 20 end.

Definition from_id (id : u16) : result HashAlgorithm :=
  let v := val id in
  if v =? 0 then Ok Sha256
  else if v =? 1 then Ok Sha224
  else if v =? 2 then Ok Sha384
  else if v =? 3 then Ok Sha512
  else if v =? 4 then Ok Ripemd160
  else Err (UnknownHashAlgorithm v).

End HashAlgorithm.

(** * [DataHash] *)

(** The fields are private and every constructor establishes the length, which
    is therefore part of the type. *)
Record DataHashFields : Type := { dh_algorithm : HashAlgorithm; dh_data : bytes }.

#[export] Instance DataHashFields_eq_dec : EqDecision DataHashFields.
Proof. solve_decision. Defined.

Definition digest_length_ok (h : DataHashFields) : bool :=
  Nat.eqb (length (dh_data h)) (HashAlgorithm.length (dh_algorithm h)).

Abbreviation DataHash := (sub digest_length_ok).

Module DataHash.

Definition new (algorithm : HashAlgorithm) (data : bytes) : result DataHash :=
  match mk_sub {| dh_algorithm := algorithm; dh_data := data |} with
  | Some h => Ok h
  | None => Err (InvalidLength "DataHash digest" (N.of_nat (HashAlgorithm.length algorithm)) (len data))
  end.

Definition from_imprint (imprint : bytes) : result DataHash :=
  if len imprint <? 3 then Err (InvalidLength "DataHash imprint" 3 (len imprint)) else
  b0 ← or_panic (imprint !! 0%nat);
  b1 ← or_panic (imprint !! 1%nat);
  let id := wrap 16 (be_value [b0; b1]) in
  algorithm ← HashAlgorithm.from_id id;
  new algorithm (drop 2 imprint).

Definition algorithm (h : DataHash) : HashAlgorithm := dh_algorithm (val h).

Definition data (h : DataHash) : bytes := dh_data (val h).

Definition imprint (h : DataHash) : bytes :=
  be_bytes 2 (val (HashAlgorithm.id (algorithm h))) ++ data h.

End DataHash.

(** * [DataHasher] *)

(** A digest state: the algorithm and the bytes absorbed so far. *)
Inductive Inner : Type :=
| InnerSha224 (h : bytes)
| InnerSha256 (h : bytes)
| InnerSha384 (h : bytes)
| InnerSha512 (h : bytes).

Module DataHasher.

Definition new (algorithm : HashAlgorithm) : result Inner :=
  match algorithm with
  | Sha224 => Ok (InnerSha224 [])
  | Sha256 => Ok (InnerSha256 [])
  | Sha384 => Ok (InnerSha384 [])
  | Sha512 => Ok (InnerSha512 [])
  | Ripemd160 => Err (Crypto "RIPEMD-160 not supported")
  end.

Definition update (self : Inner) (data : bytes) : Inner :=
  match self with
  | InnerSha224 h => InnerSha224 (h ++ data)
  | InnerSha256 h => InnerSha256 (h ++ data)
  | InnerSha384 h => InnerSha384 (h ++ data)
  | InnerSha512 h => InnerSha512 (h ++ data)
  end.

Lemma digest_ok (a : HashAlgorithm) (d : arr (HashAlgorithm.length a)) :
  digest_length_ok {| dh_algorithm := a; dh_data := val d |} = true.
Proof. exact (val_ok d). Qed.

Definition finalize `{Sha2} (self : Inner) : DataHash :=
  match self with
  | InnerSha224 h => Sub _ (digest_ok Sha224 (Sha224_digest h))
  | InnerSha256 h => Sub _ (digest_ok Sha256 (Sha256_digest h))
  | InnerSha384 h => Sub _ (digest_ok Sha384 (Sha384_digest h))
  | InnerSha512 h => Sub _ (digest_ok Sha512 (Sha512_digest h))
  end.

End DataHasher.

Definition sha256 `{Sha2} (data : bytes) : DataHash :=
  Sub {| dh_algorithm := Sha256; dh_data := val (Sha256_digest data) |}
    (DataHasher.digest_ok Sha256 (Sha256_digest data)).

(** * Facts *)

Section facts.
Context `{Sha2}.

Lemma sha256_data x : DataHash.data (sha256 x) = val (Sha256_digest x).
Proof. done. Qed.

Lemma digest_inj (hashed : bytes -> Prop) x y : hashed x -> hashed y -> Sha256_digest x = Sha256_digest y ->
  x = y \/ Collision hashed.
Proof. intros Hx Hy E. destruct (decide (x = y)) as [|Hne]; [by left|right]. by exists x, y. Qed.

Lemma sha256_inj hashed x y : hashed x -> hashed y -> sha256 x = sha256 y -> x = y \/ Collision hashed.
Proof.
  intros Hx Hy E. apply digest_inj; [done..|]. apply val_inj. by apply (f_equal DataHash.data) in E.
Qed.

Lemma Collision_mono (P Q : bytes -> Prop) : (forall x, P x -> Q x) -> Collision P -> Collision Q.
Proof. intros HPQ (x & y & Hx & Hy & Hne & E). exists x, y. auto. Qed.

(** Hashing in pieces is hashing the concatenation. *)
Lemma update_all parts : forall x, DataHasher.finalize (foldl DataHasher.update (InnerSha256 x) parts) =
  sha256 (x ++ concat parts).
Proof.
  induction parts as [|p parts IH]; intros x; simpl.
  - rewrite app_nil_r. by apply val_inj.
  - by rewrite IH, <- app_assoc.
Qed.

Lemma DataHash_new_Ok a d h : DataHash.new a d = Ok h <-> DataHash.algorithm h = a /\ DataHash.data h = d.
Proof.
  unfold DataHash.new. destruct (mk_sub _) as [h'|] eqn:E.
  - apply mk_sub_Some in E. unfold DataHash.algorithm, DataHash.data. split.
    + intros [= <-]. by rewrite E.
    + intros [<- <-]. f_equal. apply val_inj. rewrite E. by destruct (val h).
  - split; [done|]. intros [<- <-]. apply mk_sub_None in E. pose proof (val_ok h) as Hok.
    unfold DataHash.algorithm, DataHash.data in E. destruct (val h). simpl in *. congruence.
Qed.

Lemma from_id_id a : HashAlgorithm.from_id (HashAlgorithm.id a) = Ok a.
Proof. by destruct a. Qed.

Lemma id_from_id i a : HashAlgorithm.from_id i = Ok a -> HashAlgorithm.id a = i.
Proof.
  unfold HashAlgorithm.from_id. repeat match goal with
  |- context [val i =? ?k] => destruct (N.eqb_spec (val i) k) as [E|] end; intros [= <-];
  apply val_inj; simpl; by rewrite E.
Qed.

Lemma DataHash_length h : length (DataHash.data h) = HashAlgorithm.length (DataHash.algorithm h).
Proof. apply Nat.eqb_eq. exact (val_ok h). Qed.

Lemma digest_length_pos h : (20 <= length (DataHash.data h))%nat.
Proof. rewrite DataHash_length. destruct (DataHash.algorithm h); simpl; lia. Qed.

(** The imprint identifies the digest. *)
Lemma from_imprint_imprint h : DataHash.from_imprint (DataHash.imprint h) = Ok h.
Proof.
  unfold DataHash.imprint, DataHash.from_imprint. pose proof (digest_length_pos h) as Hl.
  pose proof (length_be_bytes 2 (val (HashAlgorithm.id (DataHash.algorithm h)))) as H2.
  pose proof (be_value_be_bytes 2 (val (HashAlgorithm.id (DataHash.algorithm h)))) as Hv.
  destruct (be_bytes 2 _) as [|b0 [|b1 [|]]]; try discriminate.
  simpl app. cbn [lookup list_lookup or_panic mbind outcome_bind drop].
  destruct (N.ltb_spec (len (b0 :: b1 :: DataHash.data h)) 3) as [Hlt|_].
  { unfold len in Hlt. simpl in Hlt. lia. }
  rewrite Hv.
  assert (wrap 16 (val (HashAlgorithm.id (DataHash.algorithm h)) mod 256 ^ N.of_nat 2)
    = HashAlgorithm.id (DataHash.algorithm h)) as ->.
  { rewrite N.mod_small by exact (uint_bound (HashAlgorithm.id _)). apply wrap_val. }
  rewrite from_id_id. simpl. by apply DataHash_new_Ok.
Qed.

Lemma imprint_from_imprint b h : DataHash.from_imprint b = Ok h -> DataHash.imprint h = b.
Proof.
  unfold DataHash.from_imprint. destruct b as [|b0 [|b1 d]]; [done..|].
  cbn [lookup list_lookup or_panic mbind outcome_bind drop]. intros E.
  destruct (_ <? 3); [done|]. apply bind_Ok in E as (a & Ha & E). rewrite drop_0 in E.
  apply id_from_id in Ha. apply DataHash_new_Ok in E as [Halg <-].
  unfold DataHash.imprint. rewrite Halg, Ha. change (b0 :: b1 :: DataHash.data h) with ([b0; b1] ++ DataHash.data h).
  f_equal. rewrite val_wrap; [apply (be_bytes_be_value [b0; b1])|apply (be_value_bound [b0; b1])].
Qed.

Lemma from_imprint_no_panic b : no_panic (DataHash.from_imprint b).
Proof.
  unfold DataHash.from_imprint, DataHash.new, HashAlgorithm.from_id.
  destruct b as [|b0 [|b1 d]]; [done..|]. solve_no_panic; done.
Qed.
End facts.
