(* ===== verification/Codec.v ===== *)
(** The interface of the wire types: every structure that crosses the wire has
    a [to_cbor] and a [from_cbor]. [CodecLaws] is what the rest of the library
    may assume of a type, [CodecCanonical] that its decoder accepts only what
    its encoder writes. Instances are proved with the tactics at the end. *)

From S2P Require Import Prelude Bytes Error Cbor CborSpec CborRead.
Local Open Scope N_scope.

Class Codec (A : Type) : Type := {
  to_cbor : A -> bytes;
  from_cbor : Decoder -> result A;
  (** what the decoder enforces of a value *)
  wf : A -> Prop;
}.

Class CodecLaws (A : Type) `{Codec A} : Prop := {
  (** an encoding is one item, never null *)
  to_cbor_item a : is_item (to_cbor a);
  to_cbor_not_null a : not_null (to_cbor a);
  (** whatever limits the encoding fits, it decodes to the value *)
  from_to_cbor limits a :
    wf a -> accepts limits (to_cbor a) -> from_cbor (with_limits (to_cbor a) limits) = Ok a;
  from_cbor_wf d a : from_cbor d = Ok a -> wf a;
  from_cbor_no_panic d : no_panic (from_cbor d);
}.

Class CodecCanonical (A : Type) `{Codec A} : Prop := {
  to_from_cbor d a : from_cbor d = Ok a -> to_cbor a = dbytes d;
}.

Create HintDb items discriminated.
Create HintDb wf discriminated.
#[export] Hint Resolve is_item_uint is_item_bytes is_item_text is_item_null is_item_bool
  is_item_array is_item_tag is_item_nullable Forall_nil_2 Forall_cons_2
  not_null_uint not_null_bytes not_null_text not_null_array not_null_tag : items.
#[export] Hint Extern 1 (is_item (to_cbor _)) => apply to_cbor_item : items.
#[export] Hint Extern 1 (not_null (to_cbor _)) => apply to_cbor_not_null : items.

Lemma is_item_mapped {A} (f : A -> bytes) l : (forall a, is_item (f a)) -> Forall is_item (f <$> l).
Proof. intros. by apply Forall_fmap, Forall_true. Qed.
#[export] Hint Resolve is_item_mapped : items.
#[export] Hint Extern 1 (no_panic (from_cbor _)) => apply from_cbor_no_panic : outcome.

Lemma no_panic_idx {A} (l : list A) i : (i < length l)%nat -> no_panic (idx l i).
Proof. intros. unfold idx. destruct (l !! i) eqn:E; [done|]. apply lookup_ge_None in E. lia. Qed.

(** The length of a decoded array of known size. *)
Lemma array_length d n ds : Decoder.array d (Some n) = Ok ds -> length ds = N.to_nat n.
Proof.
  intros (bs & -> & _ & _ & He & _)%array_inv. rewrite length_fmap. simpl in He. subst.
  unfold len. lia.
Qed.

(** Lists of items: [items.into_iter().map(T::from_cbor).collect()]. *)
Lemma mapO_from_cbor `{CodecLaws A} limits (l : list A) :
  Forall wf l -> Forall (fun b => accepts limits b) (to_cbor <$> l) ->
  mapO from_cbor (children limits (to_cbor <$> l)) = Ok l.
Proof.
  intros Hwf Hl. rewrite <- list_fmap_compose. rewrite Forall_fmap, Forall_forall in Hl.
  rewrite Forall_forall in Hwf. rewrite (mapO_fmap _ _ id).
  - by rewrite list_fmap_id.
  - intros a Ha. apply from_to_cbor; [by apply Hwf|by apply Hl].
Qed.

Lemma mapO_to_cbor `{CodecCanonical A} limits bs (l : list A) :
  mapO from_cbor (children limits bs) = Ok l -> to_cbor <$> l = bs.
Proof.
  rewrite mapO_Forall2. revert l. induction bs as [|b bs IH]; intros l Hl; csimpl in *;
    inversion Hl; subst; [done|]. csimpl. f_equal; [|by apply IH].
  by apply to_from_cbor in H3.
Qed.

Lemma mapO_wf `{CodecLaws A} ds (l : list A) : mapO from_cbor ds = Ok l -> Forall wf l.
Proof.
  rewrite mapO_Forall2. induction 1 as [|d a ds l Hd _ IH]; constructor; [by eapply from_cbor_wf|done].
Qed.

(** * Accessors the wire types share *)

(** [d.nullable(|x| x.bytes_value().map(|b| b.to_vec()).map_err(Into::into))] *)
Definition opt_bytes (d : Decoder) : result (option bytes) :=
  Decoder.nullable d (fun x => lift (Decoder.bytes_value x)).

(** [d.nullable(|x| x.uint().map_err(Into::into))] *)
Definition opt_uint (d : Decoder) : result (option u64) :=
  Decoder.nullable d (fun x => lift (Decoder.uint x)).

(** [uW::try_from(d.uint()?).map_err(|_| e)] *)
Definition uint_of (w : N) (e : Error) (d : Decoder) : result (uint w) :=
  v ← lift (Decoder.uint d);
  ok_or e (try_uint w (val v)).

(** A loop that pushes [d.bytes_value()?.to_vec()]. *)
Definition bytes_list (ds : list Decoder) : result (list bytes) :=
  mapO (fun d => lift (Decoder.bytes_value d)) ds.

Lemma opt_bytes_enc limits o : accepts limits (encode_nullable o encode_byte_string) ->
  opt_bytes (with_limits (encode_nullable o encode_byte_string) limits) = Ok o.
Proof.
  intros Ha. apply nullable_enc; [intros; apply not_null_bytes|intros a _ Hb; by rewrite bytes_value_enc|done].
Qed.

Lemma opt_bytes_inv d o : opt_bytes d = Ok o -> dbytes d = encode_nullable o encode_byte_string.
Proof.
  intros [[-> ->]|(a & -> & E)]%nullable_inv; [done|]. by apply lift_Ok, bytes_value_inv in E.
Qed.

Lemma opt_uint_enc limits o : accepts limits (encode_nullable o encode_uint) ->
  opt_uint (with_limits (encode_nullable o encode_uint) limits) = Ok o.
Proof.
  intros Ha. apply nullable_enc; [intros; apply not_null_uint|intros a _ Hb; by rewrite uint_enc|done].
Qed.

Lemma opt_uint_inv d o : opt_uint d = Ok o -> dbytes d = encode_nullable o encode_uint.
Proof.
  intros [[-> ->]|(a & -> & E)]%nullable_inv; [done|]. by apply lift_Ok, uint_inv in E.
Qed.

Lemma uint_of_enc limits {w} e (x : uint w) : (w <=? 64) = true ->
  accepts limits (encode_uint (wrap 64 (val x))) ->
  uint_of w e (with_limits (encode_uint (wrap 64 (val x))) limits) = Ok x.
Proof.
  intros Hw Ha. unfold uint_of. rewrite uint_enc by done. cbn [lift map_err]. rewrite bind_Ok_l.
  assert (val (wrap 64 (val x)) = val x) as -> by exact (widen 64 x Hw). by rewrite try_uint_val.
Qed.

Lemma uint_of_inv d {w} e (x : uint w) : uint_of w e d = Ok x -> dbytes d = encode_uint (wrap 64 (val x)).
Proof.
  unfold uint_of. intros E. inv_ok. apply lift_Ok, uint_inv in E0. apply try_uint_Some in E.
  by rewrite E, wrap_val.
Qed.

Lemma bytes_list_enc limits l : Forall (fun b => accepts limits b) (encode_byte_string <$> l) ->
  bytes_list (children limits (encode_byte_string <$> l)) = Ok l.
Proof.
  intros Hl. unfold bytes_list. rewrite <- list_fmap_compose, (mapO_fmap _ _ id), list_fmap_id; [done|].
  intros b Hb. rewrite Forall_fmap, Forall_forall in Hl. simpl. by rewrite bytes_value_enc by by apply Hl.
Qed.

Lemma bytes_list_inv limits bs l : bytes_list (children limits bs) = Ok l -> bs = encode_byte_string <$> l.
Proof.
  unfold bytes_list. rewrite mapO_Forall2. revert l. induction bs as [|b bs IH]; intros l Hl; csimpl in *;
    inversion Hl as [|? y ? ys E Hys]; subst; [done|]. apply lift_Ok, bytes_value_inv in E. csimpl. f_equal; [done|auto].
Qed.

Lemma no_panic_opt_bytes d : no_panic (opt_bytes d).
Proof. unfold opt_bytes. auto with outcome. Qed.
Lemma no_panic_opt_uint d : no_panic (opt_uint d).
Proof. unfold opt_uint. auto with outcome. Qed.
Lemma no_panic_uint_of w e d : no_panic (uint_of w e d).
Proof. unfold uint_of. solve_no_panic. Qed.
Lemma no_panic_bytes_list ds : no_panic (bytes_list ds).
Proof. unfold bytes_list. auto with outcome. Qed.
#[export] Hint Resolve no_panic_opt_bytes no_panic_opt_uint no_panic_uint_of no_panic_bytes_list : outcome.

(** Split a list of known length into its elements. *)
Ltac split_list :=
  repeat match goal with
  | H : length ?l = S _ |- _ => destruct l; [discriminate H|]; simpl in H; apply eq_add_S in H
  | H : length ?l = O |- _ => apply nil_length_inv in H; subst l
  end.

(** One decoding step forward, on an encoding known to be accepted. *)
Ltac codec_step :=
  match goal with
  | H : accepts ?L (encode_tag ?t ?b) |- context [Decoder.expect_tag (with_limits (encode_tag ?t ?b) ?L) ?n] =>
      let E := fresh "E" in
      destruct (expect_tag_enc L t b n ltac:(solve [eauto 20 with items]) H eq_refl) as [E ?];
      rewrite E; clear E H
  | H : accepts ?L (encode_array ?bs) |- context [Decoder.array (with_limits (encode_array ?bs) ?L) ?e] =>
      let E := fresh "E" in
      destruct (array_enc L bs e ltac:(solve [eauto 20 with items]) H ltac:(reflexivity || exact I)) as [E ?];
      rewrite E; clear E H
  | H : Forall _ (_ :: _) |- _ => apply Forall_cons_1 in H as [? ?]
  | H : Forall _ [] |- _ => clear H
  | H : accepts ?L (encode_uint ?v) |- context [Decoder.uint (with_limits (encode_uint ?v) ?L)] =>
      rewrite (uint_enc L v H)
  | H : accepts ?L (encode_byte_string ?v) |- context [Decoder.bytes_value (with_limits (encode_byte_string ?v) ?L)] =>
      rewrite (bytes_value_enc L v H)
  | H : accepts ?L (encode_text_string ?v) |- context [Decoder.text (with_limits (encode_text_string ?v) ?L)] =>
      rewrite (text_enc L v H)
  | H : accepts ?L (to_cbor ?v) |- context [from_cbor (with_limits (to_cbor ?v) ?L)] =>
      rewrite (fun Hw => from_to_cbor L v Hw H); [|solve [assumption | exact I | auto with wf]]
  | H : accepts ?L (encode_nullable ?o encode_byte_string) |- context [opt_bytes (with_limits _ ?L)] =>
      rewrite (opt_bytes_enc L o H)
  | H : accepts ?L (encode_nullable ?o encode_uint) |- context [opt_uint (with_limits _ ?L)] =>
      rewrite (opt_uint_enc L o H)
  | H : accepts ?L (encode_uint (wrap 64 (val ?x))) |- context [uint_of ?w ?e (with_limits (encode_uint (wrap 64 (val ?x))) ?L)] =>
      rewrite (@uint_of_enc L w e x eq_refl H)
  | H : Forall _ (encode_byte_string <$> ?l) |- context [bytes_list (children ?L (encode_byte_string <$> ?l))] =>
      rewrite (bytes_list_enc L l H)
  | H : Forall _ (to_cbor <$> ?l) |- context [mapO from_cbor (children ?L (to_cbor <$> ?l))] =>
      rewrite (fun Hw => mapO_from_cbor L l Hw H);
      [|solve [assumption | apply Forall_true; intros; exact I | auto with wf]]
  | |- context [Decoder.bool (with_limits (encode_bool ?b) ?L)] => rewrite (bool_enc L b)
  | |- context [try_arr ?n (val ?a)] => rewrite (@try_arr_val n a)
  | |- context [val ?x mod 2 ^ ?k] => rewrite (widen k x eq_refl)
  | |- context [val (wrap ?k (val ?x))] =>
      replace (val (wrap k (val x))) with (val x) by (symmetry; exact (widen k x eq_refl))
  | |- context [try_uint ?w (val ?x)] => rewrite (@try_uint_val w x)
  end.

Ltac codec_forward :=
  repeat (first [ progress codec_step
                | progress rewrite ?N.eqb_refl, ?bind_Ok_l
                | progress cbn [lift map_err idx or_panic lookup list_lookup mbind outcome_bind ok_or
                    fmap list_fmap negb fst snd] ]).

(** Take a successful decoding apart: every accessor gives its bytes back. *)
Ltac codec_inv_step :=
  match goal with
  | H : Ok _ = Ok _ |- _ => injection H as H; subst
  | H : lift _ = Ok _ |- _ => apply lift_Ok in H
  | H : (_ ≫= _) = Ok _ |- _ =>
      let a := fresh "a" in let E := fresh "E" in apply bind_Ok in H as (a & E & H)
  | H : map_err _ _ = Ok _ |- _ => apply map_err_Ok in H
  | H : ok_or _ (try_arr _ _) = Ok _ |- _ => apply ok_or_Ok, try_arr_Some in H
  | H : ok_or _ (try_uint _ _) = Ok _ |- _ => apply ok_or_Ok, try_uint_Some in H
  | H : Decoder.expect_tag ?d ?n = Ok ?d' |- _ =>
      let Hl := fresh "Hl" in let Hb := fresh "Hb" in
      apply expect_tag_inv in H as (Hl & Hb & _ & _)
  | H : Decoder.array ?d (Some ?n) = Ok ?ds |- _ =>
      let bs := fresh "bs" in let Hd := fresh "Hd" in let Hb := fresh "Hb" in let Hn := fresh "Hn" in
      let Ha := fresh "Hacc" in
      apply array_inv in H as (bs & Hd & Hb & Ha & Hn & _); subst ds;
      simpl in Hn; apply (f_equal N.to_nat) in Hn; unfold len in Hn; rewrite Nat2N.id in Hn;
      symmetry in Hn; change (length bs = ltac:(let k := eval vm_compute in (N.to_nat n) in exact k)) in Hn;
      split_list
  | H : idx _ _ = Ok _ |- _ => progress csimpl in H
  | H : idx (_ :: _) _ = Ok _ |- _ => injection H as H; subst
  | H : Decoder.array ?d None = Ok ?ds |- _ =>
      let bs := fresh "bs" in let Hb := fresh "Hb" in
      apply array_inv in H as (bs & -> & Hb & _ & _ & _); simpl dbytes in Hb
  | H : opt_bytes ?d = Ok _ |- _ => apply opt_bytes_inv in H; simpl dbytes in H
  | H : opt_uint ?d = Ok _ |- _ => apply opt_uint_inv in H; simpl dbytes in H
  | H : uint_of ?w ?e ?d = Ok _ |- _ => apply uint_of_inv in H; simpl dbytes in H
  | H : bytes_list (children _ _) = Ok _ |- _ => apply bytes_list_inv in H
  | H : mapO from_cbor (children _ _) = Ok _ |- _ => apply mapO_to_cbor in H
  | H : Decoder.uint ?d = Ok _ |- _ => apply uint_inv in H; simpl dbytes in H
  | H : Decoder.bytes_value ?d = Ok _ |- _ => apply bytes_value_inv in H; simpl dbytes in H
  | H : Decoder.text ?d = Ok _ |- _ => apply text_inv in H; simpl dbytes in H
  | H : Decoder.bool ?d = Ok _ |- _ => apply bool_inv in H; simpl dbytes in H
  | H : from_cbor ?d = Ok _ |- _ => apply to_from_cbor in H; simpl dbytes in H
  | H : (if ?b then Err _ else _) = Ok _ |- _ =>
      let E := fresh "G" in destruct b eqn:E; [discriminate H|]
  | H : (if ?b then _ else Err _) = Ok _ |- _ =>
      let E := fresh "G" in destruct b eqn:E; [|discriminate H]
  end.

Ltac codec_inv := repeat codec_inv_step.

(** Indexing an array that was decoded with its length is in bounds. *)
Ltac in_bounds :=
  apply no_panic_idx;
  match goal with
  | H : lift (Decoder.array _ (Some _)) = Ok ?ds |- (_ < length ?ds)%nat =>
      apply lift_Ok, array_length in H; rewrite H; vm_compute; lia
  | H : Decoder.array _ (Some _) = Ok ?ds |- (_ < length ?ds)%nat =>
      apply array_length in H; rewrite H; vm_compute; lia
  end.
#[export] Hint Extern 1 (no_panic (idx _ _)) => in_bounds : outcome.

(** The goals of [to_from_cbor] once the input is taken apart. *)
Ltac codec_close :=
  simpl; repeat match goal with
  | H : dbytes ?d = _ |- _ = dbytes ?d => rewrite H; clear H
  | H : val ?x = val ?y |- context [wrap _ (val ?x)] => rewrite H, wrap_val
  | H : val ?x = _ |- context [val ?x] => rewrite H
  | H : to_cbor ?a = _ |- context [to_cbor ?a] => rewrite H; clear H
  | |- context [wrap _ (val _)] => rewrite wrap_val
  | H : negb (val ?a =? val ?b) = false |- _ =>
      apply negb_false_iff, N.eqb_eq, val_inj in H; subst a
  end;
  subst; try congruence.

(** Unfold one codec instance and no other. *)
Ltac codec_unfold_in I :=
  let t := eval hnf in (@to_cbor _ I) in change (@to_cbor _ I) with t in *;
  let f := eval hnf in (@from_cbor _ I) in change (@from_cbor _ I) with f in *;
  let w := eval hnf in (@wf _ I) in change (@wf _ I) with w in *;
  cbv beta in *.
Tactic Notation "codec_unfold" constr(I) := codec_unfold_in I.

#[global] Arguments to_cbor : simpl never.
#[global] Arguments from_cbor : simpl never.
#[global] Arguments wf : simpl never.
