(* ===== verification/Radix.v ===== *)
(** Bit addressing and the path fold of the radix sparse Merkle trees:
    [src/radix.rs].

    [smt] is the tree a certificate speaks about, [descend] the leaf that
    key-directed descent reaches in it. [fold_sound] is the core of inclusion
    and non-inclusion: a path that folds to the root of a tree ends at the leaf
    the descent reaches, unless it exhibits a SHA-256 collision. *)

From S2P Require Import Prelude Bytes Error Hash.
Local Open Scope N_scope.

Definition KEY_BITS : N := 256.
Definition MAX_DEPTH : N := KEY_BITS - 1.

Definition bit_at {E} (data : bytes) (index : N) : outcome E bool :=
  if negb (index <? len data * 8) then Panic else
  let byte_index := index / 8 in
  let bit_in_byte := index mod 8 in
  b ← or_panic (data !! N.to_nat byte_index);
  Ok (negb (N.land (b2n b) (N.shiftr 0x80 bit_in_byte) =? 0)).

Definition prefix_region {E} (key : arr 32) (depth : N) : outcome E bytes :=
  if negb (depth <=? MAX_DEPTH) then Panic else
  let full_bytes := N.to_nat (depth / 8) in
  let prefix_bits := depth mod 8 in
  let region := take full_bytes (val key) ++ replicate (32 - full_bytes) Byte.x00 in
  if negb (prefix_bits =? 0) then
    let mask := N.shiftl 0xff (8 - prefix_bits) mod 256 in
    k ← or_panic (val key !! full_bytes);
    Ok (<[full_bytes := n2b (N.land (b2n k) mask)]> region)
  else Ok region.

(** [DataHasher::new(HashAlgorithm::Sha256).expect("sha256")] *)
Definition sha256_hasher : Inner := InnerSha256 [].

(** [0..=MAX_DEPTH] *)
Definition depths : list N := N.of_nat <$> seq 0 (N.to_nat KEY_BITS).

Section fold.
Context `{Sha2}.

Definition fold_step (bitmap : arr 32) (siblings : list (arr 32)) (target_key terminal_key : arr 32)
    (st : DataHash * nat) (depth : N) : maybe (DataHash * nat) :=
  let '(hash, position) := st in
  b ← bit_at (val bitmap) depth;
  if negb b then Ok (hash, position) else
  if Nat.eqb position 0 then Err tt else
  bt ← bit_at (val target_key) depth;
  bk ← bit_at (val terminal_key) depth;
  if negb (Bool.eqb bt bk) then Err tt else
  let position := (position - 1)%nat in
  sibling ← or_panic (siblings !! position);
  region ← prefix_region terminal_key depth;
  let node := DataHasher.update (DataHasher.update sha256_hasher [Byte.x01; n2b depth]) region in
  bk ← bit_at (val terminal_key) depth;
  let hash :=
    if (bk : bool) then DataHasher.finalize (DataHasher.update (DataHasher.update node (val sibling)) (DataHash.data hash))
    else DataHasher.finalize (DataHasher.update (DataHasher.update node (DataHash.data hash)) (val sibling)) in
  Ok (hash, position).

Definition fold_certificate_path (bitmap : arr 32) (siblings : list (arr 32))
    (target_key terminal_key : arr 32) (terminal_value : bytes) : maybe DataHash :=
  let hash := DataHasher.finalize (DataHasher.update (DataHasher.update
    (DataHasher.update sha256_hasher [Byte.x00]) (val terminal_key)) terminal_value) in
  '(hash, position) ← foldM (fold_step bitmap siblings target_key terminal_key)
    (hash, length siblings) (rev depths);
  if Nat.eqb position 0 then Ok hash else Err tt.

End fold.

(** * Bits and regions without the panics *)

(** Bit [index] of [data], [false] past the end. *)
Definition kbit (data : bytes) (index : N) : bool :=
  match data !! N.to_nat (index / 8) with
  | Some b => N.testbit (b2n b) (7 - index mod 8)
  | None => false
  end.

Lemma land_mask_testbit n k : k < 8 -> negb (N.land n (N.shiftr 0x80 k) =? 0) = N.testbit n (7 - k).
Proof.
  intros Hk. replace (N.shiftr 0x80 k) with (2 ^ (7 - k)).
  2:{ assert (k = 0 \/ k = 1 \/ k = 2 \/ k = 3 \/ k = 4 \/ k = 5 \/ k = 6 \/ k = 7) as Hc by lia.
      by destruct Hc as [->|[->|[->|[->|[->|[->|[->| ->]]]]]]]. }
  destruct (N.testbit n (7 - k)) eqn:E.
  - apply negb_true_iff, N.eqb_neq. intros Hz.
    apply (f_equal (fun x => N.testbit x (7 - k))) in Hz.
    rewrite N.land_spec, N.pow2_bits_true, E in Hz. done.
  - apply negb_false_iff, N.eqb_eq. apply N.bits_inj. intros i.
    rewrite N.land_spec, N.bits_0, N.pow2_bits_eqb.
    destruct (N.eqb_spec (7 - k) i) as [<-|]; [by rewrite E|apply andb_false_r].
Qed.

Lemma bit_at_kbit {E} data index : index < len data * 8 -> @bit_at E data index = Ok (kbit data index).
Proof.
  intros Hi. unfold bit_at, kbit. destruct (N.ltb_spec index (len data * 8)); [|lia]. simpl.
  destruct (data !! N.to_nat (index / 8)) as [b|] eqn:Hb.
  - simpl. rewrite land_mask_testbit; [done|]. apply N.mod_upper_bound. lia.
  - apply lookup_ge_None in Hb. pose proof (N.Div0.div_lt_upper_bound index 8 (len data)).
    unfold len in *. lia.
Qed.

Lemma bit_at_panics {E} data index : len data * 8 <= index -> @bit_at E data index = Panic.
Proof. intros Hi. unfold bit_at. by destruct (N.ltb_spec index (len data * 8)); [lia|]. Qed.

Lemma arr_len {n} (a : arr n) : len (val a) = N.of_nat n.
Proof. unfold len. by rewrite arr_length. Qed.

Lemma bit_at_key {E} (key : arr 32) index : index < 256 -> @bit_at E (val key) index = Ok (kbit (val key) index).
Proof. intros. apply bit_at_kbit. rewrite arr_len. simpl. lia. Qed.

(** The region of the first [depth] bits of [key]. *)
Definition region (key : arr 32) (depth : N) : bytes :=
  match @prefix_region unit key depth with Ok r => r | _ => [] end.

Lemma prefix_region_Ok {E} key depth : depth < 256 ->
  @prefix_region E key depth = Ok (region key depth) /\ length (region key depth) = 32%nat.
Proof.
  intros Hd. unfold region, prefix_region. change MAX_DEPTH with 255.
  destruct (N.leb_spec depth 255); [|lia]. simpl negb. cbv iota.
  assert (depth / 8 < 32) as Hq by (apply N.Div0.div_lt_upper_bound; lia).
  assert (length (take (N.to_nat (depth / 8)) (val key) ++ replicate (32 - N.to_nat (depth / 8)) Byte.x00)
    = 32%nat) as Hlen.
  { rewrite length_app, length_take, length_replicate, arr_length. lia. }
  destruct (depth mod 8 =? 0); simpl negb; cbv iota; [done|].
  destruct (val key !! N.to_nat (depth / 8)) eqn:E'.
  - simpl. split; [done|]. by rewrite length_insert.
  - apply lookup_ge_None in E'. rewrite arr_length in E'. lia.
Qed.

(** The bits of a region are the bits of the key before [depth]. *)
Lemma mask_testbit b p i : 0 < p < 8 -> i < 8 ->
  N.testbit (b2n (n2b (N.land (b2n b) (N.shiftl 0xff (8 - p) mod 256)))) (7 - i) =
  (i <? p) && N.testbit (b2n b) (7 - i).
Proof.
  intros Hp Hi.
  assert (N.land (b2n b) (N.shiftl 0xff (8 - p) mod 256) < 256) as Hb.
  { pose proof (b2n_bound b). apply N.le_lt_trans with (b2n b); [|done].
    apply N.ldiff_le. apply N.bits_inj. intros j.
    rewrite N.ldiff_spec, N.land_spec, N.bits_0. destruct (N.testbit (b2n b) j); simpl; [apply andb_false_r|done]. }
  rewrite b2n_n2b_small by done. rewrite N.land_spec, andb_comm. f_equal.
  change 256 with (2 ^ 8). rewrite <- N.land_ones, N.land_spec, N.ones_spec_low by lia. rewrite andb_true_r.
  change 0xff with (N.ones 8).
  destruct (N.ltb_spec i p).
  - rewrite N.shiftl_spec_high' by lia. apply N.ones_spec_low. lia.
  - apply N.shiftl_spec_low. lia.
Qed.

Lemma kbit_region key depth i : depth < 256 -> i < 256 ->
  kbit (region key depth) i = (i <? depth) && kbit (val key) i.
Proof.
  intros Hd Hi. unfold region, prefix_region. change MAX_DEPTH with 255.
  destruct (N.leb_spec depth 255); [|lia]. simpl negb. cbv iota.
  pose proof (N.mod_upper_bound depth 8 ltac:(lia)) as Hm.
  pose proof (N.mod_upper_bound i 8 ltac:(lia)) as Hmi.
  pose proof (N.div_mod depth 8 ltac:(lia)) as Ed. pose proof (N.div_mod i 8 ltac:(lia)) as Ei.
  set (q := depth / 8) in *. set (p := depth mod 8) in *.
  set (iq := i / 8) in *. set (ip := i mod 8) in *.
  assert (forall j, (take (N.to_nat q) (val key) ++ replicate (32 - N.to_nat q) Byte.x00) !! N.to_nat j =
    if j <? q then val key !! N.to_nat j else if j <? 32 then Some Byte.x00 else None) as Hl.
  { intros j. destruct (N.ltb_spec j q).
    - rewrite lookup_app_l by (rewrite length_take, arr_length; lia). by rewrite lookup_take_lt by lia.
    - rewrite lookup_app_r by (rewrite length_take, arr_length; lia).
      rewrite length_take, arr_length. destruct (N.ltb_spec j 32).
      + apply lookup_replicate_2. lia.
      + apply lookup_replicate_None. lia. }
  assert (iq < 32) as Hiq by lia.
  destruct (N.eqb_spec p 0) as [Hp|Hp]; simpl negb; cbv iota.
  - unfold kbit. fold iq ip. rewrite Hl. destruct (N.ltb_spec iq q), (N.ltb_spec i depth); try lia; [done|].
    destruct (N.ltb_spec iq 32); [|lia]. by destruct (7 - ip).
  - destruct (val key !! N.to_nat q) as [b|] eqn:E'.
    2:{ apply lookup_ge_None in E'. rewrite arr_length in E'. lia. }
    unfold or_panic. rewrite bind_Ok_l. unfold kbit. fold iq ip.
    destruct (decide (iq = q)) as [->|Hne].
    + rewrite list_lookup_insert_eq by (rewrite length_app, length_take, length_replicate, arr_length; lia).
      rewrite mask_testbit, E' by lia. f_equal. destruct (N.ltb_spec ip p), (N.ltb_spec i depth); lia || done.
    + rewrite list_lookup_insert_ne by lia. rewrite Hl.
      destruct (N.ltb_spec iq q), (N.ltb_spec i depth); try lia; [done|].
      destruct (N.ltb_spec iq 32); [|lia]. by destruct (7 - ip).
Qed.

(** Bytes are determined by their bits. *)
Lemma kbit_ext a b : length a = length b ->
  (forall i, i < 8 * len a -> kbit a i = kbit b i) -> a = b.
Proof.
  intros Hl H. apply list_eq_same_length with (length a); [done|done|].
  intros i x y Hi Hx Hy. apply b2n_inj. apply N.bits_inj. intros j.
  destruct (N.lt_ge_cases j 8) as [Hj|Hj].
  - specialize (H (8 * N.of_nat i + (7 - j))). unfold kbit in H.
    replace ((8 * N.of_nat i + (7 - j)) / 8) with (N.of_nat i) in H by
      (apply N.div_unique with (7 - j); lia).
    replace ((8 * N.of_nat i + (7 - j)) mod 8) with (7 - j) in H by
      (apply N.mod_unique with (N.of_nat i); lia).
    rewrite Nat2N.id, Hx, Hy in H. replace (7 - (7 - j)) with j in H by lia. apply H.
    unfold len. lia.
  - assert (forall z, N.testbit (b2n z) j = false) as Hz; [|by rewrite !Hz].
    intros z. apply N.bits_above_log2. destruct (decide (b2n z = 0)) as [->|]; [simpl; lia|].
    apply N.log2_lt_pow2; [lia|]. apply N.lt_le_trans with (2 ^ 8); [apply b2n_bound|].
    apply N.pow_le_mono_r; lia.
Qed.

(** Two keys have the same region at [depth] iff they agree on the bits above it. *)
Lemma region_agree k k' depth : depth < 256 ->
  region k depth = region k' depth <-> forall i, i < depth -> kbit (val k) i = kbit (val k') i.
Proof.
  intros Hd. destruct (@prefix_region_Ok unit k depth Hd) as [_ Hl].
  destruct (@prefix_region_Ok unit k' depth Hd) as [_ Hl']. split.
  - intros E i Hi. pose proof (kbit_region k depth i Hd ltac:(lia)) as H1.
    rewrite E, kbit_region in H1 by lia. destruct (N.ltb_spec i depth); [by simpl in H1|lia].
  - intros H. apply kbit_ext; [congruence|]. intros i Hi. unfold len in Hi.
    rewrite !kbit_region by lia. destruct (N.ltb_spec i depth); [by rewrite H|done].
Qed.

(** * What the fold computes *)

Section spec.
Context `{Sha2}.

(** The messages that are hashed. *)
Definition leaf_message (key : arr 32) (value : bytes) : bytes := [Byte.x00] ++ val key ++ value.
Definition node_message (depth : N) (region left right : bytes) : bytes :=
  [Byte.x01; n2b depth] ++ region ++ left ++ right.

Definition leaf_digest (key : arr 32) (value : bytes) : DataHash := sha256 (leaf_message key value).
Definition node_digest (depth : N) (region left right : bytes) : DataHash := sha256 (node_message depth region left right).

Context (bitmap : arr 32) (target terminal : arr 32) (value : bytes).

(** The path from the root: [ds] are the depths still to visit, ascending, and
    [siblings] the siblings not used yet. *)
Fixpoint path_digest (ds : list N) (siblings : list (arr 32)) : option DataHash :=
  match ds with
  | [] => match siblings with [] => Some (leaf_digest terminal value) | _ => None end
  | d :: ds' =>
      if kbit (val bitmap) d then
        match siblings with
        | s :: siblings' =>
            if Bool.eqb (kbit (val target) d) (kbit (val terminal) d) then
              h ← path_digest ds' siblings';
              Some (if kbit (val terminal) d
                    then node_digest d (region terminal d) (val s) (DataHash.data h)
                    else node_digest d (region terminal d) (DataHash.data h) (val s))
            else None
        | [] => None
        end
      else path_digest ds' siblings
  end.

(** The messages [path_digest] hashes. *)
Fixpoint path_messages (ds : list N) (siblings : list (arr 32)) : list bytes :=
  match ds with
  | [] => [leaf_message terminal value]
  | d :: ds' =>
      if kbit (val bitmap) d then
        match siblings with
        | s :: siblings' =>
            path_messages ds' siblings' ++
            match path_digest ds' siblings' with
            | Some h => [if kbit (val terminal) d
                         then node_message d (region terminal d) (val s) (DataHash.data h)
                         else node_message d (region terminal d) (DataHash.data h) (val s)]
            | None => []
            end
        | [] => []
        end
      else path_messages ds' siblings
  end.

Lemma fold_step_eq siblings d h p : d < 256 -> (p <= length siblings)%nat ->
  fold_step bitmap siblings target terminal (h, p) d =
  if kbit (val bitmap) d then
    match p with
    | O => Err tt
    | S p' =>
        if Bool.eqb (kbit (val target) d) (kbit (val terminal) d) then
          match siblings !! p' with
          | Some s => Ok (if kbit (val terminal) d
                    then node_digest d (region terminal d) (val s) (DataHash.data h)
                    else node_digest d (region terminal d) (DataHash.data h) (val s), p')
          | None => Panic
          end
        else Err tt
    end
  else Ok (h, p).
Proof.
  intros Hd Hp. unfold fold_step. rewrite !bit_at_key, !bind_Ok_l by done.
  destruct (kbit (val bitmap) d); [|done]. simpl negb. cbv iota.
  destruct p as [|p]; [done|]. simpl Nat.eqb. cbv iota.
  destruct (Bool.eqb _ _); [|done]. simpl negb. cbv iota. replace (S p - 1)%nat with p by lia.
  destruct (siblings !! p) as [s|]; [|done]. unfold or_panic. rewrite bind_Ok_l.
  rewrite (proj1 (prefix_region_Ok terminal d Hd)), bind_Ok_l.
  rewrite bind_Ok_l. destruct (kbit (val terminal) d).
  - pose proof (update_all [[Byte.x01; n2b d]; region terminal d; val s; DataHash.data h] []) as E.
    cbn [foldl concat app] in E. rewrite app_nil_r in E. unfold node_digest, node_message. cbn [app]. by rewrite <- E.
  - pose proof (update_all [[Byte.x01; n2b d]; region terminal d; DataHash.data h; val s] []) as E.
    cbn [foldl concat app] in E. rewrite app_nil_r in E. unfold node_digest, node_message. cbn [app]. by rewrite <- E.
Qed.

Lemma foldM_path siblings : forall ds, Forall (fun d => d < 256) ds ->
  (forall pre post h, siblings = pre ++ post -> path_digest ds post = Some h ->
    foldM (fold_step bitmap siblings target terminal) (leaf_digest terminal value, length siblings) (rev ds)
    = Ok (h, length pre)) /\
  (forall h p, foldM (fold_step bitmap siblings target terminal)
     (leaf_digest terminal value, length siblings) (rev ds) = Ok (h, p) ->
    exists pre post, siblings = pre ++ post /\ length pre = p /\ path_digest ds post = Some h).
Proof.
  induction ds as [|d ds IH]; intros Hds.
  - simpl. split.
    + intros pre [|] h ->; [|done]. intros [= <-]. by rewrite app_nil_r.
    + intros h p [= <- <-]. exists siblings, []. by rewrite app_nil_r.
  - apply Forall_cons_1 in Hds as [Hd Hds]. destruct (IH Hds) as [IH1 IH2]. simpl rev. split.
    + intros pre post h Hs Hp. simpl in Hp. rewrite foldM_app.
      destruct (kbit (val bitmap) d) eqn:Eb.
      * destruct post as [|s post]; [done|]. destruct (Bool.eqb _ _) eqn:Et; [|done].
        apply bind_Some in Hp as (h' & Hp & [= <-]).
        rewrite (IH1 (pre ++ [s]) post h') by (done || by rewrite <- app_assoc).
        rewrite bind_Ok_l. cbn [foldM]. rewrite length_app, Nat.add_1_r.
        rewrite fold_step_eq, Eb, Et by (done || (rewrite Hs, length_app; simpl; lia)).
        rewrite Hs, lookup_app_r, Nat.sub_diag by lia. done.
      * rewrite (IH1 pre post h Hs Hp), bind_Ok_l. cbn [foldM].
        rewrite fold_step_eq, Eb by (done || (rewrite Hs, length_app; lia)). done.
    + intros h p Hf. rewrite foldM_app in Hf. apply bind_Ok in Hf as ([h' p'] & Hf & Hs).
      destruct (IH2 _ _ Hf) as (pre & post & Hsib & <- & Hp). cbn [foldM] in Hs.
      rewrite fold_step_eq in Hs by (done || (rewrite Hsib, length_app; lia)).
      simpl. destruct (kbit (val bitmap) d) eqn:Eb; [|inv_ok; eauto].
      destruct pre as [|s0 pre0 _] using rev_ind; [done|].
      rewrite length_app, Nat.add_1_r in Hs.
      destruct (Bool.eqb (kbit (val target) d) (kbit (val terminal) d)) eqn:Et; [|done].
      rewrite Hsib, lookup_app_l, lookup_app_r, Nat.sub_diag in Hs by (rewrite ?length_app; simpl; lia).
      simpl in Hs. inv_ok. exists pre0, (s0 :: post). split_and!; [by rewrite <- app_assoc|done|].
      simpl. by rewrite Hp.
Qed.

Lemma depths_bound : Forall (fun d => d < 256) depths.
Proof.
  unfold depths. apply Forall_fmap, Forall_forall. intros i Hi%elem_of_seq.
  change (N.to_nat KEY_BITS) with 256%nat in Hi. simpl. lia.
Qed.

(** The fold returns the digest of the path, and only for a bitmap with as many
    set bits as there are siblings and keys that agree at every junction. *)
Lemma fold_certificate_path_Ok siblings h :
  fold_certificate_path bitmap siblings target terminal value = Ok h <->
  path_digest depths siblings = Some h.
Proof.
  unfold fold_certificate_path. pose proof (update_all [[Byte.x00]; val terminal; value] []) as E.
  cbn [foldl concat app] in E. rewrite app_nil_r in E. change (InnerSha256 []) with sha256_hasher in E.
  rewrite E. change (sha256 _) with (leaf_digest terminal value).
  destruct (foldM_path siblings depths depths_bound) as [H1 H2]. split.
  - intros Hf. apply bind_Ok in Hf as ([h' p] & Hf & Hp).
    apply H2 in Hf as (pre & post & -> & <- & Hd).
    destruct pre; [|done]. by injection Hp as <-.
  - intros Hd. by rewrite (H1 [] siblings h eq_refl Hd).
Qed.

End spec.

Section smt.
Context `{Sha2}.

Lemma fold_no_panic bitmap siblings target terminal value :
  no_panic (fold_certificate_path bitmap siblings target terminal value).
Proof.
  unfold fold_certificate_path. apply no_panic_bind; [|intros []; intros; case_match; auto with outcome].
  apply (no_panic_foldM_inv (fun st => (snd st <= length siblings)%nat)); [|done].
  intros [h p] d Hd Hp. simpl in Hp. pose proof depths_bound as Hb. rewrite Forall_forall in Hb.
  apply elem_of_reverse in Hd || (apply list_elem_of_In, in_rev, list_elem_of_In in Hd).
  rewrite fold_step_eq by auto. destruct (kbit (val bitmap) d); [|split; [done|by intros ? [= <-]]].
  destruct p as [|p]; [done|]. destruct (Bool.eqb _ _); [|done].
  destruct (siblings !! p) eqn:E; [|apply lookup_ge_None in E; lia].
  split; [done|]. intros [h' p'] [= _ <-]. simpl. lia.
Qed.

(** A radix sparse Merkle tree: keyed leaves, and junctions that commit their
    depth, their region and the two subtrees. *)
Inductive smt : Type :=
| SLeaf (key : arr 32) (value : bytes)
| SNode (depth : N) (region : bytes) (left right : smt).

Fixpoint smt_digest (t : smt) : DataHash :=
  match t with
  | SLeaf k v => leaf_digest k v
  | SNode d r lt rt => node_digest d r (DataHash.data (smt_digest lt)) (DataHash.data (smt_digest rt))
  end.

Fixpoint smt_leaves (t : smt) : list (arr 32 * bytes) :=
  match t with
  | SLeaf k v => [(k, v)]
  | SNode _ _ lt rt => smt_leaves lt ++ smt_leaves rt
  end.

(** The messages a tree hashes. *)
Fixpoint smt_messages (t : smt) : list bytes :=
  match t with
  | SLeaf k v => [leaf_message k v]
  | SNode d r lt rt => smt_messages lt ++ smt_messages rt ++
      [node_message d r (DataHash.data (smt_digest lt)) (DataHash.data (smt_digest rt))]
  end.

(** Every junction splits its keys by the bit at its depth, the left keys having
    a zero there, and commits the region they share. *)
Fixpoint smt_ok (t : smt) : Prop :=
  match t with
  | SLeaf _ _ => True
  | SNode d r lt rt =>
      d < 256 /\ length r = 32%nat /\ smt_ok lt /\ smt_ok rt /\
      Forall (fun e => kbit (val (fst e)) d = false) (smt_leaves lt) /\
      Forall (fun e => kbit (val (fst e)) d = true) (smt_leaves rt)
  end.

(** Key-directed descent. *)
Fixpoint descend (t : smt) (key : arr 32) : arr 32 * bytes :=
  match t with
  | SLeaf k v => (k, v)
  | SNode d _ lt rt => if kbit (val key) d then descend rt key else descend lt key
  end.

Lemma descend_in t key : descend t key ∈ smt_leaves t.
Proof. induction t; simpl; [set_solver|]. case_match; set_solver. Qed.

(** Descent finds the key if the tree has it. *)
Lemma descend_complete t key value : smt_ok t -> (key, value) ∈ smt_leaves t -> fst (descend t key) = key.
Proof.
  induction t as [k v|d r lt IHl rt IHr]; simpl.
  - intros _ Hin. apply list_elem_of_singleton in Hin. by injection Hin as <- <-.
  - intros (_ & _ & Hl & Hr & Fl & Fr) [Hin|Hin]%elem_of_app; rewrite Forall_forall in Fl, Fr.
    + apply Fl in Hin as E. simpl in E. rewrite E. auto.
    + apply Fr in Hin as E. simpl in E. rewrite E. auto.
Qed.

Lemma app_inv_len {A} (a b c d : list A) : length a = length b -> a ++ c = b ++ d -> a = b /\ c = d.
Proof. intros Hl Hab. by apply app_inj_1 in Hab. Qed.

Section inj.
Context (hashed : bytes -> Prop).

Lemma leaf_digest_inj k v k' v' : hashed (leaf_message k v) -> hashed (leaf_message k' v') ->
  leaf_digest k v = leaf_digest k' v' -> (k = k' /\ v = v') \/ Collision hashed.
Proof.
  intros Hx Hy E. apply (sha256_inj hashed) in E as [E|]; [left|by right|done..]. injection E as E.
  apply app_inv_len in E as [E ->]; [|by rewrite !arr_length]. split; [by apply val_inj|done].
Qed.

Lemma leaf_node_digest k v d r l l' : hashed (leaf_message k v) -> hashed (node_message d r l l') ->
  leaf_digest k v = node_digest d r l l' -> Collision hashed.
Proof. intros Hx Hy E. apply (sha256_inj hashed) in E as [E|]; [discriminate E|done..]. Qed.

Lemma node_digest_inj d r l1 l2 d' r' l1' l2' : hashed (node_message d r l1 l2) -> hashed (node_message d' r' l1' l2') ->
  d < 256 -> d' < 256 -> length r = length r' ->
  length l1 = length l1' -> node_digest d r l1 l2 = node_digest d' r' l1' l2' ->
  (d = d' /\ r = r' /\ l1 = l1' /\ l2 = l2') \/ Collision hashed.
Proof.
  intros Hx Hy Hd Hd' Hr Hl E. apply (sha256_inj hashed) in E as [E|]; [left|by right|done..]. injection E as Eb E.
  apply app_inv_len in E as [-> E]; [|done]. apply app_inv_len in E as [-> ->]; [|done].
  split_and!; try done. apply (f_equal b2n) in Eb. by rewrite !b2n_n2b_small in Eb.
Qed.
End inj.

(** Every digest of the tree is a SHA-256 digest. *)
Lemma smt_digest_length t : length (DataHash.data (smt_digest t)) = 32%nat.
Proof. destruct t; apply (arr_length (Sha256_digest _)). Qed.

Lemma path_digest_length bitmap target terminal value ds siblings h :
  path_digest bitmap target terminal value ds siblings = Some h -> length (DataHash.data h) = 32%nat.
Proof.
  revert siblings h. induction ds as [|d ds IH]; intros siblings h; simpl.
  - destruct siblings; [|done]. intros [= <-]. apply (arr_length (Sha256_digest _)).
  - destruct (kbit _ d); [|apply IH]. destruct siblings; [done|]. destruct (Bool.eqb _ _); [|done].
    intros (? & _ & [= <-])%bind_Some. destruct (kbit _ d); apply (arr_length (Sha256_digest _)).
Qed.

(** Digests of SHA-256 are equal when their data are. *)
Lemma sha_digest_eq t bitmap target terminal value ds siblings h :
  path_digest bitmap target terminal value ds siblings = Some h ->
  DataHash.data h = DataHash.data (smt_digest t) -> h = smt_digest t.
Proof.
  intros Hp E. assert (exists x, h = sha256 x) as [x ->].
  { revert siblings h Hp E. induction ds as [|d ds IH]; intros siblings h; simpl.
    - destruct siblings; [|done]. intros [= <-] _. by eexists.
    - destruct (kbit _ d); [|eauto]. destruct siblings; [done|]. destruct (Bool.eqb _ _); [|done].
      intros (? & _ & [= <-])%bind_Some _. destruct (kbit _ d); by eexists. }
  assert (exists y, smt_digest t = sha256 y) as [y Ey] by (destruct t; by eexists).
  rewrite Ey in *. apply val_inj. cbn [sha256 val]. f_equal. exact E.
Qed.

(** A path that folds to the root of a tree ends at the leaf which descent with
    the target key reaches. *)
Lemma path_sound hashed bitmap target terminal value ds : Forall (fun d => d < 256) ds ->
  forall t siblings, smt_ok t -> Forall hashed (smt_messages t) ->
  Forall hashed (path_messages bitmap target terminal value ds siblings) ->
  path_digest bitmap target terminal value ds siblings = Some (smt_digest t) ->
  descend t target = (terminal, value) \/ Collision hashed.
Proof.
  intros Hds. induction Hds as [|d ds Hd Hds IH]; intros t siblings Ht Hmt Hmp; simpl.
  - destruct siblings; [|done]. intros [= E]. apply Forall_cons in Hmp as [Hmp _].
    destruct t as [k v|dt rt t1 t2]; simpl in E.
    + apply Forall_cons in Hmt as [Hmt _]. apply (leaf_digest_inj hashed) in E as [[-> ->]|]; [by left|by right|done..].
    + right. cbn [smt_messages] in Hmt. apply Forall_app in Hmt as [_ [_ [Hmt _]%Forall_cons]%Forall_app].
      by eapply leaf_node_digest.
  - cbn [path_messages] in Hmp. destruct (kbit (val bitmap) d); [|by apply IH].
    destruct siblings as [|s siblings]; [done|]. destruct (Bool.eqb _ _) eqn:Eb; [|done].
    apply eqb_prop in Eb. intros (h & Hh & [= E])%bind_Some.
    rewrite Hh in Hmp. apply Forall_app in Hmp as [Hmp [Hmn _]%Forall_cons].
    destruct t as [k v|d' r lt rt].
    { right. apply Forall_cons in Hmt as [Hmt _]. simpl in E.
      destruct (kbit (val terminal) d); symmetry in E; by eapply leaf_node_digest. }
    cbn [smt_messages] in Hmt. apply Forall_app in Hmt as [Hml [Hmr [Hmt _]%Forall_cons]%Forall_app].
    destruct Ht as (Hd' & Hr & Hl & Hrt & _). cbn [smt_digest] in E.
    pose proof (proj2 (@prefix_region_Ok unit terminal d Hd)) as Hreg.
    pose proof (path_digest_length _ _ _ _ _ _ _ Hh) as Hlen.
    cbn [descend]. destruct (kbit (val terminal) d) eqn:Ek;
      (apply (node_digest_inj hashed) in E as [(-> & _ & E1 & E2)|]; [|by right|done..|congruence|
        rewrite ?smt_digest_length, ?arr_length; congruence]); rewrite Eb.
    + eapply IH; [done..|]. rewrite Hh. f_equal. by eapply sha_digest_eq.
    + eapply IH; [done..|]. rewrite Hh. f_equal. by eapply sha_digest_eq.
Qed.

(** ** Soundness of [fold_certificate_path] *)

(** The messages that computing the fold and the root of [t] hashes. *)
Definition fold_messages (bitmap : arr 32) (siblings : list (arr 32)) (target terminal : arr 32) (value : bytes)
    (t : smt) : list bytes :=
  smt_messages t ++ path_messages bitmap target terminal value depths siblings.

Lemma fold_sound bitmap siblings target terminal value t : smt_ok t ->
  fold_certificate_path bitmap siblings target terminal value = Ok (smt_digest t) ->
  descend t target = (terminal, value) \/ Collision (.∈ fold_messages bitmap siblings target terminal value t).
Proof.
  intros Ht Hf%fold_certificate_path_Ok. apply (path_sound (.∈ fold_messages bitmap siblings target terminal value t)
    bitmap target terminal value depths depths_bound t siblings Ht); [..|exact Hf];
    apply Forall_forall; intros m Hm; apply elem_of_app; [by left|by right].
Qed.

(** ** One answer per root and target *)

(** The path of a certificate as the junctions it passes, from the root, steered
    by the target key. *)
Fixpoint spine (target terminal : arr 32) (value : bytes) (js : list (N * arr 32)) : DataHash :=
  match js with
  | [] => leaf_digest terminal value
  | (d, s) :: js =>
      let h := DataHash.data (spine target terminal value js) in
      node_digest d (region terminal d) (if kbit (val target) d then val s else h) (if kbit (val target) d then h else val s)
  end.

Fixpoint spine_messages (target terminal : arr 32) (value : bytes) (js : list (N * arr 32)) : list bytes :=
  match js with
  | [] => [leaf_message terminal value]
  | (d, s) :: js =>
      let h := DataHash.data (spine target terminal value js) in
      spine_messages target terminal value js ++
      [node_message d (region terminal d) (if kbit (val target) d then val s else h) (if kbit (val target) d then h else val s)]
  end.

Lemma path_spine bitmap target terminal value ds : Forall (fun d => d < 256) ds -> forall siblings h,
  path_digest bitmap target terminal value ds siblings = Some h ->
  exists js, Forall (fun j => fst j < 256) js /\ h = spine target terminal value js /\
    path_messages bitmap target terminal value ds siblings = spine_messages target terminal value js.
Proof.
  induction 1 as [|d ds Hd Hds IH]; intros siblings h; cbn [path_digest path_messages].
  - destruct siblings; [|done]. intros [= <-]. by exists [].
  - destruct (kbit (val bitmap) d); [|apply IH]. destruct siblings as [|s siblings]; [done|].
    destruct (Bool.eqb _ _) eqn:Eb; [|done]. apply eqb_prop in Eb. intros (h' & Hh & [= <-])%bind_Some.
    destruct (IH _ _ Hh) as (js & Hjs & -> & Em). exists ((d, s) :: js). rewrite Hh, Em. cbn [spine spine_messages].
    rewrite Eb. split_and!; [by constructor| |]; by destruct (kbit (val terminal) d).
Qed.

Lemma spine_sha target terminal value js : exists x, spine target terminal value js = sha256 x.
Proof. destruct js as [|[d s] js]; cbn [spine]; [by eexists|]. destruct (kbit _ _); by eexists. Qed.

Lemma spine_data_inj target k v js k' v' js' :
  DataHash.data (spine target k v js) = DataHash.data (spine target k' v' js') ->
  spine target k v js = spine target k' v' js'.
Proof.
  destruct (spine_sha target k v js) as [x ->], (spine_sha target k' v' js') as [y ->].
  intros E. apply val_inj. cbn [sha256 val]. f_equal. exact E.
Qed.

Lemma spine_length target k v js : length (DataHash.data (spine target k v js)) = 32%nat.
Proof. destruct (spine_sha target k v js) as [x ->]. apply (arr_length (Sha256_digest _)). Qed.

Lemma spine_inj hashed target k v k' v' js : Forall (fun j => fst j < 256) js -> forall js',
  Forall (fun j => fst j < 256) js' ->
  Forall hashed (spine_messages target k v js) -> Forall hashed (spine_messages target k' v' js') ->
  spine target k v js = spine target k' v' js' -> (k = k' /\ v = v') \/ Collision hashed.
Proof.
  induction 1 as [|[d s] js Hd Hjs IH]; intros [|[d' s'] js'] Hjs' Hm Hm'; cbn [spine spine_messages fst] in *; intros E.
  - apply Forall_cons in Hm as [Hm _], Hm' as [Hm' _]. by apply (leaf_digest_inj hashed) in E.
  - right. apply Forall_cons in Hm as [Hm _]. apply Forall_app in Hm' as [_ [Hm' _]%Forall_cons]. by eapply leaf_node_digest.
  - right. apply Forall_cons in Hm' as [Hm' _]. apply Forall_app in Hm as [_ [Hm _]%Forall_cons].
    symmetry in E. by eapply leaf_node_digest.
  - apply Forall_cons in Hjs' as [Hd' Hjs']. apply Forall_app in Hm as [Hms [Hm _]%Forall_cons], Hm' as [Hms' [Hm' _]%Forall_cons].
    cbn [fst] in *. apply (node_digest_inj hashed) in E as [(-> & _ & E1 & E2)|]; [|by right|done|done|done|done|..].
    + apply (IH js'); [done..|]. apply spine_data_inj. by destruct (kbit (val target) d').
    + by rewrite (proj2 (@prefix_region_Ok unit k d Hd)), (proj2 (@prefix_region_Ok unit k' d' Hd')).
    + destruct (kbit _ _), (kbit _ _); by rewrite ?spine_length, ?arr_length.
Qed.

(** Two certificates for one target that fold to one root name the same leaf. *)
Lemma fold_binding bitmap siblings terminal value bitmap' siblings' terminal' value' target h :
  fold_certificate_path bitmap siblings target terminal value = Ok h ->
  fold_certificate_path bitmap' siblings' target terminal' value' = Ok h ->
  (terminal = terminal' /\ value = value') \/
  Collision (.∈ path_messages bitmap target terminal value depths siblings ++
                path_messages bitmap' target terminal' value' depths siblings').
Proof.
  intros Hf%fold_certificate_path_Ok Hf'%fold_certificate_path_Ok.
  destruct (path_spine _ _ _ _ depths depths_bound _ _ Hf) as (js & Hjs & E & ->).
  destruct (path_spine _ _ _ _ depths depths_bound _ _ Hf') as (js' & Hjs' & E' & ->). rewrite E in E'.
  apply (spine_inj (.∈ spine_messages target terminal value js ++ spine_messages target terminal' value' js') target _ _ _ _ js Hjs js' Hjs');
    [apply Forall_forall; intros m Hm; apply elem_of_app; auto..|exact E'].
Qed.
End smt.
