(* ===== verification/BigUint.v ===== *)
(** The [num_bigint::BigUint] operations the crate calls, as an interface.

    [BigUintOps] are the operations, [BigUintLaws] the documented behaviour the
    proofs rely on: a [BigUint] is a natural number. [N_ops]/[N_laws] is a model
    of both, which witnesses instantiate. *)

From S2P Require Import Prelude Bytes.
Local Open Scope N_scope.

Class BigUintOps : Type := {
  BigUint : Type;
  big_ZERO : BigUint;
  big_eqb : BigUint -> BigUint -> bool;
  big_add : BigUint -> BigUint -> BigUint;
  big_bits : BigUint -> N;
  to_bytes_be : BigUint -> bytes;
  from_bytes_be : bytes -> BigUint;
}.

(** The number of significant bits. *)
Definition bit_length (n : N) : N := N.size n.

Class BigUintLaws `{BigUintOps} : Type := {
  value : BigUint -> N;
  value_inj a b : value a = value b -> a = b;
  value_ZERO : value big_ZERO = 0;
  big_eqb_spec a b : big_eqb a b = true <-> value a = value b;
  value_add a b : value (big_add a b) = value a + value b;
  big_bits_spec a : big_bits a = bit_length (value a);
  to_bytes_be_value a : be_value (to_bytes_be a) = value a;
  (** no leading zero, but zero itself is one zero byte *)
  to_bytes_be_minimal a : value a <> 0 -> exists b l, to_bytes_be a = b :: l /\ b2n b <> 0;
  to_bytes_be_ZERO : to_bytes_be big_ZERO = [Byte.x00];
  value_from_bytes_be l : value (from_bytes_be l) = be_value l;
}.

(** ** A model *)

(** Big-endian bytes without leading zeros. *)
Definition strip (l : bytes) : bytes :=
  match list_find (fun b => b <> Byte.x00) l with
  | Some (i, _) => drop i l
  | None => [Byte.x00]
  end.

#[export] Instance N_ops : BigUintOps := {|
  BigUint := N;
  big_ZERO := 0;
  big_eqb := N.eqb;
  big_add := N.add;
  big_bits := bit_length;
  to_bytes_be n := strip (be_bytes (N.to_nat (N.size n)) n);
  from_bytes_be := be_value;
|}.

Lemma be_value_zeros l : Forall (fun b => b = Byte.x00) l -> be_value l = 0.
Proof.
  induction l as [|b l IH] using rev_ind; [done|]. intros [Hl Hb]%Forall_app.
  apply Forall_singleton in Hb as ->. by rewrite be_value_snoc, IH.
Qed.

Lemma be_value_drop_zeros l k : Forall (fun b => b = Byte.x00) l -> be_value (l ++ k) = be_value k.
Proof.
  intros Hl. induction k as [|b k IH] using rev_ind; [by rewrite app_nil_r, be_value_zeros|].
  by rewrite app_assoc, !be_value_snoc, IH.
Qed.

Lemma strip_spec l :
  be_value (strip l) = be_value l /\ (be_value l <> 0 -> exists b k, strip l = b :: k /\ b2n b <> 0).
Proof.
  unfold strip. destruct (list_find _ l) as [[i b]|] eqn:E.
  - apply list_find_Some in E as (Hi & Hb & Hpre).
    assert (Forall (fun b => b = Byte.x00) (take i l)) as Hz.
    { apply Forall_lookup_2. intros j x Hj. apply lookup_take_Some in Hj as [Hj Hlt].
      destruct (decide (x = Byte.x00)) as [|Hn]; [done|]. by destruct (Hpre _ _ Hj Hlt). }
    split.
    + rewrite <- (take_drop i l) at 2. by rewrite be_value_drop_zeros.
    + intros _. exists b, (drop (S i) l). split; [by apply drop_S|].
      intros H. by apply Hb, b2n_inj.
  - apply list_find_None in E.
    assert (be_value l = 0) as Hv.
    { apply be_value_zeros. eapply Forall_impl; [exact E|]. intros x Hx.
      destruct (decide (x = Byte.x00)); [done|by destruct Hx]. }
    rewrite Hv. done.
Qed.

Lemma lt_pow_size n : n < 256 ^ N.size n.
Proof.
  pose proof (N.size_gt n). eapply N.lt_le_trans; [done|]. change 256 with (2 ^ 8).
  rewrite <- N.pow_mul_r. apply N.pow_le_mono_r; lia.
Qed.

#[export] Instance N_laws : BigUintLaws.
Proof.
  refine {| value := (fun n => n) : @BigUint N_ops -> N |}; simpl; try done.
  - intros a b. apply N.eqb_eq.
  - intros a. destruct (strip_spec (be_bytes (N.to_nat (N.size a)) a)) as [-> _].
    rewrite be_value_be_bytes, N2Nat.id. apply N.mod_small, lt_pow_size.
  - intros a Ha. apply strip_spec. rewrite be_value_be_bytes, N2Nat.id, N.mod_small by apply lt_pow_size. done.
Defined.

(** * Consequences *)

Section laws.
Context `{BigUintLaws}.

Lemma bit_length_le n k : bit_length n <= k <-> n < 2 ^ k.
Proof.
  unfold bit_length. destruct (N.eq_dec n 0) as [->|Hn].
  - simpl. split; [intros; apply N.neq_0_lt_0; by apply N.pow_nonzero|lia].
  - rewrite N.size_log2 by done. rewrite N.le_succ_l. symmetry. apply N.log2_lt_pow2. lia.
Qed.

Lemma is_zero_spec a : big_eqb a big_ZERO = true <-> value a = 0.
Proof. by rewrite big_eqb_spec, value_ZERO. Qed.

(** The length of the minimal encoding. *)
Lemma minimal_length a n : (len (to_bytes_be a) <= N.succ n) <-> value a < 256 ^ N.succ n.
Proof.
  split.
  - intros Hl. rewrite <- to_bytes_be_value. eapply N.lt_le_trans; [apply be_value_bound|].
    by apply N.pow_le_mono_r.
  - intros Hv. destruct (N.eq_dec (value a) 0) as [Hz|Hz].
    + assert (a = big_ZERO) as -> by (apply value_inj; by rewrite value_ZERO).
      rewrite to_bytes_be_ZERO. unfold len. simpl. lia.
    + destruct (to_bytes_be_minimal a Hz) as (b & l & E & Hb). rewrite <- to_bytes_be_value, E in Hv.
      rewrite E, len_cons. destruct (N.le_gt_cases (1 + len l) (N.succ n)) as [|Hgt]; [done|].
      exfalso. pose proof (be_value_lower b l Hb).
      assert (256 ^ N.succ n <= 256 ^ len l) by (apply N.pow_le_mono_r; lia). lia.
Qed.

(** Minimal encodings are unique. *)
Lemma to_from_bytes_be b l : b2n b <> 0 -> to_bytes_be (from_bytes_be (b :: l)) = b :: l.
Proof.
  intros Hb. set (a := from_bytes_be (b :: l)).
  assert (value a = be_value (b :: l)) as Hv by apply value_from_bytes_be.
  pose proof (be_value_lower b l Hb) as Hb1. assert (256 ^ len l <> 0) by (by apply N.pow_nonzero).
  destruct (to_bytes_be_minimal a) as (b' & l' & E & Hb'); [lia|].
  pose proof (to_bytes_be_value a) as Hv'. rewrite E in Hv' |- *. rewrite Hv in Hv'.
  pose proof (be_value_lower b' l' Hb') as Hb1'.
  pose proof (be_value_bound (b :: l)) as Hb2. pose proof (be_value_bound (b' :: l')) as Hb2'.
  rewrite len_cons in Hb2, Hb2'. apply be_value_inj; [|done].
  assert (len l < 1 + len l') by (apply (N.pow_lt_mono_r_iff 256); lia).
  assert (len l' < 1 + len l) by (apply (N.pow_lt_mono_r_iff 256); lia).
  unfold len in *. simpl. lia.
Qed.

Lemma from_to_bytes_be a : from_bytes_be (to_bytes_be a) = a.
Proof. apply value_inj. by rewrite value_from_bytes_be, to_bytes_be_value. Qed.
End laws.
