(* ===== verification/Rsmst.v ===== *)
(** The radix sparse Merkle sum tree: [src/rsmst/mod.rs] (amounts and hashes),
    [src/rsmst/proof.rs] (inclusion proofs and their wire form) and
    [src/rsmst/build.rs] (the builder). *)

From S2P Require Import Prelude Bytes Error Cbor CborSpec CborRead Hash Codec Radix BigUint.
Local Open Scope N_scope.

Abbreviation u8 := (uint 8).

(** * [mod.rs] *)

Definition RSMST_LEAF : u8 := wrap 8 0x10.
Definition RSMST_NODE : u8 := wrap 8 0x11.
Definition AMOUNT_MAX_BYTES : N := 32.
Definition MAX_PROOF_STEPS : N := 256.

Section rsmst.
Context `{Sha2} `{BigUintOps}.

Definition encode_amount (value : BigUint) : bytes :=
  if big_eqb value big_ZERO then [] else to_bytes_be value.

Definition decode_positive_amount (b : bytes) : result BigUint :=
  match b with
  | [] => Err (OutOfRange "amount must be positive")
  | b0 :: _ =>
      if AMOUNT_MAX_BYTES <? len b then Err (OutOfRange "amount exceeds 256 bits") else
      if b2n b0 =? 0 then Err (from_cbor_error NonCanonicalEncoding) else
      Ok (from_bytes_be b)
  end.

Definition is_valid_amount (value : BigUint) : bool :=
  negb (big_eqb value big_ZERO) && (big_bits value <=? 256).

Definition u256_be (value : BigUint) : option (arr 32) :=
  let b := to_bytes_be value in
  if AMOUNT_MAX_BYTES <? len b then None else
  try_arr 32 (replicate (32 - length b) Byte.x00 ++ b).

Definition sha256_raw (parts : list bytes) : arr 32 := Sha256_digest (concat parts).

Definition u8_byte (x : u8) : bytes := [n2b (val x)].

Definition leaf_hash (key data : arr 32) (value : BigUint) : option (arr 32) :=
  value ← u256_be value;
  Some (sha256_raw [u8_byte RSMST_LEAF; val key; val data; val (value : arr 32)]).

Definition node_hash (depth : u8) (left right : arr 32 * BigUint) : option (arr 32 * BigUint) :=
  let sum := big_add (snd left) (snd right) in
  if 256 <? big_bits sum then None else
  left_sum ← u256_be (snd left);
  right_sum ← u256_be (snd right);
  let hash := sha256_raw [u8_byte RSMST_NODE; u8_byte depth; val (fst left); val (left_sum : arr 32);
    val (fst right); val (right_sum : arr 32)] in
  Some (hash, sum).

(** The assertion of [bit_at] holds for every [u8] index ([key_bit_total]). *)
Definition key_bit (key : arr 32) (index : u8) : bool :=
  match @bit_at unit (val key) (val index) with Ok b => b | _ => false end.

(** * [proof.rs] *)

Record RsmstProofStep : Type := { ps_depth : u8; ps_hash : arr 32; ps_sum : BigUint }.

Record RsmstInclusionProof : Type := { steps : list RsmstProofStep }.

(** [RsmstProofStep::from_cbor], [to_cbor] *)
#[export] Instance RsmstProofStep_codec : Codec RsmstProofStep := {|
  from_cbor d :=
    items ← lift (Decoder.array d (Some 3));
    i0 ← idx items 0;
    v ← lift (Decoder.uint i0);
    depth ← ok_or (OutOfRange "RSMST proof depth exceeds 255") (try_uint 8 (val v));
    i1 ← idx items 1;
    b ← lift (Decoder.bytes_value i1);
    hash ← ok_or (InvalidLength "RSMST sibling hash" 32 0) (try_arr 32 b);
    i2 ← idx items 2;
    b ← lift (Decoder.bytes_value i2);
    sum ← decode_positive_amount b;
    Ok {| ps_depth := depth; ps_hash := hash; ps_sum := sum |};
  to_cbor s := encode_array [
    encode_uint (wrap 64 (val (ps_depth s)));
    encode_byte_string (val (ps_hash s));
    encode_byte_string (encode_amount (ps_sum s))];
  wf s := is_valid_amount (ps_sum s) = true;
|}.

(** The loop of [RsmstInclusionProof::from_cbor]. *)
Definition push_step (st : option u8 * list RsmstProofStep) (entry : Decoder) :
    result (option u8 * list RsmstProofStep) :=
  let '(prev_depth, steps) := st in
  step ← from_cbor entry;
  if match prev_depth with Some previous => val previous <=? val (ps_depth step) | None => false end
  then Err (UnexpectedValue "RSMST proof depths are not strictly decreasing")
  else Ok (Some (ps_depth step), steps ++ [step]).

(** Depths strictly decrease from the leaf to the root. *)
Fixpoint decreasing (prev : option u8) (l : list RsmstProofStep) : bool :=
  match l with
  | [] => true
  | s :: l' => match prev with Some p => val (ps_depth s) <? val p | None => true end &&
      decreasing (Some (ps_depth s)) l'
  end.

#[export] Instance RsmstInclusionProof_codec : Codec RsmstInclusionProof := {|
  from_cbor d :=
    encoded ← lift (Decoder.array d None);
    if MAX_PROOF_STEPS <? len encoded then Err (OutOfRange "RSMST proof has too many steps") else
    '(_, steps) ← foldM push_step (None, []) encoded;
    Ok {| steps := steps |};
  to_cbor p := encode_array (to_cbor <$> steps p);
  wf p := len (steps p) <= MAX_PROOF_STEPS /\ decreasing None (steps p) = true /\ Forall wf (steps p);
|}.

(** The loop of [verify]: the digest, the sum and [prev_depth] so far. *)
Definition verify_step (key : arr 32) (st : arr 32 * BigUint * N) (step : RsmstProofStep) :
    maybe (arr 32 * BigUint * N) :=
  let '(hash, sum, prev_depth) := st in
  if (prev_depth <=? val (ps_depth step)) || negb (is_valid_amount (ps_sum step)) then Err tt else
  '(next_hash, next_sum) ← ok_or tt (
    if key_bit key (ps_depth step)
    then node_hash (ps_depth step) (ps_hash step, ps_sum step) (hash, sum)
    else node_hash (ps_depth step) (hash, sum) (ps_hash step, ps_sum step));
  Ok (next_hash, next_sum, val (ps_depth step)).

Definition verify (self : RsmstInclusionProof) (key data : arr 32) (value : BigUint) (root : arr 32) :
    maybe BigUint :=
  if negb (is_valid_amount value) || (MAX_PROOF_STEPS <? len (steps self)) then Err tt else
  hash ← ok_or tt (leaf_hash key data value);
  '(hash, sum, _) ← foldM (verify_step key) (hash, value, 256) (steps self);
  if bool_decide (hash = root) then Ok sum else Err tt.

(** * [build.rs] *)

Record Leaf : Type := { l_key : arr 32; l_value : BigUint; l_hash : arr 32 }.

Inductive Node : Type :=
| NLeaf (l : Leaf)
| NBranch (depth : u8) (left right : Node) (hash : arr 32) (sum : BigUint).

Definition n_hash (n : Node) : arr 32 :=
  match n with NLeaf l => l_hash l | NBranch _ _ _ hash _ => hash end.
Definition n_sum (n : Node) : BigUint :=
  match n with NLeaf l => l_value l | NBranch _ _ _ _ sum => sum end.

(** [Rsmst]: the leaves inserted so far. *)
Record Rsmst : Type := { leaves : list Leaf }.

Definition Rsmst_new : Rsmst := {| leaves := [] |}.

Definition insert (self : Rsmst) (key data : arr 32) (value : BigUint) : result Rsmst :=
  if negb (is_valid_amount value) then Err (OutOfRange "RSMST leaf amount must be in 1..2^256") else
  if existsb (fun l => bool_decide (l_key l = key)) (leaves self)
  then Err (UnexpectedValue "duplicate RSMST leaf key") else
  hash ← ok_or (OutOfRange "RSMST leaf amount") (leaf_hash key data value);
  Ok {| leaves := leaves self ++ [{| l_key := key; l_value := value; l_hash := hash |}] |}.

(** The loop that looks for the bifurcation; [n] positions are left. *)
Fixpoint find_bifurcation (n : nat) (leaves : list Leaf) (depth : N) : result u8 :=
  match n with
  | O => Err (UnexpectedValue "duplicate RSMST leaf key")
  | S n' =>
      let position := wrap 8 depth in
      first ← or_panic (leaves !! 0%nat);
      let bit := key_bit (l_key first) position in
      if existsb (fun l => negb (Bool.eqb (key_bit (l_key l) position) bit)) leaves
      then Ok position else find_bifurcation n' leaves (depth + 1)
  end.

Fixpoint build_subtree (fuel : nat) (leaves : list Leaf) (start_bit : N) : result Node :=
  match leaves with
  | [leaf] => Ok (NLeaf leaf)
  | _ =>
      match fuel with
      | O => Panic
      | S fuel' =>
          bifurcation ← find_bifurcation (N.to_nat (256 - start_bit)) leaves start_bit;
          let left := filter (fun l => key_bit (l_key l) bifurcation = false) leaves in
          let right := filter (fun l => key_bit (l_key l) bifurcation = true) leaves in
          let next_bit := val bifurcation + 1 in
          left ← build_subtree fuel' left next_bit;
          right ← build_subtree fuel' right next_bit;
          '(hash, sum) ← ok_or (OutOfRange "RSMST internal sum exceeds 256 bits")
            (node_hash bifurcation (n_hash left, n_sum left) (n_hash right, n_sum right));
          Ok (NBranch bifurcation left right hash sum)
      end
  end.

(** [BuiltRsmst] *)
Record BuiltRsmst : Type := { root : Node }.

Definition root_hash (self : BuiltRsmst) : arr 32 := n_hash (root self).
Definition root_sum (self : BuiltRsmst) : BigUint := n_sum (root self).

(** Every level of the recursion consumes a bit position: 257 levels suffice
    ([build_subtree_spec] in [RsmstBuild]). *)
Definition build (self : Rsmst) : result BuiltRsmst :=
  match leaves self with
  | [] => Err (UnexpectedValue "RSMST must have at least one leaf")
  | _ => root ← build_subtree 257 (leaves self) 0; Ok {| root := root |}
  end.

(** The descent of [proof]: [steps] root-first. *)
Fixpoint proof_steps (node : Node) (key : arr 32) (steps : list RsmstProofStep) :
    option (list RsmstProofStep) :=
  match node with
  | NLeaf leaf => if bool_decide (l_key leaf = key) then Some (rev steps) else None
  | NBranch depth l r _ _ =>
      let sibling := if key_bit key depth then l else r in
      let steps := steps ++ [{| ps_depth := depth; ps_hash := n_hash sibling; ps_sum := n_sum sibling |}] in
      if key_bit key depth then proof_steps r key steps else proof_steps l key steps
  end.

Definition proof (self : BuiltRsmst) (key : arr 32) : option RsmstInclusionProof :=
  steps ← proof_steps (root self) key [];
  Some {| steps := steps |}.

End rsmst.
