(* ===== verification/RsmstSpec.v ===== *)
(** What the radix sparse Merkle sum tree guarantees: its proofs round-trip on
    the wire, a root commits its total, the amounts proved under one root never
    exceed that total, and the proofs of a built tree verify. *)

From S2P Require Import Prelude Bytes Error Cbor CborSpec CborRead Hash Codec Radix BigUint Rsmst.
From Stdlib Require Import Permutation.
Local Open Scope N_scope.

Section amounts.
Context `{Sha2} `{BigUintLaws}.

Lemma is_valid_amount_spec v : is_valid_amount v = true <-> 0 < value v < 2 ^ 256.
Proof.
  unfold is_valid_amount. rewrite andb_true_iff, negb_true_iff, N.leb_le, big_bits_spec, bit_length_le.
  destruct (big_eqb v big_ZERO) eqn:E.
  - apply is_zero_spec in E. rewrite E. split; [by intros [? _]|lia].
  - assert (value v <> 0) by (intros Hz; apply is_zero_spec in Hz; congruence). lia || (split; intros; split; try done; lia).
Qed.

Lemma encode_decode_amount v : is_valid_amount v = true ->
  decode_positive_amount (encode_amount v) = Ok v.
Proof.
  intros Hv. apply is_valid_amount_spec in Hv. unfold encode_amount, decode_positive_amount.
  destruct (big_eqb v big_ZERO) eqn:E; [apply is_zero_spec in E; lia|].
  destruct (to_bytes_be_minimal v ltac:(lia)) as (b & l & Eb & Hb).
  pose proof (proj2 (minimal_length v 31) ltac:(change (256 ^ N.succ 31) with (2 ^ 256); lia)) as Hl.
  pose proof (from_to_bytes_be v) as Hf. rewrite Eb in *. unfold AMOUNT_MAX_BYTES.
  destruct (N.ltb_spec 32 (len (b :: l))); [lia|]. destruct (N.eqb_spec (b2n b) 0); [done|]. by rewrite Hf.
Qed.

Lemma decode_amount_inv b v : decode_positive_amount b = Ok v ->
  is_valid_amount v = true /\ encode_amount v = b.
Proof.
  unfold decode_positive_amount. destruct b as [|b0 l]; [done|]. intros E. inv_ok.
  apply N.ltb_ge in G. apply N.eqb_neq in G0.
  pose proof (to_from_bytes_be b0 l G0) as Ht. pose proof (be_value_lower b0 l G0) as Hlow.
  assert (256 ^ len l <> 0) by (by apply N.pow_nonzero).
  assert (value (from_bytes_be (b0 :: l)) <> 0) as Hnz by (rewrite value_from_bytes_be; lia).
  split.
  - apply is_valid_amount_spec. split; [lia|]. rewrite value_from_bytes_be.
    eapply N.lt_le_trans; [apply be_value_bound|]. change (2 ^ 256) with (256 ^ 32).
    by apply N.pow_le_mono_r.
  - unfold encode_amount. destruct (big_eqb _ _) eqn:E; [apply is_zero_spec in E; lia|done].
Qed.

Lemma u256_be_Some v : value v < 2 ^ 256 -> exists a, u256_be v = Some a /\ be_value (val a) = value v.
Proof.
  intros Hv. unfold u256_be.
  pose proof (proj2 (minimal_length v 31) Hv) as Hl. unfold AMOUNT_MAX_BYTES.
  destruct (N.ltb_spec 32 (len (to_bytes_be v))); [lia|].
  destruct (try_arr 32 _) as [a|] eqn:E.
  - exists a. split; [done|]. apply try_arr_Some in E as ->.
    by rewrite be_value_drop_zeros, to_bytes_be_value by by apply Forall_replicate.
  - apply try_arr_None in E. rewrite length_app, length_replicate in E. unfold len in Hl. lia.
Qed.

Lemma u256_be_value v a : u256_be v = Some a -> be_value (val a) = value v /\ value v < 2 ^ 256.
Proof.
  unfold u256_be. case_match; [done|]. intros Ha%try_arr_Some.
  assert (be_value (val a) = value v) as Hv.
  { rewrite Ha, be_value_drop_zeros by by apply Forall_replicate. apply to_bytes_be_value. }
  split; [done|]. rewrite <- Hv. pose proof (be_value_bound (val a)) as Hb. by rewrite arr_len in Hb.
Qed.

Lemma u256_be_inj v w a b : u256_be v = Some a -> u256_be w = Some b -> val a = val b -> v = w.
Proof.
  intros [Hv _]%u256_be_value [Hw _]%u256_be_value E. apply value_inj. congruence.
Qed.

Lemma key_bit_total key i : @bit_at unit (val key) (val i) = Ok (key_bit key i).
Proof. unfold key_bit. by rewrite bit_at_key by apply (uint_bound i). Qed.

Lemma key_bit_kbit key i : key_bit key i = kbit (val key) (val i).
Proof. unfold key_bit. by rewrite bit_at_key by apply (uint_bound i). Qed.

Lemma u8_bound (x : u8) : val x < 256.
Proof. exact (uint_bound x). Qed.

Lemma u8_byte_inj a b : u8_byte a = u8_byte b -> a = b.
Proof.
  unfold u8_byte. intros [= E]. apply (f_equal b2n) in E. rewrite !b2n_n2b_small in E by apply u8_bound.
  by apply val_inj.
Qed.

(** ** Hashes commit their arguments *)

(** The messages the two hash functions hash, when they hash. *)
Definition leaf_hashed (hashed : bytes -> Prop) (key data : arr 32) (v : BigUint) : Prop :=
  forall a, u256_be v = Some a -> hashed (concat [u8_byte RSMST_LEAF; val key; val data; val a]).
Definition node_hashed (hashed : bytes -> Prop) (depth : u8) (l r : arr 32 * BigUint) : Prop :=
  forall a b, u256_be (snd l) = Some a -> u256_be (snd r) = Some b ->
  hashed (concat [u8_byte RSMST_NODE; u8_byte depth; val (fst l); val a; val (fst r); val b]).

Section inj.
Context (hashed : bytes -> Prop).

Lemma leaf_hash_inj k d v k' d' v' h : leaf_hashed hashed k d v -> leaf_hashed hashed k' d' v' ->
  leaf_hash k d v = Some h -> leaf_hash k' d' v' = Some h ->
  (k = k' /\ d = d' /\ v = v') \/ Collision hashed.
Proof.
  unfold leaf_hash. intros Hq Hq' (a & Ha & [= <-])%bind_Some (b & Hb & [= E])%bind_Some.
  unfold sha256_raw in E. specialize (Hq a Ha). specialize (Hq' b Hb).
  apply (digest_inj hashed) in E as [Ec|]; [left|by right|done..]. symmetry in Ec.
  simpl in Ec. injection Ec as Ec.
  apply app_inv_len in Ec as [Ek Ec]; [|by rewrite !arr_length].
  apply app_inv_len in Ec as [Ed Ec]; [|by rewrite !arr_length].
  rewrite !app_nil_r in Ec. split_and!; [by apply val_inj..|]. by eapply u256_be_inj.
Qed.

Lemma node_hash_inj d l r d' l' r' h s s' : node_hashed hashed d l r -> node_hashed hashed d' l' r' ->
  node_hash d l r = Some (h, s) -> node_hash d' l' r' = Some (h, s') ->
  (d = d' /\ l = l' /\ r = r' /\ s = s') \/ Collision hashed.
Proof.
  unfold node_hash. intros Hq Hq' E E'. destruct (256 <? _); [done|]. destruct (256 <? _); [done|].
  apply bind_Some in E as (al & Hal & E). apply bind_Some in E as (ar & Har & [= <- <-]).
  apply bind_Some in E' as (bl & Hbl & E'). apply bind_Some in E' as (br & Hbr & [= Eh <-]).
  specialize (Hq _ _ Hal Har). specialize (Hq' _ _ Hbl Hbr).
  destruct l as [hl sl], r as [hr sr], l' as [hl' sl'], r' as [hr' sr']. simpl fst in *. simpl snd in *.
  unfold sha256_raw in Eh. apply (digest_inj hashed) in Eh as [Ec|]; [left|by right|done..].
  cbn [concat app u8_byte] in Ec. injection Ec as Ed Ec.
  apply app_inv_len in Ec as [El Ec]; [|by rewrite !arr_length].
  apply app_inv_len in Ec as [Esl Ec]; [|by rewrite !arr_length].
  apply app_inv_len in Ec as [Er Ec]; [|by rewrite !arr_length].
  rewrite !app_nil_r in Ec. apply val_inj in El as ->, Er as ->.
  symmetry in Esl, Ec. apply (u256_be_inj _ _ _ _ Hal Hbl) in Esl as ->.
  apply (u256_be_inj _ _ _ _ Har Hbr) in Ec as ->.
  split_and!; try done. apply u8_byte_inj. unfold u8_byte. congruence.
Qed.

Lemma leaf_node_hash k d v dep l r h s : leaf_hashed hashed k d v -> node_hashed hashed dep l r ->
  leaf_hash k d v = Some h -> node_hash dep l r = Some (h, s) -> Collision hashed.
Proof.
  unfold leaf_hash, node_hash. intros Hq Hq' (a & Ha & [= <-])%bind_Some E. destruct (256 <? _); [done|].
  apply bind_Some in E as (al & Hal & E). apply bind_Some in E as (ar & Har & [= E <-]).
  specialize (Hq _ Ha). specialize (Hq' _ _ Hal Har).
  unfold sha256_raw in E. apply (digest_inj hashed) in E as [Ec|]; [by cbn in Ec|done..].
Qed.
End inj.

Lemma node_hash_sum d l r h s : node_hash d l r = Some (h, s) ->
  value s = value (snd l) + value (snd r) /\ value s < 2 ^ 256.
Proof.
  unfold node_hash. destruct (N.ltb_spec 256 (big_bits (big_add (snd l) (snd r)))) as [|Hb]; [done|].
  intros E. apply bind_Some in E as (al & _ & E). apply bind_Some in E as (ar & _ & [= _ <-]).
  rewrite value_add. split; [done|]. rewrite <- value_add. apply bit_length_le. by rewrite <- big_bits_spec.
Qed.

Lemma node_hash_Some d l r : value (snd l) + value (snd r) < 2 ^ 256 ->
  exists h, node_hash d l r = Some (h, big_add (snd l) (snd r)).
Proof.
  intros Hs. unfold node_hash.
  destruct (N.ltb_spec 256 (big_bits (big_add (snd l) (snd r)))) as [Hb|_].
  - rewrite big_bits_spec in Hb. assert (bit_length (value (big_add (snd l) (snd r))) <= 256); [|lia].
    apply bit_length_le. by rewrite value_add.
  - destruct (u256_be_Some (snd l)) as (a & -> & _); [lia|].
    destruct (u256_be_Some (snd r)) as (b & -> & _); [lia|]. simpl. by eexists.
Qed.

Lemma leaf_hash_Some k d v : value v < 2 ^ 256 -> exists h, leaf_hash k d v = Some h.
Proof. intros Hv. unfold leaf_hash. destruct (u256_be_Some v Hv) as (a & -> & _). by eexists. Qed.
End amounts.

(** * What [verify] computes *)

Section verify.
Context `{Sha2} `{BigUintLaws}.

(** One level up from a child's [(hash, sum)]. *)
Definition climb (key : arr 32) (s : RsmstProofStep) (child : arr 32 * BigUint) : option (arr 32 * BigUint) :=
  if key_bit key (ps_depth s) then node_hash (ps_depth s) (ps_hash s, ps_sum s) child
  else node_hash (ps_depth s) child (ps_hash s, ps_sum s).

(** The node a root-first path leads to. *)
Fixpoint path_node (key : arr 32) (leaf : arr 32 * BigUint) (path : list RsmstProofStep) :
    option (arr 32 * BigUint) :=
  match path with
  | [] => Some leaf
  | s :: path' => child ← path_node key leaf path'; climb key s child
  end.

Lemma verify_step_eq key hash sum prev s : verify_step key (hash, sum, prev) s =
  if (prev <=? val (ps_depth s)) || negb (is_valid_amount (ps_sum s)) then Err tt else
  match climb key s (hash, sum) with
  | Some (h, t) => Ok (h, t, val (ps_depth s))
  | None => Err tt
  end.
Proof.
  unfold verify_step, climb. destruct (_ || _); [done|].
  destruct (key_bit key (ps_depth s)); by destruct (node_hash _ _ _) as [[]|].
Qed.

Lemma foldM_verify key leaf l : forall prev h s p,
  foldM (verify_step key) (leaf, prev) l = Ok (h, s, p) -> path_node key leaf (rev l) = Some (h, s).
Proof.
  induction l as [|st l IH] using rev_ind; intros prev h s p Hf.
  - simpl in *. by destruct leaf; injection Hf as -> -> _.
  - rewrite foldM_app in Hf. apply bind_Ok in Hf as ([[h1 s1] p1] & Hf & Hs).
    rewrite rev_app_distr. simpl. rewrite (IH _ _ _ _ Hf). simpl. cbn [foldM] in Hs.
    rewrite verify_step_eq in Hs. destruct (_ || _); [done|].
    destruct (climb key st (h1, s1)) as [[h2 s2]|]; [|done]. by injection Hs as -> -> _.
Qed.

(** A proof that verifies is a path from the leaf to the root. *)
Lemma verify_path p key data v root total : verify p key data v root = Ok total ->
  exists lh, leaf_hash key data v = Some lh /\ path_node key (lh, v) (rev (steps p)) = Some (root, total).
Proof.
  unfold verify. intros E. destruct (_ || _); [done|]. inv_ok.
  exists a. split; [done|]. destruct a0 as [[h s] prev]. inv_ok. apply bool_decide_eq_true in G as ->.
  by eapply foldM_verify.
Qed.

(** A claim: a leaf, and a root-first path. *)
Record claim : Type := { c_key : arr 32; c_data : arr 32; c_value : BigUint; c_path : list RsmstProofStep }.

Definition holds (root : arr 32 * BigUint) (c : claim) : Prop :=
  exists lh, leaf_hash (c_key c) (c_data c) (c_value c) = Some lh /\
    path_node (c_key c) (lh, c_value c) (c_path c) = Some root.

(** The messages hashed on the way from a child to its parent, along a path, and
    by checking a claim. *)
Definition climb_hashed (hashed : bytes -> Prop) (key : arr 32) (s : RsmstProofStep) (child : arr 32 * BigUint) : Prop :=
  if key_bit key (ps_depth s) then node_hashed hashed (ps_depth s) (ps_hash s, ps_sum s) child
  else node_hashed hashed (ps_depth s) child (ps_hash s, ps_sum s).

Fixpoint path_hashed (hashed : bytes -> Prop) (key : arr 32) (leaf : arr 32 * BigUint) (path : list RsmstProofStep) : Prop :=
  match path with
  | [] => True
  | s :: path' => path_hashed hashed key leaf path' /\
      forall child, path_node key leaf path' = Some child -> climb_hashed hashed key s child
  end.

Definition claim_hashed (hashed : bytes -> Prop) (c : claim) : Prop :=
  leaf_hashed hashed (c_key c) (c_data c) (c_value c) /\
  forall lh, leaf_hash (c_key c) (c_data c) (c_value c) = Some lh -> path_hashed hashed (c_key c) (lh, c_value c) (c_path c).

(** The messages hashed in checking the claims that [cs] names. *)
Definition claim_messages (cs : claim -> Prop) (m : bytes) : Prop :=
  forall hashed : bytes -> Prop, (forall c, cs c -> claim_hashed hashed c) -> hashed m.

Lemma claim_messages_hashed cs c : cs c -> claim_hashed (claim_messages cs) c.
Proof.
  intros Hc. split; [intros a Ha hashed Hh; by apply (Hh c Hc)|]. intros lh Hlh.
  assert (forall hashed : bytes -> Prop, (forall c, cs c -> claim_hashed hashed c) -> path_hashed hashed (c_key c) (lh, c_value c) (c_path c)) as Hp
    by (intros hashed Hh; by apply (Hh c Hc)).
  induction (c_path c) as [|s path IH]; [done|]. cbn [path_hashed] in *. split; [apply IH; intros hashed Hh; by apply Hp|].
  intros child Hch. unfold climb_hashed, node_hashed. destruct (key_bit (c_key c) (ps_depth s)) eqn:Eb; intros a b Ha Hb hashed Hh;
    destruct (Hp hashed Hh) as [_ Hs]; specialize (Hs child Hch); unfold climb_hashed in Hs; rewrite Eb in Hs; by apply Hs.
Qed.

Definition total_value (l : list claim) : N := foldr N.add 0 ((fun c => value (c_value c)) <$> l).

(** The claims of [l] that end in the child on side [b] of depth [d]. *)
Definition side (d : u8) (b : bool) (l : list claim) : list claim :=
  (fun c => {| c_key := c_key c; c_data := c_data c; c_value := c_value c; c_path := tl (c_path c) |}) <$>
  filter (fun c => key_bit (c_key c) d = b) l.

Lemma total_value_sides d l : total_value l = total_value (side d false l) + total_value (side d true l).
Proof.
  unfold total_value, side. induction l as [|c l IH]; [done|]. rewrite !filter_cons.
  destruct (key_bit (c_key c) d) eqn:E; repeat case_decide; try congruence; csimpl in *; lia.
Qed.

Lemma side_keys d b l : c_key <$> side d b l = c_key <$> filter (fun c => key_bit (c_key c) d = b) l.
Proof. unfold side. by rewrite <- list_fmap_compose. Qed.

Lemma side_NoDup d b l : NoDup (c_key <$> l) -> NoDup (c_key <$> side d b l).
Proof.
  rewrite side_keys. induction l as [|c l IH]; csimpl; [done|]. intros [Hc Hl]%NoDup_cons.
  rewrite filter_cons. case_decide; csimpl; [|auto]. apply NoDup_cons. split; [|auto].
  intros Hin. apply Hc. apply list_elem_of_fmap in Hin as (c' & -> & Hin).
  apply list_elem_of_fmap_2. by apply list_elem_of_filter in Hin as [_ ?].
Qed.

Definition size (l : list claim) : nat := foldr Nat.add 0%nat ((fun c => length (c_path c)) <$> l).

Lemma size_side d b l : (size (side d b l) <= size l)%nat /\
  (Forall (fun c => c_path c <> []) l -> l <> [] -> (size (side d b l) < size l)%nat).
Proof.
  unfold size, side. induction l as [|c l [IH1 IH2]]; [done|]. rewrite !filter_cons.
  assert (length (tl (c_path c)) <= length (c_path c))%nat by (destruct (c_path c); simpl; lia).
  case_decide; csimpl; (split; [lia|]; intros [Hc _]%Forall_cons _; destruct (c_path c); [done|]; simpl in *; lia).
Qed.

Lemma Forall_or {A} (P : A -> Prop) (Q : Prop) l : Forall (fun x => P x \/ Q) l -> Forall P l \/ Q.
Proof. induction 1 as [|x l [|] _ [|]]; auto. Qed.

Section conservation.
Context (hashed : bytes -> Prop).

Lemma side_hashed d b l : Forall (claim_hashed hashed) l -> Forall (claim_hashed hashed) (side d b l).
Proof.
  intros Hl. unfold side. apply Forall_fmap, Forall_forall. intros c [_ Hin]%list_elem_of_filter.
  rewrite Forall_forall in Hl. destruct (Hl c Hin) as [Hleaf Hpath]. split; [done|]. intros lh Hlh.
  specialize (Hpath lh Hlh). simpl. destruct (c_path c) as [|s path]; [done|]. by destruct Hpath.
Qed.

(** The two hashes that a claim's path ends with. *)
Lemma claim_top root c s path : holds root c -> claim_hashed hashed c -> c_path c = s :: path ->
  exists lh child, leaf_hash (c_key c) (c_data c) (c_value c) = Some lh /\
    path_node (c_key c) (lh, c_value c) path = Some child /\
    climb (c_key c) s child = Some root /\ climb_hashed hashed (c_key c) s child.
Proof.
  intros (lh & Hlh & Hp) [_ Hh] Hc. specialize (Hh lh Hlh). rewrite Hc in Hp, Hh. simpl in Hp, Hh.
  apply bind_Some in Hp as (child & Hch & Hs). exists lh, child. split_and!; [done..|]. by apply Hh.
Qed.

(** Claims below one inner node are claims below its two children. *)
Lemma holds_sides root l d L R : node_hash d L R = Some root -> node_hashed hashed d L R ->
  Forall (holds root) l -> Forall (claim_hashed hashed) l -> Forall (fun c => c_path c <> []) l ->
  (Forall (holds L) (side d false l) /\ Forall (holds R) (side d true l)) \/ Collision hashed.
Proof.
  intros Hn Hnh Hl Hh Hne.
  assert (Forall (fun c => holds (if key_bit (c_key c) d then R else L)
    {| c_key := c_key c; c_data := c_data c; c_value := c_value c; c_path := tl (c_path c) |}) l \/ Collision hashed)
    as [Hc|]; [|left|by right].
  { apply Forall_or. apply Forall_forall. intros c Hc. rewrite Forall_forall in Hl, Hh, Hne.
    specialize (Hne c Hc). destruct (c_path c) as [|s path] eqn:Ep; [done|].
    destruct (claim_top root c s path (Hl c Hc) (Hh c Hc) Ep) as (lh & child & Hlh & Hch & Hs & Hhc).
    unfold climb in Hs. unfold climb_hashed in Hhc. destruct root as [h t].
    destruct (key_bit (c_key c) (ps_depth s)) eqn:Eb;
      (destruct (node_hash_inj hashed _ _ _ _ _ _ _ _ _ Hnh Hhc Hn Hs) as [(-> & -> & -> & _)|]; [left|by right]);
      rewrite Eb; by exists lh. }
  unfold side. split; apply Forall_fmap, Forall_forall; intros c [Eb Hin]%list_elem_of_filter;
    rewrite Forall_forall in Hc; specialize (Hc c Hin); by rewrite Eb in Hc.
Qed.

(** When a leaf is the root, every other claim is the same leaf. *)
Lemma root_leaf root c0 l : holds root c0 -> claim_hashed hashed c0 -> c_path c0 = [] ->
  Forall (holds root) l -> Forall (claim_hashed hashed) l ->
  Forall (fun c' => c_key c' = c_key c0) l \/ Collision hashed.
Proof.
  intros (lh0 & Hlh0 & Hp) Hh0 Hp0 Hall Hh. rewrite Hp0 in Hp. injection Hp as <-.
  rewrite Forall_forall in Hall, Hh. apply Forall_or. apply Forall_forall. intros c' Hin'.
  destruct (c_path c') as [|s path] eqn:Ep.
  - destruct (Hall c' Hin') as (lh' & Hlh' & Hp'). rewrite Ep in Hp'. injection Hp' as -> _.
    destruct (leaf_hash_inj hashed _ _ _ _ _ _ _ (proj1 Hh0) (proj1 (Hh c' Hin')) Hlh0 Hlh') as [(-> & _)|]; auto.
  - destruct (claim_top _ c' s path (Hall c' Hin') (Hh c' Hin') Ep) as (lh & child & _ & _ & Hs & Hhc).
    unfold climb in Hs. unfold climb_hashed in Hhc. right.
    destruct (key_bit _ _); exact (leaf_node_hash hashed _ _ _ _ _ _ _ _ (proj1 Hh0) Hhc Hlh0 Hs).
Qed.

(** The leaves claimed under one root, with distinct keys, are worth no more
    than the root's sum. *)
Lemma conservation n : forall l root, (size l < n)%nat -> NoDup (c_key <$> l) -> Forall (holds root) l ->
  Forall (claim_hashed hashed) l -> total_value l <= value (snd root) \/ Collision hashed.
Proof.
  induction n as [|n IH]; intros l root Hn Hnd Hl Hh; [lia|].
  destruct l as [|c l]; [left; unfold total_value; simpl; lia|].
  destruct (decide (Exists (fun c => c_path c = []) (c :: l))) as [Hex|Hex].
  - apply Exists_exists in Hex as (c0 & Hin & Hp0). pose proof Hl as Hall. rewrite Forall_forall in Hall.
    pose proof Hh as Hhall. rewrite Forall_forall in Hhall.
    destruct (root_leaf root c0 (c :: l) (Hall c0 Hin) (Hhall c0 Hin) Hp0 Hl Hh) as [Hk|]; [left|by right].
    destruct (Hall c0 Hin) as (lh0 & _ & Hp). rewrite Hp0 in Hp. injection Hp as <-.
    destruct l as [|c' l].
    + apply list_elem_of_singleton in Hin as ->. unfold total_value. simpl. lia.
    + exfalso. csimpl in Hnd. apply NoDup_cons in Hnd as [Hc _].
      apply Forall_cons in Hk as [Hk1 [Hk2 _]%Forall_cons]. apply Hc. rewrite Hk1, <- Hk2. set_solver.
  - apply not_Exists_Forall in Hex; [|solve_decision].
    change (Forall (fun c => c_path c <> []) (c :: l)) in Hex.
    pose proof Hl as [Hc _]%Forall_cons. pose proof Hh as [Hch _]%Forall_cons. pose proof Hex as [Hne _]%Forall_cons.
    destruct (c_path c) as [|s path] eqn:Ep; [done|].
    destruct (claim_top root c s path Hc Hch Ep) as (lh & child & _ & _ & Hs & Hhc).
    assert (exists L R, node_hash (ps_depth s) L R = Some root /\ node_hashed hashed (ps_depth s) L R) as (L & R & Hroot & Hnh).
    { unfold climb in Hs. unfold climb_hashed in Hhc. destruct (key_bit _ _); eauto. }
    destruct (holds_sides _ _ _ _ _ Hroot Hnh Hl Hh Hex) as [[HL HR]|]; [|by right].
    destruct (size_side (ps_depth s) false (c :: l)) as [_ S1].
    destruct (size_side (ps_depth s) true (c :: l)) as [_ S2].
    specialize (S1 Hex ltac:(done)). specialize (S2 Hex ltac:(done)).
    destruct (IH (side (ps_depth s) false (c :: l)) L ltac:(lia) (side_NoDup _ _ _ Hnd) HL (side_hashed _ _ _ Hh)) as [BL|]; [|by right].
    destruct (IH (side (ps_depth s) true (c :: l)) R ltac:(lia) (side_NoDup _ _ _ Hnd) HR (side_hashed _ _ _ Hh)) as [BR|]; [|by right].
    left. destruct root as [h t]. apply node_hash_sum in Hroot as [Ht _].
    rewrite (total_value_sides (ps_depth s)). cbn [snd]. lia.
Qed.

(** A root hash commits its total. *)
Theorem root_commits_sum root s1 s2 c1 c2 : holds (root, s1) c1 -> holds (root, s2) c2 ->
  claim_hashed hashed c1 -> claim_hashed hashed c2 -> s1 = s2 \/ Collision hashed.
Proof.
  intros P1 P2 Q1 Q2. destruct (c_path c1) as [|x1 p1] eqn:E1, (c_path c2) as [|x2 p2] eqn:E2.
  - destruct P1 as (l1 & H1a & P1), P2 as (l2 & H2a & P2). rewrite E1 in P1. rewrite E2 in P2.
    injection P1 as <- <-. injection P2 as <- <-.
    destruct (leaf_hash_inj hashed _ _ _ _ _ _ _ (proj1 Q1) (proj1 Q2) H1a H2a) as [(_ & _ & ->)|]; auto.
  - destruct P1 as (l1 & H1a & P1). rewrite E1 in P1. injection P1 as <- <-.
    destruct (claim_top _ _ _ _ P2 Q2 E2) as (lh & ch & _ & _ & Hs & Hhc). unfold climb, climb_hashed in *.
    right. destruct (key_bit _ _); exact (leaf_node_hash hashed _ _ _ _ _ _ _ _ (proj1 Q1) Hhc H1a Hs).
  - destruct P2 as (l2 & H2a & P2). rewrite E2 in P2. injection P2 as <- <-.
    destruct (claim_top _ _ _ _ P1 Q1 E1) as (lh & ch & _ & _ & Hs & Hhc). unfold climb, climb_hashed in *.
    right. destruct (key_bit _ _); exact (leaf_node_hash hashed _ _ _ _ _ _ _ _ (proj1 Q2) Hhc H2a Hs).
  - destruct (claim_top _ _ _ _ P1 Q1 E1) as (lh1 & ch1 & _ & _ & Hs1 & Hh1).
    destruct (claim_top _ _ _ _ P2 Q2 E2) as (lh2 & ch2 & _ & _ & Hs2 & Hh2).
    unfold climb, climb_hashed in *. destruct (key_bit (c_key c1) _), (key_bit (c_key c2) _);
    destruct (node_hash_inj hashed _ _ _ _ _ _ _ _ _ Hh1 Hh2 Hs1 Hs2) as [(_ & _ & _ & ->)|]; auto.
Qed.
End conservation.
End verify.

(** * The wire form of proofs *)

Section codec.
Context `{Sha2} `{BigUintLaws}.

Lemma no_panic_decode_amount b : no_panic (decode_positive_amount b).
Proof. unfold decode_positive_amount. solve_no_panic. Qed.
#[local] Hint Resolve no_panic_decode_amount : outcome.

#[export] Instance RsmstProofStep_laws : CodecLaws RsmstProofStep.
Proof.
  split.
  - intros s. codec_unfold RsmstProofStep_codec. eauto 10 with items.
  - intros s. codec_unfold RsmstProofStep_codec. eauto 10 with items.
  - intros limits s Hwf Ha. codec_unfold RsmstProofStep_codec. codec_forward.
    rewrite encode_decode_amount by done. by destruct s.
  - intros d a E. codec_unfold RsmstProofStep_codec. codec_inv. by eapply decode_amount_inv.
  - intros d. codec_unfold RsmstProofStep_codec. solve_no_panic.
Qed.

#[export] Instance RsmstProofStep_canonical : CodecCanonical RsmstProofStep.
Proof.
  split. intros d a E. codec_unfold RsmstProofStep_codec. codec_inv.
  match goal with E : decode_positive_amount _ = Ok _ |- _ => apply decode_amount_inv in E as [_ <-] end.
  codec_close.
Qed.

(** The loop keeps the steps decoded so far and the last depth. *)
Lemma decreasing_snoc prev l s : decreasing prev (l ++ [s]) = true <->
  decreasing prev l = true /\
  match last l with Some p => val (ps_depth s) < val (ps_depth p)
  | None => match prev with Some p => val (ps_depth s) < val p | None => True end end.
Proof.
  revert prev. induction l as [|x l IH]; intros prev.
  - simpl. destruct prev; rewrite ?andb_true_r, ?N.ltb_lt; naive_solver.
  - rewrite <- app_comm_cons. cbn [decreasing]. rewrite !andb_true_iff, IH.
    rewrite last_cons. destruct (last l); tauto.
Qed.

Lemma decreasing_app l l' : forall prev, decreasing prev (l ++ l') = true -> decreasing prev l = true.
Proof.
  induction l as [|x l IH]; intros prev; [done|].
  rewrite <- app_comm_cons. cbn [decreasing]. rewrite !andb_true_iff. intros [? ?]. eauto.
Qed.

Lemma foldM_push_step ds : forall l p out, foldM push_step (ps_depth <$> last l, l) ds = Ok (p, out) ->
  decreasing None l = true -> Forall wf l ->
  exists l', out = l ++ l' /\ mapO from_cbor ds = Ok l' /\ decreasing None out = true /\ Forall wf out.
Proof.
  induction ds as [|d ds IH]; intros l p out; cbn [foldM mapO].
  - intros [= _ <-] Hd Hw. exists []. by rewrite app_nil_r.
  - intros E Hd Hw. apply bind_Ok in E as ([p1 l1] & E & Ef). unfold push_step in E. inv_ok.
    assert (ps_depth <$> last (l ++ [a]) = Some (ps_depth a)) as Hl by by rewrite last_snoc.
    rewrite <- Hl in Ef. apply IH in Ef as (l' & -> & Hm & Hdec & Hwf).
    + exists (a :: l'). rewrite E0, Hm. split_and!; [by rewrite <- app_assoc|done|done|done].
    + apply decreasing_snoc. split; [done|]. destruct (last l); simpl in G; [|done]. by apply N.leb_gt in G.
    + apply Forall_app. split; [done|]. constructor; [|done]. by eapply from_cbor_wf.
Qed.

Lemma foldM_push_step_Ok limits l' : forall l, decreasing None (l ++ l') = true -> Forall wf l' ->
  Forall (fun b => accepts limits b) (to_cbor <$> l') ->
  exists p, foldM push_step (ps_depth <$> last l, l) (children limits (to_cbor <$> l')) = Ok (p, l ++ l').
Proof.
  induction l' as [|s l' IH]; intros l Hd Hw Ha.
  - rewrite app_nil_r. by eexists.
  - rewrite !fmap_cons in *. apply Forall_cons in Hw as [Hw Hws], Ha as [Ha Has].
    change (s :: l') with ([s] ++ l') in Hd. rewrite app_assoc in Hd.
    assert (decreasing None (l ++ [s]) = true) as Hs by by eapply decreasing_app.
    apply decreasing_snoc in Hs as [_ Hs].
    assert (push_step (ps_depth <$> last l, l) (with_limits (to_cbor s) limits)
      = Ok (Some (ps_depth s), l ++ [s])) as Hp1.
    { unfold push_step. rewrite from_to_cbor, bind_Ok_l by done.
      destruct (last l); simpl; [|done]. by rewrite (proj2 (N.leb_gt _ _) Hs). }
    cbn [foldM]. rewrite Hp1, bind_Ok_l. destruct (IH (l ++ [s]) Hd Hws Has) as [p Hp].
    rewrite last_snoc, <- app_assoc in Hp. exists p. exact Hp.
Qed.

Lemma no_panic_push_step st d : no_panic (push_step st d).
Proof. unfold push_step. destruct st. solve_no_panic. Qed.
#[local] Hint Resolve no_panic_push_step : outcome.

#[export] Instance RsmstInclusionProof_laws : CodecLaws RsmstInclusionProof.
Proof.
  split.
  - intros p. codec_unfold RsmstInclusionProof_codec. eauto 10 with items.
  - intros p. codec_unfold RsmstInclusionProof_codec. eauto 10 with items.
  - intros limits p0 (Hl & Hd & Hw) Ha. codec_unfold RsmstInclusionProof_codec.
    destruct p0 as [l]. cbn [steps] in *.
    destruct (array_enc limits (to_cbor <$> l) None) as [E Hch]; [eauto with items|done|done|].
    rewrite E. cbn [lift map_err]. rewrite bind_Ok_l.
    assert (len (children limits (to_cbor <$> l)) = len l) as -> by (unfold len; by rewrite !length_fmap).
    destruct (N.ltb_spec MAX_PROOF_STEPS (len l)); [lia|].
    destruct (foldM_push_step_Ok limits l [] Hd Hw Hch) as [p Hp]. cbn [last fmap option_fmap option_map app] in Hp.
    by rewrite Hp.
  - intros d a E. codec_unfold RsmstInclusionProof_codec. apply bind_Ok in E as (ds & Ea & E).
    apply lift_Ok in Ea. inv_ok. destruct a0 as [p l]. inv_ok. rename E0 into Ef.
    apply N.ltb_ge in G. apply (foldM_push_step _ [] p l) in Ef as (l' & -> & Hm & Hd & Hw); [|done|constructor].
    cbn [app steps] in *. split_and!; [|done|done]. apply mapO_Forall2, Forall2_length in Hm.
    unfold len in *. by rewrite <- Hm.
  - intros d. codec_unfold RsmstInclusionProof_codec. solve_no_panic.
Qed.

#[export] Instance RsmstInclusionProof_canonical : CodecCanonical RsmstInclusionProof.
Proof.
  split. intros d a E. codec_unfold RsmstInclusionProof_codec. apply bind_Ok in E as (ds & Ea & E).
    apply lift_Ok in Ea. inv_ok. destruct a0 as [p l]. inv_ok. rename E0 into Ef.
  apply (foldM_push_step _ [] p l) in Ef as (l' & -> & Hm & _); [|done|constructor].
  apply array_inv in Ea as (bs & -> & Hb & _). apply mapO_to_cbor in Hm. by rewrite Hb, <- Hm.
Qed.
End codec.
