(* ===== verification/RsmstBuild.v ===== *)
(** The builder of the sum tree ([src/rsmst/build.rs]): it succeeds on distinct
    keys whose amounts sum below [2^256], the tree does not depend on the
    insertion order, and each leaf's proof verifies against the root. *)

From S2P Require Import Prelude Bytes Error Cbor CborSpec CborRead Hash Codec Radix BigUint Rsmst RsmstSpec.
From Stdlib Require Import Permutation.
Local Open Scope N_scope.

Section build.
Context `{Sha2} `{BigUintLaws}.

Definition sum_of (ls : list Leaf) : N := foldr N.add 0 ((fun l => value (l_value l)) <$> ls).

Lemma sum_of_Permutation ls ls' : ls ≡ₚ ls' -> sum_of ls = sum_of ls'.
Proof. unfold sum_of. induction 1; csimpl in *; lia. Qed.

Lemma sum_of_split (f : Leaf -> bool) ls :
  sum_of ls = sum_of (filter (fun l => f l = false) ls) + sum_of (filter (fun l => f l = true) ls).
Proof.
  unfold sum_of. induction ls as [|l ls IH]; [done|]. rewrite !filter_cons.
  destruct (f l) eqn:E; repeat case_decide; try congruence; csimpl; lia.
Qed.

Lemma filter_split (f : Leaf -> bool) ls :
  filter (fun l => f l = false) ls ++ filter (fun l => f l = true) ls ≡ₚ ls.
Proof.
  induction ls as [|l ls IH]; [done|]. rewrite !filter_cons.
  destruct (f l) eqn:E; repeat case_decide; try congruence; csimpl.
  - rewrite <- Permutation_middle. by rewrite IH.
  - by rewrite IH.
Qed.

Lemma filter_NoDup_keys (P : Leaf -> Prop) `{forall l, Decision (P l)} ls :
  NoDup (l_key <$> ls) -> NoDup (l_key <$> filter P ls).
Proof.
  induction ls as [|l ls IH]; csimpl; [done|]. intros [Hl Hnd]%NoDup_cons.
  rewrite filter_cons. case_decide; csimpl; [|auto]. apply NoDup_cons. split; [|auto].
  intros (l' & E & Hin)%list_elem_of_fmap. apply Hl. rewrite E. apply list_elem_of_fmap_2.
  by apply list_elem_of_filter in Hin as [_ ?].
Qed.

(** * The bifurcation *)

(** The keys of [ls] agree on the bits below [d]. *)
Definition agree (ls : list Leaf) (d : N) : Prop :=
  forall l l' i, l ∈ ls -> l' ∈ ls -> i < d -> kbit (val (l_key l)) i = kbit (val (l_key l')) i.

Lemma agree_filter P `{forall l, Decision (P l)} ls d : agree ls d -> agree (filter P ls) d.
Proof. intros Ha l l' i [_ Hl]%list_elem_of_filter [_ Hl']%list_elem_of_filter. by apply Ha. Qed.

Lemma agree_all ls : agree ls 256 -> forall l l', l ∈ ls -> l' ∈ ls -> l_key l = l_key l'.
Proof.
  intros Ha l l' Hl Hl'. apply val_inj, kbit_ext; [by rewrite !arr_length|].
  intros i Hi. rewrite arr_len in Hi. apply Ha; [done..|]. simpl in Hi. lia.
Qed.

Lemma distinct_agree_one ls : NoDup (l_key <$> ls) -> agree ls 256 -> ls <> [] -> exists l, ls = [l].
Proof.
  intros Hnd Ha Hne. destruct ls as [|l [|l' ls]]; [done|by exists l|].
  exfalso. csimpl in Hnd. apply NoDup_cons in Hnd as [Hl _]. apply Hl.
  rewrite (agree_all _ Ha l l') by set_solver. set_solver.
Qed.

(** A successful search: the lowest position at or above [d] where keys disagree. *)
Lemma find_bifurcation_spec n : forall ls d, d + N.of_nat n = 256 -> ls <> [] -> agree ls d ->
  (exists p, find_bifurcation n ls d = Ok p /\ d <= val p /\ agree ls (val p) /\
    (exists l, l ∈ ls /\ key_bit (l_key l) p = false) /\ (exists l, l ∈ ls /\ key_bit (l_key l) p = true)) \/
  (agree ls 256 /\ find_bifurcation n ls d = Err (UnexpectedValue "duplicate RSMST leaf key")).
Proof.
  induction n as [|n IH]; intros ls d Hd Hne Ha.
  { right. split; [|done]. replace 256 with d by lia. done. }
  cbn [find_bifurcation]. destruct ls as [|l0 ls'] eqn:Els; [done|]. cbn [lookup list_lookup or_panic].
  rewrite bind_Ok_l. rewrite <- Els in *. assert (l0 ∈ ls) as Hl0 by (subst; set_solver).
  assert (val (wrap 8 d) = d) as Hw by (apply val_wrap; simpl; lia).
  destruct (existsb _ ls) eqn:Ex.
  - left. exists (wrap 8 d). rewrite Hw. split_and!; [done|done|done|..];
      apply existsb_exists in Ex as (l & Hl & Hb); apply list_elem_of_In in Hl;
      apply negb_true_iff, eqb_false_iff in Hb;
      destruct (key_bit (l_key l0) (wrap 8 d)) eqn:E0, (key_bit (l_key l) (wrap 8 d)) eqn:E1; try congruence; eauto.
  - assert (agree ls (d + 1)) as Ha'.
    { assert (forall l, l ∈ ls -> kbit (val (l_key l)) d = kbit (val (l_key l0)) d) as Hsame.
      { intros l Hl. destruct (Bool.eqb (key_bit (l_key l) (wrap 8 d)) (key_bit (l_key l0) (wrap 8 d))) eqn:Eb.
        - apply eqb_prop in Eb. rewrite !key_bit_kbit, Hw in Eb. done.
        - assert (existsb (fun l => negb (Bool.eqb (key_bit (l_key l) (wrap 8 d)) (key_bit (l_key l0) (wrap 8 d)))) ls
            = true); [|congruence]. apply existsb_exists. exists l. rewrite Eb.
          split; [by apply list_elem_of_In|done]. }
      intros l l' i Hl Hl' Hi. destruct (decide (i = d)) as [->|]; [by rewrite (Hsame l Hl), (Hsame l' Hl')|]. apply Ha; [done..|lia]. }
    destruct (IH ls (d + 1) ltac:(lia) ltac:(by rewrite Els) Ha') as [(p & ? & ? & ?)|]; [left|by right].
    exists p. split; [done|]. split; [lia|done].
Qed.

(** * The trees that [build_subtree] returns *)

Fixpoint node_leaves (n : Node) : list Leaf :=
  match n with NLeaf l => [l] | NBranch _ l r _ _ => node_leaves l ++ node_leaves r end.

(** Digests and sums are right, the keys split by the bit at each junction, and
    depths increase downwards from [lo]. *)
Fixpoint node_ok (lo : N) (n : Node) : Prop :=
  match n with
  | NLeaf l => is_valid_amount (l_value l) = true
  | NBranch d l r h s =>
      lo <= val d /\ node_hash d (n_hash l, n_sum l) (n_hash r, n_sum r) = Some (h, s) /\
      node_ok (val d + 1) l /\ node_ok (val d + 1) r /\
      Forall (fun e => key_bit (l_key e) d = false) (node_leaves l) /\
      Forall (fun e => key_bit (l_key e) d = true) (node_leaves r)
  end.

Lemma node_sum lo n : node_ok lo n -> value (n_sum n) = sum_of (node_leaves n).
Proof.
  revert lo. induction n as [l|d l IHl r IHr h s]; intros lo Hn; simpl in *.
  - unfold sum_of. simpl. lia.
  - destruct Hn as (_ & Hh & Hl & Hr & _). apply node_hash_sum in Hh as [-> _]. simpl.
    rewrite (IHl _ Hl), (IHr _ Hr). unfold sum_of. rewrite fmap_app, foldr_app.
    generalize (foldr N.add 0 ((fun l => value (l_value l)) <$> node_leaves r)). intros x.
    clear. induction (node_leaves l) as [|y ys IH]; csimpl; lia.
Qed.

Lemma node_valid lo n : node_ok lo n -> is_valid_amount (n_sum n) = true.
Proof.
  revert lo. induction n as [l|d l IHl r IHr h s]; intros lo Hn; simpl in *; [done|].
  destruct Hn as (_ & Hh & Hl & _ & _). apply node_hash_sum in Hh as [E Hb].
  apply IHl, is_valid_amount_spec in Hl. apply is_valid_amount_spec. simpl in E. lia.
Qed.

Lemma filter_nonempty (P : Leaf -> Prop) `{forall l, Decision (P l)} ls l : l ∈ ls -> P l -> filter P ls <> [].
Proof. intros Hl HP E. assert (l ∈ filter P ls) as Hin by by apply list_elem_of_filter. rewrite E in Hin. set_solver. Qed.

Lemma filter_Forall (P Q : Leaf -> Prop) `{forall l, Decision (P l)} ls : Forall Q ls -> Forall Q (filter P ls).
Proof. rewrite !Forall_forall. intros Hq l [_ Hl]%list_elem_of_filter. auto. Qed.

Lemma build_subtree_S fuel ls start : (1 < length ls)%nat ->
  build_subtree (S fuel) ls start =
  (bifurcation ← find_bifurcation (N.to_nat (256 - start)) ls start;
   left ← build_subtree fuel (filter (fun l => key_bit (l_key l) bifurcation = false) ls) (val bifurcation + 1);
   right ← build_subtree fuel (filter (fun l => key_bit (l_key l) bifurcation = true) ls) (val bifurcation + 1);
   '(hash, sum) ← ok_or (OutOfRange "RSMST internal sum exceeds 256 bits")
     (node_hash bifurcation (n_hash left, n_sum left) (n_hash right, n_sum right));
   Ok (NBranch bifurcation left right hash sum)).
Proof. destruct ls as [|l0 [|l1 ls']]; simpl; [lia|lia|done]. Qed.

(** The two halves at a bifurcation satisfy the hypotheses of the recursion. *)
Lemma agree_half ls p b : agree ls (val p) ->
  agree (filter (fun l => key_bit (l_key l) p = b) ls) (val p + 1).
Proof.
  intros Ha l l' i [Hb Hl]%list_elem_of_filter [Hb' Hl']%list_elem_of_filter Hi.
  rewrite key_bit_kbit in Hb, Hb'. destruct (decide (i = val p)) as [->|]; [congruence|].
  apply Ha; [done..|lia].
Qed.

Definition build_good (ls : list Leaf) (start : N) (m : result Node) : Prop :=
  (sum_of ls < 2 ^ 256 /\ exists n, m = Ok n /\ node_ok start n /\ node_leaves n ≡ₚ ls) \/
  (2 ^ 256 <= sum_of ls /\ m = Err (OutOfRange "RSMST internal sum exceeds 256 bits")).

Lemma branch_good ls start p ml mr : start <= val p ->
  build_good (filter (fun l => key_bit (l_key l) p = false) ls) (val p + 1) ml ->
  build_good (filter (fun l => key_bit (l_key l) p = true) ls) (val p + 1) mr ->
  build_good ls start (left ← ml; right ← mr;
   '(hash, sum) ← ok_or (OutOfRange "RSMST internal sum exceeds 256 bits")
     (node_hash p (n_hash left, n_sum left) (n_hash right, n_sum right));
   Ok (NBranch p left right hash sum)).
Proof.
  intros Hp [(Sl & nl & -> & Okl & Pl)|(Sl & ->)] Hr; unfold build_good;
    pose proof (sum_of_split (fun l => key_bit (l_key l) p) ls) as Es; cbv beta in Es; [|right; split; [lia|done]].
  destruct Hr as [(Sr & nr & -> & Okr & Pr)|(Sr & ->)]; [|right; split; [lia|done]]. rewrite !bind_Ok_l.
  pose proof (node_sum _ _ Okl) as El. pose proof (node_sum _ _ Okr) as Er.
  rewrite (sum_of_Permutation _ _ Pl) in El. rewrite (sum_of_Permutation _ _ Pr) in Er.
  destruct (N.lt_ge_cases (sum_of ls) (2 ^ 256)) as [Hlt|Hge]; [left|right]; (split; [done|]).
  - destruct (node_hash_Some p (n_hash nl, n_sum nl) (n_hash nr, n_sum nr)) as [h Hh]; [simpl; lia|].
    rewrite Hh. simpl. eexists. split; [done|]. simpl. split_and!; try done.
    + apply Forall_forall. intros e He. rewrite Pl in He. by apply list_elem_of_filter in He as [? _].
    + apply Forall_forall. intros e He. rewrite Pr in He. by apply list_elem_of_filter in He as [? _].
    + rewrite Pl, Pr. apply (filter_split (fun l => key_bit (l_key l) p)).
  - destruct (node_hash _ _ _) as [[h s]|] eqn:Hh; [|done]. exfalso.
    apply node_hash_sum in Hh as [E Hb]. simpl in E. lia.
Qed.

(** On distinct keys [build_subtree] fails exactly when the amounts sum to
    [2^256] or more, and never runs out of fuel. *)
Lemma build_subtree_spec fuel : forall ls start,
  start <= 256 -> (N.to_nat (256 - start) < fuel)%nat -> ls <> [] -> NoDup (l_key <$> ls) -> agree ls start ->
  Forall (fun l => is_valid_amount (l_value l) = true) ls ->
  build_good ls start (build_subtree fuel ls start).
Proof.
  induction fuel as [|fuel IH]; intros ls start Hs Hf Hne Hnd Ha Hv; [lia|].
  destruct (decide (length ls = 1%nat)) as [Hone|Hone].
  { destruct ls as [|l [|]]; try discriminate. left. apply Forall_cons in Hv as [Hv _].
    pose proof (proj1 (is_valid_amount_spec _) Hv). split; [unfold sum_of; simpl; lia|]. by exists (NLeaf l). }
  rewrite build_subtree_S by (destruct ls; simpl in *; [done|lia]).
  destruct (find_bifurcation_spec (N.to_nat (256 - start)) ls start) as [(p & -> & Hp & Hap & (l0 & Hl0 & Hb0) & l1 & Hl1 & Hb1)|[Hall _]];
    [lia|done|done| |].
  2:{ destruct (distinct_agree_one ls Hnd Hall Hne) as [l ->]. done. }
  rewrite bind_Ok_l. pose proof (u8_bound p).
  apply branch_good; [done|..]; apply IH; try lia;
    eauto using filter_NoDup_keys, agree_half, filter_nonempty, filter_Forall.
Qed.

(** * Proofs of a built tree *)

Fixpoint path_steps (n : Node) (key : arr 32) : list RsmstProofStep :=
  match n with
  | NLeaf _ => []
  | NBranch d l r _ _ =>
      let sibling := if key_bit key d then l else r in
      {| ps_depth := d; ps_hash := n_hash sibling; ps_sum := n_sum sibling |} ::
      path_steps (if key_bit key d then r else l) key
  end.

Fixpoint reached (n : Node) (key : arr 32) : Leaf :=
  match n with
  | NLeaf l => l
  | NBranch d l r _ _ => reached (if key_bit key d then r else l) key
  end.

Lemma proof_steps_eq n key : forall acc, proof_steps n key acc =
  if bool_decide (l_key (reached n key) = key) then Some (rev (acc ++ path_steps n key)) else None.
Proof.
  induction n as [l|d l IHl r IHr h s]; intros acc; cbn [proof_steps reached path_steps].
  - by rewrite app_nil_r.
  - destruct (key_bit key d); [rewrite IHr|rewrite IHl]; by rewrite <- app_assoc.
Qed.

Lemma reached_in n key : reached n key ∈ node_leaves n.
Proof. induction n; simpl; [set_solver|]. destruct (key_bit key depth); set_solver. Qed.

Lemma reached_complete lo n l : node_ok lo n -> NoDup (l_key <$> node_leaves n) -> l ∈ node_leaves n ->
  reached n (l_key l) = l.
Proof.
  revert lo. induction n as [l0|d lt IHl rt IHr h s]; simpl; intros lo Hok Hnd Hin; [set_solver|].
  destruct Hok as (_ & _ & Ol & Or & Fl & Fr). rewrite fmap_app in Hnd. apply NoDup_app in Hnd as (Nl & _ & Nr).
  rewrite Forall_forall in Fl, Fr. apply elem_of_app in Hin as [Hin|Hin].
  - rewrite (Fl l Hin). eauto.
  - rewrite (Fr l Hin). eauto.
Qed.

(** Steps root-first: the depths increase from [lo], the sums are amounts. *)
Fixpoint ascending_steps (lo : N) (path : list RsmstProofStep) : Prop :=
  match path with
  | [] => True
  | s :: path' => lo <= val (ps_depth s) /\ is_valid_amount (ps_sum s) = true /\
      ascending_steps (val (ps_depth s) + 1) path'
  end.

Lemma ascending_length path : forall lo, lo <= 256 -> ascending_steps lo path -> len path + lo <= 256.
Proof.
  induction path as [|s path IH]; intros lo Hlo; simpl; [intros _; len_lia|].
  intros (? & _ & Hp). pose proof (u8_bound (ps_depth s)). apply IH in Hp; [len_lia|lia].
Qed.

Lemma node_path_ascending lo n key : node_ok lo n -> ascending_steps lo (path_steps n key).
Proof.
  revert lo. induction n as [l|d l IHl r IHr h s]; simpl; intros lo; [done|].
  intros (Hlo & _ & Ol & Or & _). split; [done|].
  destruct (key_bit key d); split; eauto using node_valid.
Qed.

Lemma node_path_node lo n key : node_ok lo n ->
  path_node key (l_hash (reached n key), l_value (reached n key)) (path_steps n key) = Some (n_hash n, n_sum n).
Proof.
  revert lo. induction n as [l|d l IHl r IHr h s]; simpl; intros lo; [done|].
  intros (_ & Hh & Ol & Or & _). unfold climb. simpl.
  destruct (key_bit key d); [rewrite (IHr _ Or)|rewrite (IHl _ Ol)]; done.
Qed.

(** A root-first path with ascending depths passes the loop of [verify]. *)
Lemma foldM_verify_complete key leaf path : forall lo h s, lo <= 256 -> ascending_steps lo path ->
  path_node key leaf path = Some (h, s) ->
  exists p, foldM (verify_step key) (leaf, 256) (rev path) = Ok (h, s, p) /\ lo <= p.
Proof.
  induction path as [|st path IH]; intros lo h s Hlo; simpl.
  - intros _ [= ->]. by exists 256.
  - intros (Hd & Hv & Hp) ([h1 s1] & Hch & Hs)%bind_Some. pose proof (u8_bound (ps_depth st)).
    destruct (IH (val (ps_depth st) + 1) h1 s1) as (p & Hf & Hle); [lia|done|done|].
    exists (val (ps_depth st)). split; [|done]. rewrite foldM_app, Hf, bind_Ok_l. cbn [foldM].
    rewrite verify_step_eq, Hv, Hs. by destruct (N.leb_spec p (val (ps_depth st))); [lia|].
Qed.

Lemma built_proof_verifies n data l : node_ok 0 n -> NoDup (l_key <$> node_leaves n) -> l ∈ node_leaves n ->
  leaf_hash (l_key l) data (l_value l) = Some (l_hash l) ->
  exists p, proof {| root := n |} (l_key l) = Some p /\
    verify p (l_key l) data (l_value l) (n_hash n) = Ok (n_sum n).
Proof.
  intros Hok Hnd Hl Hh. pose proof (reached_complete _ _ _ Hok Hnd Hl) as Hr.
  unfold proof. cbn [root]. rewrite proof_steps_eq, Hr, bool_decide_true by done. simpl.
  eexists. split; [done|]. unfold verify. cbn [steps].
  pose proof (node_path_ascending _ _ (l_key l) Hok) as Hasc.
  assert (is_valid_amount (l_value l) = true) as ->.
  { assert (forall lo n, node_ok lo n -> l ∈ node_leaves n -> is_valid_amount (l_value l) = true) as G; [|by eapply G].
    clear. intros lo n. revert lo. induction n as [l0|d lt IHl rt IHr h s]; simpl; intros lo.
    - intros Hv Hin. apply list_elem_of_singleton in Hin as ->. done.
    - intros (_ & _ & Ol & Or & _) [Hin|Hin]%elem_of_app; eauto. }
  pose proof (ascending_length _ 0 ltac:(lia) Hasc) as Hlen. unfold MAX_PROOF_STEPS.
  assert (len (rev (path_steps n (l_key l))) = len (path_steps n (l_key l))) as -> by (unfold len; by rewrite length_rev).
  destruct (N.ltb_spec 256 (len (path_steps n (l_key l)))); [lia|]. simpl negb. cbv iota. cbn [orb].
  rewrite Hh. cbn [ok_or]. rewrite bind_Ok_l.
  pose proof (node_path_node _ _ (l_key l) Hok) as Hp. rewrite Hr in Hp.
  destruct (foldM_verify_complete (l_key l) _ _ 0 _ _ ltac:(lia) Hasc Hp) as (p & -> & _).
  rewrite bind_Ok_l, bool_decide_true; done.
Qed.

(** * Inserting and building *)

(** An entry: key, data, amount. *)
Abbreviation entry := (arr 32 * arr 32 * BigUint)%type.

Definition insert_all (es : list entry) : result Rsmst :=
  foldM (fun t '(k, d, v) => insert t k d v) Rsmst_new es.

Definition leaf_of (l : Leaf) (e : entry) : Prop :=
  l_key l = e.1.1 /\ l_value l = e.2 /\ is_valid_amount e.2 = true /\
  leaf_hash (l_key l) (e.1.2) (l_value l) = Some (l_hash l).

Lemma insert_inv t k d v t' : insert t k d v = Ok t' ->
  ~ k ∈ l_key <$> leaves t /\ exists l, leaves t' = leaves t ++ [l] /\ leaf_of l (k, d, v).
Proof.
  unfold insert. intros E. inv_ok. apply negb_false_iff in G. split.
  - intros (l & -> & Hl)%list_elem_of_fmap.
    assert (existsb (fun l0 => bool_decide (l_key l0 = l_key l)) (leaves t) = true); [|congruence].
    apply existsb_exists. exists l. split; [by apply list_elem_of_In|by apply bool_decide_true].
  - by eexists.
Qed.

Lemma insert_all_inv es t : insert_all es = Ok t ->
  NoDup (l_key <$> leaves t) /\ Forall2 leaf_of (leaves t) es.
Proof.
  unfold insert_all. revert t. induction es as [|[[k d] v] es IH] using rev_ind; intros t E.
  - injection E as <-. split; constructor.
  - rewrite foldM_app in E. apply bind_Ok in E as (t0 & Ht0 & E). destruct (IH _ Ht0) as [Hnd Hf].
    cbn [foldM] in E. inv_ok. apply insert_inv in E0 as (Hk & l & El & Hl).
    rewrite El. split.
    + rewrite fmap_app. apply NoDup_app. split_and!; [done| |apply NoDup_singleton].
      intros x Hx Hx'. apply list_elem_of_singleton in Hx' as ->. destruct Hl as (Ek & _). simpl in Ek. congruence.
    + apply Forall2_app; [done|]. by constructor.
Qed.

Lemma insert_Ok t k d v : is_valid_amount v = true -> ~ k ∈ l_key <$> leaves t ->
  exists t', insert t k d v = Ok t'.
Proof.
  intros Hv Hk. unfold insert. rewrite Hv. simpl negb. cbv iota.
  destruct (existsb _ (leaves t)) eqn:E.
  - exfalso. apply existsb_exists in E as (l & Hl & Hb). apply bool_decide_eq_true in Hb as <-.
    apply Hk, list_elem_of_fmap_2. by apply list_elem_of_In.
  - apply is_valid_amount_spec in Hv. destruct (leaf_hash_Some k d v) as [h ->]; [lia|]. by eexists.
Qed.

Lemma leaf_of_keys ls es : Forall2 leaf_of ls es -> l_key <$> ls = (fun e => e.1.1) <$> es.
Proof. induction 1 as [|l e ls es Hl _ IH]; csimpl; [done|]. destruct Hl as (-> & _). by rewrite IH. Qed.

Lemma insert_all_Ok es : NoDup ((fun e : entry => e.1.1) <$> es) ->
  Forall (fun e : entry => is_valid_amount e.2 = true) es -> exists t, insert_all es = Ok t.
Proof.
  unfold insert_all. induction es as [|[[k d] v] es IH] using rev_ind; intros Hnd Hv; [by eexists|].
  rewrite fmap_app in Hnd. apply NoDup_app in Hnd as (Hnd & Hk & _). apply Forall_app in Hv as [Hv Hv'].
  apply Forall_cons in Hv' as [Hv' _]. destruct (IH Hnd Hv) as [t Ht].
  destruct (insert_all_inv es t Ht) as [_ Hf]. apply leaf_of_keys in Hf.
  destruct (insert_Ok t k d v Hv') as [t' Ht'].
  - rewrite Hf. intros Hin. apply (Hk _ Hin). csimpl. set_solver.
  - exists t'. rewrite foldM_app, Ht. simpl. by rewrite Ht'.
Qed.

Lemma leaf_of_sum ls es : Forall2 leaf_of ls es -> sum_of ls = foldr N.add 0 ((fun e => value e.2) <$> es).
Proof.
  induction 1 as [|l e ls es Hl _ IH]; [done|]. unfold sum_of in *. csimpl. destruct Hl as (_ & -> & _). by rewrite IH.
Qed.

Definition total_of (es : list entry) : N := foldr N.add 0 ((fun e => value e.2) <$> es).

(** What [build] does with the inserted entries. *)
Lemma build_spec es t : insert_all es = Ok t -> es <> [] ->
  (total_of es < 2 ^ 256 /\ exists n, build t = Ok {| root := n |} /\ node_ok 0 n /\ node_leaves n ≡ₚ leaves t) \/
  (2 ^ 256 <= total_of es /\ build t = Err (OutOfRange "RSMST internal sum exceeds 256 bits")).
Proof.
  intros Ht Hne. apply insert_all_inv in Ht as [Hnd Hf].
  assert (leaves t <> []) as Hlne by (intros E; rewrite E in Hf; by inversion Hf; subst).
  assert (build_good (leaves t) 0 (build_subtree 257 (leaves t) 0)) as G.
  { apply build_subtree_spec; [lia|simpl; lia|done|done|intros ????? Hi; lia|].
    apply Forall_forall. intros l Hl. apply list_elem_of_lookup in Hl as [i Hi].
    destruct (Forall2_lookup_l _ _ _ _ _ Hf Hi) as (e & _ & _ & -> & ? & _). done. }
  unfold build_good in G. rewrite (leaf_of_sum _ _ Hf) in G. unfold total_of, build.
  destruct (leaves t) as [|l0 ls0] eqn:El; [done|]. rewrite <- El in *.
  destruct G as [(Hs & n & -> & Hok & Hp)|(Hs & ->)]; [left|by right].
  split; [done|]. exists n. done.
Qed.

Lemma built_proofs es t n e : insert_all es = Ok t -> node_ok 0 n -> node_leaves n ≡ₚ leaves t -> e ∈ es ->
  value (n_sum n) = total_of es /\
  exists p, proof {| root := n |} (e.1.1) = Some p /\ verify p (e.1.1) (e.1.2) (e.2) (n_hash n) = Ok (n_sum n).
Proof.
  intros Ht Hok Hp He. apply insert_all_inv in Ht as [Hnd Hf]. split.
  - rewrite (node_sum _ _ Hok), (sum_of_Permutation _ _ Hp). by apply leaf_of_sum.
  - apply list_elem_of_lookup in He as [i Hi].
    destruct (Forall2_lookup_r _ _ _ _ _ Hf Hi) as (l & Hl & Hk & Hv & _ & Hh).
    destruct (built_proof_verifies n (e.1.2) l) as (p & Hpr & Hver); [done| | |done|].
    + by rewrite Hp.
    + rewrite Hp. by eapply list_elem_of_lookup_2.
    + rewrite Hk, Hv in *. eauto.
Qed.

(** A key that was not inserted has no proof. *)
Lemma built_no_proof n key : ~ key ∈ l_key <$> node_leaves n -> proof {| root := n |} key = None.
Proof.
  intros Hk. unfold proof. cbn [root]. rewrite proof_steps_eq. case_bool_decide as Eb; [|done].
  exfalso. apply Hk. rewrite <- Eb. apply list_elem_of_fmap_2, reached_in.
Qed.

(** * Order independence *)

Lemma existsb_Permutation {A} (f : A -> bool) l l' : l ≡ₚ l' -> existsb f l = existsb f l'.
Proof.
  intros Hp. apply eq_bool_prop_intro. rewrite !Is_true_true, !existsb_exists.
  split; intros (x & Hx & Hf); exists x; (split; [|done]); apply list_elem_of_In; apply list_elem_of_In in Hx;
    by (rewrite Hp || rewrite <- Hp).
Qed.

Lemma differs_Permutation (f : Leaf -> bool) l0 l1 ls ls' : ls ≡ₚ ls' -> l0 ∈ ls -> l1 ∈ ls' ->
  existsb (fun l => negb (Bool.eqb (f l) (f l0))) ls = existsb (fun l => negb (Bool.eqb (f l) (f l1))) ls'.
Proof.
  intros Hp H0' H1'. destruct (decide (f l0 = f l1)) as [E|E].
  - rewrite E. by apply existsb_Permutation.
  - transitivity true; [|symmetry]; apply existsb_exists; [exists l1|exists l0];
      (split; [apply list_elem_of_In; by (rewrite Hp || rewrite <- Hp)|]);
      destruct (f l0), (f l1); done.
Qed.

Lemma find_bifurcation_Permutation n : forall ls ls' d, ls ≡ₚ ls' ->
  find_bifurcation n ls d = find_bifurcation n ls' d.
Proof.
  induction n as [|n IH]; intros ls ls' d Hp; [done|]. cbn [find_bifurcation].
  destruct ls as [|l0 ls0]; destruct ls' as [|l1 ls1]; [done|..].
  - by apply Permutation_nil_l in Hp.
  - by apply Permutation_nil_r in Hp.
  - cbn [lookup list_lookup or_panic]. rewrite !bind_Ok_l.
    rewrite (differs_Permutation (fun l => key_bit (l_key l) (wrap 8 d)) l0 l1 _ _ Hp) by set_solver.
    case_match; [done|]. by apply IH.
Qed.

Lemma filter_Permutation' (P : Leaf -> Prop) `{forall l, Decision (P l)} ls ls' :
  ls ≡ₚ ls' -> filter P ls ≡ₚ filter P ls'.
Proof. intros Hp. by rewrite Hp. Qed.

Lemma build_subtree_Permutation fuel : forall ls ls' start, ls ≡ₚ ls' ->
  build_subtree fuel ls start = build_subtree fuel ls' start.
Proof.
  induction fuel as [|fuel IH]; intros ls ls' start Hp; pose proof (Permutation_length Hp) as Hl.
  - destruct ls as [|x0 [|]], ls' as [|x1 [|]]; try discriminate; try done.
    apply Permutation_length_1 in Hp as ->. done.
  - destruct (decide (length ls = 1%nat)) as [Hone|Hone].
    { destruct ls as [|x0 [|]], ls' as [|x1 [|]]; try discriminate.
      apply Permutation_length_1 in Hp as ->. done. }
    destruct (decide (length ls = 0%nat)) as [Hz|Hz].
    { destruct ls, ls'; try discriminate. done. }
    rewrite !build_subtree_S by lia. rewrite (find_bifurcation_Permutation _ _ _ _ Hp).
    destruct (find_bifurcation _ ls' start) as [p| |]; simpl; [|done..].
    rewrite (IH _ _ _ (filter_Permutation' (fun l => key_bit (l_key l) p = false) _ _ Hp)).
    rewrite (IH _ _ _ (filter_Permutation' (fun l => key_bit (l_key l) p = true) _ _ Hp)). done.
Qed.

(** The tree built does not depend on the order in which the leaves were
    inserted. *)
Theorem build_Permutation t t' : leaves t ≡ₚ leaves t' -> build t = build t'.
Proof.
  intros Hp. unfold build. rewrite (build_subtree_Permutation _ _ _ _ Hp).
  destruct (leaves t) eqn:E, (leaves t') eqn:E'; try done.
  - by apply Permutation_nil_l in Hp.
  - by apply Permutation_nil_r in Hp.
Qed.
End build.
