(* ===== verification/ShardId.v ===== *)
(** Shard identifiers: bit strings stored most significant bit first, with an
    end-marker byte encoding: [src/api/bft/shard_id.rs].

    The fields of [ShardId] are private; every constructor keeps the invariant
    [shard_ok] (as many bytes as the bits need, unused bits zero), so it is part
    of the type, and the byte indices of the operations are in range. The
    abstract view of an id is the list [to_bits] of its bits. *)

From S2P Require Import Prelude Bytes Error Hash Radix.
Local Open Scope N_scope.

#[export] Instance byte_inhabited : Inhabited byte := populate Byte.x00.

Record ShardBits : Type := { sbits : bytes; slength : N }.

(** [n.div_ceil(8)] *)
Definition div_ceil8 (n : N) : N := (n + 7) / 8.

Definition shard_ok (s : ShardBits) : bool :=
  (len (sbits s) =? div_ceil8 (slength s)) &&
  forallb (fun i => negb (kbit (sbits s) (slength s + N.of_nat i)))
    (seq 0 (N.to_nat (8 * len (sbits s) - slength s))).

Abbreviation ShardId := (sub shard_ok).

#[export] Instance ShardBits_eq_dec : EqDecision ShardBits.
Proof. solve_decision. Defined.

(** [(self.bits[i / 8] >> (7 - i % 8)) & 1] *)
Definition bit_value (bits : bytes) (i : N) : N :=
  N.land (N.shiftr (b2n (bits !!! N.to_nat (i / 8))) (7 - i mod 8)) 1.

(** ** Bits of bytes *)

Lemma testbit_n2b n j : j < 8 -> N.testbit (b2n (n2b n)) j = N.testbit n j.
Proof. intros Hj. rewrite b2n_n2b. change 256 with (2 ^ 8). by rewrite N.mod_pow2_bits_low. Qed.

Lemma kbit_past bits i : 8 * len bits <= i -> kbit bits i = false.
Proof.
  intros Hi. unfold kbit. destruct (bits !! N.to_nat (i / 8)) eqn:E; [|done].
  apply lookup_lt_Some in E. assert (len bits <= i / 8) by (apply N.div_le_lower_bound; lia).
  unfold len in *. lia.
Qed.

Lemma kbit_app a b i : kbit (a ++ b) i = if i <? 8 * len a then kbit a i else kbit b (i - 8 * len a).
Proof.
  unfold kbit. destruct (N.ltb_spec i (8 * len a)) as [Hi|Hi].
  - rewrite lookup_app_l; [done|]. assert (i / 8 < len a) by (apply N.Div0.div_lt_upper_bound; lia).
    unfold len in *. lia.
  - assert (len a <= i / 8) by (apply N.div_le_lower_bound; lia).
    assert (i = (i - 8 * len a) + len a * 8) as E by lia.
    assert (i / 8 = (i - 8 * len a) / 8 + len a) as E1 by (rewrite E at 1; by rewrite N.div_add).
    assert (i mod 8 = (i - 8 * len a) mod 8) as E2 by (rewrite E at 1; by rewrite N.Div0.mod_add).
    rewrite lookup_app_r by (unfold len in *; lia). rewrite E2.
    by replace (N.to_nat (i / 8) - length a)%nat with (N.to_nat ((i - 8 * len a) / 8)) by (unfold len in *; lia).
Qed.

Lemma kbit_single b i : kbit [b] i = (i <? 8) && N.testbit (b2n b) (7 - i).
Proof.
  unfold kbit. destruct (N.ltb_spec i 8).
  - by rewrite N.div_small, N.mod_small by done.
  - destruct ([b] !! _) eqn:E; [|done]. apply lookup_lt_Some in E. simpl in E.
    assert (1 <= i / 8) by (apply N.div_le_lower_bound; lia). lia.
Qed.

Lemma kbit_take bits n i : kbit (take n bits) i = (i <? 8 * N.of_nat n) && kbit bits i.
Proof.
  unfold kbit. destruct (N.ltb_spec i (8 * N.of_nat n)).
  - rewrite lookup_take_lt; [done|]. assert (i / 8 < N.of_nat n) by (apply N.Div0.div_lt_upper_bound; lia). lia.
  - rewrite lookup_take_ge; [done|]. assert (N.of_nat n <= i / 8) by (apply N.div_le_lower_bound; lia). lia.
Qed.

Lemma kbit_insert bits k b i : (k < length bits)%nat ->
  kbit (<[k := b]> bits) i = if i / 8 =? N.of_nat k then N.testbit (b2n b) (7 - i mod 8) else kbit bits i.
Proof.
  intros Hk. unfold kbit. destruct (N.eqb_spec (i / 8) (N.of_nat k)) as [E|E].
  - by rewrite E, Nat2N.id, list_lookup_insert_eq.
  - by rewrite list_lookup_insert_ne by lia.
Qed.

Lemma mod_2_b2n x : x mod 2 = N.b2n (x mod 2 =? 1).
Proof.
  pose proof (N.mod_upper_bound x 2 ltac:(lia)). generalize dependent (x mod 2). intros y Hy.
  by assert (y = 0 \/ y = 1) as [-> | ->] by lia.
Qed.

Lemma bit_value_kbit bits i : i < 8 * len bits -> bit_value bits i = N.b2n (kbit bits i).
Proof.
  intros Hi. unfold bit_value, kbit.
  assert (i / 8 < len bits) by (apply N.Div0.div_lt_upper_bound; lia).
  destruct (bits !! N.to_nat (i / 8)) as [b|] eqn:E; [|apply lookup_ge_None in E; unfold len in *; lia].
  rewrite (list_lookup_total_correct _ _ _ E).
  change 1 with (N.ones 1). rewrite N.land_ones, N.testbit_eqb, <- N.shiftr_div_pow2, N.pow_1_r.
  apply mod_2_b2n.
Qed.

(** ** The invariant *)

Lemma shard_ok_spec s : shard_ok s = true <->
  len (sbits s) = div_ceil8 (slength s) /\ forall i, slength s <= i -> kbit (sbits s) i = false.
Proof.
  unfold shard_ok. rewrite andb_true_iff, N.eqb_eq, forallb_forall. split; intros [Hl H]; (split; [done|]).
  - intros i Hi. destruct (N.lt_ge_cases i (8 * len (sbits s))) as [Hlt|]; [|by apply kbit_past].
    specialize (H (N.to_nat (i - slength s))). rewrite in_seq, negb_true_iff in H.
    replace (slength s + N.of_nat (N.to_nat (i - slength s))) with i in H by lia. apply H. lia.
  - intros i Hi. apply negb_true_iff, H. lia.
Qed.

Lemma div_ceil8_spec n : 8 * div_ceil8 n < n + 8 /\ n <= 8 * div_ceil8 n.
Proof. unfold div_ceil8. divmod_lia. Qed.

Lemma div_ceil8_eq n : div_ceil8 n = n / 8 + (if n mod 8 =? 0 then 0 else 1).
Proof.
  unfold div_ceil8. destruct (N.eqb_spec (n mod 8) 0) as [E|E]; divmod_lia.
Qed.

Lemma shard_bits_len (s : ShardId) : len (sbits (val s)) = div_ceil8 (slength (val s)).
Proof. by apply shard_ok_spec, (val_ok s). Qed.

Lemma shard_unused (s : ShardId) i : slength (val s) <= i -> kbit (sbits (val s)) i = false.
Proof. revert i. apply shard_ok_spec, (val_ok s). Qed.

(** The bits of an id. *)
Definition to_bits (s : ShardBits) : list bool :=
  (fun i => kbit (sbits s) (N.of_nat i)) <$> seq 0 (N.to_nat (slength s)).

Lemma length_to_bits s : length (to_bits s) = N.to_nat (slength s).
Proof. unfold to_bits. by rewrite length_fmap, length_seq. Qed.

Lemma lookup_to_bits s i : i < slength s -> to_bits s !! N.to_nat i = Some (kbit (sbits s) i).
Proof.
  intros Hi. unfold to_bits. rewrite list_lookup_fmap, lookup_seq_lt by lia. simpl. by rewrite N2Nat.id.
Qed.

(** An id is its list of bits. *)
Lemma to_bits_inj (s t : ShardId) : to_bits (val s) = to_bits (val t) -> s = t.
Proof.
  intros E. assert (slength (val s) = slength (val t)) as El.
  { apply (f_equal length) in E. rewrite !length_to_bits in E. lia. }
  apply val_inj. destruct (val s) as [bs ls] eqn:Es, (val t) as [bt lt] eqn:Et. simpl in El. subst lt. f_equal.
  pose proof (shard_bits_len s) as Ls. pose proof (shard_bits_len t) as Lt.
  rewrite Es in Ls. rewrite Et in Lt. simpl in Ls, Lt. apply kbit_ext; [unfold len in *; lia|].
  intros i _. destruct (N.lt_ge_cases i ls) as [Hi|Hi].
  - pose proof (lookup_to_bits (val s) i) as H1. pose proof (lookup_to_bits (val t) i) as H2.
    rewrite Es, Et in *. rewrite E in H1. specialize (H1 Hi). specialize (H2 Hi). simpl in *; congruence.
  - pose proof (shard_unused s i) as H1. pose proof (shard_unused t i) as H2. rewrite Es in H1. rewrite Et in H2.
    simpl in *; rewrite H1, H2; done.
Qed.

(** * Operations *)

(** [ShardId::length] is the projection [slength]. *)

Lemma root_ok : shard_ok {| sbits := []; slength := 0 |} = true.
Proof. reflexivity. Qed.
Definition root : ShardId := Sub {| sbits := []; slength := 0 |} root_ok.

(** [ShardId::prefix] returns [Some] of these bytes when the length allows. *)
Definition prefix_bits (bits : bytes) (length : N) : bytes :=
  let bits := take (N.to_nat (div_ceil8 length)) bits in
  if negb (length mod 8 =? 0) then
    match last bits with
    | Some b => <[Nat.pred (List.length bits) := n2b (N.land (b2n b) (N.shiftl 0xff (8 - length mod 8) mod 256))]> bits
    | None => bits
    end
  else bits.

(** The children, [0] first. *)
Definition zero_bits (s : ShardBits) : bytes :=
  if slength s mod 8 =? 0 then sbits s ++ [n2b 0] else sbits s.

Definition one_bits (s : ShardBits) : bytes :=
  let zero := zero_bits s in
  match last zero with
  | Some b => <[Nat.pred (length zero) := n2b (N.lor (b2n b) (N.shiftl 1 (7 - slength s mod 8)))]> zero
  | None => zero
  end.

(** [ShardId::sibling] of a non-empty id *)
Definition sibling_bits (s : ShardBits) : bytes :=
  let last := N.to_nat ((slength s - 1) / 8) in
  <[last := n2b (N.lxor (b2n (sbits s !!! last)) (N.shiftl 1 (7 - (slength s - 1) mod 8)))]> (sbits s).

(** The loop of [canonical_cmp] and [cmp_prefix_of_key]. *)
Fixpoint cmp_loop (n : nat) (i : N) (a b : N -> N) : comparison :=
  match n with
  | O => Eq
  | S n' => if a i =? b i then cmp_loop n' (i + 1) a b else a i ?= b i
  end.

Definition canonical_cmp (s t : ShardId) : comparison :=
  match cmp_loop (N.to_nat (N.min (slength (val s)) (slength (val t)))) 0
    (bit_value (sbits (val s))) (bit_value (sbits (val t))) with
  | Eq => slength (val s) ?= slength (val t)
  | c => c
  end.

(** Bytes of [key] past its end read as zero. *)
Definition key_bit_value (key : bytes) (i : N) : N :=
  match key !! N.to_nat (i / 8) with
  | Some k => N.land (N.shiftr (b2n k) (7 - i mod 8)) 1
  | None => 0
  end.

Definition cmp_prefix_of_key (s : ShardId) (key : bytes) : comparison :=
  cmp_loop (N.to_nat (slength (val s))) 0 (bit_value (sbits (val s))) (key_bit_value key).

Definition get_bit (s : ShardId) (index : N) : result N :=
  if slength (val s) <=? index then Err (OutOfRange "ShardId bit index out of bounds")
  else Ok (bit_value (sbits (val s)) index).

Definition is_prefix_of (s : ShardId) (data : bytes) : bool :=
  let full_bytes := N.to_nat (slength (val s) / 8) in
  let remaining_bits := slength (val s) mod 8 in
  if (length data <? full_bytes)%nat then false else
  if negb (bool_decide (take full_bytes (sbits (val s)) = take full_bytes data)) then false else
  if 0 <? remaining_bits then
    match data !! full_bytes with
    | None => false
    | Some db =>
        let mask := N.shiftl 0xff (8 - remaining_bits) mod 256 in
        N.land (b2n (sbits (val s) !!! full_bytes)) mask =? N.land (b2n db) mask
    end
  else true.

Definition is_prefix_of_shard (s t : ShardId) : bool :=
  (slength (val s) <=? slength (val t)) && is_prefix_of s (sbits (val t)).

(** [decode]: the loop over [i] from 8 down to 1 looks for the end marker; [init]
    are the bytes before the last one. *)
Fixpoint decode_loop (i : nat) (last_byte : N) (init : bytes) : result ShardBits :=
  match i with
  | O => Err (UnexpectedValue "ShardId missing end marker")
  | S i' =>
      if N.land last_byte 1 =? 1 then
        if Nat.eqb i 1 then Ok {| sbits := init; slength := len init * 8 |}
        else Ok {| sbits := init ++ [n2b (N.shiftl (N.shiftr last_byte 1) (8 - N.of_nat i + 1))];
                   slength := len init * 8 + N.of_nat i - 1 |}
      else decode_loop i' (N.shiftr last_byte 1) init
  end.

(** [mk_sub] succeeds on whatever the loop returns ([decode_loop_ok]). *)
Definition decode (data : bytes) : result ShardId :=
  last_byte ← ok_or (UnexpectedValue "empty ShardId") (last data);
  s ← decode_loop 8 (b2n last_byte) (take (Nat.pred (length data)) data);
  or_panic (mk_sub s).

Definition encode (s : ShardId) : bytes :=
  let byte_count := N.to_nat (slength (val s) / 8) in
  let bit_count := slength (val s) mod 8 in
  take byte_count (sbits (val s)) ++
  [if bit_count =? 0 then n2b 0x80 else
   let v := N.land (b2n (sbits (val s) !!! byte_count)) (N.lxor 0xff (N.shiftr 0xff bit_count)) in
   n2b (N.lor v (N.shiftl 1 (7 - bit_count)))].

(** ** End-marker encoding *)

(** The byte that closes the encoding of an id whose last, partial byte is [x]
    with [n] used bits. *)
Definition marker (x n : N) : byte :=
  if n =? 0 then n2b 0x80
  else n2b (N.lor (N.land x (N.lxor 0xff (N.shiftr 0xff n))) (N.shiftl 1 (7 - n))).

Lemma encode_marker s : encode s =
  take (N.to_nat (slength (val s) / 8)) (sbits (val s)) ++
  [marker (b2n (sbits (val s) !!! N.to_nat (slength (val s) / 8))) (slength (val s) mod 8)].
Proof. reflexivity. Qed.

(** Decided by evaluating the loop on every byte: what it returns is an id of
    fewer than eight bits whose marker byte is the input. *)
Definition marker_check (b : byte) : bool :=
  match decode_loop 8 (b2n b) [] with
  | Ok s => shard_ok s && (slength s <? 8) &&
      bool_decide (marker (b2n (sbits s !!! 0%nat)) (slength s) = b)
  | Err _ => b2n b =? 0
  | Panic => false
  end.

Lemma marker_check_all b : marker_check b = true.
Proof. apply byte_forall. vm_compute. reflexivity. Qed.

(** Conversely, decoding the marker byte of a partial byte without stray bits. *)
Definition partial_check (b : byte) (n : N) : bool :=
  let s := {| sbits := if n =? 0 then [] else [b]; slength := n |} in
  if shard_ok s then bool_decide (to_option (decode_loop 8 (b2n (marker (b2n b) n)) []) = Some s) else true.

Lemma partial_check_all b n : n < 8 -> partial_check b n = true.
Proof.
  intros Hn. refine (seqN_forall (fun n => partial_check b n) 8 _ n Hn).
  refine (byte_forall (fun b => forallb (fun i => partial_check b (N.of_nat i)) (seq 0 8)) _ b).
  vm_compute. reflexivity.
Qed.

Lemma decode_loop_init i : forall b init,
  decode_loop i b init =
  match decode_loop i b [] with
  | Ok s => Ok {| sbits := init ++ sbits s; slength := len init * 8 + slength s |}
  | Err e => Err e
  | Panic => Panic
  end.
Proof.
  induction i as [|i IH]; intros b init; [done|]. cbn [decode_loop].
  destruct (N.land b 1 =? 1); [|apply IH].
  destruct (Nat.eqb_spec (S i) 1); cbn [sbits slength]; rewrite (@len_nil byte).
  - rewrite app_nil_r. do 2 f_equal. lia.
  - do 2 f_equal. lia.
Qed.

Lemma shard_ok_app init s : shard_ok s = true ->
  shard_ok {| sbits := init ++ sbits s; slength := len init * 8 + slength s |} = true.
Proof.
  rewrite !shard_ok_spec. cbn [sbits slength]. intros [Hl Hu]. split.
  - rewrite len_app, Hl. unfold div_ceil8. divmod_lia.
  - intros i Hi. rewrite kbit_app. destruct (N.ltb_spec i (8 * len init)); [lia|]. apply Hu. lia.
Qed.

Lemma last_take (data : bytes) b : last data = Some b -> data = take (Nat.pred (length data)) data ++ [b].
Proof.
  intros Hl. destruct (exists_last (l := data)) as (l & x & ->); [by intros ->|].
  rewrite last_snoc in Hl. injection Hl as ->. rewrite length_app, Nat.add_1_r. simpl.
  by rewrite take_app_length.
Qed.

Lemma decode_inv data s : decode data = Ok s -> encode s = data.
Proof.
  unfold decode. intros E. inv_ok. rename a into b. apply last_take in E0 as Hd.
  set (init := take _ data) in *. pose proof (marker_check_all b) as Hm. unfold marker_check in Hm.
  rewrite decode_loop_init in E1. destruct (decode_loop 8 (b2n b) []) as [s0| |]; [|done..].
  injection E1 as <-. apply mk_sub_Some in E. rewrite !andb_true_iff, bool_decide_eq_true, N.ltb_lt in Hm.
  destruct Hm as [[Hok Hlt] Hm]. rewrite encode_marker, E. cbn [sbits slength].
  assert ((len init * 8 + slength s0) / 8 = len init) as Eq by (rewrite N.div_add_l, N.div_small by lia; lia).
  assert ((len init * 8 + slength s0) mod 8 = slength s0) as Er by
    (rewrite N.add_comm, N.Div0.mod_add; by apply N.mod_small).
  rewrite Eq, Er. assert (N.to_nat (len init) = length init) as -> by (unfold len; lia).
  rewrite take_app_length, Hd at 1. do 2 f_equal. rewrite <- Hm. f_equal. f_equal.
  by rewrite lookup_total_app_r, Nat.sub_diag by lia.
Qed.

(** The bytes of an id: the full ones and, if bits are left, the partial one. *)
Lemma shard_bytes (s : ShardId) :
  let q := slength (val s) / 8 in let n := slength (val s) mod 8 in
  sbits (val s) = take (N.to_nat q) (sbits (val s)) ++
    (if n =? 0 then [] else [sbits (val s) !!! N.to_nat q]) /\
  length (take (N.to_nat q) (sbits (val s))) = N.to_nat q.
Proof.
  intros q n. pose proof (shard_bits_len s) as Hl.
  assert (len (sbits (val s)) = q + (if n =? 0 then 0 else 1)) as Hlen.
  { rewrite Hl. apply div_ceil8_eq. }
  assert (length (take (N.to_nat q) (sbits (val s))) = N.to_nat q) as Ht.
  { rewrite length_take. unfold len in Hlen. destruct (n =? 0); lia. }
  split; [|done]. destruct (N.eqb_spec n 0).
  - rewrite app_nil_r, take_ge; [done|]. unfold len in Hlen. lia.
  - destruct (sbits (val s) !! N.to_nat q) as [b|] eqn:Eb.
    + rewrite (list_lookup_total_correct _ _ _ Eb), <- (take_S_r _ _ _ Eb), take_ge; [done|].
      unfold len in Hlen. lia.
    + apply lookup_ge_None in Eb. unfold len in Hlen. lia.
Qed.

Lemma partial_ok (s : ShardId) :
  let q := slength (val s) / 8 in let n := slength (val s) mod 8 in
  shard_ok {| sbits := if n =? 0 then [] else [sbits (val s) !!! N.to_nat q]; slength := n |} = true.
Proof.
  intros q n. assert (n < 8) as Hn by (apply N.mod_upper_bound; lia).
  pose proof (N.div_mod (slength (val s)) 8 ltac:(lia)) as Hqn. fold q n in Hqn.
  apply shard_ok_spec. cbn [sbits slength]. destruct (N.eqb_spec n 0) as [->|Hz]; [split; [done|by intros]|].
  split; [unfold div_ceil8; change (len [_]) with 1; divmod_lia|]. intros i Hi.
  destruct (shard_bytes s) as [Hb Hl]. fold q n in Hb, Hl. apply N.eqb_neq in Hz. rewrite Hz in Hb.
  pose proof (shard_unused s (8 * q + i) ltac:(lia)) as Hu. rewrite Hb, kbit_app in Hu.
  assert (len (take (N.to_nat q) (sbits (val s))) = q) as Hq by (unfold len; lia). rewrite Hq in Hu.
  destruct (N.ltb_spec (8 * q + i) (8 * q)); [lia|]. by replace (8 * q + i - 8 * q) with i in Hu by lia.
Qed.

Lemma decode_encode s : decode (encode s) = Ok s.
Proof.
  destruct (shard_bytes s) as [Hb Hl]. pose proof (partial_ok s) as Hok. cbn zeta in *.
  rewrite encode_marker. set (q := slength (val s) / 8) in *. set (n := slength (val s) mod 8) in *.
  set (b := sbits (val s) !!! N.to_nat q) in *. set (init := take (N.to_nat q) (sbits (val s))) in *.
  unfold decode. rewrite last_snoc. cbn [ok_or]. rewrite bind_Ok_l.
  rewrite length_app, Nat.add_1_r. cbn [Nat.pred]. rewrite take_app_length.
  assert (n < 8) as Hn by (apply N.mod_upper_bound; lia).
  pose proof (partial_check_all b n Hn) as Hp. unfold partial_check in Hp. rewrite Hok in Hp.
  apply bool_decide_eq_true in Hp. rewrite decode_loop_init.
  destruct (decode_loop 8 _ []) as [s0| |]; [|done..]. injection Hp as ->. cbn [sbits slength].
  rewrite bind_Ok_l. assert ({| sbits := init ++ (if n =? 0 then [] else [b]); slength := len init * 8 + n |} = val s) as ->.
  { rewrite <- Hb. pose proof (N.div_mod (slength (val s)) 8 ltac:(lia)) as Hqn. fold q n in Hqn.
    replace (len init * 8 + n) with (slength (val s)) by (unfold len; lia). by destruct (val s). }
  by rewrite mk_sub_val.
Qed.

Lemma decode_loop_ok b s : decode_loop 8 (b2n b) [] = Ok s -> shard_ok s = true.
Proof.
  intros E. pose proof (marker_check_all b) as Hm. unfold marker_check in Hm. rewrite E in Hm.
  rewrite !andb_true_iff in Hm. tauto.
Qed.

Lemma decode_no_panic data : no_panic (decode data).
Proof.
  unfold decode. destruct (last data) as [b|]; [|done]. cbn [ok_or]. rewrite bind_Ok_l, decode_loop_init.
  destruct (decode_loop 8 (b2n b) []) as [s| |] eqn:E; [|done|].
  - apply decode_loop_ok in E. rewrite bind_Ok_l. destruct (mk_sub _) eqn:E2; [done|].
    apply mk_sub_None in E2. by rewrite shard_ok_app in E2.
  - pose proof (marker_check_all b) as Hm. unfold marker_check in Hm. by rewrite E in Hm.
Qed.

(** ** Prefixes *)

Lemma kbit_lookup bits q j b : bits !! N.to_nat q = Some b -> j < 8 ->
  kbit bits (8 * q + j) = N.testbit (b2n b) (7 - j).
Proof.
  intros Hb Hj. unfold kbit.
  replace ((8 * q + j) / 8) with q by (apply N.div_unique with j; lia).
  replace ((8 * q + j) mod 8) with j by (apply N.mod_unique with q; lia). by rewrite Hb.
Qed.

Lemma mask_agree a b r : r < 8 -> 0 < r ->
  N.land (b2n a) (N.shiftl 0xff (8 - r) mod 256) = N.land (b2n b) (N.shiftl 0xff (8 - r) mod 256) <->
  forall j, j < r -> N.testbit (b2n a) (7 - j) = N.testbit (b2n b) (7 - j).
Proof.
  intros Hr Hr0. split.
  - intros E j Hj. pose proof (mask_testbit a r j ltac:(lia) ltac:(lia)) as Ha.
    pose proof (mask_testbit b r j ltac:(lia) ltac:(lia)) as Hb. rewrite E, Hb in Ha.
    destruct (N.ltb_spec j r); [done|lia].
  - intros H. assert (n2b (N.land (b2n a) (N.shiftl 0xff (8 - r) mod 256)) =
      n2b (N.land (b2n b) (N.shiftl 0xff (8 - r) mod 256))) as E.
    { assert (forall x y, (forall j, j < 8 -> N.testbit (b2n x) (7 - j) = N.testbit (b2n y) (7 - j)) -> x = y) as G.
      { intros x y Hxy. assert ([x] = [y]) as [=]; [|done]. apply kbit_ext; [done|]. intros i Hi.
        rewrite !kbit_single. change (len [x]) with 1 in Hi. rewrite Hxy by lia. done. }
      apply G. intros j Hj. rewrite !mask_testbit by lia. destruct (N.ltb_spec j r); [by rewrite H|done]. }
    apply (f_equal b2n) in E.
    assert (forall x, N.land (b2n x) (N.shiftl 0xff (8 - r) mod 256) < 256) as G.
    { intros x. eapply N.le_lt_trans; [|apply (b2n_bound x)]. apply N.ldiff_le, N.bits_inj. intros k.
      rewrite N.ldiff_spec, N.land_spec, N.bits_0. by destruct (N.testbit (b2n x) k); rewrite ?andb_false_r. }
    by rewrite !b2n_n2b_small in E by apply G.
Qed.

Lemma take_agree (a b : bytes) q : (q <= length a)%nat -> (q <= length b)%nat ->
  take q a = take q b <-> forall i, i < 8 * N.of_nat q -> kbit a i = kbit b i.
Proof.
  intros Ha Hb. split.
  - intros E i Hi. pose proof (kbit_take a q i) as H1. pose proof (kbit_take b q i) as H2.
    rewrite E in H1. destruct (N.ltb_spec i (8 * N.of_nat q)); [|lia]. simpl in *. congruence.
  - intros H. apply kbit_ext; [rewrite !length_take; lia|]. intros i Hi. unfold len in Hi.
    rewrite length_take in Hi. rewrite !kbit_take. destruct (N.ltb_spec i (8 * N.of_nat q)); [|done].
    simpl. apply H. lia.
Qed.

(** [is_prefix_of] compares bits, and rejects data that is too short. *)
Lemma is_prefix_of_spec s data : is_prefix_of s data = true <->
  slength (val s) <= 8 * len data /\ forall i, i < slength (val s) -> kbit (sbits (val s)) i = kbit data i.
Proof.
  unfold is_prefix_of. pose proof (N.div_mod (slength (val s)) 8 ltac:(lia)) as Hqn.
  pose proof (N.mod_upper_bound (slength (val s)) 8 ltac:(lia)) as Hr.
  destruct (shard_bytes s) as [Hb Hl]. cbn zeta in *. pose proof (shard_bits_len s) as Hlen. rewrite div_ceil8_eq in Hlen.
  set (L := slength (val s)) in *. set (q := L / 8) in *. set (r := L mod 8) in *.
  assert (N.to_nat q <= length (sbits (val s)))%nat as Hq by (rewrite <- Hl, length_take; lia).
  destruct (Nat.ltb_spec (length data) (N.to_nat q)) as [Hd|Hd].
  { split; [done|]. intros [H _]. unfold len in H. lia. }
  destruct (bool_decide _) eqn:Et; simpl negb; cbv iota; cycle 1.
  { split; [done|]. intros [_ H]. apply bool_decide_eq_false in Et. destruct Et.
    apply take_agree; [done..|]. intros i Hi. apply H. lia. }
  apply bool_decide_eq_true in Et. rewrite take_agree in Et by done.
  destruct (N.ltb_spec 0 r) as [Hr0|Hr0]; cycle 1.
  { split; [|done]. intros _. split; [unfold len; lia|]. intros i Hi. apply Et. lia. }
  destruct (data !! N.to_nat q) as [db|] eqn:Edb; cycle 1.
  { apply lookup_ge_None in Edb. split; [done|]. intros [H _]. unfold len in H. lia. }
  destruct (sbits (val s) !! N.to_nat q) as [sb|] eqn:Esb; cycle 1.
  { apply lookup_ge_None in Esb. destruct (N.eqb_spec r 0); [lia|]. unfold len in Hlen. lia. }
  rewrite (list_lookup_total_correct _ _ _ Esb), N.eqb_eq, mask_agree by done.
  apply lookup_lt_Some in Edb as Hdb. split.
  - intros H. split; [unfold len; lia|]. intros i Hi. destruct (N.lt_ge_cases i (8 * q)); [apply Et; lia|].
    replace i with (8 * q + (i - 8 * q)) by lia.
    rewrite (kbit_lookup _ _ _ _ Esb), (kbit_lookup _ _ _ _ Edb) by lia. apply H. lia.
  - intros [_ H] j Hj. rewrite <- (kbit_lookup _ q _ _ Esb), <- (kbit_lookup _ q _ _ Edb) by lia. apply H. lia.
Qed.
