(* ===== verification/ShardOps.v ===== *)
(** Derived shard ids and the two orders of [src/api/bft/shard_id.rs], seen as
    bit strings: [prefix], [split] and [sibling] act on [to_bits] as expected,
    [canonical_cmp] is the lexicographic order and [cmp_prefix_of_key] places an
    id against the first bits of a key. *)

From S2P Require Import Prelude Bytes Error Radix ShardId.
Local Open Scope N_scope.

(** ** Operations

    The bytes are those of [ShardId.v]; [mk_sub] succeeds on them ([prefix_spec],
    [sibling_spec]). *)

Definition prefix (s : ShardId) (length : N) : option ShardId :=
  if slength (val s) <? length then None
  else mk_sub {| sbits := prefix_bits (sbits (val s)) length; slength := length |}.

Definition sibling (s : ShardId) : option ShardId :=
  if slength (val s) =? 0 then None
  else mk_sub {| sbits := sibling_bits (val s); slength := slength (val s) |}.

(** ** The bits of the results *)

Lemma kbit_eq bits i : kbit bits i =
  match bits !! N.to_nat (i / 8) with Some b => N.testbit (b2n b) (7 - i mod 8) | None => false end.
Proof. reflexivity. Qed.

Lemma last_lookup_pred {A} (l : list A) : last l = l !! Nat.pred (length l).
Proof. apply last_lookup. Qed.

Lemma length_shard_bits (s : ShardId) : N.of_nat (length (sbits (val s))) = div_ceil8 (slength (val s)).
Proof. pose proof (shard_bits_len s). unfold len in *. lia. Qed.

Lemma kbit_prefix bits n i : n <= 8 * len bits -> kbit (prefix_bits bits n) i = (i <? n) && kbit bits i.
Proof.
  intros Hn. unfold prefix_bits. pose proof (div_ceil8_eq n) as Hc.
  pose proof (N.div_mod n 8 ltac:(lia)) as Hqn. pose proof (N.mod_upper_bound n 8 ltac:(lia)) as Hr.
  assert (N.to_nat (div_ceil8 n) <= length bits)%nat as Hl.
  { destruct (div_ceil8_spec n). unfold len in Hn. lia. }
  destruct (N.eqb_spec (n mod 8) 0) as [Hz|Hz]; cbn [negb].
  - rewrite kbit_take. do 2 f_equal. rewrite Hc. lia.
  - rewrite last_lookup_pred, !length_take, Nat.min_l by lia.
    assert (Nat.pred (N.to_nat (div_ceil8 n)) = N.to_nat (n / 8)) as -> by lia.
    rewrite lookup_take_lt by lia.
    destruct (bits !! N.to_nat (n / 8)) as [b|] eqn:Eb; [|apply lookup_ge_None in Eb; lia].
    rewrite kbit_insert by (rewrite length_take; lia).
    destruct (N.eqb_spec (i / 8) (N.of_nat (N.to_nat (n / 8)))) as [Ei|Ei].
    + rewrite mask_testbit by divmod_lia. rewrite (kbit_eq bits), Ei, Nat2N.id, Eb. f_equal.
      apply eq_true_iff_eq. rewrite !N.ltb_lt. divmod_lia.
    + rewrite kbit_take. destruct (N.ltb_spec i n), (N.ltb_spec i (8 * N.of_nat (N.to_nat (div_ceil8 n)))); try done;
        exfalso; divmod_lia.
Qed.

Lemma length_prefix_bits bits n : n <= 8 * len bits -> len (prefix_bits bits n) = div_ceil8 n.
Proof.
  intros Hn. destruct (div_ceil8_spec n). unfold prefix_bits, len in *.
  destruct (negb _); [destruct (last _)|]; rewrite ?length_insert, length_take; lia.
Qed.

Lemma kbit_zero (s : ShardId) i : kbit (zero_bits (val s)) i = kbit (sbits (val s)) i.
Proof.
  unfold zero_bits. destruct (N.eqb_spec (slength (val s) mod 8) 0) as [Hz|]; [|done].
  rewrite kbit_app. destruct (N.ltb_spec i (8 * len (sbits (val s)))); [done|].
  rewrite kbit_single, (kbit_past _ i) by done. change (b2n (n2b 0)) with 0. by rewrite N.bits_0, andb_false_r.
Qed.

Lemma zero_bits_last (s : ShardId) :
  Nat.pred (length (zero_bits (val s))) = N.to_nat (slength (val s) / 8) /\
  len (zero_bits (val s)) = div_ceil8 (slength (val s) + 1) /\ (0 < length (zero_bits (val s)))%nat.
Proof.
  pose proof (length_shard_bits s) as Hl. unfold zero_bits, div_ceil8, len in *.
  destruct (N.eqb_spec (slength (val s) mod 8) 0) as [Hz|Hz].
  - rewrite length_app. cbn [length]. split; [divmod_lia|]. split; [divmod_lia|lia].
  - split; [divmod_lia|]. split; divmod_lia.
Qed.

Lemma testbit_n2b_lor b k j : k < 8 -> j < 8 ->
  N.testbit (b2n (n2b (N.lor (b2n b) (N.shiftl 1 (7 - k))))) (7 - j) = N.testbit (b2n b) (7 - j) || (j =? k).
Proof.
  intros Hk Hj. rewrite testbit_n2b by lia. rewrite N.lor_spec, N.shiftl_1_l, N.pow2_bits_eqb. f_equal.
  apply eq_true_iff_eq. rewrite !N.eqb_eq. lia.
Qed.

Lemma testbit_n2b_lxor b k j : k < 8 -> j < 8 ->
  N.testbit (b2n (n2b (N.lxor (b2n b) (N.shiftl 1 (7 - k))))) (7 - j) = xorb (N.testbit (b2n b) (7 - j)) (j =? k).
Proof.
  intros Hk Hj. rewrite testbit_n2b by lia. rewrite N.lxor_spec, N.shiftl_1_l, N.pow2_bits_eqb. f_equal.
  apply eq_true_iff_eq. rewrite !N.eqb_eq. lia.
Qed.

Lemma kbit_one (s : ShardId) i : kbit (one_bits (val s)) i = kbit (sbits (val s)) i || (i =? slength (val s)).
Proof.
  unfold one_bits. destruct (zero_bits_last s) as (Hp & Hl & Hpos).
  rewrite last_lookup_pred. destruct (zero_bits (val s) !! _) as [b|] eqn:Eb; [|apply lookup_ge_None in Eb; lia].
  rewrite kbit_insert by lia. rewrite Hp in Eb |- *. rewrite N2Nat.id.
  destruct (N.eqb_spec (i / 8) (slength (val s) / 8)) as [Ei|Ei].
  - rewrite testbit_n2b_lor by (apply N.mod_upper_bound; lia).
    rewrite <- kbit_zero, kbit_eq, Ei, Eb. f_equal. apply eq_true_iff_eq. rewrite !N.eqb_eq. divmod_lia.
  - rewrite kbit_zero. destruct (N.eqb_spec i (slength (val s))) as [->|]; [done|]. by rewrite orb_false_r.
Qed.

Lemma kbit_sibling (s : ShardId) i : 0 < slength (val s) ->
  kbit (sibling_bits (val s)) i = xorb (kbit (sbits (val s)) i) (i =? slength (val s) - 1).
Proof.
  intros Hs. unfold sibling_bits. pose proof (length_shard_bits s) as Hl. unfold div_ceil8 in Hl.
  assert (N.to_nat ((slength (val s) - 1) / 8) < length (sbits (val s)))%nat as Hi by divmod_lia.
  destruct (lookup_lt_is_Some_2 _ _ Hi) as [b Eb]. rewrite (list_lookup_total_correct _ _ _ Eb).
  rewrite kbit_insert by done. rewrite N2Nat.id.
  destruct (N.eqb_spec (i / 8) ((slength (val s) - 1) / 8)) as [Ei|Ei].
  - rewrite testbit_n2b_lxor by (apply N.mod_upper_bound; lia).
    rewrite (kbit_eq (sbits (val s))), Ei, Eb. f_equal. apply eq_true_iff_eq. rewrite !N.eqb_eq. divmod_lia.
  - destruct (N.eqb_spec i (slength (val s) - 1)) as [->|]; [done|]. by rewrite xorb_false_r.
Qed.

Lemma zero_ok (s : ShardId) : shard_ok {| sbits := zero_bits (val s); slength := slength (val s) + 1 |} = true.
Proof.
  apply shard_ok_spec. cbn [sbits slength]. split; [apply zero_bits_last|]. intros i Hi.
  rewrite kbit_zero. apply shard_unused. lia.
Qed.

Lemma one_ok (s : ShardId) : shard_ok {| sbits := one_bits (val s); slength := slength (val s) + 1 |} = true.
Proof.
  apply shard_ok_spec. cbn [sbits slength]. destruct (zero_bits_last s) as (Hp & Hl & Hpos). split.
  - unfold one_bits, len in *. destruct (last _); [by rewrite length_insert|done].
  - intros i Hi. rewrite kbit_one, shard_unused by lia. apply N.eqb_neq. lia.
Qed.

Definition split (s : ShardId) : ShardId * ShardId := (Sub _ (zero_ok s), Sub _ (one_ok s)).

(** ** Bit strings *)

Abbreviation bits_of s := (to_bits (val s)).
Abbreviation paths l := ((fun s : ShardId => bits_of s) <$> l).

Lemma lookup_bits_of (s : ShardId) (i : nat) :
  bits_of s !! i = if (N.of_nat i <? slength (val s)) then Some (kbit (sbits (val s)) (N.of_nat i)) else None.
Proof.
  destruct (N.ltb_spec (N.of_nat i) (slength (val s))) as [Hi|Hi].
  - by rewrite <- (lookup_to_bits _ _ Hi), Nat2N.id.
  - apply lookup_ge_None. rewrite length_to_bits. lia.
Qed.

Lemma len_bits_of (s : ShardId) : len (bits_of s) = slength (val s).
Proof. unfold len. rewrite length_to_bits. lia. Qed.

Lemma root_bits : bits_of root = [].
Proof. reflexivity. Qed.

Lemma prefix_spec (s : ShardId) (n : nat) : (n <= length (bits_of s))%nat ->
  exists p, prefix s (N.of_nat n) = Some p /\ bits_of p = take n (bits_of s).
Proof.
  rewrite length_to_bits. intros Hn. unfold prefix. destruct (N.ltb_spec (slength (val s)) (N.of_nat n)); [lia|].
  pose proof (div_ceil8_spec (slength (val s))) as [_ Hc]. rewrite <- shard_bits_len in Hc.
  destruct (mk_sub _) as [p|] eqn:Ep.
  - exists p. split; [done|]. apply mk_sub_Some in Ep. apply list_eq. intros i. rewrite lookup_bits_of, Ep.
    cbn [sbits slength]. rewrite lookup_take, lookup_bits_of, kbit_prefix by lia.
    destruct (decide (i < n)%nat); destruct (N.ltb_spec (N.of_nat i) (N.of_nat n)); try lia; [|done].
    by destruct (N.ltb_spec (N.of_nat i) (slength (val s))); [|lia].
  - apply mk_sub_None in Ep. assert (shard_ok {| sbits := prefix_bits (sbits (val s)) (N.of_nat n); slength := N.of_nat n |} = true);
      [|congruence]. apply shard_ok_spec. cbn [sbits slength]. split; [apply length_prefix_bits; lia|].
    intros i Hi. rewrite kbit_prefix by lia. by destruct (N.ltb_spec i (N.of_nat n)); [lia|].
Qed.

Lemma split_spec (s : ShardId) :
  bits_of (fst (split s)) = bits_of s ++ [false] /\ bits_of (snd (split s)) = bits_of s ++ [true].
Proof.
  assert (forall (t : ShardId) (b : bool), slength (val t) = slength (val s) + 1 ->
    (forall i, kbit (sbits (val t)) i = kbit (sbits (val s)) i || (b && (i =? slength (val s)))) ->
    bits_of t = bits_of s ++ [b]) as G.
  { intros t b Hl Hb. apply list_eq. intros i. rewrite lookup_bits_of, Hl, Hb.
    destruct (decide (i < length (bits_of s))%nat) as [Hi|Hi]; rewrite length_to_bits in Hi.
    - rewrite lookup_app_l by (rewrite length_to_bits; lia). rewrite lookup_bits_of.
      destruct (N.ltb_spec (N.of_nat i) (slength (val s) + 1)), (N.ltb_spec (N.of_nat i) (slength (val s))); try lia.
      destruct (N.eqb_spec (N.of_nat i) (slength (val s))); [lia|]. by rewrite andb_false_r, orb_false_r.
    - rewrite lookup_app_r by (rewrite length_to_bits; lia). rewrite length_to_bits.
      destruct (N.ltb_spec (N.of_nat i) (slength (val s) + 1)).
      + assert (i = N.to_nat (slength (val s))) as -> by lia. rewrite Nat.sub_diag, N2Nat.id, shard_unused by lia.
        by rewrite N.eqb_refl, andb_true_r.
      + symmetry. apply lookup_ge_None. simpl. lia. }
  split; apply G; try reflexivity; intros i; simpl.
  - by rewrite kbit_zero, orb_false_r.
  - apply kbit_one.
Qed.

Lemma sibling_spec (s : ShardId) :
  match bits_of s with
  | [] => sibling s = None
  | _ => exists t l b, sibling s = Some t /\ bits_of s = l ++ [b] /\ bits_of t = l ++ [negb b]
  end.
Proof.
  destruct (bits_of s) as [|b0 l0] eqn:Es.
  { apply (f_equal length) in Es. rewrite length_to_bits in Es. simpl in Es. unfold sibling.
    by destruct (N.eqb_spec (slength (val s)) 0); [|lia]. }
  assert (0 < slength (val s)) as Hs by (apply (f_equal length) in Es; rewrite length_to_bits in Es; simpl in Es; lia).
  unfold sibling. destruct (N.eqb_spec (slength (val s)) 0); [lia|].
  destruct (exists_last (l := b0 :: l0) ltac:(done)) as (l & b & El). rewrite El in *. clear b0 l0 El.
  assert (N.to_nat (slength (val s)) = S (length l)) as Hl.
  { apply (f_equal length) in Es. rewrite length_to_bits, length_app in Es. simpl in Es. lia. }
  destruct (mk_sub _) as [t|] eqn:Et.
  - exists t, l, b. do 2 (split; [done|]). apply mk_sub_Some in Et. apply list_eq. intros i.
    rewrite lookup_bits_of, Et. cbn [sbits slength]. rewrite kbit_sibling by done.
    pose proof (lookup_bits_of s i) as Hi. rewrite Es in Hi. destruct (N.ltb_spec (N.of_nat i) (slength (val s))).
    + destruct (N.eqb_spec (N.of_nat i) (slength (val s) - 1)).
      * assert (i = length l) as -> by lia. rewrite list_lookup_middle in Hi |- * by done. injection Hi as ->. done.
      * rewrite xorb_false_r. rewrite lookup_app_l in Hi |- * by lia. by symmetry.
    + symmetry. apply lookup_ge_None. rewrite length_app. simpl. lia.
  - apply mk_sub_None in Et. pose proof (val_ok s) as Ho. rewrite (proj2 (shard_ok_spec _)) in Et; [done|].
    apply shard_ok_spec in Ho as [Hb Hu]. cbn [sbits slength]. split.
    + unfold sibling_bits, len in *. by rewrite length_insert.
    + intros i Hi. rewrite kbit_sibling, Hu by lia. destruct (N.eqb_spec i (slength (val s) - 1)); [lia|done].
Qed.

Lemma get_bit_spec (s : ShardId) (i : nat) :
  to_option (get_bit s (N.of_nat i)) = N.b2n <$> bits_of s !! i.
Proof.
  unfold get_bit. rewrite lookup_bits_of. destruct (N.leb_spec (slength (val s)) (N.of_nat i)), (N.ltb_spec (N.of_nat i) (slength (val s))); try lia; [done|].
  simpl. f_equal. apply bit_value_kbit. pose proof (div_ceil8_spec (slength (val s))) as [_ Hc].
  rewrite <- shard_bits_len in Hc. lia.
Qed.

(** * Orders *)

(** Lexicographic order of bit strings, [0] first, a proper prefix first. *)
Fixpoint bits_cmp (x y : list bool) : comparison :=
  match x, y with
  | [], [] => Eq
  | [], _ => Lt
  | _, [] => Gt
  | a :: x', b :: y' => if Bool.eqb a b then bits_cmp x' y' else if b then Lt else Gt
  end.

(** Where a bit string lies relative to the first bits of an infinite key. *)
Fixpoint key_cmp (x : list bool) (key : nat -> bool) : comparison :=
  match x with
  | [] => Eq
  | a :: x' => if Bool.eqb a (key 0%nat) then key_cmp x' (fun i => key (S i)) else if a then Gt else Lt
  end.

Definition starts (x : list bool) (key : nat -> bool) : Prop := forall i b, x !! i = Some b -> key i = b.

Lemma starts_nil key : starts [] key.
Proof. intros i b Hi. by rewrite lookup_nil in Hi. Qed.

Lemma starts_cons a x key : starts (a :: x) key <-> key 0%nat = a /\ starts x (fun i => key (S i)).
Proof.
  split.
  - intros H. split; [by apply H|]. intros i b Hi. by apply H.
  - intros [H0 H] [|i] b Hi; [by injection Hi as <-|]. by apply H.
Qed.

Lemma starts_prefix x y key : x `prefix_of` y -> starts y key -> starts x key.
Proof. intros Hp Hs i b Hi. apply Hs. by eapply prefix_lookup_Some. Qed.

Lemma starts_both x y key : starts x key -> starts y key -> x `prefix_of` y \/ y `prefix_of` x.
Proof.
  revert y key. induction x as [|a x IH]; intros y key Hx Hy; [left; apply prefix_nil|].
  destruct y as [|b y]; [right; apply prefix_nil|]. apply starts_cons in Hx as [<- Hx], Hy as [<- Hy].
  destruct (IH _ _ Hx Hy); [left|right]; by apply prefix_cons.
Qed.

Lemma starts_snoc x b key : starts (x ++ [b]) key <-> starts x key /\ key (length x) = b.
Proof.
  split.
  - intros H. split; [|apply H; by apply list_lookup_middle]. by eapply starts_prefix, H; exists [b].
  - intros [H Hb] i c Hi. destruct (decide (i < length x)%nat) as [Hl|Hl].
    + rewrite lookup_app_l in Hi by done. by apply H.
    + rewrite lookup_app_r in Hi by lia. apply list_lookup_singleton_Some in Hi as [Hi <-].
      by replace i with (length x) by lia.
Qed.

Lemma key_cmp_Eq x : forall key, key_cmp x key = Eq <-> starts x key.
Proof.
  induction x as [|a x IH]; intros key; [split; [intros _; apply starts_nil|done]|].
  simpl. rewrite starts_cons, <- IH. destruct a, (key 0%nat); simpl; intuition congruence.
Qed.

Lemma bits_cmp_Eq x : forall y, bits_cmp x y = Eq <-> x = y.
Proof.
  induction x as [|a x IH]; intros [|b y]; simpl; [done..|]. specialize (IH y).
  destruct a, b; simpl; rewrite ?IH; intuition congruence.
Qed.

Lemma bits_cmp_antisym x : forall y, bits_cmp y x = CompOpp (bits_cmp x y).
Proof. induction x as [|a x IH]; intros [|b y]; simpl; [done..|]. rewrite (IH y). by destruct a, b. Qed.

Lemma bits_cmp_trans x : forall y z, bits_cmp x y = Lt -> bits_cmp y z = Lt -> bits_cmp x z = Lt.
Proof.
  induction x as [|a x IH]; intros [|b y] [|c z]; simpl; try done.
  specialize (IH y z). destruct a, b, c; simpl; auto; congruence.
Qed.

Lemma bits_cmp_app p x y : bits_cmp (p ++ x) (p ++ y) = bits_cmp x y.
Proof. induction p as [|a p IH]; [done|]. simpl. by rewrite eqb_reflx. Qed.

Lemma bits_cmp_prefix x y : x `prefix_of` y -> x <> y -> bits_cmp x y = Lt.
Proof.
  intros [k ->] Hne. rewrite <- (app_nil_r x) at 1. rewrite bits_cmp_app.
  destruct k; [by rewrite app_nil_r in Hne|done].
Qed.

(** An id below another, neither a prefix of the other, goes before every key
    that extends the other. *)
Lemma key_cmp_below x : forall y key, bits_cmp x y = Lt -> ~ x `prefix_of` y -> starts y key -> key_cmp x key = Lt.
Proof.
  induction x as [|a x IH]; intros y key Hc Hp Hy; [by destruct Hp; apply prefix_nil|].
  destruct y as [|b y]; [done|]. apply starts_cons in Hy as [<- Hy]. simpl in *.
  destruct (Bool.eqb_spec a (key 0%nat)) as [->|Hab].
  - apply (IH y); [done| |done]. intros Hxy. by apply Hp, prefix_cons.
  - destruct a, (key 0%nat); done.
Qed.

Lemma key_cmp_above x : forall y key, bits_cmp x y = Gt -> ~ y `prefix_of` x -> starts y key -> key_cmp x key = Gt.
Proof.
  induction x as [|a x IH]; intros [|b y] key Hc Hp Hy; [done|done|by destruct Hp; apply prefix_nil|].
  apply starts_cons in Hy as [<- Hy]. simpl in *.
  destruct (Bool.eqb_spec a (key 0%nat)) as [->|Hab].
  - apply (IH y); [done| |done]. intros Hxy. by apply Hp, prefix_cons.
  - destruct a, (key 0%nat); done.
Qed.

(** ** The loops *)

Lemma cmp_loop_key n : forall i a b f g,
  (forall j, (j < n)%nat -> a (i + N.of_nat j) = N.b2n (f j)) ->
  (forall j, (j < n)%nat -> b (i + N.of_nat j) = N.b2n (g j)) ->
  cmp_loop n i a b = key_cmp (f <$> seq 0 n) g.
Proof.
  induction n as [|n IH]; intros i a b f g Ha Hb; [done|]. cbn [cmp_loop seq fmap list_fmap key_cmp].
  pose proof (Ha 0%nat ltac:(lia)) as Ha0. pose proof (Hb 0%nat ltac:(lia)) as Hb0. rewrite N.add_0_r in Ha0, Hb0.
  rewrite Ha0, Hb0, <- seq_shift, <- list_fmap_compose.
  rewrite (IH _ _ _ (f ∘ S) (fun j => g (S j))); [by destruct (f 0%nat), (g 0%nat)| |].
  - intros j Hj. rewrite <- N.add_assoc. replace (1 + N.of_nat j) with (N.of_nat (S j)) by lia. apply Ha. lia.
  - intros j Hj. rewrite <- N.add_assoc. replace (1 + N.of_nat j) with (N.of_nat (S j)) by lia. apply Hb. lia.
Qed.

Lemma shard_bit_value (s : ShardId) (j : nat) : (j < N.to_nat (slength (val s)))%nat ->
  bit_value (sbits (val s)) (0 + N.of_nat j) = N.b2n (kbit (sbits (val s)) (N.of_nat j)).
Proof.
  intros Hj. apply bit_value_kbit. pose proof (div_ceil8_spec (slength (val s))) as [_ Hc].
  rewrite <- shard_bits_len in Hc. lia.
Qed.

Lemma key_cmp_take f n key m : (m <= n)%nat ->
  key_cmp (f <$> seq 0 m) key = key_cmp (take m (f <$> seq 0 n)) key.
Proof. intros Hm. rewrite <- fmap_take, take_seq. by rewrite Nat.min_l. Qed.

(** The bits of a key, zero past its end. *)
Definition key_bits (key : bytes) (i : nat) : bool := kbit key (N.of_nat i).

Lemma key_bit_value_kbit key i : key_bit_value key i = N.b2n (kbit key i).
Proof.
  unfold key_bit_value, kbit. destruct (key !! N.to_nat (i / 8)) as [b|]; [|done].
  change 1 with (N.ones 1). rewrite N.land_ones, N.testbit_eqb, <- N.shiftr_div_pow2, N.pow_1_r. apply mod_2_b2n.
Qed.

Lemma cmp_prefix_of_key_spec s key : cmp_prefix_of_key s key = key_cmp (bits_of s) (key_bits key).
Proof.
  unfold cmp_prefix_of_key, to_bits. apply cmp_loop_key.
  - intros j Hj. by apply shard_bit_value.
  - intros j Hj. apply key_bit_value_kbit.
Qed.

Lemma bits_cmp_loop x : forall y n, n = Nat.min (length x) (length y) ->
  bits_cmp x y = match key_cmp (take n x) (fun i => default false (y !! i)) with
                 | Eq => (length x ?= length y)%nat | c => c end.
Proof.
  induction x as [|a x IH]; intros [|b y] n Hn; subst n; [done..|]. cbn [length Nat.min take bits_cmp key_cmp lookup list_lookup default].
  rewrite (IH y _ eq_refl). simpl. by destruct a, b.
Qed.

Lemma canonical_cmp_spec s t : canonical_cmp s t = bits_cmp (bits_of s) (bits_of t).
Proof.
  rewrite (bits_cmp_loop _ _ _ eq_refl). unfold canonical_cmp. rewrite !length_to_bits, <- N2Nat.inj_compare, <- N2Nat.inj_min.
  erewrite cmp_loop_key; [rewrite (key_cmp_take _ (N.to_nat (slength (val s)))) by lia; reflexivity| |].
  - intros j Hj. apply shard_bit_value. lia.
  - intros j Hj. rewrite shard_bit_value by lia. rewrite lookup_bits_of.
    destruct (N.ltb_spec (N.of_nat j) (slength (val t))); [done|lia].
Qed.

Lemma prefix_lookup_iff {A} (x y : list A) :
  x `prefix_of` y <-> (length x <= length y)%nat /\ forall i, (i < length x)%nat -> x !! i = y !! i.
Proof.
  split.
  - intros [k ->]. rewrite length_app. split; [lia|]. intros i Hi. by rewrite lookup_app_l.
  - intros [Hl H]. exists (drop (length x) y). rewrite <- (take_drop (length x) y) at 1. f_equal.
    apply list_eq. intros i. rewrite lookup_take. destruct (decide (i < length x)%nat); [by symmetry; apply H|].
    symmetry. apply lookup_ge_None. lia.
Qed.

Lemma is_prefix_of_shard_spec s t : is_prefix_of_shard s t = true <-> bits_of s `prefix_of` bits_of t.
Proof.
  unfold is_prefix_of_shard. rewrite andb_true_iff, N.leb_le, is_prefix_of_spec, prefix_lookup_iff, !length_to_bits.
  pose proof (div_ceil8_spec (slength (val t))) as [_ Hc]. rewrite <- shard_bits_len in Hc. split.
  - intros (Hl & _ & Hb). split; [lia|]. intros i Hi. rewrite !lookup_bits_of, Hb by lia.
    by destruct (N.ltb_spec (N.of_nat i) (slength (val s))), (N.ltb_spec (N.of_nat i) (slength (val t))); [|lia..].
  - intros [Hl Hb]. split; [lia|]. split; [lia|]. intros i Hi. specialize (Hb (N.to_nat i)).
    rewrite !lookup_bits_of, N2Nat.id in Hb. destruct (N.ltb_spec i (slength (val s))); [|lia].
    destruct (N.ltb_spec i (slength (val t))); [|lia]. assert (N.to_nat i < N.to_nat (slength (val s)))%nat as Hj by lia.
    by injection (Hb Hj).
Qed.

Lemma starts_key_bits (s : ShardId) key :
  starts (bits_of s) (key_bits key) <-> forall i, i < slength (val s) -> kbit (sbits (val s)) i = kbit key i.
Proof.
  split.
  - intros H i Hi. specialize (H (N.to_nat i)). rewrite lookup_bits_of, N2Nat.id in H.
    destruct (N.ltb_spec i (slength (val s))); [|lia]. unfold key_bits in H. rewrite N2Nat.id in H. symmetry. by apply H.
  - intros H i b. rewrite lookup_bits_of. destruct (N.ltb_spec (N.of_nat i) (slength (val s))); [|done].
    intros [= <-]. symmetry. by apply H.
Qed.

(** On a key that is long enough the two prefix tests agree. *)
Lemma is_prefix_of_key s key : slength (val s) <= 8 * len key ->
  is_prefix_of s key = true <-> starts (bits_of s) (key_bits key).
Proof. intros Hl. rewrite is_prefix_of_spec, starts_key_bits. tauto. Qed.

Lemma canonical_cmp_Eq s t : canonical_cmp s t = Eq <-> s = t.
Proof.
  rewrite canonical_cmp_spec, bits_cmp_Eq. split; [apply to_bits_inj|by intros ->].
Qed.
