(* ===== verification/Search.v ===== *)
(** Searching sorted slices: [slice::binary_search_by] and
    [slice::partition_point] of Rust's core library, as their documentation and
    implementation have them, and what they find. *)

From stdpp Require Import sorting.
From S2P Require Import Prelude Bytes Cbor.

Section search.
Context {A : Type} (f : A -> comparison).

(** The loop halves [size] elements starting at [base]; [fuel] bounds its
    iterations ([size] shrinks each time). *)
Fixpoint search_loop (fuel : nat) (l : list A) (base size : nat) : nat :=
  match fuel with
  | O => base
  | S fuel' =>
      if (1 <? size)%nat then
        let half := (size / 2)%nat in
        let mid := (base + half)%nat in
        let base' := match f <$> l !! mid with Some Gt => base | _ => mid end in
        search_loop fuel' l base' (size - half)
      else base
  end.

(** The index of an element that compares [Equal], if the search hits one. The
    callers do not use the insertion point of a miss. *)
Definition binary_search_by (l : list A) : option nat :=
  if (length l =? 0)%nat then None
  else let base := search_loop (length l) l 0 (length l) in
       match f <$> l !! base with Some Eq => Some base | _ => None end.

(** Sorted for the search: first the elements below the target, then those
    equal to it, then those above. *)
Definition searchable (l : list A) : Prop := forall i j x y,
  l !! i = Some x -> l !! j = Some y -> (i < j)%nat ->
  (f x = Gt -> f y = Gt) /\ (f y = Lt -> f x = Lt).

(** An equal element of the window stays in it. *)
Lemma search_loop_spec l : searchable l -> forall fuel base size,
  (size <= fuel)%nat -> (base + size <= length l)%nat ->
  (exists i x, (base <= i < base + size)%nat /\ l !! i = Some x /\ f x = Eq) ->
  exists x, l !! search_loop fuel l base size = Some x /\ f x = Eq.
Proof.
  intros Hs. induction fuel as [|fuel IH]; intros base size Hf Hb (i & x & Hi & Hx & Hfx); [lia|].
  cbn [search_loop]. destruct (Nat.ltb_spec 1 size) as [H1|H1].
  2:{ exists x. split; [|done]. by replace base with i by lia. }
  assert (1 <= size / 2 < size)%nat as [Hh1 Hh2].
  { split; [apply Nat.div_le_lower_bound; lia|apply Nat.div_lt; lia]. }
  assert (size / 2 + size / 2 <= size)%nat as Hh by (pose proof (Nat.div_mod_eq size 2); lia).
  destruct (lookup_lt_is_Some_2 l (base + size / 2)) as [y Hy]; [lia|]. rewrite Hy. cbn [fmap option_fmap option_map].
  assert (f y = Gt -> (i < base + size / 2)%nat) as Hgt.
  { intros Hfy. destruct (Nat.lt_total i (base + size / 2)) as [|[->|Hlt]]; [done| |].
    - congruence.
    - destruct (Hs _ _ _ _ Hy Hx Hlt) as [H _]. rewrite H in Hfx by done. congruence. }
  destruct (f y) eqn:Hfy.
  - apply IH; [lia..|]. exists (base + size / 2)%nat, y. split; [lia|done].
  - apply IH; [lia..|]. exists i, x. split; [|done]. destruct (Nat.lt_ge_cases i (base + size / 2)) as [Hlt|]; [|lia].
    destruct (Hs _ _ _ _ Hx Hy Hlt) as [_ H]. rewrite H in Hfx by done. congruence.
  - apply IH; [lia..|]. exists i, x. specialize (Hgt eq_refl). split; [lia|done].
Qed.

Lemma binary_search_by_Some l b : binary_search_by l = Some b -> exists x, l !! b = Some x /\ f x = Eq.
Proof.
  unfold binary_search_by. destruct (length l =? 0)%nat; [done|].
  destruct (l !! _) as [x|] eqn:Ex; [|done]. cbn [fmap option_fmap option_map].
  destruct (f x) eqn:Ef; intros [= <-]. by exists x.
Qed.

Lemma binary_search_by_None l : searchable l -> binary_search_by l = None -> forall x, x ∈ l -> f x <> Eq.
Proof.
  intros Hs. unfold binary_search_by. intros E x [i Hx]%list_elem_of_lookup Hfx.
  apply lookup_lt_Some in Hx as Hi. destruct (Nat.eqb_spec (length l) 0); [lia|].
  destruct (search_loop_spec l Hs (length l) 0 (length l)) as (y & Hy & Hfy); [lia..| |].
  - exists i, x. split; [lia|done].
  - rewrite Hy in E. cbn [fmap option_fmap option_map] in E. by rewrite Hfy in E.
Qed.

(** Where equal elements are unique, the search is [position]. *)
Lemma binary_search_by_unique l i x : searchable l -> l !! i = Some x -> f x = Eq ->
  (forall j y, l !! j = Some y -> f y = Eq -> j = i) -> binary_search_by l = Some i.
Proof.
  intros Hs Hx Hfx Hu. destruct (binary_search_by l) as [b|] eqn:E.
  - apply binary_search_by_Some in E as (y & Hy & Hfy). f_equal. by eapply Hu.
  - destruct (binary_search_by_None _ Hs E x); [|done]. apply list_elem_of_lookup. by exists i.
Qed.
End search.

(** The length of the leading run of elements that satisfy the predicate: the
    partition point of a slice that is partitioned by it. *)
Fixpoint partition_point {A} (p : A -> bool) (l : list A) : nat :=
  match l with
  | [] => 0
  | x :: l' => if p x then S (partition_point p l') else 0
  end.

Definition partitioned {A} (p : A -> bool) (l : list A) : Prop := forall i j x y,
  l !! i = Some x -> l !! j = Some y -> (i < j)%nat -> p y = true -> p x = true.

Lemma partition_point_le {A} (p : A -> bool) l : (partition_point p l <= length l)%nat.
Proof. induction l as [|x l IH]; [done|]. simpl. destruct (p x); lia. Qed.

Lemma partition_point_take {A} (p : A -> bool) l : Forall (fun x => p x = true) (take (partition_point p l) l).
Proof. induction l as [|x l IH]; [constructor|]. simpl. destruct (p x) eqn:E; simpl; by constructor. Qed.

Lemma partition_point_drop {A} (p : A -> bool) l : partitioned p l ->
  Forall (fun x => p x = false) (drop (partition_point p l) l).
Proof.
  induction l as [|x l IH]; intros Hp; [constructor|]. simpl. destruct (p x) eqn:E; simpl.
  - apply IH. intros i j y z Hi Hj Hij. by apply (Hp (S i) (S j)); [..|lia].
  - apply Forall_lookup. intros [|i] y Hy; [by injection Hy as <-|]. destruct (p y) eqn:Ey; [|done].
    rewrite (Hp 0%nat (S i) x y eq_refl Hy ltac:(lia) Ey) in E. done.
Qed.

(** * [sort_by] *)

Lemma insert_by_Permutation {A} lt (a : A) l : insert_by lt a l ≡ₚ a :: l.
Proof. induction l as [|x l IH]; [done|]. cbn [insert_by]. destruct (lt x a); [|done]. rewrite IH. constructor. Qed.

Lemma sort_by_Permutation {A} lt (l : list A) : sort_by lt l ≡ₚ l.
Proof. induction l as [|a l IH]; [done|]. cbn [sort_by foldr]. fold (sort_by lt l). by rewrite insert_by_Permutation, IH. Qed.

(** Ascending by [lt], up to ties. *)
Definition sorted_by {A} (lt : A -> A -> bool) : list A -> Prop := StronglySorted (fun x y => lt y x = false).

Section sorted_by.
Context {A : Type} (lt : A -> A -> bool).
Hypothesis lt_asym : forall x y, lt x y = true -> lt y x = false.
Hypothesis le_trans : forall x y z, lt y x = false -> lt z y = false -> lt z x = false.

Lemma insert_by_sorted a l : sorted_by lt l -> sorted_by lt (insert_by lt a l).
Proof.
  induction 1 as [|x l Hl IH Hx]; [repeat constructor|]. cbn [insert_by]. destruct (lt x a) eqn:E.
  - constructor; [done|]. rewrite insert_by_Permutation. constructor; [by apply lt_asym|done].
  - constructor; [by constructor|]. constructor; [done|]. eapply Forall_impl; [exact Hx|]. simpl. intros y Hy. by eapply le_trans.
Qed.

Lemma sort_by_sorted l : sorted_by lt (sort_by lt l).
Proof. induction l as [|a l IH]; [constructor|]. by apply insert_by_sorted. Qed.
End sorted_by.
