(* ===== verification/Ids.v ===== *)
(** Identifiers, state values and predicates, with their hash derivations:
    [src/api/network_id.rs], [src/transaction/ids.rs], [src/api/state_id.rs],
    [src/api/leaf_value.rs], [src/predicate/mod.rs]. *)

From S2P Require Import Prelude Bytes Error Cbor CborSpec CborRead Hash Codec.
Local Open Scope N_scope.

(** * [NetworkId] *)

(** Private, and [new] rejects zero. *)
Abbreviation NetworkId := (sub (fun id : u16 => negb (val id =? 0))).

Module NetworkId.
Definition new (id : u16) : result NetworkId :=
  match mk_sub id with
  | Some n => Ok n
  | None => Err (OutOfRange "network id must be >= 1")
  end.
Definition id (n : NetworkId) : u16 := val n.
Definition MAINNET : NetworkId := Sub (wrap 16 1) eq_refl.
Definition TESTNET : NetworkId := Sub (wrap 16 2) eq_refl.
Definition LOCAL : NetworkId := Sub (wrap 16 3) eq_refl.

Lemma new_Ok i n : new i = Ok n <-> id n = i.
Proof.
  unfold new, id. destruct (mk_sub i) as [m|] eqn:E.
  - apply mk_sub_Some in E. split; [by intros [= <-]|]. intros Hn. f_equal. apply val_inj. congruence.
  - split; [done|]. intros <-. by rewrite mk_sub_val in E.
Qed.

Lemma new_no_panic i : no_panic (new i).
Proof. unfold new. by destruct (mk_sub i). Qed.
End NetworkId.
#[export] Hint Resolve NetworkId.new_no_panic : outcome.

(** * 32-byte identifiers *)

(** [bytes_value()?.try_into()] of the three 32-byte identifiers. *)
Definition arr32_from_cbor (what : string) (d : Decoder) : result (arr 32) :=
  b ← lift (Decoder.bytes_value d);
  ok_or (InvalidLength what 32 (len b)) (try_arr 32 b).

Record TokenId : Type := { tid_bytes : arr 32 }.
Record TokenSalt : Type := { salt_bytes : arr 32 }.
Record StateId : Type := { sid_bytes : arr 32 }.
Record StateMask : Type := { mask_bytes : arr 32 }.
Record TokenType : Type := { type_bytes : bytes }.
Record MintTransactionState : Type := { mts_hash : DataHash }.

#[export] Instance TokenId_eq_dec : EqDecision TokenId.
Proof. solve_decision. Defined.
#[export] Instance TokenSalt_eq_dec : EqDecision TokenSalt.
Proof. solve_decision. Defined.
#[export] Instance StateId_eq_dec : EqDecision StateId.
Proof. solve_decision. Defined.
#[export] Instance StateMask_eq_dec : EqDecision StateMask.
Proof. solve_decision. Defined.
#[export] Instance TokenType_eq_dec : EqDecision TokenType.
Proof. solve_decision. Defined.
#[export] Instance MintTransactionState_eq_dec : EqDecision MintTransactionState.
Proof. solve_decision. Defined.

#[export] Instance TokenId_codec : Codec TokenId := {|
  to_cbor t := encode_byte_string (val (tid_bytes t));
  from_cbor d := a ← arr32_from_cbor "TokenId" d; Ok {| tid_bytes := a |};
  wf _ := True;
|}.

#[export] Instance TokenSalt_codec : Codec TokenSalt := {|
  to_cbor t := encode_byte_string (val (salt_bytes t));
  from_cbor d := a ← arr32_from_cbor "TokenSalt" d; Ok {| salt_bytes := a |};
  wf _ := True;
|}.

#[export] Instance StateId_codec : Codec StateId := {|
  to_cbor t := encode_byte_string (val (sid_bytes t));
  from_cbor d := a ← arr32_from_cbor "StateId" d; Ok {| sid_bytes := a |};
  wf _ := True;
|}.

#[export] Instance TokenType_codec : Codec TokenType := {|
  to_cbor t := encode_byte_string (type_bytes t);
  from_cbor d := b ← lift (Decoder.bytes_value d); Ok {| type_bytes := b |};
  wf _ := True;
|}.

(** * Predicates: [src/predicate/mod.rs] *)

Definition ENCODED_PREDICATE_TAG : u64 := wrap 64 39032.

Inductive PredicateEngine : Type := BuiltIn.

Module PredicateEngine.
Definition id (e : PredicateEngine) : u64 := match e with BuiltIn => wrap 64 1 end.
Definition from_id (id : u64) : result PredicateEngine :=
  if val id =? 1 then Ok BuiltIn else Err (UnexpectedValue "unknown predicate engine").

Lemma from_id_Ok i e : from_id i = Ok e <-> id e = i.
Proof.
  unfold from_id, id. destruct e. destruct (N.eqb_spec (val i) 1) as [E|E]; split; try done.
  - intros _. apply val_inj. by rewrite E.
  - intros <-. done.
Qed.

Lemma from_id_no_panic i : no_panic (from_id i).
Proof. unfold from_id. by case_match. Qed.
End PredicateEngine.
#[export] Hint Resolve PredicateEngine.from_id_no_panic : outcome.

Record EncodedPredicate : Type := { p_engine : PredicateEngine; p_code : bytes; p_parameters : bytes }.

#[export] Instance PredicateEngine_eq_dec : EqDecision PredicateEngine.
Proof. solve_decision. Defined.
#[export] Instance EncodedPredicate_eq_dec : EqDecision EncodedPredicate.
Proof. solve_decision. Defined.

#[export] Instance EncodedPredicate_codec : Codec EncodedPredicate := {|
  to_cbor p := encode_tag ENCODED_PREDICATE_TAG (encode_array [
    encode_uint (PredicateEngine.id (p_engine p));
    encode_byte_string (p_code p);
    encode_byte_string (p_parameters p)]);
  from_cbor d :=
    inner ← lift (Decoder.expect_tag d (val ENCODED_PREDICATE_TAG));
    items ← lift (Decoder.array inner (Some 3));
    i0 ← idx items 0;
    e ← lift (Decoder.uint i0);
    engine ← PredicateEngine.from_id e;
    i1 ← idx items 1;
    code ← lift (Decoder.bytes_value i1);
    i2 ← idx items 2;
    parameters ← lift (Decoder.bytes_value i2);
    Ok {| p_engine := engine; p_code := code; p_parameters := parameters |};
  wf _ := True;
|}.

(** The [Predicate] trait, and [EncodedPredicate::from_predicate]. *)
Class Predicate (P : Type) : Type := {
  engine : P -> PredicateEngine;
  code : P -> bytes;
  parameters : P -> bytes;
}.

Definition from_predicate `{Predicate P} (p : P) : EncodedPredicate :=
  {| p_engine := engine p; p_code := code p; p_parameters := parameters p |}.

#[export] Instance EncodedPredicate_predicate : Predicate EncodedPredicate :=
  {| engine := p_engine; code := p_code; parameters := p_parameters |}.

(** * Derivations *)

Definition MINT_SUFFIX : arr 32 := fit 32 (n2b <$> [
  0x9e; 0x82; 0x00; 0x2c; 0x14; 0x4d; 0x7c; 0x57; 0x96; 0xc5; 0x0f; 0x6d; 0xb5; 0x0a; 0x0c; 0x7b;
  0xbd; 0x7f; 0x71; 0x7a; 0xe3; 0xaf; 0x6c; 0x6c; 0x71; 0xa3; 0xe9; 0xeb; 0xa3; 0x02; 0x27; 0x30]).

Section derive.
Context `{Sha2}.

Definition TokenId_derive (network : NetworkId) (salt : TokenSalt) : TokenId :=
  let preimage := encode_array [to_cbor salt; encode_uint (wrap 64 (val (NetworkId.id network)))] in
  {| tid_bytes := Sha256_digest preimage |}.

Definition MintTransactionState_derive (token_id : TokenId) : MintTransactionState :=
  {| mts_hash := sha256 (encode_array [
       encode_byte_string (val (tid_bytes token_id)); encode_byte_string (val MINT_SUFFIX)]) |}.

Definition StateId_derive (lock_script : EncodedPredicate) (source_state_hash : DataHash) : StateId :=
  {| sid_bytes := Sha256_digest (encode_array [
       to_cbor lock_script; encode_byte_string (DataHash.data source_state_hash)]) |}.

Definition calculate_leaf_value (transaction_hash : DataHash) (reference_time : u64) : DataHash :=
  sha256 (encode_array [
    encode_byte_string (DataHash.data transaction_hash); encode_uint reference_time]).

End derive.

(** * The wire laws *)

Lemma no_panic_arr32 what d : no_panic (arr32_from_cbor what d).
Proof. unfold arr32_from_cbor. solve_no_panic. Qed.
#[export] Hint Resolve no_panic_arr32 : outcome.

Lemma arr32_enc limits what (a : arr 32) : accepts limits (encode_byte_string (val a)) ->
  arr32_from_cbor what (with_limits (encode_byte_string (val a)) limits) = Ok a.
Proof. intros Ha. unfold arr32_from_cbor. codec_forward. done. Qed.

Lemma arr32_inv what d a : arr32_from_cbor what d = Ok a -> dbytes d = encode_byte_string (val a).
Proof. unfold arr32_from_cbor. intros E. codec_inv. codec_close. Qed.

#[export] Instance TokenId_laws : CodecLaws TokenId.
Proof.
  split.
  - intros a. codec_unfold TokenId_codec. eauto with items.
  - intros a. codec_unfold TokenId_codec. eauto with items.
  - intros limits a _ Ha. codec_unfold TokenId_codec. rewrite arr32_enc by done. by destruct a.
  - done.
  - intros d. codec_unfold TokenId_codec. solve_no_panic.
Qed.
#[export] Instance TokenSalt_laws : CodecLaws TokenSalt.
Proof.
  split.
  - intros a. codec_unfold TokenSalt_codec. eauto with items.
  - intros a. codec_unfold TokenSalt_codec. eauto with items.
  - intros limits a _ Ha. codec_unfold TokenSalt_codec. rewrite arr32_enc by done. by destruct a.
  - done.
  - intros d. codec_unfold TokenSalt_codec. solve_no_panic.
Qed.
#[export] Instance StateId_laws : CodecLaws StateId.
Proof.
  split.
  - intros a. codec_unfold StateId_codec. eauto with items.
  - intros a. codec_unfold StateId_codec. eauto with items.
  - intros limits a _ Ha. codec_unfold StateId_codec. rewrite arr32_enc by done. by destruct a.
  - done.
  - intros d. codec_unfold StateId_codec. solve_no_panic.
Qed.
#[export] Instance TokenId_canonical : CodecCanonical TokenId.
Proof. split. intros d a E. codec_unfold TokenId_codec. codec_inv. by apply arr32_inv in E0. Qed.
#[export] Instance TokenSalt_canonical : CodecCanonical TokenSalt.
Proof. split. intros d a E. codec_unfold TokenSalt_codec. codec_inv. by apply arr32_inv in E0. Qed.
#[export] Instance StateId_canonical : CodecCanonical StateId.
Proof. split. intros d a E. codec_unfold StateId_codec. codec_inv. by apply arr32_inv in E0. Qed.

#[export] Instance TokenType_laws : CodecLaws TokenType.
Proof.
  split.
  - intros a. codec_unfold TokenType_codec. eauto with items.
  - intros a. codec_unfold TokenType_codec. eauto with items.
  - intros limits a _ Ha. codec_unfold TokenType_codec. codec_forward. by destruct a.
  - done.
  - intros d. codec_unfold TokenType_codec. solve_no_panic.
Qed.
#[export] Instance TokenType_canonical : CodecCanonical TokenType.
Proof. split. intros d a E. codec_unfold TokenType_codec. codec_inv. codec_close. Qed.

#[export] Instance EncodedPredicate_laws : CodecLaws EncodedPredicate.
Proof.
  split.
  - intros a. codec_unfold EncodedPredicate_codec. eauto 10 with items.
  - intros a. codec_unfold EncodedPredicate_codec. eauto 10 with items.
  - intros limits a _ Ha. codec_unfold EncodedPredicate_codec. codec_forward. by destruct a as [[] ? ?].
  - done.
  - intros d. codec_unfold EncodedPredicate_codec. solve_no_panic.
Qed.
#[export] Instance EncodedPredicate_canonical : CodecCanonical EncodedPredicate.
Proof.
  split. intros d a E. codec_unfold EncodedPredicate_codec. codec_inv.
  match goal with E : PredicateEngine.from_id _ = _ |- _ => apply PredicateEngine.from_id_Ok in E end.
  codec_close.
Qed.

(** ** What the derivations commit *)

Section commit.
Context `{Sha2}.

(** Encodings of at most [usize::MAX] bytes are uniquely decodable. *)
Lemma encode_array_inj bs bs' : Forall is_item bs -> Forall is_item bs' ->
  len (encode_array bs) <= usize_max -> encode_array bs = encode_array bs' -> bs = bs'.
Proof.
  intros (l & Hl & ->)%items_of (l' & Hl' & ->)%items_of Hb E. rewrite !encode_array_items in *.
  apply enc_inj in E as [= ->]; done.
Qed.

Lemma encode_byte_string_inj a b : len a < 2 ^ 64 -> len b < 2 ^ 64 ->
  encode_byte_string a = encode_byte_string b -> a = b.
Proof.
  intros Ha Hb E. change (encode_byte_string a) with (head major.BYTES (wrap 64 (len a)) ++ a) in E.
  change (encode_byte_string b) with (head major.BYTES (wrap 64 (len b)) ++ b) in E.
  apply (head_inj _ _ _ _ _ _ (string_major_ok KBytes) (string_major_ok KBytes)) in E. tauto.
Qed.

Lemma encode_uint_inj a b : encode_uint a = encode_uint b -> a = b.
Proof.
  unfold encode_uint. intros E. rewrite <- (app_nil_r (head _ a)), <- (app_nil_r (head _ b)) in E.
  apply (head_inj _ _ _ _ _ _ (scalar_major_ok KUint) (scalar_major_ok KUint)) in E. tauto.
Qed.
End commit.
