(* ===== verification/CborMap.v ===== *)
(** Canonical maps: what [encode_map] writes, and that [Decoder.map] reads it
    back ([src/cbor/encode.rs], [src/cbor/decode.rs]). *)

From S2P Require Import Prelude Bytes Error Cbor CborSpec CborRead.
Local Open Scope N_scope.

(** The comparator is the lexicographic order. *)
Lemma canonical_key_cmp_lex a b : canonical_key_cmp a b = bytes_cmp a b.
Proof.
  assert (forall n m : nat, (N.of_nat (S n) ?= N.of_nat (S m)) = (N.of_nat n ?= N.of_nat m)) as HS.
  { intros. by rewrite <- !Nat2N.inj_compare. }
  unfold canonical_key_cmp, len. revert b. induction a as [|x a IH]; intros [|y b]; [done..|].
  cbn [length Nat.min take bytes_cmp]. destruct (b2n x ?= b2n y); [|done..]. by rewrite HS, <- IH.
Qed.

Lemma key_lt_spec a b : key_lt a b = true <-> bytes_cmp (fst a) (fst b) = Lt.
Proof. unfold key_lt. rewrite canonical_key_cmp_lex. by destruct (bytes_cmp _ _). Qed.

(** * Sorting *)

(** Non-strictly ascending keys. *)
Fixpoint sorted_keys (l : list (bytes * bytes)) : Prop :=
  match l with
  | [] => True
  | e :: l' => match l' with [] => True | e' :: _ => bytes_cmp (fst e) (fst e') <> Gt end /\ sorted_keys l'
  end.

Lemma insert_sorted e l : sorted_keys l -> sorted_keys (insert_by key_lt e l).
Proof.
  induction l as [|x l IH]; [done|]. intros [Hx Hl]. cbn [insert_by].
  destruct (key_lt x e) eqn:E.
  - specialize (IH Hl). apply key_lt_spec in E. destruct l as [|y l].
    + simpl. split; [by rewrite E|done].
    + cbn [insert_by] in *. destruct (key_lt y e); (split; [|done]); [done|by rewrite E].
  - split; [|done]. intros Hgt. assert (key_lt x e = true); [|congruence].
    apply key_lt_spec. rewrite bytes_cmp_antisym, Hgt. done.
Qed.

Lemma sort_sorted l : sorted_keys (sort_by key_lt l).
Proof. induction l as [|e l IH]; [done|]. by apply insert_sorted. Qed.

Lemma bytes_cmp_le_trans a b c : bytes_cmp a b <> Gt -> bytes_cmp b c = Lt -> bytes_cmp a c = Lt.
Proof.
  intros Hab Hbc. destruct (bytes_cmp a b) eqn:E; [|by eapply bytes_cmp_trans|done].
  by apply bytes_cmp_eq in E as ->.
Qed.

(** [ascending] of CborRead, in the lexicographic order. *)
Lemma ascending_cons p k ks : ascending p (k :: ks) <->
  match p with Some p => bytes_cmp p k = Lt | None => True end /\ ascending (Some k) ks.
Proof. simpl. destruct p; [by rewrite canonical_key_cmp_lex|done]. Qed.

Lemma ascending_weaken p ks : ascending p ks -> ascending None ks.
Proof. destruct ks; simpl; tauto. Qed.

Lemma last_writers_cons e x l : last_writers (e :: x :: l) =
  if decide (fst x = fst e) then last_writers (x :: l) else e :: last_writers (x :: l).
Proof. reflexivity. Qed.

Lemma last_writers_ascending l : forall p, sorted_keys l ->
  match p, l with Some p, e :: _ => bytes_cmp p (fst e) = Lt | _, _ => True end ->
  ascending p (fst <$> last_writers l).
Proof.
  induction l as [|e l IH]; intros p Hs Hp; [done|]. destruct l as [|x l].
  - cbn [last_writers]. rewrite fmap_cons. by apply ascending_cons.
  - pose proof Hs as [Hex Hs']. cbn [last_writers]. destruct (decide (fst x = fst e)) as [Ek|Ek].
    + apply IH; [done|]. destruct p; [|done]. by rewrite Ek.
    + rewrite fmap_cons. apply ascending_cons. split; [done|]. apply IH; [done|].
      destruct (bytes_cmp (fst e) (fst x)) eqn:E; [|done|done]. by apply bytes_cmp_eq in E.
Qed.

(** The keys [encode_map] writes ascend strictly. *)
Lemma kept_ascending es : ascending None (fst <$> last_writers (sort_by key_lt es)).
Proof. apply last_writers_ascending; [apply sort_sorted|done]. Qed.

(** Sorting ascending entries changes nothing. *)
Lemma sort_ascending es : forall p, ascending p (fst <$> es) -> last_writers (sort_by key_lt es) = es.
Proof.
  assert (forall es p, ascending p (fst <$> es) -> sort_by key_lt es = es) as Hsort.
  { clear es. intros es. induction es as [|e es IH]; intros p Ha; [done|]. rewrite fmap_cons in Ha.
    apply ascending_cons in Ha as [_ Ha]. change (sort_by key_lt (e :: es)) with (insert_by key_lt e (sort_by key_lt es)).
    rewrite (IH _ Ha). destruct es as [|x es]; [done|]. rewrite fmap_cons in Ha.
    apply ascending_cons in Ha as [Hlt _]. cbn [insert_by]. destruct (key_lt x e) eqn:E; [|done].
    apply key_lt_spec in E. by rewrite bytes_cmp_antisym, Hlt in E. }
  intros p Ha. rewrite (Hsort es p Ha). clear Hsort. revert p Ha. induction es as [|e es IH]; intros p Ha; [done|].
  rewrite fmap_cons in Ha. apply ascending_cons in Ha as [_ Ha]. destruct es as [|x es]; [done|].
  cbn [last_writers]. pose proof Ha as Ha'. rewrite fmap_cons in Ha. apply ascending_cons in Ha as [Hlt _].
  destruct (decide (fst x = fst e)) as [Ek|Ek]; [by rewrite Ek, bytes_cmp_refl in Hlt|].
  f_equal. by apply (IH (Some (fst e))).
Qed.

(** ** The last writer of a key wins *)

Fixpoint last_of (k : bytes) (l : list (bytes * bytes)) : option bytes :=
  match l with
  | [] => None
  | e :: l' => match last_of k l' with Some v => Some v
      | None => if decide (fst e = k) then Some (snd e) else None end
  end.

Lemma last_of_insert k e l : last_of k (insert_by key_lt e l) =
  match last_of k l with Some v => Some v | None => if decide (fst e = k) then Some (snd e) else None end.
Proof.
  induction l as [|x l IH]; [done|]. cbn [insert_by]. destruct (key_lt x e) eqn:E; [|done].
  cbn [last_of]. rewrite IH. destruct (last_of k l); [done|].
  destruct (decide (fst e = k)) as [He|], (decide (fst x = k)) as [Hx|]; try done.
  apply key_lt_spec in E. by rewrite Hx, He, bytes_cmp_refl in E.
Qed.

Lemma last_of_sort k l : last_of k (sort_by key_lt l) = last_of k l.
Proof.
  induction l as [|e l IH]; [done|]. change (sort_by key_lt (e :: l)) with (insert_by key_lt e (sort_by key_lt l)).
  by rewrite last_of_insert, IH.
Qed.

Lemma last_of_kept k l : last_of k (last_writers l) = last_of k l.
Proof.
  induction l as [|e l IH]; [done|]. destruct l as [|x l]; [done|].
  rewrite last_writers_cons. destruct (decide (fst x = fst e)) as [Ek|Ek].
  - rewrite IH. cbn [last_of]. destruct (last_of k l); [done|].
    destruct (decide (fst x = k)), (decide (fst e = k)); congruence.
  - cbn [last_of]. cbn [last_of] in IH. by rewrite IH.
Qed.

(** * Round trip *)

Lemma ascending_bytes_NoDup p ks : ascending p ks -> NoDup ks /\ match p with Some p => ~ p ∈ ks | None => True end.
Proof.
  revert p. induction ks as [|k ks IH]; intros p Ha; [split; [constructor|destruct p; set_solver]|].
  apply ascending_cons in Ha as [Hp Ha]. destruct (IH _ Ha) as [Hnd Hk].
  split; [by constructor|]. destruct p as [p|]; [|done]. intros [->|Hin]%elem_of_cons.
  - by rewrite bytes_cmp_refl in Hp.
  - assert (forall q ks, ascending (Some q) ks -> p ∈ ks -> bytes_cmp p q = Lt \/ bytes_cmp p q = Eq -> False) as G.
    { clear. intros q ks. revert q. induction ks as [|k ks IH]; intros q Ha Hin Hpq; [set_solver|].
      apply ascending_cons in Ha as [Hqk Ha].
      assert (bytes_cmp p k = Lt) as Hpk.
      { apply (bytes_cmp_le_trans _ q); [|done]. by destruct Hpq as [-> | ->]. }
      apply elem_of_cons in Hin as [->|Hin]; [by rewrite bytes_cmp_refl in Hpk|]. eapply IH; eauto. }
    eapply G; eauto.
Qed.

(** The flat list of keys and values. *)
Fixpoint flat {A} (l : list (A * A)) : list A :=
  match l with [] => [] | (k, v) :: l' => k :: v :: flat l' end.

Lemma pairs_flat {A} (l : list (A * A)) : pairs (flat l) = l.
Proof. induction l as [|[k v] l IH]; simpl; [done|]. by rewrite IH. Qed.

Lemma length_flat {A} (l : list (A * A)) : length (flat l) = (2 * length l)%nat.
Proof. induction l as [|[k v] l IH]; simpl; [done|]. rewrite IH. lia. Qed.

Lemma flat_pairs {A} n (l : list A) : length l = (2 * n)%nat -> flat (pairs l) = l.
Proof.
  revert l. induction n as [|n IH]; intros [|k [|v l]] Hl; simpl in *; try lia; [done|].
  f_equal. f_equal. apply IH. lia.
Qed.

Definition item_entries (es : list (bytes * bytes)) : Prop := Forall (fun e => is_item (fst e) /\ is_item (snd e)) es.

Lemma entries_of es : item_entries es -> exists l : list (item * item),
  forallb shape (flat l) = true /\ es = (fun e => (enc (fst e), enc (snd e))) <$> l.
Proof.
  induction 1 as [|[k v] es [Hk Hv] _ (l & Hl & ->)]; [by exists []|].
  simpl in Hk, Hv. destruct Hk as (i & Hi & ->), Hv as (j & Hj & ->).
  exists ((i, j) :: l). csimpl. by rewrite Hi, Hj, Hl.
Qed.

Lemma concat_entries (l : list (item * item)) :
  concat ((fun e : bytes * bytes => fst e ++ snd e) <$> ((fun e => (enc (fst e), enc (snd e))) <$> l)) =
  concat (enc <$> flat l).
Proof. induction l as [|[i j] l IH]; [done|]. csimpl. rewrite <- app_assoc. do 2 f_equal. exact IH. Qed.

Lemma encode_map_enc (l : list (item * item)) : ascending None ((fun e => enc (fst e)) <$> l) ->
  encode_map ((fun e => (enc (fst e), enc (snd e))) <$> l) = enc (IMap (flat l)).
Proof.
  intros Ha. unfold encode_map. rewrite (sort_ascending _ None) by by rewrite <- list_fmap_compose.
  rewrite concat_entries. simpl. unfold head. do 2 f_equal.
  assert (len (flat l) / 2 = len l) as ->.
  { replace (len (flat l)) with (2 * len l) by (unfold len; rewrite length_flat; lia).
    rewrite N.mul_comm. by apply N.div_mul. }
  unfold len. by rewrite length_fmap.
Qed.

Lemma map_enc limits es : item_entries es -> ascending None (fst <$> es) -> accepts limits (encode_map es) ->
  Decoder.map (with_limits (encode_map es) limits) =
    Ok ((fun e => (with_limits (fst e) limits, with_limits (snd e) limits)) <$> es) /\
  Forall (fun e => accepts limits (fst e) /\ accepts limits (snd e)) es.
Proof.
  intros (l & Hl & ->)%entries_of Ha Hacc. rewrite <- list_fmap_compose in Ha.
  rewrite encode_map_enc in * by done.
  assert (within limits (IMap (flat l))) as Hw.
  { apply accepts_item; [|done]. simpl. rewrite Hl, andb_true_r. apply N.even_spec. exists (len l).
    unfold len. rewrite length_flat. lia. }
  rewrite map_within by (done || by rewrite pairs_flat). rewrite pairs_flat, <- list_fmap_compose. split; [done|].
  apply within_map in Hw as (n & _ & _ & _ & Hw). rewrite Forall_fmap.
  clear -Hw. induction l as [|[i j] l IH]; [constructor|]. cbn [flat] in Hw.
  apply Forall_cons in Hw as [Hi [Hj Hw]%Forall_cons]. constructor; [|auto].
  split; by apply within_accepts.
Qed.

(** A map that decodes is the encoding of its entries. *)
Lemma map_bytes_inv d x : Decoder.map d = Ok x -> exists es,
  x = (fun e => (with_limits (fst e) (dlimits d), with_limits (snd e) (dlimits d))) <$> es /\
  dbytes d = encode_map es /\ ascending None (fst <$> es) /\ item_entries es.
Proof.
  intros (l & Hb & Hw & Ha & ->)%map_inv. pose proof Hw as (Hf & _). apply fits_shape in Hf.
  apply within_map in Hw as (n & Hn & _). apply flat_pairs in Hn.
  exists ((fun e => (enc (fst e), enc (snd e))) <$> pairs l).
  rewrite <- list_fmap_compose, encode_map_enc by done. split_and!; [done| |by rewrite <- list_fmap_compose|].
  - rewrite Hb. f_equal. by rewrite Hn.
  - simpl in Hf. rewrite <- Hn in Hf at 1. apply andb_true_iff in Hf as [_ Hf]. rewrite <- Hn in Hf.
    clear Hn Ha Hb. induction (pairs l) as [|[i j] ps IH]; [constructor|]. cbn [flat] in Hf.
    simpl in Hf. rewrite !andb_true_iff in Hf. destruct Hf as (Hi & Hj & Hf). constructor; [|by apply IH].
    split; [by exists i|by exists j].
Qed.

Lemma is_item_map es : item_entries es -> ascending None (fst <$> es) -> is_item (encode_map es).
Proof.
  intros (l & Hl & ->)%entries_of Ha. rewrite <- list_fmap_compose in Ha. rewrite encode_map_enc by done.
  exists (IMap (flat l)). split; [|done]. simpl. rewrite Hl, andb_true_r. apply N.even_spec. exists (len l).
  unfold len. rewrite length_flat. lia.
Qed.

Lemma insert_elem {A} lt (x y : A) l : y ∈ insert_by lt x l -> y = x \/ y ∈ l.
Proof.
  induction l as [|z l IH]; cbn [insert_by]; [set_solver|]. destruct (lt z x); [|set_solver].
  intros [->|Hy]%elem_of_cons; set_solver.
Qed.

Lemma sort_elem {A} lt (y : A) l : y ∈ sort_by lt l -> y ∈ l.
Proof.
  induction l as [|x l IH]; [done|]. change (sort_by lt (x :: l)) with (insert_by lt x (sort_by lt l)).
  intros [->|Hy]%insert_elem; set_solver.
Qed.

Lemma last_writers_elem e l : e ∈ last_writers l -> e ∈ l.
Proof.
  induction l as [|x l IH]; [done|]. destruct l as [|y l]; [done|]. rewrite last_writers_cons.
  destruct (decide _); [intros; set_solver|]. intros [->|He]%elem_of_cons; set_solver.
Qed.

(** The entries written are entries given. *)
Lemma kept_subset e es : e ∈ last_writers (sort_by key_lt es) -> e ∈ es.
Proof. intros He%last_writers_elem. by apply sort_elem in He. Qed.

(** The encoding of any entries is one item. *)
Lemma is_item_encode_map es : item_entries es -> is_item (encode_map es).
Proof.
  intros He. pose proof (kept_ascending es) as Ha.
  assert (encode_map es = encode_map (last_writers (sort_by key_lt es))) as ->.
  { unfold encode_map. by rewrite (sort_ascending _ None Ha). }
  apply is_item_map; [|done]. unfold item_entries in *. rewrite Forall_forall in *.
  intros e Hin. apply He. by apply kept_subset.
Qed.

Lemma not_null_encode_map es : not_null (encode_map es).
Proof.
  intros limits. unfold encode_map. set (kept := last_writers _).
  change (push_head [] major.MAP (wrap 64 (len kept))) with (head major.MAP (wrap 64 (len kept))).
  by apply is_null_head.
Qed.
