(* ===== verification/Bft.v ===== *)
(** The BFT trust structures: [src/api/bft/input_record.rs], [shard_tree.rs],
    [unicity_tree.rs], [unicity_seal.rs] and [unicity_certificate.rs].

    A unicity certificate ties the input record of a block, through the shard
    tree and the unicity tree, to the hash the root validators sign. *)

From S2P Require Import Prelude Bytes Error Cbor CborSpec CborRead CborMap Hash Codec ShardId Ids.
Local Open Scope N_scope.

Definition VERSION : u64 := wrap 64 1.

(** * [InputRecord] *)

Definition INPUT_RECORD_TAG : u64 := wrap 64 39002.

Record InputRecord : Type := {
  round_number : u64;
  ir_epoch : u64;
  previous_hash : option bytes;
  hash : option bytes;
  summary_value : option bytes;
  timestamp : u64;
  block_hash : option bytes;
  sum_of_earned_fees : u64;
  executed_transactions_hash : option bytes;
}.

#[export] Instance InputRecord_eq_dec : EqDecision InputRecord.
Proof. solve_decision. Defined.

Definition root_hash (self : InputRecord) : result (option (arr 32)) :=
  match hash self with
  | None => Ok None
  | Some b => Some <$> ok_or (UnexpectedValue "input record hash must be null or 32 bytes") (try_arr 32 b)
  end.

#[export] Instance InputRecord_codec : Codec InputRecord := {|
  from_cbor d :=
    inner ← lift (Decoder.expect_tag d (val INPUT_RECORD_TAG));
    items ← lift (Decoder.array inner (Some 10));
    i0 ← idx items 0;
    version ← lift (Decoder.uint i0);
    if negb (val version =? val VERSION) then Err (UnexpectedValue "unsupported InputRecord version") else
    i1 ← idx items 1; round_number ← lift (Decoder.uint i1);
    i2 ← idx items 2; epoch ← lift (Decoder.uint i2);
    i3 ← idx items 3; previous_hash ← opt_bytes i3;
    i4 ← idx items 4; hash ← opt_bytes i4;
    i5 ← idx items 5; summary_value ← opt_bytes i5;
    i6 ← idx items 6; timestamp ← lift (Decoder.uint i6);
    i7 ← idx items 7; block_hash ← opt_bytes i7;
    i8 ← idx items 8; sum_of_earned_fees ← lift (Decoder.uint i8);
    i9 ← idx items 9; executed_transactions_hash ← opt_bytes i9;
    Ok {| round_number := round_number; ir_epoch := epoch; previous_hash := previous_hash; hash := hash;
          summary_value := summary_value; timestamp := timestamp; block_hash := block_hash;
          sum_of_earned_fees := sum_of_earned_fees;
          executed_transactions_hash := executed_transactions_hash |};
  to_cbor r := encode_tag INPUT_RECORD_TAG (encode_array [
    encode_uint VERSION;
    encode_uint (round_number r);
    encode_uint (ir_epoch r);
    encode_nullable (previous_hash r) encode_byte_string;
    encode_nullable (hash r) encode_byte_string;
    encode_nullable (summary_value r) encode_byte_string;
    encode_uint (timestamp r);
    encode_nullable (block_hash r) encode_byte_string;
    encode_uint (sum_of_earned_fees r);
    encode_nullable (executed_transactions_hash r) encode_byte_string]);
  wf _ := True;
|}.

(** * [ShardTreeCertificate] *)

Definition SHARD_TREE_CERTIFICATE_TAG : u64 := wrap 64 39003.

Record ShardTreeCertificate : Type := { shard : ShardId; sibling_hash_list : list bytes }.

#[export] Instance ShardTreeCertificate_codec : Codec ShardTreeCertificate := {|
  from_cbor d :=
    inner ← lift (Decoder.expect_tag d (val SHARD_TREE_CERTIFICATE_TAG));
    items ← lift (Decoder.array inner (Some 3));
    i0 ← idx items 0;
    version ← lift (Decoder.uint i0);
    if negb (val version =? val VERSION)
    then Err (UnexpectedValue "unsupported ShardTreeCertificate version") else
    i1 ← idx items 1;
    b ← lift (Decoder.bytes_value i1);
    shard ← ShardId.decode b;
    i2 ← idx items 2;
    l ← lift (Decoder.array i2 None);
    sibling_hash_list ← bytes_list l;
    Ok {| shard := shard; sibling_hash_list := sibling_hash_list |};
  to_cbor c := encode_tag SHARD_TREE_CERTIFICATE_TAG (encode_array [
    encode_uint VERSION;
    encode_byte_string (ShardId.encode (shard c));
    encode_array (encode_byte_string <$> sibling_hash_list c)]);
  wf _ := True;
|}.

(** * [UnicityTreeCertificate] *)

Definition UNICITY_TREE_CERTIFICATE_TAG : u64 := wrap 64 39004.

Record HashStep : Type := { step_key : u32; step_hash : bytes }.
Record UnicityTreeCertificate : Type := { partition_identifier : u32; steps : list HashStep }.

#[export] Instance HashStep_codec : Codec HashStep := {|
  from_cbor d :=
    items ← lift (Decoder.array d (Some 2));
    i0 ← idx items 0;
    key ← uint_of 32 (OutOfRange "unicity tree step key exceeds 32 bits") i0;
    i1 ← idx items 1;
    hash ← lift (Decoder.bytes_value i1);
    Ok {| step_key := key; step_hash := hash |};
  to_cbor s := encode_array [encode_uint (wrap 64 (val (step_key s))); encode_byte_string (step_hash s)];
  wf _ := True;
|}.

#[export] Instance UnicityTreeCertificate_codec : Codec UnicityTreeCertificate := {|
  from_cbor d :=
    inner ← lift (Decoder.expect_tag d (val UNICITY_TREE_CERTIFICATE_TAG));
    items ← lift (Decoder.array inner (Some 3));
    i0 ← idx items 0;
    version ← lift (Decoder.uint i0);
    if negb (val version =? val VERSION)
    then Err (UnexpectedValue "unsupported UnicityTreeCertificate version") else
    i1 ← idx items 1;
    partition_identifier ← uint_of 32 (OutOfRange "partition identifier exceeds 32 bits") i1;
    i2 ← idx items 2;
    l ← lift (Decoder.array i2 None);
    steps ← mapO from_cbor l;
    Ok {| partition_identifier := partition_identifier; steps := steps |};
  to_cbor c := encode_tag UNICITY_TREE_CERTIFICATE_TAG (encode_array [
    encode_uint VERSION;
    encode_uint (wrap 64 (val (partition_identifier c)));
    encode_array (to_cbor <$> steps c)]);
  wf _ := True;
|}.

(** * [UnicitySeal] *)

Definition UNICITY_SEAL_TAG : u64 := wrap 64 39005.

Record UnicitySeal : Type := {
  seal_network_id : NetworkId;
  root_chain_round_number : u64;
  seal_epoch : u64;
  seal_timestamp : u64;
  seal_previous_hash : option bytes;
  seal_hash : bytes;
  signatures : list (str * bytes);
}.

Definition signature_entries (s : UnicitySeal) : list (bytes * bytes) :=
  (fun e => (encode_text_string (fst e), encode_byte_string (snd e))) <$> signatures s.

(** [UnicitySeal::encode] *)
Definition encode (self : UnicitySeal) (include_signatures : bool) : bytes :=
  let sig_bytes := if include_signatures then encode_map (signature_entries self) else encode_null in
  encode_tag UNICITY_SEAL_TAG (encode_array [
    encode_uint VERSION;
    encode_uint (wrap 64 (val (NetworkId.id (seal_network_id self))));
    encode_uint (root_chain_round_number self);
    encode_uint (seal_epoch self);
    encode_uint (seal_timestamp self);
    encode_nullable (seal_previous_hash self) encode_byte_string;
    encode_byte_string (seal_hash self);
    sig_bytes]).

Definition signature_from_cbor (e : Decoder * Decoder) : result (str * bytes) :=
  k ← lift (Decoder.text (fst e));
  v ← lift (Decoder.bytes_value (snd e));
  Ok (k, v).

#[export] Instance UnicitySeal_codec : Codec UnicitySeal := {|
  from_cbor d :=
    inner ← lift (Decoder.expect_tag d (val UNICITY_SEAL_TAG));
    items ← lift (Decoder.array inner (Some 8));
    i0 ← idx items 0;
    version ← lift (Decoder.uint i0);
    if negb (val version =? val VERSION) then Err (UnexpectedValue "unsupported UnicitySeal version") else
    i1 ← idx items 1;
    n ← uint_of 16 (OutOfRange "network id") i1;
    network_id ← NetworkId.new n;
    i5 ← idx items 5; previous_hash ← opt_bytes i5;
    i6 ← idx items 6; hash ← lift (Decoder.bytes_value i6);
    i7 ← idx items 7;
    signatures ← (if Decoder.is_null i7 then Ok [] else
      entries ← lift (Decoder.map i7);
      mapO signature_from_cbor entries);
    i2 ← idx items 2; root_chain_round_number ← lift (Decoder.uint i2);
    i3 ← idx items 3; epoch ← lift (Decoder.uint i3);
    i4 ← idx items 4; timestamp ← lift (Decoder.uint i4);
    Ok {| seal_network_id := network_id; root_chain_round_number := root_chain_round_number;
          seal_epoch := epoch; seal_timestamp := timestamp; seal_previous_hash := previous_hash;
          seal_hash := hash; signatures := signatures |};
  to_cbor s := encode s true;
  (** the node ids ascend in the order of their encodings; the seal fits memory *)
  wf s := ascending None (fst <$> signature_entries s) /\ len (encode s true) <= usize_max;
|}.

(** * [UnicityCertificate] *)

Definition UNICITY_CERTIFICATE_TAG : u64 := wrap 64 39001.

Record UnicityCertificate : Type := {
  input_record : InputRecord;
  technical_record_hash : option bytes;
  shard_configuration_hash : bytes;
  shard_tree_certificate : ShardTreeCertificate;
  unicity_tree_certificate : UnicityTreeCertificate;
  unicity_seal : UnicitySeal;
}.

#[export] Instance ShardTreeCertificate_eq_dec : EqDecision ShardTreeCertificate.
Proof. solve_decision. Defined.
#[export] Instance HashStep_eq_dec : EqDecision HashStep.
Proof. solve_decision. Defined.
#[export] Instance UnicityTreeCertificate_eq_dec : EqDecision UnicityTreeCertificate.
Proof. solve_decision. Defined.
#[export] Instance UnicitySeal_eq_dec : EqDecision UnicitySeal.
Proof. solve_decision. Defined.
#[export] Instance UnicityCertificate_eq_dec : EqDecision UnicityCertificate.
Proof. solve_decision. Defined.

#[export] Instance UnicityCertificate_codec : Codec UnicityCertificate := {|
  from_cbor d :=
    inner ← lift (Decoder.expect_tag d (val UNICITY_CERTIFICATE_TAG));
    items ← lift (Decoder.array inner (Some 7));
    i0 ← idx items 0;
    version ← lift (Decoder.uint i0);
    if negb (val version =? val VERSION)
    then Err (UnexpectedValue "unsupported UnicityCertificate version") else
    i1 ← idx items 1; input_record ← from_cbor i1;
    i2 ← idx items 2; technical_record_hash ← opt_bytes i2;
    i3 ← idx items 3; shard_configuration_hash ← lift (Decoder.bytes_value i3);
    i4 ← idx items 4; shard_tree_certificate ← from_cbor i4;
    i5 ← idx items 5; unicity_tree_certificate ← from_cbor i5;
    i6 ← idx items 6; unicity_seal ← from_cbor i6;
    Ok {| input_record := input_record; technical_record_hash := technical_record_hash;
          shard_configuration_hash := shard_configuration_hash;
          shard_tree_certificate := shard_tree_certificate;
          unicity_tree_certificate := unicity_tree_certificate; unicity_seal := unicity_seal |};
  to_cbor c := encode_tag UNICITY_CERTIFICATE_TAG (encode_array [
    encode_uint VERSION;
    to_cbor (input_record c);
    encode_nullable (technical_record_hash c) encode_byte_string;
    encode_byte_string (shard_configuration_hash c);
    to_cbor (shard_tree_certificate c);
    to_cbor (unicity_tree_certificate c);
    to_cbor (unicity_seal c)]);
  wf c := wf (unicity_seal c);
|}.

(** [check_body]: [Err] names the violated rule. *)
Definition check_body (self : UnicityCertificate) : outcome string unit :=
  let ir := input_record self in
  _ ← (if negb (val (round_number ir) =? 0) then
         match summary_value ir with
         | None => Err "summary value is nil"%string
         | Some _ => if val (timestamp ir) =? 0 then Err "timestamp is unassigned"%string else Ok tt
         end
       else Ok tt);
  let same_state := bool_decide (default [] (previous_hash ir) = default [] (hash ir)) in
  let block_hash_empty := match block_hash ir with Some b => (length b =? 0)%nat | None => true end in
  if same_state && negb block_hash_empty
  then Err "state hash didn't change but block hash is not nil"%string else
  if negb same_state && block_hash_empty
  then Err "block hash is nil but state hash changed"%string else
  if negb (bool_decide (length <$> technical_record_hash self = Some 32%nat))
  then Err "technical record hash must be 32 bytes"%string else Ok tt.

Section hashes.
Context `{Sha2}.

(** The seal hash the validators sign. *)
Definition calculate_hash (self : UnicitySeal) : DataHash := sha256 (encode self false).

(** [UnicityTreeCertificate::compute_root_hash]: one step up. *)
Definition tree_step (key : bytes) (result : DataHash) (step : HashStep) : DataHash :=
  let skey := be_bytes 4 (val (step_key step)) in
  let h := DataHasher.update (DataHasher.update (InnerSha256 []) (encode_byte_string [Byte.x00]))
    (encode_byte_string skey) in
  DataHasher.finalize (
    match bytes_cmp key skey with
    | Gt => DataHasher.update (DataHasher.update h (encode_byte_string (step_hash step)))
              (encode_byte_string (DataHash.data result))
    | _ => DataHasher.update (DataHasher.update h (encode_byte_string (DataHash.data result)))
              (encode_byte_string (step_hash step))
    end).

Definition compute_root_hash (self : UnicityTreeCertificate) (shard_tree_root : bytes) : DataHash :=
  let key := be_bytes 4 (val (partition_identifier self)) in
  let unicity_tree_hash := sha256 (encode_byte_string shard_tree_root) in
  let leaf := DataHasher.finalize (DataHasher.update (DataHasher.update (DataHasher.update (InnerSha256 [])
    (encode_byte_string [Byte.x01])) (encode_byte_string key))
    (encode_byte_string (DataHash.data unicity_tree_hash))) in
  foldl (tree_step key) leaf (steps self).

(** The loop body of [shard_tree_root_hash]. *)
Definition shard_step (shard : ShardId) (root : DataHash) (e : nat * bytes) : result DataHash :=
  let '(i, sibling) := e in
  bit_index ← ok_or (OutOfRange "invalid shard sibling index")
    (if N.of_nat i + 1 <=? slength (val shard) then Some (slength (val shard) - (N.of_nat i + 1)) else None);
  bit ← ShardId.get_bit shard bit_index;
  let h := InnerSha256 [] in
  Ok (DataHasher.finalize (
    if bit =? 1
    then DataHasher.update (DataHasher.update h (encode_byte_string sibling)) (encode_byte_string (DataHash.data root))
    else DataHasher.update (DataHasher.update h (encode_byte_string (DataHash.data root))) (encode_byte_string sibling))).

Definition shard_tree_root_hash (self : UnicityCertificate) : result DataHash :=
  let root := DataHasher.finalize (DataHasher.update (DataHasher.update (DataHasher.update (InnerSha256 [])
    (to_cbor (input_record self)))
    (encode_nullable (technical_record_hash self) encode_byte_string))
    (encode_byte_string (shard_configuration_hash self))) in
  let shard := shard (shard_tree_certificate self) in
  let siblings := sibling_hash_list (shard_tree_certificate self) in
  if negb (len siblings =? slength (val shard))
  then Err (UnexpectedValue "shard sibling count differs from shard bit length") else
  foldM (shard_step shard) root (imap pair siblings).

Definition computed_seal_hash (self : UnicityCertificate) : result DataHash :=
  shard_root ← shard_tree_root_hash self;
  Ok (compute_root_hash (unicity_tree_certificate self) (DataHash.data shard_root)).

End hashes.
