(* ===== verification/BftCodec.v ===== *)
(** The wire laws of the BFT trust structures. *)

From S2P Require Import Prelude Bytes Error Cbor CborSpec CborRead CborMap Hash Codec ShardId Ids Bft.
Local Open Scope N_scope.

#[export] Hint Resolve ShardId.decode_no_panic : outcome.

#[export] Instance InputRecord_laws : CodecLaws InputRecord.
Proof.
  split.
  - intros a. codec_unfold InputRecord_codec. eauto 20 with items.
  - intros a. codec_unfold InputRecord_codec. eauto 20 with items.
  - intros limits a _ Ha. codec_unfold InputRecord_codec. codec_forward. by destruct a.
  - done.
  - intros d. codec_unfold InputRecord_codec. solve_no_panic.
Qed.
#[export] Instance InputRecord_canonical : CodecCanonical InputRecord.
Proof. split. intros d a E. codec_unfold InputRecord_codec. codec_inv. codec_close. Qed.

#[export] Instance ShardTreeCertificate_laws : CodecLaws ShardTreeCertificate.
Proof.
  split.
  - intros a. codec_unfold ShardTreeCertificate_codec. eauto 20 with items.
  - intros a. codec_unfold ShardTreeCertificate_codec. eauto 20 with items.
  - intros limits a _ Ha. codec_unfold ShardTreeCertificate_codec. codec_forward.
    rewrite ShardId.decode_encode. codec_forward. by destruct a.
  - done.
  - intros d. codec_unfold ShardTreeCertificate_codec. solve_no_panic.
Qed.
#[export] Instance ShardTreeCertificate_canonical : CodecCanonical ShardTreeCertificate.
Proof.
  split. intros d a E. codec_unfold ShardTreeCertificate_codec. codec_inv.
  match goal with E : ShardId.decode _ = Ok _ |- _ => apply ShardId.decode_inv in E end. codec_close.
Qed.

#[export] Instance HashStep_laws : CodecLaws HashStep.
Proof.
  split.
  - intros a. codec_unfold HashStep_codec. eauto 20 with items.
  - intros a. codec_unfold HashStep_codec. eauto 20 with items.
  - intros limits a _ Ha. codec_unfold HashStep_codec. codec_forward. by destruct a.
  - done.
  - intros d. codec_unfold HashStep_codec. solve_no_panic.
Qed.
#[export] Instance HashStep_canonical : CodecCanonical HashStep.
Proof. split. intros d a E. codec_unfold HashStep_codec. codec_inv. codec_close. Qed.

#[export] Instance UnicityTreeCertificate_laws : CodecLaws UnicityTreeCertificate.
Proof.
  split.
  - intros a. codec_unfold UnicityTreeCertificate_codec. eauto 20 with items.
  - intros a. codec_unfold UnicityTreeCertificate_codec. eauto 20 with items.
  - intros limits a _ Ha. codec_unfold UnicityTreeCertificate_codec. codec_forward. by destruct a.
  - done.
  - intros d. codec_unfold UnicityTreeCertificate_codec. solve_no_panic.
Qed.
#[export] Instance UnicityTreeCertificate_canonical : CodecCanonical UnicityTreeCertificate.
Proof. split. intros d a E. codec_unfold UnicityTreeCertificate_codec. codec_inv. codec_close. Qed.

(** ** The seal *)

Lemma signature_items s : item_entries (signature_entries s).
Proof. apply Forall_fmap, Forall_true. intros [k v]. exact (conj (is_item_text k) (is_item_bytes v)). Qed.

Lemma signatures_enc limits l :
  Forall (fun e => accepts limits (fst e) /\ accepts limits (snd e))
    ((fun e : str * bytes => (encode_text_string (fst e), encode_byte_string (snd e))) <$> l) ->
  mapO signature_from_cbor ((fun e => (with_limits (fst e) limits, with_limits (snd e) limits)) <$>
    ((fun e : str * bytes => (encode_text_string (fst e), encode_byte_string (snd e))) <$> l)) = Ok l.
Proof.
  intros Hl. rewrite <- list_fmap_compose, (mapO_fmap _ _ id), list_fmap_id; [done|].
  intros [k v] Hin. rewrite Forall_fmap, Forall_forall in Hl. specialize (Hl _ Hin). simpl in Hl.
  destruct Hl as [Hk Hv]. unfold signature_from_cbor. simpl. rewrite text_enc, bytes_value_enc by done. done.
Qed.

Lemma signatures_inv limits es l :
  mapO signature_from_cbor ((fun e => (with_limits (fst e) limits, with_limits (snd e) limits)) <$> es) = Ok l ->
  (fun e : str * bytes => (encode_text_string (fst e), encode_byte_string (snd e))) <$> l = es.
Proof.
  rewrite mapO_Forall2. revert l. induction es as [|[k v] es IH]; intros l Hl; csimpl in *;
    inversion Hl as [|? [k' v'] ? ys E Hys]; subst; [done|]. csimpl. f_equal; [|auto].
  unfold signature_from_cbor in E. simpl in E. inv_ok.
  match goal with H : lift (Decoder.text _) = _ |- _ => apply lift_Ok, text_inv in H end.
  match goal with H : lift (Decoder.bytes_value _) = _ |- _ => apply lift_Ok, bytes_value_inv in H end.
  simpl in *. congruence.
Qed.

Lemma no_panic_signature e : no_panic (signature_from_cbor e).
Proof. unfold signature_from_cbor. solve_no_panic. Qed.
#[export] Hint Resolve no_panic_signature : outcome.

#[export] Hint Resolve is_item_encode_map signature_items : items.

(** The signatures slot of an encoded seal reads back. *)
Lemma signature_slot_enc limits s : wf s -> accepts limits (encode_map (signature_entries s)) ->
  (if Decoder.is_null (with_limits (encode_map (signature_entries s)) limits) then Ok [] else
   entries ← lift (Decoder.map (with_limits (encode_map (signature_entries s)) limits));
   mapO signature_from_cbor entries) = Ok (signatures s).
Proof.
  intros Hwf Ha. rewrite not_null_encode_map.
  destruct (map_enc limits (signature_entries s) (signature_items s) (proj1 Hwf) Ha) as [-> Hch].
  cbn [lift map_err]. rewrite bind_Ok_l. by apply signatures_enc.
Qed.

(** A seal that decodes re-encodes to its input unless its signatures slot was
    [null], which re-encodes as the empty map. *)
Lemma seal_reencode d s : from_cbor d = Ok s ->
  to_cbor s = dbytes d \/ (signatures s = [] /\ encode s false = dbytes d).
Proof.
  intros E. codec_unfold UnicitySeal_codec. codec_inv.
  match goal with H : NetworkId.new _ = Ok _ |- _ => apply NetworkId.new_Ok in H as <- end.
  match goal with H : context [Decoder.is_null] |- _ => rename H into Hsig end.
  destruct (Decoder.is_null _) eqn:En.
  - right. injection Hsig as <-. split; [done|].
    match goal with H : Forall _ _ |- _ => rename H into Hacc end.
    do 7 apply Forall_cons in Hacc as [_ Hacc]. apply Forall_cons in Hacc as [Hacc _].
    apply is_null_inv in En; [|done]. simpl dbytes in En. unfold encode. rewrite <- En. codec_close.
  - left. codec_inv.
    match goal with H : Decoder.map _ = Ok _ |- _ => apply map_bytes_inv in H as (es & -> & Hm & _ & _) end.
    apply signatures_inv in Hsig. unfold encode, signature_entries. cbn [signatures]. rewrite Hsig.
    simpl dbytes in Hm. rewrite <- Hm. codec_close.
Qed.

Lemma seal_ascending d s : from_cbor d = Ok s -> ascending None (fst <$> signature_entries s).
Proof.
  intros E. codec_unfold UnicitySeal_codec. codec_inv. unfold signature_entries. cbn [signatures].
  match goal with H : context [Decoder.is_null] |- _ => rename H into Hsig end.
  destruct (Decoder.is_null _); [by injection Hsig as <-|]. codec_inv.
  match goal with H : Decoder.map _ = Ok _ |- _ => apply map_bytes_inv in H as (es & -> & _ & Hasc & _) end.
  apply signatures_inv in Hsig. by rewrite Hsig.
Qed.

(** The empty map is as long as [null]. *)
Lemma seal_small d s : from_cbor d = Ok s -> len (encode s true) <= usize_max.
Proof.
  intros E. assert (len (dbytes d) <= usize_max) as Hl.
  { codec_unfold UnicitySeal_codec. apply bind_Ok in E as (inner & Hi & _).
    apply lift_Ok in Hi. by eapply accepts_len, expect_tag_accepts. }
  apply seal_reencode in E as [E|[Es E]]; [by rewrite <- E in Hl|]. rewrite <- E in Hl.
  etrans; [|exact Hl]. unfold encode, signature_entries. rewrite Es.
  unfold encode_tag, encode_array. rewrite !len_app. simpl fmap. cbn [concat]. rewrite !len_app. done.
Qed.

#[export] Instance UnicitySeal_laws : CodecLaws UnicitySeal.
Proof.
  split.
  - intros a. codec_unfold UnicitySeal_codec. unfold encode. eauto 20 with items.
  - intros a. codec_unfold UnicitySeal_codec. unfold encode. eauto 20 with items.
  - intros limits a Hwf Ha. codec_unfold UnicitySeal_codec. unfold encode in *. codec_forward.
    rewrite (proj2 (NetworkId.new_Ok _ (seal_network_id a)) eq_refl). codec_forward.
    rewrite signature_slot_enc by done. codec_forward. by destruct a.
  - intros d a E. split; [by eapply seal_ascending|by eapply seal_small].
  - intros d. codec_unfold UnicitySeal_codec. solve_no_panic.
Qed.

(** * The certificate *)

#[export] Hint Extern 1 (wf (unicity_seal _)) => assumption : wf.

#[export] Instance UnicityCertificate_laws : CodecLaws UnicityCertificate.
Proof.
  split.
  - intros a. codec_unfold UnicityCertificate_codec. eauto 20 with items.
  - intros a. codec_unfold UnicityCertificate_codec. eauto 20 with items.
  - intros limits a Hwf Ha. codec_unfold UnicityCertificate_codec. codec_forward. by destruct a.
  - intros d a E. codec_unfold UnicityCertificate_codec. repeat inv_ok. cbn [unicity_seal].
    by eapply from_cbor_wf.
  - intros d. codec_unfold UnicityCertificate_codec. solve_no_panic.
Qed.
