(* ===== verification/CodecFacts.v ===== *)
(** Consequences of the codec laws: encodings are injective, and a sequence of
    items determines the items. These give the hash commitments of the library. *)

From S2P Require Import Prelude Bytes Error Cbor CborSpec CborRead Hash Codec Ids.
Local Open Scope N_scope.

(** The weakest limits. *)
Definition limits_max : DecodeLimits := {|
  max_input_bytes := wrap 64 usize_max; max_nesting_depth := wrap 64 usize_max;
  max_collection_items := wrap 64 usize_max; max_total_items := wrap 64 usize_max |}.

Lemma counts_le_len l : Forall (fun i => count i <= len (enc i)) l -> counts l <= len (concat (enc <$> l)).
Proof. unfold counts. induction 1 as [|i l Hi _ IH]; csimpl; [done|]. len_lia. Qed.

Lemma count_le_len i : count i <= len (enc i).
Proof.
  induction i as [k n|k b|l IH|l IH|t j IH] using item_ind'; simpl; rewrite ?len_app;
    try (match goal with |- context [head ?m ?v] => pose proof (head_nonempty m v) end); try lia;
    apply counts_le_len in IH; unfold counts in IH; lia.
Qed.

Lemma fits_max i : forall depth, shape i = true -> depth + len (enc i) <= usize_max -> fits limits_max depth i = true.
Proof.
  assert (val (wrap 64 usize_max) = usize_max) as E by reflexivity.
  induction i as [k n|k b|l IH|l IH|t j IH] using item_ind'; intros depth Hs Hd; cbn [fits shape enc] in *;
    rewrite ?len_app in Hd; unfold limits_max at 1; cbn [max_nesting_depth max_collection_items];
    try (match goal with H : context [head ?m ?v] |- _ => pose proof (head_nonempty m v) end);
    change (val (wrap 64 usize_max)) with usize_max;
    rewrite andb_true_iff; (split; [apply N.leb_le; lia|]).
  - done.
  - apply N.leb_le. lia.
  - pose proof (len_concat_enc l). rewrite andb_true_iff. split; [apply N.leb_le; unfold limits_max; cbn [max_collection_items]; rewrite E; lia|].
    rewrite forallb_Forall in *. rewrite Forall_forall in *. intros x Hx. apply IH; [done|by apply Hs|].
    pose proof (len_le_concat x l Hx). lia.
  - pose proof (len_concat_enc l). apply andb_true_iff in Hs as [He Hs]. rewrite He. cbn [andb].
    rewrite andb_true_iff. split.
    + apply N.leb_le. unfold limits_max; cbn [max_collection_items]; rewrite E.
      apply N.Div0.div_le_upper_bound. lia.
    + rewrite forallb_Forall in *. rewrite Forall_forall in *. intros x Hx. apply IH; [done|by apply Hs|].
      pose proof (len_le_concat x l Hx). lia.
  - apply IH; [done|lia].
Qed.

Lemma accepts_max b : is_item b -> len b <= usize_max -> accepts limits_max b.
Proof.
  intros (i & Hs & ->) Hb. apply accepts_iff. exists i. split; [done|].
  pose proof (count_le_len i). split_and!; [apply fits_max; [done|lia]|..];
    change (val (max_total_items limits_max)) with usize_max; change (val (max_input_bytes limits_max)) with usize_max; lia.
Qed.

(** An encoding determines the value. *)
Lemma to_cbor_inj `{CodecLaws A} (a b : A) : wf a -> wf b -> len (to_cbor a) <= usize_max ->
  to_cbor a = to_cbor b -> a = b.
Proof.
  intros Ha Hb Hl E. pose proof (accepts_max _ (to_cbor_item a) Hl) as Hacc.
  pose proof (from_to_cbor _ a Ha Hacc) as H1. rewrite E in Hacc, H1.
  rewrite (from_to_cbor _ b Hb Hacc) in H1. congruence.
Qed.

Lemma is_item_nonempty b : is_item b -> 1 <= len b.
Proof. intros (i & _ & ->). apply enc_nonempty. Qed.

(** A concatenation of items determines the items. *)
Lemma concat_items_inj bs : forall bs', Forall is_item bs -> Forall is_item bs' ->
  len (concat bs) <= usize_max -> concat bs = concat bs' -> bs = bs'.
Proof.
  induction bs as [|b bs IH]; intros [|b' bs'] Hi Hi' Hl E; [done|..].
  - apply Forall_cons in Hi' as [Hb _]. apply is_item_nonempty in Hb. simpl in E.
    apply (f_equal len) in E. rewrite len_app, len_nil in E. lia.
  - apply Forall_cons in Hi as [Hb _]. apply is_item_nonempty in Hb. simpl in E.
    apply (f_equal len) in E. rewrite len_app, len_nil in E. lia.
  - apply Forall_cons in Hi as [(i & Hs & ->) Hi], Hi' as [(j & Hs' & ->) Hi']. simpl in *.
    apply enc_prefix_free in E as [-> E]; [|done..]. f_equal. apply IH; [done..|rewrite len_app in Hl; lia|done].
Qed.

Lemma encode_array_inv bs bs' : Forall is_item bs -> Forall is_item bs' ->
  len (encode_array bs) <= usize_max -> encode_array bs = encode_array bs' -> bs = bs'.
Proof. apply encode_array_inj. Qed.

Lemma encode_nullable_bytes_inj (o o' : option bytes) :
  (forall b, o = Some b -> len b < 2 ^ 64) -> (forall b, o' = Some b -> len b < 2 ^ 64) ->
  encode_nullable o encode_byte_string = encode_nullable o' encode_byte_string -> o = o'.
Proof.
  intros Ho Ho' E. destruct o as [b|], o' as [b'|]; simpl in E; [..|done].
  - f_equal. apply encode_byte_string_inj; auto.
  - pose proof (not_null_bytes b limits_max) as Hn. by rewrite E in Hn.
  - pose proof (not_null_bytes b' limits_max) as Hn. by rewrite <- E in Hn.
Qed.

Lemma len_byte_string b : len b <= len (encode_byte_string b).
Proof. unfold encode_byte_string. rewrite len_app. lia. Qed.

Lemma len_nullable_bytes o b : o = Some b -> len b <= len (encode_nullable o encode_byte_string).
Proof. intros ->. apply len_byte_string. Qed.
