(* ===== verification/BftSpec.v ===== *)
(** What a unicity certificate commits: two certificates of the same shard and
    partition with the same computed seal hash carry the same input record. *)

From S2P Require Import Prelude Bytes Error Cbor CborSpec CborRead CborMap Hash Codec Radix ShardId Ids Bft BftCodec CodecFacts.
Local Open Scope N_scope.

Section binding.
Context `{Sha2}.

(** The digest of a sequence of items. *)
Definition items_digest (bs : list bytes) : DataHash := sha256 (concat bs).

Lemma finalize_items bs : DataHasher.finalize (foldl DataHasher.update (InnerSha256 []) bs) = items_digest bs.
Proof. apply (update_all bs []). Qed.

(** The messages that are hashed. *)
Context (hashed : bytes -> Prop).

Lemma items_digest_inj bs bs' : hashed (concat bs) -> hashed (concat bs') ->
  Forall is_item bs -> Forall is_item bs' -> len (concat bs) <= usize_max ->
  items_digest bs = items_digest bs' -> bs = bs' \/ Collision hashed.
Proof.
  intros Hq Hq' Hi Hi' Hl E. apply (sha256_inj hashed) in E as [E|]; [left|by right|done..]. by apply concat_items_inj.
Qed.

Lemma items_digest_data bs bs' :
  DataHash.data (items_digest bs) = DataHash.data (items_digest bs') -> items_digest bs = items_digest bs'.
Proof. intros E. apply val_inj. unfold items_digest, sha256 in *. cbn [val] in *. f_equal. exact E. Qed.

Lemma len_digest bs : len (DataHash.data (items_digest bs)) = 32.
Proof. apply (arr_len (Sha256_digest _)). Qed.

Lemma len_bstr b : len (encode_byte_string b) <= len b + 9.
Proof.
  unfold encode_byte_string. rewrite len_app. pose proof (len_head_bound major.BYTES (wrap 64 (len b))).
  unfold head in *. lia.
Qed.

Lemma bstr_inj a b : len a < 2 ^ 63 -> len b < 2 ^ 63 -> encode_byte_string a = encode_byte_string b -> a = b.
Proof. intros. apply encode_byte_string_inj; [lia..|done]. Qed.

(** ** The shard tree *)

Definition shard_node (right : bool) (root : DataHash) (sibling : bytes) : list bytes :=
  if right then [encode_byte_string sibling; encode_byte_string (DataHash.data root)]
  else [encode_byte_string (DataHash.data root); encode_byte_string sibling].

Lemma shard_step_eq s root i sibling : N.of_nat i < slength (val s) ->
  shard_step s root (i, sibling) =
  Ok (items_digest (shard_node (kbit (sbits (val s)) (slength (val s) - (N.of_nat i + 1))) root sibling)).
Proof.
  intros Hi. unfold shard_step. destruct (N.leb_spec (N.of_nat i + 1) (slength (val s))); [|lia].
  cbn [ok_or]. rewrite bind_Ok_l. unfold ShardId.get_bit.
  destruct (N.leb_spec (slength (val s)) (slength (val s) - (N.of_nat i + 1))); [lia|]. rewrite bind_Ok_l.
  pose proof (shard_bits_len s) as Hl. pose proof (div_ceil8_spec (slength (val s))) as [_ Hc].
  rewrite bit_value_kbit by lia. unfold shard_node. f_equal.
  destruct (kbit _ _); cbn [N.b2n N.eqb Pos.eqb].
  - apply (finalize_items [encode_byte_string sibling; encode_byte_string (DataHash.data root)]).
  - apply (finalize_items [encode_byte_string (DataHash.data root); encode_byte_string sibling]).
Qed.

Lemma imap_pair_snoc {A} (l : list A) x : imap pair (l ++ [x]) = imap pair l ++ [(length l, x)].
Proof. rewrite imap_app. simpl. by rewrite Nat.add_0_r. Qed.

(** Folding never fails on as many siblings as the id has bits. *)
Lemma shard_fold_Ok s root l : len l <= slength (val s) ->
  exists h, foldM (shard_step s) root (imap pair l) = Ok h.
Proof.
  induction l as [|x l IH] using rev_ind; intros Hl; [by eexists|].
  rewrite len_app in Hl. change (len [x]) with 1 in Hl. destruct IH as [h Hh]; [lia|].
  rewrite imap_pair_snoc, foldM_app, Hh, bind_Ok_l. cbn [foldM]. rewrite shard_step_eq by (unfold len in Hl; lia).
  by eexists.
Qed.

Lemma is_items_node r root x : Forall is_item (shard_node r root x).
Proof. unfold shard_node. destruct r; eauto with items. Qed.

Lemma len_node r bs x : len x < 2 ^ 63 -> len (concat (shard_node r (items_digest bs) x)) <= usize_max.
Proof.
  intros Hx. pose proof (len_bstr x). pose proof (len_bstr (DataHash.data (items_digest bs))).
  rewrite len_digest in *. unfold shard_node, usize_max. destruct r; cbn [concat]; rewrite !len_app, len_nil; lia.
Qed.

(** The messages of the fold are hashed. *)
Definition shard_hashed (s : ShardId) (root : DataHash) (l : list bytes) : Prop := forall l1 x l2 r,
  l = l1 ++ x :: l2 -> foldM (shard_step s) root (imap pair l1) = Ok r ->
  hashed (concat (shard_node (kbit (sbits (val s)) (slength (val s) - (N.of_nat (length l1) + 1))) r x)).

Lemma shard_hashed_snoc s root l x : shard_hashed s root (l ++ [x]) -> shard_hashed s root l /\
  forall r, foldM (shard_step s) root (imap pair l) = Ok r ->
  hashed (concat (shard_node (kbit (sbits (val s)) (slength (val s) - (N.of_nat (length l) + 1))) r x)).
Proof.
  intros Hh. split; [|intros r; by apply Hh with []].
  intros l1 y l2 r ->. apply Hh with (l2 ++ [x]). by rewrite <- app_assoc.
Qed.

(** The root of the fold commits the leaf it started from. *)
Lemma shard_fold_binding s bs bs' l : forall l' h h', length l = length l' -> len l <= slength (val s) ->
  Forall (fun x => len x < 2 ^ 63) l -> Forall (fun x => len x < 2 ^ 63) l' ->
  shard_hashed s (items_digest bs) l -> shard_hashed s (items_digest bs') l' ->
  foldM (shard_step s) (items_digest bs) (imap pair l) = Ok h ->
  foldM (shard_step s) (items_digest bs') (imap pair l') = Ok h' ->
  (exists b b', h = items_digest b /\ h' = items_digest b') /\
  (h = h' -> items_digest bs = items_digest bs' \/ Collision hashed).
Proof.
  induction l as [|x l IH] using rev_ind; intros l' h h' Hl Hs Hx Hx' Hq Hq' E E'.
  - destruct l'; [|done]. injection E as <-. injection E' as <-. split; [by do 2 eexists|by left].
  - destruct l' as [|x' l' _] using rev_ind; [rewrite length_app in Hl; simpl in Hl; lia|].
    rewrite !length_app, !Nat.add_1_r in Hl. apply eq_add_S in Hl.
    rewrite len_app in Hs. change (len [x]) with 1 in Hs.
    apply Forall_app in Hx as [Hx [Hx0 _]%Forall_cons], Hx' as [Hx' [Hx0' _]%Forall_cons].
    apply shard_hashed_snoc in Hq as [Hq Hqx], Hq' as [Hq' Hqx'].
    rewrite imap_pair_snoc, foldM_app in E, E'. apply bind_Ok in E as (r & Er & E), E' as (r' & Er' & E').
    specialize (Hqx _ Er). specialize (Hqx' _ Er'). rewrite <- Hl in Hqx'.
    destruct (IH l' r r' Hl ltac:(lia) Hx Hx' Hq Hq' Er Er') as [(b & b' & -> & ->) IHb].
    cbn [foldM] in E, E'. rewrite shard_step_eq in E by (unfold len in Hs; lia).
    rewrite shard_step_eq in E' by (rewrite <- Hl; unfold len in Hs; lia).
    rewrite bind_Ok_l in E, E'. injection E as <-. injection E' as <-. split; [by do 2 eexists|].
    rewrite <- Hl. intros E. apply items_digest_inj in E as [E|]; [|by right|done|done|apply is_items_node|apply is_items_node|by apply len_node].
    apply IHb. apply items_digest_data. unfold shard_node in E.
    pose proof (len_digest b). pose proof (len_digest b').
    destruct (kbit _ _); injection E as E1 E2; apply bstr_inj; done || lia.
Qed.

(** ** The unicity tree *)

Definition tree_node (key : bytes) (result : DataHash) (step : HashStep) : list bytes :=
  let skey := be_bytes 4 (val (step_key step)) in
  [encode_byte_string [Byte.x00]; encode_byte_string skey] ++
  match bytes_cmp key skey with
  | Gt => [encode_byte_string (step_hash step); encode_byte_string (DataHash.data result)]
  | _ => [encode_byte_string (DataHash.data result); encode_byte_string (step_hash step)]
  end.

Definition tree_leaf (key : bytes) (shard_root : bytes) : list bytes :=
  [encode_byte_string [Byte.x01]; encode_byte_string key;
   encode_byte_string (DataHash.data (items_digest [encode_byte_string shard_root]))].

Lemma tree_step_eq key r st : tree_step key r st = items_digest (tree_node key r st).
Proof.
  unfold tree_step, tree_node. rewrite <- finalize_items.
  destruct (bytes_cmp _ _); reflexivity.
Qed.

Lemma compute_root_hash_eq c r : compute_root_hash c r =
  foldl (tree_step (be_bytes 4 (val (partition_identifier c))))
    (items_digest (tree_leaf (be_bytes 4 (val (partition_identifier c))) r)) (steps c).
Proof.
  unfold compute_root_hash, tree_leaf, items_digest at 2. cbn [concat]. rewrite app_nil_r.
  rewrite <- finalize_items. reflexivity.
Qed.

Lemma is_items_tree key r st : Forall is_item (tree_node key r st).
Proof. unfold tree_node. destruct (bytes_cmp _ _); cbn [app]; eauto 10 with items. Qed.
Lemma is_items_tree_leaf key r : Forall is_item (tree_leaf key r).
Proof. unfold tree_leaf. eauto 10 with items. Qed.

Lemma len_tree_leaf key r : length key = 4%nat -> len (concat (tree_leaf key r)) <= usize_max.
Proof.
  intros Hk. unfold tree_leaf. cbn [concat]. rewrite !len_app, len_nil.
  pose proof (len_bstr [Byte.x01]). pose proof (len_bstr key).
  pose proof (len_bstr (DataHash.data (items_digest [encode_byte_string r]))). rewrite len_digest in *.
  unfold len in * |-. unfold usize_max. cbn [length] in *. unfold len. lia.
Qed.

Lemma len_tree_node key bs st : len (step_hash st) < 2 ^ 63 ->
  len (concat (tree_node key (items_digest bs) st)) <= usize_max.
Proof.
  intros Hs. pose proof (len_bstr (step_hash st)). pose proof (len_bstr (DataHash.data (items_digest bs))).
  pose proof (len_bstr [Byte.x00]). pose proof (len_bstr (be_bytes 4 (val (step_key st)))) as Hk.
  rewrite len_be_bytes in Hk. rewrite len_digest in *. change (len [Byte.x00]) with 1 in *.
  unfold tree_node, usize_max. destruct (bytes_cmp _ _); cbn [concat app]; rewrite !len_app, len_nil; lia.
Qed.

(** One step: equal nodes have equal keys and equal children on the path side. *)
Lemma tree_node_inj key bs bs' st st' : len (step_hash st) < 2 ^ 63 -> len (step_hash st') < 2 ^ 63 ->
  tree_node key (items_digest bs) st = tree_node key (items_digest bs') st' ->
  items_digest bs = items_digest bs'.
Proof.
  intros Hs Hs' E. pose proof (len_digest bs). pose proof (len_digest bs'). unfold tree_node in E.
  assert (be_bytes 4 (val (step_key st)) = be_bytes 4 (val (step_key st'))) as Ek.
  { apply (f_equal (fun l => nth 1 l [])) in E. cbn [app nth] in E. apply bstr_inj; [rewrite len_be_bytes; lia..|done]. }
  rewrite Ek in E. apply items_digest_data.
  destruct (bytes_cmp _ _); injection E as E1 E2; apply bstr_inj; done || lia.
Qed.

(** The messages of the fold are hashed. *)
Definition tree_hashed (key r : bytes) (l : list HashStep) : Prop :=
  hashed (concat [encode_byte_string r]) /\ hashed (concat (tree_leaf key r)) /\
  forall l1 st l2, l = l1 ++ st :: l2 ->
    hashed (concat (tree_node key (foldl (tree_step key) (items_digest (tree_leaf key r)) l1) st)).

Lemma tree_hashed_snoc key r l st : tree_hashed key r (l ++ [st]) -> tree_hashed key r l /\
  hashed (concat (tree_node key (foldl (tree_step key) (items_digest (tree_leaf key r)) l) st)).
Proof.
  intros (Hr & Hl & Hh). split; [|by apply Hh with []]. split_and!; [done..|].
  intros l1 y l2 ->. apply Hh with (l2 ++ [st]). by rewrite <- app_assoc.
Qed.

Lemma tree_fold_binding key r r' l : length key = 4%nat -> forall l',
  Forall (fun st => len (step_hash st) < 2 ^ 63) l -> Forall (fun st => len (step_hash st) < 2 ^ 63) l' ->
  tree_hashed key r l -> tree_hashed key r' l' ->
  (exists b, foldl (tree_step key) (items_digest (tree_leaf key r)) l = items_digest b) /\
  (foldl (tree_step key) (items_digest (tree_leaf key r)) l =
   foldl (tree_step key) (items_digest (tree_leaf key r')) l' ->
   items_digest (tree_leaf key r) = items_digest (tree_leaf key r') \/ Collision hashed).
Proof.
  intros Hk. induction l as [|st l IH] using rev_ind; intros l' Hl Hl' Hq Hq'.
  - split; [by eexists|]. destruct l' as [|st' l' _] using rev_ind; [by left|].
    apply tree_hashed_snoc in Hq' as [_ Hqx'].
    rewrite foldl_app. cbn [foldl]. rewrite tree_step_eq. intros E.
    apply items_digest_inj in E as [E|]; [|by right|apply Hq|done|apply is_items_tree_leaf|apply is_items_tree|by apply len_tree_leaf].
    exfalso. apply (f_equal length) in E. unfold tree_leaf, tree_node in E. by destruct (bytes_cmp _ _).
  - apply Forall_app in Hl as [Hl [Hst _]%Forall_cons]. apply tree_hashed_snoc in Hq as [Hq Hqx].
    assert (exists b, foldl (tree_step key) (items_digest (tree_leaf key r)) l = items_digest b) as [b Eb].
    { destruct l as [|y l _] using rev_ind; [by eexists|]. rewrite foldl_app. cbn [foldl]. rewrite tree_step_eq. by eexists. }
    split; [rewrite foldl_app; cbn [foldl]; rewrite tree_step_eq; by eexists|].
    rewrite foldl_app. cbn [foldl]. rewrite tree_step_eq, Eb. rewrite Eb in Hqx. intros E.
    destruct l' as [|st' l' _] using rev_ind.
    + symmetry in E. cbn [foldl] in E.
      apply items_digest_inj in E as [E|]; [|by right|apply Hq'|done|apply is_items_tree_leaf|apply is_items_tree|by apply len_tree_leaf].
      exfalso. apply (f_equal length) in E. unfold tree_leaf, tree_node in E. by destruct (bytes_cmp _ _).
    + apply Forall_app in Hl' as [Hl' [Hst' _]%Forall_cons]. apply tree_hashed_snoc in Hq' as [Hq' Hqx'].
      rewrite foldl_app in E. cbn [foldl] in E. rewrite tree_step_eq in E.
      assert (exists b', foldl (tree_step key) (items_digest (tree_leaf key r')) l' = items_digest b') as [b' Eb'].
      { destruct l' as [|y l' _] using rev_ind; [by eexists|]. rewrite foldl_app. cbn [foldl].
        rewrite tree_step_eq. by eexists. }
      rewrite Eb' in E, Hqx'.
      apply items_digest_inj in E as [E|]; [|by right|done|done|apply is_items_tree|apply is_items_tree|by apply len_tree_node].
      apply tree_node_inj in E; [|done..]. destruct (IH l' Hl Hl' Hq Hq') as [_ IHb]. apply IHb. by rewrite Eb, Eb'.
Qed.

(** ** Sizes *)

Lemma len_array_elem b bs : b ∈ bs -> len b <= len (encode_array bs).
Proof.
  intros Hb. unfold encode_array. rewrite len_app. enough (len b <= len (concat bs)) by lia.
  induction Hb as [|x y l _ IH]; csimpl; len_lia.
Qed.

Lemma len_tag t b : len b <= len (encode_tag t b).
Proof. unfold encode_tag. rewrite len_app. lia. Qed.

(** Rust allocations are below [isize::MAX] bytes. *)
Definition small (c : UnicityCertificate) : Prop := len (to_cbor c) < 2 ^ 63.

Lemma small_part c b : small c -> b ∈ [encode_uint VERSION; to_cbor (input_record c);
    encode_nullable (technical_record_hash c) encode_byte_string;
    encode_byte_string (shard_configuration_hash c); to_cbor (shard_tree_certificate c);
    to_cbor (unicity_tree_certificate c); to_cbor (unicity_seal c)] -> len b < 2 ^ 63.
Proof.
  unfold small. codec_unfold UnicityCertificate_codec. intros Hs Hb.
  apply len_array_elem in Hb. eapply N.le_lt_trans; [exact Hb|]. eapply N.le_lt_trans; [apply len_tag|exact Hs].
Qed.

Lemma small_siblings c : small c ->
  Forall (fun x => len x < 2 ^ 63) (sibling_hash_list (shard_tree_certificate c)).
Proof.
  intros Hs. pose proof (small_part c (to_cbor (shard_tree_certificate c)) Hs ltac:(set_solver)) as Hb.
  codec_unfold ShardTreeCertificate_codec. apply Forall_forall. intros x Hx.
  apply (list_elem_of_fmap_2 encode_byte_string) in Hx. apply len_array_elem in Hx.
  eapply N.le_lt_trans; [apply len_byte_string|]. eapply N.le_lt_trans; [exact Hx|].
  eapply N.le_lt_trans; [|exact Hb]. etransitivity; [|apply len_tag]. apply len_array_elem. set_solver.
Qed.

Lemma small_steps c : small c ->
  Forall (fun st => len (step_hash st) < 2 ^ 63) (steps (unicity_tree_certificate c)).
Proof.
  intros Hs. pose proof (small_part c (to_cbor (unicity_tree_certificate c)) Hs ltac:(set_solver)) as Hb.
  codec_unfold UnicityTreeCertificate_codec. apply Forall_forall. intros x Hx.
  apply (list_elem_of_fmap_2 to_cbor) in Hx. apply len_array_elem in Hx.
  eapply N.le_lt_trans; [|eapply N.le_lt_trans; [|exact Hb]].
  - etransitivity; [apply len_byte_string|]. etransitivity; [|exact Hx].
    codec_unfold HashStep_codec. apply len_array_elem. set_solver.
  - etransitivity; [|apply len_tag]. apply len_array_elem. set_solver.
Qed.

(** ** The certificate *)

Definition shard_leaf (c : UnicityCertificate) : list bytes :=
  [to_cbor (input_record c); encode_nullable (technical_record_hash c) encode_byte_string;
   encode_byte_string (shard_configuration_hash c)].

Lemma shard_tree_root_hash_eq c : shard_tree_root_hash c =
  if negb (len (sibling_hash_list (shard_tree_certificate c)) =? slength (val (shard (shard_tree_certificate c))))
  then Err (UnexpectedValue "shard sibling count differs from shard bit length") else
  foldM (shard_step (shard (shard_tree_certificate c))) (items_digest (shard_leaf c))
    (imap pair (sibling_hash_list (shard_tree_certificate c))).
Proof. unfold shard_tree_root_hash. by rewrite <- finalize_items. Qed.

(** It fails exactly when the sibling count is wrong, and never panics. *)
Lemma shard_tree_root_hash_total c :
  (len (sibling_hash_list (shard_tree_certificate c)) = slength (val (shard (shard_tree_certificate c))) /\
   exists h, shard_tree_root_hash c = Ok h) \/
  (len (sibling_hash_list (shard_tree_certificate c)) <> slength (val (shard (shard_tree_certificate c))) /\
   shard_tree_root_hash c = Err (UnexpectedValue "shard sibling count differs from shard bit length")).
Proof.
  rewrite shard_tree_root_hash_eq. destruct (N.eqb_spec (len (sibling_hash_list (shard_tree_certificate c)))
    (slength (val (shard (shard_tree_certificate c))))) as [E|E]; [left|by right].
  split; [done|]. apply shard_fold_Ok. lia.
Qed.

Lemma shard_leaf_inj c c' : hashed (concat (shard_leaf c)) -> hashed (concat (shard_leaf c')) ->
  small c -> small c' -> items_digest (shard_leaf c) = items_digest (shard_leaf c') ->
  (input_record c = input_record c' /\ technical_record_hash c = technical_record_hash c' /\
   shard_configuration_hash c = shard_configuration_hash c') \/ Collision hashed.
Proof.
  intros Hq Hq' Hs Hs' E.
  assert (forall c, Forall is_item (shard_leaf c)) as Hi by (intros; unfold shard_leaf; eauto 10 with items).
  assert (forall c, small c -> len (concat (shard_leaf c)) <= usize_max) as Hl.
  { clear. intros c Hs. unfold small in Hs. codec_unfold UnicityCertificate_codec.
    unfold encode_tag, encode_array, shard_leaf in *. cbn [concat] in *. rewrite !len_app in *.
    unfold usize_max. change (len []) with 0 in *. lia. }
  assert (forall c b, small c -> technical_record_hash c = Some b -> len b < 2 ^ 64) as Ht.
  { clear. intros c b Hs Hb. eapply N.le_lt_trans; [by apply (len_nullable_bytes _ _ Hb)|].
    etransitivity; [apply (small_part c); [done|set_solver]|done]. }
  assert (forall c, small c -> len (shard_configuration_hash c) < 2 ^ 64) as Hc.
  { clear. intros c Hs. eapply N.le_lt_trans; [apply len_byte_string|].
    etransitivity; [apply (small_part c); [done|set_solver]|done]. }
  apply items_digest_inj in E as [E|]; [left|by right|auto..]. unfold shard_leaf in E. clear Hq Hq'.
  assert (forall n, nth n (shard_leaf c) [] = nth n (shard_leaf c') []) as En by (intros; unfold shard_leaf; by rewrite E).
  pose proof (En 0%nat) as E1. pose proof (En 1%nat) as E2. pose proof (En 2%nat) as E3.
  cbn [nth shard_leaf] in E1, E2, E3.
  split_and!.
  - apply to_cbor_inj in E1; [done|exact I..|].
    pose proof (small_part c (to_cbor (input_record c)) Hs ltac:(set_solver)). unfold usize_max. lia.
  - apply encode_nullable_bytes_inj in E2; eauto.
  - apply encode_byte_string_inj in E3; auto.
Qed.

(** The messages that computing the seal hash of [c] hashes. *)
Definition uc_hashed (c : UnicityCertificate) : Prop :=
  hashed (concat (shard_leaf c)) /\
  shard_hashed (shard (shard_tree_certificate c)) (items_digest (shard_leaf c)) (sibling_hash_list (shard_tree_certificate c)) /\
  forall r, shard_tree_root_hash c = Ok r ->
    tree_hashed (be_bytes 4 (val (partition_identifier (unicity_tree_certificate c)))) (DataHash.data r)
      (steps (unicity_tree_certificate c)).

(** C33. Two unicity certificates of one shard and partition with the same
    computed seal hash carry the same input record, technical record hash and
    shard configuration hash, or messages they hash collide. *)
Theorem computed_seal_hash_binding c c' h : uc_hashed c -> uc_hashed c' -> small c -> small c' ->
  shard (shard_tree_certificate c) = shard (shard_tree_certificate c') ->
  partition_identifier (unicity_tree_certificate c) = partition_identifier (unicity_tree_certificate c') ->
  computed_seal_hash c = Ok h -> computed_seal_hash c' = Ok h ->
  (input_record c = input_record c' /\ technical_record_hash c = technical_record_hash c' /\
   shard_configuration_hash c = shard_configuration_hash c') \/ Collision hashed.
Proof.
  intros (Hql & Hqs & Hqt) (Hql' & Hqs' & Hqt') Hs Hs' Esh Ep E E'. unfold computed_seal_hash in E, E'.
  apply bind_Ok in E as (r & Er & E), E' as (r' & Er' & E'). injection E as E. injection E' as E'.
  specialize (Hqt r Er). specialize (Hqt' r' Er').
  rewrite shard_tree_root_hash_eq in Er, Er'. rewrite <- Esh in Er', Hqs'.
  destruct (N.eqb_spec (len (sibling_hash_list (shard_tree_certificate c)))
    (slength (val (shard (shard_tree_certificate c))))) as [Hn|]; [|done].
  destruct (N.eqb_spec (len (sibling_hash_list (shard_tree_certificate c')))
    (slength (val (shard (shard_tree_certificate c))))) as [Hn'|]; [|done]. cbn [negb] in Er, Er'.
  assert (length (sibling_hash_list (shard_tree_certificate c)) = length (sibling_hash_list (shard_tree_certificate c')))
    as Hll by (unfold len in *; lia).
  destruct (shard_fold_binding _ _ _ _ _ _ _ Hll (N.eq_le_incl _ _ Hn)
    (small_siblings c Hs) (small_siblings c' Hs') Hqs Hqs' Er Er') as [(b & b' & -> & ->) Hleaf].
  rewrite !compute_root_hash_eq, <- Ep in *. rewrite <- E' in E.
  destruct (tree_fold_binding (be_bytes 4 (val (partition_identifier (unicity_tree_certificate c))))
    (DataHash.data (items_digest b)) (DataHash.data (items_digest b')) (steps (unicity_tree_certificate c))
    (length_be_bytes _ _) (steps (unicity_tree_certificate c')) (small_steps c Hs) (small_steps c' Hs') Hqt Hqt') as [_ Hb].
  destruct (Hb E) as [Et|]; [|by right]. destruct Hqt as (Hqb & Hqtl & _), Hqt' as (Hqb' & Hqtl' & _).
  apply items_digest_inj in Et as [Et|]; [|by right|done|done|apply is_items_tree_leaf|apply is_items_tree_leaf|
    apply len_tree_leaf, length_be_bytes].
  unfold tree_leaf in Et. apply (f_equal (fun l => nth 2 l [])) in Et. cbn [nth] in Et.
  apply bstr_inj in Et; [|rewrite len_digest; lia..]. apply items_digest_data in Et.
  apply items_digest_inj in Et as [Et|]; [|by right|done|done|eauto with items|eauto with items|].
  - injection Et as Et. apply bstr_inj in Et; [|rewrite len_digest; lia..]. apply items_digest_data in Et.
    destruct (Hleaf Et) as [El|]; [|by right]. by apply shard_leaf_inj.
  - cbn [concat]. rewrite app_nil_r. pose proof (len_bstr (DataHash.data (items_digest b))) as Hlb.
    rewrite len_digest in Hlb. unfold usize_max. lia.
Qed.
End binding.
