(* ===== verification/FifoIndex.v ===== *)
(** The bounded FIFO set behind the verification memos: [src/fifo_index.rs].

    A chained hash table over a power-of-two bucket array plus a queue of
    [(sequence, bucket)] pairs. The capacity is a [usize]; the sequence counter
    and the probe count are [u64]s that wrap, as in a release build. [holds]
    relates an index to the abstract bounded FIFO list it implements; lookups and
    insertions refine it, for every capacity up to [MAX_CAPACITY]. [index_is_queue]
    says what the capacities beyond it give. Running out of memory is not
    modelled: the only limit on the bucket array is the one [Vec] itself has. *)

From S2P Require Import Prelude State Bytes.
From Stdlib Require Import Permutation.
Local Open Scope N_scope.

Section fifo.
Context {T : Type}.

Record Slot : Type := { seq_ : u64; hash_ : u64; value_ : T }.

Record FifoIndex : Type := {
  capacity : usize;
  buckets : list (list Slot);
  order : list (u64 * usize);
  next_seq : u64;
  probes : u64;
}.

(** [usize::next_power_of_two]: above 2^63 a release build wraps to 0. *)
Definition next_power_of_two (n : usize) : usize := wrap 64 (2 ^ N.log2_up (val n)).

(** The bytes of a [Vec] header, the elements of the bucket array. *)
Definition VEC_BYTES : N := 24.
Definition ISIZE_MAX : N := 2 ^ 63 - 1.

(** The index with that many empty buckets. *)
Definition with_buckets (capacity : usize) (n : N) : FifoIndex := {|
  capacity := capacity; buckets := replicate (N.to_nat n) [];
  order := []; next_seq := wrap 64 0; probes := wrap 64 0 |}.

(** [FifoIndex::new]. Collecting the buckets panics ("capacity overflow") when
    the array would exceed [isize::MAX] bytes. *)
Definition new {E} (capacity : usize) : outcome E FifoIndex :=
  let buckets := if val capacity =? 0 then 0 else val (next_power_of_two capacity) in
  if ISIZE_MAX <? buckets * VEC_BYTES then Panic else Ok (with_buckets capacity buckets).

(** [(hash as usize) & (self.buckets.len() - 1)]; without buckets the
    subtraction wraps. *)
Definition bucket (self : FifoIndex) (hash : u64) : usize :=
  wrap 64 (N.land (val hash) (val (wrap 64 (len (buckets self) + 2 ^ 64 - 1)))).

(** The scan of one bucket: the first slot that matches, and the slots examined. *)
Fixpoint scan (slots : list Slot) (hash : u64) (eq : T -> bool) : option T * N :=
  match slots with
  | [] => (None, 0)
  | s :: rest =>
      if (val (hash_ s) =? val hash) && eq (value_ s) then (Some (value_ s), 1)
      else let '(r, n) := scan rest hash eq in (r, n + 1)
  end.

Definition with_probes (self : FifoIndex) (n : N) : FifoIndex := {|
  capacity := capacity self; buckets := buckets self; order := order self;
  next_seq := next_seq self; probes := add_u64 (probes self) n |}.

(** [&self.buckets[b]] *)
Definition slots_at {E} (self : FifoIndex) (b : usize) : outcome E (list Slot) :=
  or_panic (buckets self !! N.to_nat (val b)).

(** [contains]; the value is what a capturing [eq] closure sees when it returns
    [true]. *)
Definition find {E} (hash : u64) (eq : T -> bool) : M FifoIndex E (option T) := fun self =>
  if val (capacity self) =? 0 then (Ok None, self) else
  match slots_at self (bucket self hash) with
  | Ok slots => let '(r, n) := scan slots hash eq in (Ok r, with_probes self n)
  | Err e => (Err e, self)
  | Panic => (Panic, self)
  end.

Definition contains {E} (hash : u64) (eq : T -> bool) : M FifoIndex E bool :=
  r ← find hash eq;
  mret (match r with Some _ => true | None => false end).

(** [Vec::swap_remove] *)
Definition swap_remove (i : nat) (l : list Slot) : list Slot :=
  match last l with
  | Some x => take (Nat.pred (length l)) (<[i := x]> l)
  | None => l
  end.

(** [slots.iter().position(|s| s.seq == seq)] *)
Definition position (l : list Slot) (seq : u64) : option nat :=
  fst <$> list_find (fun s => seq_ s = seq) l.

(** The eviction of the oldest entry. *)
Definition evict {E} (self : FifoIndex) : outcome E FifoIndex :=
  match order self with
  | [] => Ok self
  | (seq, b) :: rest =>
      slots ← slots_at self b;
      Ok (match position slots seq with
      | Some i => {|
          capacity := capacity self; buckets := <[N.to_nat (val b) := swap_remove i slots]> (buckets self);
          order := rest; next_seq := next_seq self; probes := add_u64 (probes self) (N.of_nat i + 1) |}
      | None => {|
          capacity := capacity self; buckets := buckets self;
          order := rest; next_seq := next_seq self; probes := add_u64 (probes self) (len slots) |}
      end)
  end.

Definition push {E} (self : FifoIndex) (hash : u64) (value : T) : outcome E FifoIndex :=
  let b := bucket self hash in
  let seq := next_seq self in
  slots ← slots_at self b;
  Ok {| capacity := capacity self;
     buckets := <[N.to_nat (val b) := slots ++ [{| seq_ := seq; hash_ := hash; value_ := value |}]]> (buckets self);
     order := order self ++ [(seq, b)]; next_seq := add_u64 seq 1; probes := probes self |}.

Definition insert {E} (hash : u64) (value : T) : M FifoIndex E unit := fun self =>
  if val (capacity self) =? 0 then (Ok tt, self) else
  match (self ← (if len (order self) =? val (capacity self) then evict self else Ok self); push self hash value) with
  | Ok self => (Ok tt, self)
  | Err e => (Err e, self)
  | Panic => (Panic, self)
  end.

(** * The abstract list it implements *)

(** The largest capacity whose bucket array a [Vec] can hold. *)
Definition MAX_CAPACITY : N := 2 ^ 58.

(** [l] are the entries, oldest first; their sequence numbers are consecutive
    modulo 2^64, so that no two of the entries held at once share one. *)
Record holds (self : FifoIndex) (l : list Slot) : Prop := {
  h_order : order self = (fun s => (seq_ s, bucket self (hash_ s))) <$> l;
  h_seqs : exists n, next_seq self = wrap 64 (n + len l) /\ forall i s, l !! i = Some s -> seq_ s = wrap 64 (n + N.of_nat i);
  h_fits : val (capacity self) <= MAX_CAPACITY;
  h_buckets : len (buckets self) = (if val (capacity self) =? 0 then 0 else val (next_power_of_two (capacity self)));
  h_slots : forall b slots, buckets self !! N.to_nat (val b) = Some slots ->
    slots ≡ₚ filter (fun s => bucket self (hash_ s) = b) l;
  h_capacity : len l <= val (capacity self);
}.

(** Up to 2^63 nothing wraps. *)
Lemma next_power_of_two_spec n : val n <= 2 ^ 63 -> val (next_power_of_two n) = 2 ^ N.log2_up (val n) /\ N.log2_up (val n) <= 63.
Proof.
  intros Hn. assert (N.log2_up (val n) <= 63) as Hl.
  { destruct (decide (val n = 0)) as [->|]; [done|]. apply N.log2_up_le_pow2; lia. }
  split; [|done]. apply val_wrap. apply N.pow_lt_mono_r; lia.
Qed.

(** Above, no buckets are left. *)
Lemma next_power_of_two_over n : 2 ^ 63 < val n -> val (next_power_of_two n) = 0.
Proof.
  intros Hn. assert (N.log2_up (val n) = 64) as E; [|unfold next_power_of_two; by rewrite E].
  apply N.le_antisymm.
  - apply N.log2_up_le_pow2; [lia|]. apply N.lt_le_incl, uint_bound.
  - enough (63 < N.log2_up (val n)) by lia. apply N.log2_up_lt_pow2; lia.
Qed.

Lemma bucket_mask self hash k : len (buckets self) = 2 ^ k -> k <= 63 -> val (bucket self hash) = val hash mod 2 ^ k.
Proof.
  intros Hb Hk. unfold bucket. rewrite Hb.
  assert (2 ^ k <= 2 ^ 63) as Hp by (apply N.pow_le_mono_r; lia). pose proof (N.pow_nonzero 2 k ltac:(done)) as Hz.
  assert (val (wrap 64 (2 ^ k + 2 ^ 64 - 1)) = N.ones k) as ->.
  { rewrite N.ones_equiv. change (val (wrap 64 ?v)) with (v mod 2 ^ 64).
    replace (2 ^ k + 2 ^ 64 - 1) with (N.pred (2 ^ k) + 1 * 2 ^ 64) by lia.
    rewrite N.Div0.mod_add. apply N.mod_small. lia. }
  rewrite N.land_ones, val_wrap; [done|]. pose proof (N.mod_upper_bound (val hash) (2 ^ k) Hz). lia.
Qed.

(** The bucket of a hash is one of the buckets. *)
Lemma bucket_range self l hash : holds self l -> val (capacity self) <> 0 -> (N.to_nat (val (bucket self hash)) < length (buckets self))%nat.
Proof.
  intros [_ _ Hm Hb _ _] Hc. rewrite (proj2 (N.eqb_neq _ _) Hc) in Hb.
  destruct (next_power_of_two_spec (capacity self)) as [E Hl]; [unfold MAX_CAPACITY in Hm; lia|]. rewrite E in Hb.
  pose proof (bucket_mask self hash _ Hb Hl) as ->. pose proof (N.mod_upper_bound (val hash) _ (N.pow_nonzero 2 (N.log2_up (val (capacity self))) ltac:(done))).
  unfold len in Hb. lia.
Qed.

(** Two entries held at once have distinct sequence numbers. *)
Lemma seqs_inj self l i j s s' : holds self l -> l !! i = Some s -> l !! j = Some s' -> seq_ s = seq_ s' -> i = j.
Proof.
  intros [_ (n & _ & Hs) Hf _ _ Hc] Hi Hj E. rewrite (Hs _ _ Hi), (Hs _ _ Hj) in E. apply (f_equal val) in E. simpl in E.
  apply lookup_lt_Some in Hi, Hj. unfold len, MAX_CAPACITY in *.
  zify. Z.to_euclidean_division_equations. lia.
Qed.

Definition matches (hash : u64) (eq : T -> bool) (s : Slot) : bool :=
  (val (hash_ s) =? val hash) && eq (value_ s).

Lemma scan_spec slots hash eq : snd (scan slots hash eq) <= len slots /\
  match fst (scan slots hash eq) with
  | Some v => exists s, s ∈ slots /\ matches hash eq s = true /\ value_ s = v
  | None => forall s, s ∈ slots -> matches hash eq s = false
  end.
Proof.
  induction slots as [|s slots [IHn IH]]; simpl; [split; [done|set_solver]|].
  fold (matches hash eq s). destruct (matches hash eq s) eqn:E; simpl.
  - split; [rewrite len_cons; lia|]. exists s. set_solver.
  - destruct (scan slots hash eq) as [r n]. simpl in *. split; [rewrite len_cons; lia|].
    destruct r; [|set_solver]. destruct IH as (s' & ? & ? & ?). exists s'. set_solver.
Qed.

Lemma slots_at_holds {E} self l hash : holds self l -> val (capacity self) <> 0 ->
  exists slots, slots_at (E := E) self (bucket self hash) = Ok slots /\
    buckets self !! N.to_nat (val (bucket self hash)) = Some slots /\
    slots ≡ₚ filter (fun s => bucket self (hash_ s) = bucket self hash) l.
Proof.
  intros Hh Hc. pose proof (bucket_range _ _ hash Hh Hc) as Hr. apply lookup_lt_is_Some in Hr as [slots Hs].
  exists slots. unfold slots_at. rewrite Hs. split_and!; [done..|]. by apply (h_slots _ _ Hh).
Qed.

(** A lookup answers as a scan of the whole list would: it finds a matching entry
    if and only if there is one, and examines at most [capacity] slots. *)
Lemma find_spec {E} self l hash eq : holds self l -> exists r self', find (E := E) hash eq self = (Ok r, self') /\
  match r with
  | Some v => exists s, s ∈ l /\ matches hash eq s = true /\ value_ s = v
  | None => forall s, s ∈ l -> matches hash eq s = false
  end /\ holds self' l /\ capacity self' = capacity self /\
  exists n, n <= val (capacity self) /\ probes self' = add_u64 (probes self) n.
Proof.
  intros Hh. unfold find. destruct (N.eqb_spec (val (capacity self)) 0) as [Hc|Hc].
  { exists None, self. pose proof (h_capacity _ _ Hh). destruct l; [|rewrite len_cons in *; lia].
    split_and!; [done|set_solver|done|done|]. exists 0. split; [lia|]. unfold add_u64. by rewrite N.add_0_r, wrap_val. }
  destruct (slots_at_holds (E := E) self l hash Hh Hc) as (slots & -> & _ & Hp).
  destruct (scan_spec slots hash eq) as [Hn Hscan]. destruct (scan slots hash eq) as [r n]. simpl in Hn, Hscan.
  exists r, (with_probes self n). split; [done|]. split_and!; [|destruct Hh; by constructor|done|exists n; split; [|done]].
  - destruct r as [v|].
    + destruct Hscan as (s & Hin & Hm & <-). exists s. rewrite Hp in Hin. by apply list_elem_of_filter in Hin as [_ ?].
    + intros s Hin. destruct (matches hash eq s) eqn:Em; [|done]. rewrite <- (Hscan s); [done|].
      rewrite Hp. apply list_elem_of_filter. split; [|done].
      unfold matches in Em. apply andb_true_iff in Em as [Em _]. apply N.eqb_eq, val_inj in Em. by rewrite Em.
  - pose proof (h_capacity _ _ Hh). apply Permutation_length in Hp.
    pose proof (length_filter (fun s => bucket self (hash_ s) = bucket self hash) l). unfold len in *. lia.
Qed.

Lemma swap_remove_perm i l s : l !! i = Some s -> s :: swap_remove i l ≡ₚ l.
Proof.
  intros Hi. unfold swap_remove. destruct l as [|y l _] using rev_ind; [done|].
  rewrite last_snoc, length_app, Nat.add_1_r. cbn [Nat.pred].
  destruct (decide (i < length l)%nat) as [Hlt|Hge].
  - rewrite insert_app_l by done. rewrite take_app_length' by by rewrite length_insert.
    rewrite lookup_app_l in Hi by done. rewrite <- (take_drop_middle l i s Hi) at 2.
    rewrite insert_take_drop by done. rewrite <- (Permutation_cons_append _ y), <- !Permutation_middle.
    apply perm_swap.
  - apply lookup_lt_Some in Hi as Hl. rewrite length_app in Hl. simpl in Hl. assert (i = length l) as -> by lia.
    rewrite lookup_app_r, Nat.sub_diag in Hi by lia. simpl in Hi. injection Hi as ->.
    rewrite insert_app_r_alt, Nat.sub_diag by lia. simpl. rewrite take_app_length. apply Permutation_cons_append.
Qed.

Lemma bucket_same self self' hash : length (buckets self) = length (buckets self') -> bucket self hash = bucket self' hash.
Proof. intros E. unfold bucket, len. by rewrite E. Qed.

Lemma filter_bucket_same self self' b (l : list Slot) : length (buckets self) = length (buckets self') ->
  filter (fun s => bucket self (hash_ s) = b) l = filter (fun s => bucket self' (hash_ s) = b) l.
Proof. intros E. apply list_filter_iff. intros s. by rewrite (bucket_same self self' _ E). Qed.

Lemma index_ne (b b' : usize) : b' <> b -> N.to_nat (val b) <> N.to_nat (val b').
Proof. intros Hne E%N2Nat.inj. apply Hne. by apply val_inj. Qed.

Lemma evict_holds {E} self s l : holds self (s :: l) -> val (capacity self) <> 0 ->
  exists self', evict (E := E) self = Ok self' /\ holds self' l /\ capacity self' = capacity self /\ next_seq self' = next_seq self.
Proof.
  intros Hh Hc. unfold evict. rewrite (h_order _ _ Hh). csimpl. set (b := bucket self (hash_ s)).
  destruct (slots_at_holds (E := E) self _ (hash_ s) Hh Hc) as (slots & Hat & Hsl & Hp). fold b in Hat, Hsl, Hp. rewrite Hat, bind_Ok_l.
  rewrite filter_cons_True in Hp by done. assert (s ∈ slots) as Hin by (rewrite Hp; left).
  unfold position. destruct (list_find _ slots) as [[i s']|] eqn:Ef; cbn [fmap option_fmap option_map fst].
  2: { apply list_find_None in Ef. rewrite Forall_forall in Ef. by destruct (Ef s). }
  apply list_find_Some in Ef as (Hi & Es & _).
  assert (s' = s) as ->.
  { apply list_elem_of_lookup_2 in Hi. rewrite Hp in Hi. apply elem_of_cons in Hi as [->|Hi]; [done|].
    apply list_elem_of_filter in Hi as [_ (j & Hj)%list_elem_of_lookup].
    by pose proof (seqs_inj self (s :: l) (S j) 0 s' s Hh Hj eq_refl Es). }
  eexists. split; [done|]. set (self' := {| capacity := _ |}).
  assert (length (buckets self') = length (buckets self)) as Hlen by apply length_insert.
  destruct Hh as [Ho (n & Hn & Hs) Hf Hb Hslots Hcap]. split; [|done]. constructor; cbn [capacity order next_seq self']; try done.
  - apply list_fmap_ext. intros ? x _. by rewrite (bucket_same _ _ _ Hlen).
  - exists (n + 1). rewrite len_cons in Hn. split; [rewrite Hn; f_equal; lia|]. intros j x Hj. rewrite (Hs (S j) x Hj). f_equal. lia.
  - unfold len in *. by rewrite Hlen.
  - intros b' slots' Hb'. rewrite (filter_bucket_same self' self b' l Hlen). change (buckets self') with (<[N.to_nat (val b) := swap_remove i slots]> (buckets self)) in Hb'.
    destruct (decide (b' = b)) as [->|Hne].
    + rewrite list_lookup_insert_eq in Hb' by (by apply lookup_lt_Some in Hsl). injection Hb' as <-.
      apply (Permutation_cons_inv (a := s)). rewrite <- Hp. by apply swap_remove_perm.
    + rewrite list_lookup_insert_ne in Hb' by (by apply index_ne). rewrite (Hslots _ _ Hb').
      by rewrite filter_cons_False by (fold b; congruence).
  - rewrite len_cons in Hcap. lia.
Qed.

Lemma push_holds {E} self l hash value : holds self l -> len l < val (capacity self) -> exists self',
  push (E := E) self hash value = Ok self' /\ capacity self' = capacity self /\
  holds self' (l ++ [{| seq_ := next_seq self; hash_ := hash; value_ := value |}]).
Proof.
  intros Hh Hlt. unfold push. destruct (slots_at_holds (E := E) self _ hash Hh ltac:(lia)) as (slots & -> & Hsl & Hp). rewrite bind_Ok_l.
  set (x := {| seq_ := next_seq self; hash_ := hash; value_ := value |}).
  eexists. split; [done|]. split; [done|]. set (self' := {| capacity := _ |}).
  assert (length (buckets self') = length (buckets self)) as Hlen by apply length_insert.
  destruct Hh as [Ho (n & Hn & Hs) Hf Hb Hslots Hcap]. constructor; cbn [capacity order next_seq self']; try done.
  - rewrite Ho, fmap_app. csimpl. rewrite (bucket_same _ _ _ Hlen). f_equal.
    apply list_fmap_ext. intros ? y _. by rewrite (bucket_same _ _ _ Hlen).
  - exists n. rewrite len_app, len_cons, len_nil. split.
    + rewrite Hn. apply val_inj. simpl. rewrite N.Div0.add_mod_idemp_l. f_equal. lia.
    + intros i y [Hy|[Hi Hy]]%lookup_app_Some; [by apply Hs|]. destruct (i - length l)%nat eqn:Ei; [|done]. injection Hy as <-.
      cbn [seq_ x]. rewrite Hn. f_equal. unfold len. lia.
  - unfold len in *. by rewrite Hlen.
  - intros b slots' Hb'. rewrite (filter_bucket_same self' self b _ Hlen), filter_app. cbn [buckets self'] in Hb'.
    destruct (decide (b = bucket self hash)) as [->|Hne].
    + rewrite list_lookup_insert_eq in Hb' by (by apply lookup_lt_Some in Hsl). injection Hb' as <-.
      rewrite filter_cons_True by done. by rewrite Hp.
    + rewrite list_lookup_insert_ne in Hb' by (by apply index_ne).
      rewrite filter_cons_False by (cbn [hash_ x]; congruence). rewrite filter_nil, app_nil_r. by apply Hslots.
  - rewrite len_app, len_cons, len_nil. lia.
Qed.

(** [insert] on the abstract list: nothing for capacity 0, otherwise the oldest
    entry is dropped when the list is full and the new one appended. *)
Definition fifo_insert (cap : N) (l : list Slot) (x : Slot) : list Slot :=
  if cap =? 0 then l else
  (if len l =? cap then tail l else l) ++ [x].

Lemma insert_holds {E} self l hash value : holds self l -> exists self', insert (E := E) hash value self = (Ok tt, self') /\
  capacity self' = capacity self /\
  holds self' (fifo_insert (val (capacity self)) l {| seq_ := next_seq self; hash_ := hash; value_ := value |}).
Proof.
  intros Hh. unfold insert, fifo_insert. destruct (N.eqb_spec (val (capacity self)) 0) as [Hc|Hc]; [by exists self|].
  assert (len (order self) = len l) as -> by (rewrite (h_order _ _ Hh); unfold len; by rewrite length_fmap).
  destruct (N.eqb_spec (len l) (val (capacity self))) as [El|El].
  - destruct l as [|s l]; [by rewrite len_nil in El|]. destruct (evict_holds (E := E) _ _ _ Hh Hc) as (self1 & -> & He & Hcap & Hseq).
    rewrite bind_Ok_l. destruct (push_holds (E := E) self1 l hash value He) as (self2 & -> & Hcap2 & H2); [rewrite Hcap; rewrite len_cons in El; lia|].
    exists self2. rewrite Hcap2, Hcap. split_and!; [done..|]. by rewrite Hseq in H2.
  - rewrite bind_Ok_l. pose proof (h_capacity _ _ Hh). destruct (push_holds (E := E) self l hash value Hh ltac:(lia)) as (self2 & -> & Hcap2 & H2).
    by exists self2.
Qed.

(** What an insertion keeps: every entry is the new one or was there. *)
Lemma elem_fifo_insert cap l x y : y ∈ fifo_insert cap l x -> y = x \/ y ∈ l.
Proof.
  unfold fifo_insert. destruct (cap =? 0); [by right|]. rewrite elem_of_app, list_elem_of_singleton.
  intros [Hy|Hy]; [right|by left]. destruct (_ =? _); [|done]. destruct l; [done|]. by right.
Qed.

(** ** Construction *)

(** The index that [new] returns. *)
Definition empty (cap : usize) : FifoIndex :=
  with_buckets cap (if val cap =? 0 then 0 else val (next_power_of_two cap)).

Lemma new_fits {E} cap : val cap <= MAX_CAPACITY -> new (E := E) cap = Ok (empty cap).
Proof.
  intros Hc. unfold new, empty. destruct (N.eqb_spec (val cap) 0) as [E0|E0]; [done|].
  destruct (next_power_of_two_spec cap) as [-> _]; [unfold MAX_CAPACITY in Hc; lia|].
  assert (2 ^ N.log2_up (val cap) <= 2 ^ 58) as Hp.
  { apply N.pow_le_mono_r; [done|]. apply N.log2_up_le_pow2; [lia|exact Hc]. }
  destruct (N.ltb_spec ISIZE_MAX (2 ^ N.log2_up (val cap) * VEC_BYTES)) as [Hl|]; [|done]. exfalso. unfold ISIZE_MAX, VEC_BYTES in Hl. lia.
Qed.

Lemma new_overflows {E} cap : MAX_CAPACITY < val cap <= 2 ^ 63 -> new (E := E) cap = Panic.
Proof.
  intros [Hc Hm]. unfold new. destruct (N.eqb_spec (val cap) 0) as [E0|E0]; [rewrite E0 in Hc; done|].
  destruct (next_power_of_two_spec cap) as [-> _]; [done|].
  assert (2 ^ 59 <= 2 ^ N.log2_up (val cap)) as Hp.
  { apply N.pow_le_mono_r; [done|]. enough (58 < N.log2_up (val cap)) by lia. apply N.log2_up_lt_pow2; [lia|exact Hc]. }
  destruct (N.ltb_spec ISIZE_MAX (2 ^ N.log2_up (val cap) * VEC_BYTES)) as [|Hl]; [done|]. exfalso. unfold ISIZE_MAX, VEC_BYTES in Hl. lia.
Qed.

Lemma new_wraps {E} cap : 2 ^ 63 < val cap -> new (E := E) cap = Ok (with_buckets cap 0).
Proof.
  intros Hc. unfold new. destruct (N.eqb_spec (val cap) 0) as [E0|E0]; [rewrite E0 in Hc; done|].
  by rewrite next_power_of_two_over.
Qed.

Lemma empty_holds cap : val cap <= MAX_CAPACITY -> holds (empty cap) [].
Proof.
  intros Hc. constructor; cbn [empty with_buckets capacity order next_seq buckets]; try done.
  - by exists 0.
  - unfold len. rewrite length_replicate. by rewrite N2Nat.id.
  - intros b slots Hs. apply lookup_replicate in Hs as [-> _]. done.
  - rewrite len_nil. lia.
Qed.

(** Without buckets every operation panics. *)
Lemma find_no_buckets {E} cap hash eq : val cap <> 0 -> fst (find (E := E) hash eq (with_buckets cap 0)) = Panic.
Proof. intros Hc%N.eqb_neq. unfold find. cbn [with_buckets capacity]. by rewrite Hc. Qed.

Lemma insert_no_buckets {E} cap hash value : val cap <> 0 -> fst (insert (E := E) hash value (with_buckets cap 0)) = Panic.
Proof. intros Hc%N.eqb_neq. unfold insert. cbn [with_buckets capacity order]. rewrite Hc. by destruct (len [] =? val cap). Qed.

(** ** No call panics *)

(** An index in use. *)
Definition indexed (self : FifoIndex) : Prop := exists l, holds self l.

Lemma indexed_empty cap : val cap <= MAX_CAPACITY -> indexed (empty cap).
Proof. exists []. by apply empty_holds. Qed.

Lemma find_steady {E} hash eq : steady indexed (find (E := E) hash eq).
Proof. intros self [l Hl]. destruct (find_spec (E := E) self l hash eq Hl) as (r & self' & -> & _ & Hl' & _). split; [done|by exists l]. Qed.

Lemma contains_steady {E} hash eq : steady indexed (contains (E := E) hash eq).
Proof. apply steady_bind; [apply find_steady|]. intros r. apply steady_ret. Qed.

Lemma insert_steady {E} hash value : steady indexed (insert (E := E) hash value).
Proof. intros self [l Hl]. destruct (insert_holds (E := E) self l hash value Hl) as (self' & -> & _ & Hl'). split; [done|by eexists]. Qed.

(** ** Runs *)

Inductive op : Type :=
| Insert (hash : u64) (value : T)
| Contains (hash : u64) (eq : T -> bool).

(** What a run answers, and what the queue of the last [cap] insertions would. *)
Fixpoint run {E} (ops : list op) : M FifoIndex E (list bool) :=
  match ops with
  | [] => mret []
  | Insert hash value :: ops => _ ← insert hash value; run ops
  | Contains hash eq :: ops => b ← contains hash eq; bs ← run ops; mret (b :: bs)
  end.

Definition run_new {E} (cap : usize) (ops : list op) : outcome E (list bool) :=
  index ← new cap; fst (run ops index).

Fixpoint queue_run (cap : nat) (queue : list (u64 * T)) (ops : list op) : list bool :=
  match ops with
  | [] => []
  | Insert hash value :: ops =>
      queue_run cap (drop (S (length queue) - cap) (queue ++ [(hash, value)])) ops
  | Contains hash eq :: ops =>
      existsb (fun e => (val (fst e) =? val hash) && eq (snd e)) queue :: queue_run cap queue ops
  end.

Definition entries (l : list Slot) : list (u64 * T) := (fun s => (hash_ s, value_ s)) <$> l.

Lemma entries_insert cap l x : len l <= cap ->
  entries (fifo_insert cap l x) = drop (S (length (entries l)) - N.to_nat cap) (entries l ++ [(hash_ x, value_ x)]).
Proof.
  intros Hl. unfold fifo_insert, entries. rewrite length_fmap. unfold len in *. destruct (N.eqb_spec cap 0) as [->|Hc].
  - destruct l; [|simpl in Hl; lia]. done.
  - destruct (N.eqb_spec (N.of_nat (length l)) cap) as [<-|Hn].
    + replace (S (length l) - N.to_nat (N.of_nat (length l)))%nat with 1%nat by lia. destruct l; [done|]. simpl. by rewrite fmap_app.
    + replace (S (length l) - N.to_nat cap)%nat with 0%nat by lia. by rewrite fmap_app.
Qed.

Lemma contains_spec {E} self l hash eq : holds self l -> exists self', contains (E := E) hash eq self =
  (Ok (existsb (fun e => (val (fst e) =? val hash) && eq (snd e)) (entries l)), self') /\
  holds self' l /\ capacity self' = capacity self.
Proof.
  intros Hh. destruct (find_spec (E := E) self l hash eq Hh) as (r & self' & Ef & Hf & Hh' & Hc & _). unfold contains.
  rewrite bindM_run, Ef. exists self'. split; [|done]. unfold entries.
  assert (forall b b' : bool, b' = b -> mret (M := M FifoIndex E) b self' = (Ok b', self')) as Hr by by intros ? ? ->.
  apply Hr. destruct r as [v|].
  - destruct Hf as (s & Hs & Hm & _). apply existsb_exists. exists (hash_ s, value_ s).
    split; [|done]. apply list_elem_of_In. by apply (list_elem_of_fmap_2 (fun s => (hash_ s, value_ s))).
  - apply not_true_is_false. intros (e & He & Hm)%existsb_exists. apply list_elem_of_In, list_elem_of_fmap in He as (s & -> & Hs).
    specialize (Hf s Hs). unfold matches in Hf. simpl in Hm. congruence.
Qed.

(** A hit names an entry. *)
Lemma contains_entry {E} self l hash eq : holds self l -> exists hit self', contains (E := E) hash eq self = (Ok hit, self') /\
  holds self' l /\ (hit = true -> exists e, e ∈ l /\ eq (value_ e) = true).
Proof.
  intros Hh. destruct (contains_spec (E := E) self l hash eq Hh) as (self' & E1 & Hh' & _). eexists _, self'. split_and!; [exact E1|done|].
  intros (e & He & [_ Hm]%andb_true_iff)%existsb_exists. apply list_elem_of_In, list_elem_of_fmap in He as (s & -> & Hs). by exists s.
Qed.

Lemma run_queue {E} ops : forall self l, holds self l ->
  fst (run (E := E) ops self) = Ok (queue_run (N.to_nat (val (capacity self))) (entries l) ops).
Proof.
  induction ops as [|[hash value|hash eq] ops IH]; intros self l Hh; [done|..]; cbn [run queue_run]; rewrite bindM_run.
  - destruct (insert_holds (E := E) self l hash value Hh) as (self' & -> & Hc & Hh'). rewrite (IH _ _ Hh'), Hc. do 2 f_equal.
    apply entries_insert, (h_capacity _ _ Hh).
  - destruct (contains_spec (E := E) self l hash eq Hh) as (self' & -> & Hh' & Hc). rewrite bindM_run.
    specialize (IH _ _ Hh'). rewrite Hc in IH. destruct (run ops self') as [r s]. cbn [fst] in IH. by subst r.
Qed.

(** C40. The index is a queue up to the capacity that memory addressing allows:
    over any sequence of insertions and membership tests from a new index of at
    most 2^58 entries, each test answers whether one of the last [cap] inserted
    entries has the hash and satisfies the predicate, however often the
    counters wrap. Of a larger capacity [new] panics, or, above 2^63, the first
    operation does. *)
Theorem index_is_queue {E} cap ops : run_new (E := E) cap ops =
  if val cap <=? 2 ^ 58 then Ok (queue_run (N.to_nat (val cap)) [] ops)
  else if val cap <=? 2 ^ 63 then Panic
  else match ops with [] => Ok [] | _ => Panic end.
Proof.
  unfold run_new. destruct (N.leb_spec (val cap) (2 ^ 58)) as [Hc|Hc].
  - rewrite (new_fits cap Hc), bind_Ok_l. by apply (run_queue ops (empty cap) []), empty_holds.
  - destruct (N.leb_spec (val cap) (2 ^ 63)); [by rewrite new_overflows|]. rewrite new_wraps, bind_Ok_l by done.
    destruct ops as [|[hash value|hash eq] ops]; [done|..]; cbn [run]; rewrite ?bindM_run.
    + pose proof (insert_no_buckets (E := E) cap hash value ltac:(lia)) as Hi. by destruct (insert _ _ _) as [[]].
    + pose proof (find_no_buckets (E := E) cap hash eq ltac:(lia)) as Hf. unfold contains. rewrite bindM_run. by destruct (find _ _ _) as [[]].
Qed.
End fifo.
Arguments Slot : clear implicits.
Arguments op : clear implicits.
Arguments FifoIndex : clear implicits.
