(* ===== verification/UcInterner.v ===== *)
(** Interning of decoded unicity certificates: [src/api/bft/uc_interner.rs].

    [decode_transparent] is the contract: under one set of decode limits, an
    interner answers exactly as [UnicityCertificate::from_cbor] would, whatever
    was decoded before. *)

From S2P Require Import Prelude State Bytes Error Cbor CborSpec CborRead Codec Bft BftCodec FifoIndex.
Local Open Scope N_scope.

Definition DEFAULT_UC_INTERNER_CAPACITY : usize := wrap 64 256.

Record DecodeStats : Type := { uc_decodes : u64; uc_hits : u64 }.

Record UcInterner : Type := {
  index : FifoIndex (bytes * UnicityCertificate);
  stats : DecodeStats;
}.

Definition over_index (index : FifoIndex (bytes * UnicityCertificate)) : UcInterner :=
  {| index := index; stats := {| uc_decodes := wrap 64 0; uc_hits := wrap 64 0 |} |}.

Definition with_capacity {E} (capacity : usize) : outcome E UcInterner :=
  index ← FifoIndex.new capacity;
  Ok (over_index index).

(** What [with_capacity] returns when it does, and [UcInterner::new] always
    ([new_default]). *)
Definition empty_interner (capacity : usize) : UcInterner := over_index (FifoIndex.empty capacity).

Definition new : UcInterner := empty_interner DEFAULT_UC_INTERNER_CAPACITY.

Lemma with_capacity_fits {E} capacity : val capacity <= MAX_CAPACITY -> with_capacity (E := E) capacity = Ok (empty_interner capacity).
Proof. intros Hc. unfold with_capacity. by rewrite (FifoIndex.new_fits _ Hc). Qed.

Lemma default_fits : val DEFAULT_UC_INTERNER_CAPACITY <= MAX_CAPACITY.
Proof. by vm_compute. Qed.

Lemma new_default {E} : with_capacity (E := E) DEFAULT_UC_INTERNER_CAPACITY = Ok new.
Proof. apply with_capacity_fits, default_fits. Qed.

(** FNV-1a *)
Definition fingerprint (b : bytes) : u64 :=
  foldl (fun h x => wrap 64 (N.lxor (val h) (b2n x) * 0x100000001b3)) (wrap 64 0xcbf29ce484222325) b.

Definition set_index (index : FifoIndex (bytes * UnicityCertificate)) (self : UcInterner) : UcInterner :=
  {| index := index; stats := stats self |}.
Definition count_hit (self : UcInterner) : UcInterner :=
  {| index := index self; stats := {| uc_decodes := uc_decodes (stats self); uc_hits := add_u64 (uc_hits (stats self)) 1 |} |}.
Definition count_decode (self : UcInterner) : UcInterner :=
  {| index := index self; stats := {| uc_decodes := add_u64 (uc_decodes (stats self)) 1; uc_hits := uc_hits (stats self) |} |}.

(** The part of [decode] after a miss. *)
Definition decode_miss (d : Decoder) : M UcInterner Error UnicityCertificate :=
  _ ← modify count_decode;
  uc ← liftM (from_cbor d);
  _ ← zoom index set_index (FifoIndex.insert (fingerprint (dbytes d)) (dbytes d, uc));
  mret uc.

Definition decode (d : Decoder) : M UcInterner Error UnicityCertificate :=
  let b := dbytes d in
  let hash := fingerprint b in
  found ← zoom index set_index (FifoIndex.find hash (fun e => bool_decide (fst e = b)));
  match found with
  | Some (_, uc) => _ ← modify count_hit; mret uc
  | None => decode_miss d
  end.

(** * Its contract *)

(** The entries of the interner, oldest first, satisfy [P]. *)
Definition remembers (P : bytes -> UnicityCertificate -> Prop) (self : UcInterner) : Prop :=
  exists l, FifoIndex.holds (index self) l /\ Forall (fun s => hash_ s = fingerprint (fst (value_ s)) /\ P (fst (value_ s)) (snd (value_ s))) l.

Lemma remembers_empty P capacity : val capacity <= MAX_CAPACITY -> remembers P (empty_interner capacity).
Proof. intros Hc. exists []. split; [by apply FifoIndex.empty_holds|done]. Qed.

Lemma remembers_new P : remembers P new.
Proof. apply remembers_empty, default_fits. Qed.

Lemma remembers_mono (P Q : bytes -> UnicityCertificate -> Prop) self : (forall b uc, P b uc -> Q b uc) ->
  remembers P self -> remembers Q self.
Proof.
  intros HPQ (l & Hl & HP). exists l. split; [done|]. eapply Forall_impl; [exact HP|]. intros s [? ?]. auto.
Qed.

Lemma decode_miss_run d self : decode_miss d self =
  match from_cbor d with
  | Ok uc => let '(r, idx) := FifoIndex.insert (fingerprint (dbytes d)) (dbytes d, uc) (index self) in
      ((_ ← r; Ok uc), set_index idx (count_decode self))
  | r => (r, count_decode self)
  end.
Proof.
  unfold decode_miss, mbind, M_bind, zoom, modify, liftM. destruct (from_cbor d) as [uc|e|]; [|done..].
  change (index (count_decode self)) with (index self). by destruct (FifoIndex.insert _ _ _) as [[]].
Qed.

(** One decode: a hit on an entry for exactly these bytes, or a parse. *)
Lemma decode_spec (P : bytes -> UnicityCertificate -> Prop) self d : remembers P self ->
  (forall uc, from_cbor d = Ok uc -> P (dbytes d) uc) ->
  exists self', remembers P self' /\ ((exists uc, decode d self = (Ok uc, self') /\ P (dbytes d) uc /\ stats self' = stats (count_hit self)) \/
     (decode d self = (from_cbor d, self') /\ stats self' = stats (count_decode self) /\ forall l, FifoIndex.holds (index self) l -> ~ Exists (fun s => hash_ s = fingerprint (dbytes d) /\ fst (value_ s) = dbytes d) l)).
Proof.
  intros (l & Hl & HP) Hd. set (eqf := fun e : bytes * UnicityCertificate => bool_decide (fst e = dbytes d)).
  destruct (FifoIndex.find_spec (E := Error) _ _ (fingerprint (dbytes d)) eqf Hl) as (r & idx & Ef & Hf & Hl' & _).
  assert (decode d self = match r with Some (_, uc) => (Ok uc, count_hit (set_index idx self)) | None => decode_miss d (set_index idx self) end) as ->.
  { unfold decode. rewrite bindM_run. unfold zoom. fold eqf. rewrite Ef. by destruct r as [[b uc]|]. }
  destruct r as [[b uc]|].
  - destruct Hf as (s & Hs & Hm & Es). rewrite Forall_forall in HP. pose proof (HP s Hs) as [_ Hp].
    unfold FifoIndex.matches in Hm. apply andb_true_iff in Hm as [_ Hb%bool_decide_eq_true_1]. rewrite Es in Hb, Hp. cbn [fst snd] in Hb, Hp. subst b.
    eexists. split; [|left; exists uc; by split_and!]. exists l. split; [done|]. by apply Forall_forall.
  - assert (forall l, FifoIndex.holds (index self) l ->
      ~ Exists (fun s => hash_ s = fingerprint (dbytes d) /\ fst (value_ s) = dbytes d) l) as Hno.
    { intros l2 Hl2 (s & Hs & Eh & Eb)%Exists_exists.
      destruct (FifoIndex.find_spec (E := Error) _ _ (fingerprint (dbytes d)) eqf Hl2) as (r2 & idx2 & Ef2 & Hf2 & _).
      rewrite Ef in Ef2. injection Ef2 as <- <-. specialize (Hf2 s Hs). unfold FifoIndex.matches, eqf in Hf2.
      by rewrite Eh, N.eqb_refl, bool_decide_eq_true_2 in Hf2. }
    rewrite decode_miss_run. destruct (from_cbor d) as [uc|e|] eqn:E.
    + destruct (FifoIndex.insert_holds (E := Error) idx l (fingerprint (dbytes d)) (dbytes d, uc) Hl') as (idx' & Ei & _ & Hi).
      cbn [index set_index]. rewrite Ei. eexists. split; [|right; split; [reflexivity|split; [reflexivity|exact Hno]]]. eexists. split; [exact Hi|]. apply Forall_forall. intros s Hs.
      apply FifoIndex.elem_fifo_insert in Hs as [->|Hs]; [cbn; eauto|]. rewrite Forall_forall in HP. auto.
    + eexists. split; [|right; split; [reflexivity|split; [reflexivity|exact Hno]]]. by exists l.
    + eexists. split; [|right; split; [reflexivity|split; [reflexivity|exact Hno]]]. by exists l.
Qed.

(** What was parsed under [limits]. *)
Definition parsed (limits : DecodeLimits) (b : bytes) (uc : UnicityCertificate) : Prop :=
  from_cbor (with_limits b limits) = Ok uc.

Lemma decode_transparent limits self b : remembers (parsed limits) self ->
  fst (decode (with_limits b limits) self) = from_cbor (with_limits b limits) /\
  remembers (parsed limits) (snd (decode (with_limits b limits) self)).
Proof.
  intros Hr. destruct (decode_spec (parsed limits) self (with_limits b limits) Hr) as (self' & Hr' & [(uc & -> & Hp & _)|[-> _]]);
    [done|split; [by symmetry|done]|done].
Qed.

(** A whole operation: certificates decoded in sequence through one interner. *)
Fixpoint decode_all (ds : list Decoder) (self : UcInterner) : list (result UnicityCertificate) * UcInterner :=
  match ds with
  | [] => ([], self)
  | d :: ds =>
      let '(r, self) := decode d self in
      let '(rs, self) := decode_all ds self in
      (r :: rs, self)
  end.

(** Decoding any sequence of certificates through one interner of any capacity
    that can be built gives what decoding each directly gives. *)
Theorem decode_all_transparent {E} limits capacity self bs : with_capacity (E := E) capacity = Ok self -> val capacity <= 2 ^ 63 ->
  fst (decode_all (children limits bs) self) = from_cbor <$> children limits bs.
Proof.
  intros Hn Hc. assert (remembers (parsed limits) self) as Hr.
  { destruct (decide (val capacity <= MAX_CAPACITY)) as [Hf|Hf].
    - rewrite (with_capacity_fits _ Hf) in Hn. injection Hn as <-. by apply remembers_empty.
    - unfold with_capacity in Hn. rewrite FifoIndex.new_overflows in Hn by lia. done. }
  clear Hn. revert self Hr. induction bs as [|b bs IH]; intros self Hr; [done|]. csimpl.
  destruct (decode_transparent limits self b Hr) as [Eq Hr'].
  destruct (decode _ self) as [r self']. simpl in *. specialize (IH self' Hr').
  destruct (decode_all _ self') as [rs self'']. simpl in *. by subst.
Qed.

Lemma decode_steady d : no_panic (from_cbor d) -> steady (fun i => indexed (index i)) (decode d).
Proof.
  intros Hn. unfold decode, decode_miss. apply steady_bind; [apply (steady_zoom _ indexed); [done..|apply find_steady]|].
  intros [[b uc]|].
  - apply steady_bind; [by apply steady_modify|]. intros. apply steady_ret.
  - apply steady_bind; [by apply steady_modify|]. intros. apply steady_bind_lift; [done|]. intros uc _.
    apply steady_bind; [apply (steady_zoom _ indexed); [done..|apply insert_steady]|]. intros. apply steady_ret.
Qed.

(** Every decode is counted exactly once, as a parse or as a hit. *)
Lemma decode_counted P self d : remembers P self -> (forall uc, from_cbor d = Ok uc -> P (dbytes d) uc) ->
  stats (snd (decode d self)) = stats (count_decode self) \/ stats (snd (decode d self)) = stats (count_hit self).
Proof. intros Hr Hp. destruct (decode_spec P self d Hr Hp) as (self' & _ & [(uc & -> & _ & Hs)|(-> & Hs & _)]); [by right|by left]. Qed.

(** While the encoding is resident it is not parsed again. *)
Lemma decode_resident P self l d : FifoIndex.holds (index self) l ->
  Forall (fun s => hash_ s = fingerprint (fst (value_ s)) /\ P (fst (value_ s)) (snd (value_ s))) l ->
  (forall uc, from_cbor d = Ok uc -> P (dbytes d) uc) ->
  Exists (fun s => fst (value_ s) = dbytes d) l ->
  stats (snd (decode d self)) = stats (count_hit self).
Proof.
  intros Hl HP Hd He. destruct (decode_spec P self d) as (self' & _ & [(uc & -> & _ & Hs)|(-> & _ & Hno)]); [by exists l|done|done|].
  destruct (Hno l Hl). apply Exists_exists in He as (s & Hs & E). apply Exists_exists. exists s.
  rewrite Forall_forall in HP. destruct (HP _ Hs) as [Eh _]. by rewrite Eh, E.
Qed.
