(* ===== verification/VerificationError.v ===== *)
(** Verification failure reasons: [src/verify/error.rs]. *)

From S2P Require Import Prelude Bytes Error.

Inductive VerificationError : Type :=
| InvalidTrustBaseError (e : Error)
| NetworkMismatch
| InvalidMintLockScript
| UnsupportedMintJustification
| UnsupportedTokenData
| MalformedTokenData
| PaymentIssuanceRejected
| VerificationLimitExceeded (resource : string)
| MalformedMintJustification
| PaymentDataMissing
| SplitNetworkMismatch
| BurnTokenVerificationFailed (source : VerificationError)
| SplitTokenTypeMismatch
| SplitBurnTransferMissing
| SplitManifestMissing
| SplitManifestMalformed
| SplitManifestLengthMismatch
| SplitProofCountMismatch
| SplitAllocationProofInvalid
| SplitSourcePaymentDataMissing
| SplitSourceAssetMissing
| SplitSourceAmountMismatch
| SplitBurnPredicateMismatch
| CertificationDataMismatch
| TransactionHashMismatch
| ReferenceTimeMismatch
| ReferenceTimeAfterRound
| RequestExpired
| PathInvalid
| NonInclusionCertificateInvalid
| NonInclusionTargetMissing
| NonInclusionTargetMismatch
| ShardMismatch
| SealNetworkMismatch
| UnsupportedAuthority
| SealEpochMismatch
| SealBeforeEpochStart
| SealMalformed
| CertificateBodyInvalid
| PartitionMismatch
| ShardPathInvalid
| ConfigurationMismatch
| SealAfterAuthorityEnd
| SealRootMismatch
| QuorumNotMet
| NotAuthenticated
| GenesisError (source : VerificationError)
| TransferError (index : N) (source : VerificationError).

Abbreviation verdict := (outcome VerificationError).
