(* ===== verification/Topology.v ===== *)
(** The trusted sharding scheme of a partition: [src/consolidation/topology.rs]
    and the error type of [src/consolidation/error.rs].

    [canonical_order] sorts the shard ids and accepts exactly the prefix-free
    families that tile the whole key space ([canonical_order_with_spec]). The counters
    of comparisons, an instrument of the scaling tests, are left out. *)

From stdpp Require Import sorting.
From S2P Require Import Prelude Bytes Error Cbor Hash Radix ShardId ShardOps Search VerificationError.
Local Open Scope N_scope.

Inductive PartitionViewError : Type :=
| ViewDecode (e : Error)
| TooLarge (limit actual : N)
| UnsupportedViewVersion (v : N)
| NotCanonical
| ViewBounds (m : string)
| InvalidTopology (m : string)
| ViewPartitionMismatch
| LeafSetMismatch (m : string)
| ConfigHashMismatch
| ConfigHashRequired
| TreeRootMismatch
| EnclosingCertificate (m : string)
| ViewSeal (e : VerificationError).

(** The conversions of [?] from [Error] and [CborError]. *)
Definition view_error : Error -> PartitionViewError := ViewDecode.
Definition view_cbor_error (e : CborError) : PartitionViewError := ViewDecode (from_cbor_error e).

Abbreviation vresult := (outcome PartitionViewError).

Definition MAX_PARTITION_VIEW_LEAVES : N := 8.
Definition MAX_PARTITION_VIEW_SHARD_ID_BITS : N := 256.

(** [conf_hashes], a [BTreeMap], is the list of its entries in key order. *)
Record PartitionTopology : Type := {
  scheme : list ShardId;
  conf_hashes : list (bytes * arr 32);
}.

Definition single_shard : PartitionTopology := {| scheme := []; conf_hashes := [] |}.

Definition topology_new (scheme : list ShardId) : PartitionTopology := {| scheme := scheme; conf_hashes := [] |}.

(** [BTreeMap::insert] and [BTreeMap::get] on byte keys. *)
Fixpoint btree_insert {V} (k : bytes) (v : V) (m : list (bytes * V)) : list (bytes * V) :=
  match m with
  | [] => [(k, v)]
  | (k', v') :: m' =>
      match bytes_cmp k k' with
      | Lt => (k, v) :: m
      | Eq => (k', v) :: m'
      | Gt => (k', v') :: btree_insert k v m'
      end
  end.

Definition btree_get {V} (k : bytes) (m : list (bytes * V)) : option V :=
  snd <$> List.find (fun e => match bytes_cmp k (fst e) with Eq => true | _ => false end) m.

Definition with_shard_conf_hash (self : PartitionTopology) (shard : ShardId) (hash : arr 32) : PartitionTopology :=
  {| scheme := scheme self; conf_hashes := btree_insert (encode shard) hash (conf_hashes self) |}.

Definition shard_conf_hash (self : PartitionTopology) (shard : ShardId) : option (arr 32) :=
  btree_get (encode shard) (conf_hashes self).

(** b"unicity-token/topology/v1" *)
Definition TOPOLOGY_DOMAIN : bytes := n2b <$> [
    117; 110; 105; 99; 105; 116; 121; 45; 116; 111; 107; 101; 110; 47; 116; 111; 112; 111; 108; 111;
    103; 121; 47; 118; 49].

Definition bytes_lt (a b : bytes) : bool := match bytes_cmp a b with Lt => true | _ => false end.

Definition topology_digest `{Sha2} (self : PartitionTopology) : arr 32 :=
  let h := foldl DataHasher.update (InnerSha256 []) [TOPOLOGY_DOMAIN; be_bytes 8 (len (scheme self))] in
  let scheme := sort_by bytes_lt (encode <$> scheme self) in
  let h := foldl (fun h id => DataHasher.update (DataHasher.update h (be_bytes 8 (len id))) id) h scheme in
  let h := DataHasher.update h (be_bytes 8 (len (conf_hashes self))) in
  let h := foldl (fun h e => DataHasher.update (DataHasher.update (DataHasher.update h
    (be_bytes 8 (len (fst e)))) (fst e)) (val (snd e))) h (conf_hashes self) in
  fit 32 (DataHash.data (DataHasher.finalize h)).

Definition shard_lt (a b : ShardId) : bool := match canonical_cmp a b with Lt => true | _ => false end.

Definition is_zero_bit (depth : N) (s : ShardId) : bool :=
  match get_bit s depth with Ok b => b =? 0 | _ => false end.

(** [covers]: [fuel] bounds the recursion, which is on strictly shorter slices;
    [covers_spec] shows that the length of the slice is enough. *)
Fixpoint covers (fuel : nat) (shards : list ShardId) (depth : N) : option bool :=
  match fuel with
  | O => None
  | S fuel' =>
      match shards with
      | [s] => Some (slength (val s) =? depth)
      | _ =>
          let split := partition_point (is_zero_bit depth) shards in
          if (split =? 0)%nat || (split =? length shards)%nat then Some false else
          zero ← covers fuel' (take split shards) (depth + 1);
          if zero : bool then covers fuel' (drop split shards) (depth + 1) else Some false
      end
  end.

(** Some pair of neighbours, the first a prefix of the second. *)
Fixpoint overlaps (ids : list ShardId) : bool :=
  match ids with
  | a :: (b :: _) as rest => is_prefix_of_shard a b || overlaps rest
  | _ => false
  end.

Definition check_scheme_id (id : ShardId) : vresult unit :=
  if slength (val id) =? 0 then Err (InvalidTopology "a scheme can not contain the empty shard id")
  else if MAX_PARTITION_VIEW_SHARD_ID_BITS <? slength (val id) then Err (InvalidTopology "shard id is too long")
  else Ok tt.

Definition canonical_order_with (self : PartitionTopology) (max_shards : N) : vresult (list ShardId) :=
  let scheme := scheme self in
  if max_shards <? len scheme then Err (InvalidTopology "too many shards") else
  match scheme with
  | [] => Ok [root]
  | [_] => Err (InvalidTopology "a scheme can not hold a single shard")
  | _ =>
      _ ← mapO check_scheme_id scheme;
      let ids := sort_by shard_lt scheme in
      if overlaps ids then Err (InvalidTopology "scheme is not prefix-free") else
      covered ← or_panic (covers (length ids) ids 0);
      if covered : bool then Ok ids else Err (InvalidTopology "scheme does not cover the whole shard tree")
  end.

Definition canonical_order (self : PartitionTopology) : vresult (list ShardId) :=
  canonical_order_with self MAX_PARTITION_VIEW_LEAVES.

(** * Tilings *)

(** [tiles p l]: the bit strings [l], left to right, are the leaves of a binary
    tree rooted at [p]. *)
Inductive tiles : list bool -> list (list bool) -> Prop :=
| tiles_leaf p : tiles p [p]
| tiles_node p l r : tiles (p ++ [false]) l -> tiles (p ++ [true]) r -> tiles p (l ++ r).

Lemma tiles_prefix p l : tiles p l -> Forall (fun x => p `prefix_of` x) l.
Proof.
  assert (forall (p : list bool) b x, p ++ [b] `prefix_of` x -> p `prefix_of` x) as G.
  { intros q b x [k ->]. exists ([b] ++ k). by rewrite app_assoc. }
  induction 1 as [p|p l r _ IHl _ IHr]; [by constructor|].
  apply Forall_app. split; eapply Forall_impl; [exact IHl|by apply G|exact IHr|by apply G].
Qed.

(** Every key below [p] extends a leaf, and only one. *)
Lemma tiles_covers p l key : tiles p l -> starts p key -> exists x, x ∈ l /\ starts x key.
Proof.
  induction 1 as [p|p l r _ IHl _ IHr]; intros Hp; [exists p; by rewrite list_elem_of_singleton|].
  setoid_rewrite elem_of_app. destruct (key (length p)) eqn:E.
  - destruct IHr as (x & Hx & Hs); [by apply starts_snoc|eauto].
  - destruct IHl as (x & Hx & Hs); [by apply starts_snoc|eauto].
Qed.

(** The order of a canonical scheme: ascending, nothing a prefix of anything. *)
Definition separated (x y : list bool) : Prop := bits_cmp x y = Lt /\ ~ x `prefix_of` y.

Lemma separated_not_prefix x y : separated x y -> ~ y `prefix_of` x.
Proof.
  intros [Hc Hp] Hyx. destruct (decide (y = x)) as [->|Hne]; [by destruct Hp|].
  apply bits_cmp_prefix in Hyx; [|done]. by rewrite bits_cmp_antisym, Hc in Hyx.
Qed.

Lemma separated_branch p x y : p ++ [false] `prefix_of` x -> p ++ [true] `prefix_of` y -> separated x y.
Proof.
  intros [k ->] [k' ->]. rewrite <- !app_assoc. split; [by rewrite bits_cmp_app|].
  intros Hp%prefix_app_inv. by apply prefix_cons_inv_1 in Hp.
Qed.

Lemma StronglySorted_app_intro {A} (R : A -> A -> Prop) l r : StronglySorted R l -> StronglySorted R r ->
  (forall x y, x ∈ l -> y ∈ r -> R x y) -> StronglySorted R (l ++ r).
Proof.
  intros Hl Hr. induction Hl as [|x l Hl IH Hx]; intros Hlr; [done|]. simpl. constructor.
  - apply IH. intros y z Hy Hz. apply Hlr; [by apply list_elem_of_further|done].
  - apply Forall_app. split; [done|]. apply Forall_forall. intros y Hy. apply Hlr; [apply list_elem_of_here|done].
Qed.

Lemma tiles_separated p l : tiles p l -> StronglySorted separated l.
Proof.
  induction 1 as [p|p l r Hl IHl Hr IHr]; [repeat constructor|]. apply StronglySorted_app_intro; [done..|].
  intros x y Hx Hy. apply tiles_prefix in Hl, Hr. rewrite Forall_forall in Hl, Hr. eapply separated_branch; auto.
Qed.

Lemma StronglySorted_lookup {A} (R : A -> A -> Prop) l i j x y : StronglySorted R l -> l !! i = Some x -> l !! j = Some y ->
  (i < j)%nat -> R x y.
Proof.
  intros Hl. revert i j. induction Hl as [|z l Hl IH Hz]; intros [|i] [|j] Hi Hj Hij; try done; [lia| |lia|].
  - injection Hi as ->. rewrite Forall_lookup in Hz. eauto.
  - eapply IH; eauto. lia.
Qed.

Lemma separated_unique l key i j x y : StronglySorted separated l -> l !! i = Some x -> l !! j = Some y ->
  starts x key -> starts y key -> i = j.
Proof.
  intros Hl Hi Hj Hx Hy. pose proof (@StronglySorted_lookup _ separated) as G.
  destruct (starts_both _ _ _ Hx Hy) as [Hp|Hp], (Nat.lt_total i j) as [Hij|[|Hij]]; try done; exfalso.
  - by destruct (G l i j x y Hl Hi Hj Hij).
  - by apply (separated_not_prefix _ _ (G l j i y x Hl Hj Hi Hij)).
  - by apply (separated_not_prefix _ _ (G l i j x y Hl Hi Hj Hij)).
  - by destruct (G l j i y x Hl Hj Hi Hij).
Qed.

(** * The descent *)

(** A key that starts with the given bits. *)
Definition key_of (x : list bool) (i : nat) : bool := default false (x !! i).

Lemma starts_key_of x : starts x (key_of x).
Proof. intros i b Hi. unfold key_of. by rewrite Hi. Qed.

Definition uncovered (p : list bool) (l : list (list bool)) : Prop :=
  exists key, starts p key /\ forall x, x ∈ l -> ~ starts x key.

Lemma uncovered_child p b l r : uncovered (p ++ [b]) l -> Forall (fun x => p ++ [negb b] `prefix_of` x) r ->
  uncovered p (l ++ r) /\ uncovered p (r ++ l).
Proof.
  intros (key & Hk & Hl) Hr. apply starts_snoc in Hk as [Hp Hb].
  assert (forall x, x ∈ l \/ x ∈ r -> ~ starts x key) as G.
  { intros x [Hx|Hx]; [by apply Hl|]. intros Hs. rewrite Forall_forall in Hr.
    eapply starts_prefix in Hs; [|by apply Hr]. apply starts_snoc in Hs as [_ Hs]. rewrite Hb in Hs. by destruct b. }
  split; exists key; (split; [done|]); intros x Hx%elem_of_app; apply G; tauto.
Qed.

Lemma uncovered_nil p : uncovered p [].
Proof. exists (key_of p). split; [apply starts_key_of|]. by intros x Hx%elem_of_nil. Qed.

(** Of two separated bit strings below [p], both are longer than [p]. *)
Lemma is_zero_bit_spec (s : ShardId) (p : list bool) : p `prefix_of` bits_of s ->
  if is_zero_bit (len p) s then p ++ [false] `prefix_of` bits_of s
  else p ++ [true] `prefix_of` bits_of s \/ bits_of s = p.
Proof.
  intros [k E]. unfold is_zero_bit. pose proof (get_bit_spec s (length p)) as Hg. fold (len p) in Hg.
  rewrite E, lookup_app_r, Nat.sub_diag in Hg by lia. destruct k as [|b k].
  - rewrite app_nil_r in E. destruct (get_bit s (len p)); [done|by right..].
  - rewrite E. destruct (get_bit s (len p)) as [v| |]; simpl in Hg; [|done..]. injection Hg as ->.
    destruct b; simpl; [left|]; by (exists k; rewrite <- app_assoc).
Qed.

Lemma separated_longer p (shards : list ShardId) : StronglySorted separated (paths shards) ->
  Forall (fun s : ShardId => p `prefix_of` bits_of s) shards -> (length shards <> 1)%nat ->
  Forall (fun s => if is_zero_bit (len p) s then p ++ [false] `prefix_of` bits_of s
                   else p ++ [true] `prefix_of` bits_of s) shards.
Proof.
  intros Hs Hp Hl. apply Forall_forall. intros s Hin. rewrite Forall_forall in Hp.
  pose proof (is_zero_bit_spec s p (Hp s Hin)) as Hb. destruct (is_zero_bit (len p) s); [done|].
  destruct Hb as [|E]; [done|]. exfalso. apply list_elem_of_lookup in Hin as [i Hi].
  assert (exists j t, j <> i /\ shards !! j = Some t) as (j & t & Hji & Hj).
  { apply lookup_lt_Some in Hi as Hil. destruct (decide (i = 0%nat)) as [->|].
    - destruct (lookup_lt_is_Some_2 shards 1) as [t Ht]; [lia|]. by exists 1%nat, t.
    - destruct (lookup_lt_is_Some_2 shards 0) as [t Ht]; [lia|]. by exists 0%nat, t. }
  assert (j = i); [|done]. eapply (separated_unique _ (key_of (bits_of t)) j i); [exact Hs|..].
  - by rewrite list_lookup_fmap, Hj.
  - by rewrite list_lookup_fmap, Hi.
  - apply starts_key_of.
  - simpl. rewrite E. eapply starts_prefix, starts_key_of. apply Hp. apply list_elem_of_lookup. by exists j.
Qed.

Lemma zero_partitioned p (shards : list ShardId) : StronglySorted separated (paths shards) ->
  Forall (fun s => if is_zero_bit (len p) s then p ++ [false] `prefix_of` bits_of s
                   else p ++ [true] `prefix_of` bits_of s) shards ->
  partitioned (is_zero_bit (len p)) shards.
Proof.
  intros Hs Hb i j x y Hi Hj Hij Hy. destruct (is_zero_bit (len p) x) eqn:Hx; [done|exfalso].
  rewrite Forall_lookup in Hb. pose proof (Hb _ _ Hi) as Hbx. pose proof (Hb _ _ Hj) as Hby. rewrite Hx in Hbx. rewrite Hy in Hby.
  pose proof (separated_branch _ _ _ Hby Hbx) as [Hyx _].
  assert (separated (bits_of x) (bits_of y)) as [Hxy _]; [|by rewrite bits_cmp_antisym, Hyx in Hxy].
  eapply (StronglySorted_lookup _ _ i j _ _ Hs); [by rewrite list_lookup_fmap, Hi|by rewrite list_lookup_fmap, Hj|done].
Qed.

Lemma StronglySorted_app_inv {A} (R : A -> A -> Prop) l r : StronglySorted R (l ++ r) ->
  StronglySorted R l /\ StronglySorted R r.
Proof.
  induction l as [|x l IH]; simpl; [split; [constructor|done]|].
  intros [H Hx]%StronglySorted_inv. apply IH in H as [Hl Hr]. apply Forall_app in Hx as [Hx _]. by split; [constructor|].
Qed.

(** A slice of one id tiles the subtree iff it is the subtree's root. *)
Lemma covers_one (s : ShardId) p : p `prefix_of` bits_of s ->
  if slength (val s) =? len p then tiles p [bits_of s] else uncovered p [bits_of s].
Proof.
  intros [k E]. destruct (N.eqb_spec (slength (val s)) (len p)) as [El|El].
  - assert (k = []) as ->.
    { apply (f_equal len) in E. rewrite len_bits_of, len_app in E. apply length_zero_iff_nil. unfold len in *. lia. }
    rewrite app_nil_r in E. rewrite E. constructor.
  - destruct k as [|b k]; [rewrite app_nil_r in E; by rewrite <- E, len_bits_of in El|].
    exists (key_of (p ++ [negb b])). split; [eapply starts_prefix, starts_key_of; by exists [negb b]|].
    intros x Hx%list_elem_of_singleton Hk. rewrite Hx, E in Hk.
    assert (p ++ [b] `prefix_of` p ++ b :: k) as Hb by (exists k; by rewrite <- app_assoc).
    pose proof (proj1 (starts_snoc _ _ _) (starts_prefix _ _ _ Hb Hk)) as [_ H1].
    pose proof (proj1 (starts_snoc _ _ _) (starts_key_of (p ++ [negb b]))) as [_ H2]. rewrite H1 in H2. by destruct b.
Qed.

(** The two parts of a slice of several ids. *)
Lemma covers_parts p (shards : list ShardId) : StronglySorted separated (paths shards) ->
  Forall (fun s : ShardId => p `prefix_of` bits_of s) shards -> (length shards <> 1)%nat ->
  let n := partition_point (is_zero_bit (len p)) shards in
  StronglySorted separated (paths (take n shards)) /\
  StronglySorted separated (paths (drop n shards)) /\
  Forall (fun s : ShardId => p ++ [false] `prefix_of` bits_of s) (take n shards) /\
  Forall (fun s : ShardId => p ++ [true] `prefix_of` bits_of s) (drop n shards).
Proof.
  intros Hs Hp H1 n. pose proof (separated_longer p shards Hs Hp H1) as Hb.
  pose proof (partition_point_take (is_zero_bit (len p)) shards) as Hz. fold n in Hz.
  pose proof (partition_point_drop _ _ (zero_partitioned p shards Hs Hb)) as Ho. fold n in Ho.
  rewrite <- (take_drop n shards) in Hs, Hb. rewrite fmap_app in Hs.
  apply StronglySorted_app_inv in Hs as [Hsz Hso]. apply Forall_app in Hb as [Hbz Hbo].
  do 2 (split; [done|]). split.
  - eapply Forall_impl; [exact (proj2 (Forall_and _ _) (conj Hbz Hz))|]. simpl. intros s [H E]. by rewrite E in H.
  - eapply Forall_impl; [exact (proj2 (Forall_and _ _) (conj Hbo Ho))|]. simpl. intros s [H E]. by rewrite E in H.
Qed.

Lemma covers_S fuel shards depth : length shards <> 1%nat ->
  covers (S fuel) shards depth =
  let split := partition_point (is_zero_bit depth) shards in
  if (split =? 0)%nat || (split =? length shards)%nat then Some false else
  zero ← covers fuel (take split shards) (depth + 1);
  if zero : bool then covers fuel (drop split shards) (depth + 1) else Some false.
Proof. by destruct shards as [|? [|? ?]]. Qed.

(** The descent answers, and decides whether the slice tiles its subtree. *)
Lemma covers_spec fuel : forall (shards : list ShardId) p, (0 < fuel)%nat -> (length shards <= fuel)%nat ->
  StronglySorted separated (paths shards) ->
  Forall (fun s : ShardId => p `prefix_of` bits_of s) shards ->
  exists b, covers fuel shards (len p) = Some b /\
    if b then tiles p (paths shards) else uncovered p (paths shards).
Proof.
  induction fuel as [|fuel IH]; intros shards p Hf Hl Hs Hp; [lia|].
  destruct (decide (length shards = 1%nat)) as [H1|H1].
  - destruct shards as [|s [|? ?]]; [done| |done]. exists (slength (val s) =? len p). split; [done|].
    apply covers_one. by apply Forall_cons_1 in Hp as [Hp _].
  - destruct (covers_parts p shards Hs Hp H1) as (Hsz & Hso & Hpz & Hpo). rewrite covers_S by done.
    pose proof (partition_point_le (is_zero_bit (len p)) shards) as Hn. cbv zeta.
    set (n := partition_point (is_zero_bit (len p)) shards) in *.
    assert (forall b, len (p ++ [b]) = len p + 1) as Hlen by (intros; by rewrite len_app).
    assert (paths shards =
      paths (take n shards) ++ paths (drop n shards)) as ->
      by (rewrite <- fmap_app; by rewrite take_drop).
    destruct (Nat.eqb_spec n 0) as [En|En]; simpl orb; cbv iota.
    { exists false. split; [done|]. rewrite En, drop_0, take_0, fmap_nil.
      apply (uncovered_child p false [] _ (uncovered_nil _)). rewrite En, drop_0 in Hpo. by rewrite Forall_fmap. }
    destruct (Nat.eqb_spec n (length shards)) as [El|El].
    { exists false. split; [done|]. rewrite El, drop_all, fmap_nil.
      apply (uncovered_child p true [] _ (uncovered_nil _)). by rewrite <- El, Forall_fmap. }
    destruct (IH (take n shards) (p ++ [false])) as (bz & Ez & Hbz'); [lia|rewrite length_take; lia|done..|].
    rewrite Hlen in Ez. rewrite Ez. simpl. destruct bz.
    + destruct (IH (drop n shards) (p ++ [true])) as (bo & Eo & Hbo'); [lia|rewrite length_drop; lia|done..|].
      rewrite Hlen in Eo. exists bo. split; [done|]. destruct bo; [by constructor|].
      apply (uncovered_child p true _ _ Hbo'). by rewrite Forall_fmap.
    + exists false. split; [done|]. apply (uncovered_child p false _ _ Hbz'). by rewrite Forall_fmap.
Qed.

(** * The canonical order *)

Lemma canonical_le x y : shard_lt y x = false <-> bits_cmp (bits_of x) (bits_of y) <> Gt.
Proof.
  unfold shard_lt. rewrite canonical_cmp_spec, (bits_cmp_antisym (bits_of x)).
  by destruct (bits_cmp (bits_of x) (bits_of y)).
Qed.

Lemma shard_lt_asym x y : shard_lt x y = true -> shard_lt y x = false.
Proof.
  unfold shard_lt. rewrite !canonical_cmp_spec, (bits_cmp_antisym (bits_of x) (bits_of y)).
  by destruct (bits_cmp (bits_of x) (bits_of y)).
Qed.

Lemma bits_le_trans x y z : bits_cmp x y <> Gt -> bits_cmp y z <> Gt -> bits_cmp x z <> Gt.
Proof.
  intros Hxy Hyz. destruct (bits_cmp x y) eqn:E1; [apply bits_cmp_Eq in E1 as ->; done| |done].
  destruct (bits_cmp y z) eqn:E2; [apply bits_cmp_Eq in E2 as <-; congruence| |done].
  by rewrite (bits_cmp_trans _ _ _ E1 E2).
Qed.

Lemma shard_le_trans x y z : shard_lt y x = false -> shard_lt z y = false -> shard_lt z x = false.
Proof. rewrite !canonical_le. apply bits_le_trans. Qed.

Lemma sort_shards_sorted l : sorted_by shard_lt (sort_by shard_lt l).
Proof. apply sort_by_sorted; [apply shard_lt_asym|apply shard_le_trans]. Qed.

(** What lies between a bit string and an extension of it extends it. *)
Lemma prefix_between x : forall y z, bits_cmp x y <> Gt -> bits_cmp y z <> Gt -> x `prefix_of` z -> x `prefix_of` y.
Proof.
  induction x as [|a x IH]; intros y z Hxy Hyz Hp; [apply prefix_nil|].
  destruct z as [|c z]; [by apply prefix_nil_not in Hp|]. apply prefix_cons_inv_1 in Hp as Ha. subst c.
  apply prefix_cons_inv_2 in Hp. destruct y as [|b y]; [done|]. simpl in *.
  destruct a, b; simpl in *; try done; by apply prefix_cons, (IH y z).
Qed.

(** An overlap is visible between neighbours of a sorted list. *)
Lemma overlaps_spec ids : sorted_by shard_lt ids -> overlaps ids = false <-> StronglySorted separated (paths ids).
Proof.
  induction 1 as [|a l Hl IH Ha]; [split; [constructor|done]|]. destruct l as [|b l]; [split; [repeat constructor|done]|].
  cbn [overlaps]. rewrite orb_false_iff, IH, <- not_true_iff_false, is_prefix_of_shard_spec. split.
  - intros [Hab Hs]. rewrite fmap_cons. constructor; [done|]. rewrite Forall_fmap, Forall_forall. intros z Hz. simpl.
    apply Forall_cons in Ha as [Hb Ha]. rewrite canonical_le in Hb. rewrite Forall_forall in Ha.
    assert (bits_cmp (bits_of a) (bits_of z) <> Gt /\ ~ bits_of a `prefix_of` bits_of z) as [Hle Hp].
    { apply elem_of_cons in Hz as [->|Hz]; [done|]. apply StronglySorted_inv in Hl as [_ Hbl].
      rewrite Forall_forall in Hbl. specialize (Ha z Hz). specialize (Hbl z Hz). rewrite canonical_le in Ha, Hbl.
      split; [done|]. contradict Hab. by eapply prefix_between. }
    split; [|done]. destruct (bits_cmp (bits_of a) (bits_of z)) eqn:E; [destruct Hp; apply bits_cmp_Eq in E; by rewrite E|done|congruence].
  - rewrite !fmap_cons. intros [Hs Hf]%StronglySorted_inv. split; [|done]. by apply Forall_cons in Hf as [[_ ?] _].
Qed.

Lemma separated_sorted ids : StronglySorted separated (paths ids) -> sorted_by shard_lt ids.
Proof.
  induction ids as [|x l IH]; intros Hs; [constructor|]. rewrite fmap_cons in Hs.
  apply StronglySorted_inv in Hs as [Hs Hx]. rewrite Forall_fmap in Hx. constructor; [by apply IH|].
  eapply Forall_impl; [exact Hx|]. intros y [Hc _]. apply canonical_le. simpl in Hc. by rewrite Hc.
Qed.

Lemma sorted_shards_unique l k : sorted_by shard_lt l -> sorted_by shard_lt k -> l ≡ₚ k -> l = k.
Proof.
  apply StronglySorted_unique_strong. intros x y _ _ Hxy Hyx. apply canonical_cmp_Eq.
  unfold shard_lt in *. rewrite canonical_cmp_spec in *. rewrite (bits_cmp_antisym (bits_of x)) in Hxy.
  by destruct (bits_cmp (bits_of x) (bits_of y)).
Qed.

Definition scheme_id_ok (s : ShardId) : Prop := 0 < slength (val s) <= MAX_PARTITION_VIEW_SHARD_ID_BITS.

Lemma check_scheme_id_Ok s u : check_scheme_id s = Ok u <-> scheme_id_ok s.
Proof.
  unfold check_scheme_id, scheme_id_ok. destruct u.
  destruct (N.eqb_spec (slength (val s)) 0), (N.ltb_spec MAX_PARTITION_VIEW_SHARD_ID_BITS (slength (val s)));
    (split; [try done; lia|try done; lia]).
Qed.

Lemma check_scheme_ids l : (exists u, mapO check_scheme_id l = Ok u) <-> Forall scheme_id_ok l.
Proof.
  induction l as [|s l IH]; [split; [constructor|by exists []]|].
  rewrite Forall_cons, <- IH. cbn [mapO]. split.
  - intros [u Hu]. inv_ok. split; [by eapply check_scheme_id_Ok|by eexists].
  - intros [Hs [u Hu]]. rewrite (proj2 (check_scheme_id_Ok s tt) Hs), bind_Ok_l, Hu. by eexists.
Qed.

Lemma covers_scheme k : k <> [] -> StronglySorted separated (paths k) ->
  exists c, covers (length k) k 0 = Some c /\ if c then tiles [] (paths k) else uncovered [] (paths k).
Proof.
  intros Hk Hs. apply (covers_spec _ k []); [destruct k; [done|simpl; lia]|lia|done|].
  apply Forall_true. intros. apply prefix_nil.
Qed.

(** The canonical order of a scheme is its only tiling arrangement; a scheme
    without one is rejected. *)
Lemma canonical_order_with_spec t m ids : canonical_order_with t m = Ok ids <->
  len (scheme t) <= m /\
  ((scheme t = [] /\ ids = [root]) \/
   ((2 <= length (scheme t))%nat /\ Forall scheme_id_ok (scheme t) /\ ids ≡ₚ scheme t /\ tiles [] (paths ids))).
Proof.
  unfold canonical_order_with. destruct (N.ltb_spec m (len (scheme t))); [split; [done|intros []; lia]|].
  destruct (scheme t) as [|a [|b l]] eqn:Es.
  - split; [intros [= <-]; auto|]. intros [_ [[_ ->]|[Hl _]]]; [done|simpl in Hl; lia].
  - split; [done|]. intros [_ [[? _]|[Hl _]]]; [done|simpl in Hl; lia].
  - rewrite <- Es in *. pose proof (sort_shards_sorted (scheme t)) as Hsort.
    pose proof (sort_by_Permutation shard_lt (scheme t)) as Hperm.
    set (k := sort_by shard_lt (scheme t)) in *.
    assert (k <> []) as Hk by (intros Hk; rewrite Hk, Es in Hperm; by apply Permutation_nil_cons in Hperm).
    pose proof (covers_scheme k Hk) as Hc.
    split.
    + intros E. apply bind_Ok in E as (u & Eu & E). destruct (overlaps k) eqn:Eo; [done|].
      apply overlaps_spec in Eo; [|done]. destruct (Hc Eo) as (c & Ec & Ht). rewrite Ec in E. cbn [or_panic] in E.
      rewrite bind_Ok_l in E. destruct c; [|done]. injection E as <-. split; [done|]. right.
      split; [rewrite Es; simpl; lia|]. split; [|done]. apply check_scheme_ids. eauto.
    + intros [_ [[Hn _]|(_ & Hok & Hp & Ht)]]; [congruence|]. apply check_scheme_ids in Hok as [u ->]. rewrite bind_Ok_l.
      assert (ids = k) as ->.
      { apply sorted_shards_unique; [by apply separated_sorted, tiles_separated with []|done|by rewrite Hp]. }
      pose proof (tiles_separated _ _ Ht) as Hs. rewrite (proj2 (overlaps_spec k Hsort)) by done.
      destruct (Hc Hs) as (c & Ec & Hc'). rewrite Ec. cbn [or_panic]. rewrite bind_Ok_l. destruct c; [done|].
      exfalso. destruct Hc' as (key & _ & Hu). destruct (tiles_covers _ _ key Ht) as (x & Hx & Hxk); [apply starts_nil|].
      by apply (Hu x).
Qed.

Lemma canonical_order_with_no_panic t m : no_panic (canonical_order_with t m).
Proof.
  unfold canonical_order_with. destruct (m <? _); [done|]. destruct (scheme t) as [|a [|b l]] eqn:Es; [done..|].
  rewrite <- Es. apply no_panic_bind; [apply no_panic_mapO; intros s; unfold check_scheme_id; by repeat case_match|].
  intros u. set (k := sort_by shard_lt (scheme t)).
  assert (k <> []) as Hk by (intros Hk; pose proof (sort_by_Permutation shard_lt (scheme t)) as Hp;
    fold k in Hp; rewrite Hk, Es in Hp; by apply Permutation_nil_cons in Hp).
  destruct (overlaps k) eqn:Eo; [done|]. apply overlaps_spec in Eo; [|apply sort_shards_sorted].
  destruct (covers_scheme k Hk Eo) as (c & -> & _). by destruct c.
Qed.

(** What clients of the order rely on. *)
Lemma canonical_order_tiles t ids : canonical_order t = Ok ids ->
  tiles [] (paths ids) /\ (1 <= length ids)%nat /\ len ids <= MAX_PARTITION_VIEW_LEAVES /\
  Forall (fun s : ShardId => slength (val s) <= MAX_PARTITION_VIEW_SHARD_ID_BITS) ids.
Proof.
  intros (Hm & [[_ ->]|(Hl & Hok & Hp & Ht)])%canonical_order_with_spec.
  - split; [constructor|]. split; [done|]. split; [done|]. by constructor.
  - split; [done|]. unfold len in *. rewrite Hp. do 2 (split; [lia|]). eapply Forall_impl; [exact Hok|]. by intros s [_ ?].
Qed.

(** Every key has exactly one shard. *)
Lemma tiles_route p l key : tiles p l -> starts p key ->
  exists i x, l !! i = Some x /\ starts x key /\ forall j y, l !! j = Some y -> starts y key -> j = i.
Proof.
  intros Ht Hp. destruct (tiles_covers _ _ _ Ht Hp) as (x & [i Hi]%list_elem_of_lookup & Hx).
  exists i, x. do 2 (split; [done|]). intros j y Hj Hy. symmetry. eapply separated_unique; eauto.
  by eapply tiles_separated.
Qed.

(** * Looking a shard up in canonical order *)

Section lookup.
Context {A : Type} (shard_of : A -> ShardId) (l : list A).
Hypothesis ordered : StronglySorted separated (paths (shard_of <$> l)).

Lemma shards_below i j x y : l !! i = Some x -> l !! j = Some y -> (i < j)%nat ->
  separated (bits_of (shard_of x)) (bits_of (shard_of y)).
Proof.
  intros Hi Hj Hij. apply (StronglySorted_lookup _ _ i j _ _ ordered); [| |done];
    by rewrite !list_lookup_fmap, ?Hi, ?Hj.
Qed.

Lemma shards_searchable s : searchable (fun e => canonical_cmp (shard_of e) s) l.
Proof.
  intros i j x y Hi Hj Hij. destruct (shards_below _ _ _ _ Hi Hj Hij) as [Hxy _].
  rewrite !canonical_cmp_spec. split; intros Hc.
  - rewrite bits_cmp_antisym in Hc |- *. apply CompOpp_iff in Hc. apply CompOpp_iff.
    by eapply bits_cmp_trans.
  - by eapply bits_cmp_trans.
Qed.

Lemma search_shard i x : l !! i = Some x ->
  binary_search_by (fun e => canonical_cmp (shard_of e) (shard_of x)) l = Some i.
Proof.
  intros Hi. apply (binary_search_by_unique _ _ i x); [apply shards_searchable|done|by apply canonical_cmp_Eq|].
  intros j y Hj E%canonical_cmp_Eq. destruct (Nat.lt_total i j) as [Hij|[|Hij]]; [|done|]; exfalso.
  - destruct (shards_below _ _ _ _ Hi Hj Hij) as [_ Hn]. by rewrite E in Hn.
  - destruct (shards_below _ _ _ _ Hj Hi Hij) as [_ Hn]. by rewrite E in Hn.
Qed.

Lemma search_shard_None s : s ∉ shard_of <$> l -> binary_search_by (fun e => canonical_cmp (shard_of e) s) l = None.
Proof.
  intros Hs. destruct (binary_search_by _ l) as [i|] eqn:E; [|done]. destruct Hs.
  apply binary_search_by_Some in E as (x & Hx & <-%canonical_cmp_Eq). apply list_elem_of_fmap. exists x. split; [done|].
  by eapply list_elem_of_lookup_2.
Qed.
End lookup.
