(* ===== verification/ShardTree.v ===== *)
(** The native shard tree of [src/consolidation/shard_tree.rs]: a flat arena of
    nodes built in one stack pass over the leaves of a complete scheme, and the
    certificates read from it by climbing parent links.

    [build_lays_out] relates the arena to a binary tree: it is the tree's postorder
    layout; [certificate_spec] that a certificate lists the tree's sibling hashes
    from the leaf up, and [certificate_folds] that folding them over the leaf
    gives the root. The work counters are left out. *)

From stdpp Require Import sorting.
From S2P Require Import Prelude Bytes Error Cbor Hash Radix ShardId ShardOps Search VerificationError Codec Bft BftSpec Topology.
Local Open Scope N_scope.

Definition NONE : u32 := wrap 32 (2 ^ 32 - 1).

Record TreeNode : Type := { node_hash : bytes; parent : u32; children : u32 * u32 }.

(** [leaves] pairs every shard with its node's index. *)
Record ShardTree : Type := { nodes : list TreeNode; leaves : list (ShardId * u32); tree_root : u32 }.

(** [x as usize], and [len() as u32] *)
Definition index (x : u32) : nat := N.to_nat (val x).
Definition next_index (nodes : list TreeNode) : u32 := wrap 32 (len nodes).

Definition set_parent (p : u32) (n : TreeNode) : TreeNode :=
  {| node_hash := node_hash n; parent := p; children := children n |}.

Section tree.
Context `{Sha2}.

(** Whether the top two pending subtrees are the zero and the one child of one parent. *)
Definition siblings (left_id right_id : ShardId) : bool :=
bool_decide (sibling right_id = Some left_id) &&
match get_bit left_id (slength (val left_id) - 1) with Ok b => b =? 0 | _ => false end.

Definition node_digest (l r : bytes) : bytes :=
DataHash.data (DataHasher.finalize (foldl DataHasher.update (InnerSha256 [])
  [encode_byte_string l; encode_byte_string r])).

(** The inner [while] loop: [top] is the top of the stack, [rest] what is below,
  topmost first. *)
Fixpoint merge (nodes : list TreeNode) (top : ShardId * u32) (rest : list (ShardId * u32)) :
  vresult (list TreeNode * list (ShardId * u32)) :=
match rest with
| [] => Ok (nodes, [top])
| (left_id, left_) :: rest' =>
    let (right_id, right_) := top in
    if negb (siblings left_id right_id) then Ok (nodes, top :: rest) else
    parent_id ← or_panic (prefix left_id (slength (val left_id) - 1));
    l ← or_panic (nodes !! index left_);
    r ← or_panic (nodes !! index right_);
    let hash := node_digest (node_hash l) (node_hash r) in
    let p := next_index nodes in
    let nodes := nodes ++ [{| node_hash := hash; parent := NONE; children := (left_, right_) |}] in
    let nodes := <[index right_ := set_parent p r]> (<[index left_ := set_parent p l]> nodes) in
    merge nodes (parent_id, p) rest'
end.

Definition build_step (st : list TreeNode * list (ShardId * u32) * list (ShardId * u32)) (leaf : ShardId * bytes) :
  vresult (list TreeNode * list (ShardId * u32) * list (ShardId * u32)) :=
let '(nodes, idx, stack) := st in
let '(shard, hash) := leaf in
_ ← (match last idx with
     | Some (prev, _) => match canonical_cmp prev shard with
                         | Lt => Ok tt
                         | _ => Err (LeafSetMismatch "shards are duplicated or not in canonical order")
                         end
     | None => Ok tt
     end);
let node := next_index nodes in
let nodes := nodes ++ [{| node_hash := hash; parent := NONE; children := (NONE, NONE) |}] in
'(nodes, stack) ← merge nodes (shard, node) stack;
Ok (nodes, idx ++ [(shard, node)], stack).

Definition build (leaves : list (ShardId * bytes)) : vresult ShardTree :=
if (length leaves =? 0)%nat then Err (InvalidTopology "a shard tree needs at least one leaf") else
'(nodes, idx, stack) ← foldM build_step ([], [], []) leaves;
match stack with
| [(id, root)] => if slength (val id) =? 0 then Ok {| nodes := nodes; leaves := idx; tree_root := root |}
                  else Err (InvalidTopology "scheme does not cover the whole shard tree")
| _ => Err (InvalidTopology "scheme does not cover the whole shard tree")
end.

Definition root_hash (self : ShardTree) : vresult bytes :=
n ← or_panic (nodes self !! index (tree_root self));
Ok (node_hash n).

(** The climb: [fuel] bounds the visited nodes; parents come after their
  children, so the number of nodes is enough ([certificate_spec]). *)
Fixpoint climb (fuel : nat) (nodes : list TreeNode) (node : u32) : vresult (list bytes) :=
match fuel with
| O => Panic
| S fuel' =>
    n ← or_panic (nodes !! index node);
    if bool_decide (parent n = NONE) then Ok [] else
    p ← or_panic (nodes !! index (parent n));
    let sibling := if bool_decide (fst (children p) = node) then snd (children p) else fst (children p) in
    s ← or_panic (nodes !! index sibling);
    rest ← climb fuel' nodes (parent n);
    Ok (node_hash s :: rest)
end.

Definition certificate (self : ShardTree) (shard : ShardId) : vresult ShardTreeCertificate :=
at_ ← ok_or (LeafSetMismatch "shard is not in the tree")
        (binary_search_by (fun e => canonical_cmp (fst e) shard) (leaves self));
leaf ← or_panic (leaves self !! at_);
sibling_hash_list ← climb (length (nodes self)) (nodes self) (snd leaf);
Ok {| Bft.shard := shard; Bft.sibling_hash_list := sibling_hash_list |}.

(** * The tree the arena lays out *)

Inductive stree : Type :=
| TLeaf (h : bytes)
| TNode (l r : stree).

Fixpoint tree_hash (t : stree) : bytes :=
match t with TLeaf h => h | TNode l r => node_digest (tree_hash l) (tree_hash r) end.

Fixpoint size (t : stree) : nat :=
match t with TLeaf _ => 1 | TNode l r => S (size l + size r) end.

Lemma size_pos t : (0 < size t)%nat.
Proof. destruct t; simpl; lia. Qed.

(** [shape p ls t]: the leaves [ls] are those of [t] rooted at [p], left to right. *)
Inductive shape : list bool -> list (ShardId * bytes) -> stree -> Prop :=
| shape_leaf s h : shape (bits_of s) [(s, h)] (TLeaf h)
| shape_node p l r tl tr : shape (p ++ [false]) l tl -> shape (p ++ [true]) r tr -> shape p (l ++ r) (TNode tl tr).

Lemma shape_tiles p ls t : shape p ls t -> tiles p (paths (fst <$> ls)).
Proof. induction 1 as [s h|p l r tl tr _ IHl _ IHr]; [constructor|]. rewrite !fmap_app. by constructor. Qed.

Lemma tiles_shape p ls : tiles p (paths (fst <$> ls)) -> exists t, shape p ls t.
Proof.
remember (paths (fst <$> ls)) as bs eqn:E. intros Ht. revert ls E.
induction Ht as [p|p l r _ IHl _ IHr]; intros ls E.
- destruct ls as [|[s h] [|? ?]]; [done| |done]. injection E as ->. eexists. constructor.
- rewrite <- list_fmap_compose in E. symmetry in E. apply fmap_app_inv in E as (k1 & k2 & -> & -> & ->).
  destruct (IHl k1) as [tl Hl]; [by rewrite <- list_fmap_compose|].
  destruct (IHr k2) as [tr Hr]; [by rewrite <- list_fmap_compose|]. eexists. by constructor.
Qed.

Lemma shape_size p ls t : shape p ls t -> (size t + 1 = 2 * length ls)%nat.
Proof. induction 1; simpl; [done|]. rewrite length_app. lia. Qed.

(** ** The postorder layout *)

Definition slot_at (i : nat) : u32 := wrap 32 (N.of_nat i).

(** Where the children of the root of a tree laid out from [base] are. *)
Definition kids (base : nat) (t : stree) : u32 * u32 :=
match t with
| TLeaf _ => (NONE, NONE)
| TNode l r => (slot_at (base + size l - 1), slot_at (base + size l + size r - 1))
end.

Fixpoint layout (base : nat) (q : u32) (t : stree) : list TreeNode :=
match t with
| TLeaf h => [{| node_hash := h; parent := q; children := (NONE, NONE) |}]
| TNode l r =>
    let me := slot_at (base + size l + size r) in
    layout base me l ++ layout (base + size l) me r ++
    [{| node_hash := tree_hash t; parent := q; children := kids base t |}]
end.

Fixpoint slots (base : nat) (t : stree) : list u32 :=
match t with
| TLeaf _ => [slot_at base]
| TNode l r => slots base l ++ slots (base + size l) r
end.

Definition root_node (base : nat) (q : u32) (t : stree) : TreeNode :=
{| node_hash := tree_hash t; parent := q; children := kids base t |}.

(** Everything but the root of the layout. *)
Definition below (base : nat) (t : stree) : list TreeNode :=
match t with
| TLeaf h => []
| TNode l r => let me := slot_at (base + size l + size r) in layout base me l ++ layout (base + size l) me r
end.

Lemma layout_eq base q t : layout base q t = below base t ++ [root_node base q t].
Proof. destruct t; [done|]. simpl. by rewrite <- app_assoc. Qed.

Lemma length_layout t : forall base q, length (layout base q t) = size t.
Proof.
induction t as [h|l IHl r IHr]; intros base q; [done|]. simpl. rewrite !length_app, IHl, IHr. simpl. lia.
Qed.

Lemma length_below base t : length (below base t) = (size t - 1)%nat.
Proof. pose proof (length_layout t base NONE) as E. rewrite layout_eq, length_app in E. simpl in E. lia. Qed.

Lemma length_slots t ls p base : shape p ls t -> length (slots base t) = length ls.
Proof. intros Hs. revert base. induction Hs; intros base; simpl; [done|]. rewrite !length_app. auto. Qed.

(** * Building *)

Lemma index_slot_at i : N.of_nat i < 2 ^ 32 -> index (slot_at i) = i.
Proof. intros Hi. unfold index, slot_at. rewrite val_wrap by done. lia. Qed.

Lemma slot_at_inj i j : N.of_nat i < 2 ^ 32 -> N.of_nat j < 2 ^ 32 -> slot_at i = slot_at j -> i = j.
Proof. intros Hi Hj E. by rewrite <- (index_slot_at i), <- (index_slot_at j), E. Qed.

Lemma slot_at_not_NONE i : N.of_nat i < 2 ^ 32 - 1 -> slot_at i <> NONE.
Proof. intros Hi E. apply (f_equal val) in E. unfold slot_at, NONE in E. rewrite !val_wrap in E by lia. lia. Qed.

Lemma slength_bits (s : ShardId) (p : list bool) : bits_of s = p -> slength (val s) = N.of_nat (length p).
Proof. intros <-. rewrite length_to_bits. lia. Qed.

Lemma siblings_spec l r : siblings l r = true <-> exists p, bits_of l = p ++ [false] /\ bits_of r = p ++ [true].
Proof.
unfold siblings. rewrite andb_true_iff, bool_decide_eq_true. pose proof (sibling_spec r) as Hr.
assert (forall p b, bits_of l = p ++ [b] ->
  get_bit l (slength (val l) - 1) = Ok (N.b2n b)) as Hbit.
{ intros p b E. pose proof (get_bit_spec l (length p)) as Hg. rewrite E, list_lookup_middle in Hg by done.
  rewrite (slength_bits _ _ E), length_app. replace (N.of_nat (length p + length [b]) - 1) with (N.of_nat (length p)) by (simpl; lia).
  destruct (get_bit l _); simpl in Hg; [by injection Hg as ->|done..]. }
split.
- intros [Es Hb]. destruct (bits_of r) as [|b0 k] eqn:Er; [congruence|]. destruct Hr as (t & q & b & Et & Eq & Eb).
  rewrite Es in Et. injection Et as <-. rewrite (Hbit _ _ Eb) in Hb. exists q. rewrite Eb, Eq. by destruct b.
- intros (p & El & Er). rewrite Er in Hr. destruct (p ++ [true]) as [|b0 k] eqn:E; [by destruct p|].
  destruct Hr as (t & q & b & Et & Eq & Eb). rewrite <- E in Eq. apply app_inj_tail in Eq as [<- <-].
  rewrite (Hbit _ _ El), Et. split; [|done]. f_equal. apply to_bits_inj. by rewrite Eb, El.
Qed.

(** A subtree that is a zero child waits for its sibling. *)
Lemma merge_zero ns id i rest p : bits_of id = p ++ [false] -> merge ns (id, i) rest = Ok (ns, (id, i) :: rest).
Proof.
intros E. destruct rest as [|[l j] rest]; [done|]. cbn [merge]. destruct (siblings l id) eqn:Es; [|done].
apply siblings_spec in Es as (q & _ & Er). rewrite E in Er. by apply app_inj_tail in Er as [_ ?].
Qed.

Lemma lookup_root ns base q t ms : length ns = base ->
(ns ++ layout base q t ++ ms) !! (base + size t - 1)%nat = Some (root_node base q t).
Proof.
intros <-. pose proof (size_pos t). rewrite layout_eq, lookup_app_r by lia.
rewrite <- app_assoc, lookup_app_r by (rewrite length_below; lia). rewrite length_below.
by replace (length ns + size t - 1 - length ns - (size t - 1))%nat with 0%nat by lia.
Qed.

Lemma insert_root ns base q q' t ms : length ns = base ->
<[(base + size t - 1)%nat := set_parent q' (root_node base q t)]> (ns ++ layout base q t ++ ms) =
ns ++ layout base q' t ++ ms.
Proof.
intros <-. pose proof (size_pos t). rewrite !layout_eq, insert_app_r_alt by lia. f_equal.
rewrite <- !app_assoc, insert_app_r_alt by (rewrite length_below; lia). f_equal. rewrite length_below.
by replace (length ns + size t - 1 - length ns - (size t - 1))%nat with 0%nat by lia.
Qed.

(** Two pending siblings become their parent. *)
Lemma merge_pair ns base l r left_ right_ id rest p :
length ns = base -> N.of_nat (base + size l + size r) < 2 ^ 32 ->
bits_of left_ = p ++ [false] -> bits_of right_ = p ++ [true] -> bits_of id = p ->
merge (ns ++ layout base NONE l ++ layout (base + size l) NONE r)
  (right_, slot_at (base + size l + size r - 1)) ((left_, slot_at (base + size l - 1)) :: rest) =
merge (ns ++ layout base NONE (TNode l r)) (id, slot_at (base + size l + size r)) rest.
Proof.
intros Hb Hn El Er Eid. cbn [merge]. pose proof (size_pos l). pose proof (size_pos r).
rewrite (proj2 (siblings_spec left_ right_)) by eauto. cbn [negb].
rewrite (slength_bits _ _ El), length_app. cbn [length].
replace (N.of_nat (length p + 1) - 1) with (N.of_nat (length p)) by lia.
destruct (prefix_spec left_ (length p)) as (q & -> & Eq); [rewrite El, length_app; lia|].
rewrite El, take_app_length in Eq. assert (q = id) as -> by (apply to_bits_inj; congruence).
cbn [or_panic]. rewrite bind_Ok_l, !index_slot_at by lia.
assert (length (ns ++ layout base NONE l) = (base + size l)%nat) as Hb'.
{ rewrite length_app, length_layout. lia. }
pose proof (lookup_root (ns ++ layout base NONE l) (base + size l) NONE r [] Hb') as Hr.
rewrite app_nil_r, <- app_assoc in Hr. rewrite (lookup_root _ _ _ _ _ Hb), Hr. cbn [or_panic]. rewrite !bind_Ok_l.
assert (next_index (ns ++ layout base NONE l ++ layout (base + size l) NONE r) = slot_at (base + size l + size r)) as Hp.
{ unfold next_index, slot_at, len. do 2 f_equal. rewrite !length_app, !length_layout. lia. }
rewrite !Hp. f_equal. rewrite <- !app_assoc, (insert_root _ _ _ _ _ _ Hb).
pose proof (insert_root (ns ++ layout base (slot_at (base + size l + size r)) l) (base + size l) NONE
  (slot_at (base + size l + size r)) r [{| node_hash := node_digest (tree_hash l) (tree_hash r); parent := NONE;
    children := kids base (TNode l r) |}]) as Hi. rewrite <- !app_assoc in Hi. apply Hi.
rewrite length_app, length_layout. lia.
Qed.

Lemma order_check_spec (ix : list (ShardId * u32)) (s : ShardId) :
StronglySorted separated (paths (fst <$> ix) ++ [bits_of s]) ->
match last ix with
| Some (prev, _) => match canonical_cmp prev s with
                    | Lt => Ok tt
                    | _ => Err (LeafSetMismatch "shards are duplicated or not in canonical order")
                    end
| None => Ok tt
end = @Ok PartitionViewError unit tt.
Proof.
intros Hs. destruct (last ix) as [[prev i]|] eqn:El; [|done]. rewrite last_lookup in El.
apply lookup_lt_Some in El as Hi.
assert (separated (bits_of prev) (bits_of s)) as [Hc _]; [|by rewrite canonical_cmp_spec, Hc].
apply (StronglySorted_lookup _ _ (Nat.pred (length ix)) (length ix) _ _ Hs); [| |lia].
- rewrite lookup_app_l by (rewrite !length_fmap; lia). by rewrite !list_lookup_fmap, El.
- rewrite lookup_app_r by (rewrite !length_fmap; lia). by rewrite !length_fmap, Nat.sub_diag.
Qed.

(** Feeding the leaves of a subtree is feeding its root. *)
Lemma build_leaves p ls t : shape p ls t -> forall ns ix stack id, bits_of id = p ->
StronglySorted separated (paths (fst <$> ix) ++ paths (fst <$> ls)) ->
N.of_nat (length ns + size t) < 2 ^ 32 ->
foldM build_step (ns, ix, stack) ls =
('(ns', stack') ← merge (ns ++ layout (length ns) NONE t) (id, slot_at (length ns + size t - 1)) stack;
 Ok (ns', ix ++ zip (fst <$> ls) (slots (length ns) t), stack')).
Proof.
induction 1 as [s h|p l r tl tr Hl IHl Hr IHr]; intros ns ix stack id Eid Hs Hn; cbn [size] in *.
- assert (id = s) as -> by by apply to_bits_inj. cbn [foldM build_step]. rewrite order_check_spec by exact Hs.
  rewrite bind_Ok_l. change (next_index ns) with (slot_at (length ns)).
  replace (length ns + 1 - 1)%nat with (length ns) by lia. cbn [layout].
  destruct (merge _ _ _) as [[ns' stack']| |]; [|done..]. rewrite !bind_Ok_l. done.
- pose proof (size_pos tl). pose proof (size_pos tr). destruct (split_spec id) as [E0 E1]. rewrite Eid in E0, E1.
  rewrite !fmap_app in Hs. rewrite app_assoc in Hs.
  rewrite foldM_app, (IHl _ _ _ _ E0); [|by apply StronglySorted_app_inv in Hs as [Hs _]|lia].
  rewrite (merge_zero _ _ _ _ _ E0), !bind_Ok_l.
  rewrite (IHr _ _ _ _ E1); [| |rewrite length_app, length_layout; lia].
  2:{ rewrite fmap_app, fst_zip by (erewrite length_fmap, length_slots by exact Hl; lia). by rewrite fmap_app. }
  rewrite length_app, length_layout, <- !app_assoc.
  assert (N.of_nat (length ns + size tl + size tr) < 2 ^ 32) as Hn' by lia.
  rewrite (merge_pair _ _ _ _ _ _ _ _ _ eq_refl Hn' E0 E1 Eid).
  replace (length ns + S (size tl + size tr) - 1)%nat with (length ns + size tl + size tr)%nat by lia.
  destruct (merge _ _ _) as [[ns' stack']| |]; [|done..]. rewrite !bind_Ok_l. do 3 f_equal.
  rewrite fmap_app. cbn [slots].
  by rewrite zip_with_app by (erewrite length_fmap, length_slots by exact Hl; lia).
Qed.

(** The tree built over the leaves of a complete scheme. *)
Definition tree_of (ls : list (ShardId * bytes)) (t : stree) : ShardTree := {|
nodes := layout 0 NONE t;
leaves := zip (fst <$> ls) (slots 0 t);
tree_root := slot_at (size t - 1);
|}.

Lemma build_lays_out ls t : shape [] ls t -> 2 * len ls < 2 ^ 32 -> build ls = Ok (tree_of ls t).
Proof.
intros Hs Hl. pose proof (shape_size _ _ _ Hs) as Hsz. pose proof (size_pos t). unfold build.
destruct (Nat.eqb_spec (length ls) 0); [lia|].
rewrite (build_leaves _ _ _ Hs [] [] [] root eq_refl); [|by eapply tiles_separated, shape_tiles|unfold len in Hl; simpl; lia].
cbn [merge]. rewrite !bind_Ok_l. done.
Qed.

(** Conversely only complete schemes are built: the stack always holds subtrees
  that partition the leaves consumed so far. *)
Definition pending (stack : list (ShardId * u32)) (ls : list (ShardId * bytes)) : Prop :=
exists parts, Forall2 (fun e part => exists t, shape (bits_of (fst e)) part t) stack parts /\ ls = concat (rev parts).

Lemma merge_pending rest ls : forall ns top ns' stack, merge ns top rest = Ok (ns', stack) ->
pending (top :: rest) ls -> pending stack ls.
Proof.
induction rest as [|[left_id left_] rest IH]; intros ns [right_id right_] ns' stack E Hp; cbn [merge] in E; [by injection E as <- <-|].
destruct (siblings left_id right_id) eqn:Es; cbn [negb] in E; [|by injection E as <- <-].
inv_ok. eapply IH; [exact E|]. apply siblings_spec in Es as (p & El & Er).
destruct Hp as (parts & Hf & ->). inversion Hf as [|? pr ? ? [tr Hr] Hf1]; subst.
inversion Hf1 as [|? pl ? parts' [tl Hl] Hf2]; subst. cbn [fst] in *. rewrite El in Hl. rewrite Er in Hr.
exists ((pl ++ pr) :: parts'). split; [|simpl; by rewrite !concat_app; simpl; rewrite !app_nil_r, <- !app_assoc].
constructor; [|done]. exists (TNode tl tr). cbn [fst]. rewrite (slength_bits _ _ El), length_app in E0. cbn [length] in E0.
replace (N.of_nat (length p + 1) - 1) with (N.of_nat (length p)) in E0 by lia.
destruct (prefix_spec left_id (length p)) as (q & Eq & Ebits); [rewrite El, length_app; lia|].
rewrite E0 in Eq. injection Eq as ->. rewrite El, take_app_length in Ebits. rewrite Ebits. by constructor.
Qed.

Lemma build_pending ls : forall ns ix stack done ns' ix' stack', foldM build_step (ns, ix, stack) ls = Ok (ns', ix', stack') ->
pending stack done -> pending stack' (done ++ ls).
Proof.
induction ls as [|[s h] ls IH]; intros ns ix stack done ns' ix' stack' E Hp; cbn [foldM] in E.
- injection E as <- <- <-. by rewrite app_nil_r.
- apply bind_Ok in E as ([[ns1 ix1] st1] & E1 & E). cbn [build_step] in E1.
  apply bind_Ok in E1 as (? & _ & E1). apply bind_Ok in E1 as ([ns2 st2] & Em & E1). injection E1 as <- <- <-.
  change ((s, h) :: ls) with ([(s, h)] ++ ls). rewrite app_assoc. eapply IH; [exact E|].
  eapply merge_pending; [eassumption|]. destruct Hp as (parts & Hf & ->). exists ([(s, h)] :: parts). split.
  + constructor; [|done]. eexists. constructor.
  + simpl. by rewrite concat_app.
Qed.

Lemma build_inv ls tr : build ls = Ok tr -> exists t, shape [] ls t.
Proof.
unfold build. destruct (length ls =? 0)%nat; [done|]. intros E. apply bind_Ok in E as ([[ns ix] stack] & E0 & E).
eapply (build_pending ls [] [] [] []) in E0; [|by exists []]. destruct stack as [|[id root] [|? ?]]; [done| |done].
destruct (N.eqb_spec (slength (val id)) 0) as [Hz|]; [|done]. destruct E0 as (parts & Hf & E0).
inversion Hf as [|? part ? ? [t Ht] Hf1]; subst. inversion Hf1; subst. simpl in E0. rewrite app_nil_r in E0. subst ls.
exists t. assert (bits_of id = []) as <-; [|done]. apply length_zero_iff_nil. rewrite length_to_bits. lia.
Qed.

(** * Reading the tree *)

Lemma root_hash_spec ls t : shape [] ls t -> 2 * len ls < 2 ^ 32 -> root_hash (tree_of ls t) = Ok (tree_hash t).
Proof.
intros Hs Hl. pose proof (shape_size _ _ _ Hs) as Hsz. unfold root_hash. cbn [nodes tree_root tree_of].
rewrite index_slot_at by (unfold len in Hl; lia). pose proof (lookup_root [] 0 NONE t [] eq_refl) as Hr.
rewrite app_nil_r in Hr. simpl in Hr. by rewrite Hr.
Qed.

(** The sibling hashes from the leaf at a path up to the root. *)
Fixpoint path_hashes (t : stree) (b : list bool) : option (list bytes) :=
match t, b with
| TLeaf _, [] => Some []
| TNode l r, c :: b' => rest ← path_hashes (if c then r else l) b'; Some (rest ++ [tree_hash (if c then l else r)])
| _, _ => None
end.

Lemma path_hashes_length t : forall b sibs, path_hashes t b = Some sibs -> (length sibs < size t)%nat /\ length sibs = length b.
Proof.
induction t as [h|l IHl r IHr]; intros [|c b] sibs E; simpl in E; try done; [injection E as <-; simpl; lia|].
apply bind_Some in E as (k & E & [= <-]). rewrite length_app. simpl. destruct c.
- apply IHr in E as [? ?]. lia.
- apply IHl in E as [? ?]. lia.
Qed.

(** One step of the climb, from either child of an inner node. *)
Lemma climb_child ns base q l r ms fuel rest (c : bool) : length ns = base -> N.of_nat (base + size l + size r) < 2 ^ 32 - 1 ->
let nodes := ns ++ layout base q (TNode l r) ++ ms in
climb fuel nodes (slot_at (base + size (TNode l r) - 1)) = Ok rest ->
climb (S fuel) nodes (if c then slot_at (base + size l + size r - 1) else slot_at (base + size l - 1)) =
Ok (tree_hash (if c then l else r) :: rest).
Proof.
intros Hb Hn nodes Hc. pose proof (size_pos l). pose proof (size_pos r).
set (me := slot_at (base + size l + size r)) in *.
assert (nodes !! (base + size l - 1)%nat = Some (root_node base me l)) as Hl.
{ unfold nodes. cbn [layout]. rewrite <- app_assoc. by apply lookup_root. }
assert (nodes !! (base + size l + size r - 1)%nat = Some (root_node (base + size l) me r)) as Hr.
{ unfold nodes. cbn [layout]. rewrite <- !app_assoc, (app_assoc ns). apply lookup_root. rewrite length_app, length_layout. lia. }
assert (nodes !! (base + size l + size r)%nat = Some (root_node base q (TNode l r))) as Hm.
{ pose proof (lookup_root ns base q (TNode l r) ms Hb) as Hx. cbn [size] in Hx.
  by replace (base + S (size l + size r) - 1)%nat with (base + size l + size r)%nat in Hx by lia. }
cbn [size] in Hc. replace (base + S (size l + size r) - 1)%nat with (base + size l + size r)%nat in Hc by lia.
change (slot_at (base + size l + size r)) with me in Hc.
assert (index me = base + size l + size r)%nat as Him by (apply index_slot_at; lia).
cbn [climb]. destruct c; rewrite index_slot_at, ?Hl, ?Hr by lia; cbn [or_panic]; rewrite bind_Ok_l; cbn [parent root_node].
all: rewrite bool_decide_eq_false_2 by (by apply slot_at_not_NONE); rewrite Him, Hm; cbn [or_panic]; rewrite bind_Ok_l; cbn [children root_node kids fst snd].
- rewrite bool_decide_eq_false_2 by (intros E; apply slot_at_inj in E; lia). rewrite index_slot_at, Hl by lia.
  cbn [or_panic]. by rewrite bind_Ok_l, Hc.
- rewrite bool_decide_eq_true_2 by done. rewrite index_slot_at, Hr by lia.
  cbn [or_panic]. by rewrite bind_Ok_l, Hc.
Qed.

Lemma layout_node base q l r ms : let me := slot_at (base + size l + size r) in
layout base q (TNode l r) ++ ms =
layout base me l ++ layout (base + size l) me r ++ [root_node base q (TNode l r)] ++ ms.
Proof. cbn [layout]. cbv zeta. by rewrite <- !(app_assoc (layout _ _ _)). Qed.

(** From the slot of a leaf the climb lists the siblings inside the subtree,
  then whatever is above. *)
Lemma climb_leaf p ls t : shape p ls t -> forall ns base q ms k s h, length ns = base ->
N.of_nat (base + size t) < 2 ^ 32 -> ls !! k = Some (s, h) ->
exists b slot sibs, bits_of s = p ++ b /\ slots base t !! k = Some slot /\ path_hashes t b = Some sibs /\
  forall fuel rest, climb fuel (ns ++ layout base q t ++ ms) (slot_at (base + size t - 1)) = Ok rest ->
    climb (length sibs + fuel) (ns ++ layout base q t ++ ms) slot = Ok (sibs ++ rest).
Proof.
induction 1 as [s h|p l r tl tr Hl IHl Hr IHr]; intros ns base q ms k s' h' Hb Hn Hk; cbn [size] in *.
- apply list_lookup_singleton_Some in Hk as [-> [= <- <-]]. exists [], (slot_at base), []. rewrite app_nil_r.
  do 3 (split; [done|]). intros fuel rest. by replace (base + 1 - 1)%nat with base by lia.
- set (me := slot_at (base + size tl + size tr)).
  assert (forall c b sibs slot, path_hashes (if c : bool then tr else tl) b = Some sibs ->
    (forall fuel rest, climb fuel (ns ++ layout base q (TNode tl tr) ++ ms)
      (if c then slot_at (base + size tl + size tr - 1) else slot_at (base + size tl - 1)) = Ok rest ->
      climb (length sibs + fuel) (ns ++ layout base q (TNode tl tr) ++ ms) slot = Ok (sibs ++ rest)) ->
    exists sibs', path_hashes (TNode tl tr) (c :: b) = Some sibs' /\
      forall fuel rest, climb fuel (ns ++ layout base q (TNode tl tr) ++ ms) (slot_at (base + S (size tl + size tr) - 1)) = Ok rest ->
      climb (length sibs' + fuel) (ns ++ layout base q (TNode tl tr) ++ ms) slot = Ok (sibs' ++ rest)) as G.
  { intros c b sibs slot Hp Hc. exists (sibs ++ [tree_hash (if c then tl else tr)]). cbn [path_hashes]. rewrite Hp.
    split; [done|]. intros fuel rest Hrest. rewrite length_app, <- app_assoc. cbn [length app].
    replace (length sibs + 1 + fuel)%nat with (length sibs + S fuel)%nat by lia. apply Hc.
    apply climb_child; [done|lia|exact Hrest]. }
  destruct (decide (k < length l)%nat) as [Hkl|Hkl].
  + rewrite lookup_app_l in Hk by done.
    destruct (IHl ns base me (layout (base + size tl) me tr ++ [root_node base q (TNode tl tr)] ++ ms) k s' h' Hb ltac:(lia) Hk)
      as (b & slot & sibs & Eb & Hslot & Hp & Hc).
    destruct (G false b sibs slot Hp) as (sibs' & Hp' & Hc').
    { intros fuel rest Hrest. rewrite layout_node in Hrest |- *. by apply Hc. }
    exists (false :: b), slot, sibs'. rewrite Eb, <- app_assoc. split; [done|]. split; [|done]. cbn [slots].
    apply lookup_app_l_Some. exact Hslot.
  + rewrite lookup_app_r in Hk by lia.
    destruct (IHr (ns ++ layout base me tl) (base + size tl)%nat me ([root_node base q (TNode tl tr)] ++ ms)
      (k - length l)%nat s' h') as (b & slot & sibs & Eb & Hslot & Hp & Hc); [rewrite length_app, length_layout; lia|lia|done|].
    destruct (G true b sibs slot Hp) as (sibs' & Hp' & Hc').
    { intros fuel rest Hrest. rewrite <- app_assoc in Hc. rewrite layout_node in Hrest |- *. by apply Hc. }
    exists (true :: b), slot, sibs'. rewrite Eb, <- app_assoc. split; [done|]. split; [|done]. cbn [slots].
    rewrite lookup_app_r by (erewrite length_slots by exact Hl; lia). by erewrite length_slots by exact Hl.
Qed.

Section read.
Context (ls : list (ShardId * bytes)) (t : stree).
Hypotheses (shaped : shape [] ls t) (small : 2 * len ls < 2 ^ 32).

Lemma tree_leaves_shards : fst <$> leaves (tree_of ls t) = fst <$> ls.
Proof. cbn [leaves tree_of]. rewrite fst_zip; [done|]. erewrite length_fmap, length_slots by exact shaped. lia. Qed.

Lemma tree_leaves_ordered : StronglySorted separated (paths (fst <$> leaves (tree_of ls t))).
Proof. rewrite tree_leaves_shards. eapply tiles_separated, shape_tiles, shaped. Qed.

(** The certificate of a shard lists the sibling hashes of its path. *)
Lemma certificate_spec k s h : ls !! k = Some (s, h) ->
  exists sibs, path_hashes t (bits_of s) = Some sibs /\ certificate (tree_of ls t) s = Ok {| shard := s; sibling_hash_list := sibs |}.
Proof.
  intros Hk. pose proof (shape_size _ _ _ shaped) as Hsz. pose proof (size_pos t).
  assert (N.of_nat (0 + size t) < 2 ^ 32) as Hn by (unfold len in small; lia).
  destruct (climb_leaf _ _ _ shaped [] 0 NONE [] k s h eq_refl Hn Hk) as (b & slot & sibs & Eb & Hslot & Hp & Hc).
  simpl in Eb. subst b. exists sibs. split; [done|]. unfold certificate.
  assert (leaves (tree_of ls t) !! k = Some (s, slot)) as Hleaf.
  { cbn [leaves tree_of]. rewrite lookup_zip_with, list_lookup_fmap, Hk. simpl. by rewrite Hslot. }
  pose proof (search_shard fst _ tree_leaves_ordered _ _ Hleaf) as Hs. cbn [fst] in Hs. rewrite Hs. cbn [ok_or].
  rewrite bind_Ok_l, Hleaf. cbn [or_panic]. rewrite bind_Ok_l. cbn [snd nodes tree_of]. rewrite app_nil_r in Hc. cbn [app] in Hc.
  destruct (path_hashes_length _ _ _ Hp) as [Hlen _]. rewrite length_layout.
  replace (size t) with (length sibs + S (size t - length sibs - 1))%nat at 1 by lia.
  rewrite (Hc _ []); [by rewrite app_nil_r|]. cbn [climb]. rewrite index_slot_at by lia.
  pose proof (lookup_root [] 0 NONE t [] eq_refl) as Hr. rewrite app_nil_r in Hr. cbn [app] in Hr. rewrite Hr.
  cbn [or_panic]. rewrite bind_Ok_l. cbn [parent root_node]. by rewrite bool_decide_eq_true_2.
Qed.

Lemma certificate_missing s : s ∉ fst <$> ls ->
  certificate (tree_of ls t) s = Err (LeafSetMismatch "shard is not in the tree").
Proof.
  intros Hs. unfold certificate. rewrite (search_shard_None fst); [done|]. by rewrite tree_leaves_shards.
Qed.
End read.

Lemma finalize_node right x y : DataHash.data (items_digest (shard_node right x y)) =
  node_digest (if right then y else DataHash.data x) (if right then DataHash.data x else y).
Proof. unfold node_digest. rewrite finalize_items. by destruct right. Qed.

(** Folding the siblings of a leaf over its hash gives the hash of the subtree. *)
Lemma certificate_folds p ls t : shape p ls t -> forall k s h b sibs root,
  ls !! k = Some (s, h) -> bits_of s = p ++ b -> path_hashes t b = Some sibs -> DataHash.data root = h ->
  exists r, foldM (shard_step s) root (imap pair sibs) = Ok r /\ DataHash.data r = tree_hash t.
Proof.
  induction 1 as [s h|p l r tl tr Hl IHl Hr IHr]; intros k s' h' b sibs root Hk Eb Hp Hroot.
  - apply list_lookup_singleton_Some in Hk as [-> [= <- <-]]. destruct b; [|done]. injection Hp as <-. by exists root.
  - destruct b as [|c b]; [done|]. cbn [path_hashes] in Hp. apply bind_Some in Hp as (sibs' & Hp & [= <-]).
    assert (exists r', foldM (shard_step s') root (imap pair sibs') = Ok r' /\
      DataHash.data r' = tree_hash (if c then tr else tl)) as (r' & Hf & Er).
    { assert (bits_of s' = (p ++ [c]) ++ b) as Eb' by (by rewrite <- app_assoc).
      assert (forall i q m u, shape (p ++ [negb c]) m u -> m !! i = Some (s', q) -> False) as Hno.
      { intros i q m u Hm Hi. apply shape_tiles, tiles_prefix in Hm. rewrite !Forall_fmap, Forall_lookup in Hm.
        specialize (Hm _ _ Hi). simpl in Hm. rewrite Eb', <- app_assoc in Hm. apply prefix_app_inv in Hm.
        apply prefix_cons_inv_1 in Hm. by destruct c. }
      apply lookup_app_Some in Hk as [Hk|[_ Hk]]; destruct c.
      - by destruct (Hno _ _ _ _ Hl Hk).
      - by eapply IHl.
      - by eapply IHr.
      - by destruct (Hno _ _ _ _ Hr Hk). }
    destruct (path_hashes_length _ _ _ Hp) as [_ Hlen].
    rewrite imap_pair_snoc, foldM_app, Hf, bind_Ok_l. cbn [foldM].
    rewrite shard_step_eq by (rewrite (slength_bits _ _ Eb), length_app; simpl; lia).
    rewrite bind_Ok_l. eexists. split; [done|]. rewrite (slength_bits _ _ Eb), length_app. cbn [length].
    replace (N.of_nat (length p + S (length b)) - (N.of_nat (length sibs') + 1)) with (N.of_nat (length p)) by lia.
    pose proof (lookup_bits_of s' (length p)) as Hbit. rewrite Eb, list_lookup_middle in Hbit by done.
    destruct (_ <? _); [|done]. injection Hbit as <-. rewrite finalize_node, Er. by destruct c.
Qed.
End tree.
