(* ===== verification/ViewCodec.v ===== *)
(** The partition view, its strict codec and its bound checks:
    [src/consolidation/partition_view.rs].

    [view_decodes]: a view decodes from a byte string exactly when it encodes to
    it; the decoding limits leave room for every view within the bounds. *)

From S2P Require Import Prelude Bytes Error Cbor CborSpec CborRead Hash Codec Radix ShardId ShardOps VerificationError Bft BftCodec BftSpec Topology.
Local Open Scope N_scope.

Definition PARTITION_VIEW_VERSION : u64 := wrap 64 1.
Definition MAX_PARTITION_VIEW_BYTES : N := 16 * 1024.
Definition MAX_PARTITION_VIEW_IR_BYTES : N := 1024.
Definition MAX_PARTITION_VIEW_SUMMARY_VALUE_BYTES : N := 256.
Definition HASH_LEN : N := 32.

Definition DECODE_LIMITS : DecodeLimits := {|
  max_input_bytes := wrap 64 MAX_PARTITION_VIEW_BYTES;
  max_nesting_depth := wrap 64 5;
  max_collection_items := wrap 64 16;
  max_total_items := wrap 64 192;
|}.

(** [r?] on a CBOR result, and on a crate result. *)
Abbreviation cbor_view r := (map_err view_cbor_error r).
Abbreviation crate_view r := (map_err view_error r).
Abbreviation nth_item items i := (or_panic (items !! i%nat)).

(** * [PartitionViewInputRecord] *)

Module PartitionViewInputRecord.

Record t : Type := {
  round_number : u64;
  epoch : u64;
  previous_hash : option bytes;
  hash : option bytes;
  summary_value : option bytes;
  timestamp : u64;
  block_hash : option bytes;
  sum_of_earned_fees : u64;
  executed_transactions_hash : option bytes;
}.

#[export] Instance eq_dec : EqDecision t.
Proof. solve_decision. Defined.

Definition from_input_record (ir : InputRecord) : t := {|
  round_number := Bft.round_number ir; epoch := ir_epoch ir; previous_hash := Bft.previous_hash ir;
  hash := Bft.hash ir; summary_value := Bft.summary_value ir; timestamp := Bft.timestamp ir;
  block_hash := Bft.block_hash ir; sum_of_earned_fees := Bft.sum_of_earned_fees ir;
  executed_transactions_hash := Bft.executed_transactions_hash ir |}.

Definition to_input_record (self : t) : InputRecord := {|
  Bft.round_number := round_number self; ir_epoch := epoch self; Bft.previous_hash := previous_hash self;
  Bft.hash := hash self; Bft.summary_value := summary_value self; Bft.timestamp := timestamp self;
  Bft.block_hash := block_hash self; Bft.sum_of_earned_fees := sum_of_earned_fees self;
  Bft.executed_transactions_hash := executed_transactions_hash self |}.

Definition from_cbor (d : Decoder) : vresult t :=
  inner ← cbor_view (Decoder.expect_tag d (val INPUT_RECORD_TAG));
  items ← cbor_view (Decoder.array inner (Some 10));
  i0 ← nth_item items 0; version ← cbor_view (Decoder.uint i0);
  if negb (val version =? 1) then Err (ViewBounds "unsupported input record version") else
  i1 ← nth_item items 1; round_number ← cbor_view (Decoder.uint i1);
  i2 ← nth_item items 2; epoch ← cbor_view (Decoder.uint i2);
  i3 ← nth_item items 3; previous_hash ← crate_view (opt_bytes i3);
  i4 ← nth_item items 4; hash ← crate_view (opt_bytes i4);
  i5 ← nth_item items 5; summary_value ← crate_view (opt_bytes i5);
  i6 ← nth_item items 6; timestamp ← cbor_view (Decoder.uint i6);
  i7 ← nth_item items 7; block_hash ← crate_view (opt_bytes i7);
  i8 ← nth_item items 8; sum_of_earned_fees ← cbor_view (Decoder.uint i8);
  i9 ← nth_item items 9; executed_transactions_hash ← crate_view (opt_bytes i9);
  Ok {| round_number := round_number; epoch := epoch; previous_hash := previous_hash; hash := hash;
        summary_value := summary_value; timestamp := timestamp; block_hash := block_hash;
        sum_of_earned_fees := sum_of_earned_fees; executed_transactions_hash := executed_transactions_hash |}.

Definition to_cbor (self : t) : bytes :=
  encode_tag INPUT_RECORD_TAG (encode_array [
    encode_uint (wrap 64 1);
    encode_uint (round_number self);
    encode_uint (epoch self);
    encode_nullable (previous_hash self) encode_byte_string;
    encode_nullable (hash self) encode_byte_string;
    encode_nullable (summary_value self) encode_byte_string;
    encode_uint (timestamp self);
    encode_nullable (block_hash self) encode_byte_string;
    encode_uint (sum_of_earned_fees self);
    encode_nullable (executed_transactions_hash self) encode_byte_string]).

Definition hash_length_ok (h : option bytes) : bool :=
  match h with Some h => (len h =? 0) || (len h =? HASH_LEN) | None => true end.

Definition check (self : t) : vresult unit :=
  _ ← (if negb (val (round_number self) =? 0) then
         if bool_decide (summary_value self = None) then Err (ViewBounds "input record: summary value is nil") else
         if val (timestamp self) =? 0 then Err (ViewBounds "input record: timestamp is unassigned") else Ok tt
       else Ok tt);
  let same_state := bool_decide (default [] (previous_hash self) = default [] (hash self)) in
  let nil_block_hash := match block_hash self with Some b => (length b =? 0)%nat | None => true end in
  if same_state && negb nil_block_hash
  then Err (ViewBounds "input record: state hash didn't change but block hash is not nil") else
  if negb same_state && nil_block_hash
  then Err (ViewBounds "input record: block hash is nil but state hash changed") else
  if MAX_PARTITION_VIEW_SUMMARY_VALUE_BYTES <? match summary_value self with Some v => len v | None => 0 end
  then Err (ViewBounds "summary value is too long") else
  if negb (forallb hash_length_ok [hash self; previous_hash self; block_hash self; executed_transactions_hash self])
  then Err (ViewBounds "input record hash must be empty or 32 bytes") else
  if MAX_PARTITION_VIEW_IR_BYTES <? len (to_cbor self) then Err (ViewBounds "input record is too large") else Ok tt.

End PartitionViewInputRecord.
#[export] Existing Instance PartitionViewInputRecord.eq_dec.
Abbreviation PartitionViewInputRecord := PartitionViewInputRecord.t.

(** * [PartitionViewLeaf] *)

Module PartitionViewLeaf.

Record t : Type := {
  shard_id : ShardId;
  input_record : PartitionViewInputRecord;
  tr_hash : bytes;
  shard_conf_hash : bytes;
}.

Definition check (self : t) : vresult unit :=
  if MAX_PARTITION_VIEW_SHARD_ID_BITS <? slength (val (shard_id self)) then Err (ViewBounds "shard id is too long") else
  _ ← PartitionViewInputRecord.check (input_record self);
  if negb (len (tr_hash self) =? HASH_LEN) then Err (ViewBounds "TRHash must be 32 bytes") else
  if negb (len (shard_conf_hash self) =? HASH_LEN) then Err (ViewBounds "ShardConfHash must be 32 bytes") else Ok tt.

Definition to_cbor (self : t) : bytes := encode_array [
  encode_byte_string (ShardId.encode (shard_id self));
  PartitionViewInputRecord.to_cbor (input_record self);
  encode_byte_string (tr_hash self);
  encode_byte_string (shard_conf_hash self)].

Definition from_cbor (d : Decoder) : vresult t :=
  items ← cbor_view (Decoder.array d (Some 4));
  i0 ← nth_item items 0; b ← cbor_view (Decoder.bytes_value i0); shard_id ← crate_view (ShardId.decode b);
  i1 ← nth_item items 1; input_record ← PartitionViewInputRecord.from_cbor i1;
  i2 ← nth_item items 2; tr_hash ← cbor_view (Decoder.bytes_value i2);
  i3 ← nth_item items 3; shard_conf_hash ← cbor_view (Decoder.bytes_value i3);
  Ok {| shard_id := shard_id; input_record := input_record; tr_hash := tr_hash; shard_conf_hash := shard_conf_hash |}.

Definition leaf_hash `{Sha2} (self : t) : bytes :=
  DataHash.data (DataHasher.finalize (foldl DataHasher.update (InnerSha256 []) [
    PartitionViewInputRecord.to_cbor (input_record self);
    encode_byte_string (tr_hash self);
    encode_byte_string (shard_conf_hash self)])).

End PartitionViewLeaf.
Abbreviation PartitionViewLeaf := PartitionViewLeaf.t.

(** * [PartitionView] *)

Record PartitionView : Type := { partition_id : u32; view_leaves : list PartitionViewLeaf }.

Definition check_bounds (self : PartitionView) : vresult unit :=
  if val (partition_id self) =? 0 then Err (ViewBounds "partition ID is zero") else
  let n := len (view_leaves self) in
  if negb ((1 <=? n) && (n <=? MAX_PARTITION_VIEW_LEAVES)) then Err (ViewBounds "leaf count must be 1..=8") else
  _ ← mapO PartitionViewLeaf.check (view_leaves self);
  Ok tt.

Definition view_to_cbor (self : PartitionView) : vresult bytes :=
  _ ← check_bounds self;
  let data := encode_array [
    encode_uint PARTITION_VIEW_VERSION;
    encode_uint (wrap 64 (val (partition_id self)));
    encode_array (PartitionViewLeaf.to_cbor <$> view_leaves self)] in
  if MAX_PARTITION_VIEW_BYTES <? len data then Err (TooLarge MAX_PARTITION_VIEW_BYTES (len data)) else Ok data.

Definition view_from_cbor (data : bytes) : vresult PartitionView :=
  if MAX_PARTITION_VIEW_BYTES <? len data then Err (TooLarge MAX_PARTITION_VIEW_BYTES (len data)) else
  let top := with_limits data DECODE_LIMITS in
  items ← cbor_view (Decoder.array top (Some 3));
  i0 ← nth_item items 0; version ← cbor_view (Decoder.uint i0);
  if negb (val version =? val PARTITION_VIEW_VERSION) then Err (UnsupportedViewVersion (val version)) else
  i1 ← nth_item items 1; v ← cbor_view (Decoder.uint i1);
  partition_id ← ok_or (ViewBounds "partition ID exceeds 32 bits") (try_uint 32 (val v));
  i2 ← nth_item items 2; ds ← cbor_view (Decoder.array i2 None);
  leaves ← mapO PartitionViewLeaf.from_cbor ds;
  let view := {| partition_id := partition_id; view_leaves := leaves |} in
  _ ← check_bounds view;
  b ← view_to_cbor view;
  if negb (bool_decide (b = data)) then Err NotCanonical else Ok view.

(** * The decoding limits leave room for every view *)

(** [b] is an item that fits at nesting depth [depth] and counts for [n] at most. *)
Definition admits (limits : DecodeLimits) (depth n : N) (b : bytes) : Prop :=
  exists i, b = enc i /\ fits limits depth i = true /\ count i <= n.

Section admits.
Context (limits : DecodeLimits) (depth : N).
Hypothesis deep : depth <= val (max_nesting_depth limits).

Lemma admits_uint v : admits limits depth 1 (encode_uint v).
Proof. exists (IScalar KUint v). simpl. by rewrite (proj2 (N.leb_le _ _) deep). Qed.

Lemma admits_bytes b : len b <= usize_max -> admits limits depth 1 (encode_byte_string b).
Proof. intros Hb. exists (IString KBytes b). simpl. by rewrite (proj2 (N.leb_le _ _) deep), (proj2 (N.leb_le _ _) Hb). Qed.

Lemma admits_opt_bytes o : (forall b, o = Some b -> len b <= usize_max) ->
  admits limits depth 1 (encode_nullable o encode_byte_string).
Proof.
  intros Ho. destruct o as [b|]; [by apply admits_bytes, Ho|]. exists (IScalar KSimple (wrap 64 22)).
  simpl. by rewrite (proj2 (N.leb_le _ _) deep).
Qed.

Lemma admits_tag t n b : admits limits (depth + 1) n b -> admits limits depth (1 + n) (encode_tag t b).
Proof.
  intros (i & -> & Hf & Hc). exists (ITag t i). split; [done|]. simpl. rewrite (proj2 (N.leb_le _ _) deep). split; [done|lia].
Qed.

Lemma admits_array ns bs : Forall2 (admits limits (depth + 1)) ns bs -> len bs <= val (max_collection_items limits) ->
  admits limits depth (1 + foldr N.add 0 ns) (encode_array bs).
Proof.
  intros H Hl. assert (exists l, bs = enc <$> l /\ forallb (fits limits (depth + 1)) l = true /\ counts l <= foldr N.add 0 ns)
    as (l & -> & Hf & Hc).
  { clear Hl. induction H as [|n b ns bs (i & -> & Hf & Hc) _ (l & -> & Hl & Hcl)]; [by exists []|].
    exists (i :: l). unfold counts in *. csimpl. rewrite Hf, Hl. split; [done|]. split; [done|lia]. }
  exists (IArray l). rewrite encode_array_items. split; [done|]. simpl. unfold len in *. rewrite length_fmap in Hl.
  rewrite (proj2 (N.leb_le _ _) deep), (proj2 (N.leb_le _ _) Hl), Hf. split; [done|]. unfold counts in Hc. lia.
Qed.
End admits.

Lemma admits_accepts limits n b : admits limits 0 n b -> n <= val (max_total_items limits) ->
  len b <= val (max_input_bytes limits) -> accepts limits b.
Proof. intros (i & -> & Hf & Hc) Hn Hl. apply accepts_iff. exists i. split; [done|]. split; [done|]. split; [lia|exact Hl]. Qed.

Create HintDb admits discriminated.
#[export] Hint Resolve admits_uint admits_bytes admits_opt_bytes : admits.

(** ** What the checks establish *)

Lemma opt_hash_small h b : PartitionViewInputRecord.hash_length_ok h = true -> h = Some b -> len b <= usize_max.
Proof.
  intros Hh ->. simpl in Hh. apply orb_true_iff in Hh. rewrite !N.eqb_eq in Hh. unfold HASH_LEN, usize_max in *. lia.
Qed.

Lemma record_check_Ok r u : PartitionViewInputRecord.check r = Ok u ->
  Forall (fun h => PartitionViewInputRecord.hash_length_ok h = true)
    [PartitionViewInputRecord.hash r; PartitionViewInputRecord.previous_hash r; PartitionViewInputRecord.block_hash r;
     PartitionViewInputRecord.executed_transactions_hash r] /\
  (forall v, PartitionViewInputRecord.summary_value r = Some v -> len v <= MAX_PARTITION_VIEW_SUMMARY_VALUE_BYTES) /\
  len (PartitionViewInputRecord.to_cbor r) <= MAX_PARTITION_VIEW_IR_BYTES.
Proof.
  unfold PartitionViewInputRecord.check. intros E. inv_ok. apply negb_false_iff in G2. rewrite forallb_Forall in G2.
  apply N.ltb_ge in G1, G3. split; [done|]. split; [|done]. intros v Hv. by rewrite Hv in G1.
Qed.

Lemma record_admits r u : PartitionViewInputRecord.check r = Ok u ->
  admits DECODE_LIMITS 3 12 (PartitionViewInputRecord.to_cbor r).
Proof.
  intros (Hh & Hs & _)%record_check_Ok.
  assert (forall h b, h ∈ [PartitionViewInputRecord.hash r; PartitionViewInputRecord.previous_hash r;
    PartitionViewInputRecord.block_hash r; PartitionViewInputRecord.executed_transactions_hash r] -> h = Some b ->
    len b <= usize_max) as Hb.
  { intros h b Hin. rewrite Forall_forall in Hh. by apply opt_hash_small, Hh. }
  assert (forall v, PartitionViewInputRecord.summary_value r = Some v -> len v <= usize_max) as Hv.
  { intros v E. specialize (Hs v E). unfold MAX_PARTITION_VIEW_SUMMARY_VALUE_BYTES, usize_max in *. lia. }
  unfold PartitionViewInputRecord.to_cbor. change 12 with (1 + (1 + foldr N.add 0 (replicate 10 1))).
  apply admits_tag; [done|]. apply admits_array; [done| |done]. cbn [replicate].
  repeat (apply Forall2_cons; split); try apply Forall2_nil_2; eauto with admits; (apply admits_opt_bytes; [done|]; intros b; apply Hb; set_solver).
Qed.

Lemma leaf_check_Ok l u : PartitionViewLeaf.check l = Ok u ->
  slength (val (PartitionViewLeaf.shard_id l)) <= MAX_PARTITION_VIEW_SHARD_ID_BITS /\
  PartitionViewInputRecord.check (PartitionViewLeaf.input_record l) = Ok tt /\
  len (PartitionViewLeaf.tr_hash l) = 32 /\ len (PartitionViewLeaf.shard_conf_hash l) = 32.
Proof.
  unfold PartitionViewLeaf.check. intros E. inv_ok. destruct a. apply N.ltb_ge in G.
  apply negb_false_iff, N.eqb_eq in G0, G1. done.
Qed.

Lemma len_encode_shard s : len (ShardId.encode s) <= slength (val s) / 8 + 1.
Proof.
  unfold ShardId.encode. rewrite len_app. unfold len. rewrite length_take. simpl. lia.
Qed.

Lemma leaf_admits l u : PartitionViewLeaf.check l = Ok u -> admits DECODE_LIMITS 2 16 (PartitionViewLeaf.to_cbor l).
Proof.
  intros (Hs & Hr & Ht & Hc)%leaf_check_Ok. unfold PartitionViewLeaf.to_cbor.
  change 16 with (1 + foldr N.add 0 [1; 12; 1; 1]). apply admits_array; [done| |done].
  pose proof (len_encode_shard (PartitionViewLeaf.shard_id l)) as Hl.
  assert (slength (val (PartitionViewLeaf.shard_id l)) / 8 <= 32) as Hd.
  { apply N.Div0.div_le_upper_bound. unfold MAX_PARTITION_VIEW_SHARD_ID_BITS in Hs. lia. }
  assert (forall x, len x <= 33 -> admits DECODE_LIMITS (2 + 1) 1 (encode_byte_string x)) as Hx.
  { intros x Hlx. apply admits_bytes; [done|]. unfold usize_max. lia. }
  repeat (apply Forall2_cons; split); try apply Forall2_nil_2; [apply Hx; lia|by eapply record_admits|apply Hx; lia..].
Qed.

(** * The codec *)

Lemma record_item r : is_item (PartitionViewInputRecord.to_cbor r).
Proof. unfold PartitionViewInputRecord.to_cbor. eauto 20 with items. Qed.
#[export] Hint Resolve record_item : items.

Lemma leaf_item l : is_item (PartitionViewLeaf.to_cbor l).
Proof. unfold PartitionViewLeaf.to_cbor. eauto 20 with items. Qed.
#[export] Hint Resolve leaf_item : items.

Lemma record_enc limits r : accepts limits (PartitionViewInputRecord.to_cbor r) ->
  PartitionViewInputRecord.from_cbor (with_limits (PartitionViewInputRecord.to_cbor r) limits) = Ok r.
Proof.
  unfold PartitionViewInputRecord.to_cbor, PartitionViewInputRecord.from_cbor. intros Ha. codec_forward. by destruct r.
Qed.

Lemma leaf_enc limits l : accepts limits (PartitionViewLeaf.to_cbor l) ->
  PartitionViewLeaf.from_cbor (with_limits (PartitionViewLeaf.to_cbor l) limits) = Ok l.
Proof.
  unfold PartitionViewLeaf.to_cbor, PartitionViewLeaf.from_cbor. intros Ha. codec_forward.
  rewrite ShardId.decode_encode, record_enc by done. codec_forward. by destruct l.
Qed.

(** Indexing a decoded array of known length is in bounds. *)
Lemma no_panic_nth_item d n ds i : cbor_view (Decoder.array d (Some n)) = Ok ds -> (i < N.to_nat n)%nat ->
  no_panic (@or_panic PartitionViewError _ (ds !! i)).
Proof.
  intros Hd%map_err_Ok%array_length Hi. destruct (lookup_lt_is_Some_2 ds i) as [x ->]; [lia|done].
Qed.

Ltac view_no_panic :=
  repeat first
    [ apply no_panic_Ok | apply no_panic_Err
    | eapply no_panic_nth_item; [eassumption|vm_compute; lia]
    | solve [auto with outcome]
    | apply no_panic_bind; [|intros ? ?]
    | case_match ].

Lemma record_no_panic d : no_panic (PartitionViewInputRecord.from_cbor d).
Proof. unfold PartitionViewInputRecord.from_cbor. view_no_panic. Qed.
#[export] Hint Resolve record_no_panic : outcome.

Lemma leaf_no_panic d : no_panic (PartitionViewLeaf.from_cbor d).
Proof. unfold PartitionViewLeaf.from_cbor. view_no_panic. Qed.
#[export] Hint Resolve leaf_no_panic : outcome.

Lemma record_check_no_panic r : no_panic (PartitionViewInputRecord.check r).
Proof. unfold PartitionViewInputRecord.check. cbv zeta. view_no_panic. Qed.
#[export] Hint Resolve record_check_no_panic : outcome.

Lemma leaf_check_no_panic l : no_panic (PartitionViewLeaf.check l).
Proof. unfold PartitionViewLeaf.check. view_no_panic. Qed.
#[export] Hint Resolve leaf_check_no_panic : outcome.

Lemma check_bounds_no_panic v : no_panic (check_bounds v).
Proof. unfold check_bounds. cbv zeta. view_no_panic. Qed.
#[export] Hint Resolve check_bounds_no_panic : outcome.

Lemma view_to_cbor_no_panic v : no_panic (view_to_cbor v).
Proof. unfold view_to_cbor. cbv zeta. view_no_panic. Qed.
#[export] Hint Resolve view_to_cbor_no_panic : outcome.

Lemma view_from_cbor_no_panic data : no_panic (view_from_cbor data).
Proof. unfold view_from_cbor. cbv zeta. view_no_panic. Qed.

Lemma check_bounds_Ok v u : check_bounds v = Ok u ->
  val (partition_id v) <> 0 /\ 1 <= len (view_leaves v) <= MAX_PARTITION_VIEW_LEAVES /\
  Forall (fun l => PartitionViewLeaf.check l = Ok tt) (view_leaves v).
Proof.
  unfold check_bounds. intros E. inv_ok. apply N.eqb_neq in G. apply negb_false_iff, andb_true_iff in G0.
  rewrite !N.leb_le in G0. split; [done|]. split; [done|]. apply mapO_Forall2 in E0.
  apply Forall_forall. intros l Hl. apply list_elem_of_lookup in Hl as [i Hi].
  destruct (Forall2_lookup_l _ _ _ _ _ E0 Hi) as ([] & _ & Hc). exact Hc.
Qed.

Lemma view_accepts v data : view_to_cbor v = Ok data -> accepts DECODE_LIMITS data.
Proof.
  unfold view_to_cbor. intros E. apply bind_Ok in E as (u & (_ & Hn & Hl)%check_bounds_Ok & E). inv_ok.
  apply N.ltb_ge in G. apply (admits_accepts _ (1 + foldr N.add 0 [1; 1; 1 + foldr N.add 0 (replicate (length (view_leaves v)) 16)])).
  - apply admits_array; [done| |done]. repeat (apply Forall2_cons; split); try apply Forall2_nil_2; [by apply admits_uint..|].
    apply admits_array; [done| |unfold len; rewrite length_fmap; unfold len, MAX_PARTITION_VIEW_LEAVES in Hn; change (val _) with 16; lia].
    clear Hn G. induction Hl as [|l ls Hc _ IH]; [constructor|]. constructor; [by eapply leaf_admits|done].
  - assert (forall n, foldr N.add 0 (replicate n 16) = 16 * N.of_nat n) as ->.
    { induction n as [|n IH]; [done|]. cbn [replicate foldr]. rewrite IH. lia. }
    unfold len, MAX_PARTITION_VIEW_LEAVES in Hn. cbn [foldr]. change (val (max_total_items DECODE_LIMITS)) with 192. lia.
  - exact G.
Qed.

Lemma leaves_enc limits ls : Forall (fun b => accepts limits b) (PartitionViewLeaf.to_cbor <$> ls) ->
  mapO PartitionViewLeaf.from_cbor (children limits (PartitionViewLeaf.to_cbor <$> ls)) = Ok ls.
Proof.
  intros Hl. rewrite <- list_fmap_compose, (mapO_fmap _ _ id), list_fmap_id; [done|].
  intros l Hin. rewrite Forall_fmap, Forall_forall in Hl. by apply leaf_enc, Hl.
Qed.

(** A view decodes from exactly the bytes it encodes to. *)
Lemma view_decodes v data : view_from_cbor data = Ok v <-> view_to_cbor v = Ok data.
Proof.
  split.
  - unfold view_from_cbor. intros E. inv_ok. apply negb_false_iff, bool_decide_eq_true in G1. congruence.
  - intros E. pose proof (view_accepts _ _ E) as Ha. pose proof E as E'. unfold view_to_cbor in E'.
    apply bind_Ok in E' as ([] & Hc & E'). inv_ok. set (data := encode_array _) in *. unfold view_from_cbor.
    rewrite G. unfold data in Ha |- *. codec_forward.
    rewrite leaves_enc by done. rewrite bind_Ok_l.
    replace {| partition_id := partition_id v; view_leaves := view_leaves v |} with v by by destruct v.
    rewrite Hc, bind_Ok_l, E, bind_Ok_l. by rewrite bool_decide_eq_true_2.
Qed.
