(* ===== verification/Certificates.v ===== *)
(** The sparse-Merkle-tree certificates: [src/api/inclusion_certificate.rs] and
    [src/api/non_inclusion_certificate.rs]. Their raw byte forms round-trip, and
    what they authenticate is a fact of the tree ([inclusion_sound],
    [non_inclusion_sound]). *)

From S2P Require Import Prelude Bytes Error Hash Radix Ids VerificationError.
Local Open Scope N_scope.

Definition BITMAP_SIZE : N := 32.
Definition HASH_SIZE : N := 32.
Definition TERMINAL_KEY_SIZE : N := 32.
Definition AGGREGATION_TREE_VALUE_SIZE : N := 32.

(** [u8::count_ones], and its sum over a slice. *)
Definition count_ones (b : byte) : N :=
  foldr (fun i n => N.b2n (N.testbit (b2n b) i) + n) 0 [0; 1; 2; 3; 4; 5; 6; 7].
Definition popcount (l : bytes) : N := foldr (fun b n => count_ones b + n) 0 l.

(** [chunks_exact(32)], each copied into a zeroed buffer *)
Fixpoint chunks (count : nat) (l : bytes) : list (arr 32) :=
  match count with
  | O => []
  | S count => fit 32 (take 32 l) :: chunks count (drop 32 l)
  end.
Definition chunks_exact (l : bytes) : list (arr 32) := chunks (length l / 32) l.

Definition hashes (siblings : list (arr 32)) : bytes := concat (val <$> siblings).

Module InclusionCertificate.

Record InclusionCertificate : Type := { bitmap : arr 32; siblings : list (arr 32) }.

Definition decode (b : bytes) : result InclusionCertificate :=
  if len b <? BITMAP_SIZE
  then Err (InvalidLength "InclusionCertificate bitmap" BITMAP_SIZE (len b)) else
  let sibling_bytes := len b - BITMAP_SIZE in
  if negb (sibling_bytes mod HASH_SIZE =? 0) then Err (UnexpectedValue "inclusion siblings misaligned") else
  bm ← or_panic (get_range b 0 BITMAP_SIZE);
  let count := sibling_bytes / HASH_SIZE in
  if negb (popcount bm =? count)
  then Err (UnexpectedValue "inclusion sibling count does not match bitmap") else
  rest ← or_panic (get_from b BITMAP_SIZE);
  Ok {| bitmap := fit 32 bm; siblings := chunks_exact rest |}.

Definition encode (self : InclusionCertificate) : bytes :=
  val (bitmap self) ++ hashes (siblings self).

Definition verify `{Sha2} (self : InclusionCertificate) (leaf_key : StateId) (leaf_value expected_root : DataHash) : bool :=
  let key := sid_bytes leaf_key in
  match fold_certificate_path (bitmap self) (siblings self) key key (DataHash.data leaf_value) with
  | Ok hash => bool_decide (hash = expected_root)
  | _ => false
  end.

(** What [decode] enforces. *)
Definition wf (self : InclusionCertificate) : Prop := popcount (val (bitmap self)) = len (siblings self).

End InclusionCertificate.

Module NonInclusionCertificate.

Record Body : Type := {
  bitmap : arr 32;
  siblings : list (arr 32);
  terminal_key : arr 32;
  terminal_value : arr 32;
}.

Record NonInclusionCertificate : Type := { body : option Body }.

Inductive PathRelation : Type := Absent | Present.

Definition empty_tree : NonInclusionCertificate := {| body := None |}.

Definition from_parts (bitmap : arr 32) (siblings : list (arr 32)) (terminal_key terminal_value : arr 32)
    : result NonInclusionCertificate :=
  let expected := popcount (val bitmap) in
  if negb (len siblings =? expected)
  then Err (InvalidLength "NonInclusionCertificate siblings" expected (len siblings)) else
  Ok {| body := Some {| bitmap := bitmap; siblings := siblings;
                        terminal_key := terminal_key; terminal_value := terminal_value |} |}.

(** [from.try_into().expect("length checked")] *)
Definition array_at {E} (b : bytes) (from to : N) : outcome E (arr 32) :=
  s ← or_panic (get_range b from to);
  or_panic (try_arr 32 s).

Definition decode (b : bytes) : result NonInclusionCertificate :=
  if len b =? 0 then Ok empty_tree else
  if len b <? BITMAP_SIZE
  then Err (InvalidLength "NonInclusionCertificate bitmap" BITMAP_SIZE (len b)) else
  bm ← or_panic (get_range b 0 BITMAP_SIZE);
  let sibling_count := popcount bm in
  terminal_offset ← ok_or (OutOfRange "NonInclusionCertificate encoded length overflow")
    (size ← checked_add BITMAP_SIZE (sibling_count * HASH_SIZE);
     checked_add size TERMINAL_KEY_SIZE);
  if len b <? terminal_offset
  then Err (InvalidLength "NonInclusionCertificate" (terminal_offset + AGGREGATION_TREE_VALUE_SIZE) (len b)) else
  let terminal_value_size := len b - terminal_offset in
  if negb (terminal_value_size =? AGGREGATION_TREE_VALUE_SIZE)
  then Err (InvalidLength "Unicity aggregation-tree terminal value" AGGREGATION_TREE_VALUE_SIZE terminal_value_size) else
  let expected := terminal_offset + AGGREGATION_TREE_VALUE_SIZE in
  let siblings_end := BITMAP_SIZE + sibling_count * HASH_SIZE in
  sib ← or_panic (get_range b BITMAP_SIZE siblings_end);
  terminal_key ← array_at b siblings_end (siblings_end + TERMINAL_KEY_SIZE);
  terminal_value ← array_at b (siblings_end + TERMINAL_KEY_SIZE) expected;
  from_parts (fit 32 bm) (chunks_exact sib) terminal_key terminal_value.

Definition encode (self : NonInclusionCertificate) : bytes :=
  match body self with
  | None => []
  | Some b => val (bitmap b) ++ hashes (siblings b) ++ val (terminal_key b) ++ val (terminal_value b)
  end.

Definition is_empty_tree (self : NonInclusionCertificate) : bool :=
  match body self with None => true | Some _ => false end.

Definition terminal_matches (self : NonInclusionCertificate) (target : StateId) : bool :=
  match body self with
  | Some b => bool_decide (terminal_key b = sid_bytes target)
  | None => false
  end.

Definition authenticates `{Sha2} (self : NonInclusionCertificate) (target : StateId)
    (expected_root : option DataHash) : bool :=
  match body self, expected_root with
  | None, None => true
  | None, Some _ | Some _, None => false
  | Some b, Some root =>
      match fold_certificate_path (bitmap b) (siblings b) (sid_bytes target) (terminal_key b) (val (terminal_value b)) with
      | Ok calculated => bool_decide (calculated = root)
      | _ => false
      end
  end.

Definition relation_to_trusted_root `{Sha2} (self : NonInclusionCertificate) (target : StateId)
    (trusted_root : option DataHash) : verdict PathRelation :=
  if negb (authenticates self target trusted_root) then Err NonInclusionCertificateInvalid else
  Ok (if terminal_matches self target then Present else Absent).

(** What the constructors enforce. *)
Definition wf (self : NonInclusionCertificate) : Prop :=
  match body self with Some b => popcount (val (bitmap b)) = len (siblings b) | None => True end.

End NonInclusionCertificate.

(** * Byte forms *)

Lemma hashes_cons a l : hashes (a :: l) = val a ++ hashes l.
Proof. done. Qed.

Lemma length_hashes l : length (hashes l) = (32 * length l)%nat.
Proof. induction l as [|a l IH]; [done|]. rewrite hashes_cons, length_app, arr_length, IH. simpl. lia. Qed.

Lemma len_hashes l : len (hashes l) = len l * 32.
Proof. unfold len. rewrite length_hashes. lia. Qed.

Lemma chunks_hashes l : chunks (length l) (hashes l) = l.
Proof.
  induction l as [|a l IH]; [done|]. rewrite hashes_cons. cbn [length chunks].
  rewrite take_app_length', drop_app_length' by (symmetry; apply arr_length).
  by rewrite IH, fit_val.
Qed.

Lemma chunks_exact_hashes l : chunks_exact (hashes l) = l.
Proof.
  unfold chunks_exact. rewrite length_hashes, Nat.mul_comm, Nat.div_mul by done. apply chunks_hashes.
Qed.

Lemma hashes_chunks n b : length b = (32 * n)%nat -> hashes (chunks n b) = b /\ length (chunks n b) = n.
Proof.
  revert b. induction n as [|n IH]; intros b Hb; [by destruct b|]. cbn [chunks length].
  destruct (IH (drop 32 b)) as [E1 E2]; [rewrite length_drop; lia|].
  rewrite hashes_cons, E1, E2. split; [|done].
  rewrite <- (take_drop 32 b) at 3. f_equal. apply val_fit. rewrite length_take. lia.
Qed.

Lemma hashes_chunks_exact b : len b mod 32 = 0 -> hashes (chunks_exact b) = b /\ len (chunks_exact b) = len b / 32.
Proof.
  intros Hm. apply N.Div0.mod_divides in Hm as [k Hk]. unfold chunks_exact.
  assert (length b = (32 * N.to_nat k)%nat) as Hb by (unfold len in Hk; lia).
  replace (length b / 32)%nat with (N.to_nat k) by (rewrite Hb, Nat.mul_comm, Nat.div_mul; done).
  destruct (hashes_chunks _ b Hb) as [E1 E2]. split; [done|].
  rewrite Hk, N.mul_comm, N.div_mul by done. unfold len. rewrite E2. lia.
Qed.

Lemma count_ones_bound b : count_ones b <= 8.
Proof.
  apply N.leb_le. revert b. apply byte_forall. vm_compute. reflexivity.
Qed.

Lemma popcount_bound l : popcount l <= 8 * len l.
Proof.
  induction l as [|b l IH]; [done|]. cbn [popcount foldr]. fold (popcount l).
  pose proof (count_ones_bound b). rewrite len_cons. lia.
Qed.

(** Slices at known offsets. *)
Lemma get_range_at {A} (p k r : list A) a b : a = len p -> b = a + len k ->
  get_range (p ++ k ++ r) a b = Some k.
Proof. intros -> ->. apply get_range_app. Qed.

Lemma get_range_0 {A} (k r : list A) b : b = len k -> get_range (k ++ r) 0 b = Some k.
Proof. intros ->. exact (get_range_app [] k r). Qed.

Lemma get_from_at {A} (p r : list A) a : a = len p -> get_from (p ++ r) a = Some r.
Proof. intros ->. apply get_from_app. Qed.

Lemma get_range_in {A} (l : list A) a b : a <= b -> b <= len l ->
  exists k, get_range l a b = Some k /\ len k = b - a.
Proof.
  intros Ha Hb. unfold get_range. destruct (N.leb_spec a b); [|lia]. destruct (N.leb_spec b (len l)); [|lia].
  eexists. split; [done|]. unfold len in *. rewrite length_take, length_drop. lia.
Qed.

Lemma array_at_in {E} b from to : from + 32 = to -> to <= len b ->
  exists a, @NonInclusionCertificate.array_at E b from to = Ok a.
Proof.
  intros <- Hl. unfold NonInclusionCertificate.array_at.
  destruct (get_range_in b from (from + 32)) as (k & -> & Hk); [lia|done|]. cbn [or_panic]. rewrite bind_Ok_l.
  destruct (try_arr 32 k) eqn:Et; [by eexists|]. apply try_arr_None in Et. unfold len in *. lia.
Qed.

Lemma array_at_app {E} p (a : arr 32) r from to : from = len p -> to = from + 32 ->
  @NonInclusionCertificate.array_at E (p ++ val a ++ r) from to = Ok a.
Proof.
  intros Hp Ht. unfold NonInclusionCertificate.array_at. rewrite (get_range_at p) by (done || rewrite arr_len; simpl; lia).
  cbn [or_panic]. rewrite bind_Ok_l. by rewrite try_arr_val.
Qed.

Lemma array_at_Ok {E} b from to a : @NonInclusionCertificate.array_at E b from to = Ok a ->
  exists p r, b = p ++ val a ++ r /\ len p = from /\ from + 32 = to.
Proof.
  unfold NonInclusionCertificate.array_at. intros (s & Hs & Ha)%bind_Ok. apply or_panic_Ok, get_range_Some in Hs as (p & r & -> & <- & <-).
  apply or_panic_Ok, try_arr_Some in Ha as <-. exists p, r. by rewrite arr_len.
Qed.

Module InclusionFacts.
Import InclusionCertificate.

Lemma inclusion_decode_encode c : wf c -> decode (encode c) = Ok c.
Proof.
  intros Hw. unfold decode, encode. pose proof (arr_len (bitmap c)) as Hl.
  rewrite len_app, len_hashes, Hl. change BITMAP_SIZE with 32. change HASH_SIZE with 32. change (N.of_nat 32) with 32 in *.
  destruct (N.ltb_spec (32 + len (siblings c) * 32) 32); [lia|].
  replace (32 + len (siblings c) * 32 - 32) with (len (siblings c) * 32) by lia.
  rewrite N.Div0.mod_mul, N.div_mul by done. simpl negb. cbv iota.
  rewrite get_range_0 by done.
  cbn [or_panic]. rewrite bind_Ok_l, Hw, N.eqb_refl. simpl negb. cbv iota.
  rewrite get_from_at by done. cbn [or_panic]. rewrite bind_Ok_l, fit_val, chunks_exact_hashes. by destruct c.
Qed.

Lemma inclusion_encode_decode b c : decode b = Ok c -> encode c = b /\ wf c.
Proof.
  unfold decode. change BITMAP_SIZE with 32. change HASH_SIZE with 32.
  destruct (N.ltb_spec (len b) 32) as [|Hl]; [done|].
  destruct (N.eqb_spec ((len b - 32) mod 32) 0) as [Hm|]; [|done]. simpl negb. cbv iota. intros E.
  apply bind_Ok in E as (bm & Hbm & E). apply or_panic_Ok, get_range_Some in Hbm as ([|] & r & -> & Hz & Hbm); [|done].
  rewrite len_nil in Hbm. change (0 + len bm = 32) with (len bm = 32) in Hbm. simpl app in *.
  destruct (N.eqb_spec (popcount bm) ((len (bm ++ r) - 32) / 32)) as [Hp|]; [|done]. simpl negb in E. cbv iota in E.
  apply bind_Ok in E as (rest & Hr & [= <-]). rewrite get_from_at in Hr by done. injection Hr as <-.
  rewrite len_app in *. replace (len bm + len r - 32) with (len r) in * by lia.
  destruct (hashes_chunks_exact r Hm) as [E1 E2].
  assert (val (fit 32 bm) = bm) as Hv by (apply val_fit; unfold len in Hbm; lia).
  split; [unfold encode; cbn [bitmap siblings]; by rewrite Hv, E1|]. unfold wf; cbn [bitmap siblings]. by rewrite Hv, E2.
Qed.

Lemma inclusion_decode_no_panic b : no_panic (decode b).
Proof.
  unfold decode. change BITMAP_SIZE with 32. destruct (N.ltb_spec (len b) 32); [done|].
  destruct (negb _); [done|]. unfold get_range, get_from.
  destruct (N.leb_spec 32 (len b)); [|lia]. simpl. by destruct (negb _).
Qed.

(** C39. A certificate that verifies against the root of a tree shows its leaf there. *)
Theorem inclusion_sound `{Sha2} c key value t : smt_ok t -> verify c key value (smt_digest t) = true ->
  (sid_bytes key, DataHash.data value) ∈ smt_leaves t \/
  Collision (.∈ fold_messages (bitmap c) (siblings c) (sid_bytes key) (sid_bytes key) (DataHash.data value) t).
Proof.
  intros Ht. unfold verify. destruct (fold_certificate_path _ _ _ _ _) as [h| |] eqn:E; [|done..].
  intros ->%bool_decide_eq_true_1. apply fold_sound in E as [E|]; [left|by right|done].
  rewrite <- E. apply descend_in.
Qed.
End InclusionFacts.

Module NonInclusionFacts.
Import NonInclusionCertificate.

Lemma from_parts_Ok bm s k v c : from_parts bm s k v = Ok c <->
  popcount (val bm) = len s /\ c = {| body := Some {| bitmap := bm; siblings := s; terminal_key := k; terminal_value := v |} |}.
Proof. unfold from_parts. destruct (N.eqb_spec (len s) (popcount (val bm))); simpl; naive_solver. Qed.

Lemma non_inclusion_decode_encode c : wf c -> decode (encode c) = Ok c.
Proof.
  destruct c as [[[bm s k v]|]]; [|done]. unfold wf, decode, encode. cbn [body bitmap siblings terminal_key terminal_value].
  intros Hw. pose proof (arr_len bm) as Hb. pose proof (arr_len k) as Hk. pose proof (arr_len v) as Hv.
  change (N.of_nat 32) with 32 in *. rewrite !len_app, len_hashes, Hb, Hk, Hv.
  change BITMAP_SIZE with 32. change HASH_SIZE with 32. change TERMINAL_KEY_SIZE with 32. change AGGREGATION_TREE_VALUE_SIZE with 32.
  pose proof (popcount_bound (val bm)) as Hp. rewrite Hw, Hb in Hp.
  destruct (N.eqb_spec (32 + (len s * 32 + (32 + 32))) 0); [lia|].
  destruct (N.ltb_spec (32 + (len s * 32 + (32 + 32))) 32); [lia|].
  rewrite get_range_0 by done.
  cbn [or_panic]. rewrite bind_Ok_l, Hw. unfold checked_add, usize_max.
  destruct (N.leb_spec (32 + len s * 32) (2 ^ 64 - 1)); [|lia]. cbn [mbind option_bind].
  destruct (N.leb_spec (32 + len s * 32 + 32) (2 ^ 64 - 1)); [|lia]. cbn [ok_or]. rewrite bind_Ok_l.
  destruct (N.ltb_spec (32 + (len s * 32 + (32 + 32))) (32 + len s * 32 + 32)); [lia|].
  destruct (N.eqb_spec (32 + (len s * 32 + (32 + 32)) - (32 + len s * 32 + 32)) 32); [|lia].
  simpl negb. cbv iota. rewrite (get_range_at (val bm) (hashes s)) by (rewrite ?len_hashes, ?Hb; done).
  cbn [or_panic]. rewrite bind_Ok_l, (app_assoc (val bm)).
  rewrite (array_at_app _ k _ (32 + len s * 32)) by (rewrite ?len_app, ?len_hashes, ?Hb; done || lia).
  rewrite bind_Ok_l, app_assoc, <- (app_nil_r (val v)).
  rewrite (array_at_app _ v) by (rewrite ?len_app, ?len_hashes, ?Hb, ?Hk; done || lia).
  rewrite bind_Ok_l, fit_val, chunks_exact_hashes. by apply from_parts_Ok.
Qed.

Lemma non_inclusion_encode_decode b c : decode b = Ok c -> encode c = b /\ wf c.
Proof.
  unfold decode. change BITMAP_SIZE with 32. change HASH_SIZE with 32. change TERMINAL_KEY_SIZE with 32.
  change AGGREGATION_TREE_VALUE_SIZE with 32.
  destruct (N.eqb_spec (len b) 0) as [|Hn]; [destruct b; [|done]; by intros [= <-]|].
  destruct (N.ltb_spec (len b) 32) as [|Hl]; [done|]. intros E.
  apply bind_Ok in E as (bm & Hbm & E). apply or_panic_Ok, get_range_Some in Hbm as ([|] & r & -> & Hz & Hbm); [|done].
  apply bind_Ok in E as (off & Ho & E). apply ok_or_Ok in Ho. unfold checked_add in Ho.
  destruct (_ <=? _); [|done]. cbn [mbind option_bind] in Ho. destruct (_ <=? _); [|done]. injection Ho as <-.
  destruct (N.ltb_spec (len ([] ++ bm ++ r)) (32 + popcount bm * 32 + 32)); [done|].
  destruct (N.eqb_spec (len ([] ++ bm ++ r) - (32 + popcount bm * 32 + 32)) 32) as [Hv|]; [|done].
  simpl negb in E. cbv iota in E. rewrite len_nil in Hbm. simpl app in *.
  apply bind_Ok in E as (sib & Hs & E). apply or_panic_Ok, get_range_Some in Hs as (p & q & Hq & Hp & Hs).
  apply app_inv_len in Hq as [<- ->]; [|unfold len in *; lia].
  apply bind_Ok in E as (k & (p1 & q1 & Hk & Hp1 & _)%array_at_Ok & E).
  rewrite app_assoc in Hk. apply app_inv_len in Hk as [<- ->]; [|rewrite length_app; unfold len in *; lia].
  apply bind_Ok in E as (v & (p2 & q2 & Hk & Hp2 & _)%array_at_Ok & E).
  rewrite !app_assoc in Hk. rewrite <- (app_assoc _ (val v)) in Hk.
  apply app_inv_len in Hk as [<- ->]; [|rewrite !length_app, (arr_length k); unfold len in *; lia].
  autorewrite with lens in Hv. rewrite (arr_len v), (arr_len k) in Hv. change (N.of_nat 32) with 32 in Hv.
  assert (q2 = []) as -> by (destruct q2; [done|autorewrite with lens in Hv; lia]).
  apply from_parts_Ok in E as [Hw ->].
  assert (val (fit 32 bm) = bm) as Hf by (apply val_fit; unfold len in Hbm; lia).
  destruct (hashes_chunks_exact sib) as [E1 _].
  { replace (len sib) with (popcount bm * 32) by lia. apply N.Div0.mod_mul. }
  split; [|done]. unfold encode. cbn [body bitmap siblings terminal_key terminal_value]. by rewrite Hf, E1, app_nil_r.
Qed.

Lemma non_inclusion_decode_no_panic b : no_panic (decode b).
Proof.
  unfold decode. change BITMAP_SIZE with 32. change HASH_SIZE with 32. change TERMINAL_KEY_SIZE with 32.
  change AGGREGATION_TREE_VALUE_SIZE with 32. destruct (len b =? 0); [done|].
  destruct (N.ltb_spec (len b) 32); [done|].
  destruct (get_range_in b 0 32) as (bm & -> & _); [lia..|]. cbn [or_panic]. rewrite bind_Ok_l.
  set (n := popcount bm). destruct (size ← checked_add 32 (n * 32); checked_add size 32) as [off|] eqn:Ho; [|done].
  unfold checked_add in Ho. destruct (_ <=? _); [|done]. cbn [mbind option_bind] in Ho.
  destruct (_ <=? _); [|done]. injection Ho as <-. cbn [ok_or]. rewrite bind_Ok_l.
  destruct (N.ltb_spec (len b) (32 + n * 32 + 32)); [done|].
  destruct (N.eqb_spec (len b - (32 + n * 32 + 32)) 32); [|done]. simpl negb. cbv iota.
  destruct (get_range_in b 32 (32 + n * 32)) as (sib & -> & _); [lia..|]. cbn [or_panic]. rewrite bind_Ok_l.
  edestruct (@array_at_in Error b (32 + n * 32)) as [k ->]; [done|lia|]. rewrite bind_Ok_l.
  edestruct (@array_at_in Error b (32 + n * 32 + 32)) as [v ->]; [done|lia|]. rewrite bind_Ok_l.
  unfold from_parts. by case_match.
Qed.

(** The messages hashed by authenticating [c] for [target], and by [t]. *)
Definition authenticated_messages `{Sha2} (c : NonInclusionCertificate) (target : StateId) (t : smt) : list bytes :=
  match body c with
  | Some b => fold_messages (bitmap b) (siblings b) (sid_bytes target) (terminal_key b) (val (terminal_value b)) t
  | None => []
  end.

(** A certificate that authenticates a different terminal leaf shows that the
    tree does not hold the target. *)
Lemma non_inclusion_sound `{Sha2} c target t : smt_ok t ->
  authenticates c target (Some (smt_digest t)) = true -> terminal_matches c target = false ->
  (forall value, (sid_bytes target, value) ∉ smt_leaves t) \/ Collision (.∈ authenticated_messages c target t).
Proof.
  intros Ht. unfold authenticates, terminal_matches. destruct c as [[b|]]; [|done]. cbn [body].
  destruct (fold_certificate_path _ _ _ _ _) as [h| |] eqn:E; [|done..].
  intros ->%bool_decide_eq_true_1 Hm%bool_decide_eq_false_1. apply fold_sound in E as [E|]; [left|by right|done].
  intros value Hin. apply descend_complete in Hin; [|done]. rewrite E in Hin. by simpl in Hin.
Qed.

(** When it authenticates the target itself, the tree holds the target. *)
Lemma presence_sound `{Sha2} c target t : smt_ok t ->
  authenticates c target (Some (smt_digest t)) = true -> terminal_matches c target = true ->
  (exists value, (sid_bytes target, value) ∈ smt_leaves t) \/ Collision (.∈ authenticated_messages c target t).
Proof.
  intros Ht. unfold authenticates, terminal_matches. destruct c as [[b|]]; [|done]. cbn [body].
  destruct (fold_certificate_path _ _ _ _ _) as [h| |] eqn:E; [|done..].
  intros ->%bool_decide_eq_true_1 Hm%bool_decide_eq_true_1. apply fold_sound in E as [E|]; [left|by right|done].
  exists (val (terminal_value b)). rewrite <- Hm, <- E. apply descend_in.
Qed.
End NonInclusionFacts.
