(* ===== verification/Secp.v ===== *)
(** secp256k1 keys and recoverable signatures: [src/crypto/signature.rs] and
    [src/crypto/signer.rs].

    The curve arithmetic is the k256 crate's and a parameter ([K256]); [K256Laws]
    is the documented algebra the code relies on. [recover_sound] is the equation
    the doc comment of [Signature::verify] claims, [verify_recovery_unique] its
    claim that the witness has no malleable recovery byte. *)

From S2P Require Import Prelude Bytes Error Cbor CborSpec CborRead Hash Codec Radix.
Local Open Scope N_scope.

(** What the code calls of k256: parsing, scalar and point arithmetic, signing. *)
Class K256 : Type := {
  Scalar : Type;
  Point : Type;
  K256Signature : Type;
  SigningKey : Type;
  (** [VerifyingKey::from_sec1_bytes(..).is_ok()] *)
  from_sec1_bytes : arr 33 -> bool;
  (** [RecoveryId::from_byte(..).is_some()] *)
  RecoveryId_from_byte : byte -> bool;
  K256Signature_from_slice : arr 64 -> option K256Signature;
  K256Signature_to_bytes : K256Signature -> arr 64;
  (** [normalize_s().is_some()] *)
  is_high_s : K256Signature -> bool;
  split_scalars : K256Signature -> Scalar * Scalar;
  Scalar_to_bytes : Scalar -> arr 32;
  (** [<Secp256k1 as Curve>::ORDER] *)
  ORDER : N;
  decompress : arr 32 -> bool -> option Point;
  reduce_bytes : arr 32 -> Scalar;
  invert : Scalar -> option Scalar;
  scalar_mul : Scalar -> Scalar -> Scalar;
  scalar_neg : Scalar -> Scalar;
  lincomb : Point -> Scalar -> Point -> Scalar -> Point;
  generator : Point;
  is_identity : Point -> bool;
  (** [to_affine().to_encoded_point(true).as_bytes()] *)
  encode_point : Point -> bytes;
  (** [SigningKey::from_slice], [verifying_key], [sign_prehash_recoverable] *)
  SigningKey_from_slice : bytes -> option SigningKey;
  verifying_key : SigningKey -> Point;
  sign_prehash_recoverable : SigningKey -> bytes -> option (K256Signature * byte);
}.

(** [U256::checked_add] *)
Definition u256_checked_add (a b : N) : option N := if a + b <? 2 ^ 256 then Some (a + b) else None.

Abbreviation PublicKey := (sub from_sec1_bytes).

Section keys.
Context `{K256}.

Definition PublicKey_from_bytes (b : bytes) : result PublicKey :=
  arr ← ok_or (InvalidLength "secp256k1 public key" 33 (len b)) (try_arr 33 b);
  ok_or (Crypto "invalid public key") (mk_sub arr).

Definition as_bytes (pk : PublicKey) : bytes := val (val pk).

End keys.

Record SignatureFields : Type := { compact : arr 64; recovery : byte }.

Definition recovery_ok `{K256} (s : SignatureFields) : bool := RecoveryId_from_byte (recovery s).
Abbreviation Signature := (sub recovery_ok).

#[export] Instance SignatureFields_eq_dec : EqDecision SignatureFields.
Proof. solve_decision. Defined.

Module Signature.
Section signature.
Context `{K256}.

Definition new (b : arr 64) (recovery : byte) : result Signature :=
  ok_or (Crypto "invalid recovery id") (mk_sub {| compact := b; recovery := recovery |}).

Definition decode (input : bytes) : result Signature :=
  if negb (len input =? 65) then Err (InvalidLength "signature" 65 (len input)) else
  b ← or_panic (get_range input 0 64);
  v ← or_panic (input !! 64%nat);
  new (fit 64 b) v.

Definition encode (self : Signature) : bytes := val (compact (val self)) ++ [recovery (val self)].

Definition canonical (self : Signature) : result K256Signature :=
  sig ← ok_or (Crypto "malformed signature scalars") (K256Signature_from_slice (compact (val self)));
  if is_high_s sig then Err (Crypto "non-canonical high-s signature") else Ok sig.

Definition recover_point (self : Signature) (digest : bytes) : result Point :=
  digest ← ok_or (Crypto "digest must be 32 bytes") (try_arr 32 digest);
  sig ← canonical self;
  let '(r, s) := split_scalars sig in
  let v := b2n (recovery (val self)) in
  if 3 <? v then Err (Crypto "invalid recovery id") else
  let x := Scalar_to_bytes r in
  x ← (if negb (N.land v 2 =? 0) then
         lifted ← ok_or (Crypto "recovery lift overflows") (u256_checked_add (be_value (val x)) ORDER);
         Ok (fit 32 (be_bytes 32 lifted))
       else Ok x);
  big_r ← ok_or (Crypto "key recovery failed") (decompress x (negb (N.land v 1 =? 0)));
  let z := reduce_bytes digest in
  t ← ok_or (Crypto "key recovery failed") (invert r);
  let a := scalar_mul s t in
  let b := scalar_neg (scalar_mul z t) in
  let q := lincomb big_r a generator b in
  if is_identity q then Err (Crypto "key recovery failed") else Ok q.

Definition verify (self : Signature) (digest : bytes) (public_key : PublicKey) : bool :=
  match recover_point self digest with
  | Ok q => bool_decide (encode_point q = as_bytes public_key)
  | _ => false
  end.

Definition recover (self : Signature) (digest : bytes) : result PublicKey :=
  q ← recover_point self digest;
  PublicKey_from_bytes (encode_point q).

End signature.
End Signature.

#[export] Instance Signature_codec `{K256} : Codec Signature := {|
  from_cbor d := b ← lift (Decoder.bytes_value d); Signature.decode b;
  to_cbor s := encode_byte_string (Signature.encode s);
  wf _ := True;
|}.

(** The [Signer] trait; a panic of a method is part of the result. *)
Class Signer `{K256} (S : Type) : Type := {
  public_key : S -> result PublicKey;
  sign : S -> DataHash -> result Signature;
}.

Record Secp256k1Signer `{K256} : Type := { key : SigningKey }.

Section signer.
Context `{K256}.

Definition Secp256k1Signer_from_bytes (secret : bytes) : result Secp256k1Signer :=
  key ← ok_or (Crypto "invalid private key") (SigningKey_from_slice secret);
  Ok {| key := key |}.

#[export] Instance Secp256k1Signer_signer : Signer Secp256k1Signer := {|
  public_key self := expect (PublicKey_from_bytes (encode_point (verifying_key (key self))));
  sign self digest :=
    '(sig, rid) ← or_panic (sign_prehash_recoverable (key self) (DataHash.data digest));
    expect (Signature.new (K256Signature_to_bytes sig) rid);
|}.

(** [generate]: [rng] is the stream of draws of the platform RNG, [None] its
    failure; the retry loop runs for as long as there are draws. *)
Fixpoint generate (rng : list (option (arr 32))) : option (result Secp256k1Signer) :=
  match rng with
  | [] => None
  | None :: _ => Some (Err (Crypto "RNG failure"))
  | Some secret :: rng =>
      match Secp256k1Signer_from_bytes (val secret) with
      | Ok s => Some (Ok s)
      | Panic => Some Panic
      | Err _ => generate rng
      end
  end.

End signer.

(** * The wire form *)

Section wire.
Context `{K256}.

Lemma PublicKey_from_bytes_Ok b pk : PublicKey_from_bytes b = Ok pk <-> as_bytes pk = b.
Proof.
  unfold PublicKey_from_bytes, as_bytes. split.
  - intros (a & Ha & E)%bind_Ok. apply ok_or_Ok, try_arr_Some in Ha as <-.
    by apply ok_or_Ok, mk_sub_Some in E as ->.
  - intros <-. rewrite try_arr_val. cbn [ok_or]. by rewrite bind_Ok_l, mk_sub_val.
Qed.

Lemma PublicKey_from_bytes_no_panic b : no_panic (PublicKey_from_bytes b).
Proof. unfold PublicKey_from_bytes. solve_no_panic. Qed.

Lemma as_bytes_inj pk pk' : as_bytes pk = as_bytes pk' -> pk = pk'.
Proof. intros E. by apply val_inj, val_inj. Qed.

Lemma signature_decode_encode s : Signature.decode (Signature.encode s) = Ok s.
Proof.
  unfold Signature.decode, Signature.encode. pose proof (arr_len (compact (val s))) as Hl.
  rewrite len_app, Hl. change (N.of_nat 64 + len [recovery (val s)] =? 65) with true. simpl negb. cbv iota.
  pose proof (get_range_app [] (val (compact (val s))) [recovery (val s)]) as Er.
  rewrite Hl, len_nil in Er. simpl app in Er. change (0 + N.of_nat 64) with 64 in Er.
  rewrite Er. cbn [or_panic]. rewrite bind_Ok_l.
  rewrite lookup_app_r by (rewrite arr_length; lia). rewrite arr_length, Nat.sub_diag. cbn [lookup list_lookup or_panic].
  rewrite bind_Ok_l, fit_val. unfold Signature.new. replace {| compact := _ |} with (val s) by (by destruct (val s)).
  by rewrite mk_sub_val.
Qed.

Lemma signature_encode_decode b s : Signature.decode b = Ok s -> Signature.encode s = b.
Proof.
  unfold Signature.decode, Signature.encode. destruct (N.eqb_spec (len b) 65) as [Hl|]; [|done]. simpl negb. cbv iota.
  intros (c & Hc & E)%bind_Ok. apply or_panic_Ok, get_range_Some in Hc as ([|] & r & -> & Hz & Hc); [|done].
  apply bind_Ok in E as (v & Hv & E). apply ok_or_Ok, mk_sub_Some in E. rewrite E. cbn [compact recovery].
  rewrite len_nil in Hc. cbn [app] in *. assert (length c = 64%nat) as Hc' by (unfold len in Hc; lia).
  rewrite val_fit by done. f_equal. autorewrite with lens in Hl. unfold len in Hl.
  apply or_panic_Ok in Hv. rewrite lookup_app_r in Hv by lia. rewrite Hc' in Hv. simpl in Hv.
  destruct r as [|x [|y r]]; simpl in *; [lia| |lia]. by injection Hv as ->.
Qed.

Lemma signature_decode_no_panic b : no_panic (Signature.decode b).
Proof.
  unfold Signature.decode, Signature.new. destruct (N.eqb_spec (len b) 65) as [Hl|]; [|done]. simpl negb. cbv iota.
  unfold get_range. destruct (N.leb_spec 64 (len b)); [|lia]. simpl (_ && _). cbv iota. cbn [or_panic]. rewrite bind_Ok_l.
  destruct (b !! 64%nat) eqn:E; [|apply lookup_ge_None in E; unfold len in Hl; lia].
  cbn [or_panic]. rewrite bind_Ok_l. auto with outcome.
Qed.

#[export] Instance Signature_laws : CodecLaws Signature.
Proof.
  split.
  - intros a. codec_unfold Signature_codec. eauto with items.
  - intros a. codec_unfold Signature_codec. eauto with items.
  - intros limits a _ Ha. codec_unfold Signature_codec. codec_forward. apply signature_decode_encode.
  - done.
  - intros d. codec_unfold Signature_codec. apply no_panic_bind; [auto with outcome|].
    intros. apply signature_decode_no_panic.
Qed.
#[export] Instance Signature_canonical : CodecCanonical Signature.
Proof.
  split. intros d a E. codec_unfold Signature_codec. codec_inv.
  apply signature_encode_decode in E. by rewrite E.
Qed.
End wire.
#[export] Hint Resolve PublicKey_from_bytes_no_panic signature_decode_no_panic : outcome.


(** * The algebra *)

Class K256Laws `{K256} : Type := {
  ORDER_pos : 0 < ORDER;
  padd : Point -> Point -> Point;
  pzero : Point;
  pneg : Point -> Point;
  smul : Scalar -> Point -> Point;
  padd_comm p q : padd p q = padd q p;
  padd_assoc p q r : padd p (padd q r) = padd (padd p q) r;
  padd_0 p : padd p pzero = p;
  padd_neg p : padd p (pneg p) = pzero;
  smul_padd a p q : smul a (padd p q) = padd (smul a p) (smul a q);
  smul_mul a b p : smul (scalar_mul a b) p = smul a (smul b p);
  smul_neg a p : smul (scalar_neg a) p = pneg (smul a p);
  smul_comm a b p : smul a (smul b p) = smul b (smul a p);
  smul_invert a b p : invert a = Some b -> smul a (smul b p) = p;
  lincomb_spec p a q b : lincomb p a q b = padd (smul a p) (smul b q);
  (** the scalars of a parsed signature are not zero *)
  split_nonzero sig : invert (snd (split_scalars sig)) <> None;
  (** decompression returns the point of that coordinate and parity *)
  decompress_inj x y v w p : decompress x v = Some p -> decompress y w = Some p -> x = y /\ v = w;
  encode_point_inj p q : is_identity p = false -> is_identity q = false -> encode_point p = encode_point q -> p = q;
}.

Section algebra.
Context `{K256Laws}.

Lemma padd_cancel p q r : padd p r = padd q r -> p = q.
Proof.
  intros E. apply (f_equal (fun x => padd x (pneg r))) in E.
  by rewrite <- !padd_assoc, !padd_neg, !padd_0 in E.
Qed.

Lemma padd_neg_swap p q r : r = padd p (pneg q) -> p = padd r q.
Proof. intros ->. rewrite <- padd_assoc, (padd_comm (pneg q)), padd_neg. by rewrite padd_0. Qed.

Lemma smul_cancel a b p q : invert a = Some b -> smul a p = smul a q -> p = q.
Proof.
  intros Ha E. apply (f_equal (smul b)) in E. by rewrite !(smul_comm b), !(smul_invert a b) in E.
Qed.

Lemma smul_cancel_r a b p q : invert a = Some b -> smul b p = smul b q -> p = q.
Proof. intros Ha E. apply (f_equal (smul a)) in E. by rewrite !(smul_invert a b) in E. Qed.

Lemma pneg_unique p q : padd p q = pzero -> q = pneg p.
Proof. intros E. apply (padd_cancel _ _ p). by rewrite (padd_comm q), E, (padd_comm (pneg p)), padd_neg. Qed.

Lemma smul_pneg a p : smul a (pneg p) = pneg (smul a p).
Proof.
  apply pneg_unique. rewrite <- smul_padd, padd_neg.
  apply (padd_cancel _ _ (smul a p)). rewrite <- smul_padd, (padd_comm pzero p), padd_0.
  by rewrite (padd_comm pzero), padd_0.
Qed.

(** The point that [recover_point] decompresses. *)
Definition lift_coordinate (r : Scalar) (v : N) : option (arr 32) :=
  if negb (N.land v 2 =? 0)
  then lifted ← u256_checked_add (be_value (val (Scalar_to_bytes r))) ORDER; Some (fit 32 (be_bytes 32 lifted))
  else Some (Scalar_to_bytes r).

Definition lift_x (r : Scalar) (v : N) : option Point :=
  x ← lift_coordinate r v;
  decompress x (negb (N.land v 1 =? 0)).

Lemma lift_coordinate_ne r v v' x : lift_coordinate r v = Some x -> lift_coordinate r v' = Some x ->
  (N.land v 2 =? 0) = (N.land v' 2 =? 0).
Proof.
  assert (forall l, u256_checked_add (be_value (val (Scalar_to_bytes r))) ORDER = Some l ->
    fit 32 (be_bytes 32 l) <> Scalar_to_bytes r) as Hne.
  { intros l Hl E. unfold u256_checked_add in Hl. destruct (N.ltb_spec (be_value (val (Scalar_to_bytes r)) + ORDER) (2 ^ 256)); [|done].
    injection Hl as <-. apply (f_equal (fun a : arr 32 => be_value (val a))) in E.
    rewrite val_fit, be_value_be_bytes in E by apply length_be_bytes.
    change (256 ^ N.of_nat 32) with (2 ^ 256) in E. rewrite N.mod_small in E by done.
    pose proof ORDER_pos. lia. }
  unfold lift_coordinate. destruct (N.land v 2 =? 0), (N.land v' 2 =? 0); try done; simpl negb; cbv iota.
  - intros [= <-] (l & Hl & [= E])%bind_Some. by apply Hne in Hl.
  - intros (l & Hl & [= <-])%bind_Some [= E]. by apply Hne in Hl.
Qed.

Lemma recovery_bits v v' : v <= 3 -> v' <= 3 -> (N.land v 2 =? 0) = (N.land v' 2 =? 0) ->
  negb (N.land v 1 =? 0) = negb (N.land v' 1 =? 0) -> v = v'.
Proof.
  intros Hv Hv'. assert (v = 0 \/ v = 1 \/ v = 2 \/ v = 3) as [->|[->|[->| ->]]] by lia;
  assert (v' = 0 \/ v' = 1 \/ v' = 2 \/ v' = 3) as [->|[->|[->| ->]]] by lia; done.
Qed.

Lemma recover_point_inv s digest q : Signature.recover_point s digest = Ok q ->
  exists sig z R t, Signature.canonical s = Ok sig /\ val z = digest /\
    b2n (recovery (val s)) <= 3 /\ lift_x (fst (split_scalars sig)) (b2n (recovery (val s))) = Some R /\
    invert (fst (split_scalars sig)) = Some t /\ is_identity q = false /\
    q = lincomb R (scalar_mul (snd (split_scalars sig)) t) generator (scalar_neg (scalar_mul (reduce_bytes z) t)).
Proof.
  unfold Signature.recover_point. intros (z & Hz & E)%bind_Ok. apply ok_or_Ok, try_arr_Some in Hz.
  apply bind_Ok in E as (sig & Hsig & E). destruct (split_scalars sig) as [r s0] eqn:Es.
  destruct (N.ltb_spec 3 (b2n (recovery (val s)))) as [|Hv]; [done|].
  apply bind_Ok in E as (x & Hx & E). apply bind_Ok in E as (R & HR & E). apply ok_or_Ok in HR.
  apply bind_Ok in E as (t & Ht & E). apply ok_or_Ok in Ht.
  destruct (is_identity _) eqn:Ei; [done|]. injection E as <-.
  exists sig, z, R, t. rewrite Es. split_and!; try done. unfold lift_x, lift_coordinate.
  destruct (negb (N.land _ 2 =? 0)).
  - apply bind_Ok in Hx as (l & Hl & [= <-]). apply ok_or_Ok in Hl. cbn [fst]. by rewrite Hl.
  - by injection Hx as <-.
Qed.

(** What a recovered key [q] satisfies: [s R = z G + r q], the ECDSA equation. *)
Theorem recover_sound s digest q : Signature.recover_point s digest = Ok q ->
  exists sig z R, Signature.canonical s = Ok sig /\ val z = digest /\
    lift_x (fst (split_scalars sig)) (b2n (recovery (val s))) = Some R /\
    smul (snd (split_scalars sig)) R =
      padd (smul (fst (split_scalars sig)) q) (smul (reduce_bytes z) generator).
Proof.
  intros (sig & z & R & t & Hs & Hz & _ & HR & Ht & _ & ->)%recover_point_inv.
  exists sig, z, R. split_and!; try done. rewrite lincomb_spec, smul_neg, !smul_mul.
  rewrite smul_padd, smul_pneg, (smul_comm (fst _) (snd _)), (smul_comm (fst _) (reduce_bytes z)).
  rewrite !(smul_invert (fst (split_scalars sig)) t) by done. by apply padd_neg_swap.
Qed.

(** Under one key, digest and [r || s], only one recovery byte verifies. *)
Lemma verify_recovery_unique s s' digest pk : compact (val s) = compact (val s') ->
  Signature.verify s digest pk = true -> Signature.verify s' digest pk = true -> s = s'.
Proof.
  intros Hc. unfold Signature.verify.
  destruct (Signature.recover_point s digest) as [q| |] eqn:E; [|done..].
  destruct (Signature.recover_point s' digest) as [q'| |] eqn:E'; [|done..].
  intros Hq%bool_decide_eq_true_1 Hq'%bool_decide_eq_true_1. rewrite <- Hq' in Hq.
  apply recover_point_inv in E as (sig & z & R & t & Hs & Hz & Hv & HR & Ht & Hi & Eq).
  apply recover_point_inv in E' as (sig' & z' & R' & t' & Hs' & Hz' & Hv' & HR' & Ht' & Hi' & Eq').
  apply encode_point_inj in Hq; [|done..].
  assert (sig' = sig) as ->.
  { unfold Signature.canonical in *. rewrite Hc in Hs. rewrite Hs' in Hs. by injection Hs. }
  assert (z' = z) as -> by (apply val_inj; congruence). assert (t' = t) as -> by congruence.
  rewrite Eq, Eq', !lincomb_spec, !smul_mul in Hq. apply padd_cancel in Hq.
  destruct (invert (snd (split_scalars sig))) as [u|] eqn:Eu; [|by apply split_nonzero in Eu].
  apply (smul_cancel _ _ _ _ Eu), (smul_cancel_r _ _ _ _ Ht) in Hq as ->.
  apply val_inj. destruct (val s) as [c v], (val s') as [c' v']. simpl in *. subst c'. f_equal.
  apply b2n_inj. apply bind_Some in HR as (x & Hx & HR), HR' as (x' & Hx' & HR').
  destruct (decompress_inj _ _ _ _ _ HR HR') as [-> Hb].
  by apply recovery_bits; [..|eapply lift_coordinate_ne|].
Qed.
End algebra.

(** * Signing *)

(** What the documentation of [sign_prehash_recoverable] promises: a low-[s]
    signature with the recovery id that recovers the signing key. *)
Class K256SignLaws `{K256} : Prop := {
  verifying_key_valid k : exists pk : PublicKey, as_bytes pk = encode_point (verifying_key k);
  sign_recoverable k d : length d = 32%nat ->
    exists sig rid (s : Signature), sign_prehash_recoverable k d = Some (sig, rid) /\
      val s = {| compact := K256Signature_to_bytes sig; recovery := rid |} /\
      Signature.recover_point s d = Ok (verifying_key k);
}.

Section signing.
Context `{K256SignLaws}.

Lemma public_key_total (k : Secp256k1Signer) :
  exists pk, public_key k = Ok pk /\ as_bytes pk = encode_point (verifying_key (key k)).
Proof.
  destruct (verifying_key_valid (key k)) as [pk Hpk]. exists pk. split; [|done].
  simpl. apply PublicKey_from_bytes_Ok in Hpk. by rewrite Hpk.
Qed.

(** Signing a 32-byte digest succeeds and the signature verifies. *)
Lemma sign_verify (k : Secp256k1Signer) digest : length (DataHash.data digest) = 32%nat ->
  exists s pk, sign k digest = Ok s /\ public_key k = Ok pk /\ Signature.verify s (DataHash.data digest) pk = true.
Proof.
  intros Hl. destruct (sign_recoverable (key k) _ Hl) as (sig & rid & s & Hs & Hv & Hr).
  destruct (public_key_total k) as (pk & Hpk & Eq). exists s, pk. split_and!; [|done|].
  - simpl. rewrite Hs. cbn [or_panic]. rewrite bind_Ok_l. unfold Signature.new. by rewrite <- Hv, mk_sub_val.
  - unfold Signature.verify. rewrite Hr. by apply bool_decide_eq_true_2.
Qed.
End signing.
