(* ===== verification/Predicates.v ===== *)
(** Built-in predicates, unlock scripts and the universal minter:
    [src/predicate/builtin.rs], [src/predicate/unlock.rs],
    [src/transaction/minter.rs]. *)

From S2P Require Import Prelude Bytes Error Cbor CborSpec CborRead Hash Codec CodecFacts Ids Radix Secp.
Local Open Scope N_scope.

Module BuiltInPredicateType.
Inductive BuiltInPredicateType : Type := Signature | Burn | UnicityId.

Definition id (t : BuiltInPredicateType) : u64 :=
  wrap 64 (match t with Signature => 0x01 | Burn => 0x02 | UnicityId => 0x100 end).

Definition from_id (id : u64) : result BuiltInPredicateType :=
  if val id =? 0x01 then Ok Signature else
  if val id =? 0x02 then Ok Burn else
  if val id =? 0x100 then Ok UnicityId else
  Err (UnexpectedValue "unknown built-in predicate type").

#[export] Instance BuiltInPredicateType_eq_dec : EqDecision BuiltInPredicateType.
Proof. solve_decision. Defined.

Lemma builtin_from_id_Ok i t : from_id i = Ok t <-> id t = i.
Proof.
  unfold from_id. split.
  - destruct (N.eqb_spec (val i) 1); [|destruct (N.eqb_spec (val i) 2); [|destruct (N.eqb_spec (val i) 256); [|done]]];
      intros [= <-]; apply val_inj; symmetry; assumption.
  - intros <-. by destruct t.
Qed.

Lemma builtin_from_id_no_panic i : no_panic (from_id i).
Proof. unfold from_id. repeat case_match; auto with outcome. Qed.
End BuiltInPredicateType.
Import (hints) BuiltInPredicateType.

Definition builtin_type (predicate : EncodedPredicate) : result BuiltInPredicateType.BuiltInPredicateType :=
  if negb (bool_decide (p_engine predicate = BuiltIn))
  then Err (UnexpectedValue "predicate engine is not built-in") else
  let decoder := Decoder.new (p_code predicate) in
  _ ← lift (Decoder.finish decoder);
  id ← lift (Decoder.uint decoder);
  BuiltInPredicateType.from_id id.

Record SignaturePredicate `{K256} : Type := { sp_public_key : PublicKey }.
Record BurnPredicate : Type := { bp_reason : bytes }.

#[export] Instance SignaturePredicate_predicate `{K256} : Predicate SignaturePredicate := {|
  engine _ := BuiltIn;
  code _ := encode_uint (BuiltInPredicateType.id BuiltInPredicateType.Signature);
  parameters p := as_bytes (sp_public_key p);
|}.

#[export] Instance BurnPredicate_predicate : Predicate BurnPredicate := {|
  engine _ := BuiltIn;
  code _ := encode_uint (BuiltInPredicateType.id BuiltInPredicateType.Burn);
  parameters p := bp_reason p;
|}.

Definition SignaturePredicate_from_encoded `{K256} (predicate : EncodedPredicate) : result SignaturePredicate :=
  t ← builtin_type predicate;
  if negb (bool_decide (t = BuiltInPredicateType.Signature))
  then Err (UnexpectedValue "not a signature predicate") else
  pk ← PublicKey_from_bytes (p_parameters predicate);
  Ok {| sp_public_key := pk |}.

Definition BurnPredicate_from_encoded (predicate : EncodedPredicate) : result BurnPredicate :=
  t ← builtin_type predicate;
  if negb (bool_decide (t = BuiltInPredicateType.Burn))
  then Err (UnexpectedValue "not a burn predicate") else
  Ok {| bp_reason := p_parameters predicate |}.

Section unlock.
Context `{Sha2} `{K256}.

Definition signature_unlock_message (source_state_hash transaction_hash : DataHash) : DataHash :=
  sha256 (encode_array [
    encode_byte_string (DataHash.data source_state_hash);
    encode_byte_string (DataHash.data transaction_hash)]).

Definition verify_signature_unlock (public_key : PublicKey) (source_state_hash transaction_hash : DataHash)
    (unlock_script : bytes) : bool :=
  match Signature.decode unlock_script with
  | Ok signature =>
      let message := signature_unlock_message source_state_hash transaction_hash in
      Signature.verify signature (DataHash.data message) public_key
  | _ => false
  end.

Definition sign_signature_unlock {S} `{Signer S} (signer : S) (source_state_hash transaction_hash : DataHash) : result bytes :=
  let message := signature_unlock_message source_state_hash transaction_hash in
  s ← sign signer message;
  Ok (Signature.encode s).

(** [b"I_AM_UNIVERSAL_MINTER_FOR_"] *)
Definition MINTER_SECRET : bytes := n2b <$> [
  0x49; 0x5f; 0x41; 0x4d; 0x5f; 0x55; 0x4e; 0x49; 0x56; 0x45; 0x52; 0x53; 0x41; 0x4c; 0x5f;
  0x4d; 0x49; 0x4e; 0x54; 0x45; 0x52; 0x5f; 0x46; 0x4f; 0x52; 0x5f].

End unlock.

Module Minter.
Section minter.
Context `{Sha2} `{K256}.

Definition derive_private_key (token_id : TokenId) : DataHash :=
  sha256 (encode_array [encode_byte_string MINTER_SECRET; to_cbor token_id]).

Definition public_key (token_id : TokenId) : result PublicKey :=
  let secret := derive_private_key token_id in
  key ← ok_or (Crypto "invalid minter key") (SigningKey_from_slice (DataHash.data secret));
  PublicKey_from_bytes (encode_point (verifying_key key)).

Definition signer (token_id : TokenId) : result Secp256k1Signer :=
  let secret := derive_private_key token_id in
  Secp256k1Signer_from_bytes (DataHash.data secret).
End minter.
End Minter.

Section facts.
Context `{Sha2} `{K256}.

(** * Facts *)

Lemma builtin_type_code t pr : p_engine pr = BuiltIn -> p_code pr = encode_uint (BuiltInPredicateType.id t) ->
  builtin_type pr = Ok t.
Proof.
  intros He Hc. unfold builtin_type. rewrite bool_decide_eq_true_2, Hc by done. simpl negb. cbv iota.
  assert (accepts DecodeLimits_DEFAULT (encode_uint (BuiltInPredicateType.id t))) as Ha by (by destruct t; vm_compute).
  unfold Decoder.new. rewrite Ha. cbn [lift map_err]. rewrite bind_Ok_l, (uint_enc _ _ Ha).
  cbn [lift map_err]. rewrite bind_Ok_l. by apply BuiltInPredicateType.builtin_from_id_Ok.
Qed.

Lemma builtin_type_Ok pr t : builtin_type pr = Ok t <->
  p_engine pr = BuiltIn /\ p_code pr = encode_uint (BuiltInPredicateType.id t).
Proof.
  split; [|by intros [? ?]; apply builtin_type_code].
  unfold builtin_type. destruct (bool_decide_reflect (p_engine pr = BuiltIn)) as [He|]; [|done].
  simpl negb. cbv iota. intros E. split; [done|].
  apply bind_Ok in E as (u & Hu & E). apply bind_Ok in E as (i & Hi & E).
  apply BuiltInPredicateType.builtin_from_id_Ok in E as ->. apply lift_Ok, uint_inv in Hi. done.
Qed.

(** A signature predicate survives its wire form, and the wire form is the only
    one that decodes to it. *)
Lemma SignaturePredicate_encoded pr p :
  SignaturePredicate_from_encoded pr = Ok p <-> pr = from_predicate p.
Proof.
  unfold SignaturePredicate_from_encoded, from_predicate. split.
  - intros (t & Ht & E)%bind_Ok. apply builtin_type_Ok in Ht as [He Hc].
    destruct (bool_decide_reflect (t = BuiltInPredicateType.Signature)) as [->|]; [|done]. simpl negb in E. cbv iota in E.
    apply bind_Ok in E as (pk & Hpk & [= <-]). apply PublicKey_from_bytes_Ok in Hpk.
    destruct pr. simpl in *. by subst.
  - intros ->. rewrite (builtin_type_code BuiltInPredicateType.Signature) by done. rewrite bind_Ok_l. simpl.
    destruct p as [pk]. pose proof (proj2 (PublicKey_from_bytes_Ok _ pk) eq_refl) as E. cbn [sp_public_key]. by rewrite E.
Qed.

Lemma BurnPredicate_encoded pr p :
  BurnPredicate_from_encoded pr = Ok p <-> pr = from_predicate p.
Proof.
  unfold BurnPredicate_from_encoded, from_predicate. split.
  - intros (t & Ht & E)%bind_Ok. apply builtin_type_Ok in Ht as [He Hc].
    destruct (bool_decide_reflect (t = BuiltInPredicateType.Burn)) as [->|]; [|done]. simpl negb in E. cbv iota in E.
    injection E as <-. destruct pr. simpl in *. by subst.
  - intros ->. rewrite (builtin_type_code BuiltInPredicateType.Burn) by done. by destruct p.
Qed.

Lemma builtin_type_no_panic pr : no_panic (builtin_type pr).
Proof. unfold builtin_type. destruct (negb _); [done|]. solve_no_panic. apply BuiltInPredicateType.builtin_from_id_no_panic. Qed.

Lemma SignaturePredicate_from_encoded_no_panic pr : no_panic (SignaturePredicate_from_encoded pr).
Proof. unfold SignaturePredicate_from_encoded. pose proof builtin_type_no_panic. solve_no_panic; eauto. Qed.

Lemma Minter_public_key_no_panic t : no_panic (Minter.public_key t).
Proof. unfold Minter.public_key. solve_no_panic. Qed.

(** The unlock script a signer produces opens its own signature predicate. *)
Theorem sign_unlock_verifies `{!K256SignLaws} (k : Secp256k1Signer) source transaction :
  exists script pk, sign_signature_unlock k source transaction = Ok script /\ public_key k = Ok pk /\
    verify_signature_unlock pk source transaction script = true.
Proof.
  destruct (sign_verify k (signature_unlock_message source transaction)) as (s & pk & Hs & Hpk & Hv).
  { apply (arr_length (Sha256_digest _)). }
  exists (Signature.encode s), pk. unfold sign_signature_unlock. rewrite Hs.
  split_and!; [done|done|]. unfold verify_signature_unlock. by rewrite signature_decode_encode.
Qed.

(** Only one recovery byte makes a 65-byte script an unlock script. *)
Theorem unlock_script_unique `{!K256Laws} pk source transaction s s' :
  verify_signature_unlock pk source transaction s = true ->
  verify_signature_unlock pk source transaction s' = true ->
  take 64 s = take 64 s' -> s = s'.
Proof.
  unfold verify_signature_unlock.
  destruct (Signature.decode s) as [a| |] eqn:E; [|done..]. destruct (Signature.decode s') as [a'| |] eqn:E'; [|done..].
  intros Hv Hv' Ht. apply signature_encode_decode in E as <-, E' as <-. f_equal.
  eapply verify_recovery_unique; [|done|done]. unfold Signature.encode in Ht.
  rewrite !take_app_length' in Ht by (by rewrite arr_length). by apply val_inj.
Qed.

(** The minter's signer signs for the minter's public key. *)
Lemma Minter_signer_public_key t pk k : Minter.public_key t = Ok pk -> Minter.signer t = Ok k -> public_key k = Ok pk.
Proof.
  unfold Minter.public_key, Minter.signer, Secp256k1Signer_from_bytes.
  destruct (SigningKey_from_slice _) as [sk|]; [|done]. cbn [ok_or]. rewrite !bind_Ok_l.
  intros E [= <-]. simpl. by rewrite E.
Qed.
End facts.
#[export] Hint Resolve builtin_type_no_panic SignaturePredicate_from_encoded_no_panic Minter_public_key_no_panic : outcome.
