(* ===== verification/TrustBase.v ===== *)
(** The root trust base: [src/api/bft/root_trust_base.rs]; reading it from JSON is
    in [TrustBaseJson].

    [validate_spec] states what a validated trust base is: a version the code
    knows, a positive attainable threshold, unique ids, unique keys. *)

From S2P Require Import Prelude Bytes Error Hash Ids Secp.
Local Open Scope N_scope.

Definition MAX_ROOT_NODES : N := 4096.
Definition MAX_NODE_ID_BYTES : N := 256.

Record RootTrustBaseNodeInfo `{K256} : Type := { node_id : str; node_signing_key : PublicKey; stake : u64 }.

Record RootTrustBase `{K256} : Type := {
  tb_version : u64;
  tb_network_id : NetworkId;
  tb_epoch : u64;
  epoch_start_round : u64;
  root_nodes : list RootTrustBaseNodeInfo;
  quorum_threshold : u64;
}.

Section trust_base.
Context `{K256}.

(** The loop body of [validate]; the state is the two sets. *)
Definition validate_node (sets : list str * list bytes) (node : RootTrustBaseNodeInfo) : result (list str * list bytes) :=
  let '(node_ids, signing_keys) := sets in
  if (len (val (node_id node)) =? 0) || (MAX_NODE_ID_BYTES <? len (val (node_id node)))
  then Err (InvalidTrustBase "validator node id length is invalid") else
  if bool_decide (node_id node ∈ node_ids)
  then Err (InvalidTrustBase "validator node ids must be unique") else
  if bool_decide (as_bytes (node_signing_key node) ∈ signing_keys)
  then Err (InvalidTrustBase "validator signing keys must be unique") else
  if val (stake node) =? 0
  then Err (InvalidTrustBase "validator stake must be positive") else
  Ok (node_id node :: node_ids, as_bytes (node_signing_key node) :: signing_keys).

Definition validate (self : RootTrustBase) : result unit :=
  if negb ((val (tb_version self) =? 0) || (val (tb_version self) =? 1))
  then Err (InvalidTrustBase "unsupported trust base version") else
  if len (root_nodes self) =? 0
  then Err (InvalidTrustBase "validator set must not be empty") else
  if MAX_ROOT_NODES <? len (root_nodes self)
  then Err (InvalidTrustBase "validator count exceeds safety limit") else
  if val (quorum_threshold self) =? 0
  then Err (InvalidTrustBase "quorum threshold must be positive") else
  if len (root_nodes self) <? val (quorum_threshold self)
  then Err (InvalidTrustBase "quorum threshold exceeds validator count") else
  _ ← foldM validate_node ([], []) (root_nodes self);
  Ok tt.

Definition try_new (version : u64) (network_id : NetworkId) (epoch epoch_start_round : u64)
    (root_nodes : list RootTrustBaseNodeInfo) (quorum_threshold : u64) : result RootTrustBase :=
  let trust_base := {| tb_version := version; tb_network_id := network_id; tb_epoch := epoch;
    epoch_start_round := epoch_start_round; root_nodes := root_nodes; quorum_threshold := quorum_threshold |} in
  _ ← validate trust_base;
  Ok trust_base.

Definition signing_key (self : RootTrustBase) (id : str) : option PublicKey :=
  (fun e => node_signing_key (snd e)) <$> list_find (fun n => node_id n = id) (root_nodes self).

(** * What [validate] establishes *)

Definition node_ok (n : RootTrustBaseNodeInfo) : Prop :=
  0 < len (val (node_id n)) <= 256 /\ 0 < val (stake n).

Record valid_trust_base (self : RootTrustBase) : Prop := {
  vt_version : val (tb_version self) <= 1;
  vt_count : 0 < len (root_nodes self) <= 4096;
  vt_threshold : 0 < val (quorum_threshold self) <= len (root_nodes self);
  vt_nodes : Forall node_ok (root_nodes self);
  vt_ids : NoDup (node_id <$> root_nodes self);
  vt_keys : NoDup (node_signing_key <$> root_nodes self);
}.

Lemma validate_node_Ok ids keys n sets : validate_node (ids, keys) n = Ok sets <->
  node_ok n /\ node_id n ∉ ids /\ as_bytes (node_signing_key n) ∉ keys /\
  sets = (node_id n :: ids, as_bytes (node_signing_key n) :: keys).
Proof.
  unfold validate_node, node_ok. change MAX_NODE_ID_BYTES with 256.
  destruct (N.eqb_spec (len (val (node_id n))) 0); simpl orb; [split; [done|lia]|].
  destruct (N.ltb_spec 256 (len (val (node_id n)))); [split; [done|lia]|].
  do 2 (case_bool_decide; [split; [done|tauto]|]).
  destruct (N.eqb_spec (val (stake n)) 0); [split; [done|lia]|].
  split; [intros [= <-]; split_and!; try done; lia|by intros (_ & _ & _ & ->)].
Qed.

Lemma validate_nodes_Ok l : forall ids keys,
  (exists sets, foldM validate_node (ids, keys) l = Ok sets) <->
  Forall node_ok l /\ NoDup (node_id <$> l) /\ NoDup ((fun n => as_bytes (node_signing_key n)) <$> l) /\
  Forall (fun n => node_id n ∉ ids /\ as_bytes (node_signing_key n) ∉ keys) l.
Proof.
  induction l as [|n l IH]; intros ids keys; cbn [foldM fmap list_fmap].
  - split; [|by eexists]. intros _. split_and!; constructor.
  - split.
    + intros (sets & E). apply bind_Ok in E as (s1 & E1 & E). apply validate_node_Ok in E1 as (Hn & Hi & Hk & ->).
      destruct (proj1 (IH _ _) (ex_intro _ _ E)) as (Hf & Hd & Hd' & Hfr). rewrite Forall_forall in Hfr.
      split_and!.
      * by constructor.
      * constructor; [|done]. intros (m & Hm & Hin)%list_elem_of_fmap. apply Hfr in Hin as [Hin _]. rewrite Hm in Hin. set_solver.
      * constructor; [|done]. intros (m & Hm & Hin)%list_elem_of_fmap. apply Hfr in Hin as [_ Hin]. simpl in Hm. rewrite Hm in Hin. set_solver.
      * constructor; [done|]. apply Forall_forall. intros m Hm. apply Hfr in Hm. set_solver.
    + intros (Hf & Hd & Hd' & Hfr). apply Forall_cons in Hf as [Hn Hf]. apply Forall_cons in Hfr as [[Hi Hk] Hfr].
      apply NoDup_cons in Hd as [Hni Hd], Hd' as [Hnk Hd'].
      pose proof (proj2 (validate_node_Ok ids keys n _) (conj Hn (conj Hi (conj Hk eq_refl)))) as ->. rewrite bind_Ok_l.
      apply IH. split_and!; try done. rewrite Forall_forall in Hfr |- *. intros m Hm. destruct (Hfr m Hm) as [H1 H2].
      split; intros [E|]%elem_of_cons; try done.
      * apply Hni. rewrite <- E. by apply list_elem_of_fmap_2.
      * apply Hnk. rewrite <- E. by apply (list_elem_of_fmap_2 (fun n => as_bytes (node_signing_key n))).
Qed.

Lemma keys_NoDup (l : list RootTrustBaseNodeInfo) :
  NoDup ((fun n => as_bytes (node_signing_key n)) <$> l) <-> NoDup (node_signing_key <$> l).
Proof.
  replace ((fun n => as_bytes (node_signing_key n)) <$> l) with (as_bytes <$> (node_signing_key <$> l)).
  - split; [apply NoDup_fmap_1|]. apply NoDup_fmap_2. intros ? ?. apply as_bytes_inj.
  - by rewrite <- list_fmap_compose.
Qed.

Lemma validate_spec self : validate self = Ok tt <-> valid_trust_base self.
Proof.
  unfold validate. change MAX_ROOT_NODES with 4096. pose proof (validate_nodes_Ok (root_nodes self) [] []) as Hl.
  rewrite keys_NoDup in Hl. split.
  - destruct (N.eqb_spec (val (tb_version self)) 0), (N.eqb_spec (val (tb_version self)) 1); try done; simpl negb; cbv iota;
    (destruct (N.eqb_spec (len (root_nodes self)) 0); [done|];
    destruct (N.ltb_spec 4096 (len (root_nodes self))); [done|];
    destruct (N.eqb_spec (val (quorum_threshold self)) 0); [done|];
    destruct (N.ltb_spec (len (root_nodes self)) (val (quorum_threshold self))); [done|];
    intros (sets & E & _)%bind_Ok; destruct (proj1 Hl (ex_intro _ _ E)) as (? & ? & ? & _); constructor; lia || done).
  - intros [Hv Hc Ht Hn Hi Hk].
    destruct (N.eqb_spec (val (tb_version self)) 0), (N.eqb_spec (val (tb_version self)) 1); try lia; simpl negb; cbv iota;
    (destruct (N.eqb_spec (len (root_nodes self)) 0); [lia|];
    destruct (N.ltb_spec 4096 (len (root_nodes self))); [lia|];
    destruct (N.eqb_spec (val (quorum_threshold self)) 0); [lia|];
    destruct (N.ltb_spec (len (root_nodes self)) (val (quorum_threshold self))); [lia|];
    destruct (proj2 Hl) as [sets ->]; [|done]; split_and!; try done;
    apply Forall_forall; intros; split; apply not_elem_of_nil).
Qed.

Lemma validate_no_panic self : no_panic (validate self).
Proof.
  unfold validate. repeat case_match; try done.
  apply no_panic_bind; [|done]. apply no_panic_foldM. intros [ids keys] n _. unfold validate_node.
  repeat case_match; done.
Qed.

Lemma signing_key_Some self id k : signing_key self id = Some k ->
  exists n, n ∈ root_nodes self /\ node_id n = id /\ node_signing_key n = k.
Proof.
  unfold signing_key. destruct (list_find _ _) as [[i n]|] eqn:E; [|done]. intros [= <-].
  apply list_find_Some in E as (Hi & <- & _). exists n. split_and!; [by eapply list_elem_of_lookup_2|done..].
Qed.

(** In a validated trust base two ids never share a key. *)
Lemma signing_key_inj self id id' k : valid_trust_base self ->
  signing_key self id = Some k -> signing_key self id' = Some k -> id = id'.
Proof.
  intros Hv (n & Hn & <- & E)%signing_key_Some (n' & Hn' & <- & E')%signing_key_Some.
  pose proof (vt_keys _ Hv) as Hk. apply list_elem_of_lookup in Hn as [i Hi], Hn' as [j Hj].
  assert (i = j) as ->; [|congruence].
  eapply (NoDup_lookup _ i j k Hk); rewrite list_lookup_fmap; [rewrite Hi|rewrite Hj]; simpl; congruence.
Qed.
End trust_base.
#[export] Hint Resolve validate_no_panic : outcome.
