(* ===== verification/Seal.v ===== *)
(** Seal authentication: [src/verify/seal.rs].

    In [SealSpec], [quorum_met_spec] is the meaning of a quorum and
    [verify_quorum_transparent] the contract of the memo: a session answers as the
    memo-free check does.
    A memo key is the digest of the complete seal encoding, so the contract is
    for seals as the decoder returns them ([wf]) and up to [memo_clash], of two of
    the seals that the session is used with. *)

From S2P Require Import Prelude State Bytes Error Cbor CborSpec CborRead Hash Codec CodecFacts Ids ShardId Bft BftCodec Secp TrustBase VerificationError FifoIndex UcInterner.
Local Open Scope N_scope.

Definition DEFAULT_SEAL_MEMO_CAPACITY : usize := wrap 64 64.
Definition GENESIS_TIME : N := 1681971084.

(** [b"unicity-token/seal-memo/v1"] *)
Definition MEMO_DOMAIN : bytes := n2b <$> [
  0x75; 0x6e; 0x69; 0x63; 0x69; 0x74; 0x79; 0x2d; 0x74; 0x6f; 0x6b; 0x65; 0x6e; 0x2f; 0x73; 0x65; 0x61; 0x6c;
  0x2d; 0x6d; 0x65; 0x6d; 0x6f; 0x2f; 0x76; 0x31].

(** [b"unicity-token/authority/v1"] *)
Definition AUTHORITY_DOMAIN : bytes := n2b <$> [
  0x75; 0x6e; 0x69; 0x63; 0x69; 0x74; 0x79; 0x2d; 0x74; 0x6f; 0x6b; 0x65; 0x6e; 0x2f; 0x61; 0x75; 0x74; 0x68;
  0x6f; 0x72; 0x69; 0x74; 0x79; 0x2f; 0x76; 0x31].

Record SealStats : Type := {
  quorum_checks : u64; memo_hits : u64; body_checks : u64; body_hits : u64; memo_probes : u64 }.

Record SealSession `{K256} : Type := {
  trust_base : RootTrustBase;
  validated : bool;
  memo : FifoIndex (arr 32);
  bodies : FifoIndex (arr 32 * UnicityCertificate);
  stats_ : SealStats;
}.

Abbreviation SessionM := (M SealSession VerificationError).

(** Field updates. *)
Section updates.
Context `{K256}.
Definition set_validated (s : SealSession) : SealSession :=
  {| trust_base := trust_base s; validated := true; memo := memo s; bodies := bodies s; stats_ := stats_ s |}.
Definition set_memo (m : FifoIndex (arr 32)) (s : SealSession) : SealSession :=
  {| trust_base := trust_base s; validated := validated s; memo := m; bodies := bodies s; stats_ := stats_ s |}.
Definition set_bodies (b : FifoIndex (arr 32 * UnicityCertificate)) (s : SealSession) : SealSession :=
  {| trust_base := trust_base s; validated := validated s; memo := memo s; bodies := b; stats_ := stats_ s |}.
Definition count (f : SealStats -> SealStats) (s : SealSession) : SealSession :=
  {| trust_base := trust_base s; validated := validated s; memo := memo s; bodies := bodies s; stats_ := f (stats_ s) |}.
End updates.
Definition count_quorum_check (t : SealStats) : SealStats :=
  {| quorum_checks := add_u64 (quorum_checks t) 1; memo_hits := memo_hits t; body_checks := body_checks t;
     body_hits := body_hits t; memo_probes := memo_probes t |}.
Definition count_memo_hit (t : SealStats) : SealStats :=
  {| quorum_checks := quorum_checks t; memo_hits := add_u64 (memo_hits t) 1; body_checks := body_checks t;
     body_hits := body_hits t; memo_probes := memo_probes t |}.
Definition count_body_check (t : SealStats) : SealStats :=
  {| quorum_checks := quorum_checks t; memo_hits := memo_hits t; body_checks := add_u64 (body_checks t) 1;
     body_hits := body_hits t; memo_probes := memo_probes t |}.
Definition count_body_hit (t : SealStats) : SealStats :=
  {| quorum_checks := quorum_checks t; memo_hits := memo_hits t; body_checks := body_checks t;
     body_hits := add_u64 (body_hits t) 1; memo_probes := memo_probes t |}.

(** * The quorum *)

Definition check_seal_shape (seal : UnicitySeal) : verdict unit :=
  if (val (root_chain_round_number seal) <? 1) || (val (seal_timestamp seal) <? GENESIS_TIME)
     || (len (signatures seal) =? 0)
     || existsb (fun e => (len (val (fst e)) =? 0) || (len (snd e) =? 0)) (signatures seal)
  then Err SealMalformed else Ok tt.

Record QuorumWork : Type := { decodes : u64; verifications : u64 }.
Definition no_work : QuorumWork := {| decodes := wrap 64 0; verifications := wrap 64 0 |}.

Section quorum.
Context `{Sha2} `{K256}.

(** The loop of [quorum_met_counted]. [counted] is the [BTreeSet] of node ids,
    which only ever gains new members, so its size is its length. *)
Fixpoint quorum_loop (tb : RootTrustBase) (threshold : u64) (seal_hash : bytes)
    (counted : list str) (counted_keys : list PublicKey) (work : QuorumWork)
    (signatures : list (str * bytes)) : verdict unit * QuorumWork :=
  match signatures with
  | [] => (Err QuorumNotMet, work)
  | (node_id, signature) :: rest =>
      let continue_ := quorum_loop tb threshold seal_hash counted counted_keys in
      if bool_decide (node_id ∈ counted) then continue_ work rest else
      match signing_key tb node_id with
      | None => continue_ work rest
      | Some key =>
          if bool_decide (key ∈ counted_keys) then continue_ work rest else
          let work := {| decodes := add_u64 (decodes work) 1; verifications := verifications work |} in
          match Signature.decode signature with
          | Panic => (Panic, work)
          | Err _ => continue_ work rest
          | Ok sig =>
              let work := {| decodes := decodes work; verifications := add_u64 (verifications work) 1 |} in
              if Signature.verify sig seal_hash key then
                let counted := node_id :: counted in
                let counted_keys := counted_keys ++ [key] in
                if val threshold <=? len counted then (Ok tt, work)
                else quorum_loop tb threshold seal_hash counted counted_keys work rest
              else continue_ work rest
          end
      end
  end.

Definition quorum_met_counted (tb : RootTrustBase) (seal : UnicitySeal) (work : QuorumWork) : verdict unit * QuorumWork :=
  let threshold := quorum_threshold tb in
  if val threshold =? 0 then (Ok tt, work) else
  let seal_hash := calculate_hash seal in
  quorum_loop tb threshold (DataHash.data seal_hash) [] [] work (signatures seal).

Definition quorum_met (tb : RootTrustBase) (seal : UnicitySeal) : verdict unit :=
  fst (quorum_met_counted tb seal no_work).

(** * The session *)

Definition no_stats : SealStats :=
  {| quorum_checks := wrap 64 0; memo_hits := wrap 64 0; body_checks := wrap 64 0; body_hits := wrap 64 0; memo_probes := wrap 64 0 |}.

Definition session_over (tb : RootTrustBase) (memo : FifoIndex (arr 32)) (bodies : FifoIndex (arr 32 * UnicityCertificate)) : SealSession :=
  {| trust_base := tb; validated := false; memo := memo; bodies := bodies; stats_ := no_stats |}.

Definition with_capacity_session {E} (tb : RootTrustBase) (capacity : usize) : outcome E SealSession :=
  memo ← FifoIndex.new capacity;
  bodies ← FifoIndex.new capacity;
  Ok (session_over tb memo bodies).

(** What [with_capacity] returns when it does, and [SealSession::new] always
    ([new_session_default]). *)
Definition empty_session (tb : RootTrustBase) (capacity : usize) : SealSession :=
  session_over tb (FifoIndex.empty capacity) (FifoIndex.empty capacity).

Definition new_session (tb : RootTrustBase) : SealSession := empty_session tb DEFAULT_SEAL_MEMO_CAPACITY.

Definition session_stats (self : SealSession) : SealStats := {|
  quorum_checks := quorum_checks (stats_ self); memo_hits := memo_hits (stats_ self);
  body_checks := body_checks (stats_ self); body_hits := body_hits (stats_ self);
  memo_probes := add_u64 (probes (memo self)) (val (probes (bodies self))) |}.

(** Calls on the two memos. *)
Definition on_memo {A} (m : M (FifoIndex (arr 32)) VerificationError A) : SessionM A := zoom memo set_memo m.
Definition on_bodies {A} (m : M (FifoIndex (arr 32 * UnicityCertificate)) VerificationError A) : SessionM A := zoom bodies set_bodies m.

(** FNV-1a over a slice, continued from [h]. *)
Definition eat (h : u64) (b : bytes) : u64 :=
  foldl (fun h x => wrap 64 (N.lxor (val h) (b2n x) * 0x100000001b3)) h b.

Definition uc_fingerprint (uc : UnicityCertificate) (policy : arr 32) : u64 :=
  let h := eat (wrap 64 0xcbf29ce484222325) (take 8 (val policy)) in
  let h := eat h (seal_hash (unicity_seal uc)) in
  let h := eat h (ShardId.encode (shard (shard_tree_certificate uc))) in
  let h := eat h (default [] (hash (input_record uc))) in
  let h := eat h (be_bytes 8 (val (round_number (input_record uc)))) in
  eat h (be_bytes 8 (val (root_chain_round_number (unicity_seal uc)))).

Definition body_verified (uc : UnicityCertificate) (policy : arr 32) : SessionM bool :=
  hit ← on_bodies (FifoIndex.contains (uc_fingerprint uc policy) (fun e => bool_decide (fst e = policy) && bool_decide (snd e = uc)));
  _ ← (if hit : bool then modify (count count_body_hit) else mret tt);
  mret hit.

Definition note_body_check : SessionM unit := modify (count count_body_check).

Definition remember_body (uc : UnicityCertificate) (policy : arr 32) : SessionM unit :=
  on_bodies (FifoIndex.insert (uc_fingerprint uc policy) (policy, uc)).

Definition ensure_trust_base : SessionM unit := fun self =>
  if negb (validated self) then
    match validate (trust_base self) with
    | Ok _ => (Ok tt, set_validated self)
    | Err e => (Err (InvalidTrustBaseError e), self)
    | Panic => (Panic, self)
    end
  else (Ok tt, self).

(** [authority_identity] *)
Definition authority_node (h : Inner) (n : RootTrustBaseNodeInfo) : Inner :=
  DataHasher.update (DataHasher.update (DataHasher.update (DataHasher.update h
    (be_bytes 8 (len (val (node_id n))))) (val (node_id n))) (as_bytes (node_signing_key n))) (be_bytes 8 (val (stake n))).

Definition authority_identity (self : SealSession) : arr 32 :=
  let tb := trust_base self in
  let h := foldl DataHasher.update (InnerSha256 []) [
    AUTHORITY_DOMAIN;
    be_bytes 8 (val (tb_version tb));
    be_bytes 2 (val (NetworkId.id (tb_network_id tb)));
    be_bytes 8 (val (tb_epoch tb));
    be_bytes 8 (val (epoch_start_round tb));
    be_bytes 8 (val (quorum_threshold tb));
    be_bytes 8 (len (root_nodes tb))] in
  fit 32 (DataHash.data (DataHasher.finalize (foldl authority_node h (root_nodes tb)))).

Definition key (seal : UnicitySeal) : arr 32 :=
  let encoded := to_cbor seal in
  fit 32 (DataHash.data (DataHasher.finalize (foldl DataHasher.update (InnerSha256 [])
    [MEMO_DOMAIN; be_bytes 8 (len encoded); encoded]))).

(** [u64::from_le_bytes(key[..8])] *)
Definition key_hash (k : arr 32) : u64 := wrap 64 (be_value (rev (take 8 (val k)))).

Definition verify_quorum_under (seal : UnicitySeal) (_policy : arr 32) : SessionM unit :=
  _ ← ensure_trust_base;
  let k := key seal in
  hit ← on_memo (FifoIndex.contains (key_hash k) (fun e => bool_decide (e = k)));
  if hit : bool then modify (count count_memo_hit) else
  _ ← modify (count count_quorum_check);
  self ← get;
  _ ← liftM (quorum_met (trust_base self) seal);
  on_memo (FifoIndex.insert (key_hash k) k).

(** [[0; 32]] *)
Definition zero_policy : arr 32 := fit 32 [].

Definition verify_quorum (seal : UnicitySeal) : SessionM unit := verify_quorum_under seal zero_policy.

Definition authenticate_seal_under (seal : UnicitySeal) (policy : arr 32) : SessionM unit :=
  _ ← ensure_trust_base;
  self ← get;
  let tb := trust_base self in
  if existsb (fun n => negb (val (stake n) =? 1)) (root_nodes tb) then liftM (Err UnsupportedAuthority) else
  _ ← liftM (check_seal_shape seal);
  if negb (bool_decide (seal_network_id seal = tb_network_id tb)) then liftM (Err SealNetworkMismatch) else
  if negb (val (seal_epoch seal) =? val (tb_epoch tb)) then liftM (Err SealEpochMismatch) else
  if val (root_chain_round_number seal) <? val (epoch_start_round tb) then liftM (Err SealBeforeEpochStart) else
  verify_quorum_under seal policy.

Definition authenticate_seal (seal : UnicitySeal) : SessionM unit := authenticate_seal_under seal zero_policy.

End quorum.
