(* ===== verification/SealSpec.v ===== *)
(** What the quorum check and the session of [Seal] promise. *)

From S2P Require Import Prelude State Bytes Error Cbor CborSpec CborRead Hash Radix Codec CodecFacts Ids ShardId Bft BftCodec Secp TrustBase VerificationError FifoIndex UcInterner Seal.
Local Open Scope N_scope.

Section quorum.
Context `{Sha2} `{K256}.

(** The seal entry [e] is a valid signature of a validator of [tb]. *)
Definition valid_entry (tb : RootTrustBase) (seal_hash : bytes) (e : str * bytes) : bool :=
  match signing_key tb (fst e) with
  | Some key =>
      match Signature.decode (snd e) with
      | Ok sig => Signature.verify sig seal_hash key
      | _ => false
      end
  | None => false
  end.

Lemma valid_entry_inv tb h e : valid_entry tb h e = true ->
  exists key sig, signing_key tb (fst e) = Some key /\ Signature.decode (snd e) = Ok sig /\ Signature.verify sig h key = true.
Proof.
  unfold valid_entry. destruct (signing_key tb (fst e)) as [key|]; [|done].
  destruct (Signature.decode (snd e)) as [sig| |]; [|done..]. intros Hv. by exists key, sig.
Qed.

(** The scan without the early exit: every countable entry is counted. *)
Fixpoint count_all (tb : RootTrustBase) (seal_hash : bytes) (counted : list str) (keys : list PublicKey)
    (signatures : list (str * bytes)) : list str :=
  match signatures with
  | [] => counted
  | e :: rest =>
      match signing_key tb (fst e) with
      | Some key =>
          if bool_decide (fst e ∈ counted) || bool_decide (key ∈ keys) then count_all tb seal_hash counted keys rest
          else if valid_entry tb seal_hash e then count_all tb seal_hash (fst e :: counted) (keys ++ [key]) rest
          else count_all tb seal_hash counted keys rest
      | None => count_all tb seal_hash counted keys rest
      end
  end.

Lemma count_all_ge tb h sigs : forall counted keys, len counted <= len (count_all tb h counted keys sigs).
Proof.
  induction sigs as [|e sigs IH]; intros counted keys; simpl; [done|].
  destruct (signing_key _ _); [|done]. destruct (_ || _); [done|]. destruct (valid_entry _ _ _); [|done].
  etrans; [|apply IH]. rewrite len_cons. lia.
Qed.

(** Stopping at the threshold does not change the verdict. *)
Lemma quorum_loop_full tb threshold h sigs : forall counted keys work, len counted < val threshold ->
  fst (quorum_loop tb threshold h counted keys work sigs) =
  if val threshold <=? len (count_all tb h counted keys sigs) then Ok tt else Err QuorumNotMet.
Proof.
  induction sigs as [|[id sig] sigs IH]; intros counted keys work Hc; cbn [quorum_loop count_all fst snd].
  - destruct (N.leb_spec (val threshold) (len counted)); [lia|done].
  - destruct (bool_decide_reflect (id ∈ counted)) as [Hin|Hin].
    { destruct (signing_key tb id); simpl orb; by apply IH. }
    destruct (signing_key tb id) as [key|] eqn:Hk; [|by apply IH]. simpl orb.
    destruct (bool_decide_reflect (key ∈ keys)); [by apply IH|].
    unfold valid_entry. cbn [fst snd]. rewrite Hk. pose proof (signature_decode_no_panic sig) as Hp.
    destruct (Signature.decode sig) as [s|e|] eqn:E; [|by apply IH|done].
    destruct (Signature.verify s h key) eqn:Ev; [|by apply IH]. cbn [fst].
    destruct (N.leb_spec (val threshold) (len (id :: counted))) as [Ht|Ht].
    + pose proof (count_all_ge tb h sigs (id :: counted) (keys ++ [key])).
      destruct (N.leb_spec (val threshold) (len (count_all tb h (id :: counted) (keys ++ [key]) sigs))); [done|lia].
    + rewrite IH by done. done.
Qed.

(** With distinct node ids in the seal and distinct keys in the trust base,
    exactly the valid entries are counted. *)
Lemma count_all_valid tb h sigs : valid_trust_base tb -> forall counted keys,
  NoDup (fst <$> sigs) -> (forall e, e ∈ sigs -> fst e ∉ counted) ->
  (forall k, k ∈ keys -> exists id, id ∈ counted /\ signing_key tb id = Some k) ->
  len (count_all tb h counted keys sigs) = len counted + len (filter (fun e => valid_entry tb h e = true) sigs).
Proof.
  intros Hv. induction sigs as [|e sigs IH]; intros counted keys Hd Hdisj Hkeys; cbn [count_all].
  { rewrite filter_nil, len_nil. lia. }
  apply NoDup_cons in Hd as [Hne Hd]. assert (Hdisj' : forall e', e' ∈ sigs -> fst e' ∉ counted) by set_solver.
  rewrite filter_cons. destruct (valid_entry tb h e) eqn:Ev.
  2: { rewrite decide_False by done. destruct (signing_key tb (fst e)); [|by apply IH]. destruct (_ || _); by apply IH. }
  rewrite decide_True by done. destruct (valid_entry_inv _ _ _ Ev) as (key & _ & Hk & _). rewrite Hk.
  rewrite (bool_decide_eq_false_2 (fst e ∈ counted)) by (apply Hdisj; left). simpl orb.
  rewrite (bool_decide_eq_false_2 (key ∈ keys)).
  2: { intros (id & Hin & Hid)%Hkeys. pose proof (signing_key_inj _ _ _ _ Hv Hk Hid) as E. apply (Hdisj e); [left|]. by rewrite E. }
  rewrite !len_cons. rewrite IH; [rewrite len_cons; lia|done| |].
  - intros e' He' [E|Hin]%elem_of_cons; [|by apply (Hdisj' e')]. apply Hne. rewrite <- E. by apply list_elem_of_fmap_2.
  - intros k [Hin|Hin]%elem_of_app.
    + destruct (Hkeys k Hin) as (id & ? & ?). exists id. split; [by right|done].
    + apply list_elem_of_singleton in Hin as ->. exists (fst e). split; [left|done].
Qed.

(** Whatever the seal, a met quorum exhibits a threshold of distinct validators
    with distinct keys whose signatures over the seal hash verify. *)
Lemma count_all_sound tb h sigs : forall counted keys,
  NoDup counted -> NoDup keys -> length counted = length keys ->
  (forall k, k ∈ keys -> exists id, id ∈ counted /\ signing_key tb id = Some k) ->
  exists new newkeys, count_all tb h counted keys sigs = new ++ counted /\
    NoDup (new ++ counted) /\ NoDup (keys ++ newkeys) /\ length new = length newkeys /\
    Forall (fun id => exists e, e ∈ sigs /\ fst e = id /\ valid_entry tb h e = true) new /\
    Forall (fun k => exists id, id ∈ new /\ signing_key tb id = Some k) newkeys.
Proof.
  induction sigs as [|e sigs IH]; intros counted keys Hc Hk Hl Hs; cbn [count_all].
  { exists [], []. rewrite app_nil_r. split_and!; done. }
  assert (forall counted keys, NoDup counted -> NoDup keys -> length counted = length keys ->
    (forall k, k ∈ keys -> exists id, id ∈ counted /\ signing_key tb id = Some k) ->
    exists new newkeys, count_all tb h counted keys sigs = new ++ counted /\
      NoDup (new ++ counted) /\ NoDup (keys ++ newkeys) /\ length new = length newkeys /\
      Forall (fun id => exists e', e' ∈ e :: sigs /\ fst e' = id /\ valid_entry tb h e' = true) new /\
      Forall (fun k => exists id, id ∈ new /\ signing_key tb id = Some k) newkeys) as IH'.
  { intros c k H1 H2 H3 H4. destruct (IH c k H1 H2 H3 H4) as (new & nk & ? & ? & ? & ? & Hf & ?). exists new, nk.
    split_and!; try done. eapply Forall_impl; [exact Hf|]. intros id (e' & ? & ?). exists e'. split; [by right|done]. }
  destruct (signing_key tb (fst e)) as [key|] eqn:Ek; [|by apply IH'].
  destruct (bool_decide_reflect (fst e ∈ counted)) as [|Hin]; [by apply IH'|].
  destruct (bool_decide_reflect (key ∈ keys)) as [|Hkin]; [by apply IH'|]. simpl orb. cbv iota.
  destruct (valid_entry tb h e) eqn:Ev; [|by apply IH'].
  destruct (IH' (fst e :: counted) (keys ++ [key])) as (new & nk & E & Hn & Hnk & Hlen & Hf & Hfk).
  - by constructor.
  - apply NoDup_app. split_and!; [done| |apply NoDup_singleton]. intros k ? ->%list_elem_of_singleton. done.
  - rewrite length_app. simpl. lia.
  - intros k [Hin'|Hin']%elem_of_app; [|apply list_elem_of_singleton in Hin' as ->; exists (fst e); split; [left|done]].
    destruct (Hs k Hin') as (id & ? & ?). exists id. split; [by right|done].
  - exists (new ++ [fst e]), (key :: nk). rewrite <- !app_assoc. simpl. split_and!; try done.
    + by rewrite <- app_assoc in Hnk.
    + rewrite length_app. simpl. lia.
    + apply Forall_app. split; [done|]. constructor; [|constructor]. exists e. split; [left|done].
    + constructor; [exists (fst e); split; [set_solver|done]|]. eapply Forall_impl; [exact Hfk|].
      intros k (id & ? & ?). exists id. split; [set_solver|done].
Qed.

Lemma quorum_met_full tb seal : val (quorum_threshold tb) <> 0 ->
  quorum_met tb seal =
  if val (quorum_threshold tb) <=? len (count_all tb (DataHash.data (calculate_hash seal)) [] [] (signatures seal))
  then Ok tt else Err QuorumNotMet.
Proof.
  intros Hn. unfold quorum_met, quorum_met_counted. destruct (N.eqb_spec (val (quorum_threshold tb)) 0); [done|].
  apply quorum_loop_full. rewrite len_nil. lia.
Qed.

(** [signers] are distinct validators of [tb] with distinct keys, each with a
    valid signature over [h] in the seal. *)
Definition signed_by (tb : RootTrustBase) (seal : UnicitySeal) (signers : list (str * PublicKey)) : Prop :=
  NoDup (fst <$> signers) /\ NoDup (snd <$> signers) /\
  Forall (fun s => exists b sig, (fst s, b) ∈ signatures seal /\ signing_key tb (fst s) = Some (snd s) /\
    Signature.decode b = Ok sig /\ Signature.verify sig (DataHash.data (calculate_hash seal)) (snd s) = true) signers.

(** The node ids with their keys. *)
Definition with_keys (tb : RootTrustBase) (ids : list str) : list (str * PublicKey) :=
  omap (fun id => pair id <$> signing_key tb id) ids.

Lemma with_keys_all tb ids : Forall (fun id => is_Some (signing_key tb id)) ids -> fst <$> with_keys tb ids = ids.
Proof.
  induction 1 as [|id ids [k Hk] _ IH]; [done|]. unfold with_keys in *. cbn. rewrite Hk. cbn. by f_equal.
Qed.

Lemma with_keys_in tb ids id k : (id, k) ∈ with_keys tb ids <-> id ∈ ids /\ signing_key tb id = Some k.
Proof.
  unfold with_keys. rewrite list_elem_of_omap. split.
  - intros (x & Hx & E). destruct (signing_key tb x) eqn:Ek; [|done]. injection E as <- <-. done.
  - intros [Hin E]. exists id. by rewrite E.
Qed.

Lemma quorum_met_sound tb seal : val (quorum_threshold tb) <> 0 -> quorum_met tb seal = Ok tt ->
  exists signers, signed_by tb seal signers /\ val (quorum_threshold tb) <= len signers.
Proof.
  intros Hn. rewrite quorum_met_full by done.
  destruct (N.leb_spec (val (quorum_threshold tb)) (len (count_all tb (DataHash.data (calculate_hash seal)) [] [] (signatures seal)))) as [Hl|]; [|done].
  intros _. destruct (count_all_sound tb (DataHash.data (calculate_hash seal)) (signatures seal) [] []) as
    (new & nk & E & Hd & Hdk & Hlen & Hf & Hfk); [constructor|constructor|done|set_solver|].
  rewrite app_nil_r in *. rewrite E in Hl. simpl in Hdk.
  assert (Forall (fun id => is_Some (signing_key tb id)) new) as Hs.
  { eapply Forall_impl; [exact Hf|]. intros id (e & _ & <- & (k & ? & ? & _)%valid_entry_inv). by exists k. }
  exists (with_keys tb new). pose proof (with_keys_all _ _ Hs) as Ef. split; [split_and!|].
  - by rewrite Ef.
  - assert (nk ⊆+ (snd <$> with_keys tb new)) as Hsub.
    { apply NoDup_submseteq; [done|]. intros k Hk. rewrite Forall_forall in Hfk. destruct (Hfk k Hk) as (id & Hid & Ek).
      apply list_elem_of_fmap. exists (id, k). split; [done|]. by apply with_keys_in. }
    apply submseteq_length_Permutation in Hsub as <-; [done|].
    rewrite length_fmap. apply (f_equal length) in Ef. rewrite length_fmap in Ef. lia.
  - apply Forall_forall. intros [id k] [Hid Hk]%with_keys_in. rewrite Forall_forall in Hf.
    destruct (Hf id Hid) as ([id' b] & He & <- & Hv). apply valid_entry_inv in Hv as (k' & sig & Hk' & Hsig & Hv).
    simpl in *. exists b, sig. split_and!; try done. congruence.
  - unfold len in *. apply (f_equal length) in Ef. rewrite length_fmap in Ef. lia.
Qed.

(** C30. For a decoded seal and a validated trust base: the quorum is met exactly when
    the entries that are valid reach the threshold. *)
Theorem quorum_met_spec tb seal : valid_trust_base tb -> NoDup (fst <$> signatures seal) ->
  quorum_met tb seal = Ok tt <->
  val (quorum_threshold tb) <=
    len (filter (fun e => valid_entry tb (DataHash.data (calculate_hash seal)) e = true) (signatures seal)).
Proof.
  intros Hv Hd. pose proof (vt_threshold _ Hv). rewrite quorum_met_full by lia.
  rewrite count_all_valid by (done || set_solver). rewrite len_nil, N.add_0_l.
  split; [by case_match; [intros _; apply N.leb_le|]|]. by intros ->%N.leb_le.
Qed.

Lemma quorum_met_no_panic tb seal : no_panic (quorum_met tb seal).
Proof.
  unfold quorum_met, quorum_met_counted. destruct (val (quorum_threshold tb) =? 0) eqn:E; [done|].
  apply N.eqb_neq in E. rewrite quorum_loop_full by (rewrite len_nil; lia). by destruct (_ <=? _).
Qed.
End quorum.

(** * The session *)

Section session.
Context `{Sha2} `{K256}.

(** The message of the memo key. *)
Definition key_message (s : UnicitySeal) : bytes := MEMO_DOMAIN ++ be_bytes 8 (len (to_cbor s)) ++ to_cbor s.

Lemma key_digest s : val (key s) = val (Sha256_digest (key_message s)).
Proof.
  unfold key. rewrite update_all. rewrite val_fit by apply (arr_length (Sha256_digest _)).
  cbn [app concat]. by rewrite app_nil_r.
Qed.

(** The memo key identifies the seal. *)
Lemma key_inj s s' : wf s -> wf s' -> key s = key s' ->
  s = s' \/ Collision (.∈ [key_message s; key_message s']).
Proof.
  intros Hw Hw' E. apply (f_equal val) in E. rewrite !key_digest in E. apply val_inj in E.
  apply (digest_inj (.∈ [key_message s; key_message s'])) in E as [Ex|]; [left|by right|set_solver..].
  unfold key_message in Ex. apply app_inv_head in Ex.
  apply app_inv_len in Ex as [_ Ex]; [|by rewrite !length_be_bytes].
  apply to_cbor_inj in Ex; [done..|exact (proj2 Hw)].
Qed.

Lemma with_capacity_session_fits {E} tb capacity : val capacity <= MAX_CAPACITY ->
  with_capacity_session (E := E) tb capacity = Ok (empty_session tb capacity).
Proof. intros Hc. unfold with_capacity_session. by rewrite !(FifoIndex.new_fits _ Hc). Qed.

Lemma new_session_default {E} tb : with_capacity_session (E := E) tb DEFAULT_SEAL_MEMO_CAPACITY = Ok (new_session tb).
Proof. apply with_capacity_session_fits. by vm_compute. Qed.

(** [K] are the seals that the session is used with. *)
Context (K : UnicitySeal -> Prop).

(** Two of them with one memo key, one accepted by the validators of [tb] and one
    not: the only way the memo could err. *)
Definition memo_clash (tb : RootTrustBase) : Prop := exists good bad, K good /\ K bad /\ wf good /\ wf bad /\
  quorum_met tb good = Ok tt /\ quorum_met tb bad <> Ok tt /\ key good = key bad.

(** It is a SHA-256 collision on the messages that the memo hashes for them. *)
Definition seal_collision (tb : RootTrustBase) : Prop := exists good bad, K good /\ K bad /\ wf good /\ wf bad /\
  quorum_met tb good = Ok tt /\ quorum_met tb bad <> Ok tt /\ Collision (.∈ [key_message good; key_message bad]).

Lemma memo_clash_collision tb : memo_clash tb -> seal_collision tb.
Proof.
  intros (good & bad & Kg & Kb & Hg & Hb & Qg & Qb & E). exists good, bad. split_and!; [done..|].
  apply key_inj in E as [Eq|]; [exfalso; apply Qb; by rewrite <- Eq|done|done|done].
Qed.

(** Seals that all have the quorum cannot clash, nor can a single seal. *)
Lemma all_good_no_clash tb : (forall seal, K seal -> wf seal -> quorum_met tb seal = Ok tt) -> ~ seal_collision tb.
Proof. intros Hk (_ & bad & _ & Kb & _ & Hb & _ & Qb & _). by apply Qb, Hk. Qed.

Lemma one_seal_no_clash tb : (forall seal seal', K seal -> K seal' -> seal = seal') -> ~ memo_clash tb.
Proof. intros Hk (good & bad & Kg & Kb & _ & _ & Qg & Qb & _). by rewrite (Hk bad good Kb Kg) in Qb. Qed.

(** What a remembered certificate was accepted under. *)
Context (B : RootTrustBase -> arr 32 -> UnicityCertificate -> Prop).

Record session_ok (s : SealSession) : Prop := {
  so_validated : validated s = true -> validate (trust_base s) = Ok tt;
  so_memo : exists l, FifoIndex.holds (memo s) l /\
    Forall (fun e => exists seal, K seal /\ wf seal /\ value_ e = key seal /\ quorum_met (trust_base s) seal = Ok tt) l;
  so_bodies : exists l, FifoIndex.holds (bodies s) l /\
    Forall (fun e => B (trust_base s) (fst (value_ e)) (snd (value_ e))) l;
}.

(** Sessions of one authority. *)
Definition session_of (tb : RootTrustBase) (s : SealSession) : Prop := session_ok s /\ trust_base s = tb.

Lemma session_ok_empty tb capacity : val capacity <= MAX_CAPACITY -> session_of tb (empty_session tb capacity).
Proof. intros Hc. split; [|done]. constructor; [done|..]; exists []; (split; [by apply FifoIndex.empty_holds|done]). Qed.

Lemma session_ok_new tb : session_of tb (new_session tb).
Proof. apply session_ok_empty. by vm_compute. Qed.

Lemma session_ok_count f s : session_ok s -> session_ok (count f s).
Proof. intros []. by constructor. Qed.

Lemma ensure_trust_base_spec tb s : session_of tb s ->
  fst (ensure_trust_base s) = map_err InvalidTrustBaseError (validate tb) /\
  session_of tb (snd (ensure_trust_base s)) /\
  (fst (ensure_trust_base s) = Ok tt -> validate tb = Ok tt).
Proof.
  intros [Hs <-]. unfold ensure_trust_base. destruct (validated s) eqn:Ev; simpl negb; cbv iota.
  - rewrite (so_validated _ Hs Ev). by split_and!.
  - destruct (validate (trust_base s)) as [[]|e|] eqn:E; simpl; split_and!; try done.
    split; [|done]. destruct Hs. by constructor.
Qed.

(** ** The quorum memo *)

(** What the session answers without its memo. *)
Definition quorum_verdict (tb : RootTrustBase) (seal : UnicitySeal) : verdict unit :=
  _ ← map_err InvalidTrustBaseError (validate tb);
  quorum_met tb seal.

(** The lookup in the memo. *)
Lemma memo_lookup tb s k : session_of tb s -> exists hit s1,
  on_memo (FifoIndex.contains (key_hash k) (fun e => bool_decide (e = k))) s = (Ok hit, s1) /\ session_of tb s1 /\
  (hit = true -> exists seal, K seal /\ wf seal /\ k = key seal /\ quorum_met tb seal = Ok tt).
Proof.
  intros [Hs <-]. destruct (so_memo _ Hs) as (l & Hl & Hm).
  destruct (FifoIndex.contains_entry (E := VerificationError) (memo s) l (key_hash k) (fun e => bool_decide (e = k)) Hl) as (hit & m & E & Hl' & Ht).
  unfold on_memo, zoom. rewrite E. exists hit, (set_memo m s). split_and!; [done| |].
  - split; [|done]. destruct Hs. constructor; [done|by exists l|done].
  - intros ->. destruct (Ht eq_refl) as (e & He & Ek%bool_decide_eq_true_1). rewrite Forall_forall in Hm.
    destruct (Hm e He) as (seal & ? & ? & ? & ?). exists seal. split_and!; [done|done|congruence|done].
Qed.

Lemma memo_insert tb s seal : session_of tb s -> K seal -> wf seal -> quorum_met tb seal = Ok tt ->
  exists s1, on_memo (FifoIndex.insert (key_hash (key seal)) (key seal)) s = (Ok tt, s1) /\ session_of tb s1.
Proof.
  intros [Hs <-] Hk Hw Hq. destruct (so_memo _ Hs) as (l & Hl & Hm).
  destruct (FifoIndex.insert_holds (E := VerificationError) (memo s) l (key_hash (key seal)) (key seal) Hl) as (m & E & _ & Hl').
  unfold on_memo, zoom. rewrite E. exists (set_memo m s). split; [done|]. split; [|done]. destruct Hs as [H1 _ H3].
  constructor; [done| |done]. eexists. split; [exact Hl'|]. apply Forall_forall.
  intros e [->|He]%FifoIndex.elem_fifo_insert; [by exists seal|]. rewrite Forall_forall in Hm. by apply Hm.
Qed.

Lemma verify_quorum_transparent tb s seal policy : session_of tb s -> K seal -> wf seal ->
  (fst (verify_quorum_under seal policy s) = quorum_verdict tb seal \/ memo_clash tb) /\
  session_of tb (snd (verify_quorum_under seal policy s)).
Proof.
  intros Hs HK Hw. unfold verify_quorum_under, quorum_verdict.
  destruct (ensure_trust_base_spec tb s Hs) as (Hf & Hs1 & Hv). rewrite bindM_run.
  destruct (ensure_trust_base s) as [r s1]. simpl in Hf, Hs1, Hv. rewrite <- Hf.
  destruct r as [[]|e|]; [|by split; [left|]..]. rewrite bind_Ok_l, bindM_run.
  destruct (memo_lookup tb s1 (key seal) Hs1) as (hit & s2 & -> & Hs2 & Ht). destruct hit.
  - destruct (Ht eq_refl) as (seal' & HK' & Hw' & Hkey & Hq). split.
    + simpl. destruct (quorum_met tb seal) as [[]|e'|] eqn:Eq; [by left|right; exists seal', seal..];
        (split_and!; [done..| |done]); by rewrite Eq.
    + destruct Hs2 as [Hs2 Htb]. split; [by apply session_ok_count|done].
  - rewrite bindM_run. unfold modify. cbv iota beta. rewrite bindM_run. unfold get. cbv iota beta. rewrite bindM_run. unfold liftM.
    set (s3 := count count_quorum_check s2). assert (session_of tb s3) as Hs3 by (destruct Hs2; split; [by apply session_ok_count|done]).
    rewrite (proj2 Hs3). destruct (quorum_met tb seal) as [[]|e|] eqn:Eq; [|by split; [left|]..].
    destruct (memo_insert tb s3 seal Hs3 HK Hw Eq) as (s4 & -> & Hs4). by split; [left|].
Qed.

(** ** The strict authenticator *)

(** Its verdict without the memo. *)
Definition seal_verdict (tb : RootTrustBase) (seal : UnicitySeal) : verdict unit :=
  _ ← map_err InvalidTrustBaseError (validate tb);
  if existsb (fun n => negb (val (stake n) =? 1)) (root_nodes tb) then Err UnsupportedAuthority else
  _ ← check_seal_shape seal;
  if negb (bool_decide (seal_network_id seal = tb_network_id tb)) then Err SealNetworkMismatch else
  if negb (val (seal_epoch seal) =? val (tb_epoch tb)) then Err SealEpochMismatch else
  if val (root_chain_round_number seal) <? val (epoch_start_round tb) then Err SealBeforeEpochStart else
  quorum_verdict tb seal.

Lemma authenticate_seal_transparent tb s seal policy : session_of tb s -> K seal -> wf seal ->
  (fst (authenticate_seal_under seal policy s) = seal_verdict tb seal \/ memo_clash tb) /\
  session_of tb (snd (authenticate_seal_under seal policy s)).
Proof.
  intros Hs HK Hw. unfold authenticate_seal_under, seal_verdict.
  destruct (ensure_trust_base_spec tb s Hs) as (Hf & Hs1 & Hv). rewrite bindM_run.
  destruct (ensure_trust_base s) as [r s1]. simpl in Hf, Hs1, Hv. rewrite <- Hf.
  destruct r as [[]|e|]; [|by split; [left|]..]. rewrite bind_Ok_l.
  rewrite bindM_run. unfold get. destruct Hs1 as [Hs1 Htb]. rewrite Htb.
  destruct (existsb _ _); [by split; [left|]|].
  rewrite bindM_run. unfold liftM at 1 5. destruct (check_seal_shape seal) as [[]|e|]; [|by split; [left|]..].
  rewrite bind_Ok_l. do 3 (match goal with |- context [if ?b then liftM _ else _] => destruct b end; [by split; [left|]|]).
  by apply verify_quorum_transparent.
Qed.

(** ** The certificate memo *)

Lemma body_verified_spec tb s uc policy : session_of tb s ->
  exists hit, fst (body_verified uc policy s) = Ok hit /\ session_of tb (snd (body_verified uc policy s)) /\
    (hit = true -> B tb policy uc).
Proof.
  intros [Hs <-]. destruct (so_bodies _ Hs) as (l & Hl & Hm). set (eqf := fun e : arr 32 * UnicityCertificate => bool_decide (fst e = policy) && bool_decide (snd e = uc)).
  destruct (FifoIndex.contains_entry (E := VerificationError) (bodies s) l (uc_fingerprint uc policy) eqf Hl) as (hit & b & E & Hl' & Ht).
  assert (session_ok (set_bodies b s)) as Hs2 by (destruct Hs; constructor; [done|done|by exists l]).
  assert (body_verified uc policy s = (Ok hit, (if hit then count count_body_hit else id) (set_bodies b s))) as ->.
  { unfold body_verified. rewrite bindM_run. unfold on_bodies, zoom. fold eqf. rewrite E. by destruct hit. }
  exists hit. split_and!; [done| |].
  - split; [|by destruct hit]. destruct hit; [by apply session_ok_count|done].
  - intros ->. destruct (Ht eq_refl) as (e & He & [Ep%bool_decide_eq_true_1 Eu%bool_decide_eq_true_1]%andb_true_iff).
    rewrite Forall_forall in Hm. specialize (Hm e He). by rewrite Ep, Eu in Hm.
Qed.

Lemma remember_body_spec tb s uc policy : session_of tb s -> B tb policy uc ->
  fst (remember_body uc policy s) = Ok tt /\ session_of tb (snd (remember_body uc policy s)).
Proof.
  intros [Hs <-] HB. destruct (so_bodies _ Hs) as (l & Hl & Hm). unfold remember_body, on_bodies, zoom.
  destruct (FifoIndex.insert_holds (E := VerificationError) (bodies s) l (uc_fingerprint uc policy) (policy, uc) Hl) as (b & -> & _ & Hl').
  split; [done|]. split; [|done]. destruct Hs as [H1 H2 _]. constructor; [done|done|].
  eexists. split; [exact Hl'|]. cbn [trust_base set_bodies].
  apply Forall_forall. intros e [->|He]%FifoIndex.elem_fifo_insert; [done|]. rewrite Forall_forall in Hm. by apply Hm.
Qed.
End session.

(** More seals, more collisions. *)
Lemma seal_collision_mono `{Sha2} `{K256} (K K' : UnicitySeal -> Prop) tb : (forall seal, K seal -> K' seal) ->
  seal_collision K tb -> seal_collision K' tb.
Proof. intros HK (good & bad & Kg & Kb & ?). exists good, bad. auto. Qed.

Lemma session_of_mono `{Sha2} `{K256} (K K' : UnicitySeal -> Prop) B tb s : (forall seal, K seal -> K' seal) ->
  session_of K B tb s -> session_of K' B tb s.
Proof.
  intros HK [[H1 (l & Hl & Hm) H3] Htb]. split; [|done]. constructor; [done| |done]. exists l. split; [done|].
  eapply Forall_impl; [exact Hm|]. intros e (seal & ? & ? & ? & ?). exists seal. auto.
Qed.
