(* ===== verification/Proofs.v ===== *)
(** What an aggregator certifies and answers: [src/api/certification.rs],
    [certification_request.rs], [inclusion_proof.rs], [inclusion_proof_response.rs],
    [non_inclusion_proof.rs] and [proof_status.rs]. Their codecs, with the
    certificate decoded directly or through an interner. *)

From S2P Require Import Prelude State Bytes Error Cbor CborSpec CborRead Hash Codec Ids Bft BftCodec UcInterner Certificates VerificationError.
Local Open Scope N_scope.

(** * Certification data *)

Definition CERTIFICATION_DATA_TAG : u64 := wrap 64 39031.
Definition CERTIFICATION_DATA_VERSION : u64 := wrap 64 2.

Record CertificationData : Type := {
  cd_lock_script : EncodedPredicate;
  cd_source_state_hash : DataHash;
  cd_transaction_hash : DataHash;
  cd_expires_at : option u64;
  unlock_script : bytes;
}.

#[export] Instance CertificationData_eq_dec : EqDecision CertificationData.
Proof. solve_decision. Defined.

(** [DataHash::new(HashAlgorithm::Sha256, d.bytes_value()?)?] *)
Definition sha256_hash_of (d : Decoder) : result DataHash :=
  b ← lift (Decoder.bytes_value d);
  DataHash.new Sha256 b.

#[export] Instance CertificationData_codec : Codec CertificationData := {|
  to_cbor c := encode_tag CERTIFICATION_DATA_TAG (encode_array [
    encode_uint CERTIFICATION_DATA_VERSION;
    to_cbor (cd_lock_script c);
    encode_byte_string (DataHash.data (cd_source_state_hash c));
    encode_byte_string (DataHash.data (cd_transaction_hash c));
    encode_nullable (cd_expires_at c) encode_uint;
    encode_byte_string (unlock_script c)]);
  from_cbor d :=
    inner ← lift (Decoder.expect_tag d (val CERTIFICATION_DATA_TAG));
    items ← lift (Decoder.array inner (Some 6));
    i0 ← idx items 0;
    version ← lift (Decoder.uint i0);
    if negb (val version =? val CERTIFICATION_DATA_VERSION)
    then Err (UnexpectedValue "unsupported CertificationData version") else
    i1 ← idx items 1; lock_script ← from_cbor i1;
    i2 ← idx items 2; source_state_hash ← sha256_hash_of i2;
    i3 ← idx items 3; transaction_hash ← sha256_hash_of i3;
    i4 ← idx items 4; expires_at ← opt_uint i4;
    i5 ← idx items 5; unlock_script ← lift (Decoder.bytes_value i5);
    Ok {| cd_lock_script := lock_script; cd_source_state_hash := source_state_hash;
          cd_transaction_hash := transaction_hash; cd_expires_at := expires_at; unlock_script := unlock_script |};
  wf c := DataHash.algorithm (cd_source_state_hash c) = Sha256 /\ DataHash.algorithm (cd_transaction_hash c) = Sha256;
|}.

Definition CERTIFICATION_REQUEST_TAG : u64 := wrap 64 39030.

Record CertificationRequest : Type := { cr_state_id : StateId; cr_data : CertificationData }.

Definition CertificationRequest_new `{Sha2} (data : CertificationData) : CertificationRequest :=
  {| cr_state_id := StateId_derive (cd_lock_script data) (cd_source_state_hash data); cr_data := data |}.

Definition CertificationRequest_to_cbor (self : CertificationRequest) : bytes :=
  encode_tag CERTIFICATION_REQUEST_TAG (encode_array [
    encode_uint (wrap 64 1); to_cbor (cr_state_id self); to_cbor (cr_data self); encode_uint (wrap 64 0)]).

(** * Inclusion proofs *)

Definition INCLUSION_PROOF_TAG : u64 := wrap 64 39033.
Definition INCLUSION_PROOF_VERSION : u64 := wrap 64 1.

(** [InclusionCertificate::decode(x.bytes_value()?)] and its inverse, as a wire
    type; likewise for the non-inclusion certificate. *)
#[export] Instance InclusionCertificate_codec : Codec InclusionCertificate.InclusionCertificate := {|
  to_cbor c := encode_byte_string (InclusionCertificate.encode c);
  from_cbor d := b ← lift (Decoder.bytes_value d); InclusionCertificate.decode b;
  wf := InclusionCertificate.wf;
|}.
#[export] Instance NonInclusionCertificate_codec : Codec NonInclusionCertificate.NonInclusionCertificate := {|
  to_cbor c := encode_byte_string (NonInclusionCertificate.encode c);
  from_cbor d := b ← lift (Decoder.bytes_value d); NonInclusionCertificate.decode b;
  wf := NonInclusionCertificate.wf;
|}.

Record InclusionProof : Type := {
  certification_data : CertificationData;
  reference_time : u64;
  inclusion_certificate : InclusionCertificate.InclusionCertificate;
  unicity_certificate : UnicityCertificate;
}.

Record DecodedParts : Type := {
  dp_certification_data : option CertificationData;
  dp_reference_time : option u64;
  dp_inclusion_certificate : option InclusionCertificate.InclusionCertificate;
  dp_unicity_certificate : UnicityCertificate;
}.

Definition is_some_u8 {A} (o : option A) : N := match o with Some _ => 1 | None => 0 end.

(** The part of [DecodedParts::from_cbor] before the certificate: the leaf
    fields and the certificate item. *)
Definition leaf_fields (d : Decoder) :
    result (option CertificationData * option u64 * option InclusionCertificate.InclusionCertificate * Decoder) :=
  inner ← lift (Decoder.expect_tag d (val INCLUSION_PROOF_TAG));
  items ← lift (Decoder.array inner (Some 5));
  i0 ← idx items 0;
  version ← lift (Decoder.uint i0);
  if negb (val version =? val INCLUSION_PROOF_VERSION)
  then Err (UnexpectedValue "unsupported InclusionProof version") else
  i1 ← idx items 1; certification_data ← Decoder.nullable i1 from_cbor;
  i2 ← idx items 2; reference_time ← opt_uint i2;
  i3 ← idx items 3; inclusion_certificate ← Decoder.nullable i3 from_cbor;
  let present := is_some_u8 certification_data + is_some_u8 reference_time + is_some_u8 inclusion_certificate in
  if negb (present =? 0) && negb (present =? 3)
  then Err (UnexpectedValue "InclusionProof must carry certification data, reference time and inclusion certificate together, or none of them") else
  i4 ← idx items 4;
  Ok (certification_data, reference_time, inclusion_certificate, i4).

(** [match interner { Some(i) => i.decode(d)?, None => UnicityCertificate::from_cbor(d)? }] *)
Definition decode_uc (d : Decoder) : M (option UcInterner) Error UnicityCertificate := stateM (fun interner =>
  match interner with
  | Some i => let '(r, i) := UcInterner.decode d i in (r, Some i)
  | None => (from_cbor d, None)
  end).

Definition DecodedParts_from_cbor (d : Decoder) : M (option UcInterner) Error DecodedParts :=
  '(certification_data, reference_time, inclusion_certificate, i4) ← liftM (leaf_fields d);
  uc ← decode_uc i4;
  mret {| dp_certification_data := certification_data; dp_reference_time := reference_time;
          dp_inclusion_certificate := inclusion_certificate; dp_unicity_certificate := uc |}.

Definition into_certified (self : DecodedParts) : result InclusionProof :=
  match dp_certification_data self, dp_reference_time self, dp_inclusion_certificate self with
  | Some cd, Some rt, Some ic =>
      Ok {| certification_data := cd; reference_time := rt; inclusion_certificate := ic;
            unicity_certificate := dp_unicity_certificate self |}
  | _, _, _ => Err (UnexpectedValue "expected a certified leaf, but the inclusion proof describes none")
  end.

#[export] Instance InclusionProof_codec : Codec InclusionProof := {|
  from_cbor d :=
    parts ← fst (DecodedParts_from_cbor d None);
    into_certified parts;
  to_cbor p := encode_tag INCLUSION_PROOF_TAG (encode_array [
    encode_uint INCLUSION_PROOF_VERSION;
    to_cbor (certification_data p);
    encode_uint (reference_time p);
    to_cbor (inclusion_certificate p);
    to_cbor (unicity_certificate p)]);
  wf p := wf (certification_data p) /\ wf (inclusion_certificate p) /\ wf (unicity_certificate p);
|}.

(** [InclusionProof::from_cbor_interned] *)
Definition InclusionProof_from_cbor_interned (d : Decoder) : M UcInterner Error InclusionProof := stateM (fun i =>
  let '(r, o) := DecodedParts_from_cbor d (Some i) in
  (r ≫= into_certified, default i o)).

Inductive InclusionProofResponse : Type :=
| Certified (block_number : u64) (proof : InclusionProof)
| NotCertified (block_number : u64) (uc : UnicityCertificate).

#[export] Instance InclusionProofResponse_codec : Codec InclusionProofResponse := {|
  from_cbor d :=
    items ← lift (Decoder.array d (Some 2));
    i0 ← idx items 0; block_number ← lift (Decoder.uint i0);
    i1 ← idx items 1; parts ← fst (DecodedParts_from_cbor i1 None);
    match dp_certification_data parts with
    | None => Ok (NotCertified block_number (dp_unicity_certificate parts))
    | Some _ => proof ← into_certified parts; Ok (Certified block_number proof)
    end;
  to_cbor r :=
    match r with
    | Certified block_number proof => encode_array [encode_uint block_number; to_cbor proof]
    | NotCertified block_number uc => encode_array [encode_uint block_number;
        encode_tag INCLUSION_PROOF_TAG (encode_array [
          encode_uint INCLUSION_PROOF_VERSION; encode_null; encode_null; encode_null; to_cbor uc])]
    end;
  wf r := match r with Certified _ proof => wf proof | NotCertified _ uc => wf uc end;
|}.

Definition inclusion_proof (self : InclusionProofResponse) : option InclusionProof :=
  match self with Certified _ proof => Some proof | NotCertified _ _ => None end.
Definition response_unicity_certificate (self : InclusionProofResponse) : UnicityCertificate :=
  match self with Certified _ proof => unicity_certificate proof | NotCertified _ uc => uc end.

(** * Non-inclusion proofs *)

Definition NON_INCLUSION_PROOF_TAG : u64 := wrap 64 39034.

Record NonInclusionProof : Type := {
  certificate : NonInclusionCertificate.NonInclusionCertificate;
  ni_unicity_certificate : UnicityCertificate;
  requested_state_id : option StateId;
}.

#[export] Instance NonInclusionProof_codec : Codec NonInclusionProof := {|
  from_cbor d :=
    inner ← lift (Decoder.expect_tag d (val NON_INCLUSION_PROOF_TAG));
    items ← lift (Decoder.array inner (Some 3));
    i0 ← idx items 0;
    version ← lift (Decoder.uint i0);
    if negb (val version =? 1) then Err (UnexpectedValue "unsupported NonInclusionProof version") else
    i1 ← idx items 1; certificate ← from_cbor i1;
    i2 ← idx items 2; uc ← from_cbor i2;
    Ok {| certificate := certificate; ni_unicity_certificate := uc; requested_state_id := None |};
  to_cbor p := encode_tag NON_INCLUSION_PROOF_TAG (encode_array [
    encode_uint (wrap 64 1); to_cbor (certificate p); to_cbor (ni_unicity_certificate p)]);
  (** the request binding is local and not on the wire *)
  wf p := wf (certificate p) /\ wf (ni_unicity_certificate p) /\ requested_state_id p = None;
|}.

Definition for_state (self : NonInclusionProof) (state_id : StateId) : verdict NonInclusionProof :=
  match requested_state_id self with
  | Some requested => if negb (bool_decide (requested = state_id)) then Err NonInclusionTargetMismatch else
      Ok {| certificate := certificate self; ni_unicity_certificate := ni_unicity_certificate self; requested_state_id := Some state_id |}
  | None => Ok {| certificate := certificate self; ni_unicity_certificate := ni_unicity_certificate self; requested_state_id := Some state_id |}
  end.

(** * Status hints *)

Module ProofStatus.
Inductive ProofStatus : Type := Included | Pending | Expired | Unknown.

Definition from_wire (value : string) : option ProofStatus :=
  if String.eqb value "included" then Some Included else
  if String.eqb value "pending" then Some Pending else
  if String.eqb value "expired" then Some Expired else
  if String.eqb value "unknown" then Some Unknown else None.

Definition as_wire (s : ProofStatus) : string :=
  match s with Included => "included" | Pending => "pending" | Expired => "expired" | Unknown => "unknown" end%string.

Lemma from_wire_spec v s : from_wire v = Some s <-> v = as_wire s.
Proof.
  unfold from_wire. split; [|by intros ->; destruct s].
  repeat (match goal with |- context [String.eqb ?a ?b] => destruct (String.eqb_spec a b) end; [by intros [= <-]|]). done.
Qed.
End ProofStatus.

(** * Wire laws *)

Lemma sha256_hash_enc limits h : DataHash.algorithm h = Sha256 -> accepts limits (encode_byte_string (DataHash.data h)) ->
  sha256_hash_of (with_limits (encode_byte_string (DataHash.data h)) limits) = Ok h.
Proof. intros Ha Hb. unfold sha256_hash_of. codec_forward. by apply DataHash_new_Ok. Qed.

Lemma sha256_hash_inv d h : sha256_hash_of d = Ok h -> DataHash.algorithm h = Sha256 /\ dbytes d = encode_byte_string (DataHash.data h).
Proof. unfold sha256_hash_of. intros E. codec_inv. apply DataHash_new_Ok in E as [? <-]. done. Qed.

Lemma no_panic_sha256_hash d : no_panic (sha256_hash_of d).
Proof. unfold sha256_hash_of, DataHash.new. solve_no_panic. Qed.
#[export] Hint Resolve no_panic_sha256_hash : outcome.

#[export] Instance CertificationData_laws : CodecLaws CertificationData.
Proof.
  split.
  - intros a. codec_unfold CertificationData_codec. eauto 20 with items.
  - intros a. codec_unfold CertificationData_codec. eauto 20 with items.
  - intros limits a [Hs Ht] Ha. codec_unfold CertificationData_codec. codec_forward.
    rewrite (sha256_hash_enc limits _ Hs), (sha256_hash_enc limits _ Ht) by done. codec_forward. by destruct a.
  - intros d a E. codec_unfold CertificationData_codec. repeat inv_ok. simpl.
    split; by eapply sha256_hash_inv.
  - intros d. codec_unfold CertificationData_codec. solve_no_panic.
Qed.
#[export] Instance CertificationData_canonical : CodecCanonical CertificationData.
Proof.
  split. intros d a E. codec_unfold CertificationData_codec. codec_inv.
  repeat match goal with H : sha256_hash_of _ = Ok _ |- _ => apply sha256_hash_inv in H as [? ?]; simpl dbytes in * end. codec_close.
Qed.

#[export] Instance InclusionCertificate_laws : CodecLaws InclusionCertificate.InclusionCertificate.
Proof.
  split.
  - intros a. codec_unfold InclusionCertificate_codec. eauto with items.
  - intros a. codec_unfold InclusionCertificate_codec. eauto with items.
  - intros limits a Hwf Ha. codec_unfold InclusionCertificate_codec. codec_forward. by apply InclusionFacts.inclusion_decode_encode.
  - intros d a E. codec_unfold InclusionCertificate_codec. repeat inv_ok. by eapply InclusionFacts.inclusion_encode_decode.
  - intros d. codec_unfold InclusionCertificate_codec. apply no_panic_bind; [auto with outcome|].
    intros. apply InclusionFacts.inclusion_decode_no_panic.
Qed.
#[export] Instance InclusionCertificate_canonical : CodecCanonical InclusionCertificate.InclusionCertificate.
Proof.
  split. intros d a E. codec_unfold InclusionCertificate_codec. codec_inv.
  apply InclusionFacts.inclusion_encode_decode in E as [-> _]. codec_close.
Qed.

#[export] Instance NonInclusionCertificate_laws : CodecLaws NonInclusionCertificate.NonInclusionCertificate.
Proof.
  split.
  - intros a. codec_unfold NonInclusionCertificate_codec. eauto with items.
  - intros a. codec_unfold NonInclusionCertificate_codec. eauto with items.
  - intros limits a Hwf Ha. codec_unfold NonInclusionCertificate_codec. codec_forward. by apply NonInclusionFacts.non_inclusion_decode_encode.
  - intros d a E. codec_unfold NonInclusionCertificate_codec. repeat inv_ok. by eapply NonInclusionFacts.non_inclusion_encode_decode.
  - intros d. codec_unfold NonInclusionCertificate_codec. apply no_panic_bind; [auto with outcome|].
    intros. apply NonInclusionFacts.non_inclusion_decode_no_panic.
Qed.
#[export] Instance NonInclusionCertificate_canonical : CodecCanonical NonInclusionCertificate.NonInclusionCertificate.
Proof.
  split. intros d a E. codec_unfold NonInclusionCertificate_codec. codec_inv.
  apply NonInclusionFacts.non_inclusion_encode_decode in E as [-> _]. codec_close.
Qed.

#[export] Instance NonInclusionProof_laws : CodecLaws NonInclusionProof.
Proof.
  split.
  - intros a. codec_unfold NonInclusionProof_codec. eauto 20 with items.
  - intros a. codec_unfold NonInclusionProof_codec. eauto 20 with items.
  - intros limits a (Hc & Hu & Hr) Ha. codec_unfold NonInclusionProof_codec. codec_forward. destruct a. simpl in *. by subst.
  - intros d a E. codec_unfold NonInclusionProof_codec. repeat inv_ok. simpl. split_and!; [by eapply from_cbor_wf..|done].
  - intros d. codec_unfold NonInclusionProof_codec. solve_no_panic.
Qed.

(** ** Inclusion proofs *)

(** The wire form of the five slots. *)
Definition parts_to_cbor (cd : option CertificationData) (rt : option u64)
    (ic : option InclusionCertificate.InclusionCertificate) (uc : bytes) : bytes :=
  encode_tag INCLUSION_PROOF_TAG (encode_array [
    encode_uint INCLUSION_PROOF_VERSION;
    encode_nullable cd to_cbor; encode_nullable rt encode_uint; encode_nullable ic to_cbor; uc]).

Definition all_or_none {A B C} (a : option A) (b : option B) (c : option C) : Prop :=
  (is_Some a /\ is_Some b /\ is_Some c) \/ (a = None /\ b = None /\ c = None).

Definition wf_opt `{Codec A} (o : option A) : Prop := forall a, o = Some a -> wf a.

Lemma nullable_codec_enc `{CodecLaws A} limits (o : option A) : wf_opt o -> accepts limits (encode_nullable o to_cbor) ->
  Decoder.nullable (with_limits (encode_nullable o to_cbor) limits) from_cbor = Ok o.
Proof.
  intros Hw. apply nullable_enc; [intros; apply to_cbor_not_null|]. intros a Ha Hb. apply from_to_cbor; [by apply Hw|done].
Qed.

Lemma nullable_codec_inv `{CodecLaws A} `{!CodecCanonical A} d (o : option A) : Decoder.nullable d from_cbor = Ok o ->
  wf_opt o /\ dbytes d = encode_nullable o to_cbor.
Proof.
  intros [[-> E]|(a & -> & E)]%nullable_inv; [by split|]. split; [intros ? [= <-]; by eapply from_cbor_wf|].
  by apply to_from_cbor in E.
Qed.

Lemma present_spec {A B C} (a : option A) (b : option B) (c : option C) :
  negb (is_some_u8 a + is_some_u8 b + is_some_u8 c =? 0) && negb (is_some_u8 a + is_some_u8 b + is_some_u8 c =? 3) = false
  <-> all_or_none a b c.
Proof.
  unfold all_or_none. destruct a, b, c; simpl; split; try done; try (by right); try (intros _; left; eauto);
    intros [(? & ? & ?)|(? & ? & ?)]; try done; by eapply is_Some_None.
Qed.

Lemma leaf_fields_enc limits cd rt ic uc : all_or_none cd rt ic -> wf_opt cd -> wf_opt ic -> is_item uc ->
  accepts limits (parts_to_cbor cd rt ic uc) ->
  leaf_fields (with_limits (parts_to_cbor cd rt ic uc) limits) = Ok (cd, rt, ic, with_limits uc limits) /\ accepts limits uc.
Proof.
  intros Hall Hcd Hic Hu Ha. unfold leaf_fields, parts_to_cbor in *.
  assert (is_item (encode_nullable cd to_cbor)) by (destruct cd; simpl; auto with items).
  assert (is_item (encode_nullable ic to_cbor)) by (destruct ic; simpl; auto with items).
  codec_forward. rewrite (nullable_codec_enc limits cd), (nullable_codec_enc limits ic) by done. codec_forward.
  rewrite (proj2 (present_spec cd rt ic) Hall). codec_forward. done.
Qed.

Lemma leaf_fields_inv d cd rt ic i4 : leaf_fields d = Ok (cd, rt, ic, i4) ->
  all_or_none cd rt ic /\ wf_opt cd /\ wf_opt ic /\ dlimits i4 = dlimits d /\ dbytes d = parts_to_cbor cd rt ic (dbytes i4).
Proof.
  unfold leaf_fields. intros E. codec_inv.
  match goal with G : negb _ && negb _ = false |- _ => apply present_spec in G end.
  repeat match goal with H : Decoder.nullable _ from_cbor = Ok _ |- _ => apply nullable_codec_inv in H as [? ?]; simpl dbytes in * end.
  split_and!; try done. unfold parts_to_cbor. symmetry. codec_close.
Qed.

Lemma leaf_fields_no_panic d : no_panic (leaf_fields d).
Proof. unfold leaf_fields. solve_no_panic. Qed.
#[export] Hint Resolve leaf_fields_no_panic : outcome.

Lemma DecodedParts_direct d : fst (DecodedParts_from_cbor d None) =
  '(cd, rt, ic, i4) ← leaf_fields d; uc ← from_cbor i4;
  Ok {| dp_certification_data := cd; dp_reference_time := rt; dp_inclusion_certificate := ic; dp_unicity_certificate := uc |}.
Proof.
  unfold DecodedParts_from_cbor. rewrite bindM_run. unfold liftM. destruct (leaf_fields d) as [[[[cd rt] ic] i4]| |]; [|done..].
  rewrite bind_Ok_l, bindM_run. unfold decode_uc, stateM. by destruct (from_cbor i4).
Qed.

#[export] Instance InclusionProof_laws : CodecLaws InclusionProof.
Proof.
  assert (forall p, to_cbor p = parts_to_cbor (Some (certification_data p)) (Some (reference_time p))
    (Some (inclusion_certificate p)) (to_cbor (unicity_certificate p))) as Eq by done.
  split.
  - intros a. codec_unfold InclusionProof_codec. eauto 20 with items.
  - intros a. codec_unfold InclusionProof_codec. eauto 20 with items.
  - intros limits a (Hc & Hi & Hu) Ha. rewrite Eq in *. codec_unfold InclusionProof_codec. rewrite DecodedParts_direct.
    destruct (leaf_fields_enc limits _ _ _ _ (or_introl (conj (ex_intro _ _ eq_refl) (conj (ex_intro _ _ eq_refl) (ex_intro _ _ eq_refl))))
      ltac:(intros ? [= <-]; exact Hc) ltac:(intros ? [= <-]; exact Hi) (to_cbor_item _) Ha) as [-> Hacc].
    rewrite bind_Ok_l, from_to_cbor by done. by destruct a.
  - intros d a E. codec_unfold InclusionProof_codec. rewrite DecodedParts_direct in E.
    apply bind_Ok in E as (parts & E & Hp). apply bind_Ok in E as ([[[cd rt] ic] i4] & Hl & E).
    apply bind_Ok in E as (uc & Hu & [= <-]). apply leaf_fields_inv in Hl as (_ & Hcd & Hic & _).
    unfold into_certified in Hp. simpl in Hp. destruct cd, rt, ic; try done. injection Hp as <-. simpl.
    split_and!; [by apply Hcd|by apply Hic|by eapply from_cbor_wf].
  - intros d. codec_unfold InclusionProof_codec. rewrite DecodedParts_direct. unfold into_certified. solve_no_panic.
Qed.

#[export] Instance InclusionProofResponse_laws : CodecLaws InclusionProofResponse.
Proof.
  split.
  - intros []; codec_unfold InclusionProofResponse_codec; cbv iota; eauto 20 with items.
  - intros []; codec_unfold InclusionProofResponse_codec; cbv iota; eauto 20 with items.
  - intros limits [n p|n uc] Hw Ha; codec_unfold InclusionProofResponse_codec; cbv iota in *.
    + codec_forward. assert (from_cbor (with_limits (to_cbor p) limits) = Ok p) as E by by apply from_to_cbor.
      codec_unfold InclusionProof_codec. apply bind_Ok in E as (parts & -> & E).
      rewrite bind_Ok_l. unfold into_certified in *. destruct (dp_certification_data parts); [|done].
      rewrite E. done.
    + codec_forward. rewrite DecodedParts_direct.
      match goal with H : accepts limits (encode_tag _ _) |- _ => rename H into Hacc end.
      destruct (leaf_fields_enc limits None None None (to_cbor uc) (or_intror (conj eq_refl (conj eq_refl eq_refl))) ltac:(done) ltac:(done) (to_cbor_item _) Hacc)
        as [E Hu]. unfold parts_to_cbor in E. cbn [encode_nullable] in E. rewrite E, bind_Ok_l, from_to_cbor by done. done.
  - intros d a E. codec_unfold InclusionProofResponse_codec. rename E into E0. repeat (apply bind_Ok in E0 as (? & ? & E0)).
    rewrite DecodedParts_direct in *.
    match goal with H : (_ ≫= _) = Ok ?p |- _ => rename H into Hparts; rename p into parts end.
    apply bind_Ok in Hparts as ([[[cd rt] ic] i4] & Hl & Hparts). apply bind_Ok in Hparts as (uc & Hu & [= <-]).
    apply leaf_fields_inv in Hl as (_ & Hcd & Hic & _). cbn [dp_certification_data dp_unicity_certificate] in E0.
    destruct cd as [cd|]; [|injection E0 as <-; by eapply from_cbor_wf].
    unfold into_certified in E0. simpl in E0. destruct rt, ic; try done. injection E0 as <-.
    split_and!; simpl; [by apply Hcd|by apply Hic|by eapply from_cbor_wf].
  - intros d. codec_unfold InclusionProofResponse_codec. unfold into_certified.
    assert (forall d, no_panic (fst (DecodedParts_from_cbor d None))) as Hp.
    { intros d'. rewrite DecodedParts_direct. solve_no_panic. }
    solve_no_panic; auto.
Qed.

(** ** Decoding through an interner *)

Lemma interned_proof_transparent limits b i : remembers (parsed limits) i ->
  fst (InclusionProof_from_cbor_interned (with_limits b limits) i) = from_cbor (with_limits b limits) /\
  remembers (parsed limits) (snd (InclusionProof_from_cbor_interned (with_limits b limits) i)).
Proof.
  intros Hi. unfold InclusionProof_from_cbor_interned, stateM. codec_unfold InclusionProof_codec. rewrite DecodedParts_direct.
  unfold DecodedParts_from_cbor. rewrite bindM_run. unfold liftM.
  destruct (leaf_fields _) as [[[[cd rt] ic] [b4 l4]]| |] eqn:E; [|done..].
  apply leaf_fields_inv in E as (_ & _ & _ & Hl & _). simpl in Hl. subst l4.
  rewrite bind_Ok_l, bindM_run. unfold decode_uc, stateM.
  destruct (decode_transparent limits i b4 Hi) as [E Hr].
  destruct (UcInterner.decode _ i) as [r i']. simpl in E, Hr. subst r.
  by destruct (from_cbor (with_limits b4 limits)).
Qed.
