(* ===== verification/Transactions.v ===== *)
(** Transactions and tokens: [src/transaction/mint.rs], [transfer.rs],
    [certified.rs], [token.rs] and the [Transaction] trait of [mod.rs].

    The lock script and source state of a transaction are never read from the
    wire: a mint derives them, and a token decodes each transfer against its
    predecessor ([token_direct_wf] in [TransactionsSpec]). *)

From S2P Require Import Prelude State Bytes Error Cbor CborSpec CborRead Hash Codec Ids Secp Predicates Bft BftCodec UcInterner Certificates Proofs.
Local Open Scope N_scope.

(** The trait; [to_cbor] is [transaction_to_cbor]. *)
Class Transaction (T : Type) : Type := {
  lock_script : T -> EncodedPredicate;
  recipient : T -> EncodedPredicate;
  source_state_hash : T -> DataHash;
  calculate_state_hash : T -> DataHash;
  expires_at : T -> option u64;
  transaction_to_cbor : T -> bytes;
}.

Definition calculate_transaction_hash `{Sha2} `{Transaction T} (t : T) : DataHash := sha256 (transaction_to_cbor t).

(** [CertificationData::from_transaction] *)
Definition CertificationData_from_transaction `{Sha2} `{Transaction T} (t : T) (unlock_script : bytes) : CertificationData :=
  {| cd_lock_script := lock_script t; cd_source_state_hash := source_state_hash t;
     cd_transaction_hash := calculate_transaction_hash t; cd_expires_at := expires_at t; unlock_script := unlock_script |}.

(** * Mint *)

Definition MINT_TRANSACTION_TAG : u64 := wrap 64 39041.
Definition MINT_TRANSACTION_VERSION : u64 := wrap 64 2.

Record MintTransaction : Type := {
  network_id : NetworkId;
  mint_recipient : EncodedPredicate;
  mint_expires_at : option u64;
  salt : TokenSalt;
  token_type : TokenType;
  justification : option bytes;
  data : option bytes;
  token_id : TokenId;
  mint_lock_script : EncodedPredicate;
  source_state : MintTransactionState;
}.

#[export] Instance MintTransaction_eq_dec : EqDecision MintTransaction.
Proof. solve_decision. Defined.

Section mint.
Context `{Sha2} `{K256}.

Definition MintTransaction_create (network_id : NetworkId) (recipient : EncodedPredicate) (token_type : TokenType)
    (salt : TokenSalt) (data justification : option bytes) (expires_at : option u64) : result MintTransaction :=
  let token_id := TokenId_derive network_id salt in
  pk ← Minter.public_key token_id;
  let lock_script := from_predicate {| sp_public_key := pk |} in
  let source_state := MintTransactionState_derive token_id in
  Ok {| network_id := network_id; mint_recipient := recipient; mint_expires_at := expires_at; salt := salt;
        token_type := token_type; justification := justification; data := data; token_id := token_id;
        mint_lock_script := lock_script; source_state := source_state |}.

#[export] Instance MintTransaction_codec : Codec MintTransaction := {|
  from_cbor d :=
    inner ← lift (Decoder.expect_tag d (val MINT_TRANSACTION_TAG));
    items ← lift (Decoder.array inner (Some 8));
    i0 ← idx items 0;
    version ← lift (Decoder.uint i0);
    if negb (val version =? val MINT_TRANSACTION_VERSION)
    then Err (UnexpectedValue "unsupported MintTransaction version") else
    i1 ← idx items 1;
    n ← uint_of 16 (OutOfRange "network id exceeds 16 bits") i1;
    network_id ← NetworkId.new n;
    i2 ← idx items 2; recipient ← from_cbor i2;
    i3 ← idx items 3; salt ← from_cbor i3;
    i4 ← idx items 4; token_type ← from_cbor i4;
    i5 ← idx items 5; justification ← opt_bytes i5;
    i6 ← idx items 6; data ← opt_bytes i6;
    i7 ← idx items 7; expires_at ← opt_uint i7;
    MintTransaction_create network_id recipient token_type salt data justification expires_at;
  to_cbor m := encode_tag MINT_TRANSACTION_TAG (encode_array [
    encode_uint MINT_TRANSACTION_VERSION;
    encode_uint (wrap 64 (val (NetworkId.id (network_id m))));
    to_cbor (mint_recipient m);
    to_cbor (salt m);
    to_cbor (token_type m);
    encode_nullable (justification m) encode_byte_string;
    encode_nullable (data m) encode_byte_string;
    encode_nullable (mint_expires_at m) encode_uint]);
  (** the derived fields are derived *)
  wf m := MintTransaction_create (network_id m) (mint_recipient m) (token_type m) (salt m) (data m)
    (justification m) (mint_expires_at m) = Ok m;
|}.

#[export] Instance MintTransaction_transaction : Transaction MintTransaction := {|
  lock_script := mint_lock_script;
  recipient := mint_recipient;
  source_state_hash m := mts_hash (source_state m);
  expires_at := mint_expires_at;
  calculate_state_hash m := sha256 (encode_array [
    encode_byte_string (DataHash.imprint (mts_hash (source_state m)));
    encode_byte_string (val (tid_bytes (token_id m)))]);
  transaction_to_cbor := to_cbor;
|}.
End mint.

(** * Transfer *)

Definition TRANSFER_TRANSACTION_TAG : u64 := wrap 64 39045.
Definition TRANSFER_TRANSACTION_VERSION : u64 := wrap 64 2.

Record TransferTransaction : Type := {
  transfer_source_state_hash : DataHash;
  transfer_lock_script : EncodedPredicate;
  transfer_recipient : EncodedPredicate;
  transfer_expires_at : option u64;
  state_mask : bytes;
  transfer_data : option bytes;
}.

#[export] Instance TransferTransaction_eq_dec : EqDecision TransferTransaction.
Proof. solve_decision. Defined.

Definition TransferTransaction_from_cbor (d : Decoder) (source_state_hash : DataHash) (lock_script : EncodedPredicate)
    : result TransferTransaction :=
  inner ← lift (Decoder.expect_tag d (val TRANSFER_TRANSACTION_TAG));
  items ← lift (Decoder.array inner (Some 5));
  i0 ← idx items 0;
  version ← lift (Decoder.uint i0);
  if negb (val version =? val TRANSFER_TRANSACTION_VERSION)
  then Err (UnexpectedValue "unsupported TransferTransaction version") else
  i1 ← idx items 1; recipient ← from_cbor i1;
  i2 ← idx items 2; state_mask ← lift (Decoder.bytes_value i2);
  i3 ← idx items 3; data ← opt_bytes i3;
  i4 ← idx items 4; expires_at ← opt_uint i4;
  Ok {| transfer_source_state_hash := source_state_hash; transfer_lock_script := lock_script;
        transfer_recipient := recipient; transfer_expires_at := expires_at; state_mask := state_mask;
        transfer_data := data |}.

#[export] Instance TransferTransaction_transaction `{Sha2} : Transaction TransferTransaction := {|
  lock_script := transfer_lock_script;
  recipient := transfer_recipient;
  source_state_hash := transfer_source_state_hash;
  expires_at := transfer_expires_at;
  calculate_state_hash t := sha256 (encode_array [
    encode_byte_string (DataHash.imprint (transfer_source_state_hash t));
    encode_byte_string (state_mask t)]);
  transaction_to_cbor t := encode_tag TRANSFER_TRANSACTION_TAG (encode_array [
    encode_uint TRANSFER_TRANSACTION_VERSION;
    to_cbor (transfer_recipient t);
    encode_byte_string (state_mask t);
    encode_nullable (transfer_data t) encode_byte_string;
    encode_nullable (transfer_expires_at t) encode_uint]);
|}.

(** * Certified transactions *)

Record CertifiedMintTransaction : Type := {
  cm_transaction : MintTransaction; cm_inclusion_proof : InclusionProof }.
Record CertifiedTransferTransaction : Type := {
  ct_transaction : TransferTransaction; ct_inclusion_proof : InclusionProof }.

Section certified.
Context `{Sha2} `{K256}.

#[export] Instance CertifiedMint_codec : Codec CertifiedMintTransaction := {|
  from_cbor d :=
    items ← lift (Decoder.array d (Some 2));
    i0 ← idx items 0; transaction ← from_cbor i0;
    i1 ← idx items 1; proof ← from_cbor i1;
    Ok {| cm_transaction := transaction; cm_inclusion_proof := proof |};
  to_cbor c := encode_array [to_cbor (cm_transaction c); to_cbor (cm_inclusion_proof c)];
  wf c := wf (cm_transaction c) /\ wf (cm_inclusion_proof c);
|}.

Abbreviation InternedM := (M UcInterner Error).

Definition CertifiedMint_from_cbor_interned (d : Decoder) : InternedM CertifiedMintTransaction :=
  items ← liftM (lift (Decoder.array d (Some 2)));
  i0 ← liftM (idx items 0); transaction ← liftM (from_cbor i0);
  i1 ← liftM (idx items 1); proof ← InclusionProof_from_cbor_interned i1;
  mret {| cm_transaction := transaction; cm_inclusion_proof := proof |}.

Definition CertifiedTransfer_from_cbor (d : Decoder) (source_state_hash : DataHash) (lock_script : EncodedPredicate)
    : result CertifiedTransferTransaction :=
  items ← lift (Decoder.array d (Some 2));
  i0 ← idx items 0; transaction ← TransferTransaction_from_cbor i0 source_state_hash lock_script;
  i1 ← idx items 1; proof ← from_cbor i1;
  Ok {| ct_transaction := transaction; ct_inclusion_proof := proof |}.

Definition CertifiedTransfer_from_cbor_interned (d : Decoder) (source_state_hash : DataHash) (lock_script : EncodedPredicate)
    : InternedM CertifiedTransferTransaction :=
  items ← liftM (lift (Decoder.array d (Some 2)));
  i0 ← liftM (idx items 0); transaction ← liftM (TransferTransaction_from_cbor i0 source_state_hash lock_script);
  i1 ← liftM (idx items 1); proof ← InclusionProof_from_cbor_interned i1;
  mret {| ct_transaction := transaction; ct_inclusion_proof := proof |}.

Definition CertifiedTransfer_to_cbor (c : CertifiedTransferTransaction) : bytes :=
  encode_array [transaction_to_cbor (ct_transaction c); to_cbor (ct_inclusion_proof c)].

Definition result_state_hash (c : CertifiedTransferTransaction) : DataHash := calculate_state_hash (ct_transaction c).
Definition genesis_result_state_hash (c : CertifiedMintTransaction) : DataHash := calculate_state_hash (cm_transaction c).

End certified.

(** * Tokens *)

Definition TOKEN_TAG : u64 := wrap 64 39040.
Definition TOKEN_VERSION : N := 2.

Record Token : Type := {
  genesis : CertifiedMintTransaction;
  transactions : list CertifiedTransferTransaction;
}.

Section token.
Context `{Sha2} `{K256}.

Definition latest_state (self : Token) : DataHash * EncodedPredicate :=
  match last (transactions self) with
  | Some t => (result_state_hash t, recipient (ct_transaction t))
  | None => (genesis_result_state_hash (genesis self), recipient (cm_transaction (genesis self)))
  end.

(** The loop over the transfers. *)
Fixpoint transfers_interned (ds : list Decoder) (prev_state_hash : DataHash) (prev_lock_script : EncodedPredicate)
    : M UcInterner Error (list CertifiedTransferTransaction) :=
  match ds with
  | [] => mret []
  | t :: ds =>
      ct ← CertifiedTransfer_from_cbor_interned t prev_state_hash prev_lock_script;
      rest ← transfers_interned ds (result_state_hash ct) (recipient (ct_transaction ct));
      mret (ct :: rest)
  end.

Definition Token_from_cbor_interned (b : bytes) (limits : DecodeLimits) : M UcInterner Error Token :=
  let d := with_limits b limits in
  _ ← liftM (lift (Decoder.finish d));
  inner ← liftM (lift (Decoder.expect_tag d (val TOKEN_TAG)));
  items ← liftM (lift (Decoder.array inner (Some 3)));
  i0 ← liftM (idx items 0);
  version ← liftM (lift (Decoder.uint i0));
  if negb (val version =? TOKEN_VERSION) then liftM (Err (UnexpectedValue "unsupported Token version")) else
  i1 ← liftM (idx items 1);
  genesis ← CertifiedMint_from_cbor_interned i1;
  i2 ← liftM (idx items 2);
  ts ← liftM (lift (Decoder.array i2 None));
  transactions ← transfers_interned ts (genesis_result_state_hash genesis) (recipient (cm_transaction genesis));
  mret {| genesis := genesis; transactions := transactions |}.

Definition Token_from_cbor_with_limits (b : bytes) (limits : DecodeLimits) : result Token :=
  fst (Token_from_cbor_interned b limits UcInterner.new).
Definition Token_from_cbor (b : bytes) : result Token := Token_from_cbor_with_limits b DecodeLimits_DEFAULT.

(** [from_cbor_stats] *)
Definition Token_from_cbor_stats (b : bytes) : result (Token * DecodeStats) :=
  let '(r, interner) := Token_from_cbor_interned b DecodeLimits_DEFAULT UcInterner.new in
  token ← r;
  Ok (token, UcInterner.stats interner).

Definition Token_to_cbor (self : Token) : bytes :=
  let transfers := CertifiedTransfer_to_cbor <$> transactions self in
  encode_tag TOKEN_TAG (encode_array [
    encode_uint (wrap 64 TOKEN_VERSION); to_cbor (genesis self); encode_array transfers]).

Definition Token_id (self : Token) : TokenId := token_id (cm_transaction (genesis self)).

End token.
