(* ===== verification/TransactionsSpec.v ===== *)
(** The wire laws of [Transactions], and what decoding a token establishes:
    every transfer spends the state its predecessor produced. *)

From S2P Require Import Prelude State Bytes Error Cbor CborSpec CborRead Hash Codec Ids Secp Predicates Bft BftCodec UcInterner Certificates Proofs Transactions.
Local Open Scope N_scope.

Section mint.
Context `{Sha2} `{K256}.

Lemma MintTransaction_create_inv n r t s da j e m : MintTransaction_create n r t s da j e = Ok m ->
  network_id m = n /\ mint_recipient m = r /\ token_type m = t /\ salt m = s /\ data m = da /\
  justification m = j /\ mint_expires_at m = e.
Proof. unfold MintTransaction_create. by intros (pk & _ & [= <-])%bind_Ok. Qed.

Lemma MintTransaction_create_no_panic n r t s da j e : no_panic (MintTransaction_create n r t s da j e).
Proof. unfold MintTransaction_create. solve_no_panic. Qed.
#[local] Hint Resolve MintTransaction_create_no_panic : outcome.

#[export] Instance MintTransaction_laws : CodecLaws MintTransaction.
Proof.
  split.
  - intros a. codec_unfold MintTransaction_codec. eauto 20 with items.
  - intros a. codec_unfold MintTransaction_codec. eauto 20 with items.
  - intros limits a Hwf Ha. codec_unfold MintTransaction_codec. codec_forward.
    rewrite (proj2 (NetworkId.new_Ok _ (network_id a)) eq_refl). codec_forward. exact Hwf.
  - intros d a E. codec_unfold MintTransaction_codec. repeat inv_ok.
    pose proof E as (-> & -> & -> & -> & -> & -> & ->)%MintTransaction_create_inv. exact E.
  - intros d. codec_unfold MintTransaction_codec. solve_no_panic.
Qed.
#[export] Instance MintTransaction_canonical : CodecCanonical MintTransaction.
Proof.
  split. intros d a E. codec_unfold MintTransaction_codec. codec_inv.
  match goal with H : NetworkId.new _ = Ok _ |- _ => apply NetworkId.new_Ok in H as <- end.
  apply MintTransaction_create_inv in E as (-> & -> & -> & -> & -> & -> & ->). codec_close.
Qed.

(** A decoded mint is locked to the minter of its own token id. *)
Theorem mint_derived (m : MintTransaction) : wf m ->
  token_id m = TokenId_derive (network_id m) (salt m) /\
  source_state m = MintTransactionState_derive (token_id m) /\
  exists pk, Minter.public_key (token_id m) = Ok pk /\ mint_lock_script m = from_predicate {| sp_public_key := pk |}.
Proof.
  intros Hw. codec_unfold MintTransaction_codec. unfold MintTransaction_create in Hw.
  apply bind_Ok in Hw as (pk & Hpk & E). injection E as E.
  pose proof (f_equal token_id E) as Ht. pose proof (f_equal mint_lock_script E) as Hl. pose proof (f_equal source_state E) as Hs.
  cbn [token_id mint_lock_script source_state] in Ht, Hl, Hs. rewrite Ht in *. split_and!; [done|done|]. by exists pk.
Qed.
End mint.

(** * Transfers *)

Section transfer.
Context `{Sha2} `{K256}.

Lemma transfer_item (t : TransferTransaction) : is_item (transaction_to_cbor t).
Proof. simpl. eauto 20 with items. Qed.

Lemma transfer_enc limits t : accepts limits (transaction_to_cbor t) ->
  TransferTransaction_from_cbor (with_limits (transaction_to_cbor t) limits) (transfer_source_state_hash t) (transfer_lock_script t) = Ok t.
Proof. intros Ha. simpl in *. unfold TransferTransaction_from_cbor. codec_forward. by destruct t. Qed.

Lemma transfer_inv d h l t : TransferTransaction_from_cbor d h l = Ok t ->
  transfer_source_state_hash t = h /\ transfer_lock_script t = l /\ transaction_to_cbor t = dbytes d.
Proof. unfold TransferTransaction_from_cbor. intros E. codec_inv. split_and!; [done..|]. codec_close. Qed.

Lemma transfer_no_panic d h l : no_panic (TransferTransaction_from_cbor d h l).
Proof. unfold TransferTransaction_from_cbor. solve_no_panic. Qed.
#[local] Hint Resolve transfer_no_panic : outcome.

#[export] Instance CertifiedMint_laws : CodecLaws CertifiedMintTransaction.
Proof.
  split.
  - intros a. codec_unfold CertifiedMint_codec. eauto 20 with items.
  - intros a. codec_unfold CertifiedMint_codec. eauto 20 with items.
  - intros limits a [Hm Hp] Ha. codec_unfold CertifiedMint_codec. codec_forward. by destruct a.
  - intros d a E. codec_unfold CertifiedMint_codec. repeat inv_ok. simpl. split; by eapply from_cbor_wf.
  - intros d. codec_unfold CertifiedMint_codec. solve_no_panic.
Qed.

Lemma certified_transfer_item c : is_item (CertifiedTransfer_to_cbor c).
Proof. unfold CertifiedTransfer_to_cbor. pose proof (transfer_item (ct_transaction c)). eauto 20 with items. Qed.

Lemma certified_transfer_enc limits c : wf (ct_inclusion_proof c) -> accepts limits (CertifiedTransfer_to_cbor c) ->
  CertifiedTransfer_from_cbor (with_limits (CertifiedTransfer_to_cbor c) limits)
    (transfer_source_state_hash (ct_transaction c)) (transfer_lock_script (ct_transaction c)) = Ok c.
Proof.
  intros Hw Ha. unfold CertifiedTransfer_from_cbor, CertifiedTransfer_to_cbor in *.
  pose proof (transfer_item (ct_transaction c)). codec_forward. rewrite transfer_enc by done. codec_forward. by destruct c.
Qed.

Lemma certified_transfer_inv d h l c : CertifiedTransfer_from_cbor d h l = Ok c ->
  transfer_source_state_hash (ct_transaction c) = h /\ transfer_lock_script (ct_transaction c) = l /\ wf (ct_inclusion_proof c).
Proof.
  unfold CertifiedTransfer_from_cbor. intros E. repeat inv_ok. simpl.
  match goal with H : TransferTransaction_from_cbor _ _ _ = Ok _ |- _ => apply transfer_inv in H as (-> & -> & _) end.
  split_and!; [done..|]. by eapply from_cbor_wf.
Qed.

Lemma certified_transfer_no_panic d h l : no_panic (CertifiedTransfer_from_cbor d h l).
Proof. unfold CertifiedTransfer_from_cbor. solve_no_panic. Qed.

End transfer.
#[export] Hint Resolve certified_transfer_no_panic : outcome.

(** * Tokens *)

Section token.
Context `{Sha2} `{K256}.

(** The decoding of a token without an interner. *)
Fixpoint transfers_direct (ds : list Decoder) (h : DataHash) (l : EncodedPredicate) : result (list CertifiedTransferTransaction) :=
  match ds with
  | [] => Ok []
  | t :: ds =>
      ct ← CertifiedTransfer_from_cbor t h l;
      rest ← transfers_direct ds (result_state_hash ct) (recipient (ct_transaction ct));
      Ok (ct :: rest)
  end.

Definition token_direct (b : bytes) (limits : DecodeLimits) : result Token :=
  let d := with_limits b limits in
  _ ← lift (Decoder.finish d);
  inner ← lift (Decoder.expect_tag d (val TOKEN_TAG));
  items ← lift (Decoder.array inner (Some 3));
  i0 ← idx items 0;
  version ← lift (Decoder.uint i0);
  if negb (val version =? TOKEN_VERSION) then Err (UnexpectedValue "unsupported Token version") else
  i1 ← idx items 1; genesis ← from_cbor i1;
  i2 ← idx items 2; ts ← lift (Decoder.array i2 None);
  transactions ← transfers_direct ts (genesis_result_state_hash genesis) (recipient (cm_transaction genesis));
  Ok {| genesis := genesis; transactions := transactions |}.

(** ** The interner is transparent *)

(** [m] answers as [r] does and keeps the interner sound for [limits]. *)
Definition agrees {A} (limits : DecodeLimits) (m : M UcInterner Error A) (r : result A) : Prop :=
  forall i, remembers (parsed limits) i -> fst (m i) = r /\ remembers (parsed limits) (snd (m i)).

Lemma agrees_lift {A} limits (r : result A) : agrees limits (liftM r) r.
Proof. by intros i. Qed.

Lemma agrees_ret {A} limits (a : A) : agrees limits (mret a) (Ok a).
Proof. by intros i. Qed.

Lemma agrees_bind {A B} limits (m : M UcInterner Error A) (r : result A) (k : A -> M UcInterner Error B) (kr : A -> result B) :
  agrees limits m r -> (forall a, r = Ok a -> agrees limits (k a) (kr a)) -> agrees limits (m ≫= k) (r ≫= kr).
Proof.
  intros Hm Hk i Hi. rewrite bindM_run. destruct (Hm i Hi) as [E Hr]. destruct (m i) as [r' i']. simpl in E, Hr. subst r'.
  destruct r as [a|e|]; [|done..]. rewrite bind_Ok_l. by apply Hk.
Qed.

Lemma agrees_proof limits d : dlimits d = limits -> agrees limits (InclusionProof_from_cbor_interned d) (from_cbor d).
Proof. intros <- i Hi. destruct d as [b limits]. by apply interned_proof_transparent. Qed.

Lemma idx_array_limits d n ds k i : lift (Decoder.array d n) = Ok ds -> idx ds k = Ok i -> dlimits i = dlimits d.
Proof.
  intros (bs & -> & _)%lift_Ok%array_inv Hi. unfold idx, children in Hi. rewrite list_lookup_fmap in Hi.
  destruct (bs !! k); [|done]. by injection Hi as <-.
Qed.

Lemma agrees_genesis limits d : dlimits d = limits -> agrees limits (CertifiedMint_from_cbor_interned d) (from_cbor d).
Proof.
  intros Hd. codec_unfold CertifiedMint_codec. unfold CertifiedMint_from_cbor_interned.
  apply agrees_bind; [apply agrees_lift|]. intros items Hitems. do 3 (apply agrees_bind; [apply agrees_lift|]; intros).
  apply agrees_bind; [|intros; apply agrees_ret]. apply agrees_proof. rewrite <- Hd. by eapply idx_array_limits.
Qed.

Lemma agrees_transfer limits d h l : dlimits d = limits ->
  agrees limits (CertifiedTransfer_from_cbor_interned d h l) (CertifiedTransfer_from_cbor d h l).
Proof.
  intros Hd. unfold CertifiedTransfer_from_cbor_interned, CertifiedTransfer_from_cbor.
  apply agrees_bind; [apply agrees_lift|]. intros items Hitems. do 3 (apply agrees_bind; [apply agrees_lift|]; intros).
  apply agrees_bind; [|intros; apply agrees_ret]. apply agrees_proof. rewrite <- Hd. by eapply idx_array_limits.
Qed.

Lemma agrees_transfers limits ds : Forall (fun d => dlimits d = limits) ds -> forall h l,
  agrees limits (transfers_interned ds h l) (transfers_direct ds h l).
Proof.
  induction 1 as [|d ds Hd _ IH]; intros h l; cbn [transfers_interned transfers_direct]; [apply agrees_ret|].
  apply agrees_bind; [by apply agrees_transfer|]. intros. apply agrees_bind; [apply IH|]. intros. apply agrees_ret.
Qed.

Lemma array_dlimits d n ds : lift (Decoder.array d n) = Ok ds -> Forall (fun x => dlimits x = dlimits d) ds.
Proof. intros (bs & -> & _)%lift_Ok%array_inv. by apply Forall_fmap, Forall_true. Qed.

Lemma agrees_token b limits : agrees limits (Token_from_cbor_interned b limits) (token_direct b limits).
Proof.
  unfold Token_from_cbor_interned, token_direct. apply agrees_bind; [apply agrees_lift|]. intros _ _.
  apply agrees_bind; [apply agrees_lift|]. intros inner Hi. apply lift_Ok, expect_tag_inv in Hi as (Hl & _). simpl in Hl.
  apply agrees_bind; [apply agrees_lift|]. intros items Hitems. do 2 (apply agrees_bind; [apply agrees_lift|]; intros).
  case_match; [apply agrees_lift|]. apply agrees_bind; [apply agrees_lift|]. intros i1 Hi1.
  apply agrees_bind; [apply agrees_genesis; rewrite <- Hl; by eapply idx_array_limits|]. intros g Hg.
  apply agrees_bind; [apply agrees_lift|]. intros i2 Hi2. apply agrees_bind; [apply agrees_lift|]. intros ts Hts.
  apply agrees_bind; [|intros; apply agrees_ret]. apply agrees_transfers.
  apply (idx_array_limits _ _ _ _ _ Hitems) in Hi2. rewrite <- Hl, <- Hi2. by eapply array_dlimits.
Qed.

Lemma Token_from_cbor_direct b limits : Token_from_cbor_with_limits b limits = token_direct b limits.
Proof. unfold Token_from_cbor_with_limits. apply (agrees_token b limits UcInterner.new), remembers_new. Qed.

(** ** Linkage and the round trip *)

(** Every transfer spends the state its predecessor produced and is locked by
    the predicate the predecessor named. *)
Fixpoint linked (h : DataHash) (l : EncodedPredicate) (ts : list CertifiedTransferTransaction) : Prop :=
  match ts with
  | [] => True
  | t :: ts => source_state_hash (ct_transaction t) = h /\ lock_script (ct_transaction t) = l /\
      linked (result_state_hash t) (recipient (ct_transaction t)) ts
  end.

Definition token_wf (t : Token) : Prop :=
  wf (genesis t) /\
  linked (genesis_result_state_hash (genesis t)) (recipient (cm_transaction (genesis t))) (transactions t) /\
  Forall (fun c => wf (ct_inclusion_proof c)) (transactions t).

Lemma transfers_direct_inv ds : forall h l ts, transfers_direct ds h l = Ok ts ->
  linked h l ts /\ Forall (fun c => wf (ct_inclusion_proof c)) ts.
Proof.
  induction ds as [|d ds IH]; intros h l ts; cbn [transfers_direct]; [by intros [= <-]|].
  intros (ct & Hct & E)%bind_Ok. apply bind_Ok in E as (rest & Hr & [= <-]).
  apply certified_transfer_inv in Hct as (Hh & Hl & Hw). apply IH in Hr as [Hlk Hf]. split; [|by constructor]. by split_and!.
Qed.

Lemma token_direct_wf b limits t : token_direct b limits = Ok t -> token_wf t.
Proof.
  unfold token_direct. intros E. repeat inv_ok.
  match goal with H : transfers_direct _ _ _ = Ok _ |- _ => apply transfers_direct_inv in H as [? ?] end.
  split_and!; simpl; [by eapply from_cbor_wf|done..].
Qed.

Lemma transfers_direct_enc limits ts : forall h l, linked h l ts -> Forall (fun c => wf (ct_inclusion_proof c)) ts ->
  Forall (fun b => accepts limits b) (CertifiedTransfer_to_cbor <$> ts) ->
  transfers_direct (children limits (CertifiedTransfer_to_cbor <$> ts)) h l = Ok ts.
Proof.
  induction ts as [|t ts IH]; intros h l; [done|]. intros (Hh & Hl & Hlk) Hw Ha. csimpl in *.
  apply Forall_cons in Hw as [Hw Hws], Ha as [Ha Has].
  assert (CertifiedTransfer_from_cbor (with_limits (CertifiedTransfer_to_cbor t) limits) h l = Ok t) as E.
  { rewrite <- Hh, <- Hl. by apply certified_transfer_enc. }
  cbn [transfers_direct]. rewrite E, bind_Ok_l. unfold children in IH. by rewrite IH.
Qed.

Lemma token_item t : is_item (Token_to_cbor t).
Proof.
  unfold Token_to_cbor. pose proof (is_item_mapped CertifiedTransfer_to_cbor (transactions t) certified_transfer_item).
  eauto 20 with items.
Qed.

Lemma token_round_trip limits t : token_wf t -> accepts limits (Token_to_cbor t) ->
  Token_from_cbor_with_limits (Token_to_cbor t) limits = Ok t.
Proof.
  intros (Hg & Hl & Hp) Ha. rewrite Token_from_cbor_direct. unfold token_direct. rewrite Ha. cbn [lift map_err].
  rewrite bind_Ok_l. unfold Token_to_cbor in *.
  pose proof (is_item_mapped CertifiedTransfer_to_cbor (transactions t) certified_transfer_item).
  codec_forward. rewrite transfers_direct_enc by done. by destruct t.
Qed.

Lemma transfers_direct_no_panic ds : forall h l, no_panic (transfers_direct ds h l).
Proof.
  induction ds as [|d ds IH]; intros h l; cbn [transfers_direct]; [done|].
  apply no_panic_bind; [auto with outcome|]. intros. by apply no_panic_bind.
Qed.

Lemma token_no_panic b limits : no_panic (Token_from_cbor_with_limits b limits).
Proof.
  rewrite Token_from_cbor_direct. unfold token_direct. pose proof transfers_direct_no_panic. solve_no_panic; auto.
Qed.

(** The state a new transfer must spend is the end of the chain. *)
Lemma linked_snoc h l ts t : linked h l (ts ++ [t]) <->
  linked h l ts /\
  source_state_hash (ct_transaction t) = match last ts with Some p => result_state_hash p | None => h end /\
  lock_script (ct_transaction t) = match last ts with Some p => recipient (ct_transaction p) | None => l end.
Proof.
  revert h l. induction ts as [|p ts IH]; intros h l; [simpl; tauto|]. cbn [app linked]. rewrite IH.
  destruct ts as [|q ts]; [simpl; tauto|]. rewrite (last_cons_cons p q). destruct (last (q :: ts)) eqn:E; [tauto|]. by apply last_None in E.
Qed.

(** C35. A well-formed token extended by a transfer is well formed exactly when
    the transfer spends the state and the predicate the token's latest state
    names and carries a well-formed proof. *)
Theorem latest_state_extends g ts t : token_wf {| genesis := g; transactions := ts |} ->
  token_wf {| genesis := g; transactions := ts ++ [t] |} <->
  (source_state_hash (ct_transaction t), lock_script (ct_transaction t)) =
    latest_state {| genesis := g; transactions := ts |} /\ wf (ct_inclusion_proof t).
Proof.
  intros (Hg & Hl & Hp). unfold token_wf, latest_state. cbn [genesis transactions] in *.
  rewrite linked_snoc, Forall_app, Forall_singleton. destruct (last ts); naive_solver congruence.
Qed.
End token.
