(* ===== verification/Verify.v ===== *)
(** The verification engine: [src/verify/mod.rs], [context.rs],
    [mint_justification.rs] and [ni_context.rs].

    A verifier of the registry may re-enter verification through
    [verify_embedded_token]. The recursion is bounded by the context's embedded
    depth: [verify_token_in_context] takes it as fuel, and
    [TokenSpec.verify_token_total] shows that the fuel of the entry points is enough. *)

From S2P Require Import Prelude State Bytes Error Cbor CborSpec CborRead Hash Codec Ids Secp Predicates ShardId Bft BftCodec UcInterner Certificates VerificationError TrustBase FifoIndex Seal Proofs Transactions.
Local Open Scope N_scope.

Definition AGGREGATION_PARTITION_ID : u32 := wrap 32 7.

(** * Context *)

Record VerificationLimits : Type := {
  decode_limits : DecodeLimits;
  max_embedded_token_depth : u64;
  max_total_embedded_token_bytes : u64;
  max_token_transfers : u64;
}.

Definition VerificationLimits_DEFAULT : VerificationLimits := {|
  decode_limits := DecodeLimits_DEFAULT;
  max_embedded_token_depth := wrap 64 32;
  max_total_embedded_token_bytes := wrap 64 (16 * 1024 * 1024);
  max_token_transfers := wrap 64 4096;
|}.

Record VerificationPolicy : Type := { limits : VerificationLimits; require_token_data_verifier : bool }.

(** The registry is an argument of the verifiers instead of a field, and the
    trust base is the session's. *)
Record VerificationContext `{K256} : Type := {
  policy : VerificationPolicy;
  seals : SealSession;
  interner : UcInterner;
  embedded_token_depth : N;
  total_embedded_token_bytes : N;
}.

Abbreviation ContextM := (M VerificationContext VerificationError).

Section context.
Context `{K256}.

Definition set_seals (s : SealSession) (c : VerificationContext) : VerificationContext :=
  {| policy := policy c; seals := s; interner := interner c; embedded_token_depth := embedded_token_depth c;
     total_embedded_token_bytes := total_embedded_token_bytes c |}.
Definition set_interner (i : UcInterner) (c : VerificationContext) : VerificationContext :=
  {| policy := policy c; seals := seals c; interner := i; embedded_token_depth := embedded_token_depth c;
     total_embedded_token_bytes := total_embedded_token_bytes c |}.
Definition set_embedded (depth total : N) (c : VerificationContext) : VerificationContext :=
  {| policy := policy c; seals := seals c; interner := interner c; embedded_token_depth := depth;
     total_embedded_token_bytes := total |}.

Definition context_trust_base (c : VerificationContext) : RootTrustBase := trust_base (seals c).

(** [context.seals()], [context.interner()] *)
Definition on_seals {A} (m : M SealSession VerificationError A) : ContextM A := zoom seals set_seals m.
Definition on_interner {A} (m : M UcInterner VerificationError A) : ContextM A := zoom interner set_interner m.

Definition start_context (s : SealSession) (i : UcInterner) (policy : VerificationPolicy) : VerificationContext :=
  {| policy := policy; seals := s; interner := i; embedded_token_depth := 0; total_embedded_token_bytes := 0 |}.

Definition with_memo_capacity {E} (tb : RootTrustBase) (policy : VerificationPolicy) (capacity : usize) : outcome E VerificationContext :=
  seals ← with_capacity_session tb capacity;
  interner ← UcInterner.with_capacity capacity;
  Ok (start_context seals interner policy).

Definition with_session (s : SealSession) (policy : VerificationPolicy) : VerificationContext :=
  start_context s UcInterner.new policy.

(** [verify_embedded_token], given [verify_token_in_context]. *)
Definition verify_embedded_token (verify_token_in_context : Token -> ContextM unit) (token : Token) (encoded_len : N)
    : ContextM unit := stateM (fun self =>
  if embedded_token_depth self =? val (max_embedded_token_depth (limits (policy self)))
  then (Err (VerificationLimitExceeded "embedded token depth"), self) else
  match checked_add (total_embedded_token_bytes self) encoded_len with
  | None => (Err (VerificationLimitExceeded "embedded token bytes"), self)
  | Some total =>
      if val (max_total_embedded_token_bytes (limits (policy self))) <? total
      then (Err (VerificationLimitExceeded "embedded token bytes"), self) else
      let self := set_embedded (embedded_token_depth self + 1) total self in
      let '(result, self) := verify_token_in_context token self in
      (result, set_embedded (embedded_token_depth self - 1) (total_embedded_token_bytes self) self)
  end).
End context.

(** * Pluggable verifiers *)

(** What a verifier may call back: [context.verify_embedded_token]. *)
Definition Embedded `{K256} : Type := Token -> N -> ContextM unit.

Record MintJustificationVerifier `{K256} : Type := {
  mj_tag : u64;
  mj_verify : Embedded -> CertifiedMintTransaction -> ContextM unit;
}.
Record TokenDataVerifier `{K256} : Type := {
  td_token_type : TokenType;
  td_verify : Embedded -> CertifiedMintTransaction -> ContextM unit;
}.

(** The two [BTreeMap]s; keys are unique ([register]). *)
Record MintJustificationRegistry `{K256} : Type := {
  verifiers : list (u64 * MintJustificationVerifier);
  data_verifiers : list (bytes * TokenDataVerifier);
}.

(** [map.get(k)] *)
Definition map_get {A} `{EqDecision A} {B} (m : list (A * B)) (k : A) : option B :=
  (fun e => snd (snd e)) <$> list_find (fun e => fst e = k) m.

Section registry.
Context `{K256}.

Definition empty_registry : MintJustificationRegistry := {| verifiers := []; data_verifiers := [] |}.

Definition register (self : MintJustificationRegistry) (v : MintJustificationVerifier) : result MintJustificationRegistry :=
  match map_get (verifiers self) (mj_tag v) with
  | Some _ => Err (UnexpectedValue "duplicate mint justification verifier tag")
  | None => Ok {| verifiers := (mj_tag v, v) :: verifiers self; data_verifiers := data_verifiers self |}
  end.

Definition register_token_data (self : MintJustificationRegistry) (v : TokenDataVerifier) : result MintJustificationRegistry :=
  match map_get (data_verifiers self) (type_bytes (td_token_type v)) with
  | Some _ => Err (UnexpectedValue "duplicate token data verifier for token type")
  | None => Ok {| verifiers := verifiers self; data_verifiers := (type_bytes (td_token_type v), v) :: data_verifiers self |}
  end.

(** [MintJustificationRegistry::verify_genesis] *)
Definition registry_verify_genesis (self : MintJustificationRegistry) (embedded : Embedded)
    (genesis : CertifiedMintTransaction) : ContextM unit :=
  match justification (cm_transaction genesis) with
  | None => mret tt
  | Some b =>
      context ← get;
      '(t, _) ← liftM (map_err (fun _ => UnsupportedMintJustification)
        (Decoder.tag (with_limits b (decode_limits (limits (policy context))))));
      verifier ← liftM (ok_or UnsupportedMintJustification (map_get (verifiers self) t));
      mj_verify verifier embedded genesis
  end.

Definition registry_verify_token_data (self : MintJustificationRegistry) (embedded : Embedded)
    (genesis : CertifiedMintTransaction) : ContextM unit :=
  match data (cm_transaction genesis) with
  | None => mret tt
  | Some b =>
      context ← get;
      if val (max_input_bytes (decode_limits (limits (policy context)))) <? len b
      then liftM (Err (VerificationLimitExceeded "token data bytes")) else
      match map_get (data_verifiers self) (type_bytes (token_type (cm_transaction genesis))) with
      | Some verifier => td_verify verifier embedded genesis
      | None => if require_token_data_verifier (policy context) then liftM (Err UnsupportedTokenData) else mret tt
      end
  end.
End registry.

(** * Inclusion proofs *)

Section verify.
Context `{Sha2} `{K256}.

Definition verify_predicate (lock_script : EncodedPredicate) (_reference_time : u64)
    (source_state_hash transaction_hash : DataHash) (unlock_script : bytes) : verdict unit :=
  predicate ← map_err (fun _ => NotAuthenticated) (SignaturePredicate_from_encoded lock_script);
  if verify_signature_unlock (sp_public_key predicate) source_state_hash transaction_hash unlock_script
  then Ok tt else Err NotAuthenticated.

Definition verify_unicity_certificate (uc : UnicityCertificate) (policy : arr 32) : SessionM unit :=
  if negb (bool_decide (partition_identifier (unicity_tree_certificate uc) = AGGREGATION_PARTITION_ID))
  then liftM (Err PartitionMismatch) else
  hit ← body_verified uc policy;
  if hit : bool then mret tt else
  _ ← note_body_check;
  let seal := unicity_seal uc in
  _ ← liftM (map_err (fun _ => CertificateBodyInvalid) (check_body uc));
  _ ← liftM (check_seal_shape seal);
  self ← get;
  if negb (bool_decide (seal_network_id seal = tb_network_id (trust_base self)))
  then liftM (Err SealNetworkMismatch) else
  computed ← liftM (map_err (fun _ => SealRootMismatch) (computed_seal_hash uc));
  if negb (bool_decide (DataHash.data computed = seal_hash seal)) then liftM (Err SealRootMismatch) else
  _ ← verify_quorum_under seal policy;
  remember_body uc policy.

(** The checks of [verify_membership_under] before the certificate: what they
    read is the proof alone. *)
Definition membership_checks (proof : InclusionProof) (state_id : StateId) (ref_time : u64) : verdict unit :=
  let cd := certification_data proof in
  let ir := input_record (unicity_certificate proof) in
  if negb (bool_decide (StateId_derive (cd_lock_script cd) (cd_source_state_hash cd) = state_id))
  then Err CertificationDataMismatch else
  _ ← (match cd_expires_at cd with
       | Some e => if val e <=? val ref_time then Err RequestExpired else Ok tt
       | None => Ok tt
       end);
  o ← map_err (fun _ => PathInvalid) (root_hash ir);
  root ← ok_or PathInvalid o;
  expected_root ← map_err (fun _ => PathInvalid) (DataHash.new Sha256 (val (root : arr 32)));
  if negb (val (reference_time proof) =? val ref_time) then Err ReferenceTimeMismatch else
  if val (timestamp ir) <? val ref_time then Err ReferenceTimeAfterRound else
  let leaf_value := calculate_leaf_value (cd_transaction_hash cd) ref_time in
  if negb (InclusionCertificate.verify (inclusion_certificate proof) state_id leaf_value expected_root) then Err PathInvalid else
  let shard := shard (shard_tree_certificate (unicity_certificate proof)) in
  if negb (slength (val shard) =? 0) && negb (ShardId.is_prefix_of shard (val (sid_bytes state_id)))
  then Err ShardMismatch else Ok tt.

Definition verify_membership_under (proof : InclusionProof) (state_id : StateId) (ref_time : u64) (policy : arr 32)
    : SessionM unit :=
  _ ← ensure_trust_base;
  _ ← liftM (membership_checks proof state_id ref_time);
  verify_unicity_certificate (unicity_certificate proof) policy.

Definition verify_membership_in (proof : InclusionProof) (state_id : StateId) (ref_time : u64) : SessionM unit :=
  verify_membership_under proof state_id ref_time zero_policy.

Definition verify_inclusion_proof_in (proof : InclusionProof) (state_id : StateId) (ref_time : u64) : SessionM unit :=
  _ ← verify_membership_in proof state_id ref_time;
  let cd := certification_data proof in
  liftM (verify_predicate (cd_lock_script cd) ref_time (cd_source_state_hash cd) (cd_transaction_hash cd) (unlock_script cd)).

Definition verify_inclusion_proof_for (tb : RootTrustBase) (proof : InclusionProof) (state_id : StateId) (ref_time : u64)
    : verdict unit := fst (verify_inclusion_proof_in proof state_id ref_time (new_session tb)).

Definition verify_inclusion_proof {T} `{Transaction T} (proof : InclusionProof) (transaction : T) (ref_time : u64) : SessionM unit :=
  let cd := certification_data proof in
  if negb (bool_decide (cd_lock_script cd = lock_script transaction))
     || negb (bool_decide (cd_source_state_hash cd = source_state_hash transaction))
     || negb (bool_decide (cd_expires_at cd = expires_at transaction))
  then liftM (Err CertificationDataMismatch) else
  let tx_hash := calculate_transaction_hash transaction in
  if negb (bool_decide (cd_transaction_hash cd = tx_hash)) then liftM (Err TransactionHashMismatch) else
  let state_id := StateId_derive (lock_script transaction) (source_state_hash transaction) in
  verify_inclusion_proof_in proof state_id ref_time.

(** * Tokens *)

Definition verify_genesis (registry : MintJustificationRegistry) (embedded : Embedded) (token : Token) : ContextM unit :=
  let genesis := genesis token in
  let mint := cm_transaction genesis in
  context ← get;
  if negb (bool_decide (network_id mint = tb_network_id (context_trust_base context)))
  then liftM (Err NetworkMismatch) else
  pk ← liftM (map_err (fun _ => InvalidMintLockScript) (Minter.public_key (token_id mint)));
  let expected_lock := from_predicate {| sp_public_key := pk |} in
  let certified_lock := cd_lock_script (certification_data (cm_inclusion_proof genesis)) in
  if negb (bool_decide (certified_lock = expected_lock)) then liftM (Err InvalidMintLockScript) else
  _ ← map_errM GenesisError (on_seals
    (verify_inclusion_proof (cm_inclusion_proof genesis) mint (reference_time (cm_inclusion_proof genesis))));
  _ ← registry_verify_token_data registry embedded genesis;
  registry_verify_genesis registry embedded genesis.

Definition verify_transfer (e : nat * CertifiedTransferTransaction) : ContextM unit :=
  let '(i, transfer) := e in
  map_errM (TransferError (N.of_nat i)) (on_seals
    (verify_inclusion_proof (ct_inclusion_proof transfer) (ct_transaction transfer) (reference_time (ct_inclusion_proof transfer)))).

Fixpoint verify_token_in_context (fuel : nat) (registry : MintJustificationRegistry) (token : Token) : ContextM unit :=
  match fuel with
  | O => liftM Panic
  | S fuel =>
      let embedded := verify_embedded_token (verify_token_in_context fuel registry) in
      context ← get;
      if val (max_token_transfers (limits (policy context))) <? len (transactions token)
      then liftM (Err (VerificationLimitExceeded "token transfer count")) else
      _ ← verify_genesis registry embedded token;
      forM_ verify_transfer (imap pair (transactions token))
  end.

(** The deepest nesting a policy allows, plus the token itself. *)
Definition fuel_of (p : VerificationPolicy) : nat := S (N.to_nat (val (max_embedded_token_depth (limits p)))).

Definition verify_token_with_memo_capacity (token : Token) (tb : RootTrustBase) (registry : MintJustificationRegistry)
    (policy : VerificationPolicy) (capacity : usize) : verdict unit * SealStats :=
  match with_memo_capacity tb policy capacity with
  | Ok context =>
      match map_err InvalidTrustBaseError (validate tb) with
      | Ok _ =>
          let '(result, context) := verify_token_in_context (fuel_of policy) registry token context in
          (result, session_stats (seals context))
      | r => (r, session_stats (seals context))
      end
  | Err e => (Err e, no_stats)
  | Panic => (Panic, no_stats)
  end.

Definition verify_token_in_session (token : Token) (session : SealSession) (registry : MintJustificationRegistry)
    (policy : VerificationPolicy) : verdict unit * SealSession :=
  let context := with_session session policy in
  match map_err InvalidTrustBaseError (validate (trust_base session)) with
  | Ok _ =>
      let '(result, context) := verify_token_in_context (fuel_of policy) registry token context in
      (result, seals context)
  | r => (r, session)
  end.

Definition verify_token_with_policy (token : Token) (tb : RootTrustBase) (registry : MintJustificationRegistry)
    (policy : VerificationPolicy) : verdict unit :=
  fst (verify_token_with_memo_capacity token tb registry policy DEFAULT_SEAL_MEMO_CAPACITY).

Definition default_policy : VerificationPolicy := {| limits := VerificationLimits_DEFAULT; require_token_data_verifier := false |}.

Definition verify_token_with (token : Token) (tb : RootTrustBase) (registry : MintJustificationRegistry) : verdict unit :=
  verify_token_with_policy token tb registry default_policy.

Definition verify_token (token : Token) (tb : RootTrustBase) : verdict unit :=
  verify_token_with token tb empty_registry.

(** * Non-inclusion *)

Record NonInclusionContext : Type := {
  ni_shard : option ShardId;
  ni_shard_conf_hash : option (arr 32);
  ni_authority_end_round : option u64;
}.

Definition NonInclusionContext_new : NonInclusionContext :=
  {| ni_shard := Some ShardId.root; ni_shard_conf_hash := None; ni_authority_end_round := None |}.

Definition ni_with_shard (shard : ShardId) (self : NonInclusionContext) : NonInclusionContext :=
  {| ni_shard := Some shard; ni_shard_conf_hash := ni_shard_conf_hash self; ni_authority_end_round := ni_authority_end_round self |}.

Definition ni_with_shard_conf_hash (hash : arr 32) (self : NonInclusionContext) : NonInclusionContext :=
  {| ni_shard := ni_shard self; ni_shard_conf_hash := Some hash; ni_authority_end_round := ni_authority_end_round self |}.

Definition ni_with_authority_end_round (round : u64) (self : NonInclusionContext) : NonInclusionContext :=
  {| ni_shard := ni_shard self; ni_shard_conf_hash := ni_shard_conf_hash self; ni_authority_end_round := Some round |}.

Record NonInclusionSnapshot : Type := {
  snapshot_network_id : NetworkId;
  partition_id : u32;
  shard_id : ShardId;
  root_round : u64;
  seal_timestamp_seconds : u64;
  root_epoch : u64;
  shard_round : u64;
  shard_epoch : u64;
  state_root : option (arr 32);
}.

Inductive NonInclusionOutcome : Type :=
| AbsentAtSnapshot (state_id : StateId) (snapshot : NonInclusionSnapshot)
| IncludedAtSnapshot (state_id : StateId) (snapshot : NonInclusionSnapshot).

(** [b"unicity-token/non-inclusion-policy/v2"] *)
Definition NI_DOMAIN : bytes := n2b <$> [
  0x75; 0x6e; 0x69; 0x63; 0x69; 0x74; 0x79; 0x2d; 0x74; 0x6f; 0x6b; 0x65; 0x6e; 0x2f; 0x6e; 0x6f; 0x6e; 0x2d;
  0x69; 0x6e; 0x63; 0x6c; 0x75; 0x73; 0x69; 0x6f; 0x6e; 0x2d; 0x70; 0x6f; 0x6c; 0x69; 0x63; 0x79; 0x2f; 0x76; 0x32].

Definition opt_flag {A} (o : option A) : bytes := [match o with Some _ => Byte.x01 | None => Byte.x00 end].

(** The updates of [digest_of]. *)
Definition digest_parts (c : NonInclusionContext) : list bytes :=
  [NI_DOMAIN; be_bytes 4 (val AGGREGATION_PARTITION_ID); opt_flag (ni_shard c)]
  ++ (match ni_shard c with Some s => let e := ShardId.encode s in [be_bytes 8 (len e); e] | None => [] end)
  ++ [opt_flag (ni_shard_conf_hash c)]
  ++ (match ni_shard_conf_hash c with Some x => [val x] | None => [] end)
  ++ [opt_flag (ni_authority_end_round c)]
  ++ (match ni_authority_end_round c with Some r => [be_bytes 8 (val r)] | None => [] end).

Definition digest_of (c : NonInclusionContext) : arr 32 :=
  fit 32 (DataHash.data (DataHasher.finalize (foldl DataHasher.update (InnerSha256 []) (digest_parts c)))).

Definition verify_unicity_certificate_strict (uc : UnicityCertificate) (context : NonInclusionContext) : SessionM unit :=
  if negb (bool_decide (partition_identifier (unicity_tree_certificate uc) = AGGREGATION_PARTITION_ID))
  then liftM (Err PartitionMismatch) else
  let policy := digest_of context in
  hit ← body_verified uc policy;
  if hit : bool then mret tt else
  _ ← note_body_check;
  _ ← liftM (map_err (fun _ => CertificateBodyInvalid) (check_body uc));
  let shard := shard (shard_tree_certificate uc) in
  if negb (len (sibling_hash_list (shard_tree_certificate uc)) =? slength (val shard)) then liftM (Err ShardPathInvalid) else
  let seal := unicity_seal uc in
  if (match ni_shard context with Some expected => negb (bool_decide (expected = shard)) | None => false end)
  then liftM (Err ShardPathInvalid) else
  if (match ni_shard_conf_hash context with Some pin => negb (bool_decide (val pin = shard_configuration_hash uc)) | None => false end)
  then liftM (Err ConfigurationMismatch) else
  computed ← liftM (map_err (fun _ => SealRootMismatch) (computed_seal_hash uc));
  if negb (bool_decide (DataHash.data computed = seal_hash seal)) then liftM (Err SealRootMismatch) else
  _ ← authenticate_seal_under seal policy;
  if (match ni_authority_end_round context with Some end_ => val end_ <=? val (root_chain_round_number seal) | None => false end)
  then liftM (Err SealAfterAuthorityEnd) else
  remember_body uc policy.

(** The checks after the certificate: they read the proof alone. *)
Definition non_inclusion_checks (proof : NonInclusionProof) (target : StateId) : verdict NonInclusionOutcome :=
  let uc := ni_unicity_certificate proof in
  let shard := shard (shard_tree_certificate uc) in
  state_root ← map_err (fun _ => NonInclusionCertificateInvalid) (root_hash (input_record uc));
  expected_root ← (match state_root with
    | None => Ok None
    | Some b => Some <$> map_err (fun _ => NonInclusionCertificateInvalid) (DataHash.new Sha256 (val (b : arr 32)))
    end);
  if negb (NonInclusionCertificate.authenticates (certificate proof) target expected_root)
  then Err NonInclusionCertificateInvalid else
  let terminal_in_shard := match NonInclusionCertificate.body (certificate proof) with
    | Some b => ShardId.is_prefix_of shard (val (NonInclusionCertificate.terminal_key b))
    | None => true
    end in
  if negb (slength (val shard) =? 0)
     && (negb (ShardId.is_prefix_of shard (val (sid_bytes target))) || negb terminal_in_shard)
  then Err ShardMismatch else
  let seal := unicity_seal uc in
  let snapshot := {|
    snapshot_network_id := seal_network_id seal;
    partition_id := partition_identifier (unicity_tree_certificate uc);
    shard_id := shard;
    root_round := root_chain_round_number seal;
    seal_timestamp_seconds := seal_timestamp seal;
    root_epoch := seal_epoch seal;
    shard_round := round_number (input_record uc);
    shard_epoch := ir_epoch (input_record uc);
    state_root := state_root |} in
  Ok (if NonInclusionCertificate.terminal_matches (certificate proof) target
      then IncludedAtSnapshot target snapshot else AbsentAtSnapshot target snapshot).

Definition verify_non_inclusion_in (proof : NonInclusionProof) (target : StateId) (context : NonInclusionContext)
    : SessionM NonInclusionOutcome :=
  _ ← ensure_trust_base;
  if (match requested_state_id proof with Some requested => negb (bool_decide (requested = target)) | None => false end)
  then liftM (Err NonInclusionTargetMismatch) else
  _ ← verify_unicity_certificate_strict (ni_unicity_certificate proof) context;
  liftM (non_inclusion_checks proof target).

Definition verify_non_inclusion_at_snapshot (tb : RootTrustBase) (proof : NonInclusionProof) (target : StateId)
    (context : NonInclusionContext) : verdict NonInclusionOutcome :=
  fst (verify_non_inclusion_in proof target context (new_session tb)).

(** [NonInclusionProof::verify_at_snapshot] *)
Definition verify_at_snapshot (tb : RootTrustBase) (proof : NonInclusionProof) (context : NonInclusionContext)
    : verdict NonInclusionOutcome :=
  target ← ok_or NonInclusionTargetMissing (requested_state_id proof);
  verify_non_inclusion_at_snapshot tb proof target context.

(** [NonInclusionProof::verify_for_at_snapshot] *)
Definition verify_for_at_snapshot (tb : RootTrustBase) (proof : NonInclusionProof) (target : StateId) (context : NonInclusionContext)
    : verdict NonInclusionOutcome :=
  if (match requested_state_id proof with Some requested => negb (bool_decide (requested = target)) | None => false end)
  then Err NonInclusionTargetMismatch else verify_non_inclusion_at_snapshot tb proof target context.

End verify.
