(* ===== verification/VerifySpec.v ===== *)
(** What the verification engine promises.

    [uc_verdict], [inclusion_verdict] and [strict_verdict] are the checks without
    the session's memos; the engine answers exactly as they do, for certificates
    as the decoder returns them and up to [memo_clash]. What they mean for a
    transaction and for a token is in [TokenSpec]. *)

From S2P Require Import Prelude State Bytes Error Cbor CborSpec CborRead Hash Codec Ids Secp Predicates Radix ShardId Bft BftCodec UcInterner Certificates VerificationError TrustBase Seal SealSpec Proofs Transactions TransactionsSpec Verify.
Local Open Scope N_scope.

#[export] Instance NonInclusionContext_eq_dec : EqDecision NonInclusionContext.
Proof. solve_decision. Defined.

Section spec.
Context `{Sha2} `{K256}.

(** * The policy digest of a context *)

Definition context_message (c : NonInclusionContext) : bytes := concat (digest_parts c).

Lemma context_digest c : val (digest_of c) = val (Sha256_digest (context_message c)).
Proof. unfold digest_of. rewrite update_all. by rewrite val_fit by apply (arr_length (Sha256_digest _)). Qed.

(** The message ends in an optional configuration hash and an optional round. *)
Definition context_tail (c : NonInclusionContext) : bytes :=
  concat ([opt_flag (ni_shard_conf_hash c)]
  ++ (match ni_shard_conf_hash c with Some x => [val x] | None => [] end)
  ++ [opt_flag (ni_authority_end_round c)]
  ++ (match ni_authority_end_round c with Some r => [be_bytes 8 (val r)] | None => [] end)).

Lemma context_tail_eq c : context_tail c = opt_flag (ni_shard_conf_hash c) ++ from_option val [] (ni_shard_conf_hash c) ++
  opt_flag (ni_authority_end_round c) ++ from_option (fun r : u64 => be_bytes 8 (val r)) [] (ni_authority_end_round c).
Proof.
  unfold context_tail. destruct (ni_shard_conf_hash c), (ni_authority_end_round c); cbn [concat app from_option]; by rewrite ?app_nil_r.
Qed.

Lemma round_tail_inj (a b : option u64) :
  opt_flag a ++ from_option (fun r : u64 => be_bytes 8 (val r)) [] a = opt_flag b ++ from_option (fun r : u64 => be_bytes 8 (val r)) [] b -> a = b.
Proof.
  destruct a as [a|], b as [b|]; [|done..]. intros E. apply (f_equal (drop 1)) in E. f_equal. change (be_bytes 8 (val a) = be_bytes 8 (val b)) in E.
  apply (f_equal be_value) in E. rewrite !be_value_be_bytes in E. change (256 ^ N.of_nat 8) with (2 ^ 64) in E.
  rewrite !N.mod_small in E by apply uint_bound. by apply val_inj.
Qed.

Lemma context_tail_inj c c' : context_tail c = context_tail c' ->
  ni_shard_conf_hash c = ni_shard_conf_hash c' /\ ni_authority_end_round c = ni_authority_end_round c'.
Proof.
  rewrite !context_tail_eq. destruct (ni_shard_conf_hash c) as [x|], (ni_shard_conf_hash c') as [y|]; [|done..|];
    intros E; apply (f_equal (drop 1)) in E; cbn [opt_flag app drop from_option] in E.
  - apply app_inv_len in E as [E1 E2]; [|by rewrite !arr_length]. apply val_inj in E1 as ->. by apply round_tail_inj in E2 as ->.
  - by apply round_tail_inj in E as ->.
Qed.

Lemma context_tail_len c : 2 <= len (context_tail c) <= 42.
Proof.
  rewrite context_tail_eq, !len_app. unfold len. destruct (ni_shard_conf_hash c) as [x|], (ni_authority_end_round c) as [r|];
    cbn [opt_flag from_option length]; rewrite ?arr_length, ?length_be_bytes; lia.
Qed.

Lemma context_message_eq c : context_message c = NI_DOMAIN ++ be_bytes 4 (val AGGREGATION_PARTITION_ID) ++
  match ni_shard c with
  | Some s => Byte.x01 :: be_bytes 8 (len (ShardId.encode s)) ++ ShardId.encode s ++ context_tail c
  | None => Byte.x00 :: context_tail c
  end.
Proof.
  unfold context_message, digest_parts. rewrite concat_app. rewrite (concat_app (match ni_shard c with Some _ => _ | None => _ end)).
  fold (context_tail c). destruct (ni_shard c) as [s|]; cbn [concat opt_flag]; rewrite ?app_nil_r, <- ?app_assoc; reflexivity.
Qed.

Lemma context_message_inj c c' : context_message c = context_message c' -> c = c'.
Proof.
  rewrite !context_message_eq. intros E. apply app_inv_head, app_inv_head in E.
  enough (ni_shard c = ni_shard c' /\ context_tail c = context_tail c') as [Es [Eh Er]%context_tail_inj].
  { destruct c, c'. by simpl in *; subst. }
  destruct (ni_shard c) as [s|], (ni_shard c') as [s'|]; [|done..|split; [done|]; apply (f_equal (drop 1)) in E; exact E].
  apply (f_equal (drop 1)) in E. cbn [drop] in E. apply app_inv_len in E as [El E]; [|by rewrite !length_be_bytes].
  apply (f_equal be_value) in El. rewrite !be_value_be_bytes in El.
  pose proof (context_tail_len c). pose proof (context_tail_len c').
  assert (len (ShardId.encode s) = len (ShardId.encode s')) as Hl.
  { pose proof (f_equal len E) as Ea. rewrite !len_app in Ea. revert El. change (256 ^ N.of_nat 8) with (2 ^ 64). intros El.
    zify. Z.to_euclidean_division_equations. lia. }
  apply app_inv_len in E as [E1 E2]; [|unfold len in Hl; lia]. split; [|done]. f_equal.
  apply (f_equal ShardId.decode) in E1. rewrite !ShardId.decode_encode in E1. by injection E1.
Qed.

(** * The checks without memos *)

Definition uc_verdict (tb : RootTrustBase) (uc : UnicityCertificate) : verdict unit :=
  if negb (bool_decide (partition_identifier (unicity_tree_certificate uc) = AGGREGATION_PARTITION_ID))
  then Err PartitionMismatch else
  _ ← map_err (fun _ => CertificateBodyInvalid) (check_body uc);
  _ ← check_seal_shape (unicity_seal uc);
  if negb (bool_decide (seal_network_id (unicity_seal uc) = tb_network_id tb)) then Err SealNetworkMismatch else
  computed ← map_err (fun _ => SealRootMismatch) (computed_seal_hash uc);
  if negb (bool_decide (DataHash.data computed = seal_hash (unicity_seal uc))) then Err SealRootMismatch else
  quorum_verdict tb (unicity_seal uc).

Definition strict_verdict (tb : RootTrustBase) (context : NonInclusionContext) (uc : UnicityCertificate) : verdict unit :=
  if negb (bool_decide (partition_identifier (unicity_tree_certificate uc) = AGGREGATION_PARTITION_ID))
  then Err PartitionMismatch else
  _ ← map_err (fun _ => CertificateBodyInvalid) (check_body uc);
  let shard := shard (shard_tree_certificate uc) in
  if negb (len (sibling_hash_list (shard_tree_certificate uc)) =? slength (val shard)) then Err ShardPathInvalid else
  let seal := unicity_seal uc in
  if (match ni_shard context with Some expected => negb (bool_decide (expected = shard)) | None => false end)
  then Err ShardPathInvalid else
  if (match ni_shard_conf_hash context with Some pin => negb (bool_decide (val pin = shard_configuration_hash uc)) | None => false end)
  then Err ConfigurationMismatch else
  computed ← map_err (fun _ => SealRootMismatch) (computed_seal_hash uc);
  if negb (bool_decide (DataHash.data computed = seal_hash seal)) then Err SealRootMismatch else
  _ ← seal_verdict tb seal;
  if (match ni_authority_end_round context with Some end_ => val end_ <=? val (root_chain_round_number seal) | None => false end)
  then Err SealAfterAuthorityEnd else Ok tt.

Lemma seal_verdict_inv tb seal : seal_verdict tb seal = Ok tt ->
  check_seal_shape seal = Ok tt /\ seal_network_id seal = tb_network_id tb /\ quorum_verdict tb seal = Ok tt /\
  seal_epoch seal = tb_epoch tb /\ val (epoch_start_round tb) <= val (root_chain_round_number seal).
Proof.
  unfold seal_verdict. intros ([] & _ & E)%bind_Ok. destruct (existsb _ _); [done|].
  apply bind_Ok in E as ([] & Hs & E). destruct (bool_decide_reflect (seal_network_id seal = tb_network_id tb)); [|done].
  destruct (N.eqb_spec (val (seal_epoch seal)) (val (tb_epoch tb))) as [He|]; [|done].
  destruct (N.ltb_spec (val (root_chain_round_number seal)) (val (epoch_start_round tb))); [done|].
  split_and!; try done. by apply val_inj.
Qed.

(** The strict check implies the ordinary one, whatever the context. *)
Lemma strict_implies_uc tb context uc : strict_verdict tb context uc = Ok tt -> uc_verdict tb uc = Ok tt.
Proof.
  unfold strict_verdict, uc_verdict. destruct (negb (bool_decide _)); [done|]. intros ([] & -> & E)%bind_Ok.
  rewrite bind_Ok_l. do 3 (match type of E with (if ?b then _ else _) = _ => destruct b; [done|] end).
  apply bind_Ok in E as (h & -> & E). match type of E with (if ?b then _ else _) = _ => destruct b eqn:Eh; [done|] end.
  apply bind_Ok in E as ([] & (-> & Hn & Hq & _)%seal_verdict_inv & _).
  rewrite !bind_Ok_l, (bool_decide_eq_true_2 _ Hn), Eh. exact Hq.
Qed.

(** * The certificate memo *)

(** The policies of the ordinary checks, and the contexts and seals that the
    session is used with. *)
Context (lax : arr 32 -> Prop) (contexts : NonInclusionContext -> Prop) (K : UnicitySeal -> Prop).

(** What a remembered certificate passed: the ordinary check, and under any
    other policy the strict check of one of the contexts, with that digest. *)
Definition remembered (tb : RootTrustBase) (policy : arr 32) (uc : UnicityCertificate) : Prop :=
  uc_verdict tb uc = Ok tt /\
  (lax policy \/ exists context, contexts context /\ digest_of context = policy /\ strict_verdict tb context uc = Ok tt).

(** Another context of the session with the policy digest of this one. *)
Definition context_clash (context : NonInclusionContext) : Prop :=
  exists other, contexts other /\ other <> context /\ digest_of other = digest_of context.

(** It is a SHA-256 collision on the messages hashed for the two. *)
Definition context_collision (context : NonInclusionContext) : Prop :=
  exists other, contexts other /\ other <> context /\ Collision (.∈ [context_message other; context_message context]).

Lemma context_clash_collision context : context_clash context -> context_collision context.
Proof.
  intros (other & Ho & Hne & E). exists other. split_and!; [done..|]. apply (f_equal val) in E. rewrite !context_digest in E. apply val_inj in E.
  apply (digest_inj (.∈ [context_message other; context_message context])) in E as [E%context_message_inj|]; [done|done|set_solver..].
Qed.

Abbreviation session := (session_of K remembered).

(** [m] answers [r] in every session of [tb] and keeps the session sound, unless
    [bad] happens. *)
Definition answers {A} (tb : RootTrustBase) (bad : Prop) (m : SessionM A) (r : verdict A) : Prop :=
  forall s, session tb s -> (fst (m s) = r /\ session tb (snd (m s))) \/ bad.

Lemma answers_lift {A} tb bad (r : verdict A) : answers tb bad (liftM r) r.
Proof. intros s Hs. by left. Qed.

Lemma answers_ret {A} tb bad (a : A) : answers tb bad (mret a) (Ok a).
Proof. intros s Hs. by left. Qed.

Lemma answers_weaken {A} tb (bad bad' : Prop) (m : SessionM A) r : (bad -> bad') -> answers tb bad m r -> answers tb bad' m r.
Proof. intros Hb Hm s Hs. destruct (Hm s Hs); tauto. Qed.

Lemma answers_bind {A B} tb bad (m : SessionM A) r (k : A -> SessionM B) kr :
  answers tb bad m r -> (forall a, r = Ok a -> answers tb bad (k a) (kr a)) -> answers tb bad (m ≫= k) (r ≫= kr).
Proof.
  intros Hm Hk s Hs. rewrite bindM_run. destruct (Hm s Hs) as [[<- Hs1]|]; [|by right]. destruct (m s) as [r' s1].
  simpl in *. destruct r' as [a|e|]; [|by left..]. rewrite bind_Ok_l. by apply Hk.
Qed.

(** A step that only touches the session: its answer is [Ok tt]. *)
Lemma answers_then {A} tb bad (m : SessionM unit) (k : SessionM A) kr :
  answers tb bad m (Ok tt) -> answers tb bad k kr -> answers tb bad (_ ← m; k) kr.
Proof. intros Hm Hk. change kr with ((fun _ : unit => kr) tt). rewrite <- (bind_Ok_l tt (fun _ => kr)). by apply answers_bind. Qed.

(** Reading the authority. *)
Lemma answers_trust_base {A} tb bad (k : SealSession -> SessionM A) kr :
  (forall s, trust_base s = tb -> answers tb bad (k s) kr) -> answers tb bad (s ← get; k s) kr.
Proof. intros Hk s Hs. rewrite bindM_run. unfold get. apply Hk; [by destruct Hs|done]. Qed.

Lemma answers_ensure tb bad : answers tb bad ensure_trust_base (map_err InvalidTrustBaseError (validate tb)).
Proof. intros s Hs. destruct (ensure_trust_base_spec K remembered tb s Hs) as (E & Hs1 & _). by left. Qed.

Lemma answers_quorum tb seal policy : K seal -> wf seal ->
  answers tb (memo_clash K tb) (verify_quorum_under seal policy) (quorum_verdict tb seal).
Proof. intros HK Hw s Hs. destruct (verify_quorum_transparent K remembered tb s seal policy Hs HK Hw) as [[?|?] ?]; [by left|by right]. Qed.

Lemma answers_seal tb seal policy : K seal -> wf seal ->
  answers tb (memo_clash K tb) (authenticate_seal_under seal policy) (seal_verdict tb seal).
Proof. intros HK Hw s Hs. destruct (authenticate_seal_transparent K remembered tb s seal policy Hs HK Hw) as [[?|?] ?]; [by left|by right]. Qed.

Lemma answers_note tb bad : answers tb bad note_body_check (Ok tt).
Proof. intros s [Hs <-]. left. split; [done|]. split; [|done]. by apply session_ok_count. Qed.

Lemma answers_remember tb bad uc policy : remembered tb policy uc -> answers tb bad (remember_body uc policy) (Ok tt).
Proof. intros Hr s Hs. left. by apply remember_body_spec. Qed.

(** A memo hit stands for the answer [r] whenever what is remembered implies it. *)
Lemma answers_hit tb bad uc policy (k : SessionM unit) r :
  (remembered tb policy uc -> r = Ok tt \/ bad) -> answers tb bad k r ->
  answers tb bad (hit ← body_verified uc policy; if hit : bool then mret tt else k) r.
Proof.
  intros Hr Hk s Hs. rewrite bindM_run. destruct (body_verified_spec K remembered tb s uc policy Hs) as (hit & Eh & Hs1 & Hhit).
  destruct (body_verified uc policy s) as [r' s1]. simpl in Eh, Hs1. subst r'. destruct hit; [|by apply Hk].
  destruct (Hr (Hhit eq_refl)) as [->|]; [by left|by right].
Qed.

Lemma answers_if {A} tb bad (b : bool) (m1 m2 : SessionM A) r1 r2 : answers tb bad m1 r1 ->
  (b = false -> answers tb bad m2 r2) -> answers tb bad (if b then m1 else m2) (if b then r1 else r2).
Proof. intros. destruct b; auto. Qed.

(** The conclusion of a check, used for what follows it. *)
Lemma answers_last tb bad (m : SessionM unit) (k : SessionM unit) r : answers tb bad m r ->
  (r = Ok tt -> answers tb bad k (Ok tt)) -> answers tb bad (_ ← m; k) r.
Proof.
  intros Hm Hk s Hs. rewrite bindM_run. destruct (Hm s Hs) as [[<- Hs1]|]; [|by right]. destruct (m s) as [r' s1].
  simpl in *. destruct r' as [[]|e|]; [|by left..]. by apply Hk.
Qed.

Lemma answers_uc tb uc policy : K (unicity_seal uc) -> wf uc -> lax policy ->
  answers tb (memo_clash K tb) (verify_unicity_certificate uc policy) (uc_verdict tb uc).
Proof.
  intros HK Hw Hp. assert (forall r, r = uc_verdict tb uc -> answers tb (memo_clash K tb) (verify_unicity_certificate uc policy) r) as Ha; [|by apply Ha].
  intros r Er. pose proof Er as Er'. unfold uc_verdict in Er'. rewrite Er'. unfold verify_unicity_certificate.
  apply answers_if; [apply answers_lift|]. intros Epart. rewrite Epart in Er'.
  apply answers_hit; [intros [Hok _]; left; congruence|].
  apply answers_then; [apply answers_note|].
  apply answers_bind; [apply answers_lift|]. intros [] Eb. rewrite Eb, bind_Ok_l in Er'.
  apply answers_bind; [apply answers_lift|]. intros [] Es. rewrite Es, bind_Ok_l in Er'.
  apply answers_trust_base. intros s ->.
  apply answers_if; [apply answers_lift|]. intros En. rewrite En in Er'.
  apply answers_bind; [apply answers_lift|]. intros h Eh. rewrite Eh, bind_Ok_l in Er'.
  apply answers_if; [apply answers_lift|]. intros Ed. rewrite Ed in Er'.
  apply answers_last; [apply answers_quorum; [exact HK|apply Hw]|]. intros Eq.
  apply answers_remember. split; [congruence|by left].
Qed.

Lemma answers_strict tb uc context : K (unicity_seal uc) -> contexts context -> wf uc -> ~ lax (digest_of context) ->
  answers tb (memo_clash K tb \/ context_clash context) (verify_unicity_certificate_strict uc context) (strict_verdict tb context uc).
Proof.
  intros HK HC Hw Hp. assert (forall r, r = strict_verdict tb context uc ->
    answers tb (memo_clash K tb \/ context_clash context) (verify_unicity_certificate_strict uc context) r) as Ha; [|by apply Ha].
  intros r Er. pose proof Er as Er'. unfold strict_verdict in Er'. rewrite Er'. unfold verify_unicity_certificate_strict.
  apply answers_if; [apply answers_lift|]. intros Epart. rewrite Epart in Er'.
  apply answers_hit.
  { intros [_ [?|(other & Hother & Ed & Hok)]]; [done|]. destruct (decide (other = context)) as [->|Hne]; [left; congruence|].
    right. right. by exists other. }
  apply answers_then; [apply answers_note|].
  apply answers_bind; [apply answers_lift|]. intros [] Eb. rewrite Eb, bind_Ok_l in Er'.
  apply answers_if; [apply answers_lift|]. intros E1. rewrite E1 in Er'.
  apply answers_if; [apply answers_lift|]. intros E2. rewrite E2 in Er'.
  apply answers_if; [apply answers_lift|]. intros E3. rewrite E3 in Er'.
  apply answers_bind; [apply answers_lift|]. intros h Eh. rewrite Eh, bind_Ok_l in Er'.
  apply answers_if; [apply answers_lift|]. intros Ed. rewrite Ed in Er'.
  apply answers_bind; [eapply answers_weaken; [by left|apply answers_seal; [exact HK|apply Hw]]|]. intros [] Eq. rewrite Eq, bind_Ok_l in Er'.
  apply answers_if; [apply answers_lift|]. intros Ee. rewrite Ee in Er'.
  apply answers_remember. assert (strict_verdict tb context uc = Ok tt) as Hok by congruence.
  split; [by apply strict_implies_uc in Hok|]. right. by exists context.
Qed.

(** * Proofs *)

Definition membership_verdict (tb : RootTrustBase) (proof : InclusionProof) (state_id : StateId) (ref_time : u64) : verdict unit :=
  _ ← map_err InvalidTrustBaseError (validate tb);
  _ ← membership_checks proof state_id ref_time;
  uc_verdict tb (unicity_certificate proof).

Definition inclusion_verdict (tb : RootTrustBase) (proof : InclusionProof) (state_id : StateId) (ref_time : u64) : verdict unit :=
  _ ← membership_verdict tb proof state_id ref_time;
  let cd := certification_data proof in
  verify_predicate (cd_lock_script cd) ref_time (cd_source_state_hash cd) (cd_transaction_hash cd) (unlock_script cd).

Definition transaction_verdict {T} `{Transaction T} (tb : RootTrustBase) (proof : InclusionProof) (transaction : T)
    (ref_time : u64) : verdict unit :=
  let cd := certification_data proof in
  if negb (bool_decide (cd_lock_script cd = lock_script transaction))
     || negb (bool_decide (cd_source_state_hash cd = source_state_hash transaction))
     || negb (bool_decide (cd_expires_at cd = expires_at transaction))
  then Err CertificationDataMismatch else
  if negb (bool_decide (cd_transaction_hash cd = calculate_transaction_hash transaction)) then Err TransactionHashMismatch else
  inclusion_verdict tb proof (StateId_derive (lock_script transaction) (source_state_hash transaction)) ref_time.

Definition non_inclusion_verdict (tb : RootTrustBase) (proof : NonInclusionProof) (target : StateId)
    (context : NonInclusionContext) : verdict NonInclusionOutcome :=
  _ ← map_err InvalidTrustBaseError (validate tb);
  if (match requested_state_id proof with Some requested => negb (bool_decide (requested = target)) | None => false end)
  then Err NonInclusionTargetMismatch else
  _ ← strict_verdict tb context (ni_unicity_certificate proof);
  non_inclusion_checks proof target.

(** Binding a proof and then verifying it is verifying it for the target. *)
Lemma bind_then_verify tb proof target context :
  (bound ← for_state proof target; verify_at_snapshot tb bound context) = verify_for_at_snapshot tb proof target context.
Proof.
  unfold for_state, verify_for_at_snapshot, verify_at_snapshot, verify_non_inclusion_at_snapshot, verify_non_inclusion_in.
  destruct (requested_state_id proof) as [r|]; [destruct (decide (r = target)) as [->|]|];
    rewrite ?bool_decide_true, ?bool_decide_false by done; cbn; by rewrite ?bool_decide_true by done.
Qed.

Lemma answers_membership tb proof state_id ref_time policy : K (unicity_seal (unicity_certificate proof)) -> wf (unicity_certificate proof) -> lax policy ->
  answers tb (memo_clash K tb) (verify_membership_under proof state_id ref_time policy) (membership_verdict tb proof state_id ref_time).
Proof.
  intros HK Hw Hp. unfold verify_membership_under, membership_verdict.
  apply answers_bind; [apply answers_ensure|]. intros [] _.
  apply answers_bind; [apply answers_lift|]. intros [] _. by apply answers_uc.
Qed.

Lemma answers_inclusion tb proof state_id ref_time : K (unicity_seal (unicity_certificate proof)) -> wf (unicity_certificate proof) -> lax zero_policy ->
  answers tb (memo_clash K tb) (verify_inclusion_proof_in proof state_id ref_time) (inclusion_verdict tb proof state_id ref_time).
Proof.
  intros HK Hw Hp. unfold verify_inclusion_proof_in, inclusion_verdict.
  apply answers_bind; [by apply answers_membership|]. intros [] _. apply answers_lift.
Qed.

Lemma answers_transaction {T} `{Transaction T} tb proof (transaction : T) ref_time :
  K (unicity_seal (unicity_certificate proof)) -> wf (unicity_certificate proof) -> lax zero_policy ->
  answers tb (memo_clash K tb) (verify_inclusion_proof proof transaction ref_time) (transaction_verdict tb proof transaction ref_time).
Proof.
  intros HK Hw Hp. unfold verify_inclusion_proof, transaction_verdict.
  apply answers_if; [apply answers_lift|]. intros _. apply answers_if; [apply answers_lift|]. intros _.
  by apply answers_inclusion.
Qed.

Lemma answers_non_inclusion tb proof target context : K (unicity_seal (ni_unicity_certificate proof)) -> contexts context ->
  wf (ni_unicity_certificate proof) -> ~ lax (digest_of context) ->
  answers tb (memo_clash K tb \/ context_clash context) (verify_non_inclusion_in proof target context)
    (non_inclusion_verdict tb proof target context).
Proof.
  intros HK HC Hw Hp. unfold verify_non_inclusion_in, non_inclusion_verdict.
  apply answers_bind; [apply answers_ensure|]. intros [] _.
  apply answers_if; [apply answers_lift|]. intros _.
  apply answers_bind; [by apply answers_strict|]. intros [] _. apply answers_lift.
Qed.
End spec.
