(* ===== verification/TokenSpec.v ===== *)
(** The meaning of acceptance.

    [authenticated] says what an accepted certificate shows, [certified] what an
    accepted proof shows of its transaction, [token_certified] what an accepted
    token shows of its whole history. [run_seal] names the seals that the
    verification of a token meets. *)

From S2P Require Import Prelude State Bytes Error Cbor CborSpec CborRead Hash Radix Codec CodecFacts Ids Secp Predicates ShardId Bft BftCodec BftSpec FifoIndex UcInterner Certificates VerificationError TrustBase Seal SealSpec Proofs Transactions TransactionsSpec Verify VerifySpec.
Local Open Scope N_scope.

Section certified.
Context `{Sha2} `{K256}.

(** * Certificates *)

(** [uc] is a certificate of the aggregation partition, under the network of
    [tb], whose input record hashes up to a seal that a quorum of the
    validators of [tb] signed. *)
Record authenticated (tb : RootTrustBase) (uc : UnicityCertificate) : Prop := {
  au_partition : partition_identifier (unicity_tree_certificate uc) = AGGREGATION_PARTITION_ID;
  au_body : check_body uc = Ok tt;
  au_shape : check_seal_shape (unicity_seal uc) = Ok tt;
  au_network : seal_network_id (unicity_seal uc) = tb_network_id tb;
  au_root : exists h, computed_seal_hash uc = Ok h /\ DataHash.data h = seal_hash (unicity_seal uc);
  au_trust_base : valid_trust_base tb;
  au_quorum : exists signers, signed_by tb (unicity_seal uc) signers /\ val (quorum_threshold tb) <= len signers;
}.

Lemma quorum_verdict_sound tb seal : quorum_verdict tb seal = Ok tt -> valid_trust_base tb /\
  exists signers, signed_by tb seal signers /\ val (quorum_threshold tb) <= len signers.
Proof.
  intros ([] & Hv%map_err_Ok%validate_spec & Hq)%bind_Ok. split; [done|]. apply quorum_met_sound; [|done].
  pose proof (vt_threshold _ Hv). lia.
Qed.

Lemma uc_verdict_sound tb uc : uc_verdict tb uc = Ok tt -> authenticated tb uc.
Proof.
  unfold uc_verdict. destruct (bool_decide_reflect (partition_identifier (unicity_tree_certificate uc) = AGGREGATION_PARTITION_ID));
    [|done]. simpl negb. cbv iota. intros ([] & Hb%map_err_Ok & E)%bind_Ok. apply bind_Ok in E as ([] & Hs & E).
  destruct (bool_decide_reflect (seal_network_id (unicity_seal uc) = tb_network_id tb)); [|done].
  apply bind_Ok in E as (h & Hh%map_err_Ok & E).
  destruct (bool_decide_reflect (DataHash.data h = seal_hash (unicity_seal uc))); [|done].
  apply quorum_verdict_sound in E as [Hv Hq]. constructor; try done. by exists h.
Qed.

(** The same for the strict check of a context: the shard path is complete, the
    context's shard, configuration and authority bounds hold, and the seal is of
    the epoch of the trust base. *)
Record strictly_authenticated (tb : RootTrustBase) (context : NonInclusionContext) (uc : UnicityCertificate) : Prop := {
  sa_authenticated : authenticated tb uc;
  sa_path : len (sibling_hash_list (shard_tree_certificate uc)) = slength (val (shard (shard_tree_certificate uc)));
  sa_shard : forall s, ni_shard context = Some s -> s = shard (shard_tree_certificate uc);
  sa_configuration : forall pin, ni_shard_conf_hash context = Some pin -> val pin = shard_configuration_hash uc;
  sa_epoch : seal_epoch (unicity_seal uc) = tb_epoch tb;
  sa_epoch_start : val (epoch_start_round tb) <= val (root_chain_round_number (unicity_seal uc));
  sa_authority_end : forall e, ni_authority_end_round context = Some e ->
    val (root_chain_round_number (unicity_seal uc)) < val e;
}.

Lemma strict_verdict_sound tb context uc : strict_verdict tb context uc = Ok tt -> strictly_authenticated tb context uc.
Proof.
  intros E. pose proof (uc_verdict_sound _ _ (strict_implies_uc _ _ _ E)) as Ha. unfold strict_verdict in E.
  destruct (negb (bool_decide _)); [done|]. apply bind_Ok in E as (_ & _ & E).
  destruct (N.eqb_spec (len (sibling_hash_list (shard_tree_certificate uc))) (slength (val (shard (shard_tree_certificate uc)))))
    as [Hp|]; [|done]. simpl negb in E. cbv iota in E.
  match type of E with (if ?b then _ else _) = _ => destruct b eqn:Es; [done|] end.
  match type of E with (if ?b then _ else _) = _ => destruct b eqn:Ec; [done|] end.
  apply bind_Ok in E as (h & _ & E). destruct (negb (bool_decide _)); [done|].
  apply bind_Ok in E as ([] & (_ & _ & _ & He & Hr)%seal_verdict_inv & E).
  match type of E with (if ?b then _ else _) = _ => destruct b eqn:Ee; [done|] end.
  constructor; try done.
  - intros s Hs. rewrite Hs in Es. by destruct (bool_decide_reflect (s = shard (shard_tree_certificate uc))).
  - intros p Hs. rewrite Hs in Ec. by destruct (bool_decide_reflect (val p = shard_configuration_hash uc)).
  - intros e Hs. rewrite Hs in Ee. by apply N.leb_gt in Ee.
Qed.

(** * Proofs *)

(** The proof certifies the transaction: its certificate data are the
    transaction's, its leaf is in the tree whose root the authenticated input
    record names, in time and in the right shard, and the owner of the spent
    state signed. *)
Record certified {T} `{Transaction T} (tb : RootTrustBase) (proof : InclusionProof) (tx : T) (ref_time : u64) : Prop := {
  ce_lock_script : cd_lock_script (certification_data proof) = lock_script tx;
  ce_source_state : cd_source_state_hash (certification_data proof) = source_state_hash tx;
  ce_transaction : cd_transaction_hash (certification_data proof) = calculate_transaction_hash tx;
  ce_expires : cd_expires_at (certification_data proof) = expires_at tx;
  ce_not_expired : forall e, expires_at tx = Some e -> val ref_time < val e;
  ce_reference_time : reference_time proof = ref_time;
  ce_in_round : val ref_time <= val (timestamp (input_record (unicity_certificate proof)));
  ce_included : exists b root, root_hash (input_record (unicity_certificate proof)) = Ok (Some b) /\
    DataHash.new Sha256 (val b) = Ok root /\
    InclusionCertificate.verify (inclusion_certificate proof) (StateId_derive (lock_script tx) (source_state_hash tx))
      (calculate_leaf_value (calculate_transaction_hash tx) ref_time) root = true;
  ce_shard : slength (val (shard (shard_tree_certificate (unicity_certificate proof)))) = 0 \/
    ShardId.is_prefix_of (shard (shard_tree_certificate (unicity_certificate proof)))
      (val (sid_bytes (StateId_derive (lock_script tx) (source_state_hash tx)))) = true;
  ce_authenticated : authenticated tb (unicity_certificate proof);
  ce_unlocked : exists pk, lock_script tx = from_predicate {| sp_public_key := pk |} /\
    verify_signature_unlock pk (source_state_hash tx) (calculate_transaction_hash tx)
      (unlock_script (certification_data proof)) = true;
}.

Lemma verify_predicate_sound lock t source tx script : verify_predicate lock t source tx script = Ok tt ->
  exists pk, lock = from_predicate {| sp_public_key := pk |} /\ verify_signature_unlock pk source tx script = true.
Proof.
  unfold verify_predicate. intros ([pk] & Hp%map_err_Ok%SignaturePredicate_encoded & E)%bind_Ok. exists pk. split; [done|].
  by destruct (verify_signature_unlock _ _ _ _).
Qed.

Lemma membership_checks_sound proof sid t : membership_checks proof sid t = Ok tt ->
  let cd := certification_data proof in let uc := unicity_certificate proof in
  StateId_derive (cd_lock_script cd) (cd_source_state_hash cd) = sid /\
  (forall e, cd_expires_at cd = Some e -> val t < val e) /\
  reference_time proof = t /\ val t <= val (timestamp (input_record uc)) /\
  (exists b root, root_hash (input_record uc) = Ok (Some b) /\ DataHash.new Sha256 (val b) = Ok root /\
    InclusionCertificate.verify (inclusion_certificate proof) sid
      (calculate_leaf_value (cd_transaction_hash cd) t) root = true) /\
  (slength (val (shard (shard_tree_certificate uc))) = 0 \/
   ShardId.is_prefix_of (shard (shard_tree_certificate uc)) (val (sid_bytes sid)) = true).
Proof.
  unfold membership_checks. intros E. destruct (bool_decide_reflect (StateId_derive (cd_lock_script (certification_data proof))
    (cd_source_state_hash (certification_data proof)) = sid)) as [Hsid|]; [|done].
  simpl negb in E. cbv iota in E. apply bind_Ok in E as ([] & He & E).
  apply bind_Ok in E as (o & Ho%map_err_Ok & E). apply bind_Ok in E as (b & ->%ok_or_Ok & E).
  apply bind_Ok in E as (root & Hr%map_err_Ok & E).
  destruct (N.eqb_spec (val (reference_time proof)) (val t)) as [Ht|]; [|done].
  destruct (N.ltb_spec (val (timestamp (input_record (unicity_certificate proof)))) (val t)); [done|]. simpl negb in E. cbv iota in E.
  match type of E with (if negb ?b then _ else _) = _ => destruct b eqn:Ev; [|done] end.
  simpl negb in E. cbv iota in E. match type of E with (if ?b then _ else _) = _ => destruct b eqn:Es; [done|] end.
  cbv zeta. split_and!; [done| |by apply val_inj|done|by exists b, root|].
  - intros e Hx. rewrite Hx in He. destruct (N.leb_spec (val e) (val t)); done.
  - apply andb_false_iff in Es as [Es|Es]; apply negb_false_iff in Es; [left; by apply N.eqb_eq|by right].
Qed.

Lemma transaction_verdict_sound {T} `{Transaction T} tb proof (tx : T) t :
  transaction_verdict tb proof tx t = Ok tt -> certified tb proof tx t.
Proof.
  unfold transaction_verdict. intros E. destruct (bool_decide_reflect (cd_lock_script (certification_data proof) = lock_script tx)) as [E1|];
    [|done]. destruct (bool_decide_reflect (cd_source_state_hash (certification_data proof) = source_state_hash tx)) as [E2|]; [|done].
  destruct (bool_decide_reflect (cd_expires_at (certification_data proof) = expires_at tx)) as [E3|]; [|done]. simpl in E.
  destruct (bool_decide_reflect (cd_transaction_hash (certification_data proof) = calculate_transaction_hash tx)) as [E4|]; [|done].
  simpl in E. unfold inclusion_verdict, membership_verdict in E.
  apply bind_Ok in E as ([] & E & Hp). apply bind_Ok in E as ([] & _ & E). apply bind_Ok in E as ([] & Hm & Hu).
  apply membership_checks_sound in Hm as (_ & He & Ht & Hr & Hi & Hs). apply verify_predicate_sound in Hp.
  apply uc_verdict_sound in Hu. rewrite E1, E2, E3, E4 in *. by constructor.
Qed.

(** * No state is spent twice under one root *)

(** The messages that two inclusion certificates for one state hash. *)
Definition spend_messages {T} `{Transaction T} (proof proof' : InclusionProof) (tx tx' : T) (t t' : u64) : list bytes :=
  let key := sid_bytes (StateId_derive (lock_script tx) (source_state_hash tx)) in
  let leaf (tx : T) t := DataHash.data (calculate_leaf_value (calculate_transaction_hash tx) t) in
  let path p tx t := path_messages (InclusionCertificate.bitmap (inclusion_certificate p)) key key (leaf tx t) depths
    (InclusionCertificate.siblings (inclusion_certificate p)) in
  let value (tx : T) t := encode_array [encode_byte_string (DataHash.data (calculate_transaction_hash tx)); encode_uint t] in
  path proof tx t ++ path proof' tx' t' ++ [value tx t; value tx' t'] ++ [transaction_to_cbor tx; transaction_to_cbor tx'].

Lemma calculate_leaf_value_inj hashed h t h' t' : length (DataHash.data h) = 32%nat -> length (DataHash.data h') = 32%nat ->
  hashed (encode_array [encode_byte_string (DataHash.data h); encode_uint t]) ->
  hashed (encode_array [encode_byte_string (DataHash.data h'); encode_uint t']) ->
  DataHash.data (calculate_leaf_value h t) = DataHash.data (calculate_leaf_value h' t') ->
  (DataHash.data h = DataHash.data h' /\ t = t') \/ Collision hashed.
Proof.
  intros Hl Hl' Hq Hq' E. unfold calculate_leaf_value in E. rewrite !sha256_data in E. apply val_inj in E.
  apply (digest_inj hashed) in E as [E|]; [left|by right|done..].
  apply encode_array_inj in E.
  - injection E as E1 E2. split; [|by apply encode_uint_inj]. apply encode_byte_string_inj in E1; unfold len; rewrite ?Hl, ?Hl'; done.
  - eauto with items.
  - eauto with items.
  - clear Hq Hq' E. assert (len (DataHash.data h) = 32) as H32 by (unfold len; by rewrite Hl).
    pose proof (len_head_bound major.BYTES (wrap 64 (len (DataHash.data h)))). pose proof (len_head_bound major.UINT t).
    pose proof (len_head_bound major.ARRAY (wrap 64 (len [encode_byte_string (DataHash.data h); encode_uint t]))).
    unfold encode_array, encode_byte_string, encode_uint, head, usize_max in *. cbn [concat] in *. rewrite !len_app. change (len (@nil byte)) with 0. lia.
Qed.

(** What an accepting run of the verifier checked, whatever its session. *)
Lemma verify_inclusion_checked {T} `{Transaction T} proof (tx : T) t s : fst (verify_inclusion_proof proof tx t s) = Ok tt ->
  let cd := certification_data proof in
  cd_lock_script cd = lock_script tx /\ cd_source_state_hash cd = source_state_hash tx /\
  cd_transaction_hash cd = calculate_transaction_hash tx /\
  membership_checks proof (StateId_derive (lock_script tx) (source_state_hash tx)) t = Ok tt.
Proof.
  unfold verify_inclusion_proof. destruct (bool_decide_reflect (cd_lock_script (certification_data proof) = lock_script tx)) as [E1|]; [|done].
  destruct (bool_decide_reflect (cd_source_state_hash (certification_data proof) = source_state_hash tx)) as [E2|]; [|done].
  destruct (bool_decide_reflect (cd_expires_at (certification_data proof) = expires_at tx)) as [E3|]; [|done]. cbn [negb orb].
  destruct (bool_decide_reflect (cd_transaction_hash (certification_data proof) = calculate_transaction_hash tx)) as [E4|]; [|done]. cbn [negb].
  destruct (verify_inclusion_proof_in _ _ _ s) as [r s1] eqn:E. intros [= ->]. unfold verify_inclusion_proof_in, verify_membership_in, verify_membership_under in E.
  apply bindM_Ok in E as ([] & s2 & E & _). apply bindM_Ok in E as ([] & s3 & _ & E). by apply bindM_Ok in E as ([] & s4 & [Hm ->]%liftM_Ok & _).
Qed.

(** The proof shows the leaf of [tx] under the root that its record names. *)
Definition included {T} `{Transaction T} (proof : InclusionProof) (tx : T) (t : u64) : Prop := exists b root,
  root_hash (input_record (unicity_certificate proof)) = Ok (Some b) /\ DataHash.new Sha256 (val b) = Ok root /\
  InclusionCertificate.verify (inclusion_certificate proof) (StateId_derive (lock_script tx) (source_state_hash tx))
    (calculate_leaf_value (calculate_transaction_hash tx) t) root = true.

(** One root shows one leaf for a state. *)
Lemma included_once {T} `{Transaction T} proof proof' (tx tx' : T) t t' : included proof tx t -> included proof' tx' t' ->
  lock_script tx = lock_script tx' -> source_state_hash tx = source_state_hash tx' ->
  root_hash (input_record (unicity_certificate proof)) = root_hash (input_record (unicity_certificate proof')) ->
  (transaction_to_cbor tx = transaction_to_cbor tx' /\ t = t') \/ Collision (.∈ spend_messages proof proof' tx tx' t t').
Proof.
  intros (b & root & Hb & Hroot & Hi) (b' & root' & Hb' & Hroot' & Hi') El Es Er.
  rewrite Er, Hb' in Hb. injection Hb as ->. rewrite Hroot in Hroot'. injection Hroot' as <-.
  unfold InclusionCertificate.verify in Hi, Hi'. rewrite <- El, <- Es in Hi'.
  destruct (fold_certificate_path (InclusionCertificate.bitmap (inclusion_certificate proof)) _ _ _ _) as [h| |] eqn:Ef; [|done..].
  destruct (fold_certificate_path (InclusionCertificate.bitmap (inclusion_certificate proof')) _ _ _ _) as [h'| |] eqn:Ef'; [|done..].
  apply bool_decide_eq_true_1 in Hi as ->, Hi' as ->.
  destruct (fold_binding _ _ _ _ _ _ _ _ _ _ Ef Ef') as [[_ E]|Hcol].
  2: { right. eapply Collision_mono; [|exact Hcol]. intros m Hm%elem_of_app. unfold spend_messages.
       rewrite !elem_of_app. tauto. }
  assert (forall T (HT : Transaction T) (x : T), length (DataHash.data (calculate_transaction_hash x)) = 32%nat) as Hl.
  { intros. apply (arr_length (Sha256_digest _)). }
  apply (calculate_leaf_value_inj (.∈ spend_messages proof proof' tx tx' t t')) in E as [[E ->]|]; [|by right|apply Hl|apply Hl|..];
    [|unfold spend_messages; rewrite !elem_of_app, !elem_of_cons; tauto..].
  unfold calculate_transaction_hash in E. rewrite !sha256_data in E. apply val_inj in E.
  apply (digest_inj (.∈ spend_messages proof proof' tx tx' t' t')) in E as [->|]; [by left|by right|..];
    unfold spend_messages; rewrite !elem_of_app, !elem_of_cons; tauto.
Qed.

(** C9. No double spend under one root: when the verifier accepts two inclusion
    proofs, in whatever sessions and for whatever trust bases, for two
    transactions that spend one state, and the two certified input records name
    one tree root, then the transactions are one, certified for one reference
    time; or SHA-256 collides on two of the messages that the two checks hash. *)
Theorem certified_once {T} `{Transaction T} proof proof' (tx tx' : T) t t' s s' :
  fst (verify_inclusion_proof proof tx t s) = Ok tt -> fst (verify_inclusion_proof proof' tx' t' s') = Ok tt ->
  lock_script tx = lock_script tx' -> source_state_hash tx = source_state_hash tx' ->
  root_hash (input_record (unicity_certificate proof)) = root_hash (input_record (unicity_certificate proof')) ->
  (transaction_to_cbor tx = transaction_to_cbor tx' /\ t = t') \/ Collision (.∈ spend_messages proof proof' tx tx' t t').
Proof.
  intros (_ & _ & Ec & Hc)%verify_inclusion_checked (_ & _ & Ec' & Hc')%verify_inclusion_checked.
  apply membership_checks_sound in Hc as (_ & _ & _ & _ & Hi & _), Hc' as (_ & _ & _ & _ & Hi' & _).
  rewrite Ec in Hi. rewrite Ec' in Hi'. by apply included_once.
Qed.
End certified.

(** * Tokens *)

(** The policy under which tokens are verified. *)
Definition ordinary (p : arr 32) : Prop := p = zero_policy.

Definition proof_seal (p : InclusionProof) : UnicitySeal := unicity_seal (unicity_certificate p).

(** The seals that the verification of a token meets, when its verifiers ask about
    the tokens that [embeds] names: those of its proofs, and of the tokens
    embedded in its mint. *)
Inductive run_seal (embeds : CertifiedMintTransaction -> Token -> Prop) : Token -> UnicitySeal -> Prop :=
| rs_genesis token : run_seal embeds token (proof_seal (cm_inclusion_proof (genesis token)))
| rs_transfer token c : c ∈ transactions token -> run_seal embeds token (proof_seal (ct_inclusion_proof c))
| rs_embedded token token' seal : embeds (genesis token) token' -> run_seal embeds token' seal -> run_seal embeds token seal.

(** The seals of the token's own proofs. *)
Definition outer_seals (t : Token) : list UnicitySeal :=
  proof_seal (cm_inclusion_proof (genesis t)) :: ((fun c => proof_seal (ct_inclusion_proof c)) <$> transactions t).

Lemma run_seal_inv embeds t seal : run_seal embeds t seal ->
  seal ∈ outer_seals t \/ exists t', embeds (genesis t) t' /\ run_seal embeds t' seal.
Proof.
  unfold outer_seals. intros Hr. inversion Hr as [|? c Hc|? t' ? He Hr']; subst; [left; left|left; right|right; by exists t'].
  apply list_elem_of_fmap. by exists c.
Qed.

Lemma outer_run_seal embeds t seal : seal ∈ outer_seals t -> run_seal embeds t seal.
Proof.
  intros [->|(c & -> & Hc)%list_elem_of_fmap]%elem_of_cons; [exact (rs_genesis embeds t)|exact (rs_transfer embeds t c Hc)].
Qed.

(** ** Two runs *)

Section token.
Context `{Sha2} `{K256}.

(** The contexts and seals that the sessions are used with. *)
Context (contexts : NonInclusionContext -> Prop) (K : UnicitySeal -> Prop).

Abbreviation session := (session_of K (remembered ordinary contexts)).

(** Two contexts at one point of a verification: they differ in what their memos
    hold, and in nothing that a verifier can observe. *)
Record same (tb : RootTrustBase) (pol : VerificationPolicy) (d : N) (c1 c2 : VerificationContext) : Prop := {
  sm_policy1 : policy c1 = pol; sm_policy2 : policy c2 = pol;
  sm_depth1 : embedded_token_depth c1 = d; sm_depth2 : embedded_token_depth c2 = d;
  sm_bytes : total_embedded_token_bytes c1 = total_embedded_token_bytes c2;
  sm_session1 : session tb (seals c1); sm_session2 : session tb (seals c2);
  sm_interner1 : remembers (parsed (decode_limits (limits pol))) (interner c1);
  sm_interner2 : remembers (parsed (decode_limits (limits pol))) (interner c2);
}.

(** Both runs answer alike and keep the contexts alike, and an accepting answer
    establishes [Q]. *)
Definition agree {A} (tb : RootTrustBase) (pol : VerificationPolicy) (d : N) (Q : A -> Prop) (m1 m2 : ContextM A) : Prop :=
  forall c1 c2, same tb pol d c1 c2 ->
  (fst (m1 c1) = fst (m2 c2) /\ same tb pol d (snd (m1 c1)) (snd (m2 c2)) /\ forall a, fst (m1 c1) = Ok a -> Q a)
  \/ memo_clash K tb.

Section agree.
Context (tb : RootTrustBase) (pol : VerificationPolicy) (d : N).

Lemma agree_lift {A} (r : verdict A) : agree tb pol d (fun a => r = Ok a) (liftM r) (liftM r).
Proof. intros c1 c2 Hs. by left. Qed.

Lemma agree_ret {A} (a : A) (Q : A -> Prop) : Q a -> agree tb pol d Q (mret a) (mret a).
Proof. intros Ha c1 c2 Hs. left. split_and!; [done..|]. by intros ? [= <-]. Qed.

Lemma agree_err {A} e (Q : A -> Prop) : agree tb pol d Q (liftM (Err e)) (liftM (Err e)).
Proof. intros c1 c2 Hs. by left. Qed.

Lemma agree_mono {A} (P Q : A -> Prop) m1 m2 : (forall a, P a -> Q a) -> agree tb pol d P m1 m2 -> agree tb pol d Q m1 m2.
Proof. intros Hpq Hm c1 c2 Hs. destruct (Hm c1 c2 Hs) as [(? & ? & ?)|]; [left|by right]. split_and!; auto. Qed.

Lemma agree_bind {A B} (P : A -> Prop) (Q : B -> Prop) m1 m2 (k1 k2 : A -> ContextM B) :
  agree tb pol d P m1 m2 -> (forall a, P a -> agree tb pol d Q (k1 a) (k2 a)) -> agree tb pol d Q (m1 ≫= k1) (m2 ≫= k2).
Proof.
  intros Hm Hk c1 c2 Hs. rewrite !bindM_run. destruct (Hm c1 c2 Hs) as [(E & Hs' & HP)|]; [|by right].
  destruct (m1 c1) as [r1 c1'], (m2 c2) as [r2 c2']. simpl in *. subst r2.
  destruct r1 as [a|e|]; [apply Hk; auto|by left..].
Qed.

Lemma agree_get {A} (Q : A -> Prop) (k1 k2 : VerificationContext -> ContextM A) :
  (forall c1 c2, same tb pol d c1 c2 -> agree tb pol d Q (k1 c1) (k2 c2)) -> agree tb pol d Q (c ← get; k1 c) (c ← get; k2 c).
Proof. intros Hk c1 c2 Hs. rewrite !bindM_run. unfold get. by apply Hk. Qed.

Lemma agree_map_err {A} f (Q : A -> Prop) m1 m2 : agree tb pol d Q m1 m2 -> agree tb pol d Q (map_errM f m1) (map_errM f m2).
Proof.
  intros Hm c1 c2 Hs. unfold map_errM. destruct (Hm c1 c2 Hs) as [(E & Hs' & HP)|]; [|by right]. left.
  destruct (m1 c1) as [r1 c1'], (m2 c2) as [r2 c2']. simpl in *. subst r2. split_and!; [done..|].
  intros a Ha%map_err_Ok. auto.
Qed.

(** A call on the session that answers [r] whatever the memos. *)
Lemma agree_seals {A} (m : M SealSession VerificationError A) r : answers ordinary contexts K tb (memo_clash K tb) m r ->
  agree tb pol d (fun a => r = Ok a) (on_seals m) (on_seals m).
Proof.
  intros Hm c1 c2 Hs. unfold on_seals, zoom. destruct (Hm _ (sm_session1 _ _ _ _ _ Hs)) as [[E1 H1]|]; [|by right].
  destruct (Hm _ (sm_session2 _ _ _ _ _ Hs)) as [[E2 H2]|]; [|by right]. left.
  destruct (m (seals c1)) as [r1 s1], (m (seals c2)) as [r2 s2]. simpl in *. subst. split_and!; [done| |done].
  destruct Hs. by constructor.
Qed.

(** A decoding through the interner that agrees with a decoding without it. *)
Lemma agree_interner {A} (f : M UcInterner VerificationError A) r :
  (forall i, remembers (parsed (decode_limits (limits pol))) i ->
     fst (f i) = r /\ remembers (parsed (decode_limits (limits pol))) (snd (f i))) ->
  agree tb pol d (fun a => r = Ok a) (on_interner f) (on_interner f).
Proof.
  intros Hf c1 c2 Hs. unfold on_interner, zoom. destruct (Hf _ (sm_interner1 _ _ _ _ _ Hs)) as [E1 H1].
  destruct (Hf _ (sm_interner2 _ _ _ _ _ Hs)) as [E2 H2]. left.
  destruct (f (interner c1)) as [r1 s1], (f (interner c2)) as [r2 s2]. simpl in *. subst. split_and!; [done| |done].
  destruct Hs. by constructor.
Qed.

Lemma agree_forM {A} (P : A -> Prop) (f : A -> ContextM unit) l :
  (forall a, a ∈ l -> agree tb pol d (fun _ => P a) (f a) (f a)) -> agree tb pol d (fun _ => Forall P l) (forM_ f l) (forM_ f l).
Proof.
  induction l as [|a l IH]; intros Hf; simpl; [by apply agree_ret|].
  eapply agree_bind; [apply Hf; left|]. intros [] Ha. eapply agree_mono; [|apply IH; intros; apply Hf; by right].
  intros [] Hl. by constructor.
Qed.

Lemma agree_proof {T} `{Transaction T} f proof (tx : T) : K (proof_seal proof) -> wf (unicity_certificate proof) ->
  agree tb pol d (fun _ => certified tb proof tx (reference_time proof))
    (map_errM f (on_seals (verify_inclusion_proof proof tx (reference_time proof))))
    (map_errM f (on_seals (verify_inclusion_proof proof tx (reference_time proof)))).
Proof.
  intros HK Hw. apply agree_map_err. eapply agree_mono; [|apply agree_seals, answers_transaction; [exact HK|exact Hw|done]].
  intros [] E. by apply transaction_verdict_sound.
Qed.

(** Entering and leaving an embedded token. *)
Lemma agree_embedded Q f1 f2 t n : d <= val (max_embedded_token_depth (limits pol)) ->
  (d < val (max_embedded_token_depth (limits pol)) -> agree tb pol (d + 1) (fun _ => Q t) (f1 t) (f2 t)) ->
  agree tb pol d (fun _ => Q t) (verify_embedded_token f1 t n) (verify_embedded_token f2 t n).
Proof.
  intros Hd Hf c1 c2 Hs. unfold verify_embedded_token, stateM.
  rewrite (sm_policy1 _ _ _ _ _ Hs), (sm_policy2 _ _ _ _ _ Hs), (sm_depth1 _ _ _ _ _ Hs), (sm_depth2 _ _ _ _ _ Hs), (sm_bytes _ _ _ _ _ Hs).
  destruct (N.eqb_spec d (val (max_embedded_token_depth (limits pol)))) as [|Hne]; [by left|].
  destruct (checked_add _ _) as [total|]; [|by left]. destruct (_ <? total); [by left|].
  assert (same tb pol (d + 1) (set_embedded (d + 1) total c1) (set_embedded (d + 1) total c2)) as Hs'.
  { destruct Hs. by constructor. }
  destruct (Hf ltac:(lia) _ _ Hs') as [(E & Hs2 & HQ)|]; [|by right]. left.
  destruct (f1 t _) as [r1 c1'], (f2 t _) as [r2 c2']. simpl in *. subst r2. split_and!; [done| |done].
  destruct Hs2 as [? ? E1 E2 ?]. constructor; try done; simpl; rewrite ?E1, ?E2; lia.
Qed.
End agree.
End token.

(** ** The registry *)

Section registered.
Context `{Sha2} `{K256}.

(** What a verifier accepts, given what the embedded tokens it asks about satisfy. *)
Definition meaning : Type := (Token -> Prop) -> CertifiedMintTransaction -> Prop.

(** A verifier reaches the context only through its methods: it cannot tell two
    contexts at one point apart, and it accepts what it should. The tokens it
    asks about are decoded ones that the genesis [embeds]. *)
Definition verifier_ok (embeds : CertifiedMintTransaction -> Token -> Prop) (accepted : meaning)
    (verify : Embedded -> CertifiedMintTransaction -> ContextM unit) : Prop :=
  forall contexts K tb pol d (Q : Token -> Prop) (e1 e2 : Embedded) genesis, wf genesis ->
  (forall t n, token_wf t -> embeds genesis t -> agree contexts K tb pol d (fun _ => Q t) (e1 t n) (e2 t n)) ->
  agree contexts K tb pol d (fun _ => accepted Q genesis) (verify e1 genesis) (verify e2 genesis).

Record registry_ok (embeds : CertifiedMintTransaction -> Token -> Prop) (justified data_ok : meaning)
    (registry : MintJustificationRegistry) : Prop := {
  ro_justified : forall t v, map_get (verifiers registry) t = Some v -> verifier_ok embeds justified (mj_verify v);
  ro_data : forall t v, map_get (data_verifiers registry) t = Some v -> verifier_ok embeds data_ok (td_verify v);
}.

Lemma registry_ok_empty embeds justified data_ok : registry_ok embeds justified data_ok empty_registry.
Proof. by split. Qed.

Context (embeds : CertifiedMintTransaction -> Token -> Prop) (justified data_ok : meaning).
Context (registry : MintJustificationRegistry) (Hreg : registry_ok embeds justified data_ok registry).
Context (contexts : NonInclusionContext -> Prop) (K : UnicitySeal -> Prop).

Abbreviation session := (session_of K (remembered ordinary contexts)).
Abbreviation agree := (agree contexts K).
Abbreviation same := (same contexts K).

(** A genesis is justified: it claims nothing, or a registered verifier accepted
    the claim. Likewise for its payload. *)
Definition genesis_justified (Q : Token -> Prop) (g : CertifiedMintTransaction) : Prop :=
  justification (cm_transaction g) = None \/ justified Q g.
Definition genesis_data_ok (pol : VerificationPolicy) (Q : Token -> Prop) (g : CertifiedMintTransaction) : Prop :=
  data (cm_transaction g) = None \/ data_ok Q g \/
  (require_token_data_verifier pol = false /\ map_get (data_verifiers registry) (type_bytes (token_type (cm_transaction g))) = None).

Lemma agree_justification tb pol d Q e1 e2 g : wf g ->
  (forall t n, token_wf t -> embeds g t -> agree tb pol d (fun _ => Q t) (e1 t n) (e2 t n)) ->
  agree tb pol d (fun _ => genesis_justified Q g) (registry_verify_genesis registry e1 g) (registry_verify_genesis registry e2 g).
Proof.
  intros Hg He. unfold registry_verify_genesis, genesis_justified.
  destruct (justification (cm_transaction g)) as [b|]; [|apply agree_ret; by left].
  apply agree_get. intros c1 c2 Hs. rewrite (sm_policy1 _ _ _ _ _ _ _ Hs), (sm_policy2 _ _ _ _ _ _ _ Hs).
  eapply agree_bind; [apply agree_lift|]. intros [t inner] _.
  eapply agree_bind; [apply agree_lift|]. intros v Hv%ok_or_Ok.
  eapply agree_mono; [|by eapply (ro_justified _ _ _ _ Hreg)]. intros. by right.
Qed.

Lemma agree_token_data tb pol d Q e1 e2 g : wf g ->
  (forall t n, token_wf t -> embeds g t -> agree tb pol d (fun _ => Q t) (e1 t n) (e2 t n)) ->
  agree tb pol d (fun _ => genesis_data_ok pol Q g) (registry_verify_token_data registry e1 g) (registry_verify_token_data registry e2 g).
Proof.
  intros Hg He. unfold registry_verify_token_data, genesis_data_ok.
  destruct (data (cm_transaction g)) as [b|]; [|apply agree_ret; by left].
  apply agree_get. intros c1 c2 Hs. rewrite (sm_policy1 _ _ _ _ _ _ _ Hs), (sm_policy2 _ _ _ _ _ _ _ Hs).
  destruct (_ <? _); [apply agree_err|].
  destruct (map_get (data_verifiers registry) _) as [v|] eqn:Ev.
  - eapply agree_mono; [|by eapply (ro_data _ _ _ _ Hreg)]. intros. by right; left.
  - destruct (require_token_data_verifier pol); [apply agree_err|apply agree_ret]. by right; right.
Qed.

(** ** The whole history *)

(** [n] bounds the nesting of the tokens that verifiers ask about. *)
Fixpoint token_certified (n : nat) (tb : RootTrustBase) (pol : VerificationPolicy) (token : Token) : Prop :=
  match n with
  | O => False
  | S n =>
      let g := genesis token in
      len (transactions token) <= val (max_token_transfers (limits pol)) /\
      network_id (cm_transaction g) = tb_network_id tb /\
      (exists pk, Minter.public_key (token_id (cm_transaction g)) = Ok pk /\
        cd_lock_script (certification_data (cm_inclusion_proof g)) = from_predicate {| sp_public_key := pk |}) /\
      certified tb (cm_inclusion_proof g) (cm_transaction g) (reference_time (cm_inclusion_proof g)) /\
      genesis_data_ok pol (token_certified n tb pol) g /\
      genesis_justified (token_certified n tb pol) g /\
      Forall (fun t => certified tb (ct_inclusion_proof t) (ct_transaction t) (reference_time (ct_inclusion_proof t)))
        (transactions token)
  end.

Lemma wf_proof_certificate (p : InclusionProof) : wf p -> wf (unicity_certificate p).
Proof. intros Hp. codec_unfold InclusionProof_codec. tauto. Qed.

Lemma wf_genesis_certificate (g : CertifiedMintTransaction) : wf g -> wf (unicity_certificate (cm_inclusion_proof g)).
Proof. intros Hg. apply wf_proof_certificate. codec_unfold CertifiedMint_codec. tauto. Qed.

Lemma agree_verify_genesis tb pol d Q e1 e2 token : K (proof_seal (cm_inclusion_proof (genesis token))) -> wf (genesis token) ->
  (forall t n, token_wf t -> embeds (genesis token) t -> agree tb pol d (fun _ => Q t) (e1 t n) (e2 t n)) ->
  agree tb pol d (fun _ => let g := genesis token in
      network_id (cm_transaction g) = tb_network_id tb /\
      (exists pk, Minter.public_key (token_id (cm_transaction g)) = Ok pk /\
        cd_lock_script (certification_data (cm_inclusion_proof g)) = from_predicate {| sp_public_key := pk |}) /\
      certified tb (cm_inclusion_proof g) (cm_transaction g) (reference_time (cm_inclusion_proof g)) /\
      genesis_data_ok pol Q g /\ genesis_justified Q g)
    (verify_genesis registry e1 token) (verify_genesis registry e2 token).
Proof.
  intros HK Hg He. unfold verify_genesis. apply agree_get. intros c1 c2 Hs. unfold context_trust_base.
  rewrite (proj2 (sm_session1 _ _ _ _ _ _ _ Hs)), (proj2 (sm_session2 _ _ _ _ _ _ _ Hs)).
  destruct (bool_decide_reflect (network_id (cm_transaction (genesis token)) = tb_network_id tb)) as [Hn|]; [|apply agree_err].
  simpl negb. cbv iota. eapply agree_bind; [apply agree_lift|]. intros pk Hpk%map_err_Ok.
  destruct (bool_decide_reflect (cd_lock_script (certification_data (cm_inclusion_proof (genesis token))) =
    from_predicate {| sp_public_key := pk |})) as [Hl|]; [|apply agree_err]. simpl negb. cbv iota.
  eapply agree_bind; [apply agree_proof; [exact HK|by apply wf_genesis_certificate]|]. intros [] Hc.
  eapply agree_bind; [by apply agree_token_data|]. intros [] Hd.
  eapply agree_mono; [|by apply agree_justification]. intros [] Hj. split_and!; try done. by exists pk.
Qed.

(** With enough fuel, verification answers alike whatever the fuel and the
    memos, and an accepted token is certified throughout. *)
Theorem token_agree tb pol n : forall d f1 f2 token, d + N.of_nat n = val (max_embedded_token_depth (limits pol)) ->
  (n < f1)%nat -> (n < f2)%nat -> token_wf token -> (forall seal, run_seal embeds token seal -> K seal) ->
  agree tb pol d (fun _ => token_certified (S n) tb pol token)
    (verify_token_in_context f1 registry token) (verify_token_in_context f2 registry token).
Proof.
  induction n as [n IH] using lt_wf_ind. intros d [|f1] [|f2] token Hd H1 H2 (Hg & _ & Hp) HK; [lia..|]. cbn [verify_token_in_context].
  apply agree_get; intros c1 c2 Hs; rewrite (sm_policy1 _ _ _ _ _ _ _ Hs), (sm_policy2 _ _ _ _ _ _ _ Hs).
  destruct (N.ltb_spec (val (max_token_transfers (limits pol))) (len (transactions token))) as [|Hl]; [apply agree_err|].
  assert (forall t k, token_wf t -> embeds (genesis token) t -> agree tb pol d (fun _ => token_certified n tb pol t)
    (verify_embedded_token (verify_token_in_context f1 registry) t k)
    (verify_embedded_token (verify_token_in_context f2 registry) t k)) as He.
  { intros t k Ht Hemb. apply (agree_embedded contexts K tb pol d (token_certified n tb pol)); [lia|]. intros Hlt. destruct n as [|n]; [lia|].
    apply IH; [lia..|done|]. intros seal Hr. by apply HK, (rs_embedded embeds token t). }
  eapply agree_bind; [apply (agree_verify_genesis tb pol d (token_certified n tb pol) _ _ token); [apply HK, rs_genesis|exact Hg|exact He]|].
  intros [] (Hn & Hpk & Hc & Hdt & Hj). eapply agree_mono; [|apply (agree_forM contexts K tb pol d
    (fun e => certified tb (ct_inclusion_proof (snd e)) (ct_transaction (snd e)) (reference_time (ct_inclusion_proof (snd e)))))].
  - intros [] Hf. split_and!; try done. apply Forall_forall. intros t (i & Hi)%list_elem_of_lookup.
    rewrite Forall_forall in Hf. apply (Hf (i, t)). apply list_elem_of_lookup. exists i. by rewrite list_lookup_imap, Hi.
  - intros [i t] (j & Hj')%list_elem_of_lookup. rewrite list_lookup_imap in Hj'.
    destruct (transactions token !! j) as [t'|] eqn:Et; [|done]. injection Hj' as <- <-.
    apply list_elem_of_lookup_2 in Et. apply agree_proof; [by apply HK, rs_transfer|].
    rewrite Forall_forall in Hp. by apply wf_proof_certificate, Hp.
Qed.

(** ** The entry points *)

(** Nothing remembered, and no room to. *)
Definition no_memos (tb : RootTrustBase) (pol : VerificationPolicy) : VerificationContext :=
  start_context (empty_session tb (wrap 64 0)) (empty_interner (wrap 64 0)) pol.

(** The answer of the entry points, from a context without memos. *)
Definition token_verdict (tb : RootTrustBase) (pol : VerificationPolicy) (token : Token) : verdict unit :=
  _ ← map_err InvalidTrustBaseError (validate tb);
  fst (verify_token_in_context (fuel_of pol) registry token (no_memos tb pol)).

(** A session before any use, with room or without. *)
Lemma session_empty tb capacity : val capacity <= MAX_CAPACITY -> session tb (empty_session tb capacity).
Proof. apply session_ok_empty. Qed.

Lemma same_start tb pol i1 i2 s1 s2 : session tb s1 -> session tb s2 ->
  remembers (parsed (decode_limits (limits pol))) i1 -> remembers (parsed (decode_limits (limits pol))) i2 ->
  same tb pol 0 (start_context s1 i1 pol) (start_context s2 i2 pol).
Proof. by constructor. Qed.

Lemma same_no_memos tb pol i s : session tb s -> remembers (parsed (decode_limits (limits pol))) i ->
  same tb pol 0 (start_context s i pol) (no_memos tb pol).
Proof. intros Hs Hi. apply same_start; [done|by apply session_empty|done|by apply remembers_empty]. Qed.

(** From the start of a verification: any fuel above the policy's depth gives the
    same answer, memos or not, and leaves a sound session. *)
Lemma verify_start tb pol token s i fuel : token_wf token -> (forall seal, run_seal embeds token seal -> K seal) -> session tb s ->
  remembers (parsed (decode_limits (limits pol))) i -> (fuel_of pol <= fuel)%nat ->
  validate tb = Ok tt ->
  let c := start_context s i pol in
  (fst (verify_token_in_context fuel registry token c) = token_verdict tb pol token /\
   session tb (seals (snd (verify_token_in_context fuel registry token c))) /\
   (token_verdict tb pol token = Ok tt -> token_certified (fuel_of pol) tb pol token)) \/ memo_clash K tb.
Proof.
  intros Hw HK Hs Hi Hf Hv c. unfold token_verdict. rewrite Hv. cbn [map_err]. rewrite bind_Ok_l.
  destruct (token_agree tb pol (N.to_nat (val (max_embedded_token_depth (limits pol)))) 0 fuel (fuel_of pol) token
    ltac:(lia) ltac:(unfold fuel_of in Hf; lia) ltac:(unfold fuel_of; lia) Hw HK c (no_memos tb pol)) as [(E & Hs' & HQ)|];
    [by apply same_no_memos|left|by right].
  rewrite <- E. split_and!; [done|by destruct Hs'|]. intros Ho. by apply (HQ tt).
Qed.

Lemma with_memo_capacity_fits {E} tb pol capacity : val capacity <= MAX_CAPACITY ->
  with_memo_capacity (E := E) tb pol capacity = Ok (start_context (empty_session tb capacity) (empty_interner capacity) pol).
Proof. intros Hc. unfold with_memo_capacity. by rewrite (with_capacity_session_fits _ _ Hc), bind_Ok_l, (with_capacity_fits _ Hc). Qed.

Lemma verify_with_capacity tb pol token capacity : val capacity <= MAX_CAPACITY -> token_wf token ->
  (forall seal, run_seal embeds token seal -> K seal) ->
  fst (verify_token_with_memo_capacity token tb registry pol capacity) = token_verdict tb pol token \/ memo_clash K tb.
Proof.
  intros Hc Hw HK. unfold verify_token_with_memo_capacity. rewrite (with_memo_capacity_fits _ _ _ Hc).
  destruct (validate tb) as [[]|e|] eqn:Hv; cbn [map_err]; [|left; unfold token_verdict; by rewrite Hv..].
  destruct (verify_start tb pol token (empty_session tb capacity) (empty_interner capacity) (fuel_of pol) Hw HK)
    as [(E & _)|]; [by apply session_empty|by apply remembers_empty|done|done|left|by right].
  by destruct (verify_token_in_context _ _ _ _).
Qed.

Lemma verify_in_session tb pol token s : token_wf token -> (forall seal, run_seal embeds token seal -> K seal) -> session tb s ->
  (fst (verify_token_in_session token s registry pol) = token_verdict tb pol token /\
   session tb (snd (verify_token_in_session token s registry pol))) \/ memo_clash K tb.
Proof.
  intros Hw HK Hs. unfold verify_token_in_session. rewrite (proj2 Hs). destruct (validate tb) as [[]|e|] eqn:Hv; cbn [map_err];
    [|left; unfold token_verdict; by rewrite Hv..].
  destruct (verify_start tb pol token s UcInterner.new (fuel_of pol) Hw HK) as [(E & Hs' & _)|];
    [done|apply remembers_new|done|done|left|by right].
  unfold with_session. destruct (verify_token_in_context _ _ _ _). done.
Qed.

Lemma token_verdict_sound tb pol token : token_wf token -> (forall seal, run_seal embeds token seal -> K seal) ->
  token_verdict tb pol token = Ok tt -> token_certified (fuel_of pol) tb pol token \/ memo_clash K tb.
Proof.
  intros Hw HK E. pose proof E as ([] & Hv%map_err_Ok & _)%bind_Ok.
  destruct (verify_start tb pol token (new_session tb) UcInterner.new (fuel_of pol) Hw HK) as [(_ & _ & Hc)|];
    [apply session_ok_new|apply remembers_new|done|done|left; auto|by right].
Qed.
End registered.

(** * No run exhausts its fuel *)

Section total.
Context `{Sha2} `{K256}.

(** Sessions and contexts whose indexes are in use. *)
Definition session_usable (s : SealSession) : Prop := indexed (memo s) /\ indexed (bodies s).
Definition interner_usable (i : UcInterner) : Prop := indexed (index i).
Definition usable (c : VerificationContext) : Prop := session_usable (seals c) /\ interner_usable (interner c).

(** [m] returns at depth [d] under [pol], and leaves both as they were. *)
Definition returns {A} (pol : VerificationPolicy) (d : N) (m : ContextM A) : Prop :=
  steady (fun c => policy c = pol /\ embedded_token_depth c = d /\ usable c) m.

Lemma returns_lift {A} pol d (r : verdict A) : no_panic r -> returns pol d (liftM r).
Proof. apply steady_lift. Qed.

Lemma returns_bind {A B} pol d (m : ContextM A) (k : A -> ContextM B) :
  returns pol d m -> (forall a, returns pol d (k a)) -> returns pol d (m ≫= k).
Proof. apply steady_bind. Qed.

Lemma returns_bind_lift {A B} pol d (r : verdict A) (k : A -> ContextM B) :
  no_panic r -> (forall a, r = Ok a -> returns pol d (k a)) -> returns pol d (liftM r ≫= k).
Proof. apply steady_bind_lift. Qed.

Lemma returns_get {A} pol d (k : VerificationContext -> ContextM A) :
  (forall c, policy c = pol -> returns pol d (k c)) -> returns pol d (c ← get; k c).
Proof. intros Hk c Hc. rewrite bindM_run. unfold get. destruct Hc as [Hp ?]. by apply Hk. Qed.

Lemma returns_map_err {A} pol d f (m : ContextM A) : returns pol d m -> returns pol d (map_errM f m).
Proof. apply steady_map_err. Qed.

Lemma returns_seals {A} pol d (m : M SealSession VerificationError A) : steady session_usable m -> returns pol d (on_seals m).
Proof.
  apply steady_zoom.
  - by intros c (_ & _ & ? & _).
  - intros c s (? & ? & _ & ?) ?. by split_and!.
Qed.

Lemma returns_interner {A} pol d (m : M UcInterner VerificationError A) : steady interner_usable m -> returns pol d (on_interner m).
Proof.
  apply steady_zoom.
  - by intros c (_ & _ & _ & ?).
  - intros c i (? & ? & ? & _) ?. by split_and!.
Qed.

Lemma returns_forM {A} pol d (f : A -> ContextM unit) l : (forall a, returns pol d (f a)) -> returns pol d (forM_ f l).
Proof. intros Hf. induction l as [|a l IH]; simpl; [by apply returns_lift|]. by apply returns_bind. Qed.

Lemma memo_steady {A} (m : M (FifoIndex (arr 32)) VerificationError A) : steady indexed m -> steady session_usable (on_memo m).
Proof. apply steady_zoom; [by intros s [? ?]|intros s i [? ?] ?; by split]. Qed.

Lemma bodies_steady {A} (m : M (FifoIndex (arr 32 * UnicityCertificate)) VerificationError A) :
  steady indexed m -> steady session_usable (on_bodies m).
Proof. apply steady_zoom; [by intros s [? ?]|intros s i [? ?] ?; by split]. Qed.

Lemma ensure_steady : steady session_usable ensure_trust_base.
Proof.
  intros s Hs. unfold ensure_trust_base. destruct (negb (validated s)); [|done]. pose proof (validate_no_panic (trust_base s)) as Hn.
  by destruct (validate _).
Qed.

Lemma verify_quorum_steady seal policy : steady session_usable (verify_quorum_under seal policy).
Proof.
  unfold verify_quorum_under. apply steady_bind; [apply ensure_steady|]. intros [].
  apply steady_bind; [apply memo_steady, contains_steady|]. intros [|]; [by apply steady_modify|].
  apply steady_bind; [by apply steady_modify|]. intros _. apply steady_get. intros s.
  apply steady_bind; [apply steady_lift, quorum_met_no_panic|]. intros _. apply memo_steady, insert_steady.
Qed.

Lemma computed_seal_hash_no_panic uc : no_panic (computed_seal_hash uc).
Proof.
  unfold computed_seal_hash. apply no_panic_bind; [|done].
  destruct (shard_tree_root_hash_total uc) as [[_ [h ->]]|[_ ->]]; done.
Qed.

Lemma check_body_no_panic uc : no_panic (check_body uc).
Proof. unfold check_body. solve_no_panic. Qed.

Lemma DataHash_new_no_panic a b : no_panic (DataHash.new a b).
Proof. unfold DataHash.new. by destruct (mk_sub _). Qed.

Lemma root_hash_no_panic ir : no_panic (root_hash ir).
Proof. unfold root_hash. solve_no_panic. Qed.

Lemma membership_checks_no_panic proof sid t : no_panic (membership_checks proof sid t).
Proof.
  unfold membership_checks. pose proof root_hash_no_panic. pose proof DataHash_new_no_panic. solve_no_panic; auto.
Qed.

Lemma verify_uc_steady uc policy : steady session_usable (verify_unicity_certificate uc policy).
Proof.
  unfold verify_unicity_certificate. destruct (negb _); [by apply steady_lift|].
  apply steady_bind.
  { unfold body_verified. apply steady_bind; [apply bodies_steady, contains_steady|]. intros hit.
    apply steady_bind; [destruct hit; [by apply steady_modify|apply steady_ret]|]. intros. apply steady_ret. }
  intros [|]; [apply steady_ret|]. apply steady_bind; [by apply steady_modify|]. intros [].
  apply steady_bind; [apply steady_lift, no_panic_map_err, check_body_no_panic|]. intros [].
  apply steady_bind; [apply steady_lift; unfold check_seal_shape; by case_match|]. intros [].
  apply steady_get. intros self. destruct (negb _); [by apply steady_lift|].
  apply steady_bind; [apply steady_lift, no_panic_map_err, computed_seal_hash_no_panic|]. intros h.
  destruct (negb _); [by apply steady_lift|]. apply steady_bind; [apply verify_quorum_steady|]. intros [].
  apply bodies_steady, insert_steady.
Qed.

Lemma verify_inclusion_steady {T} `{Transaction T} proof (tx : T) t : steady session_usable (verify_inclusion_proof proof tx t).
Proof.
  unfold verify_inclusion_proof. destruct (_ || _); [by apply steady_lift|]. destruct (negb _); [by apply steady_lift|].
  unfold verify_inclusion_proof_in, verify_membership_in, verify_membership_under.
  apply steady_bind; [apply steady_bind; [apply ensure_steady|]; intros []|intros []].
  - apply steady_bind; [apply steady_lift, membership_checks_no_panic|]. intros []. apply verify_uc_steady.
  - apply steady_lift. unfold verify_predicate. apply no_panic_bind; [auto with outcome|]. intros p _. by case_match.
Qed.

(** A verifier that returns when the verification of embedded tokens does. *)
Definition verifier_returns (verify : Embedded -> CertifiedMintTransaction -> ContextM unit) : Prop :=
  forall pol d (e : Embedded) genesis, (forall t n, returns pol d (e t n)) -> returns pol d (verify e genesis).

Record registry_returns (registry : MintJustificationRegistry) : Prop := {
  rr_justified : forall t v, map_get (verifiers registry) t = Some v -> verifier_returns (mj_verify v);
  rr_data : forall t v, map_get (data_verifiers registry) t = Some v -> verifier_returns (td_verify v);
}.

Lemma registry_returns_empty : registry_returns empty_registry.
Proof. by split. Qed.

Context (registry : MintJustificationRegistry) (Hreg : registry_returns registry).

Lemma returns_genesis pol d e token : (forall t n, returns pol d (e t n)) -> returns pol d (verify_genesis registry e token).
Proof.
  intros He. unfold verify_genesis. apply returns_get. intros c Hc. destruct (negb _); [by apply returns_lift|].
  apply returns_bind; [apply returns_lift; auto with outcome|]. intros pk. destruct (negb _); [by apply returns_lift|].
  apply returns_bind; [apply returns_map_err, returns_seals, verify_inclusion_steady|]. intros [].
  apply returns_bind; [|intros []].
  - unfold registry_verify_token_data. destruct (data _); [|by apply returns_lift]. apply returns_get. intros c' Hc'.
    destruct (_ <? _); [by apply returns_lift|]. destruct (map_get _ _) as [v|] eqn:Ev; [by eapply (rr_data _ Hreg)|].
    destruct (require_token_data_verifier _); by apply returns_lift.
  - unfold registry_verify_genesis. destruct (justification _); [|by apply returns_lift]. apply returns_get. intros c' Hc'.
    apply returns_bind; [apply returns_lift; auto with outcome|]. intros [t inner].
    apply returns_bind_lift; [auto with outcome|]. intros v Hv%ok_or_Ok. by eapply (rr_justified _ Hreg).
Qed.

Lemma returns_embedded pol d (f : Token -> ContextM unit) : d <= val (max_embedded_token_depth (limits pol)) ->
  (d < val (max_embedded_token_depth (limits pol)) -> forall t, returns pol (d + 1) (f t)) ->
  forall t n, returns pol d (verify_embedded_token f t n).
Proof.
  intros Hd Hf t n c (Hp & Hc & Hu). unfold verify_embedded_token, stateM. rewrite Hp, Hc.
  destruct (N.eqb_spec d (val (max_embedded_token_depth (limits pol)))); [by split|].
  destruct (checked_add _ _) as [total|]; [|by split]. destruct (_ <? total); [by split|].
  destruct (Hf ltac:(lia) t (set_embedded (d + 1) total c)) as (Hn & Hp' & Hd' & Hu'); [by split_and!|].
  destruct (f t _) as [r c']. simpl in *. split_and!; [done|done|lia|done].
Qed.

(** One unit of fuel per level of nesting is enough. *)
Lemma token_returns pol n : forall d fuel token, d + N.of_nat n = val (max_embedded_token_depth (limits pol)) ->
  (n < fuel)%nat -> returns pol d (verify_token_in_context fuel registry token).
Proof.
  induction n as [n IH] using lt_wf_ind. intros d [|fuel] token Hd Hf; [lia|]. cbn [verify_token_in_context].
  apply returns_get. intros c Hc. destruct (_ <? _); [by apply returns_lift|].
  apply returns_bind; [apply returns_genesis, returns_embedded; [lia|]|intros []].
  - intros Hlt t. destruct n as [|n]; [lia|]. apply (IH n); lia.
  - apply returns_forM. intros [i t]. apply returns_map_err, returns_seals, verify_inclusion_steady.
Qed.

(** ** Capacities beyond the limit *)

(** A session whose certificate index has no buckets: nothing is accepted. *)
Definition bucketless (s : SealSession) : Prop := exists cap, val cap <> 0 /\ bodies s = with_buckets cap 0.

Lemma bucketless_rejects {T} `{Transaction T} proof (tx : T) t s : bucketless s -> fst (verify_inclusion_proof proof tx t s) <> Ok tt.
Proof.
  intros (cap & Hc & Hb). unfold verify_inclusion_proof. destruct (_ || _); [done|]. destruct (negb _); [done|].
  destruct (verify_inclusion_proof_in _ _ _ s) as [r s1] eqn:E. intros [= ->]. unfold verify_inclusion_proof_in, verify_membership_in, verify_membership_under in E.
  apply bindM_Ok in E as ([] & s2 & E & _). apply bindM_Ok in E as ([] & s3 & He & E). apply bindM_Ok in E as ([] & s4 & [_ ->]%liftM_Ok & E).
  assert (bodies s3 = with_buckets cap 0) as Hb3.
  { unfold ensure_trust_base in He. destruct (negb (validated s)); [|by injection He as <-]. destruct (validate _); [|done..]. by injection He as <-. }
  unfold verify_unicity_certificate in E. destruct (negb _); [done|]. apply bindM_Ok in E as (hit & s5 & E & _).
  unfold body_verified in E. apply bindM_Ok in E as (h & s6 & E & _). unfold on_bodies, zoom in E. rewrite Hb3 in E.
  unfold FifoIndex.contains in E. rewrite bindM_run in E.
  match type of E with context [FifoIndex.find ?h ?q ?i] => pose proof (find_no_buckets (E := VerificationError) cap h q Hc) as Hf end.
  by destruct (FifoIndex.find _ _ _) as [[]].
Qed.

Lemma bucketless_token token fuel s i pol : bucketless s ->
  fst (verify_token_in_context fuel registry token (start_context s i pol)) <> Ok tt.
Proof.
  intros Hb. destruct fuel as [|fuel]; [done|]. destruct (verify_token_in_context _ _ _ _) as [r c1] eqn:E. intros [= ->].
  cbn [verify_token_in_context] in E. apply bindM_Ok in E as (c & ? & [= <- <-] & E). destruct (_ <? _); [done|].
  apply bindM_Ok in E as ([] & c2 & E & _). unfold verify_genesis in E. apply bindM_Ok in E as (c & ? & [= <- <-] & E).
  destruct (negb _); [done|]. apply bindM_Ok in E as (pk & ? & [_ ->]%liftM_Ok & E). destruct (negb _); [done|].
  apply bindM_Ok in E as ([] & c3 & E & _). unfold map_errM, on_seals, zoom in E. cbn [seals start_context] in E.
  pose proof (bucketless_rejects (cm_inclusion_proof (genesis token)) (cm_transaction (genesis token))
    (reference_time (cm_inclusion_proof (genesis token))) s Hb) as Hr.
  destruct (verify_inclusion_proof _ _ _ s) as [[[]|e|] s1]; cbn [map_err fst] in *; congruence.
Qed.

Lemma verify_token_fits tb pol token capacity : val capacity <= MAX_CAPACITY ->
  no_panic (fst (verify_token_with_memo_capacity token tb registry pol capacity)).
Proof.
  intros Hc. unfold verify_token_with_memo_capacity. rewrite (with_memo_capacity_fits _ _ _ Hc).
  pose proof (validate_no_panic tb) as Hv. destruct (validate tb) as [[]|e|]; [|done..].
  cbn [map_err]. destruct (token_returns pol (N.to_nat (val (max_embedded_token_depth (limits pol)))) 0 (fuel_of pol) token
    ltac:(lia) ltac:(unfold fuel_of; lia) (start_context (empty_session tb capacity) (empty_interner capacity) pol)) as (Hn & _).
  { split; [done|split; [done|]]. split; [split|]; by apply (indexed_empty capacity). }
  by destruct (verify_token_in_context _ _ _ _).
Qed.

Lemma verify_token_beyond tb pol token capacity : MAX_CAPACITY < val capacity ->
  fst (verify_token_with_memo_capacity token tb registry pol capacity) = Panic \/
  2 ^ 63 < val capacity /\ fst (verify_token_with_memo_capacity token tb registry pol capacity) <> Ok tt.
Proof.
  intros Hc. unfold verify_token_with_memo_capacity, with_memo_capacity, with_capacity_session. destruct (N.le_gt_cases (val capacity) (2 ^ 63)) as [Hm|Hm].
  - left. by rewrite (FifoIndex.new_overflows (T := arr 32) capacity (conj Hc Hm)).
  - right. split; [done|]. unfold with_capacity. rewrite (FifoIndex.new_wraps (T := arr 32) capacity Hm), bind_Ok_l, (FifoIndex.new_wraps (T := arr 32 * UnicityCertificate) capacity Hm), !bind_Ok_l, (FifoIndex.new_wraps capacity Hm), !bind_Ok_l. destruct (validate tb) as [[]|e|]; [|done..].
    cbn [map_err]. pose proof (bucketless_token token (fuel_of pol) (session_over tb (with_buckets capacity 0) (with_buckets capacity 0))
      (over_index (with_buckets capacity 0)) pol) as Hb.
    destruct (verify_token_in_context _ _ _ _) as [r c]. apply Hb. exists capacity. split; [unfold MAX_CAPACITY in Hc; lia|done].
Qed.

(** What accepts was given a capacity that fits. *)
Lemma accepted_fits tb pol token capacity :
  fst (verify_token_with_memo_capacity token tb registry pol capacity) = Ok tt -> val capacity <= MAX_CAPACITY.
Proof.
  intros E. destruct (N.le_gt_cases (val capacity) MAX_CAPACITY) as [|Hc]; [done|exfalso].
  destruct (verify_token_beyond tb pol token capacity Hc) as [E'|[_ E']]; congruence.
Qed.

(** C8. With a memo capacity of at most 2^58 the entry points never run out of
    fuel and never panic; a larger one, up to 2^63, makes the construction of the
    memos panic, and above that nothing is accepted. *)
Theorem verify_token_total tb pol token capacity :
  let r := fst (verify_token_with_memo_capacity token tb registry pol capacity) in
  (val capacity <= 2 ^ 58 -> no_panic r) /\ (2 ^ 58 < val capacity <= 2 ^ 63 -> r = Panic) /\ (2 ^ 63 < val capacity -> r <> Ok tt).
Proof.
  intros r. split_and!; [apply verify_token_fits|intros [Hc Hm]|intros Hm]; subst r.
  - destruct (verify_token_beyond tb pol token capacity Hc) as [|[? _]]; [done|lia].
  - destruct (verify_token_beyond tb pol token capacity ltac:(unfold MAX_CAPACITY; lia)) as [->|[_ ?]]; done.
Qed.
End total.
