(* ===== verification/SnapshotSpec.v ===== *)
(** The meaning of a snapshot outcome: absence and inclusion at the root that
    the authenticated input record names. *)

From S2P Require Import Prelude State Bytes Error Cbor Hash Radix Codec Ids Secp ShardId Bft BftCodec UcInterner Certificates VerificationError TrustBase Seal SealSpec Proofs Transactions Verify VerifySpec TokenSpec.
Local Open Scope N_scope.

Section snapshot.
Context `{Sha2} `{K256}.

Definition outcome_snapshot (o : NonInclusionOutcome) : NonInclusionSnapshot :=
  match o with AbsentAtSnapshot _ s | IncludedAtSnapshot _ s => s end.
Definition outcome_state (o : NonInclusionOutcome) : StateId :=
  match o with AbsentAtSnapshot i _ | IncludedAtSnapshot i _ => i end.

(** The snapshot copies the certificate. *)
Definition snapshot_of (uc : UnicityCertificate) (root : option (arr 32)) : NonInclusionSnapshot := {|
  snapshot_network_id := seal_network_id (unicity_seal uc);
  partition_id := partition_identifier (unicity_tree_certificate uc);
  shard_id := shard (shard_tree_certificate uc);
  root_round := root_chain_round_number (unicity_seal uc);
  seal_timestamp_seconds := seal_timestamp (unicity_seal uc);
  root_epoch := seal_epoch (unicity_seal uc);
  shard_round := round_number (input_record uc);
  shard_epoch := ir_epoch (input_record uc);
  state_root := root |}.

(** The digest of a 32-byte state root. *)
Definition state_digest (b : arr 32) : option DataHash :=
  match DataHash.new Sha256 (val b) with Ok h => Some h | _ => None end.

Lemma non_inclusion_checks_inv proof target out : non_inclusion_checks proof target = Ok out ->
  let uc := ni_unicity_certificate proof in
  exists root, root_hash (input_record uc) = Ok root /\
    NonInclusionCertificate.authenticates (certificate proof) target (root ≫= state_digest) = true /\
    (slength (val (shard (shard_tree_certificate uc))) <> 0 ->
       ShardId.is_prefix_of (shard (shard_tree_certificate uc)) (val (sid_bytes target)) = true) /\
    out = (if NonInclusionCertificate.terminal_matches (certificate proof) target
           then IncludedAtSnapshot target (snapshot_of uc root) else AbsentAtSnapshot target (snapshot_of uc root)).
Proof.
  unfold non_inclusion_checks. intros (root & Hr%map_err_Ok & E)%bind_Ok. apply bind_Ok in E as (expected & He & E).
  exists root. split; [done|].
  assert (expected = root ≫= state_digest) as ->.
  { destruct root as [b|]; [|by injection He as <-]. simpl. unfold state_digest.
    destruct (DataHash.new Sha256 (val b)) as [h| |]; [|done..]. by injection He as <-. }
  destruct (NonInclusionCertificate.authenticates _ _ _) eqn:Ea; [|done]. simpl negb in E. cbv iota in E.
  match type of E with (if ?b then _ else _) = _ => destruct b eqn:Es; [done|] end. injection E as <-. split_and!; try done.
  intros Hn. apply andb_false_iff in Es as [Es|Es]; [by apply negb_false_iff, N.eqb_eq in Es|].
  apply orb_false_iff in Es as [Es _]. by apply negb_false_iff in Es.
Qed.

Lemma state_digest_Some b h : state_digest b = Some h <-> DataHash.new Sha256 (val b) = Ok h.
Proof. unfold state_digest. destruct (DataHash.new Sha256 (val b)); naive_solver. Qed.

Definition non_inclusion_messages (proof : NonInclusionProof) (target : StateId) : list bytes :=
  match NonInclusionCertificate.body (certificate proof) with
  | Some b => path_messages (NonInclusionCertificate.bitmap b) (sid_bytes target) (NonInclusionCertificate.terminal_key b)
      (val (NonInclusionCertificate.terminal_value b)) depths (NonInclusionCertificate.siblings b)
  | None => []
  end.

Definition inclusion_messages (proof : InclusionProof) (sid : StateId) (t : u64) : list bytes :=
  path_messages (InclusionCertificate.bitmap (inclusion_certificate proof)) (sid_bytes sid) (sid_bytes sid)
    (DataHash.data (calculate_leaf_value (cd_transaction_hash (certification_data proof)) t)) depths
    (InclusionCertificate.siblings (inclusion_certificate proof)).

(** One root does not certify a state as absent and include it too. *)
Theorem absent_excludes_inclusion proof target snapshot sid proof' t :
  non_inclusion_checks proof target = Ok (AbsentAtSnapshot sid snapshot) ->
  membership_checks proof' sid t = Ok tt ->
  root_hash (input_record (unicity_certificate proof')) = Ok (state_root snapshot) ->
  Collision (.∈ non_inclusion_messages proof sid ++ inclusion_messages proof' sid t).
Proof.
  intros (root & _ & Ha & _ & E)%non_inclusion_checks_inv Hm Hroot.
  destruct (NonInclusionCertificate.terminal_matches (certificate proof) target) eqn:Ht; [done|]. injection E as -> ->.
  apply membership_checks_sound in Hm as (_ & _ & _ & _ & (b & r & Hb & Hr & Hv) & _).
  rewrite Hb in Hroot. injection Hroot as <-. apply state_digest_Some in Hr. unfold NonInclusionCertificate.authenticates in Ha.
  unfold non_inclusion_messages. unfold NonInclusionCertificate.terminal_matches in Ht.
  cbn [mbind option_bind] in Ha. rewrite Hr in Ha.
  destruct (NonInclusionCertificate.body (certificate proof)) as [nb|]; [|done].
  destruct (fold_certificate_path (NonInclusionCertificate.bitmap nb) _ _ _ _) as [h| |] eqn:Ef; [|done..].
  apply bool_decide_eq_true_1 in Ha as ->. unfold InclusionCertificate.verify in Hv.
  destruct (fold_certificate_path (InclusionCertificate.bitmap _) _ _ _ _) as [h| |] eqn:Ef'; [|done..].
  apply bool_decide_eq_true_1 in Hv as ->.
  destruct (fold_binding _ _ _ _ _ _ _ _ _ _ Ef Ef') as [[E _]|Hcol]; [|exact Hcol].
  exfalso. by apply bool_decide_eq_false_1 in Ht.
Qed.

(** ** Against the tree *)

(** C32. An outcome that names the root of [t] tells the truth about [t]. *)
Theorem outcome_truth proof target out t b : non_inclusion_checks proof target = Ok out -> smt_ok t ->
  state_root (outcome_snapshot out) = Some b -> state_digest b = Some (smt_digest t) ->
  match out with
  | AbsentAtSnapshot sid _ => forall value, (sid_bytes sid, value) ∉ smt_leaves t
  | IncludedAtSnapshot sid _ => exists value, (sid_bytes sid, value) ∈ smt_leaves t
  end \/ Collision (.∈ NonInclusionFacts.authenticated_messages (certificate proof) target t).
Proof.
  intros (root & _ & Ha & _ & ->)%non_inclusion_checks_inv Ht.
  destruct (NonInclusionCertificate.terminal_matches (certificate proof) target) eqn:Hm; cbn [outcome_snapshot state_root snapshot_of];
    intros -> Hd; cbn [mbind option_bind] in Ha; rewrite Hd in Ha.
  - by apply NonInclusionFacts.presence_sound.
  - by apply NonInclusionFacts.non_inclusion_sound.
Qed.

(** ** The whole verification *)

Lemma non_inclusion_verdict_sound tb proof target context out : non_inclusion_verdict tb proof target context = Ok out ->
  valid_trust_base tb /\ strictly_authenticated tb context (ni_unicity_certificate proof) /\
  (forall requested, requested_state_id proof = Some requested -> requested = target) /\
  non_inclusion_checks proof target = Ok out.
Proof.
  unfold non_inclusion_verdict. intros ([] & Hv%map_err_Ok%validate_spec & E)%bind_Ok.
  match type of E with (if ?b then _ else _) = _ => destruct b eqn:Er; [done|] end.
  apply bind_Ok in E as ([] & Hs%strict_verdict_sound & Ho). split_and!; [done|done| |done].
  intros r Hr. rewrite Hr in Er. by destruct (bool_decide_reflect (r = target)).
Qed.
End snapshot.
