(* ===== verification/History.v ===== *)
(** The verdict of a token, transaction by transaction.

    Verification runs in a context whose memos fill as it goes; [history_verdict]
    is the same answer without them: the checks of the genesis, the registered
    verifiers asked once from a fresh context, and the verdict of each transfer
    alone ([token_verdict_history]). A token that only extends or re-proves an
    accepted history is judged by what changed ([verdict_extend],
    [verdict_reproved]). *)

From S2P Require Import Prelude State Bytes Error Cbor CborSpec CborRead Hash Codec Ids Secp Predicates ShardId Bft UcInterner Certificates VerificationError TrustBase Seal SealSpec Proofs Transactions TransactionsSpec Verify VerifySpec TokenSpec.
Local Open Scope N_scope.

Section history.
Context `{Sha2} `{K256}.
Context (embeds : CertifiedMintTransaction -> Token -> Prop) (justified data_ok : meaning).
Context (registry : MintJustificationRegistry) (Hreg : registry_ok embeds justified data_ok registry).

(** The genesis checks that ask the registry. *)
Definition genesis_claims (pol : VerificationPolicy) (g : CertifiedMintTransaction) : ContextM unit :=
  let embedded := verify_embedded_token (verify_token_in_context (N.to_nat (val (max_embedded_token_depth (limits pol)))) registry) in
  _ ← registry_verify_token_data registry embedded g;
  registry_verify_genesis registry embedded g.

Definition claims_verdict (tb : RootTrustBase) (pol : VerificationPolicy) (g : CertifiedMintTransaction) : verdict unit :=
  fst (genesis_claims pol g (no_memos tb pol)).

Definition mint_verdict (tb : RootTrustBase) (g : CertifiedMintTransaction) : verdict unit :=
  let mint := cm_transaction g in
  if negb (bool_decide (network_id mint = tb_network_id tb)) then Err NetworkMismatch else
  pk ← map_err (fun _ => InvalidMintLockScript) (Minter.public_key (token_id mint));
  if negb (bool_decide (cd_lock_script (certification_data (cm_inclusion_proof g)) = from_predicate {| sp_public_key := pk |}))
  then Err InvalidMintLockScript else
  map_err GenesisError (transaction_verdict tb (cm_inclusion_proof g) mint (reference_time (cm_inclusion_proof g))).

Definition transfer_verdict (tb : RootTrustBase) (e : nat * CertifiedTransferTransaction) : verdict unit :=
  map_err (TransferError (N.of_nat (fst e))) (transaction_verdict tb (ct_inclusion_proof (snd e)) (ct_transaction (snd e))
    (reference_time (ct_inclusion_proof (snd e)))).

Definition genesis_verdict (tb : RootTrustBase) (pol : VerificationPolicy) (g : CertifiedMintTransaction) : verdict unit :=
  _ ← mint_verdict tb g;
  claims_verdict tb pol g.

Definition history_verdict (tb : RootTrustBase) (pol : VerificationPolicy) (token : Token) : verdict unit :=
  _ ← map_err InvalidTrustBaseError (validate tb);
  if val (max_token_transfers (limits pol)) <? len (transactions token)
  then Err (VerificationLimitExceeded "token transfer count") else
  _ ← genesis_verdict tb pol (genesis token);
  foldM (fun _ => transfer_verdict tb) tt (imap pair (transactions token)).

(** ** The run *)

Context (tb : RootTrustBase) (pol : VerificationPolicy) (K : UnicitySeal -> Prop).

Abbreviation no_contexts := (fun _ : NonInclusionContext => False).
Abbreviation session := (session_of K (remembered ordinary no_contexts)).
Abbreviation same := (same no_contexts K).
Abbreviation agree := (agree no_contexts K).

(** Alike with a context at the start of a verification, and with any. *)
Definition fresh (c : VerificationContext) : Prop := same tb pol 0 c (no_memos tb pol).
Definition sound (c : VerificationContext) : Prop := same tb pol 0 c c.

Definition decides {A} (P Q : VerificationContext -> Prop) (m : ContextM A) (r : verdict A) : Prop :=
  forall c, P c -> (fst (m c) = r /\ (is_ok r = true -> Q (snd (m c)))) \/ memo_clash K tb.

Lemma decides_bind {A B} (P Q R : VerificationContext -> Prop) (m : ContextM A) r (k : A -> ContextM B) kr :
  decides P Q m r -> (forall a, r = Ok a -> decides Q R (k a) (kr a)) -> decides P R (m ≫= k) (r ≫= kr).
Proof.
  intros Hm Hk c Hc. rewrite bindM_run. destruct (Hm c Hc) as [[<- HQ]|]; [|by right]. destruct (m c) as [r' c'].
  cbn [fst snd] in *. destruct r' as [a|e|]; [|by left..]. rewrite bind_Ok_l. apply Hk; auto.
Qed.

Lemma decides_lift {A} (P : VerificationContext -> Prop) (r : verdict A) : decides P P (liftM r) r.
Proof. intros c Hc. by left. Qed.

Lemma decides_if {A} (P Q : VerificationContext -> Prop) (b : bool) (m : ContextM A) e r :
  (b = false -> decides P Q m r) -> decides P Q (if b then liftM (Err e) else m) (if b then Err e else r).
Proof. destruct b; [|auto]. intros _ c Hc. by left. Qed.

(** A proof leaves everything but the session's memos. *)
Lemma decides_proof {T} `{Transaction T} (P : VerificationContext -> Prop) f proof (tx : T) : K (proof_seal proof) -> wf proof ->
  (forall c s, session tb s -> P c -> P (set_seals s c)) ->
  (forall c, P c -> session tb (seals c)) ->
  decides P P (map_errM f (on_seals (verify_inclusion_proof proof tx (reference_time proof))))
    (map_err f (transaction_verdict tb proof tx (reference_time proof))).
Proof.
  intros HK Hw%wf_proof_certificate Hset Hses c Hc. unfold map_errM, on_seals, zoom.
  destruct (answers_transaction ordinary no_contexts K tb proof tx (reference_time proof) HK Hw eq_refl _ (Hses c Hc)) as [[E Hs]|]; [|by right].
  destruct (verify_inclusion_proof _ _ _ _) as [r s]. cbn [fst snd] in *. subst r. left. split; [done|]. intros _. by apply Hset.
Qed.

Lemma fresh_set_seals c s : session tb s -> fresh c -> fresh (set_seals s c).
Proof. intros Hs []. by constructor. Qed.
Lemma sound_set_seals c s : session tb s -> sound c -> sound (set_seals s c).
Proof. intros Hs []. by constructor. Qed.
Lemma same_sound c c' : same tb pol 0 c c' -> sound c.
Proof. intros []. by constructor. Qed.

Lemma decides_get {A} (P Q : VerificationContext -> Prop) (k : VerificationContext -> ContextM A) r :
  (forall c, P c -> decides P Q (k c) r) -> decides P Q (c ← get; k c) r.
Proof. intros Hk c Hc. rewrite bindM_run. by apply Hk. Qed.

(** The registered verifiers are asked once, in a context like a fresh one. *)
Lemma decides_claims g : wf g -> (forall t seal, embeds g t -> run_seal embeds t seal -> K seal) -> decides fresh sound (genesis_claims pol g) (claims_verdict tb pol g).
Proof.
  intros Hg HK c Hc. unfold claims_verdict.
  set (n := N.to_nat (val (max_embedded_token_depth (limits pol)))).
  assert (forall t k, token_wf t -> embeds g t -> agree tb pol 0 (fun _ => token_certified justified data_ok registry n tb pol t)
    (verify_embedded_token (verify_token_in_context n registry) t k)
    (verify_embedded_token (verify_token_in_context n registry) t k)) as He.
  { intros t k Ht Hemb. apply (agree_embedded no_contexts K tb pol 0 (token_certified justified data_ok registry n tb pol)); [lia|].
    intros Hlt. destruct n as [|m] eqn:En; [lia|]. eapply token_agree; [exact Hreg|lia..|exact Ht|]. intros seal. by apply HK. }
  assert (agree tb pol 0 (fun _ => True) (genesis_claims pol g) (genesis_claims pol g)) as Ha.
  { unfold genesis_claims. fold n. eapply agree_bind; [by eapply agree_token_data|]. intros [] _.
    eapply agree_mono; [|by eapply agree_justification]. done. }
  destruct (Ha c _ Hc) as [(E & Hs & _)|]; [left|by right]. split; [done|]. intros _. by eapply same_sound.
Qed.

Lemma decides_genesis (token : Token) : wf (genesis token) -> (forall seal, run_seal embeds token seal -> K seal) ->
  decides fresh sound
    (verify_genesis registry (verify_embedded_token
       (verify_token_in_context (N.to_nat (val (max_embedded_token_depth (limits pol)))) registry)) token)
    (genesis_verdict tb pol (genesis token)).
Proof.
  intros Hg HK. unfold genesis_verdict, verify_genesis. apply decides_get. intros c Hc. unfold context_trust_base.
  rewrite (proj2 (sm_session1 _ _ _ _ _ _ _ Hc)). clear c Hc. unfold mint_verdict.
  destruct (negb _); [intros c Hc; by left|].
  destruct (Minter.public_key _) as [pk|e|]; [|intros c Hc; by left..]. cbn [map_err]. rewrite bind_Ok_l.
  change (liftM (Ok pk) ≫= ?k) with (k pk). cbv beta.
  destruct (negb _); [intros c Hc; by left|].
  eapply decides_bind; [|intros [] _; apply decides_claims; [done|]; intros t seal Ht Hr; by apply HK, (rs_embedded embeds token t)].
  apply (decides_proof fresh); [apply HK, rs_genesis| |exact fresh_set_seals|by intros c []].
  codec_unfold CertifiedMint_codec. tauto.
Qed.

Lemma decides_transfers l :
  Forall (fun e : nat * CertifiedTransferTransaction => K (proof_seal (ct_inclusion_proof (snd e))) /\ wf (ct_inclusion_proof (snd e))) l ->
  decides sound sound (forM_ verify_transfer l) (foldM (fun _ => transfer_verdict tb) tt l).
Proof.
  induction 1 as [|[i t] l [HK Hw] _ IH]; cbn [forM_ foldM]; [intros c Hc; by left|].
  eapply decides_bind; [|intros [] _; exact IH].
  apply (decides_proof sound); [exact HK|done|exact sound_set_seals|by intros c []].
Qed.

(** The verdict of a token is that of its history. *)
Theorem token_verdict_history token : token_wf token -> (forall seal, run_seal embeds token seal -> K seal) ->
  token_verdict registry tb pol token = history_verdict tb pol token \/ memo_clash K tb.
Proof.
  intros (Hg & _ & Hp) HK. unfold token_verdict, history_verdict. destruct (map_err _ (validate tb)) as [[]|e|]; [|by left..].
  rewrite !bind_Ok_l. unfold fuel_of. cbn [verify_token_in_context]. rewrite bindM_run. cbn [get fst snd].
  change (policy (no_memos tb pol)) with pol. destruct (_ <? _); [by left|].
  assert (fresh (no_memos tb pol)) as Hf by (apply same_no_memos; [by apply session_ok_empty|by apply remembers_empty]).
  match goal with |- fst (?m _) = ?r \/ _ => enough (decides fresh sound m r) as Hd end.
  { destruct (Hd _ Hf) as [[E _]|]; [by left|by right]. }
  eapply decides_bind with (Q := sound).
  - by apply decides_genesis.
  - intros [] _. apply decides_transfers. apply Forall_forall. intros [i t] (j & Hj)%list_elem_of_lookup.
    rewrite list_lookup_imap in Hj. destruct (transactions token !! j) as [u|] eqn:Eu; [|done]. injection Hj as <- <-.
    apply list_elem_of_lookup_2 in Eu. rewrite Forall_forall in Hp. split; [by apply HK, rs_transfer|by apply Hp].
Qed.

Lemma foldM_unit {A} (f : A -> verdict unit) l : foldM (fun _ => f) tt l = Ok tt <-> Forall (fun x => f x = Ok tt) l.
Proof.
  induction l as [|x l IH]; simpl; [by split|]. rewrite Forall_cons, <- IH, bind_Ok.
  split; [by intros ([] & ? & ?)|intros []; by exists tt].
Qed.

Lemma transfers_verdict ts : foldM (fun _ => transfer_verdict tb) tt (imap pair ts) = Ok tt <->
  Forall (fun c => transaction_verdict tb (ct_inclusion_proof c) (ct_transaction c) (reference_time (ct_inclusion_proof c)) = Ok tt) ts.
Proof.
  rewrite foldM_unit. rewrite !Forall_lookup. split.
  - intros Hf i t Hi. specialize (Hf i (i, t)). rewrite list_lookup_imap, Hi in Hf. specialize (Hf eq_refl).
    by apply map_err_Ok in Hf.
  - intros Hf i [j t] Hi. rewrite list_lookup_imap in Hi. destruct (ts !! i) as [u|] eqn:Eu; [|done]. injection Hi as <- <-.
    apply map_err_Ok, (Hf i u Eu).
Qed.

(** ** One more transfer *)

Lemma run_seal_extend g ts ts' seal : run_seal embeds {| genesis := g; transactions := ts |} seal ->
  run_seal embeds {| genesis := g; transactions := ts ++ ts' |} seal.
Proof.
  inversion 1 as [|? c Hc|? t ? He Ht]; subst.
  - apply (rs_genesis embeds {| genesis := g; transactions := ts ++ ts' |}).
  - apply rs_transfer. apply elem_of_app. by left.
  - by apply (rs_embedded embeds _ t).
Qed.

Lemma history_verdict_extend g ts t :
  history_verdict tb pol {| genesis := g; transactions := ts ++ [t] |} = Ok tt <->
  history_verdict tb pol {| genesis := g; transactions := ts |} = Ok tt /\
  len ts + 1 <= val (max_token_transfers (limits pol)) /\
  transaction_verdict tb (ct_inclusion_proof t) (ct_transaction t) (reference_time (ct_inclusion_proof t)) = Ok tt.
Proof.
  unfold history_verdict. cbn [genesis transactions]. destruct (map_err _ (validate tb)) as [[]|e|]; [|naive_solver..].
  rewrite !bind_Ok_l, imap_app, len_app. cbn [imap]. change (len [t]) with 1.
  destruct (N.ltb_spec (val (max_token_transfers (limits pol))) (len ts + 1)), (N.ltb_spec (val (max_token_transfers (limits pol))) (len ts));
    [naive_solver lia|naive_solver lia|lia|].
  destruct (genesis_verdict tb pol g) as [[]|e|]; [|naive_solver..]. rewrite !bind_Ok_l, foldM_app.
  destruct (foldM _ tt (imap pair ts)) as [[]|e|]; [|naive_solver..]. rewrite bind_Ok_l. cbn [foldM]. unfold transfer_verdict. cbn [fst snd].
  destruct (transaction_verdict _ _ _ _) as [[]|e|]; naive_solver.
Qed.

(** The verdict of a token and of one more transfer. *)
Lemma verdict_extend g ts t :
  token_wf {| genesis := g; transactions := ts |} -> token_wf {| genesis := g; transactions := ts ++ [t] |} ->
  (forall seal, run_seal embeds {| genesis := g; transactions := ts ++ [t] |} seal -> K seal) ->
  (token_verdict registry tb pol {| genesis := g; transactions := ts ++ [t] |} = Ok tt <->
   token_verdict registry tb pol {| genesis := g; transactions := ts |} = Ok tt /\
   len ts + 1 <= val (max_token_transfers (limits pol)) /\
   transaction_verdict tb (ct_inclusion_proof t) (ct_transaction t) (reference_time (ct_inclusion_proof t)) = Ok tt) \/
  memo_clash K tb.
Proof.
  intros H1 H2 HK. destruct (token_verdict_history _ H1)  as [->|]; [| |by right].
  { intros seal Hr. apply HK. by eapply run_seal_extend. }
  destruct (token_verdict_history _ H2 HK) as [->|]; [left; apply history_verdict_extend|by right].
Qed.

(** ** The same transactions with other proofs *)

(** [p'] certifies what [p] does, by another certificate. *)
Definition reproof (p p' : InclusionProof) : Prop :=
  certification_data p' = certification_data p /\ reference_time p' = reference_time p.

Lemma transaction_verdict_reproof {T} `{Transaction T} p p' (tx : T) : reproof p p' ->
  transaction_verdict tb p tx (reference_time p) = Ok tt ->
  membership_verdict tb p' (StateId_derive (lock_script tx) (source_state_hash tx)) (reference_time p') = Ok tt ->
  transaction_verdict tb p' tx (reference_time p') = Ok tt.
Proof.
  intros [Ec Et]. unfold transaction_verdict. rewrite Ec, Et. destruct (negb _ || _ || _); [done|]. destruct (negb _); [done|].
  unfold inclusion_verdict. intros (u & _ & Hp)%bind_Ok Hm. by rewrite Hm, bind_Ok_l, Ec.
Qed.

(** The registered verifiers do not look into the certificates of the proof. *)
Definition verifier_stable (verify : Embedded -> CertifiedMintTransaction -> ContextM unit) : Prop := forall e g g' c,
  cm_transaction g' = cm_transaction g -> reproof (cm_inclusion_proof g) (cm_inclusion_proof g') -> verify e g' c = verify e g c.

Record registry_stable : Prop := {
  rs_justification : forall t v, map_get (verifiers registry) t = Some v -> verifier_stable (mj_verify v);
  rs_data : forall t v, map_get (data_verifiers registry) t = Some v -> verifier_stable (td_verify v);
}.

Lemma claims_verdict_reproof g g' : registry_stable -> cm_transaction g' = cm_transaction g ->
  reproof (cm_inclusion_proof g) (cm_inclusion_proof g') -> claims_verdict tb pol g' = claims_verdict tb pol g.
Proof.
  intros Hst Em Hr. unfold claims_verdict, genesis_claims. f_equal. set (e := verify_embedded_token _). clearbody e.
  rewrite !bindM_run.
  assert (forall c, registry_verify_token_data registry e g' c = registry_verify_token_data registry e g c) as ->.
  { intros c. unfold registry_verify_token_data. rewrite Em. destruct (data _); [|done]. rewrite !bindM_run. unfold get.
    destruct (_ <? _); [done|]. destruct (map_get _ _) eqn:Ev; [|done]. by eapply (rs_data Hst). }
  assert (forall c, registry_verify_genesis registry e g' c = registry_verify_genesis registry e g c) as Hj.
  { intros c. unfold registry_verify_genesis. rewrite Em. destruct (justification _); [|done]. rewrite !bindM_run. unfold get.
    rewrite !bindM_run. unfold liftM. destruct (map_err _ _) as [[t ?]|?|]; [|done..]. rewrite !bindM_run.
    destruct (map_get _ _) eqn:Ev; [|done]. cbn [ok_or]. by eapply (rs_justification Hst). }
  destruct (registry_verify_token_data registry e g _) as [[[]|?|] c]; [apply Hj|done..].
Qed.

(** Every transaction of [t] proved again in [t']. *)
Record reproved (t t' : Token) : Prop := {
  rp_mint : cm_transaction (genesis t') = cm_transaction (genesis t);
  rp_mint_proof : reproof (cm_inclusion_proof (genesis t)) (cm_inclusion_proof (genesis t'));
  rp_mint_member : membership_verdict tb (cm_inclusion_proof (genesis t'))
    (StateId_derive (lock_script (cm_transaction (genesis t'))) (source_state_hash (cm_transaction (genesis t'))))
    (reference_time (cm_inclusion_proof (genesis t'))) = Ok tt;
  rp_transfers : Forall2 (fun c c' => ct_transaction c' = ct_transaction c /\ reproof (ct_inclusion_proof c) (ct_inclusion_proof c') /\
    membership_verdict tb (ct_inclusion_proof c') (StateId_derive (lock_script (ct_transaction c')) (source_state_hash (ct_transaction c')))
      (reference_time (ct_inclusion_proof c')) = Ok tt) (transactions t) (transactions t');
}.

Lemma mint_verdict_reproof t t' : reproved t t' -> mint_verdict tb (genesis t) = Ok tt -> mint_verdict tb (genesis t') = Ok tt.
Proof.
  intros [Em Hr Hm _]. unfold mint_verdict. rewrite Em in *. rewrite (proj1 Hr). destruct (negb _); [done|].
  destruct (Minter.public_key _) as [pk|e|]; cbn [map_err]; [|done..]. rewrite !bind_Ok_l. destruct (negb _); [done|].
  rewrite !map_err_Ok. intros Hv. by eapply transaction_verdict_reproof.
Qed.

Theorem history_verdict_reproved t t' : registry_stable -> reproved t t' ->
  history_verdict tb pol t = Ok tt -> history_verdict tb pol t' = Ok tt.
Proof.
  intros Hst Hr. pose proof Hr as [Em Hg Hm Ht]. unfold history_verdict. destruct (map_err _ (validate tb)) as [[]|e|]; [|done..].
  rewrite !bind_Ok_l. unfold len. rewrite <- (Forall2_length _ _ _ Ht).
  destruct (_ <? N.of_nat (length (transactions t))); [done|]. intros ([] & Hv & Hf)%bind_Ok. unfold genesis_verdict in *. apply bind_Ok in Hv as ([] & Hv & Hc).
  rewrite (mint_verdict_reproof _ _ Hr Hv), bind_Ok_l, (claims_verdict_reproof _ _ Hst Em Hg), Hc, bind_Ok_l.
  rewrite transfers_verdict in *. clear -Ht Hf. induction Ht as [|c c' ts ts' (Ec & Hp & Hm) _ IH]; [constructor|].
  apply Forall_cons in Hf as [Hv Hf]. constructor; [|by apply IH]. rewrite Ec in *. by eapply transaction_verdict_reproof.
Qed.

(** The verdict of a token whose transactions are proved again. *)
Lemma verdict_reproved t t' : registry_stable -> token_wf t -> token_wf t' ->
  (forall seal, run_seal embeds t seal -> K seal) -> (forall seal, run_seal embeds t' seal -> K seal) -> reproved t t' ->
  token_verdict registry tb pol t = Ok tt -> token_verdict registry tb pol t' = Ok tt \/ memo_clash K tb.
Proof.
  intros Hst H1 H2 K1 K2 Hr. destruct (token_verdict_history _ H1 K1) as [->|]; [|by right].
  destruct (token_verdict_history _ H2 K2) as [->|]; [left; by apply (history_verdict_reproved t)|by right].
Qed.
End history.
