(* ===== verification/Flow.v ===== *)
(** The construction flows of [src/client/mod.rs]: minting a token and
    transferring one, over an abstract aggregator.

    The transport is a class of state-passing operations: [W] is whatever it
    reads and writes, and its answers are unconstrained. What the flows promise
    does not depend on it: a returned token verifies and is the one asked for
    ([mint_flow_inv], [transfer_flow_inv]). *)

From S2P Require Import Prelude State Bytes Error Cbor CborSpec CborRead Hash Codec Ids Secp Predicates ShardId Bft UcInterner Certificates VerificationError TrustBase Seal SealSpec Proofs Transactions TransactionsSpec Verify VerifySpec TokenSpec History.
Local Open Scope N_scope.

(** The [AggregatorClient] trait; [E] is its error type. *)
Class AggregatorClient (W E : Type) : Type := {
  submit_certification_request : CertificationData -> M W E unit;
  get_inclusion_proof : StateId -> M W E InclusionProof;
}.

Inductive ClientError (E : Type) : Type :=
| BuildError (e : Error)
| AggregatorError (e : E)
| ClientVerification (e : VerificationError).
Arguments BuildError {E} e.
Arguments AggregatorError {E} e.
Arguments ClientVerification {E} e.

Section flow.
Context `{Sha2} `{K256} {W E : Type} `{AggregatorClient W E}.

Abbreviation FlowM := (M W (ClientError E)).

(** A method of [Signer] returns or panics. *)
Definition certification_data_for {E' T S} `{Transaction T} `{!Signer S} (transaction : T) (signer : S) : outcome E' CertificationData :=
  let tx_hash := calculate_transaction_hash transaction in
  unlock ← expect (sign_signature_unlock signer (source_state_hash transaction) tx_hash);
  Ok (CertificationData_from_transaction transaction unlock).

(** The round trip both flows make: submit the request, then fetch the proof. *)
Definition certify {T S} `{Transaction T} `{!Signer S} (transaction : T) (signer : S) : FlowM InclusionProof :=
  certification_data ← liftM (certification_data_for transaction signer);
  _ ← map_errM AggregatorError (submit_certification_request certification_data);
  let state_id := StateId_derive (lock_script transaction) (source_state_hash transaction) in
  map_errM AggregatorError (get_inclusion_proof state_id).

Definition mint {P} `{Predicate P} (trust_base : RootTrustBase) (network : NetworkId) (recipient : P)
    (token_type : TokenType) (salt : TokenSalt) (data justification : option bytes) (expires_at : option u64) : FlowM Token :=
  _ ← liftM (map_err (fun e => ClientVerification (InvalidTrustBaseError e)) (validate trust_base));
  if negb (bool_decide (network = tb_network_id trust_base)) then liftM (Err (ClientVerification NetworkMismatch)) else
  transaction ← liftM (map_err BuildError
    (MintTransaction_create network (from_predicate recipient) token_type salt data justification expires_at));
  signer ← liftM (map_err BuildError (Minter.signer (token_id transaction)));
  proof ← certify transaction signer;
  let token := {| genesis := {| cm_transaction := transaction; cm_inclusion_proof := proof |}; transactions := [] |} in
  _ ← liftM (map_err ClientVerification (verify_token token trust_base));
  mret token.

(** [TransferTransaction::new] from the token's latest state. *)
Definition next_transfer {P} `{Predicate P} (token : Token) (recipient : P) (mask : StateMask) (data : option bytes)
    (expires_at : option u64) : TransferTransaction :=
  let '(source_state_hash, lock_script) := latest_state token in
  {| transfer_source_state_hash := source_state_hash; transfer_lock_script := lock_script;
     transfer_recipient := from_predicate recipient; transfer_expires_at := expires_at; state_mask := val (mask_bytes mask);
     transfer_data := data |}.

Definition transfer {P S} `{Predicate P} `{!Signer S} (trust_base : RootTrustBase) (token : Token) (recipient : P) (signer : S)
    (mask : StateMask) (data : option bytes) (expires_at : option u64) : FlowM Token :=
  _ ← liftM (map_err ClientVerification (verify_token token trust_base));
  let transaction := next_transfer token recipient mask data expires_at in
  proof ← certify transaction signer;
  let next := {| genesis := genesis token;
    transactions := transactions token ++ [{| ct_transaction := transaction; ct_inclusion_proof := proof |}] |} in
  _ ← liftM (map_err ClientVerification (verify_token next trust_base));
  mret next.

(** * What the flows return *)

Lemma certify_inv {T S} `{Transaction T} `{!Signer S} (transaction : T) (signer : S) w p w' :
  certify transaction signer w = (Ok p, w') -> exists cd w1,
    certification_data_for (E' := ClientError E) transaction signer = Ok cd /\
    submit_certification_request cd w = (Ok tt, w1) /\
    get_inclusion_proof (StateId_derive (lock_script transaction) (source_state_hash transaction)) w1 = (Ok p, w').
Proof.
  unfold certify. intros (cd & ? & [Hcd ->]%liftM_Ok & Hr)%bindM_Ok. apply bindM_Ok in Hr as ([] & w1 & Hs & Hg).
  exists cd, w1. unfold map_errM in *. split; [done|].
  destruct (submit_certification_request cd w) as [r ?], (get_inclusion_proof _ w1) as [r' ?].
  injection Hs as Hs <-. injection Hg as Hg <-. apply map_err_Ok in Hs as ->, Hg as ->. done.
Qed.

Lemma transfer_flow_inv {P S} `{Predicate P} `{!Signer S} tb token (recipient : P) (signer : S) mask data exp w next w' :
  let tx := next_transfer token recipient mask data exp in
  transfer tb token recipient signer mask data exp w = (Ok next, w') <->
  verify_token token tb = Ok tt /\ exists p, certify tx signer w = (Ok p, w') /\
    next = {| genesis := genesis token; transactions := transactions token ++ [{| ct_transaction := tx; ct_inclusion_proof := p |}] |} /\
    verify_token next tb = Ok tt.
Proof.
  intros tx. unfold transfer. rewrite bindM_Ok. setoid_rewrite liftM_Ok. setoid_rewrite map_err_Ok. fold tx. split.
  - intros ([] & ? & [Hv ->] & Hr). split; [done|]. apply bindM_Ok in Hr as (p & w1 & Hp & Hr).
    apply bindM_Ok in Hr as ([] & ? & [Hn%map_err_Ok ->]%liftM_Ok & [= <- <-]). by exists p.
  - intros (Hv & p & Hp & -> & Hn). exists tt, w. split; [done|]. apply bindM_Ok. exists p, w'. split; [done|].
    apply bindM_Ok. exists tt, w'. split; [|done]. apply liftM_Ok. split; [|done]. by apply map_err_Ok.
Qed.

Lemma mint_flow_inv {P} `{Predicate P} tb network (recipient : P) ty salt data just exp w token w' :
  mint tb network recipient ty salt data just exp w = (Ok token, w') <->
  validate tb = Ok tt /\ network = tb_network_id tb /\ exists tx signer p,
    MintTransaction_create network (from_predicate recipient) ty salt data just exp = Ok tx /\
    Minter.signer (token_id tx) = Ok signer /\ certify tx signer w = (Ok p, w') /\
    token = {| genesis := {| cm_transaction := tx; cm_inclusion_proof := p |}; transactions := [] |} /\
    verify_token token tb = Ok tt.
Proof.
  unfold mint. rewrite bindM_Ok. setoid_rewrite liftM_Ok. setoid_rewrite map_err_Ok. split.
  - intros ([] & ? & [Hv ->] & Hr). split; [done|].
    destruct (bool_decide_reflect (network = tb_network_id tb)) as [->|]; cbn [negb] in Hr; [|done]. split; [done|].
    apply bindM_Ok in Hr as (tx & ? & [Htx%map_err_Ok ->]%liftM_Ok & Hr).
    apply bindM_Ok in Hr as (signer & ? & [Hs%map_err_Ok ->]%liftM_Ok & Hr).
    apply bindM_Ok in Hr as (p & w1 & Hp & Hr).
    apply bindM_Ok in Hr as ([] & ? & [Hn%map_err_Ok ->]%liftM_Ok & [= <- <-]). by exists tx, signer, p.
  - intros (Hv & -> & tx & signer & p & Htx & Hs & Hp & -> & Hn). exists tt, w. split; [done|].
    rewrite bool_decide_eq_true_2 by done. cbn [negb]. rewrite Htx. cbn [map_err].
    apply bindM_Ok. exists tx, w. split; [done|]. apply bindM_Ok. exists signer, w. rewrite Hs. split; [done|].
    apply bindM_Ok. exists p, w'. split; [done|].
    apply bindM_Ok. exists tt, w'. split; [|done]. apply liftM_Ok. split; [|done]. by apply map_err_Ok.
Qed.

(** * When they succeed *)

(** The transport hands over decoded proofs. *)
Definition decoded_proofs : Prop := forall sid w p w', get_inclusion_proof sid w = (Ok p, w') -> wf p.

Lemma certify_wf {T S} `{Transaction T} `{!Signer S} (transaction : T) (signer : S) w p w' : decoded_proofs ->
  certify transaction signer w = (Ok p, w') -> wf p.
Proof. intros Hd (cd & w1 & _ & _ & Hg)%certify_inv. by eapply Hd. Qed.

(** No verifier is registered, so none asks about an embedded token. *)
Definition embeds_none (_ : CertifiedMintTransaction) (_ : Token) : Prop := False.

(** What [Token::verify] answers, without the memos. *)
Lemma verify_token_history K tb token : token_wf token -> (forall seal, run_seal embeds_none token seal -> K seal) ->
  verify_token token tb = history_verdict empty_registry tb default_policy token \/ memo_clash K tb.
Proof.
  intros Hw HK. set (no := (fun _ _ => False) : meaning).
  destruct (verify_with_capacity embeds_none no no empty_registry (registry_ok_empty embeds_none no no) (fun _ => False) K tb default_policy token
    DEFAULT_SEAL_MEMO_CAPACITY ltac:(by vm_compute) Hw HK) as [Ev|]; [|by right].
  destruct (token_verdict_history embeds_none no no empty_registry (registry_ok_empty embeds_none no no) tb default_policy K token Hw HK)
    as [Eh|]; [|by right].
  left. unfold verify_token, verify_token_with, verify_token_with_policy. congruence.
Qed.

Lemma next_transfer_linked {P} `{Predicate P} token (recipient : P) mask data exp p : token_wf token -> wf p ->
  token_wf {| genesis := genesis token; transactions := transactions token ++
    [{| ct_transaction := next_transfer token recipient mask data exp; ct_inclusion_proof := p |}] |}.
Proof.
  intros (Hg & Hl & Hp) Hw. split_and!; cbn [genesis transactions]; [done| |].
  - apply linked_snoc. split; [done|]. cbn [ct_transaction]. unfold next_transfer, latest_state. by destruct (last (transactions token)).
  - apply Forall_app. split; [done|]. by apply Forall_singleton.
Qed.

(** The seals that a transfer meets: those of the token's proofs, and that of the
    proof the aggregator returns. *)
Definition transfer_seals {T S} `{Transaction T} `{!Signer S} (token : Token) (tx : T) (signer : S) (w : W) (seal : UnicitySeal) : Prop :=
  run_seal embeds_none token seal \/ exists p w', certify tx signer w = (Ok p, w') /\ seal = proof_seal p.

(** A transfer succeeds exactly when the input verifies, leaves room for one more
    transfer and the aggregator returns a proof the trust base certifies. *)
Lemma transfer_succeeds {P S} `{Predicate P} `{!Signer S} tb token (recipient : P) (signer : S) mask data exp w next w' :
  token_wf token -> decoded_proofs ->
  let tx := next_transfer token recipient mask data exp in
  (transfer tb token recipient signer mask data exp w = (Ok next, w') <->
   verify_token token tb = Ok tt /\ len (transactions token) + 1 <= val (max_token_transfers VerificationLimits_DEFAULT) /\
   exists p, certify tx signer w = (Ok p, w') /\ transaction_verdict tb p tx (reference_time p) = Ok tt /\
     next = {| genesis := genesis token; transactions := transactions token ++ [{| ct_transaction := tx; ct_inclusion_proof := p |}] |})
  \/ memo_clash (transfer_seals token tx signer w) tb.
Proof.
  intros Hw Hd tx. rewrite transfer_flow_inv. fold tx. set (K := transfer_seals token tx signer w).
  destruct (verify_token_history K tb token Hw) as [Ev|]; [by left| |by right].
  destruct (certify tx signer w) as [[p|e|] w1] eqn:Ec; [|left; naive_solver..].
  assert (wf p) as Hp by by eapply certify_wf.
  destruct (verify_token_history K tb _ (next_transfer_linked token recipient mask data exp p Hw Hp)) as [En|]; [| |by right].
  { intros seal Hr. inversion Hr as [|? c Hc|? t ? []]; subst; [left; exact (rs_genesis embeds_none token)|]. cbn [transactions] in Hc.
    apply elem_of_app in Hc as [Hc| ->%list_elem_of_singleton]; [left; by apply rs_transfer|right; by exists p, w1]. }
  left. fold tx in En. rewrite Ev. pose proof (history_verdict_extend empty_registry tb default_policy (genesis token)
    (transactions token) {| ct_transaction := tx; ct_inclusion_proof := p |}) as Hx. cbn [ct_transaction ct_inclusion_proof] in Hx.
  rewrite <- En in Hx. replace {| genesis := genesis token; transactions := transactions token |} with token in Hx by by destruct token.
  split.
  - intros (Hi & p' & [= <- <-] & -> & Hn). apply Hx in Hn as (_ & Hl & Ht). split; [done|]. split; [done|]. by exists p.
  - intros (Hi & Hl & p' & [= <- <-] & Ht & ->). split; [done|]. exists p. split_and!; [done..|]. by apply Hx.
Qed.

(** What the empty registry accepts. *)
Lemma empty_justification e g c : fst (registry_verify_genesis empty_registry e g c) = Ok tt <-> justification (cm_transaction g) = None.
Proof.
  unfold registry_verify_genesis. destruct (justification (cm_transaction g)) as [b|]; [|done].
  rewrite bindM_run. change (State.get c) with (@Ok VerificationError _ c, c). cbv iota beta. rewrite bindM_run. unfold liftM at 1.
  destruct (map_err _ _) as [[t ?]|?|]; done.
Qed.

Lemma claims_verdict_empty tb g : claims_verdict empty_registry tb default_policy g = Ok tt <->
  justification (cm_transaction g) = None /\
  from_option (fun b => len b <= val (max_input_bytes DecodeLimits_DEFAULT)) True (Transactions.data (cm_transaction g)).
Proof.
  unfold claims_verdict, genesis_claims. rewrite bindM_run. unfold registry_verify_token_data.
  destruct (Transactions.data (cm_transaction g)) as [b|]; cbn [from_option].
  - rewrite bindM_run. change (State.get ?c) with (@Ok VerificationError _ c, c). cbn [policy no_memos start_context].
    change (decode_limits (limits default_policy)) with DecodeLimits_DEFAULT.
    destruct (N.ltb_spec (val (max_input_bytes DecodeLimits_DEFAULT)) (len b)); [split; [done|intros [_ ?]; lia]|].
    change (map_get (data_verifiers empty_registry) ?k) with (@None TokenDataVerifier). cbn [require_token_data_verifier default_policy].
    cbn [mret M_ret]. rewrite empty_justification. tauto.
  - cbn [mret M_ret]. rewrite empty_justification. tauto.
Qed.

Lemma MintTransaction_create_lock n r ty s da j ex m : MintTransaction_create n r ty s da j ex = Ok m ->
  exists pk, Minter.public_key (token_id m) = Ok pk /\ lock_script m = from_predicate {| sp_public_key := pk |}.
Proof. unfold MintTransaction_create. intros (pk & Hpk & [= <-])%bind_Ok. by exists pk. Qed.

#[local] Ltac neither := split;
  [intros (_ & _ & ? & ? & ? & ? & ? & ? & _)|intros (_ & _ & _ & _ & ? & ? & ? & ? & ? & ? & _)]; simplify_eq; congruence.

(** A mint succeeds exactly when its arguments are the network's, it carries no
    justification and no oversized payload, and the aggregator returns a proof the
    trust base certifies. *)
Lemma mint_succeeds {P} `{Predicate P} tb network (recipient : P) ty salt data just exp w token w' : decoded_proofs ->
  (mint tb network recipient ty salt data just exp w = (Ok token, w') <->
   validate tb = Ok tt /\ network = tb_network_id tb /\ just = None /\
   from_option (fun b => len b <= val (max_input_bytes DecodeLimits_DEFAULT)) True data /\
   exists tx signer p,
     MintTransaction_create network (from_predicate recipient) ty salt data just exp = Ok tx /\
     Minter.signer (token_id tx) = Ok signer /\ certify tx signer w = (Ok p, w') /\
     transaction_verdict tb p tx (reference_time p) = Ok tt /\
     token = {| genesis := {| cm_transaction := tx; cm_inclusion_proof := p |}; transactions := [] |}).
Proof.
  intros Hd. rewrite mint_flow_inv. destruct (validate tb) as [[]|e|] eqn:Hv; [|naive_solver..].
  destruct (MintTransaction_create _ _ _ _ _ _ _) as [tx|e|] eqn:Htx; [|neither..].
  destruct (Minter.signer (token_id tx)) as [signer|e|] eqn:Hs; [|neither..].
  destruct (certify tx signer w) as [[p|e|] w1] eqn:Ec; [|neither..].
  set (t := {| genesis := {| cm_transaction := tx; cm_inclusion_proof := p |}; transactions := [] |}).
  pose proof Htx as (En & Er & _ & _ & Ed & Ej & _)%MintTransaction_create_inv.
  assert (token_wf t) as Hw.
  { split_and!; [|done|done]. split; [|exact (certify_wf tx signer w p w1 Hd Ec)]. unfold t; change (MintTransaction_create (network_id tx) (mint_recipient tx) (token_type tx) (Transactions.salt tx) (Transactions.data tx) (justification tx) (mint_expires_at tx) = Ok tx).
    pose proof Htx as (-> & -> & -> & -> & -> & -> & ->)%MintTransaction_create_inv. exact Htx. }
  assert (verify_token t tb = history_verdict empty_registry tb default_policy t) as Ev.
  { destruct (verify_token_history (run_seal embeds_none t) tb t Hw) as [|Hcl]; [done..|]. exfalso. revert Hcl. apply one_seal_no_clash.
    intros s1 s2 R1 R2. inversion R1 as [|? c Hc|? ? ? []]; subst; [|by apply elem_of_nil in Hc].
    inversion R2 as [|? c Hc|? ? ? []]; subst; [done|by apply elem_of_nil in Hc]. }
  assert (network = tb_network_id tb -> verify_token t tb = Ok tt <-> transaction_verdict tb p tx (reference_time p) = Ok tt /\
    just = None /\ from_option (fun b => len b <= val (max_input_bytes DecodeLimits_DEFAULT)) True data) as Hx.
  { intros ->. rewrite Ev. unfold history_verdict. rewrite Hv. cbn [map_err]. rewrite bind_Ok_l.
    change (val (max_token_transfers (limits default_policy)) <? len (transactions t)) with false. cbv iota.
    cbn [transactions t imap foldM]. unfold genesis_verdict, mint_verdict. cbn [genesis t cm_transaction cm_inclusion_proof].
    rewrite En, bool_decide_eq_true_2 by done. cbn [negb].
    destruct (MintTransaction_create_lock _ _ _ _ _ _ _ _ Htx) as (pk & Hpk & Hlock). rewrite Hpk. cbn [map_err]. rewrite bind_Ok_l.
    pose proof (claims_verdict_empty tb (genesis t)) as Hcl. cbn [genesis t cm_transaction] in Hcl. rewrite Ed, Ej in Hcl. split.
    - intros ([] & ([] & Hm & Hc%Hcl)%bind_Ok & _)%bind_Ok. destruct (negb _) in Hm; [done|]. by apply map_err_Ok in Hm.
    - intros (Ht & Hc%Hcl). pose proof (transaction_verdict_sound _ _ _ _ Ht) as Hce.
      rewrite (ce_lock_script _ _ _ _ Hce), bool_decide_eq_true_2 by exact Hlock. cbn [negb].
      by rewrite Ht, Hc. }
  split.
  - intros (_ & Hn & ? & ? & ? & [= <-] & Es & Ep & -> & Hok). rewrite Hs in Es. injection Es as <-. rewrite Ec in Ep.
    injection Ep as <- <-. apply (Hx Hn) in Hok as (Ht & -> & Hd').
    split_and!; [done..|]. by exists tx, signer, p.
  - intros (_ & Hn & -> & Hd' & ? & ? & ? & [= <-] & Es & Ep & Ht & ->). rewrite Hs in Es. injection Es as <-. rewrite Ec in Ep.
    injection Ep as <- <-. split_and!; [done..|].
    exists tx, signer, p. split_and!; [done..|]. by apply Hx.
Qed.

(** A rejected input reaches the aggregator with nothing. *)
Lemma transfer_rejects {P S} `{Predicate P} `{!Signer S} tb token (recipient : P) (signer : S) mask data exp w :
  verify_token token tb <> Ok tt -> snd (transfer tb token recipient signer mask data exp w) = w.
Proof. intros Hv. unfold transfer. rewrite bindM_run. unfold liftM at 1. by destruct (verify_token token tb) as [[]|e|]. Qed.

(** [Token::verify] registers no verifier: it rejects every justified mint, and so
    does the mint flow, after its request was submitted. *)
Lemma verify_token_justified token tb : justification (cm_transaction (genesis token)) <> None -> verify_token token tb <> Ok tt.
Proof.
  intros Hj Hv. unfold verify_token, verify_token_with, verify_token_with_policy, verify_token_with_memo_capacity in Hv.
  rewrite with_memo_capacity_fits in Hv by by vm_compute.
  destruct (validate tb) as [[]|?|]; cbn [map_err] in Hv; [|done..].
  destruct (verify_token_in_context _ _ _ _) as [r c] eqn:Er. cbn [fst] in Hv. subst r. unfold fuel_of in Er.
  cbn [verify_token_in_context] in Er. apply bindM_Ok in Er as (? & ? & [= <- <-] & Er). destruct (_ <? _) in Er; [done|].
  apply bindM_Ok in Er as ([] & c1 & Hg & _). unfold verify_genesis in Hg. apply bindM_Ok in Hg as (? & ? & [= <- <-] & Hg).
  destruct (negb _) in Hg; [done|]. apply bindM_Ok in Hg as (pk & ? & _ & Hg). destruct (negb _) in Hg; [done|].
  apply bindM_Ok in Hg as ([] & c2 & _ & Hg). apply bindM_Ok in Hg as ([] & c3 & _ & Hg).
  apply Hj, (empty_justification (verify_embedded_token (verify_token_in_context
    (N.to_nat (val (max_embedded_token_depth (limits default_policy)))) empty_registry)) _ c3). by rewrite Hg.
Qed.

Theorem mint_justified_fails {P} `{Predicate P} tb network (recipient : P) ty salt data j exp w token w' :
  mint tb network recipient ty salt data (Some j) exp w <> (Ok token, w').
Proof.
  intros (_ & _ & tx & signer & p & (_ & _ & _ & _ & _ & Ej & _)%MintTransaction_create_inv & _ & _ & -> & Hv)%mint_flow_inv.
  revert Hv. apply verify_token_justified. cbn [genesis cm_transaction]. by rewrite Ej.
Qed.
End flow.
