(* ===== verification/Asset.v ===== *)
(** The fungible payload of a token: [src/payment/asset.rs].

    A collection is a canonical set: what [create] builds and what the decoder
    accepts are the same lists ([create_spec], the codec laws). *)

From S2P Require Import Prelude Bytes Error Cbor CborSpec CborRead Codec CborMap Hash Radix BigUint Rsmst RsmstSpec Search.
From Stdlib Require Import Permutation.
Local Open Scope N_scope.

Definition MAX_ASSET_ID_BYTES : N := 128.
Definition MAX_PAYMENT_ASSETS : N := 256.

Definition canonical_cmp (a b : bytes) : comparison :=
  let common := Nat.min (length a) (length b) in
  match bytes_cmp (take common a) (take common b) with
  | Eq => len a ?= len b
  | other => other
  end.

Record AssetId : Type := { aid_bytes : bytes }.

#[export] Instance AssetId_eq_dec : EqDecision AssetId.
Proof. solve_decision. Defined.

#[export] Instance AssetId_codec : Codec AssetId := {|
  to_cbor i := encode_byte_string (aid_bytes i);
  from_cbor d :=
    b ← lift (Decoder.bytes_value d);
    if len b =? 0 then Err (OutOfRange "asset id must be non-empty") else
    if MAX_ASSET_ID_BYTES <? len b then Err (OutOfRange "asset id exceeds protocol limit") else
    Ok {| aid_bytes := b |};
  wf i := 0 < len (aid_bytes i) <= MAX_ASSET_ID_BYTES;
|}.

Section asset.
Context `{Sha2} `{BigUintOps}.

Record Asset : Type := { asset_id : AssetId; asset_value : BigUint }.

#[export] Instance Asset_codec : Codec Asset := {|
  from_cbor d :=
    items ← lift (Decoder.array d (Some 2));
    i0 ← idx items 0; id ← from_cbor i0;
    i1 ← idx items 1; b ← lift (Decoder.bytes_value i1);
    value ← decode_positive_amount b;
    Ok {| asset_id := id; asset_value := value |};
  to_cbor a := encode_array [to_cbor (asset_id a); encode_byte_string (encode_amount (asset_value a))];
  wf a := wf (asset_id a) /\ is_valid_amount (asset_value a) = true;
|}.

Record PaymentAssetCollection : Type := { assets : list Asset }.

(** [canonical_cmp(a.id.bytes(), b.id.bytes())] as a sort order *)
Definition asset_lt (a b : Asset) : bool :=
  match canonical_cmp (aid_bytes (asset_id a)) (aid_bytes (asset_id b)) with Lt => true | _ => false end.

(** The checks of [create] on one asset. *)
Definition check_asset (asset : Asset) : result unit :=
  if len (aid_bytes (asset_id asset)) =? 0 then Err (OutOfRange "asset id must be non-empty") else
  if MAX_ASSET_ID_BYTES <? len (aid_bytes (asset_id asset)) then Err (OutOfRange "asset id exceeds protocol limit") else
  if big_eqb (asset_value asset) big_ZERO then Err (OutOfRange "asset amount must be positive") else
  if 256 <? big_bits (asset_value asset) then Err (OutOfRange "asset amount exceeds 256 bits") else Ok tt.

(** [out.windows(2).any(|w| w[0].id == w[1].id)] *)
Fixpoint adjacent_equal (l : list Asset) : bool :=
  match l with
  | a :: rest => match rest with b :: _ => bool_decide (asset_id a = asset_id b) | [] => false end || adjacent_equal rest
  | [] => false
  end.

Definition create (out : list Asset) : result PaymentAssetCollection :=
  if len out =? 0 then Err (OutOfRange "payment collection must be non-empty") else
  if MAX_PAYMENT_ASSETS <? len out then Err (OutOfRange "payment asset count exceeds protocol limit") else
  _ ← mapO check_asset out;
  let out := sort_by asset_lt out in
  if adjacent_equal out then Err (UnexpectedValue "duplicate asset id in payment collection") else
  Ok {| assets := out |}.

Definition get (self : PaymentAssetCollection) (id : AssetId) : option Asset :=
  snd <$> list_find (fun a => asset_id a = id) (assets self).

(** The loop of [PaymentAssetCollection::from_cbor]. *)
Definition push_asset (assets : list Asset) (item : Decoder) : result (list Asset) :=
  asset ← from_cbor item;
  _ ← (match last assets with
       | Some previous =>
           match canonical_cmp (aid_bytes (asset_id previous)) (aid_bytes (asset_id asset)) with
           | Lt => Ok tt
           | Eq => Err (UnexpectedValue "duplicate asset id")
           | Gt => Err (from_cbor_error NonCanonicalEncoding)
           end
       | None => Ok tt
       end);
  Ok (assets ++ [asset]).

(** The ids ascend strictly. *)
Definition ids (l : list Asset) : list bytes := (fun a => aid_bytes (asset_id a)) <$> l.

#[export] Instance PaymentAssetCollection_codec : Codec PaymentAssetCollection := {|
  from_cbor d :=
    items ← lift (Decoder.array d None);
    if len items =? 0 then Err (OutOfRange "payment collection must be non-empty") else
    if MAX_PAYMENT_ASSETS <? len items then Err (OutOfRange "payment asset count exceeds protocol limit") else
    assets ← foldM push_asset [] items;
    Ok {| assets := assets |};
  to_cbor c := encode_array (to_cbor <$> assets c);
  wf c := 0 < len (assets c) <= MAX_PAYMENT_ASSETS /\ ascending None (ids (assets c)) /\ Forall wf (assets c);
|}.

Definition from_cbor_bytes (b : bytes) : result PaymentAssetCollection :=
  let d := Decoder.new b in
  _ ← lift (Decoder.finish d);
  from_cbor d.

(** [==] on assets and collections (derived) *)
Definition asset_eqb (a b : Asset) : bool :=
  bool_decide (asset_id a = asset_id b) && big_eqb (asset_value a) (asset_value b).
Fixpoint assets_eqb (l l' : list Asset) : bool :=
  match l, l' with
  | [], [] => true
  | a :: l, a' :: l' => asset_eqb a a' && assets_eqb l l'
  | _, _ => false
  end.
Definition collection_eqb (c c' : PaymentAssetCollection) : bool := assets_eqb (assets c) (assets c').

End asset.

(** * Facts *)

(** The comparator is the one of map keys, and the lexicographic order. *)
Lemma canonical_cmp_lex a b : canonical_cmp a b = bytes_cmp a b.
Proof. exact (canonical_key_cmp_lex a b). Qed.

#[export] Instance AssetId_laws : CodecLaws AssetId.
Proof.
  split.
  - intros a. codec_unfold AssetId_codec. eauto with items.
  - intros a. codec_unfold AssetId_codec. eauto with items.
  - intros limits [b] Hw Ha. codec_unfold AssetId_codec. cbn [aid_bytes] in *. codec_forward.
    destruct (N.eqb_spec (len b) 0); [lia|]. by destruct (N.ltb_spec MAX_ASSET_ID_BYTES (len b)); [lia|].
  - intros d a E. codec_unfold AssetId_codec. apply bind_Ok in E as (b & _ & E).
    destruct (N.eqb_spec (len b) 0); [done|]. destruct (N.ltb_spec MAX_ASSET_ID_BYTES (len b)); [done|].
    injection E as <-. simpl. lia.
  - intros d. codec_unfold AssetId_codec. solve_no_panic.
Qed.
#[export] Instance AssetId_canonical : CodecCanonical AssetId.
Proof. split. intros d a E. codec_unfold AssetId_codec. codec_inv. codec_close. Qed.

Section facts.
Context `{Sha2} `{BigUintLaws}.

#[local] Hint Resolve no_panic_decode_amount : outcome.

#[export] Instance Asset_laws : CodecLaws Asset.
Proof.
  split.
  - intros a. codec_unfold Asset_codec. eauto with items.
  - intros a. codec_unfold Asset_codec. eauto with items.
  - intros limits a [Hi Hv] Ha. codec_unfold Asset_codec. codec_forward.
    rewrite encode_decode_amount by done. by destruct a.
  - intros d a E. codec_unfold Asset_codec. repeat inv_ok. split; [by eapply from_cbor_wf|by eapply decode_amount_inv].
  - intros d. codec_unfold Asset_codec. pose proof no_panic_decode_amount. solve_no_panic; auto.
Qed.
#[export] Instance Asset_canonical : CodecCanonical Asset.
Proof.
  split. intros d a E. codec_unfold Asset_codec. codec_inv.
  match goal with E : decode_positive_amount _ = Ok _ |- _ => apply decode_amount_inv in E as [_ <-] end. codec_close.
Qed.

(** ** Collections *)

Lemma ascending_snoc prev ks k : ascending prev (ks ++ [k]) <-> ascending prev ks /\
  match last ks with Some p => bytes_cmp p k = Lt
  | None => match prev with Some p => bytes_cmp p k = Lt | None => True end end.
Proof.
  revert prev. induction ks as [|x ks IH]; intros prev.
  - simpl. destruct prev; [rewrite canonical_key_cmp_lex|]; tauto.
  - rewrite <- app_comm_cons, !ascending_cons, IH, last_cons. destruct (last ks); tauto.
Qed.

Lemma ascending_app_l prev l k : ascending prev (l ++ k) -> ascending prev l.
Proof.
  induction k as [|x k IH] using rev_ind; [by rewrite app_nil_r|]. rewrite app_assoc. by intros [Ha _]%ascending_snoc; auto.
Qed.

Lemma ids_snoc l (a : Asset) : ids (l ++ [a]) = ids l ++ [aid_bytes (asset_id a)].
Proof. unfold ids. by rewrite fmap_app. Qed.

Lemma push_asset_Ok l item l' : ascending None (ids l) -> push_asset l item = Ok l' <->
  exists a, from_cbor item = Ok a /\ l' = l ++ [a] /\ ascending None (ids l').
Proof.
  intros Hl. unfold push_asset. split.
  - intros (a & Ha & E)%bind_Ok. apply bind_Ok in E as ([] & Hc & [= <-]). exists a. split_and!; [done..|].
    rewrite ids_snoc. apply ascending_snoc. split; [done|]. unfold ids. rewrite fmap_last.
    destruct (last l) as [p|]; [|done]. rewrite canonical_cmp_lex in Hc. simpl. by destruct (bytes_cmp _ _).
  - intros (a & -> & -> & Ha). rewrite bind_Ok_l. rewrite ids_snoc in Ha. apply ascending_snoc in Ha as [_ Ha].
    unfold ids in Ha. rewrite fmap_last in Ha. destruct (last l) as [p|]; [|done]. rewrite canonical_cmp_lex. simpl in Ha. by rewrite Ha.
Qed.

Lemma foldM_push_asset ds : forall l out, ascending None (ids l) -> foldM push_asset l ds = Ok out ->
  exists l', out = l ++ l' /\ mapO from_cbor ds = Ok l' /\ ascending None (ids out).
Proof.
  induction ds as [|d ds IH]; intros l out Hl; cbn [foldM mapO].
  - intros [= <-]. exists []. by rewrite app_nil_r.
  - intros (l1 & E & Ef)%bind_Ok. apply push_asset_Ok in E as (a & Ha & -> & Hl1); [|done].
    apply IH in Ef as (l' & -> & Hm & Ho); [|done]. exists (a :: l'). rewrite Ha, Hm. split_and!; [by rewrite <- app_assoc|done|done].
Qed.

Lemma foldM_push_asset_Ok limits l' : forall l, ascending None (ids (l ++ l')) -> Forall wf l' ->
  Forall (fun b => accepts limits b) (to_cbor <$> l') ->
  foldM push_asset l (children limits (to_cbor <$> l')) = Ok (l ++ l').
Proof.
  induction l' as [|a l' IH]; intros l Hl Hw Ha; [by rewrite app_nil_r|]. rewrite fmap_cons in *.
  apply Forall_cons in Hw as [Hw Hws], Ha as [Ha Has].
  change (a :: l') with ([a] ++ l') in *. rewrite app_assoc in *.
  assert (ascending None (ids (l ++ [a]))) as Hla by (unfold ids in *; rewrite fmap_app in Hl; by eapply ascending_app_l).
  assert (ascending None (ids l)) as Hl0 by (rewrite ids_snoc in Hla; by eapply ascending_app_l).
  assert (push_asset l (with_limits (to_cbor a) limits) = Ok (l ++ [a])) as E.
  { apply push_asset_Ok; [done|]. exists a. split_and!; [by apply from_to_cbor|done|done]. }
  cbn [children fmap list_fmap foldM]. rewrite E, bind_Ok_l. apply IH; [done..].
Qed.

Lemma push_asset_no_panic l d : no_panic (push_asset l d).
Proof.
  unfold push_asset. apply no_panic_bind; [auto with outcome|]. intros a _.
  apply no_panic_bind; [|done]. destruct (last l); [|done]. by destruct (canonical_cmp _ _).
Qed.
#[local] Hint Resolve push_asset_no_panic : outcome.

#[export] Instance PaymentAssetCollection_laws : CodecLaws PaymentAssetCollection.
Proof.
  split.
  - intros a. codec_unfold PaymentAssetCollection_codec. eauto with items.
  - intros a. codec_unfold PaymentAssetCollection_codec. eauto with items.
  - intros limits [l] (Hn & Hs & Hw) Ha. codec_unfold PaymentAssetCollection_codec. cbn [assets] in *. codec_forward.
    assert (len (children limits (to_cbor <$> l)) = len l) as -> by (unfold len, children; by rewrite !length_fmap).
    destruct (N.eqb_spec (len l) 0); [lia|]. destruct (N.ltb_spec MAX_PAYMENT_ASSETS (len l)); [lia|].
    by rewrite (foldM_push_asset_Ok limits l []).
  - intros d a E. codec_unfold PaymentAssetCollection_codec. apply bind_Ok in E as (ds & Ea & E).
    destruct (N.eqb_spec (len ds) 0); [done|]. destruct (N.ltb_spec MAX_PAYMENT_ASSETS (len ds)); [done|].
    apply bind_Ok in E as (l & Hf & [= <-]). apply foldM_push_asset in Hf as (l' & -> & Hm & Hs); [|done].
    cbn [app assets] in *. pose proof (mapO_wf _ _ Hm). apply mapO_Forall2, Forall2_length in Hm. unfold len in *.
    split_and!; [lia|lia|done|done].
  - intros d. codec_unfold PaymentAssetCollection_codec. solve_no_panic.
Qed.
#[export] Instance PaymentAssetCollection_canonical : CodecCanonical PaymentAssetCollection.
Proof.
  split. intros d a E. codec_unfold PaymentAssetCollection_codec. apply bind_Ok in E as (ds & Ea%lift_Ok & E).
  destruct (N.eqb_spec (len ds) 0); [done|]. destruct (N.ltb_spec MAX_PAYMENT_ASSETS (len ds)); [done|].
  apply bind_Ok in E as (l & Hf & [= <-]). apply foldM_push_asset in Hf as (l' & -> & Hm & _); [|done].
  apply array_inv in Ea as (bs & -> & Hb & _). apply mapO_to_cbor in Hm. cbn [app assets]. by rewrite Hb, <- Hm.
Qed.

(** ** [create] *)

Lemma check_asset_spec a : check_asset a = Ok tt <-> wf a.
Proof.
  unfold check_asset. codec_unfold Asset_codec. codec_unfold AssetId_codec. rewrite is_valid_amount_spec.
  destruct (N.eqb_spec (len (aid_bytes (asset_id a))) 0); [split; [done|lia]|].
  destruct (N.ltb_spec MAX_ASSET_ID_BYTES (len (aid_bytes (asset_id a)))); [split; [done|lia]|].
  destruct (big_eqb (asset_value a) big_ZERO) eqn:E; [apply is_zero_spec in E; split; [done|lia]|].
  assert (value (asset_value a) <> 0) by (intros Hz; apply is_zero_spec in Hz; congruence).
  destruct (N.ltb_spec 256 (big_bits (asset_value a))) as [Hb|Hb]; rewrite big_bits_spec in Hb.
  - split; [done|]. intros [_ [_ Hv]]. apply bit_length_le in Hv. lia.
  - split; [|done]. intros _. apply bit_length_le in Hb. lia.
Qed.

Lemma check_assets_spec l : (exists us, mapO check_asset l = Ok us) <-> Forall wf l.
Proof.
  split.
  - intros [us Hu]. apply mapO_Forall2 in Hu. induction Hu as [|a [] l us Ha _ IH]; [done|].
    constructor; [by apply check_asset_spec|done].
  - intros Hl. exists (repeat tt (length l)). apply mapO_Forall2.
    induction Hl as [|a l Ha _ IH]; [constructor|]. simpl. constructor; [by apply check_asset_spec|done].
Qed.

Lemma asset_lt_spec a b : asset_lt a b = true <-> bytes_cmp (aid_bytes (asset_id a)) (aid_bytes (asset_id b)) = Lt.
Proof. unfold asset_lt. rewrite canonical_cmp_lex. by destruct (bytes_cmp _ _). Qed.

(** The ids do not descend. *)
Fixpoint sorted_assets (l : list Asset) : Prop :=
  match l with
  | [] => True
  | a :: l' => match l' with
               | [] => True
               | b :: _ => bytes_cmp (aid_bytes (asset_id a)) (aid_bytes (asset_id b)) <> Gt
               end /\ sorted_assets l'
  end.

Lemma insert_asset_sorted a l : sorted_assets l -> sorted_assets (insert_by asset_lt a l).
Proof.
  induction l as [|x l IH]; [done|]. intros [Hx Hl]. cbn [insert_by].
  destruct (asset_lt x a) eqn:E.
  - specialize (IH Hl). apply asset_lt_spec in E. destruct l as [|y l].
    + simpl. split; [by rewrite E|done].
    + cbn [insert_by] in *. destruct (asset_lt y a); (split; [|done]); [done|by rewrite E].
  - split; [|done]. intros Hgt. assert (asset_lt x a = true); [|congruence].
    apply asset_lt_spec. by rewrite bytes_cmp_antisym, Hgt.
Qed.

Lemma sort_assets_sorted l : sorted_assets (sort_by asset_lt l).
Proof. induction l as [|a l IH]; [done|]. by apply insert_asset_sorted. Qed.

Lemma adjacent_equal_spec l : sorted_assets l -> adjacent_equal l = false <-> ascending None (ids l).
Proof.
  assert (forall l p, sorted_assets l ->
    match p, l with Some p, a :: _ => bytes_cmp p (aid_bytes (asset_id a)) = Lt | _, _ => True end ->
    adjacent_equal l = false <-> ascending p (ids l)) as Hg; [|by intros Hl; apply (Hg l None Hl)].
  clear l. induction l as [|a l IH]; intros p Hs Hp; [done|]. unfold ids. rewrite fmap_cons, ascending_cons.
  destruct Hs as [Hab Hs]. cbn [adjacent_equal]. destruct l as [|b l]; [simpl; destruct p; tauto|].
  rewrite orb_false_iff, bool_decide_eq_false. split.
  - intros [Hne Ha]. split; [done|]. apply (IH (Some (aid_bytes (asset_id a)))); [done| |done].
    destruct (bytes_cmp (aid_bytes (asset_id a)) (aid_bytes (asset_id b))) eqn:E; [|done|done].
    apply bytes_cmp_eq in E. destruct (asset_id a), (asset_id b). simpl in E. by subst.
  - intros [_ Ha]. pose proof Ha as Ha'. rewrite fmap_cons in Ha. apply ascending_cons in Ha as [Hlt _]. split.
    + intros E. by rewrite E, bytes_cmp_refl in Hlt.
    + by apply (IH (Some (aid_bytes (asset_id a)))).
Qed.

(** [create] succeeds exactly on the non-empty lists of at most 256 valid assets
    with distinct ids, and returns the canonical collection of them. *)
Theorem create_spec l c : create l = Ok c <->
  assets c = sort_by asset_lt l /\ assets c ≡ₚ l /\ wf c.
Proof.
  codec_unfold PaymentAssetCollection_codec. unfold create. pose proof (sort_by_Permutation asset_lt l) as Hp. split.
  - destruct (N.eqb_spec (len l) 0); [done|]. destruct (N.ltb_spec MAX_PAYMENT_ASSETS (len l)); [done|].
    intros (us & Hu & E)%bind_Ok. destruct (adjacent_equal _) eqn:Ea; [done|]. injection E as <-. cbn [assets].
    pose proof (Permutation_length Hp) as Hlen. unfold len in *. rewrite Hlen. split_and!; try done; [lia|..].
    + apply adjacent_equal_spec; [apply sort_assets_sorted|done].
    + rewrite Hp. apply check_assets_spec. by exists us.
  - intros (Ec & Hc & Hn & Ha & Hw). pose proof (Permutation_length Hc) as Hlen. unfold len in *. rewrite Hlen in Hn.
    destruct (N.eqb_spec (N.of_nat (length l)) 0); [lia|]. destruct (N.ltb_spec MAX_PAYMENT_ASSETS (N.of_nat (length l))); [lia|].
    rewrite Hc in Hw. apply check_assets_spec in Hw as [us ->]. rewrite bind_Ok_l, <- Ec.
    rewrite (proj2 (adjacent_equal_spec (assets c) ltac:(rewrite Ec; apply sort_assets_sorted)) Ha). by destruct c.
Qed.

Lemma asset_eqb_spec a b : asset_eqb a b = true <-> a = b.
Proof.
  unfold asset_eqb. rewrite andb_true_iff, bool_decide_eq_true, big_eqb_spec. destruct a, b. simpl. split.
  - intros [-> E%value_inj]. by subst.
  - by intros [= -> ->].
Qed.

Lemma collection_eqb_spec c c' : collection_eqb c c' = true <-> c = c'.
Proof.
  unfold collection_eqb. destruct c as [l], c' as [l']. cbn [assets]. transitivity (l = l'); [|split; [by intros ->|by intros [= ->]]].
  revert l'. induction l as [|a l IH]; intros [|a' l']; cbn [assets_eqb]; try done.
  rewrite andb_true_iff, asset_eqb_spec, IH. split; [by intros [-> ->]|by intros [= -> ->]].
Qed.

Lemma get_Some c id a : get c id = Some a -> a ∈ assets c /\ asset_id a = id.
Proof.
  unfold get. destruct (list_find _ _) as [[i b]|] eqn:E; [|done]. intros [= <-].
  apply list_find_Some in E as (Hi & Hid & _). split; [by eapply list_elem_of_lookup_2|done].
Qed.

Lemma get_complete c a : NoDup (asset_id <$> assets c) -> a ∈ assets c -> get c (asset_id a) = Some a.
Proof.
  intros Hnd Hin. unfold get. destruct (list_find (fun b => asset_id b = asset_id a) (assets c)) as [[i b]|] eqn:E; simpl.
  - apply list_find_Some in E as (Hi & Hid & _). apply list_elem_of_lookup in Hin as [j Hj]. f_equal.
    assert (i = j) as ->; [|congruence].
    eapply (NoDup_lookup _ i j (asset_id a) Hnd); rewrite list_lookup_fmap; [rewrite Hi|rewrite Hj]; simpl; congruence.
  - apply list_find_None in E. rewrite Forall_forall in E. by destruct (E a Hin).
Qed.

Lemma ascending_NoDup c : wf c -> NoDup (asset_id <$> assets c).
Proof.
  codec_unfold PaymentAssetCollection_codec. intros (_ & Ha & _). apply ascending_bytes_NoDup in Ha as [Ha _].
  unfold ids in Ha. eapply NoDup_fmap_1 with (f := aid_bytes). by rewrite <- list_fmap_compose.
Qed.

Lemma from_cbor_bytes_no_panic b : no_panic (from_cbor_bytes b).
Proof. unfold from_cbor_bytes. solve_no_panic. Qed.

Lemma from_cbor_bytes_enc c : wf c -> accepts DecodeLimits_DEFAULT (to_cbor c) -> from_cbor_bytes (to_cbor c) = Ok c.
Proof.
  intros Hw Ha. unfold from_cbor_bytes, Decoder.new. rewrite Ha. cbn [lift map_err]. rewrite bind_Ok_l. by apply from_to_cbor.
Qed.

Lemma from_cbor_bytes_inv b c : from_cbor_bytes b = Ok c -> wf c /\ to_cbor c = b.
Proof.
  unfold from_cbor_bytes. intros (u & _ & E)%bind_Ok. split; [by eapply from_cbor_wf|by apply to_from_cbor in E].
Qed.
End facts.
#[export] Hint Resolve from_cbor_bytes_no_panic : outcome.
