(* ===== verification/Payment.v ===== *)
(** Splitting and its verification: [src/payment/commitment.rs], [manifest.rs],
    [justification.rs], [verifier.rs] and [split.rs].

    [SplitMintJustificationVerifier] is a verifier of the registry of [Verify]:
    it decodes through the context's interner and re-enters verification for the
    burned token; [split_checks] are its checks after that. *)

From S2P Require Import Prelude State Bytes Error Cbor CborSpec CborRead Hash Codec Ids Secp Predicates Radix BigUint Bft UcInterner VerificationError TrustBase Seal Proofs Transactions Verify Rsmst Asset.
Local Open Scope N_scope.

(** * Output commitments *)

(** [b"UNICITY_SPLIT_OUTPUT"] *)
Definition SPLIT_OUTPUT : bytes := n2b <$> [
  0x55; 0x4e; 0x49; 0x43; 0x49; 0x54; 0x59; 0x5f; 0x53; 0x50; 0x4c; 0x49; 0x54; 0x5f; 0x4f; 0x55; 0x54; 0x50; 0x55; 0x54].

Section commitment.
Context `{Sha2}.

Definition split_output_preimage (source_id : TokenId) (network_id : NetworkId) (recipient : EncodedPredicate)
    (salt : TokenSalt) (output_id : TokenId) (token_type : TokenType) (aux_data : bytes) : bytes :=
  encode_array [
    encode_byte_string SPLIT_OUTPUT;
    encode_byte_string (val (tid_bytes source_id));
    encode_uint (wrap 64 (val (NetworkId.id network_id)));
    encode_byte_string (to_cbor recipient);
    encode_byte_string (val (salt_bytes salt));
    encode_byte_string (val (tid_bytes output_id));
    encode_byte_string (type_bytes token_type);
    encode_byte_string aux_data].

Definition split_output_commitment (source_id : TokenId) (network_id : NetworkId) (recipient : EncodedPredicate)
    (salt : TokenSalt) (output_id : TokenId) (token_type : TokenType) (aux_data : bytes) : arr 32 :=
  Sha256_digest (split_output_preimage source_id network_id recipient salt output_id token_type aux_data).

Definition commitment_for_mint (source_id : TokenId) (mint : MintTransaction) : result (arr 32) :=
  aux_data ← ok_or (UnexpectedValue "split output has no auxiliary payload") (data mint);
  Ok (split_output_commitment source_id (network_id mint) (mint_recipient mint) (salt mint) (token_id mint)
        (token_type mint) aux_data).
End commitment.

(** * Manifests *)

Definition SPLIT_MANIFEST_TAG : u64 := wrap 64 39046.

Record SplitManifest : Type := { roots : list (arr 32) }.

Definition SplitManifest_create (roots : list (arr 32)) : result SplitManifest :=
  if len roots =? 0 then Err (OutOfRange "split manifest must be non-empty") else
  if MAX_PAYMENT_ASSETS <? len roots then Err (OutOfRange "split manifest exceeds protocol limit") else
  Ok {| roots := roots |}.

Definition manifest_to_cbor (self : SplitManifest) : bytes :=
  encode_tag SPLIT_MANIFEST_TAG (encode_array ((fun r : arr 32 => encode_byte_string (val r)) <$> roots self)).

Definition reason_hash `{Sha2} (self : SplitManifest) : arr 32 := Sha256_digest (manifest_to_cbor self).

(** [item.bytes_value()?.try_into()] *)
Definition root_from_cbor (item : Decoder) : result (arr 32) :=
  b ← lift (Decoder.bytes_value item);
  ok_or (InvalidLength "split manifest root" 32 0) (try_arr 32 b).

Definition manifest_from_cbor_bytes (b : bytes) (limits : DecodeLimits) : result SplitManifest :=
  let d := with_limits b limits in
  _ ← lift (Decoder.finish d);
  inner ← lift (Decoder.expect_tag d (val SPLIT_MANIFEST_TAG));
  items ← lift (Decoder.array inner None);
  if len items =? 0 then Err (OutOfRange "split manifest must be non-empty") else
  if MAX_PAYMENT_ASSETS <? len items then Err (OutOfRange "split manifest exceeds protocol limit") else
  roots ← mapO root_from_cbor items;
  Ok {| roots := roots |}.

(** * Justifications *)

Definition SPLIT_MINT_JUSTIFICATION_TAG : u64 := wrap 64 39044.

Section payment.
Context `{Sha2} `{K256} `{BigUintOps}.

Record SplitMintJustification : Type := {
  j_token : Token;
  j_proofs : list RsmstInclusionProof;
  encoded_token_len : N;
}.

Definition SplitMintJustification_create (token : Token) (proofs : list RsmstInclusionProof) : result SplitMintJustification :=
  if len proofs =? 0 then Err (UnexpectedValue "split mint justification needs at least one proof") else
  if MAX_PAYMENT_ASSETS <? len proofs then Err (OutOfRange "split proof count exceeds protocol limit") else
  Ok {| j_token := token; j_proofs := proofs; encoded_token_len := len (Token_to_cbor token) |}.

Definition SplitMintJustification_from_cbor_interned (b : bytes) (limits : DecodeLimits) : M UcInterner Error SplitMintJustification :=
  inner ← liftM (lift (Decoder.expect_tag (with_limits b limits) (val SPLIT_MINT_JUSTIFICATION_TAG)));
  items ← liftM (lift (Decoder.array inner (Some 2)));
  i0 ← liftM (idx items 0);
  let encoded_token_len := len (dbytes i0) in
  token ← Token_from_cbor_interned (dbytes i0) limits;
  i1 ← liftM (idx items 1);
  encoded_proofs ← liftM (lift (Decoder.array i1 None));
  if MAX_PAYMENT_ASSETS <? len encoded_proofs then liftM (Err (OutOfRange "split proof count exceeds protocol limit")) else
  proofs ← liftM (mapO from_cbor encoded_proofs);
  justification ← liftM (SplitMintJustification_create token proofs);
  mret {| j_token := j_token justification; j_proofs := j_proofs justification; encoded_token_len := encoded_token_len |}.

Definition SplitMintJustification_from_cbor_with_limits (b : bytes) (limits : DecodeLimits) : result SplitMintJustification :=
  fst (SplitMintJustification_from_cbor_interned b limits UcInterner.new).

Definition SplitMintJustification_to_cbor (self : SplitMintJustification) : bytes :=
  encode_tag SPLIT_MINT_JUSTIFICATION_TAG (encode_array [
    Token_to_cbor (j_token self); encode_array (to_cbor <$> j_proofs self)]).

(** * The verifiers *)

Definition PaymentDataDecoder : Type := bytes -> result PaymentAssetCollection.
Definition PaymentIssuancePolicy : Type := CertifiedMintTransaction -> PaymentAssetCollection -> verdict unit.

(** [PaymentDataVerifier::verify] *)
Definition payment_data_verify (decode_payment_data : PaymentDataDecoder) (authorize_issuance : PaymentIssuancePolicy)
    (_ : Embedded) (genesis : CertifiedMintTransaction) : ContextM unit :=
  b ← liftM (ok_or MalformedTokenData (data (cm_transaction genesis)));
  assets ← liftM (map_err (fun _ => MalformedTokenData) (decode_payment_data b));
  liftM (authorize_issuance genesis assets).

Definition PaymentDataVerifier (token_type : TokenType) (decode_payment_data : PaymentDataDecoder)
    (authorize_issuance : PaymentIssuancePolicy) : TokenDataVerifier :=
  {| td_token_type := token_type; td_verify := payment_data_verify decode_payment_data authorize_issuance |}.

Definition verify_payment_token (token : Token) (tb : RootTrustBase) (registry : MintJustificationRegistry)
    (decode_payment_data : PaymentDataDecoder) : verdict PaymentAssetCollection :=
  let policy := {| limits := limits default_policy; require_token_data_verifier := true |} in
  _ ← verify_token_with_policy token tb registry policy;
  b ← ok_or PaymentDataMissing (data (cm_transaction (genesis token)));
  map_err (fun _ => MalformedTokenData) (decode_payment_data b).

(** The loop body over the output assets and their proofs. *)
Definition check_allocation (source_assets : PaymentAssetCollection) (manifest : SplitManifest) (output_id : TokenId)
    (commitment : arr 32) (e : Asset * RsmstInclusionProof) : verdict unit :=
  let '(asset, proof) := e in
  index ← ok_or SplitSourceAssetMissing (fst <$> list_find (fun s => asset_id s = asset_id asset) (assets source_assets));
  root ← or_panic (roots manifest !! index);
  root_sum ← map_err (fun _ => SplitAllocationProofInvalid) (verify proof (tid_bytes output_id) commitment (asset_value asset) root);
  source ← or_panic (assets source_assets !! index);
  if negb (big_eqb root_sum (asset_value source)) then Err SplitSourceAmountMismatch else Ok tt.

(** The checks after the burned token is verified. *)
Definition split_checks (decode_payment_data : PaymentDataDecoder) (limits : DecodeLimits) (mint : MintTransaction)
    (output_assets : PaymentAssetCollection) (justification : SplitMintJustification) : verdict unit :=
  let burned := j_token justification in
  burn_transfer ← ok_or SplitBurnTransferMissing (last (transactions burned));
  manifest_bytes ← ok_or SplitManifestMissing (transfer_data (ct_transaction burn_transfer));
  if val (max_input_bytes limits) <? len manifest_bytes then Err (VerificationLimitExceeded "split manifest bytes") else
  manifest ← map_err (fun _ => SplitManifestMalformed) (manifest_from_cbor_bytes manifest_bytes limits);
  let expected_burn := from_predicate {| bp_reason := val (reason_hash manifest) |} in
  if negb (bool_decide (recipient (ct_transaction burn_transfer) = expected_burn)) then Err SplitBurnPredicateMismatch else
  let source := cm_transaction (genesis burned) in
  if negb (bool_decide (token_type mint = token_type source)) then Err SplitTokenTypeMismatch else
  source_payment_bytes ← ok_or SplitSourcePaymentDataMissing (data source);
  if val (max_input_bytes limits) <? len source_payment_bytes then Err (VerificationLimitExceeded "source payment data bytes") else
  source_assets ← map_err (fun _ => SplitSourcePaymentDataMissing) (decode_payment_data source_payment_bytes);
  if negb (len (assets source_assets) =? len (roots manifest)) then Err SplitManifestLengthMismatch else
  if negb (len (j_proofs justification) =? len (assets output_assets)) then Err SplitProofCountMismatch else
  let output_id := token_id mint in
  commitment ← map_err (fun _ => PaymentDataMissing) (commitment_for_mint (Token_id burned) mint);
  foldM (fun _ => check_allocation source_assets manifest output_id commitment) tt (zip (assets output_assets) (j_proofs justification)).

(** [SplitMintJustificationVerifier::verify] *)
Definition split_verify (decode_payment_data : PaymentDataDecoder) (embedded : Embedded) (genesis : CertifiedMintTransaction)
    : ContextM unit :=
  let mint := cm_transaction genesis in
  context ← State.get;
  let limits := decode_limits (limits (policy context)) in
  justification_bytes ← liftM (ok_or MalformedMintJustification (justification mint));
  justification ← on_interner (map_errM (fun _ => MalformedMintJustification)
    (SplitMintJustification_from_cbor_interned justification_bytes limits));
  output_payment_bytes ← liftM (ok_or PaymentDataMissing (data mint));
  if val (max_input_bytes limits) <? len output_payment_bytes
  then liftM (Err (VerificationLimitExceeded "payment data bytes")) else
  output_assets ← liftM (map_err (fun _ => MalformedTokenData) (decode_payment_data output_payment_bytes));
  let burned := j_token justification in
  if negb (bool_decide (network_id mint = network_id (cm_transaction (Transactions.genesis burned))))
  then liftM (Err SplitNetworkMismatch) else
  _ ← map_errM BurnTokenVerificationFailed (embedded burned (encoded_token_len justification));
  liftM (split_checks decode_payment_data limits mint output_assets justification).

Definition SplitMintJustificationVerifier (decode_payment_data : PaymentDataDecoder) : MintJustificationVerifier :=
  {| mj_tag := SPLIT_MINT_JUSTIFICATION_TAG; mj_verify := split_verify decode_payment_data |}.

(** * Splitting *)

Record SplitOutputPayload : Type := { payload_assets : PaymentAssetCollection; payload_bytes : bytes }.

Definition SplitOutputPayload_bare (assets : PaymentAssetCollection) : SplitOutputPayload :=
  {| payload_assets := assets; payload_bytes := to_cbor assets |}.

Definition SplitOutputPayload_new (assets : PaymentAssetCollection) (b : bytes) (decode_payment_data : PaymentDataDecoder)
    : result SplitOutputPayload :=
  decoded ← decode_payment_data b;
  if negb (collection_eqb decoded assets)
  then Err (UnexpectedValue "split output payload does not decode to the declared assets") else
  Ok {| payload_assets := assets; payload_bytes := b |}.

Record SplitTokenRequest : Type := {
  rq_recipient : EncodedPredicate;
  rq_token_type : TokenType;
  rq_payload : SplitOutputPayload;
  rq_salt : TokenSalt;
}.

Definition create_with_payload (recipient : EncodedPredicate) (payload : SplitOutputPayload) (token_type : TokenType) (salt : TokenSalt)
    : SplitTokenRequest :=
  {| rq_recipient := recipient; rq_token_type := token_type; rq_payload := payload; rq_salt := salt |}.

Definition SplitTokenRequest_create (recipient : EncodedPredicate) (assets : PaymentAssetCollection) (token_type : TokenType) (salt : TokenSalt)
    : SplitTokenRequest :=
  create_with_payload recipient (SplitOutputPayload_bare assets) token_type salt.

Record SplitToken : Type := {
  st_network_id : NetworkId;
  st_recipient : EncodedPredicate;
  st_token_type : TokenType;
  st_salt : TokenSalt;
  st_assets : PaymentAssetCollection;
  st_payload : bytes;
  st_proofs : list RsmstInclusionProof;
}.

Record SplitBurn : Type := {
  owner_predicate : BurnPredicate;
  burn_transaction : TransferTransaction;
  burn_manifest : bytes;
}.

Record Split : Type := { burn : SplitBurn; tokens : list SplitToken }.

Inductive SplitError : Type :=
| Verification (e : VerificationError)
| Build (e : Error).

(** The entry loop of [build_split]: one request. *)
Definition push_request (token : Token) (source_assets : PaymentAssetCollection) (decode_payment_data : PaymentDataDecoder)
    (entries : list (SplitTokenRequest * TokenId * arr 32)) (request : SplitTokenRequest)
    : result (list (SplitTokenRequest * TokenId * arr 32)) :=
  let network_id := network_id (cm_transaction (genesis token)) in
  if negb (bool_decide (rq_token_type request = token_type (cm_transaction (genesis token))))
  then Err (UnexpectedValue "split output token type must equal source token type") else
  decoded ← decode_payment_data (payload_bytes (rq_payload request));
  if negb (collection_eqb decoded (payload_assets (rq_payload request)))
  then Err (UnexpectedValue "split output payload does not decode to the declared assets") else
  if existsb (fun a => match get source_assets (asset_id a) with None => true | Some _ => false end)
       (assets (payload_assets (rq_payload request)))
  then Err (UnexpectedValue "split output asset is absent from source token") else
  let token_id := TokenId_derive network_id (rq_salt request) in
  if existsb (fun e => bool_decide (snd (fst e) = token_id)) entries
  then Err (UnexpectedValue "duplicate split token id") else
  let commitment := split_output_commitment (Token_id token) network_id (rq_recipient request) (rq_salt request) token_id
    (rq_token_type request) (payload_bytes (rq_payload request)) in
  Ok (entries ++ [(request, token_id, commitment)]).

(** The tree of one source asset. *)
Definition allocate (source_asset : Asset) (tree : Rsmst) (e : SplitTokenRequest * TokenId * arr 32) : result Rsmst :=
  let '(request, token_id, commitment) := e in
  match get (payload_assets (rq_payload request)) (asset_id source_asset) with
  | Some output_asset => insert tree (tid_bytes token_id) commitment (asset_value output_asset)
  | None => Ok tree
  end.

Definition build_tree (entries : list (SplitTokenRequest * TokenId * arr 32)) (source_asset : Asset)
    : result (AssetId * BuiltRsmst) :=
  tree ← foldM (allocate source_asset) Rsmst_new entries;
  built ← map_err (fun _ => UnexpectedValue "source asset is not allocated to any output") (build tree);
  if negb (big_eqb (root_sum built) (asset_value source_asset))
  then Err (UnexpectedValue "split asset total does not match source amount") else
  Ok (asset_id source_asset, built).

(** The proofs of one output. *)
Definition allocation_proof (built_trees : list (AssetId * BuiltRsmst)) (token_id : TokenId) (asset : Asset)
    : result RsmstInclusionProof :=
  '(_, built) ← or_panic (snd <$> list_find (fun t => fst t = asset_id asset) built_trees);
  ok_or (UnexpectedValue "missing allocation proof for output") (proof built (tid_bytes token_id)).

Definition build_output (network_id : NetworkId) (built_trees : list (AssetId * BuiltRsmst))
    (e : SplitTokenRequest * TokenId * arr 32) : result SplitToken :=
  let '(request, token_id, _) := e in
  proofs ← mapO (allocation_proof built_trees token_id) (assets (payload_assets (rq_payload request)));
  Ok {| st_network_id := network_id; st_recipient := rq_recipient request; st_token_type := rq_token_type request;
        st_salt := rq_salt request; st_assets := payload_assets (rq_payload request);
        st_payload := payload_bytes (rq_payload request); st_proofs := proofs |}.

(** [build_split]; [random_mask] is what the RNG answers. *)
Definition build_split (token : Token) (source_assets : PaymentAssetCollection) (decode_payment_data : PaymentDataDecoder)
    (requests : list SplitTokenRequest) (burn_state_mask : option (arr 32)) (burn_expires_at : option u64)
    (random_mask : result (arr 32)) : result Split :=
  let network_id := network_id (cm_transaction (genesis token)) in
  entries ← foldM (push_request token source_assets decode_payment_data) [] requests;
  built_trees ← mapO (build_tree entries) (assets source_assets);
  manifest ← SplitManifest_create ((fun t => root_hash (snd t)) <$> built_trees);
  let manifest_bytes := manifest_to_cbor manifest in
  let burn_predicate := {| bp_reason := val (reason_hash manifest) |} in
  mask ← (match burn_state_mask with Some m => Ok m | None => random_mask end);
  let '(source_state_hash, lock_script) := latest_state token in
  let transaction := {|
    transfer_source_state_hash := source_state_hash; transfer_lock_script := lock_script;
    transfer_recipient := from_predicate burn_predicate; transfer_expires_at := burn_expires_at;
    state_mask := val (mask : arr 32); transfer_data := Some manifest_bytes |} in
  tokens ← mapO (build_output network_id built_trees) entries;
  Ok {| burn := {| owner_predicate := burn_predicate; burn_transaction := transaction; burn_manifest := manifest_bytes |};
        tokens := tokens |}.

Definition split (token : Token) (tb : RootTrustBase) (registry : MintJustificationRegistry)
    (decode_payment_data : PaymentDataDecoder) (requests : list SplitTokenRequest) (burn_state_mask : option (arr 32))
    (burn_expires_at : option u64) (random_mask : result (arr 32)) : outcome SplitError Split :=
  source_assets ← map_err Verification (verify_payment_token token tb registry decode_payment_data);
  map_err Build (build_split token source_assets decode_payment_data requests burn_state_mask burn_expires_at random_mask).

Definition split_unchecked (token : Token) (decode_payment_data : PaymentDataDecoder) (requests : list SplitTokenRequest)
    (burn_state_mask : option (arr 32)) (burn_expires_at : option u64) (random_mask : result (arr 32)) : result Split :=
  source_bytes ← ok_or (UnexpectedValue "source token has no payment data") (data (cm_transaction (genesis token)));
  source_assets ← decode_payment_data source_bytes;
  build_split token source_assets decode_payment_data requests burn_state_mask burn_expires_at random_mask.

End payment.
