(* ===== verification/PaymentSpec.v ===== *)
(** What splitting guarantees: an accepted split output exhibits a burned source
    of the same type and network that committed it ([split_verifier_ok]), and
    the outputs accepted against one burned token never exceed its amounts
    ([value_conserved]). *)

From S2P Require Import Prelude State Bytes Error Cbor CborSpec CborRead Hash Codec CodecFacts Ids Secp Predicates Radix BigUint Bft BftCodec UcInterner VerificationError TrustBase Seal SealSpec Proofs Transactions TransactionsSpec Verify VerifySpec TokenSpec Rsmst RsmstSpec Asset Payment.
Local Open Scope N_scope.

(** * Manifests *)

Definition manifest_wf (m : SplitManifest) : Prop := 0 < len (roots m) <= MAX_PAYMENT_ASSETS.

Lemma manifest_create_spec l m : SplitManifest_create l = Ok m <-> roots m = l /\ manifest_wf m.
Proof.
  unfold SplitManifest_create, manifest_wf. split.
  - destruct (N.eqb_spec (len l) 0); [done|]. destruct (N.ltb_spec MAX_PAYMENT_ASSETS (len l)); [done|]. intros [= <-]. split; [done|]. cbn [roots]. lia.
  - intros [<- Hw]. destruct (N.eqb_spec (len (roots m)) 0); [lia|].
    destruct (N.ltb_spec MAX_PAYMENT_ASSETS (len (roots m))); [lia|]. by destruct m.
Qed.

Lemma manifest_item m : is_item (manifest_to_cbor m).
Proof. unfold manifest_to_cbor. eauto with items. Qed.

Lemma root_from_cbor_enc limits (l : list (arr 32)) :
  Forall (fun b => accepts limits b) ((fun r : arr 32 => encode_byte_string (val r)) <$> l) ->
  mapO root_from_cbor (children limits ((fun r : arr 32 => encode_byte_string (val r)) <$> l)) = Ok l.
Proof.
  intros Ha. apply mapO_Forall2. rewrite Forall_fmap in Ha. induction Ha as [|r l Hr _ IH]; [constructor|].
  csimpl. constructor; [|done]. unfold root_from_cbor. rewrite bytes_value_enc by done. cbn [lift map_err]. rewrite bind_Ok_l.
  by rewrite try_arr_val.
Qed.

Lemma manifest_round_trip limits m : manifest_wf m -> accepts limits (manifest_to_cbor m) ->
  manifest_from_cbor_bytes (manifest_to_cbor m) limits = Ok m.
Proof.
  intros Hw Ha. unfold manifest_from_cbor_bytes. rewrite Ha. cbn [lift map_err]. rewrite bind_Ok_l.
  unfold manifest_to_cbor in *. codec_forward.
  assert (len (children limits ((fun r : arr 32 => encode_byte_string (val r)) <$> roots m)) = len (roots m)) as ->
    by (unfold len, children; by rewrite !length_fmap).
  unfold manifest_wf in Hw. destruct (N.eqb_spec (len (roots m)) 0); [lia|].
  destruct (N.ltb_spec MAX_PAYMENT_ASSETS (len (roots m))); [lia|]. rewrite root_from_cbor_enc by done. by destruct m.
Qed.

Lemma root_from_cbor_inv limits bs l : mapO root_from_cbor (children limits bs) = Ok l ->
  bs = (fun r : arr 32 => encode_byte_string (val r)) <$> l.
Proof.
  rewrite mapO_Forall2. revert l. induction bs as [|b bs IH]; intros l Hl; csimpl in *; inversion Hl as [|? r ? l' Hr Hl']; subst; [done|].
  csimpl. rewrite <- (IH l' Hl'). f_equal. unfold root_from_cbor in Hr. apply bind_Ok in Hr as (x & Hx%lift_Ok%bytes_value_inv & Hr).
  apply ok_or_Ok, try_arr_Some in Hr as ->. exact Hx.
Qed.

Lemma manifest_inv b limits m : manifest_from_cbor_bytes b limits = Ok m -> manifest_wf m /\ manifest_to_cbor m = b.
Proof.
  unfold manifest_from_cbor_bytes. intros (u & Hf & E)%bind_Ok. apply bind_Ok in E as (inner & Hi%lift_Ok & E).
  apply bind_Ok in E as (items & Ha%lift_Ok & E). destruct (N.eqb_spec (len items) 0); [done|].
  destruct (N.ltb_spec MAX_PAYMENT_ASSETS (len items)); [done|]. apply bind_Ok in E as (l & Hm & [= <-]).
  apply array_inv in Ha as (bs & -> & Hb & _). pose proof Hm as Hl%mapO_Forall2%Forall2_length. apply root_from_cbor_inv in Hm as ->.
  split.
  - unfold manifest_wf. cbn [roots]. unfold len, children in *. rewrite !length_fmap in *. lia.
  - unfold manifest_to_cbor. cbn [roots]. rewrite <- Hb. apply expect_tag_inv in Hi as (_ & Hi & _).
    cbn [dbytes] in Hi. rewrite Hi. by rewrite wrap_val.
Qed.

Lemma manifest_no_panic b limits : no_panic (manifest_from_cbor_bytes b limits).
Proof. unfold manifest_from_cbor_bytes, root_from_cbor. solve_no_panic. Qed.

(** * Commitments *)

Section commitment.
Context `{Sha2}.

(** The commitment binds the source and every field of the output except its
    justification. *)
Theorem commitment_inj hashed s n r sa i ty aux s' n' r' sa' i' ty' aux' :
  let p := split_output_preimage s n r sa i ty aux in let p' := split_output_preimage s' n' r' sa' i' ty' aux' in
  hashed p -> hashed p' -> len p < 2 ^ 63 -> len p' < 2 ^ 63 ->
  split_output_commitment s n r sa i ty aux = split_output_commitment s' n' r' sa' i' ty' aux' ->
  (s = s' /\ n = n' /\ r = r' /\ sa = sa' /\ i = i' /\ ty = ty' /\ aux = aux') \/ Collision hashed.
Proof.
  intros p p' Hp Hp' Hl Hl' E. apply (digest_inj hashed) in E as [E|]; [left|by right|done..].
  assert (forall b bs, b ∈ bs -> len b <= len (encode_array bs)) as Hin by exact BftSpec.len_array_elem.
  assert (forall b bs, encode_byte_string b ∈ bs -> len (encode_array bs) < 2 ^ 63 -> len b < 2 ^ 64) as Hb.
  { intros b bs Hbs Hlt. apply Hin in Hbs. pose proof (len_byte_string b). lia. }
  assert (Forall is_item [encode_byte_string SPLIT_OUTPUT]) by eauto with items.
  apply encode_array_inj in E; [|eauto 20 with items|eauto 20 with items|unfold p, split_output_preimage, usize_max in *; lia].
  injection E as E1 E2 E3 E4 E5 E6 E7.
  repeat match goal with H : encode_byte_string ?a = encode_byte_string ?b |- _ =>
    apply encode_byte_string_inj in H; [|eapply Hb; [|exact Hl]; rewrite !elem_of_cons; tauto|eapply Hb; [|exact Hl']; rewrite !elem_of_cons; tauto] end.
  assert (to_cbor r = to_cbor r' -> len (to_cbor r) < 2 ^ 63 -> r = r') as Hr.
  { intros Er Hlr. eapply to_cbor_inj; [exact I|exact I| |exact Er]. unfold usize_max. lia. }
  assert (len (to_cbor r) < 2 ^ 63) as Hlr.
  { eapply N.le_lt_trans; [apply len_byte_string|]. eapply N.le_lt_trans; [|exact Hl]. apply Hin. rewrite !elem_of_cons. tauto. }
  specialize (Hr E3 Hlr). apply val_inj in E1, E4, E5. apply encode_uint_inj in E2.
  destruct s, s', sa, sa', i, i', ty, ty'. simpl in *. subst. split_and!; try done.
  apply (f_equal val) in E2. pose proof (uint_bound (NetworkId.id n)). pose proof (uint_bound (NetworkId.id n')).
  rewrite !val_wrap in E2 by (eapply N.lt_trans; [eassumption|done]). apply val_inj in E2. by apply val_inj in E2.
Qed.
End commitment.

(** * Justifications *)

Section justification.
Context `{Sha2} `{K256} `{BigUintLaws}.

Definition justification_wf (j : SplitMintJustification) : Prop :=
  token_wf (j_token j) /\ 0 < len (j_proofs j) <= MAX_PAYMENT_ASSETS /\ Forall wf (j_proofs j) /\
  encoded_token_len j = len (Token_to_cbor (j_token j)).

(** The decoding without an interner. *)
Definition justification_direct (b : bytes) (limits : DecodeLimits) : result SplitMintJustification :=
  inner ← lift (Decoder.expect_tag (with_limits b limits) (val SPLIT_MINT_JUSTIFICATION_TAG));
  items ← lift (Decoder.array inner (Some 2));
  i0 ← idx items 0;
  token ← token_direct (dbytes i0) limits;
  i1 ← idx items 1;
  encoded_proofs ← lift (Decoder.array i1 None);
  if MAX_PAYMENT_ASSETS <? len encoded_proofs then Err (OutOfRange "split proof count exceeds protocol limit") else
  proofs ← mapO from_cbor encoded_proofs;
  justification ← SplitMintJustification_create token proofs;
  Ok {| j_token := j_token justification; j_proofs := j_proofs justification; encoded_token_len := len (dbytes i0) |}.

Lemma agrees_justification b limits :
  agrees limits (SplitMintJustification_from_cbor_interned b limits) (justification_direct b limits).
Proof.
  unfold SplitMintJustification_from_cbor_interned, justification_direct.
  apply agrees_bind; [apply agrees_lift|]. intros inner _. apply agrees_bind; [apply agrees_lift|]. intros items _.
  apply agrees_bind; [apply agrees_lift|]. intros i0 _. apply agrees_bind; [apply agrees_token|]. intros token _.
  apply agrees_bind; [apply agrees_lift|]. intros i1 _. apply agrees_bind; [apply agrees_lift|]. intros ps _.
  destruct (_ <? _); [apply agrees_lift|]. apply agrees_bind; [apply agrees_lift|]. intros proofs _.
  apply agrees_bind; [apply agrees_lift|]. intros. apply agrees_ret.
Qed.

Lemma justification_create_spec token proofs j : SplitMintJustification_create token proofs = Ok j <->
  0 < len proofs <= MAX_PAYMENT_ASSETS /\
  j = {| j_token := token; j_proofs := proofs; encoded_token_len := len (Token_to_cbor token) |}.
Proof.
  unfold SplitMintJustification_create. destruct (N.eqb_spec (len proofs) 0); [split; [done|lia]|].
  destruct (N.ltb_spec MAX_PAYMENT_ASSETS (len proofs)); [split; [done|lia]|]. split; [intros [= <-]; split; [lia|done]|by intros [_ ->]].
Qed.

Lemma justification_direct_inv b limits j : justification_direct b limits = Ok j ->
  token_wf (j_token j) /\ 0 < len (j_proofs j) <= MAX_PAYMENT_ASSETS /\ Forall wf (j_proofs j).
Proof.
  unfold justification_direct. intros E. repeat inv_ok.
  match goal with H : SplitMintJustification_create _ _ = Ok _ |- _ => apply justification_create_spec in H as [? ->] end.
  match goal with H : token_direct _ _ = Ok _ |- _ => apply token_direct_wf in H end.
  match goal with H : mapO from_cbor _ = Ok _ |- _ => apply mapO_wf in H end. done.
Qed.

Lemma justification_item j : is_item (SplitMintJustification_to_cbor j).
Proof. unfold SplitMintJustification_to_cbor. pose proof (token_item (j_token j)). eauto 20 with items. Qed.

Lemma justification_round_trip limits j : justification_wf j -> accepts limits (SplitMintJustification_to_cbor j) ->
  SplitMintJustification_from_cbor_with_limits (SplitMintJustification_to_cbor j) limits = Ok j.
Proof.
  intros (Ht & Hn & Hp & Hl) Ha. unfold SplitMintJustification_from_cbor_with_limits.
  destruct (agrees_justification (SplitMintJustification_to_cbor j) limits UcInterner.new (remembers_new _)) as [-> _].
  unfold justification_direct, SplitMintJustification_to_cbor in *. pose proof (token_item (j_token j)). codec_forward.
  assert (token_direct (Token_to_cbor (j_token j)) limits = Ok (j_token j)) as E
    by (rewrite <- Token_from_cbor_direct; by apply token_round_trip).
  cbn [dbytes]. rewrite E. codec_forward.
  assert (len (children limits (to_cbor <$> j_proofs j)) = len (j_proofs j)) as ->
    by (unfold len, children; by rewrite !length_fmap).
  destruct (N.ltb_spec MAX_PAYMENT_ASSETS (len (j_proofs j))); [lia|].
  rewrite (proj2 (justification_create_spec _ _ _) (conj Hn eq_refl)).
  rewrite bind_Ok_l. cbn [j_token j_proofs]. rewrite <- Hl. by destruct j.
Qed.

Lemma justification_no_panic b limits : no_panic (justification_direct b limits).
Proof.
  unfold justification_direct, SplitMintJustification_create. pose proof (token_no_panic) as Ht.
  assert (forall b limits, no_panic (token_direct b limits)) by (intros; rewrite <- Token_from_cbor_direct; apply Ht).
  repeat (apply no_panic_bind; [auto with outcome|intros]). destruct (_ <? _); [done|].
  apply no_panic_bind; [apply no_panic_mapO; auto with outcome|intros]. destruct (_ =? 0); [done|]. by destruct (_ <? _).
Qed.

(** * What the verifier accepts *)

(** The type invariant of [PaymentAssetCollection] and of its decoders. *)
Definition decoder_ok (decode : PaymentDataDecoder) : Prop :=
  (forall b c, decode b = Ok c -> wf c) /\ forall b, no_panic (decode b).

Lemma default_decoder_ok : decoder_ok from_cbor_bytes.
Proof. split; [intros b c E; apply from_cbor_bytes_inv in E; tauto|apply from_cbor_bytes_no_panic]. Qed.

Context (decode : PaymentDataDecoder).

(** Every output asset has a proof, under the root of its source asset, of the
    output's commitment; the sum of the proof is the source amount. *)
Definition allocations_proved (source_id : TokenId) (source : PaymentAssetCollection) (manifest : SplitManifest)
    (mint : MintTransaction) (outputs : PaymentAssetCollection) (proofs : list RsmstInclusionProof) : Prop :=
  exists commitment, commitment_for_mint source_id mint = Ok commitment /\
    Forall2 (fun asset proof => exists i s r,
      list_find (fun s => asset_id s = asset_id asset) (assets source) = Some (i, s) /\ roots manifest !! i = Some r /\
      verify proof (tid_bytes (token_id mint)) commitment (asset_value asset) r = Ok (asset_value s))
      (assets outputs) proofs.

(** The payload of a mint decodes to the collection. *)
Definition payload_decodes (mint : MintTransaction) (c : PaymentAssetCollection) : Prop :=
  exists b, data mint = Some b /\ decode b = Ok c.

(** The token ends in a transfer that commits the manifest and burns it. *)
Definition burns (burned : Token) (manifest : SplitManifest) : Prop :=
  exists t, last (transactions burned) = Some t /\
    transfer_data (ct_transaction t) = Some (manifest_to_cbor manifest) /\
    recipient (ct_transaction t) = from_predicate {| bp_reason := val (reason_hash manifest) |}.

(** The evidence that [mint] is an output of burning [burned]. *)
Record split_evidence (mint : MintTransaction) (burned : Token) (outputs source : PaymentAssetCollection)
    (manifest : SplitManifest) (proofs : list RsmstInclusionProof) : Prop := {
  ev_network : network_id mint = network_id (cm_transaction (genesis burned));
  ev_type : token_type mint = token_type (cm_transaction (genesis burned));
  ev_outputs : payload_decodes mint outputs;
  ev_source : payload_decodes (cm_transaction (genesis burned)) source;
  ev_burn : burns burned manifest;
  ev_roots : manifest_wf manifest /\ len (assets source) = len (roots manifest);
  ev_proofs : allocations_proved (Token_id burned) source manifest mint outputs proofs;
}.

Definition split_accepted (Q : Token -> Prop) (g : CertifiedMintTransaction) : Prop :=
  exists burned outputs source manifest proofs,
    Q burned /\ token_wf burned /\ split_evidence (cm_transaction g) burned outputs source manifest proofs.

Lemma check_allocation_spec source manifest output_id commitment asset proof :
  len (assets source) = len (roots manifest) ->
  check_allocation source manifest output_id commitment (asset, proof) = Ok tt <->
  exists i s r, list_find (fun s => asset_id s = asset_id asset) (assets source) = Some (i, s) /\ roots manifest !! i = Some r /\
    verify proof (tid_bytes output_id) commitment (asset_value asset) r = Ok (asset_value s).
Proof.
  intros Hl. unfold check_allocation.
  destruct (list_find (fun s => asset_id s = asset_id asset) (assets source)) as [[i s]|] eqn:Ef.
  2: { split; [done|]. by intros (? & ? & ? & ? & _). }
  cbn [fmap option_fmap option_map fst ok_or]. rewrite bind_Ok_l. apply list_find_Some in Ef as (Hi & Hid & Hpre).
  destruct (roots manifest !! i) as [r|] eqn:Er.
  2: { apply lookup_ge_None in Er. apply lookup_lt_Some in Hi. unfold len in Hl. lia. }
  cbn [or_panic]. rewrite bind_Ok_l, Hi. cbn [or_panic]. split.
  - intros (sum & Hv%map_err_Ok & E)%bind_Ok. rewrite bind_Ok_l in E. destruct (big_eqb sum (asset_value s)) eqn:Eb; [|done].
    apply big_eqb_spec, value_inj in Eb as ->. by exists i, s, r.
  - intros (i' & s' & r' & [= <- <-] & Hr & Hv). rewrite Er in Hr. injection Hr as <-. rewrite Hv. cbn [map_err]. rewrite !bind_Ok_l.
    by rewrite (proj2 (big_eqb_spec _ _) eq_refl).
Qed.

Lemma check_allocations_spec source manifest output_id commitment l proofs :
  len (assets source) = len (roots manifest) -> len proofs = len l ->
  foldM (fun _ => check_allocation source manifest output_id commitment) tt (zip l proofs) = Ok tt <->
  Forall2 (fun asset proof => exists i s r,
      list_find (fun s => asset_id s = asset_id asset) (assets source) = Some (i, s) /\ roots manifest !! i = Some r /\
      verify proof (tid_bytes output_id) commitment (asset_value asset) r = Ok (asset_value s)) l proofs.
Proof.
  intros Hl. revert proofs. induction l as [|a l IH]; intros [|p ps] Hn; try (unfold len in Hn; simpl in Hn; lia).
  - split; [constructor|done].
  - rewrite !len_cons in Hn. cbn [zip zip_with foldM]. rewrite Forall2_cons, <- (IH ps) by lia.
    rewrite <- (check_allocation_spec source manifest output_id commitment a p Hl). rewrite bind_Ok. split.
    + intros ([] & ? & ?). done.
    + intros [? ?]. by exists tt.
Qed.

Lemma split_checks_sound limits mint outputs j : split_checks decode limits mint outputs j = Ok tt ->
  (exists b, data mint = Some b /\ decode b = Ok outputs) ->
  network_id mint = network_id (cm_transaction (genesis (j_token j))) ->
  exists source manifest, split_evidence mint (j_token j) outputs source manifest (j_proofs j).
Proof.
  unfold split_checks. intros (t & Ht%ok_or_Ok & E)%bind_Ok Hout Hn. apply bind_Ok in E as (mb & Hmb%ok_or_Ok & E).
  destruct (_ <? _); [done|]. apply bind_Ok in E as (manifest & Hm%map_err_Ok & E). apply manifest_inv in Hm as [Hmw <-].
  destruct (bool_decide_reflect (recipient (ct_transaction t) = from_predicate {| bp_reason := val (reason_hash manifest) |})) as [Hr|];
    [|done].
  destruct (bool_decide_reflect (token_type mint = token_type (cm_transaction (genesis (j_token j))))) as [Hty|]; [|done].
  simpl negb in E. cbv iota in E. apply bind_Ok in E as (sb & Hsb%ok_or_Ok & E). destruct (_ <? _); [done|].
  apply bind_Ok in E as (source & Hs%map_err_Ok & E).
  destruct (N.eqb_spec (len (assets source)) (len (roots manifest))) as [Hl|]; [|done].
  destruct (N.eqb_spec (len (j_proofs j)) (len (assets outputs))) as [Hp|]; [|done]. simpl negb in E. cbv iota in E.
  apply bind_Ok in E as (c & Hc%map_err_Ok & E). apply check_allocations_spec in E; [|done..].
  exists source, manifest. constructor; try done; [by exists sb|by exists t|by exists c].
Qed.

Lemma agrees_map_err {A} limits (f : Error -> VerificationError) (m : M UcInterner Error A) r : agrees limits m r ->
  forall i, remembers (parsed limits) i ->
  fst (map_errM f m i) = map_err f r /\ remembers (parsed limits) (snd (map_errM f m i)).
Proof. intros Hm i Hi. unfold map_errM. destruct (Hm i Hi) as [<- Hr]. by destruct (m i). Qed.

(** The token that the justification of a mint embeds. *)
Definition split_embeds (g : CertifiedMintTransaction) (t : Token) : Prop := exists b limits j,
  justification (cm_transaction g) = Some b /\ SplitMintJustification_from_cbor_with_limits b limits = Ok j /\ j_token j = t.

Lemma justification_from_cbor_direct b limits : SplitMintJustification_from_cbor_with_limits b limits = justification_direct b limits.
Proof. apply (agrees_justification b limits UcInterner.new), remembers_new. Qed.

(** The token embedded in a justification does not depend on the limits. *)
Lemma split_embeds_unique g b j t : justification (cm_transaction g) = Some b -> justification_wf j -> SplitMintJustification_to_cbor j = b ->
  split_embeds g t -> t = j_token j.
Proof.
  intros Ej Hw <- (b2 & limits & j' & Ej' & E & <-). rewrite Ej in Ej'. injection Ej' as <-. f_equal.
  assert (accepts limits (SplitMintJustification_to_cbor j)) as Ha.
  { rewrite justification_from_cbor_direct in E. unfold justification_direct in E.
    apply bind_Ok in E as (inner & Hi%lift_Ok%expect_tag_accepts & _). exact Hi. }
  rewrite (justification_round_trip limits j Hw Ha) in E. by injection E as <-.
Qed.

Lemma split_verifier_ok : verifier_ok split_embeds split_accepted (split_verify decode).
Proof.
  intros contexts K tb pol d Q e1 e2 g Hg He. unfold split_verify. apply agree_get. intros c1 c2 Hs.
  rewrite (sm_policy1 _ _ _ _ _ _ _ Hs), (sm_policy2 _ _ _ _ _ _ _ Hs).
  eapply agree_bind; [apply agree_lift|]. intros jb Hjb%ok_or_Ok.
  eapply agree_bind; [apply agree_interner, agrees_map_err, agrees_justification|]. intros j Hj%map_err_Ok.
  pose proof (justification_direct_inv _ _ _ Hj) as (Hw & _).
  eapply agree_bind; [apply agree_lift|]. intros ob Hob%ok_or_Ok. destruct (_ <? _); [apply agree_err|].
  eapply agree_bind; [apply agree_lift|]. intros outputs Hout%map_err_Ok.
  destruct (bool_decide_reflect (network_id (cm_transaction g) = network_id (cm_transaction (genesis (j_token j))))) as [Hn|];
    [|apply agree_err]. simpl negb. cbv iota.
  eapply agree_bind; [apply agree_map_err, He; [exact Hw|]|].
  { exists jb, (decode_limits (limits pol)), j. by rewrite justification_from_cbor_direct. }
  intros [] HQ.
  eapply agree_mono; [|apply agree_lift]. intros [] Hc. apply split_checks_sound in Hc as (source & manifest & Hev); [|by exists ob|done].
  by exists (j_token j), outputs, source, manifest, (j_proofs j).
Qed.

Lemma Rsmst_verify_no_panic p k c v r : no_panic (verify p k c v r).
Proof.
  unfold verify. destruct (_ || _); [done|]. apply no_panic_bind; [auto with outcome|]. intros h _.
  apply no_panic_bind; [|intros [[h' s] q] _; by case_match].
  apply no_panic_foldM. intros [[h' s] q] st _. rewrite verify_step_eq. destruct (_ || _); [done|].
  by destruct (climb _ _ _) as [[]|].
Qed.

Lemma split_checks_no_panic limits mint outputs j : (forall b, no_panic (decode b)) -> no_panic (split_checks decode limits mint outputs j).
Proof.
  intros Hd. unfold split_checks. pose proof manifest_no_panic. unfold commitment_for_mint.
  apply no_panic_bind; [auto with outcome|]. intros t _. apply no_panic_bind; [auto with outcome|]. intros mb _.
  destruct (_ <? _); [done|]. apply no_panic_bind; [auto with outcome|]. intros m _. destruct (negb _); [done|]. destruct (negb _); [done|].
  apply no_panic_bind; [auto with outcome|]. intros sb _. destruct (_ <? _); [done|].
  apply no_panic_bind; [auto with outcome|]. intros source _.
  destruct (N.eqb_spec (len (assets source)) (len (roots m))) as [Hl|]; [|done]. simpl negb. cbv iota. destruct (negb _); [done|].
  apply no_panic_bind; [apply no_panic_map_err, no_panic_bind; auto with outcome|]. intros c _.
  apply no_panic_foldM. intros _ [a p] _. unfold check_allocation.
  destruct (list_find _ _) as [[i s]|] eqn:Ef; [|done]. cbn [fmap option_fmap option_map fst ok_or]. rewrite bind_Ok_l.
  apply list_find_Some in Ef as (Hi & _). destruct (roots m !! i) as [r|] eqn:Er.
  2: { apply lookup_ge_None in Er. apply lookup_lt_Some in Hi. unfold len in Hl. lia. }
  cbn [or_panic]. rewrite bind_Ok_l, Hi. apply no_panic_bind; [apply no_panic_map_err, Rsmst_verify_no_panic|]. intros sum _.
  cbn [or_panic]. rewrite bind_Ok_l. by destruct (negb _).
Qed.

(** Decoding through an interner does not panic either. *)
Lemma proof_interned_steady d : steady interner_usable (InclusionProof_from_cbor_interned d).
Proof.
  intros i Hi. unfold InclusionProof_from_cbor_interned, stateM, DecodedParts_from_cbor. rewrite bindM_run. unfold liftM.
  pose proof (leaf_fields_no_panic d) as Hl. destruct (leaf_fields d) as [[[[cd rt] ic] i4]| |]; [|done..].
  rewrite bindM_run. unfold decode_uc, stateM.
  pose proof (decode_steady i4 (from_cbor_no_panic (A := UnicityCertificate) i4) i Hi) as [Hn Hu].
  destruct (UcInterner.decode i4 i) as [[uc|e|] i']; [|by split..].
  unfold into_certified. simpl in *. by destruct cd, rt, ic.
Qed.

#[local] Hint Resolve TransactionsSpec.transfer_no_panic : outcome.

Ltac steady_step := apply steady_bind_lift; [auto with outcome|intros].

Lemma transfers_interned_steady ds : forall h l, steady interner_usable (transfers_interned ds h l).
Proof.
  induction ds as [|d ds IH]; intros h l; cbn [transfers_interned]; [apply steady_ret|].
  apply steady_bind.
  - unfold CertifiedTransfer_from_cbor_interned. repeat steady_step.
    apply steady_bind; [apply proof_interned_steady|]. intros. apply steady_ret.
  - intros ct. apply steady_bind; [apply IH|]. intros. apply steady_ret.
Qed.

Lemma token_interned_steady b limits : steady interner_usable (Token_from_cbor_interned b limits).
Proof.
  unfold Token_from_cbor_interned. repeat steady_step. destruct (negb _); [by apply steady_lift|]. steady_step.
  apply steady_bind.
  - unfold CertifiedMint_from_cbor_interned. repeat steady_step.
    apply steady_bind; [apply proof_interned_steady|]. intros. apply steady_ret.
  - intros g. repeat steady_step. apply steady_bind; [apply transfers_interned_steady|]. intros. apply steady_ret.
Qed.

Lemma justification_interned_steady b limits : steady interner_usable (SplitMintJustification_from_cbor_interned b limits).
Proof.
  unfold SplitMintJustification_from_cbor_interned. repeat steady_step.
  apply steady_bind; [apply token_interned_steady|]. intros token. repeat steady_step.
  destruct (_ <? _); [by apply steady_lift|]. steady_step. apply steady_bind_lift; [|intros; apply steady_ret].
  unfold SplitMintJustification_create. destruct (_ =? 0); [done|]. by destruct (_ <? _).
Qed.

Lemma split_verifier_returns : (forall b, no_panic (decode b)) -> verifier_returns (split_verify decode).
Proof.
  intros Hd pol d e g He. unfold split_verify. apply returns_get. intros c Hc.
  apply returns_bind; [apply returns_lift; auto with outcome|]. intros jb.
  apply returns_bind; [apply returns_interner, steady_map_err, justification_interned_steady|].
  intros j. apply returns_bind; [apply returns_lift; auto with outcome|]. intros ob. destruct (_ <? _); [by apply returns_lift|].
  apply returns_bind; [apply returns_lift; auto with outcome|]. intros outputs. destruct (negb _); [by apply returns_lift|].
  apply returns_bind; [apply returns_map_err, He|]. intros []. by apply returns_lift, split_checks_no_panic.
Qed.

(** ** The payload verifier *)

(** The payload of the mint decodes and its issuance is authorised. *)
Definition payment_authorized (authorize : PaymentIssuancePolicy) (_ : Token -> Prop) (g : CertifiedMintTransaction) : Prop :=
  exists c, payload_decodes (cm_transaction g) c /\ authorize g c = Ok tt.

Lemma payment_data_ok authorize : verifier_ok split_embeds (payment_authorized authorize) (payment_data_verify decode authorize).
Proof.
  intros contexts K tb pol d Q e1 e2 g _ _. unfold payment_data_verify.
  eapply agree_bind; [apply agree_lift|]. intros b Hb%ok_or_Ok.
  eapply agree_bind; [apply agree_lift|]. intros c Hc%map_err_Ok.
  eapply agree_mono; [|apply agree_lift]. intros [] Ha. exists c. split; [by exists b|done].
Qed.

Lemma payment_data_returns authorize : (forall b, no_panic (decode b)) -> (forall g c, no_panic (authorize g c)) ->
  verifier_returns (payment_data_verify decode authorize).
Proof.
  intros Hd Ha pol d e g _. unfold payment_data_verify.
  apply returns_bind; [apply returns_lift; auto with outcome|]. intros b.
  apply returns_bind; [apply returns_lift; auto with outcome|]. intros c. by apply returns_lift.
Qed.

(** The registry of a payment token: what registering the two verifiers gives. *)
Definition payment_registry (type : TokenType) (authorize : PaymentIssuancePolicy) : result MintJustificationRegistry :=
  r ← register empty_registry (SplitMintJustificationVerifier decode);
  register_token_data r (PaymentDataVerifier type decode authorize).

Lemma map_get_one {A} `{EqDecision A} {B} (k k' : A) (v v' : B) : map_get [(k, v)] k' = Some v' -> v' = v.
Proof. unfold map_get. cbn [list_find]. case_decide; [|done]. by intros [= <-]. Qed.

Lemma payment_registry_ok type authorize registry : payment_registry type authorize = Ok registry ->
  registry_ok split_embeds split_accepted (payment_authorized authorize) registry.
Proof.
  intros E. injection E as <-. split; intros t v ->%map_get_one; [apply split_verifier_ok|apply payment_data_ok].
Qed.

Lemma payment_registry_returns type authorize registry : (forall b, no_panic (decode b)) -> (forall g c, no_panic (authorize g c)) ->
  payment_registry type authorize = Ok registry -> registry_returns registry.
Proof.
  intros Hd Ha E. injection E as <-. split; intros t v ->%map_get_one; [by apply split_verifier_returns|by apply payment_data_returns].
Qed.
End justification.
