(* ===== verification/SplitSpec.v ===== *)
(** Value is conserved by splitting, on both sides: the outputs accepted against
    one burned token are worth no more than it ([value_conserved]), and the
    split the client builds allocates exactly its amounts and is accepted
    ([build_split_accepted]). *)

From S2P Require Import Prelude State Bytes Error Cbor CborSpec CborRead Hash Codec CodecFacts Ids Secp Predicates Radix BigUint Bft UcInterner VerificationError Proofs Transactions TransactionsSpec Verify Rsmst RsmstSpec RsmstBuild Asset Payment PaymentSpec.
Local Open Scope N_scope.

Section conservation.
Context `{Sha2} `{K256} `{BigUintLaws}.

(** An accepted output: its mint, the burned token it embeds, its assets and
    their proofs. *)
Record accepted_output : Type := {
  o_mint : MintTransaction;
  o_burned : Token;
  o_assets : PaymentAssetCollection;
  o_proofs : list RsmstInclusionProof;
}.

(** How much of the asset [id] a collection holds. *)
Definition amount (id : AssetId) (c : PaymentAssetCollection) : N :=
  match get c id with Some a => value (asset_value a) | None => 0 end.

Definition total_amount (id : AssetId) (outs : list accepted_output) : N :=
  foldr N.add 0 ((fun o => amount id (o_assets o)) <$> outs).

(** What the output claims of the tree of [id]. *)
Definition claim_of (source_id : TokenId) (id : AssetId) (o : accepted_output) : option claim :=
  '(j, a) ← list_find (fun a => asset_id a = id) (assets (o_assets o));
  p ← o_proofs o !! j;
  match commitment_for_mint source_id (o_mint o) with
  | Ok commitment => Some {| c_key := tid_bytes (token_id (o_mint o)); c_data := commitment; c_value := asset_value a;
                             c_path := rev (steps p) |}
  | _ => None
  end.

Context (source_id : TokenId) (source : PaymentAssetCollection) (manifest : SplitManifest).

Lemma claim_of_value o id : allocations_proved source_id source manifest (o_mint o) (o_assets o) (o_proofs o) ->
  match claim_of source_id id o with
  | Some c => value (c_value c) = amount id (o_assets o) /\ c_key c = tid_bytes (token_id (o_mint o))
  | None => amount id (o_assets o) = 0
  end.
Proof.
  intros (cm & Hcm & Hf). unfold claim_of, amount, get. rewrite Hcm.
  destruct (list_find _ (assets (o_assets o))) as [[j a]|] eqn:Ef; [|done]. cbn.
  apply list_find_Some in Ef as (Hj & _). destruct (Forall2_lookup_l _ _ _ _ _ Hf Hj) as (p & -> & _). done.
Qed.

Lemma claim_of_holds o s i r c : allocations_proved source_id source manifest (o_mint o) (o_assets o) (o_proofs o) ->
  list_find (fun s' => asset_id s' = asset_id s) (assets source) = Some (i, s) -> roots manifest !! i = Some r ->
  claim_of source_id (asset_id s) o = Some c -> holds (r, asset_value s) c.
Proof.
  intros (cm & Hcm & Hf) Hs Hr Hc. unfold claim_of in Hc. rewrite Hcm in Hc.
  destruct (list_find _ (assets (o_assets o))) as [[j a]|] eqn:Ef; [|done]. cbn in Hc.
  apply list_find_Some in Ef as (Hj & Hid & _). destruct (Forall2_lookup_l _ _ _ _ _ Hf Hj) as (p & Hp & i' & s' & r' & Hs' & Hr' & Hv).
  rewrite Hp in Hc. injection Hc as <-. rewrite Hid, Hs in Hs'. injection Hs' as <- <-. rewrite Hr in Hr'. injection Hr' as <-.
  apply verify_path in Hv as (lh & Hlh & Hpath). by exists lh.
Qed.

Lemma claims_total id outs :
  Forall (fun o => allocations_proved source_id source manifest (o_mint o) (o_assets o) (o_proofs o)) outs ->
  total_value (omap (claim_of source_id id) outs) = total_amount id outs /\
  (forall k, k ∈ c_key <$> omap (claim_of source_id id) outs -> k ∈ (fun o => tid_bytes (token_id (o_mint o))) <$> outs).
Proof.
  unfold total_value, total_amount. induction 1 as [|o outs Ho _ [IH1 IH2]]; [done|]. csimpl.
  pose proof (claim_of_value o id Ho) as Hc. destruct (claim_of source_id id o) as [c|]; csimpl.
  - destruct Hc as [Hv Hk]. split; [lia|]. intros k [->|Hin]%elem_of_cons; [rewrite Hk; left|right; auto].
  - split; [lia|]. intros k Hin. right. auto.
Qed.

Lemma claims_NoDup id outs : NoDup ((fun o => tid_bytes (token_id (o_mint o))) <$> outs) ->
  Forall (fun o => allocations_proved source_id source manifest (o_mint o) (o_assets o) (o_proofs o)) outs ->
  NoDup (c_key <$> omap (claim_of source_id id) outs).
Proof.
  intros Hnd Hev. induction Hev as [|o outs Ho Hos IH]; [constructor|]. csimpl in *. apply NoDup_cons in Hnd as [Hn Hnd].
  pose proof (claim_of_value o id Ho) as Hc. destruct (claim_of source_id id o) as [c|]; [|auto]. csimpl.
  destruct Hc as [_ Hk]. constructor; [|auto]. rewrite Hk. intros Hin. by apply Hn, (proj2 (claims_total id outs Hos)).
Qed.

(** Outputs whose allocations are proved for one source hold no more of an asset
    than the source does. *)
Lemma allocations_conserved hashed s outs : wf source -> len (assets source) = len (roots manifest) -> s ∈ assets source ->
  Forall (fun o => allocations_proved source_id source manifest (o_mint o) (o_assets o) (o_proofs o)) outs ->
  NoDup ((fun o => token_id (o_mint o)) <$> outs) ->
  Forall (claim_hashed hashed) (omap (claim_of source_id (asset_id s)) outs) ->
  total_amount (asset_id s) outs <= value (asset_value s) \/ Collision hashed.
Proof.
  intros Hw Hl Hs Hev Hnd Hh.
  pose proof (get_complete source s (ascending_NoDup _ Hw) Hs) as Hg. unfold get in Hg.
  destruct (list_find (fun a => asset_id a = asset_id s) (assets source)) as [[i s']|] eqn:Ef; [|done]. injection Hg as ->.
  destruct (roots manifest !! i) as [r|] eqn:Er.
  2: { apply lookup_ge_None in Er. apply list_find_Some in Ef as (Hi & _). apply lookup_lt_Some in Hi. unfold len in Hl. lia. }
  assert (NoDup ((fun o => tid_bytes (token_id (o_mint o))) <$> outs)) as Hnd'.
  { rewrite (list_fmap_compose (fun o => token_id (o_mint o)) tid_bytes). apply NoDup_fmap_2; [|done].
    intros [x] [y]. simpl. by intros ->. }
  rewrite <- (proj1 (claims_total (asset_id s) _ Hev)).
  apply (conservation hashed (S (size (omap (claim_of source_id (asset_id s)) outs))) _ (r, asset_value s)); [lia|by apply claims_NoDup| |done].
  apply Forall_forall. intros c (o & Ho & Hc)%list_elem_of_omap. rewrite Forall_forall in Hev.
  by eapply claim_of_holds; [apply Hev|..].
Qed.
End conservation.

Section outputs.
Context `{Sha2} `{K256} `{BigUintLaws}.

Lemma manifest_to_cbor_inj m m' : manifest_wf m -> manifest_wf m' -> manifest_to_cbor m = manifest_to_cbor m' -> m = m'.
Proof.
  intros Hw Hw' E. assert (accepts limits_max (manifest_to_cbor m)) as Ha.
  { apply accepts_max; [apply manifest_item|]. unfold manifest_to_cbor, encode_tag, encode_array.
    assert (forall l, len (concat ((fun r : arr 32 => encode_byte_string (val r)) <$> l)) <= 41 * len l) as Hc.
    { induction l as [|r l IH]; [done|]. csimpl. pose proof (BftSpec.len_bstr (val r)). rewrite arr_len in *.
      rewrite len_app, len_cons. change (N.of_nat 32) with 32 in *. unfold fmap in *. lia. }
    specialize (Hc (roots m)).
    pose proof (len_head_bound major.TAG SPLIT_MANIFEST_TAG). unfold head in *.
    pose proof (len_head_bound major.ARRAY (wrap 64 (len ((fun r : arr 32 => encode_byte_string (val r)) <$> roots m)))). unfold head in *.
    unfold manifest_wf in Hw. unfold MAX_PAYMENT_ASSETS in Hw. rewrite !len_app. unfold usize_max. lia. }
  pose proof (manifest_round_trip limits_max m Hw Ha) as E1. rewrite E in Ha, E1.
  rewrite (manifest_round_trip limits_max m' Hw' Ha) in E1. congruence.
Qed.

Context (decode : PaymentDataDecoder).

(** Two embedded tokens that carry one burn of one token: their histories may be
    certified by different proofs. *)
Definition same_burn (b b' : Token) : Prop :=
  cm_transaction (genesis b) = cm_transaction (genesis b') /\
  (ct_transaction <$> last (transactions b)) = (ct_transaction <$> last (transactions b')).

Lemma same_burn_source b b' m m' outs outs' source source' manifest manifest' ps ps' : same_burn b b' ->
  split_evidence decode m b outs source manifest ps -> split_evidence decode m' b' outs' source' manifest' ps' ->
  source = source' /\ manifest = manifest' /\ Token_id b = Token_id b'.
Proof.
  intros [Eg Et] [_ _ _ (x & Hx & Hs) (t & Ht & Hd & _) [Hr _] _] [_ _ _ (x' & Hx' & Hs') (t' & Ht' & Hd' & _) [Hr' _] _].
  rewrite Eg, Hx' in Hx. injection Hx as ->. rewrite Hs' in Hs. injection Hs as ->.
  rewrite Ht, Ht' in Et. injection Et as Et. rewrite Et, Hd' in Hd.
  assert (manifest = manifest') as -> by (apply manifest_to_cbor_inj; congruence). split_and!; [done..|]. unfold Token_id. by rewrite Eg.
Qed.

Lemma burn_conserved hashed burned source s outs : decoder_ok decode ->
  payload_decodes decode (cm_transaction (genesis burned)) source -> s ∈ assets source ->
  Forall (fun o => same_burn burned (o_burned o) /\ exists source' manifest',
    split_evidence decode (o_mint o) (o_burned o) (o_assets o) source' manifest' (o_proofs o)) outs ->
  NoDup ((fun o => token_id (o_mint o)) <$> outs) ->
  Forall (claim_hashed hashed) (omap (claim_of (Token_id burned) (asset_id s)) outs) ->
  total_amount (asset_id s) outs <= value (asset_value s) \/ Collision hashed.
Proof.
  intros Hd Hsrc Hs Hev Hnd Hh. destruct outs as [|o0 outs]; [left; unfold total_amount; simpl; lia|].
  pose proof Hev as [(Hb0 & source0 & manifest0 & Hev0) _]%Forall_cons.
  assert (source0 = source) as ->.
  { destruct Hsrc as (b & Hb & Hs1), (ev_source _ _ _ _ _ _ _ Hev0) as (b' & Hb' & Hs2). rewrite (proj1 Hb0), Hb' in Hb. congruence. }
  apply (allocations_conserved (Token_id burned) source manifest0 hashed); try done.
  - destruct Hsrc as (b & _ & Hs1). by eapply (proj1 Hd).
  - apply (ev_roots _ _ _ _ _ _ _ Hev0).
  - eapply Forall_impl; [exact Hev|]. intros o (Hb & source' & manifest' & Ho).
    assert (same_burn (o_burned o0) (o_burned o)) as Hb' by (destruct Hb0, Hb; split; congruence).
    destruct (same_burn_source _ _ _ _ _ _ _ _ _ _ _ _ Hb' Hev0 Ho) as (<- & <- & Eid).
    replace (Token_id burned) with (Token_id (o_burned o)); [apply (ev_proofs _ _ _ _ _ _ _ Ho)|].
    unfold Token_id. by rewrite (proj1 Hb).
Qed.

(** An output for which the verifier runs its split checks: the mint, the assets
    that its payload decodes to and its decoded justification. *)
Record split_output : Type := { so_mint : MintTransaction; so_assets : PaymentAssetCollection; so_justification : SplitMintJustification }.

Definition output_of (o : split_output) : accepted_output :=
  {| o_mint := so_mint o; o_burned := j_token (so_justification o); o_assets := so_assets o; o_proofs := j_proofs (so_justification o) |}.

(** C2. Value is conserved. When the split checks accept outputs of distinct ids,
    each of the network of the burned token and with a justification that embeds
    one burn of it, the outputs hold together no more of any asset than the
    burned token did; or SHA-256 collides on messages that the checks of their
    allocation proofs hash. *)
Theorem value_conserved limits burned source s outs : decoder_ok decode ->
  payload_decodes decode (cm_transaction (genesis burned)) source -> s ∈ assets source ->
  Forall (fun o => same_burn burned (j_token (so_justification o)) /\ payload_decodes decode (so_mint o) (so_assets o) /\
    network_id (so_mint o) = network_id (cm_transaction (genesis (j_token (so_justification o)))) /\
    split_checks decode limits (so_mint o) (so_assets o) (so_justification o) = Ok tt) outs ->
  NoDup ((fun o => token_id (so_mint o)) <$> outs) ->
  foldr N.add 0 ((fun o => amount (asset_id s) (so_assets o)) <$> outs) <= value (asset_value s) \/
  Collision (claim_messages (.∈ omap (fun o => claim_of (Token_id burned) (asset_id s) (output_of o)) outs)).
Proof.
  intros Hd Hsrc Hs Hc Hnd. set (cs := claim_messages _).
  destruct (burn_conserved cs burned source s (output_of <$> outs) Hd Hsrc Hs) as [Hv|]; [| | |left|by right].
  - apply Forall_fmap. eapply Forall_impl; [exact Hc|]. intros o (Hb & Hp & Hn & Hk). split; [exact Hb|]. by eapply split_checks_sound.
  - by rewrite <- list_fmap_compose.
  - apply Forall_forall. intros c Hin. apply claim_messages_hashed. revert Hin. clear. induction outs as [|o outs IH]; [done|]. csimpl.
    destruct (claim_of _ _ (output_of o)); [|done]. rewrite !elem_of_cons. tauto.
  - unfold total_amount in Hv. by rewrite <- list_fmap_compose in Hv.
Qed.
End outputs.

(** * What the client builds *)

Section build.
Context `{Sha2} `{K256} `{BigUintLaws}.
Context (decode : PaymentDataDecoder) (token : Token) (source : PaymentAssetCollection).

Abbreviation split_entry := (SplitTokenRequest * TokenId * arr 32)%type.

Definition network : NetworkId := network_id (cm_transaction (genesis token)).

(** What the entry loop establishes of one entry. *)
Record entry_ok (e : split_entry) : Prop := {
  eo_type : rq_token_type (fst (fst e)) = token_type (cm_transaction (genesis token));
  eo_payload : decode (payload_bytes (rq_payload (fst (fst e)))) = Ok (payload_assets (rq_payload (fst (fst e))));
  eo_present : Forall (fun a => is_Some (get source (asset_id a))) (assets (payload_assets (rq_payload (fst (fst e)))));
  eo_id : snd (fst e) = TokenId_derive network (rq_salt (fst (fst e)));
  eo_commitment : snd e = split_output_commitment (Token_id token) network (rq_recipient (fst (fst e)))
    (rq_salt (fst (fst e))) (snd (fst e)) (rq_token_type (fst (fst e))) (payload_bytes (rq_payload (fst (fst e))));
}.

Definition entries_ok (entries : list split_entry) : Prop :=
  Forall entry_ok entries /\ NoDup ((fun e => snd (fst e)) <$> entries).

Lemma push_request_spec entries r entries' : entries_ok entries -> push_request token source decode entries r = Ok entries' ->
  entries_ok entries' /\ fst <$> (fst <$> entries') = (fst <$> (fst <$> entries)) ++ [r].
Proof.
  intros [Hf Hnd]. unfold push_request. destruct (bool_decide_reflect (rq_token_type r = token_type (cm_transaction (genesis token)))) as [Ht|];
    [|done]. simpl negb. cbv iota. intros (c & Hc & E)%bind_Ok.
  destruct (collection_eqb c (payload_assets (rq_payload r))) eqn:Ec; [|done]. apply collection_eqb_spec in Ec as ->. simpl negb in E. cbv iota in E.
  destruct (existsb _ (assets (payload_assets (rq_payload r)))) eqn:Ep; [done|].
  destruct (existsb _ entries) eqn:Ed; [done|]. injection E as <-. split; [split|].
  - apply Forall_app. split; [done|]. apply Forall_singleton. constructor; try done. simpl.
    apply Forall_forall. intros a Ha. rewrite <- not_true_iff_false, existsb_exists in Ep.
    destruct (get source (asset_id a)) eqn:Eg; [done|]. destruct Ep. exists a. rewrite <- list_elem_of_In. by rewrite Eg.
  - rewrite fmap_app. apply NoDup_app. split_and!; [done| |apply NoDup_singleton]. intros i Hi ->%list_elem_of_singleton.
    apply list_elem_of_fmap in Hi as (e & Hei & He). rewrite <- not_true_iff_false, existsb_exists in Ed. destruct Ed.
    exists e. rewrite <- list_elem_of_In. split; [done|]. by apply bool_decide_eq_true_2.
  - by rewrite !fmap_app.
Qed.

Lemma push_requests_spec requests entries : foldM (push_request token source decode) [] requests = Ok entries ->
  entries_ok entries /\ fst <$> (fst <$> entries) = requests.
Proof.
  assert (forall rs es0 es, entries_ok es0 -> foldM (push_request token source decode) es0 rs = Ok es ->
    entries_ok es /\ fst <$> (fst <$> es) = (fst <$> (fst <$> es0)) ++ rs) as Hg.
  { induction rs as [|r rs IH]; intros es0 es H0'; cbn [foldM]; [intros [= <-]; by rewrite app_nil_r|].
    intros (es1 & E & E')%bind_Ok. apply push_request_spec in E as [Hok Eq]; [|done].
    apply IH in E' as [Hok' ->]; [|done]. split; [done|]. by rewrite Eq, <- app_assoc. }
  intros E. apply (Hg requests [] entries); [|done]. split; constructor.
Qed.

(** ** The tree of one source asset *)

(** The leaf of an entry in the tree of [id]. *)
Definition leaf_entry (id : AssetId) (e : split_entry) : option (arr 32 * arr 32 * BigUint) :=
  (fun a => (tid_bytes (snd (fst e)), snd e, asset_value a)) <$> get (payload_assets (rq_payload (fst (fst e)))) id.

Lemma allocate_all s entries : foldM (allocate s) Rsmst_new entries = insert_all (omap (leaf_entry (asset_id s)) entries).
Proof.
  unfold insert_all. generalize Rsmst_new. induction entries as [|[[r i] c] es IH]; intros t; [done|].
  assert (allocate s t (r, i, c) = match get (payload_assets (rq_payload r)) (asset_id s) with
    | Some a => insert t (tid_bytes i) c (asset_value a) | None => Ok t end) as Ea by done.
  assert (leaf_entry (asset_id s) (r, i, c) = match get (payload_assets (rq_payload r)) (asset_id s) with
    | Some a => Some (tid_bytes i, c, asset_value a) | None => None end) as El by (unfold leaf_entry; by destruct (get _ _)).
  cbn [foldM omap list_omap]. rewrite Ea, El.
  destruct (get (payload_assets (rq_payload r)) (asset_id s)) as [a|]; [|by rewrite bind_Ok_l].
  cbn [foldM]. destruct (insert t (tid_bytes i) c (asset_value a)) as [t'| |]; [|done..]. by rewrite !bind_Ok_l.
Qed.

Lemma build_tree_spec entries s t : build_tree entries s = Ok t ->
  fst t = asset_id s /\ root_sum (snd t) = asset_value s /\
  value (asset_value s) = total_of (omap (leaf_entry (asset_id s)) entries) /\
  forall e a, e ∈ entries -> get (payload_assets (rq_payload (fst (fst e)))) (asset_id s) = Some a ->
    exists p, proof (snd t) (tid_bytes (snd (fst e))) = Some p /\
      verify p (tid_bytes (snd (fst e))) (snd e) (asset_value a) (root_hash (snd t)) = Ok (asset_value s).
Proof.
  unfold build_tree. rewrite allocate_all. intros (tree & Ht & E)%bind_Ok. apply bind_Ok in E as (built & Hb%map_err_Ok & E).
  destruct (big_eqb (root_sum built) (asset_value s)) eqn:Es; [|done]. injection E as <-. apply big_eqb_spec, value_inj in Es. cbn [fst snd].
  destruct (decide (omap (leaf_entry (asset_id s)) entries = [])) as [En|Hne].
  { rewrite En in Ht. injection Ht as <-. done. }
  destruct (build_spec _ _ Ht Hne) as [(_ & n & Hn & Hok & Hp)|[_ Hn]]; rewrite Hn in Hb; [|done]. injection Hb as <-.
  unfold root_sum, root_hash in *. cbn [root] in *. split_and!; [done|done| |].
  - destruct (omap (leaf_entry (asset_id s)) entries) as [|e0 es0] eqn:Eo; [done|].
    destruct (built_proofs _ _ _ e0 Ht Hok Hp ltac:(left)) as [<- _]. by rewrite Es.
  - intros e a He Ha. destruct (built_proofs _ _ _ (tid_bytes (snd (fst e)), snd e, asset_value a) Ht Hok Hp) as (_ & p & Hpr & Hv).
    { apply list_elem_of_omap. exists e. split; [done|]. unfold leaf_entry. by rewrite Ha. }
    exists p. simpl in *. split; [done|]. by rewrite Es in Hv.
Qed.


(** ** The outputs *)

Lemma trees_find entries trees asset i t : mapO (build_tree entries) (assets source) = Ok trees ->
  list_find (fun t => fst t = asset_id asset) trees = Some (i, t) ->
  exists s, list_find (fun s => asset_id s = asset_id asset) (assets source) = Some (i, s) /\
    trees !! i = Some t /\ build_tree entries s = Ok t.
Proof.
  intros Ht%mapO_Forall2 (Hi & Hid & Hpre)%list_find_Some. destruct (Forall2_lookup_r _ _ _ _ _ Ht Hi) as (s & Hs & Hb).
  exists s. split_and!; [|done..]. apply list_find_Some. split_and!; [done| |].
  - pose proof Hb as (E & _)%build_tree_spec. congruence.
  - intros j s' Hs' Hj E. destruct (Forall2_lookup_l _ _ _ _ _ Ht Hs') as (t' & Ht' & Hb').
    eapply Hpre; [exact Ht'|done|]. pose proof Hb' as (E' & _)%build_tree_spec. congruence.
Qed.

Lemma allocation_proof_spec entries trees e asset p : mapO (build_tree entries) (assets source) = Ok trees ->
  decoder_ok decode -> entry_ok e -> e ∈ entries -> asset ∈ assets (payload_assets (rq_payload (fst (fst e)))) ->
  allocation_proof trees (snd (fst e)) asset = Ok p ->
  exists i s r, list_find (fun s => asset_id s = asset_id asset) (assets source) = Some (i, s) /\
    ((fun t => root_hash (snd t)) <$> trees) !! i = Some r /\
    verify p (tid_bytes (snd (fst e))) (snd e) (asset_value asset) r = Ok (asset_value s).
Proof.
  intros Ht Hd He Hin Ha. unfold allocation_proof. destruct (list_find _ trees) as [[i [aid built]]|] eqn:Ef; [|done].
  cbn. intros Hp%ok_or_Ok. destruct (trees_find _ _ _ _ _ Ht Ef) as (s & Hs & Hi & Hb). exists i, s, (root_hash built).
  split_and!; [done|by rewrite list_lookup_fmap, Hi|]. apply build_tree_spec in Hb as (_ & _ & _ & Hb).
  assert (get (payload_assets (rq_payload (fst (fst e)))) (asset_id s) = Some asset) as Hg.
  { apply list_find_Some in Hs as (_ & -> & _). apply get_complete; [|done]. apply ascending_NoDup. by eapply (proj1 Hd), (eo_payload e). }
  destruct (Hb e asset Hin Hg) as (p' & Hp' & Hv). cbn [snd] in *. congruence.
Qed.

(** The mint of an output, as the client makes it. *)
Record mints (st : SplitToken) (m : MintTransaction) : Prop := {
  mi_network : network_id m = st_network_id st;
  mi_recipient : mint_recipient m = st_recipient st;
  mi_type : token_type m = st_token_type st;
  mi_salt : salt m = st_salt st;
  mi_data : data m = Some (st_payload st);
  mi_id : token_id m = TokenId_derive (network_id m) (salt m);
}.

(** The source token after the burn transfer is certified. *)
Definition burned_by (s : Split) (b : Token) : Prop :=
  genesis b = genesis token /\ exists proof,
    last (transactions b) = Some {| ct_transaction := burn_transaction (burn s); ct_inclusion_proof := proof |}.

Lemma build_split_inv requests mask expires random s :
  build_split token source decode requests mask expires random = Ok s -> exists entries trees manifest,
  entries_ok entries /\ fst <$> (fst <$> entries) = requests /\ mapO (build_tree entries) (assets source) = Ok trees /\
  manifest_wf manifest /\ roots manifest = (fun t => root_hash (snd t)) <$> trees /\
  mapO (build_output network trees) entries = Ok (tokens s) /\
  transfer_data (burn_transaction (burn s)) = Some (manifest_to_cbor manifest) /\
  transfer_recipient (burn_transaction (burn s)) = from_predicate {| bp_reason := val (reason_hash manifest) |} /\
  (transfer_source_state_hash (burn_transaction (burn s)), transfer_lock_script (burn_transaction (burn s))) = latest_state token.
Proof.
  unfold build_split. intros (entries & He & E)%bind_Ok. apply push_requests_spec in He as [He Hr].
  apply bind_Ok in E as (trees & Ht & E). apply bind_Ok in E as (m & [Hm Hw]%manifest_create_spec & E).
  apply bind_Ok in E as (k & _ & E). destruct (latest_state token) as [h l]. apply bind_Ok in E as (ts & Hts & [= <-]).
  exists entries, trees, m. by split_and!.
Qed.

(** Every output of a built split is accepted against the burned token. *)
Lemma build_split_evidence requests mask expires random s st m b : decoder_ok decode ->
  payload_decodes decode (cm_transaction (genesis token)) source ->
  build_split token source decode requests mask expires random = Ok s -> st ∈ tokens s -> mints st m -> burned_by s b ->
  exists manifest, split_evidence decode m b (st_assets st) source manifest (st_proofs st).
Proof.
  intros Hd Hsrc Hb Hst Hm [Hg [pr Hl]]. apply build_split_inv in Hb as (entries & trees & manifest & He & _ & Ht & Hw & Hr & Hts & Hdata & Hrec & _).
  exists manifest. apply mapO_Forall2 in Hts. apply list_elem_of_lookup in Hst as [n Hn].
  destruct (Forall2_lookup_r _ _ _ _ _ Hts Hn) as ([[rq i] c] & Hen & Ho). unfold build_output in Ho.
  apply bind_Ok in Ho as (ps & Hps & [= <-]). cbn [st_assets st_proofs] in *. apply list_elem_of_lookup_2 in Hen.
  destruct He as [Hok _]. rewrite Forall_forall in Hok. pose proof (Hok _ Hen) as Heo. destruct Hm as [M1 M2 M3 M4 M5 M6].
  pose proof (eo_type _ Heo) as Ety. pose proof (eo_id _ Heo) as Eid. pose proof (eo_commitment _ Heo) as Ec.
  cbn [st_network_id st_recipient st_token_type st_salt st_payload fst snd] in *.
  constructor.
  - by rewrite M1, Hg.
  - by rewrite M3, Ety, Hg.
  - exists (payload_bytes (rq_payload rq)). split; [done|apply (eo_payload _ Heo)].
  - by rewrite Hg.
  - eexists. split; [exact Hl|]. by split.
  - split; [done|]. rewrite Hr. unfold len. rewrite length_fmap. apply mapO_Forall2, Forall2_length in Ht. by rewrite Ht.
  - exists c. unfold commitment_for_mint. rewrite M5. cbn [ok_or]. rewrite bind_Ok_l. split.
    + rewrite M6, M1, M2, M3, M4. unfold Token_id. rewrite Hg. fold (Token_id token). rewrite <- Eid. f_equal. symmetry. exact Ec.
    + rewrite M6, M1, M4, <- Eid. apply mapO_Forall2 in Hps. rewrite Hr. apply Forall2_same_length_lookup. split; [by apply Forall2_length in Hps|].
      intros j a p Ha Hp. pose proof (Forall2_lookup_lr _ _ _ _ _ _ Hps Ha Hp) as Hap.
      eapply (allocation_proof_spec entries trees (rq, i, c)); try done. by eapply list_elem_of_lookup_2.
Qed.

(** The checks accept the evidence, if the limits admit the two payloads and the
    manifest. *)
Lemma split_checks_complete limits mint j outputs manifest :
  split_evidence decode mint (j_token j) outputs source manifest (j_proofs j) ->
  (forall b, data (cm_transaction (genesis (j_token j))) = Some b -> len b <= val (max_input_bytes limits)) ->
  accepts limits (manifest_to_cbor manifest) ->
  split_checks decode limits mint outputs j = Ok tt.
Proof.
  intros [Hn Hty _ (sb & Hsb & Hs) (t & Ht & Hd & Hr) [Hw Hl] (c & Hc & Hp)] Hlim Ha. unfold split_checks.
  rewrite Ht. cbn [ok_or]. rewrite bind_Ok_l, Hd. cbn [ok_or]. rewrite bind_Ok_l.
  assert (len (manifest_to_cbor manifest) <= val (max_input_bytes limits)) as Hm.
  { apply accepts_iff in Ha as (i & -> & _ & _ & Hi). exact Hi. }
  destruct (N.ltb_spec (val (max_input_bytes limits)) (len (manifest_to_cbor manifest))); [lia|].
  rewrite manifest_round_trip by done. cbn [map_err]. rewrite bind_Ok_l, (bool_decide_eq_true_2 _ Hr), (bool_decide_eq_true_2 _ Hty).
  simpl negb. cbv iota. rewrite Hsb. cbn [ok_or]. rewrite bind_Ok_l. specialize (Hlim sb Hsb).
  destruct (N.ltb_spec (val (max_input_bytes limits)) (len sb)); [lia|]. rewrite Hs. cbn [map_err]. rewrite bind_Ok_l, Hl, N.eqb_refl.
  assert (len (j_proofs j) = len (assets outputs)) as Hpl by (unfold len; by rewrite (Forall2_length _ _ _ Hp)).
  rewrite Hpl, N.eqb_refl. simpl negb. cbv iota. rewrite Hc. cbn [map_err]. rewrite bind_Ok_l. by apply check_allocations_spec.
Qed.

(** C28. What the client builds, the verifier accepts. *)
Theorem build_split_accepted requests mask expires random s st m b j limits : decoder_ok decode ->
  payload_decodes decode (cm_transaction (genesis token)) source ->
  build_split token source decode requests mask expires random = Ok s -> st ∈ tokens s -> mints st m -> burned_by s b ->
  j_token j = b -> j_proofs j = st_proofs st ->
  (forall b, data (cm_transaction (genesis token)) = Some b -> len b <= val (max_input_bytes limits)) ->
  accepts limits (burn_manifest (burn s)) ->
  split_checks decode limits m (st_assets st) j = Ok tt.
Proof.
  intros Hd Hsrc Hb Hst Hm Hbb <- Hps Hlim Ha. destruct (build_split_evidence _ _ _ _ _ _ _ _ Hd Hsrc Hb Hst Hm Hbb) as [manifest Hev].
  rewrite <- Hps in Hev. apply (split_checks_complete _ _ _ _ manifest Hev); [by rewrite (proj1 Hbb)|].
  destruct (ev_burn _ _ _ _ _ _ _ Hev) as (t & Ht & Hdata & _). destruct Hbb as [_ [pr Hl]]. rewrite Hl in Ht. injection Ht as <-. cbn [ct_transaction] in Hdata.
  unfold build_split in Hb. apply bind_Ok in Hb as (entries & _ & E). apply bind_Ok in E as (trees & _ & E).
  apply bind_Ok in E as (m' & _ & E). apply bind_Ok in E as (k & _ & E). destruct (latest_state token) as [h l].
  apply bind_Ok in E as (ts & _ & [= <-]). cbn [burn burn_manifest burn_transaction transfer_data] in *.
  assert (manifest_to_cbor m' = manifest_to_cbor manifest) as <- by congruence. exact Ha.
Qed.

(** ** The amounts *)

Lemma total_of_requests id entries : total_of (omap (leaf_entry id) entries) =
  foldr N.add 0 ((fun e : split_entry => amount id (payload_assets (rq_payload (fst (fst e))))) <$> entries).
Proof.
  unfold total_of. induction entries as [|e es IH]; [done|].
  assert (amount id (payload_assets (rq_payload (fst (fst e)))) =
    match leaf_entry id e with Some x => value (snd x) | None => 0 end) as Ea.
  { unfold amount, leaf_entry. by destruct (get _ id). }
  cbn [omap list_omap]. rewrite fmap_cons. cbn [foldr]. rewrite Ea, <- IH. by destruct (leaf_entry id e).
Qed.

(** C29. The requests allocate exactly the source's amounts. *)
Theorem build_split_total requests mask expires random s a :
  build_split token source decode requests mask expires random = Ok s -> a ∈ assets source ->
  value (asset_value a) = foldr N.add 0 ((fun st => amount (asset_id a) (st_assets st)) <$> tokens s).
Proof.
  intros Hb Ha. apply build_split_inv in Hb as (entries & trees & manifest & _ & _ & Ht & _ & _ & Hts & _).
  apply mapO_Forall2 in Ht. apply list_elem_of_lookup in Ha as [i Hi]. destruct (Forall2_lookup_l _ _ _ _ _ Ht Hi) as (t & _ & Hb).
  apply build_tree_spec in Hb as (_ & _ & Hv & _). rewrite Hv, total_of_requests. f_equal. apply mapO_Forall2 in Hts.
  revert Hts. generalize (tokens s). clear. intros ts Hts. induction Hts as [|[[rq k] c] st es ts Ho _ IH]; [done|]. rewrite !fmap_cons, IH. f_equal. unfold build_output in Ho.
  by apply bind_Ok in Ho as (ps & _ & [= <-]).
Qed.
End build.
