(* ===== verification/Ledger.v ===== *)
(** The coins of a payment token descend from authorised issuances, and splitting
    creates none: over any tokens of which none is an ancestor of another, the
    held amount of an asset is at most what their issuances created, or the tokens'
    histories show two different transactions that spend one state, certified
    under two roots ([double_spend]). *)

From S2P Require Import Prelude State Bytes Error Cbor CborSpec CborRead Hash Codec CodecFacts Ids Secp Predicates Radix BigUint Bft UcInterner VerificationError TrustBase Seal SealSpec Proofs Transactions TransactionsSpec Verify VerifySpec TokenSpec Rsmst RsmstSpec RsmstBuild Asset Payment PaymentSpec SplitSpec.
Local Open Scope N_scope.

(** * Sums over groups *)

Definition sum_over {A} (f : A -> N) (l : list A) : N := foldr N.add 0 (f <$> l).

Section groups.
Context {A B : Type} `{EqDecision B} (f : A -> N) (key : A -> B).

Lemma sum_over_cons {C} (g : C -> N) c l : sum_over g (c :: l) = g c + sum_over g l.
Proof. done. Qed.

Lemma sum_indicator (b : B) v ks : NoDup ks -> b ∈ ks -> sum_over (fun k => if decide (b = k) then v else 0) ks = v.
Proof.
  assert (forall ks, b ∉ ks -> sum_over (fun k => if decide (b = k) then v else 0) ks = 0) as Hout.
  { induction ks0 as [|k ks0 IH]; [done|]. intros [Hk Hks]%not_elem_of_cons. unfold sum_over in *. csimpl.
    rewrite IH by done. by rewrite decide_False. }
  induction 1 as [|k ks Hk _ IH]; [by intros ?%elem_of_nil|]. unfold sum_over in *. csimpl. intros [->|Hb]%elem_of_cons.
  - specialize (Hout ks Hk). unfold sum_over in Hout. rewrite Hout, decide_True by done. lia.
  - rewrite IH by done. rewrite decide_False by (by intros ->). done.
Qed.

Lemma sum_over_add {C} (g h : C -> N) l : sum_over (fun c => g c + h c) l = sum_over g l + sum_over h l.
Proof. unfold sum_over. induction l; csimpl; lia. Qed.

Lemma sum_over_mono {C} (g h : C -> N) l : Forall (fun c => g c <= h c) l -> sum_over g l <= sum_over h l.
Proof. unfold sum_over. induction 1; csimpl; lia. Qed.

Lemma sum_over_ext {C} (g h : C -> N) l : Forall (fun c => g c = h c) l -> sum_over g l = sum_over h l.
Proof. unfold sum_over. induction 1; csimpl; lia. Qed.

(** A sum is that of its groups. *)
Lemma sum_groups ks l : NoDup ks -> (forall a, a ∈ l -> key a ∈ ks) ->
  sum_over f l = sum_over (fun k => sum_over f (filter (fun a => key a = k) l)) ks.
Proof.
  intros Hks. induction l as [|a l IH]; intros Hin.
  - transitivity (sum_over (fun _ : B => 0) ks); [|done]. change (sum_over f []) with 0. clear Hks Hin. induction ks as [|k ks IH]; [done|]. by rewrite sum_over_cons, <- IH.
  - rewrite sum_over_cons, IH by (intros; apply Hin; by right).
    rewrite <- (sum_indicator (key a) (f a) ks Hks) by (apply Hin; left). rewrite <- sum_over_add.
    apply sum_over_ext, Forall_forall. intros k _. rewrite filter_cons. by destruct (decide (key a = k)).
Qed.

Lemma group_bound (bound : B -> N) (C : Prop) l :
  (forall k, k ∈ key <$> l -> sum_over f (filter (fun a => key a = k) l) <= bound k \/ C) ->
  sum_over f l <= sum_over bound (remove_dups (key <$> l)) \/ C.
Proof.
  intros Hb. rewrite (sum_groups (remove_dups (key <$> l)) l (NoDup_remove_dups _)).
  - assert (Forall (fun k => sum_over f (filter (fun a => key a = k) l) <= bound k) (remove_dups (key <$> l)) \/ C) as [Hf|];
      [|left; by apply sum_over_mono|by right].
    apply Forall_or, Forall_forall. intros k Hk. by apply Hb, elem_of_remove_dups.
  - intros a Ha. apply elem_of_remove_dups, list_elem_of_fmap. by exists a.
Qed.
End groups.

Lemma choose_Forall2 {A B} (R : A -> B -> Prop) l : (forall a, a ∈ l -> exists b, R a b) -> exists l', Forall2 R l l'.
Proof.
  induction l as [|a l IH]; intros Hl; [by exists []|]. destruct (Hl a) as [b Hb]; [left|].
  destruct IH as [l' Hl']; [intros; apply Hl; by right|]. exists (b :: l'). by constructor.
Qed.

(** * Spends *)

Section spends.
Context `{Sha2} `{K256}.

Definition minted (t : Token) : MintTransaction := cm_transaction (genesis t).

(** A mint spends the state its token id reserves, a transfer the one it names. *)
Definition spend : Type := MintTransaction + TransferTransaction.

#[export] Instance spend_transaction : Transaction spend := {|
  lock_script s := match s with inl m => lock_script m | inr t => lock_script t end;
  recipient s := match s with inl m => recipient m | inr t => recipient t end;
  source_state_hash s := match s with inl m => source_state_hash m | inr t => source_state_hash t end;
  calculate_state_hash s := match s with inl m => calculate_state_hash m | inr t => calculate_state_hash t end;
  expires_at s := match s with inl m => expires_at m | inr t => expires_at t end;
  transaction_to_cbor s := match s with inl m => transaction_to_cbor m | inr t => transaction_to_cbor t end;
|}.

Definition spent_state (s : spend) : EncodedPredicate * DataHash := (lock_script s, source_state_hash s).

Definition spends (t : Token) : list spend := inl (minted t) :: ((fun c => inr (ct_transaction c)) <$> transactions t).

Definition spent_twice (l : list spend) : Prop := exists s s', s ∈ l /\ s' ∈ l /\ spent_state s = spent_state s' /\ s <> s'.

Definition spent_once (l : list spend) : Prop := forall s s', s ∈ l -> s' ∈ l -> spent_state s = spent_state s' -> s = s'.

Lemma spent_once_or_twice l : spent_once l \/ spent_twice l.
Proof.
  destruct (decide (Exists (fun s => Exists (fun s' => spent_state s = spent_state s' /\ s <> s') l) l)) as [Hd|Hn].
  - right. apply Exists_exists in Hd as (s & Hs & (s' & Hs' & ? & ?)%Exists_exists). by exists s, s'.
  - left. intros s s' Hs Hs' E. destruct (decide (s = s')) as [|Hne]; [done|]. destruct Hn.
    apply Exists_exists. exists s. split; [done|]. apply Exists_exists. by exists s'.
Qed.

(** A token of the network, of the type, certified throughout. *)
Record genuine (tb : RootTrustBase) (type : TokenType) (t : Token) : Prop := {
  gn_wf : token_wf t;
  gn_network : network_id (minted t) = tb_network_id tb;
  gn_type : token_type (minted t) = type;
  gn_genesis : certified tb (cm_inclusion_proof (genesis t)) (minted t) (reference_time (cm_inclusion_proof (genesis t)));
  gn_transfers : Forall (fun c => certified tb (ct_inclusion_proof c) (ct_transaction c) (reference_time (ct_inclusion_proof c))) (transactions t);
}.

(** ** Certified double spends *)

(** The spends of a token with their proofs. *)
Definition proven (t : Token) : list (spend * InclusionProof) :=
  (inl (minted t), cm_inclusion_proof (genesis t)) :: ((fun c => (inr (ct_transaction c), ct_inclusion_proof c)) <$> transactions t).

Lemma proven_spends t : fst <$> proven t = spends t.
Proof. unfold proven, spends. rewrite fmap_cons, <- list_fmap_compose. done. Qed.

(** Two different transactions that spend one state, both certified by the trust
    base: under two roots, or messages that the two proofs hash collide. *)
Record forked (tb : RootTrustBase) (a b : spend * InclusionProof) : Prop := {
  fk_differ : fst a <> fst b;
  fk_state : spent_state (fst a) = spent_state (fst b);
  fk_first : certified tb (snd a) (fst a) (reference_time (snd a));
  fk_second : certified tb (snd b) (fst b) (reference_time (snd b));
  fk_roots : Bft.root_hash (input_record (unicity_certificate (snd a))) <> Bft.root_hash (input_record (unicity_certificate (snd b))) \/
    Collision (.∈ spend_messages (snd a) (snd b) (fst a) (fst b) (reference_time (snd a)) (reference_time (snd b)));
}.

Definition double_spend (tb : RootTrustBase) (tokens : list Token) : Prop :=
  exists a b, a ∈ tokens ≫= proven /\ b ∈ tokens ≫= proven /\ forked tb a b.

(** Every transaction has an encoding that a [usize] can measure. *)
Definition in_memory (t : Token) : Prop := Forall (fun s => len (transaction_to_cbor s) <= usize_max) (spends t).

(** A decoded mint is given by its encoding, and a transfer by it and the state it
    spends. *)
Definition spend_wf (s : spend) : Prop := match s with inl m => wf m | inr _ => True end.

Lemma spend_inj (s s' : spend) : spend_wf s -> spend_wf s' -> len (transaction_to_cbor s) <= usize_max ->
  spent_state s = spent_state s' -> transaction_to_cbor s = transaction_to_cbor s' -> s = s'.
Proof.
  destruct s as [m|t], s' as [m'|t']; intros Hw Hw' Hl Es E; cbn [transaction_to_cbor spend_transaction] in *.
  - f_equal. by apply to_cbor_inj.
  - exfalso. cbn in E. unfold encode_tag in E. apply app_inv_len in E as [E _]; [|reflexivity]. vm_compute in E. discriminate.
  - exfalso. cbn in E. unfold encode_tag in E. apply app_inv_len in E as [E _]; [|reflexivity]. vm_compute in E. discriminate.
  - pose proof (accepts_max _ (transfer_item t) Hl) as Ha. pose proof (transfer_enc _ t Ha) as H1. rewrite E in Ha, H1.
    injection Es as Elk Esh. pose proof (transfer_enc _ t' Ha) as H2. cbn in Elk, Esh. rewrite <- Elk, <- Esh, H1 in H2. congruence.
Qed.

Lemma spent_twice_forked tb tokens :
  Forall (fun t => in_memory t /\ Forall (fun a => spend_wf (fst a) /\ certified tb (snd a) (fst a) (reference_time (snd a))) (proven t)) tokens ->
  spent_twice (tokens ≫= spends) -> double_spend tb tokens.
Proof.
  intros Hf (s & s' & Hs & Hs' & Es & Hne). rewrite Forall_forall in Hf.
  assert (forall s, s ∈ tokens ≫= spends -> len (transaction_to_cbor s) <= usize_max /\ exists a, a ∈ tokens ≫= proven /\ fst a = s /\
    spend_wf s /\ certified tb (snd a) s (reference_time (snd a))) as Hp.
  { intros x (t & Hx & Ht)%list_elem_of_bind. destruct (Hf t Ht) as [Hm Hc]. unfold in_memory in Hm. rewrite Forall_forall in Hm. rewrite Forall_forall in Hc.
    split; [by apply Hm|]. rewrite <- proven_spends in Hx. apply list_elem_of_fmap in Hx as (a & -> & Ha). exists a.
    destruct (Hc a Ha) as [? ?]. split_and!; [|done..]. apply list_elem_of_bind. by exists t. }
  destruct (Hp s Hs) as (Hl & a & Ha & <- & Hw & Hc), (Hp s' Hs') as (_ & b & Hb & <- & Hw' & Hc'). exists a, b. split_and!; [done..|].
  constructor; [done..|]. destruct (ce_included _ _ _ _ Hc) as (r & ? & Er & _), (ce_included _ _ _ _ Hc') as (r' & ? & Er' & _).
  destruct (decide (r = r')) as [<-|Hr]; [right|left; congruence].
  pose proof Es as Es'. injection Es' as Elk Esh.
  destruct (included_once (snd a) (snd b) (fst a) (fst b) _ _ (ce_included _ _ _ _ Hc) (ce_included _ _ _ _ Hc') Elk Esh) as [[E _]|];
    [congruence| |done]. destruct Hne. by apply spend_inj.
Qed.

Lemma once_no_double tb tokens : spent_once (tokens ≫= spends) -> ~ double_spend tb tokens.
Proof.
  intros Hl (a & b & (t & Ha & Ht)%list_elem_of_bind & (t' & Hb & Ht')%list_elem_of_bind & Hf).
  apply (fk_differ _ _ _ Hf), Hl; [..|exact (fk_state _ _ _ Hf)]; apply list_elem_of_bind; [exists t|exists t'];
    (split; [|done]); rewrite <- proven_spends; by apply list_elem_of_fmap_2.
Qed.

(** The spends of a genuine token are certified. *)
Lemma genuine_proven tb type t : genuine tb type t ->
  Forall (fun a => spend_wf (fst a) /\ certified tb (snd a) (fst a) (reference_time (snd a))) (proven t).
Proof.
  intros [Hw _ _ Hg Ht]. constructor.
  - split; [destruct Hw as (Hw & _); codec_unfold CertifiedMint_codec; tauto|]. cbn [fst snd]. by destruct Hg; constructor.
  - rewrite Forall_fmap. eapply Forall_impl; [exact Ht|]. intros c Hc. split; [done|]. cbn [fst snd]. by destruct Hc; constructor.
Qed.

(** One id, one mint. *)
Lemma one_mint tb type type' t t' l : genuine tb type t -> genuine tb type' t' -> spent_once l ->
  inl (minted t) ∈ l -> inl (minted t') ∈ l -> token_id (minted t) = token_id (minted t') -> minted t = minted t'.
Proof.
  intros Hg Hg' Hl Ht Ht' E. enough (inl (B := TransferTransaction) (minted t) = inl (minted t')) by congruence. apply Hl; [done..|].
  assert (forall ty t, genuine tb ty t -> wf (minted t)) as Hw.
  { intros ty x Hx. apply gn_wf in Hx as (Hx & _). codec_unfold CertifiedMint_codec. tauto. }
  apply Hw, mint_derived in Hg as (_ & Hs & pk & Hpk & Hlk), Hg' as (_ & Hs' & pk' & Hpk' & Hlk').
  unfold spent_state. cbn [lock_script source_state_hash MintTransaction_transaction spend_transaction]. rewrite E in *. rewrite Hpk' in Hpk. injection Hpk as ->. congruence.
Qed.

(** Two runs from one state, without a double spend, agree as far as both go. *)
Lemma linked_comparable l ts : forall ts' h lock, spent_once l -> linked h lock ts -> linked h lock ts' ->
  (forall c, c ∈ ts -> inr (ct_transaction c) ∈ l) -> (forall c, c ∈ ts' -> inr (ct_transaction c) ∈ l) ->
  (ct_transaction <$> ts) `prefix_of` (ct_transaction <$> ts') \/ (ct_transaction <$> ts') `prefix_of` (ct_transaction <$> ts).
Proof.
  induction ts as [|t ts IH]; intros [|t' ts'] h lock Hl Hk Hk' Hi Hi'; [left; apply prefix_nil|left; apply prefix_nil|right; apply prefix_nil|].
  destruct Hk as (Hh & Hlo & Hk), Hk' as (Hh' & Hlo' & Hk').
  assert (ct_transaction t = ct_transaction t') as E.
  { enough (inr (A := MintTransaction) (ct_transaction t) = inr (ct_transaction t')) by congruence.
    apply Hl; [apply Hi; left|apply Hi'; left|]. unfold spent_state. cbn [lock_script source_state_hash spend_transaction]. congruence. }
  unfold result_state_hash in Hk, Hk'. rewrite <- E in Hk'. csimpl. rewrite <- E.
  destruct (IH ts' _ _ Hl Hk Hk'); [intros; apply Hi; by right|intros; apply Hi'; by right|left|right]; by apply prefix_cons.
Qed.

(** Nothing follows a burn, so two histories of one mint that both end in a burn
    end in the same one. *)
Lemma one_burn tb l reason reason' ts : forall ts' h lock,
  let ok := Forall (fun c => certified tb (ct_inclusion_proof c) (ct_transaction c) (reference_time (ct_inclusion_proof c))) in
  let inside (ts : list CertifiedTransferTransaction) := forall c, c ∈ ts -> inr (ct_transaction c) ∈ l in
  spent_once l -> linked h lock ts -> linked h lock ts' -> ok ts -> ok ts' -> inside ts -> inside ts' ->
  forall c c', last ts = Some c -> last ts' = Some c' ->
  recipient (ct_transaction c) = from_predicate {| bp_reason := reason |} ->
  recipient (ct_transaction c') = from_predicate {| bp_reason := reason' |} ->
  ct_transaction c = ct_transaction c'.
Proof.
  assert (forall ts h r c, linked h (from_predicate {| bp_reason := r |}) (c :: ts) ->
    ~ certified tb (ct_inclusion_proof c) (ct_transaction c) (reference_time (ct_inclusion_proof c))) as Hno.
  { intros ts0 h r c (_ & Hl & _) Hc. apply ce_unlocked in Hc as (pk & Hpk & _). rewrite Hl in Hpk. discriminate Hpk. }
  induction ts as [|t ts IH]; intros [|t' ts'] h lock ok inside Hl Hk Hk' Ho Ho' Hi Hi' c c' Hc Hc' Hr Hr'; [done..|].
  apply Forall_cons in Ho as [Ht Ho], Ho' as [Ht' Ho']. destruct Hk as (Hh & Hlo & Hk), Hk' as (Hh' & Hlo' & Hk').
  assert (ct_transaction t = ct_transaction t') as E.
  { enough (inr (A := MintTransaction) (ct_transaction t) = inr (ct_transaction t')) by congruence.
    apply Hl; [apply Hi; left|apply Hi'; left|]. unfold spent_state. cbn [lock_script source_state_hash spend_transaction]. congruence. }
  destruct ts as [|u ts], ts' as [|u' ts'].
  - injection Hc as <-. by injection Hc' as <-.
  - injection Hc as <-. rewrite <- E, Hr in Hk'. apply Forall_cons in Ho' as [Hu _]. by apply Hno in Hk'.
  - injection Hc' as <-. rewrite E, Hr' in Hk. apply Forall_cons in Ho as [Hu _]. by apply Hno in Hk.
  - rewrite last_cons_cons in Hc, Hc'. unfold result_state_hash in Hk, Hk'. rewrite <- E in Hk'.
    apply (IH (u' :: ts') _ _ Hl Hk Hk' Ho Ho'); try done; intros x Hx; [apply Hi|apply Hi']; by right.
Qed.
End spends.

(** * Descent *)

Section descent.
Context `{Sha2} `{K256} `{BigUintLaws}.
Context (decode : PaymentDataDecoder) (tb : RootTrustBase) (type : TokenType).

(** A token and the accepted output it was minted as. *)
Record link : Type := { l_output : accepted_output; l_token : Token }.

(** From [r] to [t] by splits, each output minted against the token before it. *)
Fixpoint descends (r : Token) (l : list link) (t : Token) : Prop :=
  genuine tb type r /\
  match l with
  | [] => t = r
  | k :: l => o_burned (l_output k) = r /\ o_mint (l_output k) = minted (l_token k) /\
      (exists source manifest, split_evidence decode (o_mint (l_output k)) (o_burned (l_output k)) (o_assets (l_output k))
         source manifest (o_proofs (l_output k))) /\
      descends (l_token k) l t
  end.

Record descent : Type := { origin : Token; links : list link; holder : Token }.
Definition descent_ok (d : descent) : Prop := descends (origin d) (links d) (holder d).

Definition ancestors (d : descent) : list Token := (fun k => o_burned (l_output k)) <$> links d.
Definition histories (d : descent) : list spend := spends (origin d) ++ (links d ≫= fun k => spends (l_token k)).
Definition descent_claims (hashed : bytes -> Prop) (d : descent) : Prop := forall k id c, k ∈ links d ->
  claim_of (Token_id (o_burned (l_output k))) id (l_output k) = Some c -> claim_hashed hashed c.

(** The claims on split trees along descents: each asset of each output. *)
Definition split_claims (D : list descent) (c : claim) : Prop := exists d k id, d ∈ D /\ k ∈ links d /\
  claim_of (Token_id (o_burned (l_output k))) id (l_output k) = Some c.

Lemma split_claims_hashed D : Forall (descent_claims (claim_messages (split_claims D))) D.
Proof. apply Forall_forall. intros d Hd k id c Hk Hc. apply claim_messages_hashed. by exists d, k, id. Qed.

(** The tokens of a descent. *)
Definition stages (d : descent) : list Token := origin d :: (l_token <$> links d).

Lemma stages_histories d : stages d ≫= spends = histories d.
Proof. unfold stages, histories. rewrite bind_cons. f_equal. induction (links d) as [|k ks IH]; [done|]. rewrite fmap_cons, !bind_cons. by rewrite IH. Qed.

Lemma stages_genuine d : descent_ok d -> Forall (genuine tb type) (stages d).
Proof.
  destruct d as [r l t]. unfold descent_ok, stages. cbn [origin links holder]. revert r.
  induction l as [|k l IH]; intros r; cbn [descends]; [intros [Hr _]; by constructor|].
  intros (Hr & _ & _ & _ & Hd). constructor; [done|]. rewrite fmap_cons. by apply IH.
Qed.

Lemma double_spent_stages D : Forall descent_ok D -> Forall in_memory (D ≫= stages) ->
  spent_twice (D ≫= histories) -> double_spend tb (D ≫= stages).
Proof.
  intros Hd Hm Hs. apply spent_twice_forked.
  - apply Forall_and. split; [done|]. apply Forall_bind. eapply Forall_impl; [exact Hd|]. intros d Hok%stages_genuine.
    eapply Forall_impl; [exact Hok|]. intros t. apply genuine_proven.
  - replace ((D ≫= stages) ≫= spends) with (D ≫= histories); [done|]. clear. induction D as [|d D IH]; [done|].
    by rewrite !bind_cons, bind_app, <- IH, stages_histories.
Qed.

(** How much of [id] a mint put into its token. *)
Definition held (id : AssetId) (m : MintTransaction) : N :=
  match data m with
  | Some b => match decode b with Ok c => amount id c | _ => 0 end
  | None => 0
  end.

Lemma held_payload id m c : payload_decodes decode m c -> held id m = amount id c.
Proof. intros (b & Hb & Hd). unfold held. by rewrite Hb, Hd. Qed.

Lemma descends_snoc r l b k : descends r l b -> o_burned (l_output k) = b -> o_mint (l_output k) = minted (l_token k) ->
  (exists source manifest, split_evidence decode (o_mint (l_output k)) b (o_assets (l_output k)) source manifest (o_proofs (l_output k))) ->
  genuine tb type (l_token k) -> descends r (l ++ [k]) (l_token k).
Proof.
  revert r. induction l as [|k' l IH]; intros r; cbn [descends app].
  - intros [Hr ->] Hb Hm Hev Hk. rewrite Hb. split_and!; done.
  - intros (Hr & Hb' & Hm' & Hev' & Hd) Hb Hm Hev Hk. split_and!; try done. by apply IH.
Qed.

(** ** One asset *)

Context (id : AssetId).

(** What the source lacks its outputs lack. *)
Lemma absent_asset source_id source manifest o : allocations_proved source_id source manifest (o_mint o) (o_assets o) (o_proofs o) ->
  get source id = None -> amount id (o_assets o) = 0.
Proof.
  intros (cm & _ & Hf) Hn. unfold amount. destruct (get (o_assets o) id) as [a|] eqn:Ea; [|done].
  apply get_Some in Ea as [(j & Hj)%list_elem_of_lookup <-]. destruct (Forall2_lookup_l _ _ _ _ _ Hf Hj) as (p & _ & i & s & r & Hs & _).
  unfold get in Hn. by rewrite Hs in Hn.
Qed.

(** Distinct outputs of one burn hold no more than it. *)
Lemma outputs_bounded hashed burned outs : decoder_ok decode ->
  Forall (fun o => same_burn burned (o_burned o) /\ exists source manifest,
    split_evidence decode (o_mint o) (o_burned o) (o_assets o) source manifest (o_proofs o)) outs ->
  NoDup ((fun o => token_id (o_mint o)) <$> outs) ->
  Forall (claim_hashed hashed) (omap (claim_of (Token_id burned) id) outs) ->
  total_amount id outs <= held id (minted burned) \/ Collision hashed.
Proof.
  intros Hd Hev Hnd Hh. destruct outs as [|o0 outs]; [left; unfold total_amount; simpl; lia|].
  pose proof Hev as [([Hm _] & source & manifest & Hev0) _]%Forall_cons.
  pose proof (ev_source _ _ _ _ _ _ _ Hev0) as Hsrc. rewrite <- Hm in Hsrc. rewrite (held_payload _ _ _ Hsrc). unfold amount.
  destruct (get source id) as [s|] eqn:Es.
  - apply get_Some in Es as [Hs <-]. by apply (burn_conserved decode hashed burned source).
  - left. enough (total_amount id (o0 :: outs) = 0) by lia. unfold total_amount. revert Hev. generalize (o0 :: outs). clear -Hsrc Es Hd.
    induction l as [|o l IH]; [done|]. intros [([Hb _] & source' & manifest' & Ho) Hl]%Forall_cons. csimpl. rewrite IH by done.
    assert (source' = source) as ->.
    { destruct Hsrc as (b & E & Hs1), (ev_source _ _ _ _ _ _ _ Ho) as (b' & E' & Hs2). rewrite <- Hb, E in E'. congruence. }
    rewrite (absent_asset _ _ _ o (ev_proofs _ _ _ _ _ _ _ Ho)) by done. done.
Qed.
(** ** Many tokens *)

Context (hashed : bytes -> Prop) (l : list spend) (Hd : decoder_ok decode) (Hl : spent_once l).

Record traced (d : descent) : Prop := {
  tr_ok : descent_ok d;
  tr_history : forall s, s ∈ histories d -> s ∈ l;
  tr_claims : descent_claims hashed d;
}.

Definition kept (d : descent) : N := held id (minted (holder d)).

(** No two hold one token, and none holds an ancestor of another. *)
Definition frontier (D : list descent) : Prop :=
  NoDup ((fun d => minted (holder d)) <$> D) /\ forall d d', d ∈ D -> d' ∈ D -> minted (holder d) ∉ minted <$> ancestors d'.

(** The descent from the first output on, and its mint. *)
Definition onward (d : descent) : descent :=
  match links d with [] => d | k :: ks => {| origin := l_token k; links := ks; holder := holder d |} end.

Lemma onward_holder d : holder (onward d) = holder d.
Proof. unfold onward. by destruct (links d). Qed.

Lemma onward_ancestors d a : a ∈ ancestors (onward d) -> a ∈ ancestors d.
Proof. unfold onward, ancestors. destruct (links d) as [|k ks] eqn:E; [by rewrite E|]. csimpl. by right. Qed.

Lemma frontier_onward D : frontier D -> frontier (onward <$> D).
Proof.
  intros [Hnd Hf]. split.
  - rewrite <- list_fmap_compose. erewrite list_fmap_ext; [exact Hnd|]. intros i d _. unfold compose. by rewrite onward_holder.
  - intros d d' (x & -> & Hx)%list_elem_of_fmap (x' & -> & Hx')%list_elem_of_fmap (a & Ha & Ha')%list_elem_of_fmap.
    rewrite onward_holder in Ha. apply (Hf x x' Hx Hx'). apply list_elem_of_fmap. exists a. split; [done|by apply onward_ancestors].
Qed.

Lemma frontier_filter (P : descent -> Prop) `{!forall d, Decision (P d)} D : frontier D -> frontier (filter P D).
Proof.
  intros [Hnd Hf]. split.
  - clear Hf. induction D as [|d D IH]; [constructor|]. csimpl in *. apply NoDup_cons in Hnd as [Hn Hnd].
    rewrite filter_cons. destruct (decide (P d)); [csimpl; constructor|]; auto.
    intros (d' & E & [_ Hd']%list_elem_of_filter)%list_elem_of_fmap. apply Hn, list_elem_of_fmap. by exists d'.
  - intros d d' [_ ?]%list_elem_of_filter [_ ?]%list_elem_of_filter. by apply Hf.
Qed.

Lemma genuine_origin d : descent_ok d -> genuine tb type (origin d).
Proof. unfold descent_ok. destruct (links d); cbn [descends]; tauto. Qed.

Lemma traced_onward d : traced d -> traced (onward d).
Proof.
  intros [Ho Hh Hc]. unfold onward, descent_ok, histories, descent_claims in *. destruct (links d) as [|k ks] eqn:E; [by split; unfold descent_ok, histories, descent_claims; rewrite ?E|].
  destruct Ho as (_ & _ & _ & _ & Ho). split; [exact Ho| |].
  - intros s Hs. apply Hh. unfold histories in Hs. cbn [origin links] in Hs. apply elem_of_app. right. csimpl. exact Hs.
  - intros k' id' c Hk'. apply Hc. by right.
Qed.

(** What the first link of a descent shows. *)
Lemma first_link d k ks : traced d -> links d = k :: ks ->
  genuine tb type (l_token k) /\ o_burned (l_output k) = origin d /\ o_mint (l_output k) = minted (l_token k) /\
  inl (minted (l_token k)) ∈ l /\ (forall c, c ∈ transactions (origin d) -> inr (ct_transaction c) ∈ l) /\
  exists source manifest, split_evidence decode (o_mint (l_output k)) (o_burned (l_output k)) (o_assets (l_output k)) source manifest (o_proofs (l_output k)).
Proof.
  intros [Ho Hh _] E. pose proof (genuine_origin (onward d)) as Hg. unfold descent_ok, onward, histories in *. rewrite E in *.
  destruct Ho as (_ & Hb & Hm & Hev & Ho). split_and!; try done; [by apply Hg| |].
  - apply Hh. apply elem_of_app. right. csimpl. left.
  - intros c Hc. apply Hh. apply elem_of_app. left. right. apply list_elem_of_fmap. by exists c.
Qed.

(** Two descents from one mint that go on burned it by one burn. *)
Lemma one_source d d' k k' ks ks' : traced d -> traced d' -> links d = k :: ks -> links d' = k' :: ks' ->
  minted (origin d) = minted (origin d') -> same_burn (origin d) (o_burned (l_output k')).
Proof.
  intros Ha Ha' E E' Hm. destruct (first_link _ _ _ Ha E) as (_ & Hb & _ & _ & Hin & s & m & Hev).
  destruct (first_link _ _ _ Ha' E') as (_ & Hb' & _ & _ & Hin' & s' & m' & Hev'). rewrite Hb' . split; [exact Hm|].
  rewrite Hb in Hev. rewrite Hb' in Hev'. destruct (ev_burn _ _ _ _ _ _ _ Hev) as (c & Hc & _ & Hr), (ev_burn _ _ _ _ _ _ _ Hev') as (c' & Hc' & _ & Hr').
  rewrite Hc, Hc'. cbn. f_equal. destruct (genuine_origin _ (tr_ok _ Ha)) as [(_ & Hk & _) _ _ _ Hf], (genuine_origin _ (tr_ok _ Ha')) as [(_ & Hk' & _) _ _ _ Hf'].
  unfold minted, genesis_result_state_hash in *. rewrite <- Hm in Hk'. by apply (one_burn tb l _ _ _ _ _ _ Hl Hk Hk' Hf Hf' Hin Hin' c c' Hc Hc' Hr Hr').
Qed.
Lemma kept_onward D : sum_over kept (onward <$> D) = sum_over kept D.
Proof. unfold sum_over. induction D as [|d D IH]; [done|]. csimpl. rewrite IH. unfold kept. by rewrite onward_holder. Qed.

(** A token that is its own origin is the only one of its frontier. *)
Lemma frontier_alone m D : frontier D -> Forall (fun d => traced d /\ minted (origin d) = m) D ->
  Exists (fun d => length (links d) = 0%nat) D -> sum_over kept D <= held id m.
Proof.
  intros [Hnd Hf] Ha (d0 & Hd0 & E0)%Exists_exists. rewrite Forall_forall in Ha.
  assert (forall d, d ∈ D -> length (links d) = 0%nat -> minted (holder d) = m) as Hown.
  { intros d Hin E. destruct (Ha d Hin) as [[Ho _ _] <-]. unfold descent_ok in Ho. destruct (links d); [|done]. by destruct Ho as [_ ->]. }
  assert (forall d, d ∈ D -> minted (holder d) = m) as Hm.
  { intros d Hin. apply Hown; [done|]. destruct (links d) as [|k ks] eqn:E; [done|]. destruct (Hf d0 d Hd0 Hin). rewrite (Hown d0 Hd0 E0).
    destruct (Ha d Hin) as [Had Hmd]. apply first_link with (1 := Had) in E as E'. destruct E' as (_ & Hb & _).
    unfold ancestors. rewrite E. csimpl. rewrite Hb, Hmd. left. }
  destruct D as [|d [|d' D]]; [by apply elem_of_nil in Hd0| |].
  - unfold sum_over, kept. csimpl. rewrite Hm by left. lia.
  - csimpl in Hnd. apply NoDup_cons in Hnd as [Hn _]. destruct Hn. rewrite (Hm d), (Hm d') by (repeat constructor). left.
Qed.

(** The distinct outputs that the descents from one mint go through. *)
Lemma next_bounded m D : Forall (fun d => traced d /\ minted (origin d) = m) D -> Forall (fun d => length (links d) <> 0%nat) D ->
  sum_over (held id) (remove_dups ((fun d => minted (origin (onward d))) <$> D)) <= held id m \/ Collision hashed.
Proof.
  intros Ha Hn. set (ks := remove_dups _). rewrite !Forall_forall in Ha, Hn.
  assert (forall d, d ∈ D -> exists k l, links d = k :: l) as Hlinks.
  { intros d Hin. specialize (Hn d Hin). destruct (links d) as [|k l0] eqn:E; [done|]. by exists k, l0. }
  destruct (choose_Forall2 (fun x o => o_mint o = x /\ exists d k l, d ∈ D /\ links d = k :: l /\ o = l_output k) ks) as [outs Houts].
  { intros x Hx. unfold ks in Hx. rewrite elem_of_remove_dups in Hx. apply list_elem_of_fmap in Hx as (d & -> & Hin). destruct (Hlinks d Hin) as (k & l0 & E).
    exists (l_output k). destruct (first_link d k l0) as (_ & _ & Hm & _); [by apply Ha|done|]. split; [unfold onward; by rewrite E|]. by exists d, k, l0. }
  destruct D as [|d0 D0]; [left; unfold ks, sum_over; simpl; lia|]. destruct (Hlinks d0) as (k0 & l0 & E0); [left|].
  destruct (Ha d0) as [Ha0 Hm0]; [left|].
  assert (Forall (fun o => (exists t, genuine tb type t /\ minted t = o_mint o /\ inl (minted t) ∈ l) /\ same_burn (origin d0) (o_burned o) /\
    (forall c, claim_of (Token_id (o_burned o)) id o = Some c -> claim_hashed hashed c) /\ exists source manifest,
    split_evidence decode (o_mint o) (o_burned o) (o_assets o) source manifest (o_proofs o)) outs) as Hev.
  { apply Forall_forall. intros o (j & Hj)%list_elem_of_lookup. destruct (Forall2_lookup_r _ _ _ _ _ Houts Hj) as (x & _ & _ & d & k & l1 & Hin & E & ->).
    destruct (Ha d Hin) as [Had Hmd]. destruct (first_link d k l1 Had E) as (Hg & Hb & Hm & Hs & _ & Hx).
    split_and!; [by exists (l_token k)|apply (one_source d0 d k0 k l0 l1 Ha0 Had E0 E); congruence| |done].
    intros c. apply (tr_claims _ Had). rewrite E. left. }
  assert (o_mint <$> outs = ks) as Eks.
  { clear Hev. clearbody ks. induction Houts as [|x o ks outs [<- _] _ IH]; [done|]. csimpl. by rewrite IH. }
  rewrite <- Eks, <- Hm0. replace (sum_over (held id) (o_mint <$> outs)) with (total_amount id outs).
  - apply outputs_bounded; [done| | |].
    + eapply Forall_impl; [exact Hev|]. naive_solver.
    + change (NoDup (token_id ∘ o_mint <$> outs)). rewrite list_fmap_compose. apply NoDup_fmap_2_strong; [|rewrite Eks; apply NoDup_remove_dups].
      rewrite Forall_forall in Hev. intros x x' (o & -> & Ho)%list_elem_of_fmap (o' & -> & Ho')%list_elem_of_fmap.
      destruct (Hev o Ho) as ((t & Ht & <- & Hs) & _), (Hev o' Ho') as ((t' & Ht' & <- & Hs') & _). by apply (one_mint tb type type t t' l).
    + rewrite Forall_forall in Hev. apply Forall_forall. intros c (o & Ho & Hc)%list_elem_of_omap. destruct (Hev o Ho) as (_ & [Hb _] & Hh & _).
      apply Hh. unfold Token_id in *. by rewrite <- Hb.
  - clear -Hev. unfold total_amount, sum_over. induction Hev as [|o outs (_ & _ & _ & source & manifest & Ho) _ IH]; [done|]. csimpl.
    rewrite IH. by rewrite (held_payload _ _ _ (ev_outputs _ _ _ _ _ _ _ Ho)).
Qed.

(** Descents from one mint hold no more than it. *)
Lemma descents_bounded n : forall D m, frontier D ->
  Forall (fun d => traced d /\ minted (origin d) = m) D -> Forall (fun d => (length (links d) <= n)%nat) D ->
  sum_over kept D <= held id m \/ Collision hashed.
Proof.
  induction n as [|n IH]; intros D m Hf Ha Hn; (destruct (decide (Exists (fun d => length (links d) = 0%nat) D)) as [He|He];
    [left; by apply frontier_alone|]).
  - destruct D as [|d D]; [left; unfold sum_over; simpl; lia|]. destruct He. left. apply Forall_cons in Hn as [? _]. lia.
  - assert (Forall (fun d => length (links d) <> 0%nat) D) as Hne.
    { apply Forall_forall. intros d Hin E. destruct He. apply Exists_exists. by exists d. }
    destruct (group_bound kept (fun d => minted (origin (onward d))) (held id) (Collision hashed) D) as [Hb|]; [| |by right].
    + intros k _. rewrite <- kept_onward. apply IH; [by apply frontier_onward, frontier_filter| |].
      * apply Forall_fmap, Forall_forall. intros d [Hk Hin]%list_elem_of_filter. rewrite Forall_forall in Ha.
        split; [by apply traced_onward, Ha|done].
      * apply Forall_fmap, Forall_forall. intros d [_ Hin]%list_elem_of_filter. rewrite Forall_forall in Hn, Hne. specialize (Hn d Hin). specialize (Hne d Hin).
        unfold compose, onward. destruct (links d) as [|k' ks] eqn:E; [done|]. cbn [links length] in *. lia.
    + destruct (next_bounded m D Ha Hne) as [Hm|]; [left; lia|by right].
Qed.

(** Any frontier holds no more than the mints it descends from. *)
Lemma frontier_bounded D : frontier D -> Forall traced D ->
  sum_over kept D <= sum_over (held id) (remove_dups ((fun d => minted (origin d)) <$> D)) \/ Collision hashed.
Proof.
  intros Hf Ha. apply group_bound. intros m _. apply (descents_bounded (foldr Nat.max 0%nat ((fun d => length (links d)) <$> D))).
  - by apply frontier_filter.
  - apply Forall_forall. intros d [? Hin]%list_elem_of_filter. rewrite Forall_forall in Ha. split; [by apply Ha|done].
  - apply Forall_forall. intros d [_ Hin]%list_elem_of_filter. clear -Hin. induction D as [|d' D IH]; [by apply elem_of_nil in Hin|].
    csimpl. apply elem_of_cons in Hin as [->|Hin]; [lia|]. specialize (IH Hin). lia.
Qed.
End descent.

(** * Accepted tokens *)

Section accepted.
Context `{Sha2} `{K256} `{BigUintLaws}.
Context (decode : PaymentDataDecoder) (type : TokenType) (authorize : PaymentIssuancePolicy) (tb : RootTrustBase).

(** An issuance that the application authorised. *)
Definition issued (r : Token) : Prop := justification (minted r) = None /\
  exists c, payload_decodes decode (minted r) c /\ authorize (genesis r) c = Ok tt.

Lemma token_descends registry pol n : payment_registry decode type authorize = Ok registry ->
  forall t, token_wf t -> token_type (minted t) = type -> is_Some (data (minted t)) ->
  token_certified (split_accepted decode) (payment_authorized decode authorize) registry n tb pol t ->
  exists d, descent_ok decode tb type d /\ holder d = t /\ issued (origin d).
Proof.
  intros Er. induction n as [|n IH]; intros t Hw Hty [b Hb] Hc; [done|]. destruct Hc as (_ & Hn & _ & Hg & Hdata & Hj & Ht).
  assert (genuine tb type t) as Hgt by done. destruct Hj as [Hj|(burned & outputs & source & manifest & proofs & Hq & Hwb & Hev)].
  - exists {| origin := t; links := []; holder := t |}. split_and!; [by split|done|]. split; [done|]. unfold minted in *.
    destruct Hdata as [Hdn|[(c & Hp & Ha)|[_ Hdn]]]; [congruence|by exists c|].
    injection Er as <-. unfold map_get in Hdn. cbn in Hdn. rewrite Hty in Hdn. by rewrite decide_True in Hdn.
  - destruct (IH burned) as (d & Hd & Hh & Hi); [done|unfold minted in *; rewrite <- (ev_type _ _ _ _ _ _ _ Hev); done| |done|].
    { destruct (ev_source _ _ _ _ _ _ _ Hev) as (sb & Hs & _). by exists sb. }
    set (k := {| l_output := {| o_mint := minted t; o_burned := burned; o_assets := outputs; o_proofs := proofs |}; l_token := t |}).
    exists {| origin := origin d; links := links d ++ [k]; holder := t |}. split_and!; [|done|done].
    apply (descends_snoc decode tb type (origin d) (links d) burned k); [|done|done|by exists source, manifest|done].
    unfold descent_ok in Hd. by rewrite Hh in Hd.
Qed.

(** The mints that the descents begin with. *)
Definition issuances (D : list descent) : list MintTransaction := remove_dups ((fun d => minted (origin d)) <$> D).

(** What splitting can create: nothing. *)
Lemma frontier_no_inflation D hashed id : decoder_ok decode -> Forall (descent_ok decode tb type) D ->
  NoDup ((fun d => Token_id (holder d)) <$> D) ->
  (forall d d', d ∈ D -> d' ∈ D -> Token_id (holder d) ∉ Token_id <$> ancestors d') ->
  Forall (descent_claims hashed) D ->
  (NoDup (token_id <$> issuances D) /\ sum_over (fun d => held decode id (minted (holder d))) D <= sum_over (held decode id) (issuances D))
  \/ spent_twice (D ≫= histories) \/ Collision hashed.
Proof.
  intros Hd Ho Hnd Hf Hc. destruct (spent_once_or_twice (D ≫= histories)) as [Hl|]; [|by right; left].
  rewrite Forall_forall in Ho, Hc.
  assert (Forall (traced decode tb type hashed (D ≫= histories)) D) as Ha.
  { apply Forall_forall. intros d Hin. split; [by apply Ho| |by apply Hc]. intros s Hs. apply list_elem_of_bind. by exists d. }
  destruct (frontier_bounded decode tb type id hashed (D ≫= histories) Hd Hl D) as [Hb|]; [|done| |by right; right].
  - split.
    + change (NoDup (token_id ∘ (fun d => minted (holder d)) <$> D)) in Hnd. rewrite list_fmap_compose in Hnd. by apply NoDup_fmap_1 in Hnd.
    + intros d d' Hin Hin' (a & E & Hx)%list_elem_of_fmap. apply (Hf d d' Hin Hin'), list_elem_of_fmap. exists a. split; [|done].
      unfold Token_id, minted in *. by rewrite E.
  - left. split; [|exact Hb]. apply NoDup_fmap_2_strong; [|apply NoDup_remove_dups]. intros m m' Hm Hm' E. unfold issuances in *.
    rewrite elem_of_remove_dups in Hm, Hm'. apply list_elem_of_fmap in Hm as (d & -> & Hin), Hm' as (d' & -> & Hin').
    assert (forall d, d ∈ D -> inl (minted (origin d)) ∈ D ≫= histories) as Hin0.
    { intros x Hx. apply list_elem_of_bind. exists x. split; [|done]. apply elem_of_app. left. left. }
    by apply (one_mint tb type type (origin d) (origin d') (D ≫= histories)); [eapply genuine_origin, Ho|eapply genuine_origin, Ho|..]; auto.
Qed.
End accepted.
