(* ===== verification/Assemble.v ===== *)
(** Tree reconstruction and authenticated assembly of certificates:
    [src/consolidation/assemble.rs].

    [SealAuthenticator] is the trait of [src/verify/seal.rs]; the session is its
    implementation. What a verified view is ([view_ok]) and what its certificates
    are worth is in [AssembleSpec.v]. *)

From S2P Require Import Prelude State Bytes Error Cbor Hash Codec Radix ShardId ShardOps Search VerificationError Bft BftCodec BftSpec Secp Predicates TrustBase Seal Verify Topology ShardTree ViewCodec.
Local Open Scope N_scope.

Section assemble.
Context `{Sha2} `{K256}.

(** [trait SealAuthenticator] *)
Class SealAuthenticator (S : Type) : Type := {
  authenticate_under : UnicitySeal -> arr 32 -> M S VerificationError unit;
}.

#[export] Instance SealSession_authenticator : SealAuthenticator SealSession := {|
  authenticate_under := authenticate_seal_under;
|}.

Record ShardCertificate : Type := {
  sc_shard_id : ShardId;
  sc_shard_tree_certificate : ShardTreeCertificate;
  sc_certificate : option UnicityCertificate;
}.

Record AuthenticatedView : Type := {
  av_partition_id : u32;
  av_leaves : list PartitionViewLeaf;
  av_tree : ShardTree;
  av_unicity_tree_certificate : UnicityTreeCertificate;
  av_seal : UnicitySeal;
  av_policy : arr 32;
  av_identity : arr 32;
}.

(** ** Structure *)

Definition check_leaf (topology : PartitionTopology) (e : PartitionViewLeaf * ShardId) : vresult unit :=
  let '(leaf, id) := e in
  if negb (bool_decide (PartitionViewLeaf.shard_id leaf = id)) then Err (LeafSetMismatch "unexpected shard or order") else
  match shard_conf_hash topology id with
  | Some admitted => if negb (bool_decide (val admitted = PartitionViewLeaf.shard_conf_hash leaf))
                     then Err ConfigHashMismatch else Ok tt
  | None => Ok tt
  end.

Definition validate_structure (self : PartitionView) (topology : PartitionTopology) : vresult unit :=
  _ ← check_bounds self;
  if negb (bool_decide (partition_id self = AGGREGATION_PARTITION_ID)) then Err ViewPartitionMismatch else
  order ← canonical_order topology;
  if negb (length (view_leaves self) =? length order)%nat then Err (LeafSetMismatch "leaf count") else
  _ ← mapO (check_leaf topology) (zip (view_leaves self) order);
  Ok tt.

Definition leaf_pair (l : PartitionViewLeaf) : ShardId * bytes := (PartitionViewLeaf.shard_id l, PartitionViewLeaf.leaf_hash l).

Definition build_shard_tree (self : PartitionView) (topology : PartitionTopology) : vresult ShardTree :=
  _ ← validate_structure self topology;
  build (leaf_pair <$> view_leaves self).

Definition verify_tree (self : PartitionView) (enclosing : UnicityCertificate) (topology : PartitionTopology) : vresult ShardTree :=
  tree ← build_shard_tree self topology;
  let utc := unicity_tree_certificate enclosing in
  if negb (bool_decide (partition_identifier utc = AGGREGATION_PARTITION_ID))
  then Err (EnclosingCertificate "certificate is of another partition") else
  h ← root_hash tree;
  if negb (bool_decide (DataHash.data (compute_root_hash utc h) = seal_hash (unicity_seal enclosing)))
  then Err TreeRootMismatch else
  let own := shard (shard_tree_certificate enclosing) in
  leaf ← ok_or (EnclosingCertificate "certificate shard is not in the view")
    (List.find (fun l => bool_decide (PartitionViewLeaf.shard_id l = own)) (view_leaves self));
  if negb (bool_decide (shard_configuration_hash enclosing = PartitionViewLeaf.shard_conf_hash leaf))
  then Err (EnclosingCertificate "shard configuration hash differs from the view") else
  if negb (bool_decide (technical_record_hash enclosing = Some (PartitionViewLeaf.tr_hash leaf)))
  then Err (EnclosingCertificate "technical record hash differs from the view") else
  if negb (bool_decide (PartitionViewInputRecord.from_input_record (input_record enclosing) = PartitionViewLeaf.input_record leaf))
  then Err (EnclosingCertificate "input record differs from the view") else
  own_cert ← certificate tree own;
  if negb (bool_decide (sibling_hash_list own_cert = sibling_hash_list (shard_tree_certificate enclosing)))
  then Err (EnclosingCertificate "shard tree certificate differs from the view") else
  _ ← map_err ViewSeal (check_seal_shape (unicity_seal enclosing));
  Ok tree.

(** ** Authentication *)

Definition pins_digest (pins : option PartitionTopology) : bytes :=
  match pins with Some p => val (topology_digest p) | None => val (fit 32 []) end.

Definition pinned (pins : option PartitionTopology) : bytes := [if pins then n2b 1 else n2b 0].

(** b"unicity-token/view-policy/v1" *)
Definition POLICY_DOMAIN : bytes := n2b <$> [
    117; 110; 105; 99; 105; 116; 121; 45; 116; 111; 107; 101; 110; 47; 118; 105; 101; 119; 45; 112; 111;
    108; 105; 99; 121; 47; 118; 49].

Definition view_policy (pins : option PartitionTopology) : arr 32 :=
  fit 32 (DataHash.data (DataHasher.finalize (foldl DataHasher.update (InnerSha256 [])
    [POLICY_DOMAIN; be_bytes 4 (val AGGREGATION_PARTITION_ID); pinned pins; pins_digest pins]))).

(** b"unicity-token/authenticated-view/v1" *)
Definition IDENTITY_DOMAIN : bytes := n2b <$> [
    117; 110; 105; 99; 105; 116; 121; 45; 116; 111; 107; 101; 110; 47; 97; 117; 116; 104; 101; 110; 116;
    105; 99; 97; 116; 101; 100; 45; 118; 105; 101; 119; 47; 118; 49].

Definition view_identity (authority_identity : arr 32) (pins : option PartitionTopology) (seal : UnicitySeal) : arr 32 :=
  let seal_bytes := to_cbor seal in
  fit 32 (DataHash.data (DataHasher.finalize (foldl DataHasher.update (InnerSha256 [])
    [IDENTITY_DOMAIN; val authority_identity; be_bytes 4 (val AGGREGATION_PARTITION_ID); pins_digest pins; pinned pins;
     be_bytes 8 (len seal_bytes); seal_bytes]))).

(** The topology of the candidate itself, when the caller pins none. *)
Definition candidate_topology (self : PartitionView) : PartitionTopology :=
  let ids := PartitionViewLeaf.shard_id <$> view_leaves self in
  topology_new (match ids with
                | [id] => if slength (val id) =? 0 then [] else ids
                | _ => ids
                end).

Definition authenticate_with {S} `{SealAuthenticator S} (self : PartitionView) (enclosing : UnicityCertificate)
    (pins : option PartitionTopology) (identity : arr 32) : M S PartitionViewError AuthenticatedView :=
  topology ← liftM (match pins with
                    | Some pinned => Ok pinned
                    | None => _ ← check_bounds self; Ok (candidate_topology self)
                    end);
  tree ← liftM (verify_tree self enclosing topology);
  let policy := view_policy pins in
  _ ← map_errM ViewSeal (authenticate_under (unicity_seal enclosing) policy);
  mret {|
    av_partition_id := partition_id self;
    av_leaves := view_leaves self;
    av_tree := tree;
    av_unicity_tree_certificate := unicity_tree_certificate enclosing;
    av_seal := unicity_seal enclosing;
    av_policy := policy;
    av_identity := view_identity identity pins (unicity_seal enclosing);
  |}.

Definition authenticate (self : PartitionView) (enclosing : UnicityCertificate) (pins : option PartitionTopology) :
    M SealSession PartitionViewError AuthenticatedView := fun authority =>
  authenticate_with self enclosing pins (authority_identity authority) authority.

(** ** Assembly *)

Definition derive (self : AuthenticatedView) (i : nat) : vresult ShardCertificate :=
  leaf ← or_panic (av_leaves self !! i);
  c ← certificate (av_tree self) (PartitionViewLeaf.shard_id leaf);
  Ok {|
    sc_shard_id := PartitionViewLeaf.shard_id leaf;
    sc_shard_tree_certificate := c;
    sc_certificate := Some {|
      input_record := PartitionViewInputRecord.to_input_record (PartitionViewLeaf.input_record leaf);
      technical_record_hash := Some (PartitionViewLeaf.tr_hash leaf);
      shard_configuration_hash := PartitionViewLeaf.shard_conf_hash leaf;
      shard_tree_certificate := c;
      unicity_tree_certificate := av_unicity_tree_certificate self;
      unicity_seal := av_seal self;
    |};
  |}.

Definition certificates (self : AuthenticatedView) : vresult (list ShardCertificate) :=
  mapO (derive self) (seq 0 (length (av_leaves self))).

(** The search in canonical order that [leaf_of] and [certificate_of] share. *)
Definition leaf_index (self : AuthenticatedView) (shard : ShardId) : option nat :=
  binary_search_by (fun l => canonical_cmp (PartitionViewLeaf.shard_id l) shard) (av_leaves self).

Definition leaf_of (self : AuthenticatedView) (shard : ShardId) : option PartitionViewLeaf :=
  i ← leaf_index self shard; av_leaves self !! i.

Definition certificate_of (self : AuthenticatedView) (shard : ShardId) : vresult ShardCertificate :=
  i ← ok_or (LeafSetMismatch "shard is not in the view") (leaf_index self shard);
  derive self i.

Definition require_conf_hash (topology : PartitionTopology) (id : ShardId) : vresult unit :=
  if shard_conf_hash topology id then Ok tt else Err ConfigHashRequired.

Definition assemble_certificates {S} `{SealAuthenticator S} (self : PartitionView) (enclosing : UnicityCertificate)
    (topology : PartitionTopology) : M S PartitionViewError (list ShardCertificate) :=
  order ← liftM (canonical_order topology);
  _ ← liftM (mapO (require_conf_hash topology) order);
  view ← authenticate_with self enclosing (Some topology) (fit 32 []);
  liftM (certificates view).

End assemble.
