(* ===== verification/AssembleSpec.v ===== *)
(** What an authenticated partition view guarantees: its leaves hash, through the
    rebuilt shard tree and the partition path, into a seal that the authority's
    validators signed, so every certificate derived from it is one the verifier
    accepts, and the enclosing certificate is one of them. *)

From stdpp Require Import sorting.
From S2P Require Import Prelude State Bytes Error Cbor Hash Codec Radix ShardId ShardOps Search VerificationError Bft BftCodec BftSpec Secp Predicates TrustBase Seal SealSpec Verify VerifySpec Topology ShardTree ViewCodec Assemble.
Local Open Scope N_scope.

Section view.
Context `{Sha2} `{K256}.

(** ** Structure *)

(** The pinned configuration hash of a leaf's shard, if any, is the leaf's. *)
Definition pin_matches (topology : PartitionTopology) (l : PartitionViewLeaf) : Prop :=
  forall h, shard_conf_hash topology (PartitionViewLeaf.shard_id l) = Some h -> val h = PartitionViewLeaf.shard_conf_hash l.

Lemma check_leaf_Ok topology l id : check_leaf topology (l, id) = Ok tt <->
  PartitionViewLeaf.shard_id l = id /\ pin_matches topology l.
Proof.
  unfold check_leaf, pin_matches. destruct (bool_decide_reflect (PartitionViewLeaf.shard_id l = id)) as [<-|Hne]; cbn [negb].
  - destruct (shard_conf_hash topology _) as [h|]; [|split; [intros _|]; done].
    destruct (bool_decide_reflect (val h = PartitionViewLeaf.shard_conf_hash l)); cbn [negb].
    + split; [intros _|done]. split; [done|]. by intros ? [= <-].
    + split; [done|]. intros [_ Hh]. by specialize (Hh _ eq_refl).
  - split; [done|]. by intros [? _].
Qed.

Lemma check_leaves_Ok topology ls : forall ids, length ls = length ids ->
  (exists us, mapO (check_leaf topology) (zip ls ids) = Ok us) <->
  PartitionViewLeaf.shard_id <$> ls = ids /\ Forall (pin_matches topology) ls.
Proof.
  induction ls as [|l ls IH]; intros [|id ids] Hl; try done.
  { split; [done|]. intros _. by exists []. }
  specialize (IH ids ltac:(simpl in Hl; lia)). cbn [zip zip_with mapO]. fold (zip ls ids). rewrite fmap_cons, Forall_cons. split.
  - intros [us E]. apply bind_Ok in E as ([] & Hc & E). apply bind_Ok in E as (us' & E & _).
    apply check_leaf_Ok in Hc as [-> Hp]. destruct IH as [IH _]. destruct IH as [-> Hps]; [by exists us'|]. done.
  - intros [[= Hid Hids] [Hp Hps]]. rewrite (proj2 (check_leaf_Ok topology l id)) by done. rewrite bind_Ok_l.
    destruct IH as [_ IH]. destruct IH as [us ->]; [done|]. rewrite bind_Ok_l. by eexists.
Qed.

(** A structurally valid view is one of the aggregation partition with exactly
    the shards of the topology, in canonical order, that respects the pins. *)
Lemma validate_structure_Ok v topology : validate_structure v topology = Ok tt <->
  check_bounds v = Ok tt /\ partition_id v = AGGREGATION_PARTITION_ID /\
  canonical_order topology = Ok (PartitionViewLeaf.shard_id <$> view_leaves v) /\
  Forall (pin_matches topology) (view_leaves v).
Proof.
  unfold validate_structure. split.
  - intros E. apply bind_Ok in E as ([] & Hb & E).
    destruct (bool_decide_reflect (partition_id v = AGGREGATION_PARTITION_ID)); [|done]. cbn [negb] in E.
    apply bind_Ok in E as (order & Ho & E). destruct (Nat.eqb_spec (length (view_leaves v)) (length order)) as [Hl|]; [|done].
    cbn [negb] in E. apply bind_Ok in E as (us & Hc & _).
    destruct (proj1 (check_leaves_Ok topology _ _ Hl)) as [Hids Hp]; [by eexists|]. by rewrite Ho, <- Hids.
  - intros (-> & -> & -> & Hp). rewrite bind_Ok_l, bool_decide_eq_true_2 by done. cbn [negb]. rewrite bind_Ok_l, length_fmap, Nat.eqb_refl.
    cbn [negb]. destruct (proj2 (check_leaves_Ok topology (view_leaves v) (PartitionViewLeaf.shard_id <$> view_leaves v) ltac:(by rewrite length_fmap)))
      as [us ->]; [done|]. by rewrite bind_Ok_l.
Qed.

Abbreviation pairs l := (leaf_pair <$> l).

Lemma pairs_shards (ls : list PartitionViewLeaf) : fst <$> pairs ls = PartitionViewLeaf.shard_id <$> ls.
Proof. by rewrite <- list_fmap_compose. Qed.

(** The invariant of [AuthenticatedView], apart from its signatures. *)
Record view_ok (av : AuthenticatedView) : Prop := {
  vo_tree : exists t, shape [] (pairs (av_leaves av)) t /\ av_tree av = tree_of (pairs (av_leaves av)) t /\
    DataHash.data (compute_root_hash (av_unicity_tree_certificate av) (tree_hash t)) = seal_hash (av_seal av);
  vo_partition : partition_identifier (av_unicity_tree_certificate av) = AGGREGATION_PARTITION_ID;
  vo_leaves : Forall (fun l => PartitionViewLeaf.check l = Ok tt) (av_leaves av);
  vo_count : 1 <= len (av_leaves av) <= MAX_PARTITION_VIEW_LEAVES;
  vo_seal : check_seal_shape (av_seal av) = Ok tt;
}.

Definition view_of (v : PartitionView) (enclosing : UnicityCertificate) (tree : ShardTree) (policy identity : arr 32) : AuthenticatedView := {|
  av_partition_id := partition_id v; av_leaves := view_leaves v; av_tree := tree;
  av_unicity_tree_certificate := unicity_tree_certificate enclosing; av_seal := unicity_seal enclosing;
  av_policy := policy; av_identity := identity |}.

Lemma small_leaves (ls : list PartitionViewLeaf) : len ls <= MAX_PARTITION_VIEW_LEAVES -> 2 * len (pairs ls) < 2 ^ 32.
Proof. unfold len, MAX_PARTITION_VIEW_LEAVES. rewrite length_fmap. lia. Qed.

(** What the enclosing certificate's own leaf must be. *)
Definition own_leaf (enclosing : UnicityCertificate) (l : PartitionViewLeaf) : Prop :=
  PartitionViewLeaf.shard_id l = shard (shard_tree_certificate enclosing) /\
  PartitionViewLeaf.shard_conf_hash l = shard_configuration_hash enclosing /\
  technical_record_hash enclosing = Some (PartitionViewLeaf.tr_hash l) /\
  PartitionViewLeaf.input_record l = PartitionViewInputRecord.from_input_record (input_record enclosing).

Lemma find_Some {A} (p : A -> bool) l x : List.find p l = Some x -> exists i, l !! i = Some x /\ p x = true.
Proof. intros [Hin Hp]%List.find_some. apply list_elem_of_In, list_elem_of_lookup in Hin as [i Hi]. by exists i. Qed.

Lemma verify_tree_Ok v enclosing topology tree policy identity : verify_tree v enclosing topology = Ok tree ->
  validate_structure v topology = Ok tt /\ view_ok (view_of v enclosing tree policy identity) /\
  exists i l, view_leaves v !! i = Some l /\ own_leaf enclosing l /\
    certificate tree (PartitionViewLeaf.shard_id l) = Ok (shard_tree_certificate enclosing).
Proof.
  unfold verify_tree, build_shard_tree. intros E. apply bind_Ok in E as (tree' & Eb & E).
  apply bind_Ok in Eb as ([] & Hv & Eb).
  pose proof Hv as (Hb & _)%validate_structure_Ok. apply check_bounds_Ok in Hb as (_ & Hn & Hl).
  destruct (build_inv _ _ Eb) as [t Ht]. pose proof (small_leaves _ (proj2 Hn)) as Hsm.
  rewrite (build_lays_out _ _ Ht Hsm) in Eb. injection Eb as <-.
  destruct (bool_decide_reflect (partition_identifier (unicity_tree_certificate enclosing) = AGGREGATION_PARTITION_ID)) as [Hp|]; [|done].
  cbn [negb] in E. rewrite (root_hash_spec _ _ Ht Hsm), bind_Ok_l in E.
  destruct (bool_decide_reflect (DataHash.data (compute_root_hash (unicity_tree_certificate enclosing) (tree_hash t)) =
    seal_hash (unicity_seal enclosing))) as [Hs|]; [|done].
  cbn [negb] in E. apply bind_Ok in E as (l & Hf & E). apply ok_or_Ok, find_Some in Hf as (i & Hi & Hid%bool_decide_eq_true).
  destruct (bool_decide_reflect (shard_configuration_hash enclosing = PartitionViewLeaf.shard_conf_hash l)); [|done].
  destruct (bool_decide_reflect (technical_record_hash enclosing = Some (PartitionViewLeaf.tr_hash l))); [|done].
  destruct (bool_decide_reflect (PartitionViewInputRecord.from_input_record (input_record enclosing) = PartitionViewLeaf.input_record l)); [|done].
  cbn [negb] in E. apply bind_Ok in E as (c & Ec & E).
  destruct (bool_decide_reflect (sibling_hash_list c = sibling_hash_list (shard_tree_certificate enclosing))) as [Hsib|]; [|done].
  cbn [negb] in E. apply bind_Ok in E as ([] & Hseal%map_err_Ok & [= <-]). split; [done|]. split.
  - constructor; cbn [view_of av_leaves av_tree av_unicity_tree_certificate av_seal]; try done. by exists t.
  - exists i, l. split; [done|]. split; [by split_and!|]. rewrite Hid, Ec. f_equal.
    assert (pairs (view_leaves v) !! i = Some (leaf_pair l)) as Hpi by (by rewrite list_lookup_fmap, Hi).
    destruct (certificate_spec _ _ Ht Hsm i _ _ Hpi) as (sibs & _ & Ec'). rewrite Hid, Ec in Ec'. injection Ec' as ->.
    simpl in Hsib |- *. destruct (shard_tree_certificate enclosing). by simpl in *; subst.
Qed.

(** ** Certificates *)

Lemma view_record_to_cbor r :
  PartitionViewInputRecord.to_cbor r = to_cbor (PartitionViewInputRecord.to_input_record r).
Proof. reflexivity. Qed.

Lemma record_check_body r (c : UnicityCertificate) : PartitionViewInputRecord.check r = Ok tt ->
  input_record c = PartitionViewInputRecord.to_input_record r ->
  length <$> technical_record_hash c = Some 32%nat -> check_body c = Ok tt.
Proof.
  intros E Er Ht. unfold check_body. rewrite Er, Ht. unfold PartitionViewInputRecord.check in E.
  cbn [PartitionViewInputRecord.to_input_record round_number summary_value timestamp previous_hash hash block_hash].
  apply bind_Ok in E as (u & E1 & E). cbv zeta in E.
  assert ((if negb (val (PartitionViewInputRecord.round_number r) =? 0)
           then match PartitionViewInputRecord.summary_value r with
                | Some _ => if val (PartitionViewInputRecord.timestamp r) =? 0 then Err "timestamp is unassigned"%string else Ok tt
                | None => Err "summary value is nil"%string end
           else Ok tt) = Ok tt) as Hr.
  { destruct (negb _); [|done]. destruct (PartitionViewInputRecord.summary_value r); [|done].
    rewrite bool_decide_eq_false_2 in E1 by done. by destruct (_ =? 0). }
  rewrite Hr, bind_Ok_l. do 2 (destruct (_ && _); [done|]). by rewrite bool_decide_eq_true_2.
Qed.

(** The certificate of a leaf. *)
Definition leaf_certificate (av : AuthenticatedView) (l : PartitionViewLeaf) (c : ShardTreeCertificate) : UnicityCertificate := {|
  input_record := PartitionViewInputRecord.to_input_record (PartitionViewLeaf.input_record l);
  technical_record_hash := Some (PartitionViewLeaf.tr_hash l);
  shard_configuration_hash := PartitionViewLeaf.shard_conf_hash l;
  shard_tree_certificate := c;
  unicity_tree_certificate := av_unicity_tree_certificate av;
  unicity_seal := av_seal av |}.

(** A leaf's certificate climbs from its own hash to the seal. *)
Lemma leaf_certificate_seal av i l : view_ok av -> av_leaves av !! i = Some l ->
  exists c, certificate (av_tree av) (PartitionViewLeaf.shard_id l) = Ok c /\ shard c = PartitionViewLeaf.shard_id l /\
    check_body (leaf_certificate av l c) = Ok tt /\
    exists h, computed_seal_hash (leaf_certificate av l c) = Ok h /\ DataHash.data h = seal_hash (av_seal av).
Proof.
  intros [(t & Ht & Etree & Hs) Hp Hl Hn _] Hi. pose proof (small_leaves _ (proj2 Hn)) as Hsm.
  assert (pairs (av_leaves av) !! i = Some (leaf_pair l)) as Hpi by (by rewrite list_lookup_fmap, Hi).
  destruct (certificate_spec _ _ Ht Hsm i _ _ Hpi) as (sibs & Hpath & Ec). rewrite <- Etree in Ec.
  eexists. split; [exact Ec|]. split; [done|]. rewrite Forall_lookup in Hl.
  pose proof (leaf_check_Ok _ _ (Hl _ _ Hi)) as (_ & Hr & Htr & _). split.
  { eapply record_check_body; [exact Hr|done|]. simpl. f_equal. unfold len in Htr. lia. }
  unfold computed_seal_hash. rewrite shard_tree_root_hash_eq. cbn [leaf_certificate shard_tree_certificate sibling_hash_list shard].
  pose proof (path_hashes_length _ _ _ Hpath) as [_ Hlen].
  assert (len sibs = slength (val (PartitionViewLeaf.shard_id l))) as -> by (rewrite length_to_bits in Hlen; unfold len; lia).
  rewrite N.eqb_refl. cbn [negb].
  destruct (certificate_folds _ _ _ Ht i _ _ _ sibs (items_digest (shard_leaf (leaf_certificate av l
    {| shard := PartitionViewLeaf.shard_id l; sibling_hash_list := sibs |}))) Hpi eq_refl Hpath) as (r & -> & Er).
  { unfold leaf_pair, PartitionViewLeaf.leaf_hash. by rewrite finalize_items, view_record_to_cbor. }
  rewrite bind_Ok_l. eexists. split; [done|]. by rewrite Er.
Qed.

Lemma derive_spec av i l : view_ok av -> av_leaves av !! i = Some l ->
  exists c, certificate (av_tree av) (PartitionViewLeaf.shard_id l) = Ok c /\
    derive av i = Ok {| sc_shard_id := PartitionViewLeaf.shard_id l; sc_shard_tree_certificate := c;
                        sc_certificate := Some (leaf_certificate av l c) |}.
Proof.
  intros Hv Hi. destruct (leaf_certificate_seal _ _ _ Hv Hi) as (c & Ec & _). exists c. split; [done|].
  unfold derive. rewrite Hi. cbn [or_panic]. by rewrite bind_Ok_l, Ec, bind_Ok_l.
Qed.

Lemma view_ordered av : view_ok av -> StronglySorted separated (paths (PartitionViewLeaf.shard_id <$> av_leaves av)).
Proof.
  intros [(t & Ht & _) _ _ _ _]. rewrite <- pairs_shards. by eapply tiles_separated, shape_tiles.
Qed.

(** [leaf_of] and [certificate_of] find every shard of the view. *)
Lemma leaf_index_spec av i l : view_ok av -> av_leaves av !! i = Some l ->
  leaf_index av (PartitionViewLeaf.shard_id l) = Some i.
Proof. intros Hv Hi. unfold leaf_index. by apply (search_shard _ _ (view_ordered _ Hv)). Qed.

Lemma certificate_of_spec av i l : view_ok av -> av_leaves av !! i = Some l ->
  leaf_of av (PartitionViewLeaf.shard_id l) = Some l /\ certificate_of av (PartitionViewLeaf.shard_id l) = derive av i.
Proof.
  intros Hv Hi. unfold leaf_of, certificate_of. rewrite (leaf_index_spec _ _ _ Hv Hi). cbn [ok_or].
  by rewrite bind_Ok_l.
Qed.

Lemma certificates_total av : view_ok av ->
  exists cs, certificates av = Ok cs /\ sc_shard_id <$> cs = PartitionViewLeaf.shard_id <$> av_leaves av /\
    forall i c, cs !! i = Some c -> derive av i = Ok c.
Proof.
  intros Hv. unfold certificates. assert (exists cs, mapO (derive av) (seq 0 (length (av_leaves av))) = Ok cs) as [cs Hcs].
  { assert (forall ks, Forall (fun i => i < length (av_leaves av))%nat ks -> exists cs, mapO (derive av) ks = Ok cs) as G.
    { induction 1 as [|i ks Hi _ [cs IH]]; [by eexists|]. destruct (lookup_lt_is_Some_2 _ _ Hi) as [l Hl].
      destruct (derive_spec _ _ _ Hv Hl) as (c & _ & Hd). cbn [mapO]. rewrite Hd, bind_Ok_l, IH. by eexists. }
    apply G, Forall_forall. intros i Hi. apply elem_of_seq in Hi. lia. }
  exists cs. split; [done|]. apply mapO_Forall2 in Hcs.
  assert (forall i c, cs !! i = Some c -> derive av i = Ok c) as Hd.
  { intros i c Hc. destruct (Forall2_lookup_r _ _ _ _ _ Hcs Hc) as (j & Hj & Hd). apply lookup_seq in Hj as [-> _]. exact Hd. }
  split; [|done]. apply Forall2_length in Hcs. rewrite length_seq in Hcs. apply list_eq. intros i. rewrite !list_lookup_fmap.
  destruct (cs !! i) as [c|] eqn:Ec.
  - apply lookup_lt_Some in Ec as Hi. destruct (lookup_lt_is_Some_2 (av_leaves av) i) as [l Hl]; [lia|]. rewrite Hl.
    destruct (derive_spec _ _ _ Hv Hl) as (c' & _ & Hd'). rewrite (Hd _ _ Ec) in Hd'. by injection Hd' as ->.
  - apply lookup_ge_None in Ec. by rewrite (proj2 (lookup_ge_None (av_leaves av) i)) by lia.
Qed.

(** ** Authentication *)

(** Every certificate derived from the view is accepted once its seal is. *)
Lemma derived_accepted tb av i l : view_ok av -> seal_verdict tb (av_seal av) = Ok tt -> av_leaves av !! i = Some l ->
  exists c, derive av i = Ok {| sc_shard_id := PartitionViewLeaf.shard_id l; sc_shard_tree_certificate := shard_tree_certificate c;
                                sc_certificate := Some c |} /\
    shard (shard_tree_certificate c) = PartitionViewLeaf.shard_id l /\ unicity_seal c = av_seal av /\ uc_verdict tb c = Ok tt.
Proof.
  intros Hv Hs Hi. destruct (leaf_certificate_seal _ _ _ Hv Hi) as (c & Ec & Eshard & Hbody & h & Hh & Eh).
  destruct (derive_spec _ _ _ Hv Hi) as (c' & Ec' & Hd). rewrite Ec in Ec'. injection Ec' as <-.
  exists (leaf_certificate av l c). do 2 (split; [done|]). split; [done|]. unfold uc_verdict.
  apply seal_verdict_inv in Hs as (Hshape & Hn & Hq & _). cbn [leaf_certificate unicity_tree_certificate unicity_seal].
  rewrite bool_decide_eq_true_2 by apply Hv. cbn [negb]. rewrite Hbody. cbn [map_err].
  rewrite bind_Ok_l, Hshape, bind_Ok_l, bool_decide_eq_true_2 by done. cbn [negb]. rewrite Hh. cbn [map_err].
  rewrite bind_Ok_l, bool_decide_eq_true_2 by done. exact Hq.
Qed.

Context (K : UnicitySeal -> Prop) (R : RootTrustBase -> arr 32 -> UnicityCertificate -> Prop).

(** A successful authentication: the view is consistent, its seal is accepted,
    pins are enforced, and the enclosing certificate is the one of its shard. *)
Lemma authenticate_inv tb s v enclosing pins av s' : session_of K R tb s -> K (unicity_seal enclosing) -> wf (unicity_seal enclosing) ->
  authenticate v enclosing pins s = (Ok av, s') ->
  session_of K R tb s' /\
  (memo_clash K tb \/
   view_ok av /\ av_leaves av = view_leaves v /\ av_seal av = unicity_seal enclosing /\ seal_verdict tb (av_seal av) = Ok tt /\
   (forall p, pins = Some p -> validate_structure v p = Ok tt) /\
   exists i l, av_leaves av !! i = Some l /\ PartitionViewLeaf.shard_id l = shard (shard_tree_certificate enclosing) /\
     derive av i = Ok {| sc_shard_id := PartitionViewLeaf.shard_id l;
                         sc_shard_tree_certificate := shard_tree_certificate enclosing; sc_certificate := Some enclosing |}).
Proof.
  intros Hs HK Hw E. unfold authenticate, authenticate_with in E.
  apply bindM_Ok in E as (topology & s1 & (Et & ->)%liftM_Ok & E).
  apply bindM_Ok in E as (tree & s1 & (Ev & ->)%liftM_Ok & E).
  apply bindM_Ok in E as ([] & s1 & Ea & E). injection E as <- <-. unfold map_errM in Ea.
  destruct (authenticate_seal_transparent K R tb s (unicity_seal enclosing) (view_policy pins) Hs HK Hw) as [Hverdict Hs1].
  change (authenticate_under (unicity_seal enclosing) (view_policy pins) s)
    with (authenticate_seal_under (unicity_seal enclosing) (view_policy pins) s) in Ea.
  destruct (authenticate_seal_under _ _ s) as [r s2]. injection Ea as Er <-. simpl in Hs1, Hverdict.
  split; [done|]. apply map_err_Ok in Er as ->. destruct Hverdict as [Hverdict|]; [right|by left].
  destruct (verify_tree_Ok _ _ _ _ (view_policy pins) (view_identity (authority_identity s) pins (unicity_seal enclosing)) Ev)
    as (Hstruct & Hok & i & l & Hi & (Eid & Econf & Etr & Eir) & Ec).
  split; [exact Hok|]. do 2 (split; [done|]). split; [done|]. split.
  { intros p ->. simpl in Et. injection Et as ->. exact Hstruct. }
  exists i, l. split; [exact Hi|]. split; [done|]. destruct (derive_spec _ i l Hok Hi) as (c & Ec' & Hd).
  cbn [view_of av_tree] in Ec'. rewrite Ec in Ec'. injection Ec' as <-. refine (eq_trans Hd _). do 3 f_equal.
  unfold leaf_certificate. cbn [view_of av_unicity_tree_certificate av_seal]. rewrite Econf, <- Etr, Eir.
  destruct enclosing as [ir ? ? ? ? ?]. simpl. f_equal. by destruct ir.
Qed.

Theorem view_certificates tb s v enclosing pins av s' : session_of K R tb s -> K (unicity_seal enclosing) -> wf (unicity_seal enclosing) ->
  authenticate v enclosing pins s = (Ok av, s') ->
  memo_clash K tb \/
  exists cs, certificates av = Ok cs /\
    sc_shard_id <$> cs = PartitionViewLeaf.shard_id <$> view_leaves v /\
    (forall sc, sc ∈ cs -> exists c, sc_certificate sc = Some c /\ shard (shard_tree_certificate c) = sc_shard_id sc /\
       unicity_seal c = unicity_seal enclosing /\ uc_verdict tb c = Ok tt) /\
    exists sc, sc ∈ cs /\ sc_certificate sc = Some enclosing.
Proof.
  intros Hs HK Hw E. apply (authenticate_inv tb) in E as [_ [|(Hv & El & Es & Hq & _ & i & l & Hi & _ & Hd)]]; [by left|right|done..].
  destruct (certificates_total _ Hv) as (cs & Hcs & Hids & Hder). exists cs. split; [done|]. split; [by rewrite Hids, El|]. split.
  - intros sc [j Hj]%list_elem_of_lookup. apply Hder in Hj as Hdj. unfold derive in Hdj.
    apply bind_Ok in Hdj as (lj & Hlj%or_panic_Ok & _). destruct (derived_accepted tb _ _ _ Hv Hq Hlj) as (c & Hdc & Hsh & Hseal & Hok).
    rewrite (Hder _ _ Hj) in Hdc. injection Hdc as ->. exists c. rewrite Hsh, Hseal, Es. done.
  - apply (f_equal length) in Hids. rewrite !length_fmap in Hids. apply lookup_lt_Some in Hi as Hlt.
    destruct (lookup_lt_is_Some_2 cs i) as [sc Hsc]; [lia|]. exists sc. split; [by eapply list_elem_of_lookup_2|].
    apply Hder in Hsc. rewrite Hd in Hsc. by injection Hsc as <-.
Qed.
End view.
