(* ===== verification/Plan.v ===== *)
(** Planning and checked reconstruction for proof consolidation:
    [src/consolidation/plan.rs].

    [route_spec]: every state id has exactly one shard and the router finds it;
    [from_proofs_sound]: a round bound is the newest round among proofs that were
    all verified; [rebuild_spec]: rebuilding replaces proofs and nothing else. *)

From stdpp Require Import sorting.
From S2P Require Import Prelude State Bytes Error Cbor Hash Codec CodecFacts Radix ShardId ShardOps Search Ids Bft BftCodec Certificates VerificationError Secp Predicates TrustBase Seal SealSpec Proofs Transactions TransactionsSpec Verify VerifySpec Topology.
Local Open Scope N_scope.

(** * Routing *)

Record ShardRouter : Type := { shards : list ShardId }.

Definition router_new (topology : PartitionTopology) : vresult ShardRouter :=
  order ← canonical_order topology;
  Ok {| shards := order |}.

Definition route_index (self : ShardRouter) (state_id : StateId) : nat :=
  default 0%nat (binary_search_by (fun s => cmp_prefix_of_key s (val (sid_bytes state_id))) (shards self)).

(** [&self.shards[..]] *)
Definition route {E} (self : ShardRouter) (state_id : StateId) : outcome E ShardId :=
  or_panic (shards self !! route_index self state_id).

(** Over a separated list the comparison is decided by the side of the match. *)
Lemma prefix_search (l : list ShardId) m (s : ShardId) key : StronglySorted separated (paths l) -> l !! m = Some s ->
  starts (bits_of s) (key_bits key) -> binary_search_by (fun t => cmp_prefix_of_key t key) l = Some m.
Proof.
  intros Hl Hm Hs.
  assert (forall i t, l !! i = Some t -> cmp_prefix_of_key t key = (i ?= m)%nat) as Hcmp.
  { intros i t Hi. rewrite cmp_prefix_of_key_spec. destruct (Nat.compare_spec i m) as [->|Him|Him].
    - assert (t = s) as -> by congruence. by apply key_cmp_Eq.
    - destruct (StronglySorted_lookup _ _ i m (bits_of t) (bits_of s) Hl) as [Hc Hp]; [by rewrite list_lookup_fmap, Hi|by rewrite list_lookup_fmap, Hm|done|].
      by eapply key_cmp_below.
    - destruct (StronglySorted_lookup _ _ m i (bits_of s) (bits_of t) Hl) as [Hc Hp]; [by rewrite list_lookup_fmap, Hm|by rewrite list_lookup_fmap, Hi|done|].
      eapply key_cmp_above; [|exact Hp|exact Hs]. by rewrite bits_cmp_antisym, Hc. }
  apply (binary_search_by_unique _ _ m s); [|done| |].
  - intros i j x y Hi Hj Hij. rewrite (Hcmp _ _ Hi), (Hcmp _ _ Hj), !Nat.compare_gt_iff, !Nat.compare_lt_iff. lia.
  - by rewrite (Hcmp _ _ Hm), Nat.compare_refl.
  - intros j y Hj E. rewrite (Hcmp _ _ Hj) in E. by apply Nat.compare_eq_iff in E.
Qed.

Definition router_ok (r : ShardRouter) : Prop :=
  tiles [] (paths (shards r)) /\ Forall (fun s : ShardId => slength (val s) <= MAX_PARTITION_VIEW_SHARD_ID_BITS) (shards r).

Lemma router_new_ok topology r : router_new topology = Ok r -> router_ok r.
Proof.
  unfold router_new. intros (order & (Ht & _ & _ & Hl)%canonical_order_tiles & [= <-])%bind_Ok. by split.
Qed.

(** A state id routes to the one shard that is a bit prefix of it. *)
Lemma route_spec {E} r state_id : router_ok r ->
  exists s, @route E r state_id = Ok s /\ shards r !! route_index r state_id = Some s /\
    is_prefix_of s (val (sid_bytes state_id)) = true /\
    forall t, t ∈ shards r -> is_prefix_of t (val (sid_bytes state_id)) = true -> t = s.
Proof.
  intros [Ht Hl]. destruct (tiles_route _ _ (key_bits (val (sid_bytes state_id))) Ht (starts_nil _)) as (m & x & Hm & Hx & Hu).
  rewrite list_lookup_fmap in Hm. destruct (shards r !! m) as [s|] eqn:Es; [|done]. injection Hm as <-.
  pose proof (prefix_search _ _ _ _ (tiles_separated _ _ Ht) Es Hx) as Hsearch.
  assert (route_index r state_id = m) as Hr by (unfold route_index; by rewrite Hsearch).
  exists s. unfold route. rewrite Hr, Es. rewrite Forall_lookup in Hl.
  assert (forall i t, shards r !! i = Some t -> slength (val t) <= 8 * len (val (sid_bytes state_id))) as Hlen.
  { intros i t Hi. rewrite arr_len. specialize (Hl _ _ Hi). unfold MAX_PARTITION_VIEW_SHARD_ID_BITS in Hl. simpl. lia. }
  do 2 (split; [done|]). split; [apply is_prefix_of_key; [by eapply Hlen|done]|].
  intros t [i Hi]%list_elem_of_lookup Hp. apply is_prefix_of_key in Hp; [|by eapply Hlen].
  assert (i = m) as ->; [|congruence]. apply (Hu i (bits_of t)); [by rewrite list_lookup_fmap, Hi|done].
Qed.

Section plan.
Context `{Sha2} `{K256}.

(** * Outer history *)

Record OuterProof : Type := { op_index : nat; op_state_id : StateId; op_proof : InclusionProof }.

Definition outer_proofs (token : Token) : list OuterProof :=
  {| op_index := 0;
     op_state_id := StateId_derive (lock_script (cm_transaction (genesis token))) (source_state_hash (cm_transaction (genesis token)));
     op_proof := cm_inclusion_proof (genesis token) |} ::
  imap (fun i t => {|
    op_index := i + 1;
    op_state_id := StateId_derive (lock_script (ct_transaction t)) (source_state_hash (ct_transaction t));
    op_proof := ct_inclusion_proof t |}) (transactions token).

(** The set of complete seal encodings, a [BTreeSet]. *)
Definition distinct_seals (proofs : list InclusionProof) : N :=
  len (foldl (fun seen p => btree_insert (to_cbor (unicity_seal (unicity_certificate p))) tt seen) [] proofs).

(** * The round bound *)

Record RootRoundBound : Type := { bound_round : u64; bound_shard : ShardId }.

(** The newest round so far: a later proof must be strictly newer to replace it. *)
Definition newest (best : option (u64 * nat)) (e : InclusionProof * nat) : option (u64 * nat) :=
  let round := root_chain_round_number (unicity_seal (unicity_certificate (fst e))) in
  match best with
  | Some (r, _) => if val r <? val round then Some (round, snd e) else best
  | None => Some (round, snd e)
  end.

Definition from_routed (router : ShardRouter) (evidence : list (InclusionProof * nat)) : verdict RootRoundBound :=
  '(round, shard) ← ok_or SealMalformed (foldl newest None evidence);
  s ← or_panic (shards router !! (shard : nat));
  Ok {| bound_round := round; bound_shard := s |}.

Definition from_proofs (router : ShardRouter) (evidence : list (StateId * InclusionProof)) : SessionM RootRoundBound :=
  _ ← forM_ (fun e => verify_membership_in (snd e) (fst e) (reference_time (snd e))) evidence;
  let routed := (fun e => (snd e, route_index router (fst e))) <$> evidence in
  liftM (from_routed router routed).

(** * Replacement *)

Definition replacement_proof (original served : InclusionProof) (uc : UnicityCertificate) : outcome string InclusionProof :=
  if negb (bool_decide (certification_data served = certification_data original))
  then Err "certification data differs from the original"%string else
  if negb (val (reference_time served) =? val (reference_time original))
  then Err "reference time differs from the original"%string else
  Ok {|
    certification_data := certification_data original;
    reference_time := reference_time original;
    inclusion_certificate := inclusion_certificate served;
    unicity_certificate := uc |}.

Definition rebuild_token (token : Token) (proofs : list InclusionProof) : outcome string Token :=
  if negb (length proofs =? 1 + length (transactions token))%nat
  then Err "one replacement proof per outer-history transaction is required"%string else
  first ← or_panic (proofs !! 0%nat);
  Ok {|
    genesis := {| cm_transaction := cm_transaction (genesis token); cm_inclusion_proof := first |};
    transactions := zip_with (fun t p => {| ct_transaction := ct_transaction t; ct_inclusion_proof := p |})
      (transactions token) (drop 1 proofs) |}.

(** * Distinct seals *)

Definition keys_ascending {V} (m : list (bytes * V)) : Prop := StronglySorted (fun a b => bytes_cmp a b = Lt) (fst <$> m).

Lemma btree_insert_elem {V} k (v : V) m x : x ∈ fst <$> btree_insert k v m <-> x = k \/ x ∈ fst <$> m.
Proof.
  induction m as [|[k' v'] m IH]; cbn [btree_insert]; [by rewrite fmap_cons, elem_of_cons|].
  destruct (bytes_cmp k k') eqn:E; rewrite !fmap_cons, !elem_of_cons; cbn [fst].
  - apply bytes_cmp_eq in E as ->. tauto.
  - tauto.
  - rewrite IH. tauto.
Qed.

Lemma btree_insert_ascending {V} k (v : V) m : keys_ascending m -> keys_ascending (btree_insert k v m).
Proof.
  unfold keys_ascending. induction m as [|[k' v'] m IH]; intros Hm; cbn [btree_insert]; [repeat constructor|].
  destruct (bytes_cmp k k') eqn:E; [by rewrite !fmap_cons in *| |]; rewrite !fmap_cons in *; cbn [fst] in *.
  - constructor; [done|]. apply StronglySorted_inv in Hm as [_ Hm]. constructor; [done|].
    eapply Forall_impl; [exact Hm|]. intros x. by apply bytes_cmp_trans.
  - apply StronglySorted_inv in Hm as [Hs Hm]. constructor; [by apply IH|]. apply Forall_forall.
    intros x [->|Hx]%btree_insert_elem; [by rewrite bytes_cmp_antisym, E|]. rewrite Forall_forall in Hm. by apply Hm.
Qed.

Lemma keys_ascending_NoDup {V} (m : list (bytes * V)) : keys_ascending m -> NoDup (fst <$> m).
Proof.
  unfold keys_ascending. induction 1 as [|x l _ IH Hx]; constructor; [|done]. intros Hin.
  rewrite Forall_forall in Hx. specialize (Hx x Hin). by rewrite bytes_cmp_refl in Hx.
Qed.

(** As many as there are different complete seals. *)
Lemma distinct_seals_spec proofs : Forall (fun p => wf (unicity_seal (unicity_certificate p))) proofs ->
  distinct_seals proofs = len (remove_dups ((fun p => unicity_seal (unicity_certificate p)) <$> proofs)).
Proof.
  intros Hw. unfold distinct_seals. set (seal p := unicity_seal (unicity_certificate p)).
  assert (forall acc, keys_ascending acc ->
    let m := foldl (fun seen p => btree_insert (to_cbor (seal p)) tt seen) acc proofs in
    keys_ascending m /\ forall x, x ∈ fst <$> m <-> x ∈ to_cbor <$> (seal <$> proofs) \/ x ∈ fst <$> acc) as G.
  { clear Hw. induction proofs as [|p ps IH]; intros acc Ha; [simpl; split; [done|set_solver]|].
    cbn [foldl]. destruct (IH (btree_insert (to_cbor (seal p)) tt acc)) as [H1 H2]; [by apply btree_insert_ascending|].
    split; [done|]. intros x. rewrite H2, btree_insert_elem, !fmap_cons, elem_of_cons. tauto. }
  destruct (G []) as [Ha Hel]; [constructor|]. unfold len. f_equal.
  rewrite <- (length_fmap fst), <- (length_fmap to_cbor (remove_dups (seal <$> proofs))). apply Permutation_length, NoDup_Permutation.
  - by apply keys_ascending_NoDup.
  - apply NoDup_fmap_2_strong; [|apply NoDup_remove_dups]. intros a b Ha' Hb E. rewrite elem_of_remove_dups in Ha', Hb.
    apply list_elem_of_fmap in Ha' as (p & -> & Hp), Hb as (q & -> & Hq). rewrite Forall_forall in Hw.
    pose proof (Hw _ Hp) as Hwp. apply to_cbor_inj in E; [done|done|by apply Hw|exact (proj2 Hwp)].
  - intros x. etransitivity; [apply Hel|]. rewrite !list_elem_of_fmap. setoid_rewrite elem_of_remove_dups. split; [intros [H1|(? & _ & H1%elem_of_nil)]; done|by left].
Qed.

(** * The bound *)

Definition seal_round (p : InclusionProof) : N := val (root_chain_round_number (unicity_seal (unicity_certificate p))).

Lemma lookup_snoc {A} (l : list A) x : (l ++ [x]) !! length l = Some x.
Proof. by apply list_lookup_middle. Qed.

(** The first of the newest pieces of evidence. *)
Definition first_newest (evidence : list (InclusionProof * nat)) (i : nat) (p : InclusionProof) : Prop :=
  fst <$> evidence !! i = Some p /\
  (forall j q, fst <$> evidence !! j = Some q -> seal_round q <= seal_round p) /\
  forall j q, (j < i)%nat -> fst <$> evidence !! j = Some q -> seal_round q < seal_round p.

Lemma newest_spec evidence : match foldl newest None evidence with
  | None => evidence = []
  | Some (round, shard) => exists i p, evidence !! i = Some (p, shard) /\ first_newest evidence i p /\
      round = root_chain_round_number (unicity_seal (unicity_certificate p))
  end.
Proof.
  induction evidence as [|[q k] evidence IH] using rev_ind; [done|]. rewrite foldl_snoc.
  destruct (foldl newest None evidence) as [[round shard]|]; cbn [newest fst snd].
  - destruct IH as (i & p & Hi & (Hp & Hmax & Hfirst) & ->). apply lookup_lt_Some in Hi as Hlt.
    destruct (N.ltb_spec (seal_round p) (seal_round q)) as [Hpq|Hpq]; unfold seal_round in Hpq;
      [rewrite (proj2 (N.ltb_lt _ _) Hpq)|rewrite (proj2 (N.ltb_ge _ _) Hpq)]; fold (seal_round p) (seal_round q) in Hpq.
    + exists (length evidence), q. rewrite lookup_snoc. split; [done|]. split; [|done]. unfold first_newest. rewrite lookup_snoc.
      assert (forall j r, fst <$> (evidence ++ [(q, k)]) !! j = Some r -> (j < length evidence)%nat -> seal_round r < seal_round q) as Hold.
      { intros j r Hj Hjl. rewrite lookup_app_l in Hj by done. specialize (Hmax _ _ Hj). lia. }
      split; [done|]. split; [|intros j r Hj Hr; by eapply Hold].
      intros j r Hr. destruct (Nat.lt_ge_cases j (length evidence)) as [Hj|Hj]; [specialize (Hold _ _ Hr Hj); lia|].
      rewrite lookup_app_r in Hr by done. apply fmap_Some in Hr as (e & [_ He]%list_lookup_singleton_Some & ->). by subst e.
    + exists i, p. unfold first_newest. rewrite !lookup_app_l by done. split; [done|]. split; [|done]. split; [done|].
      split; intros j r.
      * intros Hr. destruct (Nat.lt_ge_cases j (length evidence)) as [Hj|Hj].
        -- rewrite lookup_app_l in Hr by done. by eapply Hmax.
        -- rewrite lookup_app_r in Hr by done. apply fmap_Some in Hr as (e & [_ He]%list_lookup_singleton_Some & ->). by subst e.
      * intros Hj Hr. rewrite lookup_app_l in Hr by lia. by eapply Hfirst.
  - subst evidence. exists 0%nat, q. split; [done|]. split; [|done]. unfold first_newest. simpl. split; [done|].
    split; [|intros j r Hj; lia]. intros [|j] r Hr; [by injection Hr as <-|done].
Qed.

Lemma from_routed_spec r evidence b : from_routed r evidence = Ok b ->
  exists i p k, evidence !! i = Some (p, k) /\ first_newest evidence i p /\
    val (bound_round b) = seal_round p /\ shards r !! k = Some (bound_shard b).
Proof.
  unfold from_routed. pose proof (newest_spec evidence) as Hn. destruct (foldl newest None evidence) as [[round shard]|]; [|done].
  cbn [ok_or]. rewrite bind_Ok_l. destruct Hn as (i & p & Hi & Hf & ->). intros (s & Hs%or_panic_Ok & [= <-])%bind_Ok.
  by exists i, p, shard.
Qed.

Section session.
Context (lax : arr 32 -> Prop) (contexts : NonInclusionContext -> Prop) (K : UnicitySeal -> Prop).

Lemma answers_forM {A} tb bad (f : A -> SessionM unit) (r : A -> verdict unit) l :
  (forall a, a ∈ l -> answers lax contexts K tb bad (f a) (r a)) -> answers lax contexts K tb bad (forM_ f l) (_ ← mapO r l; Ok tt).
Proof.
  induction l as [|a l IH]; intros Hf; cbn [forM_ mapO].
  - apply answers_ret.
  - assert ((_ ← y ← r a; ys ← mapO r l; Ok (y :: ys); Ok tt) = (_ ← r a; _ ← mapO r l; Ok tt)) as ->.
    { destruct (r a); [|done..]. rewrite !bind_Ok_l. by destruct (mapO r l). }
    apply answers_bind; [apply Hf, list_elem_of_here|]. intros _ _. apply IH. intros b Hb. by apply Hf, list_elem_of_further.
Qed.

(** A bound computed in a session of [tb]: every proof passed the membership
    check, the round is that of the first of the newest seals, and the shard is
    the one that proof's state id routes to. *)
Lemma from_proofs_sound tb r evidence s b s' : session_of K (remembered lax contexts) tb s -> lax zero_policy -> router_ok r ->
  Forall (fun e => wf (unicity_certificate (snd e)) /\ K (unicity_seal (unicity_certificate (snd e)))) evidence ->
  from_proofs r evidence s = (Ok b, s') -> memo_clash K tb \/
  (Forall (fun e => membership_verdict tb (snd e) (fst e) (reference_time (snd e)) = Ok tt) evidence /\
   exists i id p, evidence !! i = Some (id, p) /\ val (bound_round b) = seal_round p /\
     (forall j e, evidence !! j = Some e -> seal_round (snd e) <= seal_round p) /\
     (forall j e, (j < i)%nat -> evidence !! j = Some e -> seal_round (snd e) < seal_round p) /\
     is_prefix_of (bound_shard b) (val (sid_bytes id)) = true).
Proof.
  intros Hs Hp Hr Hw E. unfold from_proofs in E. apply bindM_Ok in E as ([] & s1 & Ef & (Eb & _)%liftM_Ok).
  assert (answers lax contexts K tb (memo_clash K tb) (forM_ (fun e => verify_membership_in (snd e) (fst e) (reference_time (snd e))) evidence)
    (_ ← mapO (fun e => membership_verdict tb (snd e) (fst e) (reference_time (snd e))) evidence; Ok tt)) as Ha.
  { apply answers_forM. intros e He. rewrite Forall_forall in Hw. destruct (Hw e He) as [Hwe HKe]. by apply answers_membership. }
  destruct (Ha s Hs) as [[Hf _]|]; [right|by left]. rewrite Ef in Hf. simpl in Hf. symmetry in Hf.
  apply bind_Ok in Hf as (us & Hf%mapO_Forall2 & _). split.
  - apply Forall_lookup. intros i e Hi. by destruct (Forall2_lookup_l _ _ _ _ _ Hf Hi) as ([] & _ & Hv).
  - apply from_routed_spec in Eb as (i & p & k & Hi & (_ & Hmax & Hfirst) & Hround & Hshard).
    rewrite list_lookup_fmap in Hi. destruct (evidence !! i) as [[id q]|] eqn:Ei; [|done]. injection Hi as -> <-.
    exists i, id, p. split; [done|]. split; [done|]. split; [|split].
    + intros j e Hj. apply (Hmax j). by rewrite list_lookup_fmap, Hj.
    + intros j e Hji Hj. apply (Hfirst j); [done|]. by rewrite list_lookup_fmap, Hj.
    + destruct (@route_spec unit r id Hr) as (x & _ & Hx & Hpre & _). cbn [fst] in Hshard. congruence.
Qed.
End session.

(** * Rebuilding *)

Lemma replacement_proof_spec original served uc p : replacement_proof original served uc = Ok p <->
  certification_data served = certification_data original /\ reference_time served = reference_time original /\
  p = {| certification_data := certification_data original; reference_time := reference_time original;
         inclusion_certificate := inclusion_certificate served; unicity_certificate := uc |}.
Proof.
  unfold replacement_proof.
  destruct (bool_decide_reflect (certification_data served = certification_data original)) as [Ec|Hc]; cbn [negb]; [|naive_solver].
  destruct (N.eqb_spec (val (reference_time served)) (val (reference_time original))) as [Et|Ht]; cbn [negb].
  - apply val_inj in Et. naive_solver.
  - split; [done|]. intros (_ & E & _). by rewrite E in Ht.
Qed.

(** What the rebuild keeps of a token. *)
Definition same_history (t t' : Token) : Prop :=
  cm_transaction (genesis t') = cm_transaction (genesis t) /\
  ct_transaction <$> transactions t' = ct_transaction <$> transactions t.

Lemma outer_proofs_proofs t : op_proof <$> outer_proofs t = cm_inclusion_proof (genesis t) :: (ct_inclusion_proof <$> transactions t).
Proof. unfold outer_proofs. rewrite fmap_cons, fmap_imap. f_equal. apply imap_const. Qed.

Lemma outer_proofs_state_ids t : op_state_id <$> outer_proofs t =
  StateId_derive (lock_script (cm_transaction (genesis t))) (source_state_hash (cm_transaction (genesis t))) ::
  ((fun x => StateId_derive (lock_script x) (source_state_hash x)) <$> (ct_transaction <$> transactions t)).
Proof.
  unfold outer_proofs. rewrite fmap_cons, fmap_imap, <- list_fmap_compose. f_equal. apply imap_const.
Qed.

Lemma linked_map (ts ts' : list CertifiedTransferTransaction) : ct_transaction <$> ts' = ct_transaction <$> ts ->
  forall h l, linked h l ts -> linked h l ts'.
Proof.
  revert ts'. induction ts as [|t ts IH]; intros [|t' ts'] E h l Hl; try done. rewrite !fmap_cons in E. injection E as Et E.
  destruct Hl as (Hh & Hlock & Hl). cbn [linked]. unfold result_state_hash in *. rewrite Et. by split_and!; [| |apply IH].
Qed.

Abbreviation transfer t p := {| ct_transaction := ct_transaction t; ct_inclusion_proof := p |}.

Lemma rebuilt_transfers ts : forall ps, length ps = length ts ->
  ct_inclusion_proof <$> zip_with (fun t p => transfer t p) ts ps = ps /\
  ct_transaction <$> zip_with (fun t p => transfer t p) ts ps = ct_transaction <$> ts.
Proof.
  induction ts as [|t ts IH]; intros [|p ps] Hl; try done. injection Hl as Hl. destruct (IH ps Hl) as [H1 H2].
  cbn [zip_with]. rewrite !fmap_cons, H1, H2. done.
Qed.

Lemma transfers_rebuilt ts : forall ts', ct_transaction <$> ts' = ct_transaction <$> ts ->
  zip_with (fun t p => transfer t p) ts (ct_inclusion_proof <$> ts') = ts'.
Proof.
  induction ts as [|t ts IH]; intros [|t' ts'] E; try done. rewrite !fmap_cons in *. injection E as Et E.
  cbn [zip_with]. rewrite IH by done. f_equal. rewrite <- Et. by destruct t'.
Qed.

(** The rebuilt token carries the given proofs in [outer_proofs] order and the
    same transactions; nothing else does. *)
Lemma rebuild_spec t proofs t' : rebuild_token t proofs = Ok t' <->
  op_proof <$> outer_proofs t' = proofs /\ same_history t t'.
Proof.
  unfold rebuild_token, same_history. rewrite outer_proofs_proofs. split.
  - destruct (Nat.eqb_spec (length proofs) (1 + length (transactions t))) as [Hl|]; [|done]. cbn [negb].
    destruct proofs as [|p ps]; [done|]. cbn [lookup list_lookup or_panic]. rewrite bind_Ok_l. intros [= <-].
    injection Hl as Hl. cbn [drop] in *. rewrite drop_0.
    destruct (rebuilt_transfers (transactions t) ps Hl) as [H1 H2]. cbn [genesis transactions cm_inclusion_proof cm_transaction].
    by rewrite H1, H2.
  - intros [<- [Eg Et]]. cbn [length]. rewrite length_fmap, <- (length_fmap ct_transaction), Et, length_fmap, Nat.eqb_refl.
    cbn [negb lookup list_lookup or_panic drop]. rewrite bind_Ok_l, drop_0, transfers_rebuilt by done. f_equal.
    destruct t' as [[] ?]. simpl in *. by subst.
Qed.

(** Consequences of an unchanged history. *)
Lemma same_history_keeps t t' : same_history t t' ->
  Token_id t' = Token_id t /\ latest_state t' = latest_state t /\
  op_state_id <$> outer_proofs t' = op_state_id <$> outer_proofs t.
Proof.
  intros [Eg Et]. unfold Token_id, latest_state, genesis_result_state_hash, result_state_hash. rewrite !outer_proofs_state_ids, Eg, Et.
  split; [done|]. split; [|done]. pose proof (f_equal last Et) as El. rewrite !fmap_last in El.
  destruct (last (transactions t)) as [x|], (last (transactions t')) as [y|]; try done. by injection El as ->.
Qed.

Lemma rebuild_wf t proofs t' : rebuild_token t proofs = Ok t' -> token_wf t -> Forall wf proofs -> token_wf t'.
Proof.
  intros (<- & Eg & Et)%rebuild_spec (Hg & Hl & Hp) Hw. rewrite outer_proofs_proofs in Hw. apply Forall_cons in Hw as [Hwg Hwt].
  split; [|split].
  - destruct Hg as [Hm _]. split; [by rewrite Eg|exact Hwg].
  - unfold genesis_result_state_hash in *. rewrite Eg. by eapply linked_map.
  - by rewrite Forall_fmap in Hwt.
Qed.
End plan.
