(* ===== verification/Batch.v ===== *)
(** The batch capability of an aggregator: [src/client/batch.rs].

    The transport is a class of state-passing operations over a world [W]; its
    answers are unconstrained. [wait_on_wire_spec] bounds the wait a transport
    may send. Error
    texts are kept, [Display] is not modelled. *)

From Stdlib Require Import ZArith.
From stdpp Require Import strings.
From S2P Require Import Prelude State Bytes Error Ids Bft Proofs Topology ViewCodec.
Local Open Scope N_scope.

Definition MAX_BATCH_STATE_IDS : N := 256.
Definition MAX_WAIT_MS : u64 := wrap 64 9007199254740991.
Definition DEFAULT_WAIT_MARGIN_MS : u64 := wrap 64 2000.

Module rpc_code.
Definition INVALID_REQUEST : Z := -32600.
Definition METHOD_NOT_FOUND : Z := -32601.
Definition INVALID_PARAMS : Z := -32602.
Definition DATABASE_ERROR : Z := -32004.
Definition CONCURRENCY_LIMIT : Z := -32006.
Definition LIMIT_EXCEEDED : Z := -32007.
Definition PROOF_UNAVAILABLE : Z := -32008.
End rpc_code.

Module detail.
Definition STATE_PENDING : string := "state_pending".
Definition STATE_EXPIRED : string := "state_expired".
Definition STATE_UNKNOWN : string := "state_unknown".
Definition STATE_NOT_IN_ROOT : string := "state_not_in_root".
End detail.

(** [u64::saturating_add], [u64::saturating_sub] and [u64::min] *)
Definition saturating_add (a b : u64) : u64 := wrap 64 (N.min (val a + val b) (2 ^ 64 - 1)).
Definition saturating_sub (a b : u64) : u64 := wrap 64 (val a - val b).
Definition min_u64 (a b : u64) : u64 := if val a <=? val b then a else b.

Inductive StateRoot : Type :=
| Latest
| Exact (root : arr 32).

Record BatchRequest : Type := { state_ids : list StateId; state_root : StateRoot }.
Record RequestOptions : Type := { timeout_ms : u64 }.

Record BatchProof : Type := { block_number : u64; bp_proof : InclusionProof }.
Record InclusionProofBatch : Type := { batch_proofs : list BatchProof; partition_view : option PartitionView }.

Record WaitRequest : Type := { wait_ms : u64; margin_ms : u64 }.
Definition WaitRequest_new (wait : u64) : WaitRequest := {| wait_ms := wait; margin_ms := DEFAULT_WAIT_MARGIN_MS |}.
Definition with_margin_ms (self : WaitRequest) (margin : u64) : WaitRequest := {| wait_ms := wait_ms self; margin_ms := margin |}.

(** [indexes], a [BTreeMap], is the list of its entries in key order. *)
Inductive BatchFailure : Type :=
| Rpc (code : Z) (message : string) (reason detail : option string) (retryable : option bool) (indexes : list (string * list N))
| Transport (m : string)
| Http (status : N)
| DecodeFailure (m : string)
| ResponseTooLarge (limit : N)
| BatchTimeout
| BatchCancelled.

Record WaitedBatch : Type := { wb_batch : InclusionProofBatch; wb_waited_ms : option u64; wb_sent_wait_ms : option u64 }.
Record WaitedFailure : Type := { wf_failure : BatchFailure; wf_waited_ms : option u64; wf_sent_wait_ms : option u64 }.

Definition WaitedBatch_new (batch : InclusionProofBatch) (waited_ms sent_wait_ms : option u64) : WaitedBatch :=
  {| wb_batch := batch; wb_waited_ms := waited_ms; wb_sent_wait_ms := sent_wait_ms |}.
Definition WaitedFailure_new (failure : BatchFailure) (waited_ms sent_wait_ms : option u64) : WaitedFailure :=
  {| wf_failure := failure; wf_waited_ms := waited_ms; wf_sent_wait_ms := sent_wait_ms |}.
(** [From<BatchFailure>] *)
Definition WaitedFailure_from (failure : BatchFailure) : WaitedFailure := WaitedFailure_new failure None None.

(** A [Result] handled as a value instead of propagated; a panic propagates. *)
Definition tryM {S E F A} (m : M S E A) : M S F (E + A) := fun s =>
  match m s with
  | (Ok a, s) => (Ok (inr a), s)
  | (Err e, s) => (Ok (inl e), s)
  | (Panic, s) => (Panic, s)
  end.

(** [Result::map] and [map_err] on such a value *)
Definition sum_map {A A' B B'} (f : A -> A') (g : B -> B') (r : A + B) : A' + B' :=
  match r with inl a => inl (f a) | inr b => inr (g b) end.

(** The trait [BatchAggregatorClient]: [C] is the type of endpoints. *)
Class BatchAggregatorClient (W C : Type) : Type := {
  get_inclusion_proofs : C -> BatchRequest -> RequestOptions -> M W BatchFailure InclusionProofBatch;
  get_inclusion_proofs_with_wait : C -> BatchRequest -> RequestOptions -> WaitRequest -> M W WaitedFailure WaitedBatch;
}.

(** The trait's default for [get_inclusion_proofs_with_wait]. *)
Definition default_with_wait {W} (get_inclusion_proofs : BatchRequest -> RequestOptions -> M W BatchFailure InclusionProofBatch)
    (request : BatchRequest) (options : RequestOptions) (_ : WaitRequest) : M W WaitedFailure WaitedBatch :=
  batch ← map_errM WaitedFailure_from (get_inclusion_proofs request options);
  mret (WaitedBatch_new batch None None).

Definition wait_on_wire (wait_ms timeout_ms margin_ms : u64) : option u64 :=
  if val wait_ms =? 0 then Some (wrap 64 0) else
  let sent := min_u64 (min_u64 wait_ms MAX_WAIT_MS) (saturating_sub timeout_ms margin_ms) in
  if 0 <? val sent then Some sent else None.

Definition is_malformed_params (failure : BatchFailure) : bool :=
  match failure with
  | Rpc code _ reason detail _ _ =>
      (code =? rpc_code.INVALID_PARAMS)%Z && bool_decide (reason = Some "invalid_request"%string) &&
      bool_decide (detail = Some "malformed_params"%string)
  | _ => false
  end.

Record NegotiatedBatch : Type := {
  nb_result : WaitedFailure + WaitedBatch; nb_requests : N; nb_retried_without_wait : bool }.

Definition is_some {A} (o : option A) : bool := match o with Some _ => true | None => false end.

(** Whether the first answer is the strict parser's rejection of a wait that was
    really sent and not understood. *)
Definition wait_rejected (first : WaitedFailure + WaitedBatch) : bool :=
  let sent_wait := match first with
                   | inr ok => is_some (wb_sent_wait_ms ok)
                   | inl e => is_some (wf_sent_wait_ms e)
                   end in
  sent_wait && match first with
               | inl e => is_malformed_params (wf_failure e) && negb (is_some (wf_waited_ms e))
               | inr _ => false
               end.

(** [now_ms] is the caller's clock. *)
Definition get_latest_negotiating_wait {W C F} `{BatchAggregatorClient W C} (client : C) (state_ids : list StateId)
    (options : RequestOptions) (wait : WaitRequest) (now_ms : M W F u64) : M W F NegotiatedBatch :=
  let request := {| state_ids := state_ids; state_root := Latest |} in
  started ← now_ms;
  first ← tryM (get_inclusion_proofs_with_wait client request options wait);
  let once := {| nb_result := first; nb_requests := 1; nb_retried_without_wait := false |} in
  if negb (wait_rejected first) then mret once else
  now ← now_ms;
  let left_ := saturating_sub (timeout_ms options) (saturating_sub now started) in
  if val left_ =? 0 then mret once else
  second ← tryM (get_inclusion_proofs client request {| timeout_ms := left_ |});
  mret {| nb_result := sum_map WaitedFailure_from (fun batch => WaitedBatch_new batch None None) second;
          nb_requests := 2; nb_retried_without_wait := true |}.

(** * Facts *)

Lemma val_saturating_sub a b : val (saturating_sub a b) = val a - val b.
Proof. unfold saturating_sub. apply val_wrap. pose proof (uint_bound a). lia. Qed.

Lemma val_saturating_add a b : val (saturating_add a b) = N.min (val a + val b) (2 ^ 64 - 1).
Proof. unfold saturating_add. apply val_wrap. lia. Qed.

Lemma val_min_u64 a b : val (min_u64 a b) = N.min (val a) (val b).
Proof. unfold min_u64. destruct (N.leb_spec (val a) (val b)); lia. Qed.

Lemma tryM_run {S E F A} (m : M S E A) s : @tryM S E F A m s =
  match m s with (Ok a, s) => (Ok (inr a), s) | (Err e, s) => (Ok (inl e), s) | (Panic, s) => (Panic, s) end.
Proof. done. Qed.

(** A wait is on the wire unless no positive one fits below the timeout less the
    margin; it never exceeds the wait asked for, nor the safe-integer range. *)
Lemma wait_on_wire_spec wait timeout margin : match wait_on_wire wait timeout margin with
  | Some sent => val sent <= val wait /\ val sent <= 2 ^ 53 - 1 /\
      (val wait = 0 \/ (0 < val sent /\ val sent + val margin <= val timeout))
  | None => 0 < val wait /\ val timeout <= val margin
  end.
Proof.
  unfold wait_on_wire. destruct (N.eqb_spec (val wait) 0) as [E|E].
  { change (val (wrap 64 0)) with 0. lia. }
  cbv zeta. destruct (N.ltb_spec 0 (val (min_u64 (min_u64 wait MAX_WAIT_MS) (saturating_sub timeout margin)))) as [Hs|Hs];
    rewrite !val_min_u64, val_saturating_sub in *; change (val MAX_WAIT_MS) with 9007199254740991 in *; lia.
Qed.
