(* ===== verification/Executor.v ===== *)
(** Running the independent jobs of one wave: [src/client/consolidate/run.rs].

    [SequentialExecutor] is a map. [ThreadedExecutor] is a transition system: a
    shared counter hands out indexes, each worker runs the job it drew and stores
    its result. In every interleaving each job runs exactly once, results land in
    input order, the run terminates and never blocks ([threaded_correct],
    [threaded_terminates], [threaded_progress]); so the [expect] on the results
    cannot fail. [Clock] and [CallerCancel] are the client's clock and the
    caller's cancellation flag. *)

From stdpp Require Import relations sorting.
From S2P Require Import Prelude State Bytes.

(** ** The clock and cancellation *)

(** The [Clock] trait, and the caller's [CancelToken], which other threads set. *)
Class Clock (W : Type) : Type := { now_ms : W -> u64 * W }.
Class CallerCancel (W : Type) : Type := { caller_cancelled : W -> bool * W }.

(** ** The executor trait *)

(** [run]: a job is a method call on the shared state [S]. *)
Class WaveExecutor (S : Type) : Type := {
  wave_run : forall {E A T : Type}, (A -> M S E T) -> list A -> M S E (list T);
}.

Fixpoint mapM_ {S E A T} (job : A -> M S E T) (inputs : list A) : M S E (list T) :=
  match inputs with
  | [] => mret []
  | x :: inputs => t ← job x; ts ← mapM_ job inputs; mret (t :: ts)
  end.

#[export] Instance SequentialExecutor S : WaveExecutor S := {| wave_run E A T := mapM_ |}.

(** ** The threaded executor *)

Section threaded.
Context {I T : Type} (inputs : list I) (job : I -> T -> Prop).

Definition DEFAULT_MAX_PARALLEL : nat := 4.

(** [ThreadedExecutor::new] and the number of workers of a run. *)
Definition at_least_one (max_parallel : nat) : nat := Nat.max max_parallel 1.
Definition workers_of (max_parallel : nat) : nat := Nat.min max_parallel (length inputs).

(** Where a worker is: before [fetch_add], after it, after the job, or out of the
    loop. *)
Inductive Worker : Type :=
| Fetching
| Fetched (i : nat)
| Computed (i : nat) (value : T)
| Exited.

(** [ran] records which jobs were started; the program does not read it. *)
Record Wave : Type := { next : nat; results : list (option T); workers : list Worker; ran : list nat }.

Definition start (n : nat) : Wave :=
  {| next := 0; results := replicate (length inputs) None; workers := replicate n Fetching; ran := [] |}.

(** One atomic step of worker [k]. [job x v] says that the job may return [v] on
    [x]: it may read and write shared state meanwhile, in any interleaving. *)
Inductive step (k : nat) : Wave -> Wave -> Prop :=
| step_fetch w : workers w !! k = Some Fetching ->
    step k w {| next := S (next w); results := results w; workers := <[k := Fetched (next w)]> (workers w); ran := ran w |}
| step_run w i x v : workers w !! k = Some (Fetched i) -> inputs !! i = Some x -> job x v ->
    step k w {| next := next w; results := results w; workers := <[k := Computed i v]> (workers w); ran := i :: ran w |}
| step_exit w i : workers w !! k = Some (Fetched i) -> inputs !! i = None ->
    step k w {| next := next w; results := results w; workers := <[k := Exited]> (workers w); ran := ran w |}
| step_store w i v : workers w !! k = Some (Computed i v) ->
    step k w {| next := next w; results := <[i := Some v]> (results w); workers := <[k := Fetching]> (workers w); ran := ran w |}.

Definition steps : Wave -> Wave -> Prop := rtc (fun w w' => exists k, step k w w').

(** The scope has joined its threads. *)
Definition joined (w : Wave) : Prop := Forall (eq Exited) (workers w).

(** [into_inner], then [expect] on every slot. *)
Definition collected (w : Wave) : outcome unit (list T) := mapO or_panic (results w).

(** *** Every index is drawn once *)

Definition drawn (x : Worker) : list nat :=
  match x with Fetched i => [i] | _ => [] end.
Definition running (x : Worker) : list nat :=
  match x with Computed i _ => [i] | _ => [] end.

Definition holding (w : Wave) : list nat := mbind drawn (workers w).
Definition finishing (w : Wave) : list nat := mbind running (workers w).

Lemma bind_insert {A} (f : Worker -> list A) ws k x y : ws !! k = Some x ->
  exists l r, ws = l ++ x :: r /\ mbind f ws ≡ₚ f x ++ mbind f (l ++ r) /\ mbind f (<[k := y]> ws) ≡ₚ f y ++ mbind f (l ++ r) /\
    length l = k.
Proof.
  intros Hk. exists (take k ws), (drop (S k) ws). pose proof (take_drop_middle _ _ _ Hk) as E. split; [done|].
  assert (forall z, mbind f (take k ws ++ z :: drop (S k) ws) ≡ₚ f z ++ mbind f (take k ws ++ drop (S k) ws)) as Hz.
  { intros z. rewrite !bind_app, bind_cons. rewrite !app_assoc. apply Permutation_app_tail, Permutation_app_comm. }
  split; [rewrite <- E at 1; apply Hz|]. split; [|rewrite length_take; apply lookup_lt_Some in Hk; lia].
  rewrite insert_take_drop by (by apply lookup_lt_Some in Hk). apply Hz.
Qed.

Record inv (w : Wave) : Prop := {
  inv_length : length (results w) = length inputs;
  inv_once : NoDup (holding w ++ ran w);
  inv_drawn : forall i, i ∈ holding w ++ ran w -> i < next w;
  inv_all : forall i, i < next w -> i < length inputs -> i ∈ holding w ++ ran w;
  inv_ran : forall i, i ∈ ran w <-> i ∈ finishing w \/ exists v, results w !! i = Some (Some v);
  inv_exited : Exited ∈ workers w -> length inputs < next w;
  inv_value : forall i v, results w !! i = Some (Some v) \/ Computed i v ∈ workers w -> exists x, inputs !! i = Some x /\ job x v;
}.

Lemma inv_start n : inv (start n).
Proof.
  assert (forall (f : Worker -> list nat), f Fetching = [] -> mbind f (replicate n Fetching) = []) as Hb.
  { intros f Hf. induction n as [|n IH]; [done|]. cbn [replicate]. by rewrite bind_cons, Hf. }
  assert (forall i v, replicate (length inputs) (@None T) !! i = Some (Some v) -> False) as Hn.
  { intros i v Hi. by apply lookup_replicate in Hi as [? _]. }
  assert (forall x, x ∈ replicate n Fetching -> x = Fetching) as Hw by (intros x Hx; by apply elem_of_replicate in Hx as [? _]).
  constructor; unfold holding, finishing; cbn [start next results workers ran]; rewrite ?Hb by done.
  - by rewrite length_replicate.
  - constructor.
  - intros i Hi. by apply elem_of_nil in Hi.
  - intros i Hi. lia.
  - intros i. split; [intros Hi; by apply elem_of_nil in Hi|]. intros [Hi|[v Hi]]; [by apply elem_of_nil in Hi|by apply Hn in Hi].
  - by intros ?%Hw.
  - intros i v [Hi|?%Hw]; [by apply Hn in Hi|done].
Qed.

Lemma elem_of_insert_worker (ws : list Worker) (k : nat) x y z : ws !! k = Some x -> z ∈ <[k := y]> ws -> z = y \/ z ∈ ws.
Proof.
  intros Hk [j Hj]%list_elem_of_lookup. destruct (decide (j = k)) as [->|Hne].
  - rewrite list_lookup_insert_eq in Hj by (by apply lookup_lt_Some in Hk). left. congruence.
  - rewrite list_lookup_insert_ne in Hj by done. right. by eapply list_elem_of_lookup_2.
Qed.

(** What a step of a worker from [x] to [y] does to the indexes in flight. *)
Lemma holding_step w ws k x y : workers w = ws -> ws !! k = Some x ->
  exists rest rest', holding w ≡ₚ drawn x ++ rest /\ mbind drawn (<[k := y]> ws) ≡ₚ drawn y ++ rest /\
    finishing w ≡ₚ running x ++ rest' /\ mbind running (<[k := y]> ws) ≡ₚ running y ++ rest'.
Proof.
  intros <- Hk. destruct (bind_insert drawn _ _ _ y Hk) as (l & r & _ & H1 & H2 & _).
  destruct (bind_insert running _ _ _ y Hk) as (l' & r' & _ & H3 & H4 & _).
  exists (mbind drawn (l ++ r)), (mbind running (l' ++ r')). done.
Qed.

Lemma inv_fetch k w : inv w -> workers w !! k = Some Fetching ->
  inv {| next := S (next w); results := results w; workers := <[k := Fetched (next w)]> (workers w); ran := ran w |}.
Proof.
  intros [Hl Ho Hd Ha Hr He Hv] Hk.
  destruct (holding_step w _ k _ (Fetched (next w)) eq_refl Hk) as (rest & rest' & E1 & E2 & E3 & E4). cbn [drawn running app] in *.
  setoid_rewrite E3 in Hr. rewrite E1 in Ho. setoid_rewrite E1 in Hd. setoid_rewrite E1 in Ha.
  constructor; unfold holding, finishing; cbn [next results workers ran]; [done|rewrite E2|setoid_rewrite E2..|setoid_rewrite E4| |].
  - cbn [app]. constructor; [|done]. intros Hin%Hd. lia.
  - cbn [app]. intros i [->|Hi%Hd]%elem_of_cons; lia.
  - cbn [app]. intros i Hi Hn. rewrite elem_of_cons. destruct (decide (i = next w)); [by left|right]. apply Ha; lia.
  - exact Hr.
  - intros [?|Hx]%(elem_of_insert_worker _ _ _ _ _ Hk); [done|]. specialize (He Hx). lia.
  - intros i v [Hi|Hi]; apply Hv; [by left|right]. by destruct (elem_of_insert_worker _ _ _ _ _ Hk Hi).
Qed.

Lemma inv_run k w i x v : inv w -> workers w !! k = Some (Fetched i) -> inputs !! i = Some x -> job x v ->
  inv {| next := next w; results := results w; workers := <[k := Computed i v]> (workers w); ran := i :: ran w |}.
Proof.
  intros [Hl Ho Hd Ha Hr He Hv] Hk Hi Hj.
  destruct (holding_step w _ k _ (Computed i v) eq_refl Hk) as (rest & rest' & E1 & E2 & E3 & E4). cbn [drawn running app] in *.
  setoid_rewrite E3 in Hr. rewrite E1 in Ho. setoid_rewrite E1 in Hd. setoid_rewrite E1 in Ha.
  assert (forall j, j ∈ rest ++ i :: ran w <-> j ∈ i :: rest ++ ran w) as Hsame by (intros j; by rewrite <- Permutation_middle).
  constructor; unfold holding, finishing; cbn [next results workers ran]; [done|rewrite E2|setoid_rewrite E2..|setoid_rewrite E4| |].
  - by rewrite <- Permutation_middle.
  - intros j Hin%Hsame. by apply Hd.
  - intros j H1 H2. apply Hsame. by apply Ha.
  - intros j. cbn [app]. rewrite !elem_of_cons, Hr. tauto.
  - intros [?|Hx]%(elem_of_insert_worker _ _ _ _ _ Hk); [done|auto].
  - intros j u [Hj'|Hj']; [apply Hv; by left|]. destruct (elem_of_insert_worker _ _ _ _ _ Hk Hj') as [[= -> ->]|?]; [by exists x|].
    apply Hv. by right.
Qed.

Lemma inv_exit k w i : inv w -> workers w !! k = Some (Fetched i) -> inputs !! i = None ->
  inv {| next := next w; results := results w; workers := <[k := Exited]> (workers w); ran := ran w |}.
Proof.
  intros [Hl Ho Hd Ha Hr He Hv] Hk Hi%lookup_ge_None.
  destruct (holding_step w _ k _ Exited eq_refl Hk) as (rest & rest' & E1 & E2 & E3 & E4). cbn [drawn running app] in *.
  setoid_rewrite E3 in Hr. rewrite E1 in Ho. setoid_rewrite E1 in Hd. setoid_rewrite E1 in Ha. cbn [app] in *.
  assert (i < next w) as Hlt by (apply Hd; left).
  constructor; unfold holding, finishing; cbn [next results workers ran]; [done|rewrite E2|setoid_rewrite E2..|setoid_rewrite E4| |].
  - by apply NoDup_cons in Ho as [_ ?].
  - intros j Hj. apply Hd. by right.
  - intros j H1 H2. destruct (proj1 (elem_of_cons _ _ _) (Ha j H1 H2)) as [->|]; [lia|done].
  - exact Hr.
  - intros _. lia.
  - intros j u [Hj|Hj]; apply Hv; [by left|right]. by destruct (elem_of_insert_worker _ _ _ _ _ Hk Hj).
Qed.

Lemma inv_store k w i v : inv w -> workers w !! k = Some (Computed i v) ->
  inv {| next := next w; results := <[i := Some v]> (results w); workers := <[k := Fetching]> (workers w); ran := ran w |}.
Proof.
  intros [Hl Ho Hd Ha Hr He Hv] Hk.
  destruct (holding_step w _ k _ Fetching eq_refl Hk) as (rest & rest' & E1 & E2 & E3 & E4). cbn [drawn running app] in *.
  setoid_rewrite E3 in Hr. rewrite E1 in Ho. setoid_rewrite E1 in Hd. setoid_rewrite E1 in Ha.
  destruct (Hv i v) as (x & Hx & Hj); [right; by eapply list_elem_of_lookup_2|].
  assert (i < length (results w)) as Hlt by (rewrite Hl; by apply lookup_lt_Some in Hx).
  constructor; unfold holding, finishing; cbn [next results workers ran]; [by rewrite length_insert|rewrite E2|setoid_rewrite E2..|setoid_rewrite E4| |].
  - done.
  - done.
  - done.
  - intros j. rewrite Hr. cbn [app]. rewrite elem_of_cons. destruct (decide (j = i)) as [->|Hne].
    + rewrite list_lookup_insert_eq by done. split; [intros _; right; by exists v|by left; left].
    + rewrite list_lookup_insert_ne by done. naive_solver.
  - intros [?|Hin]%(elem_of_insert_worker _ _ _ _ _ Hk); [done|auto].
  - intros j u [Hj'|Hj'].
    + destruct (decide (j = i)) as [->|Hne]; [|apply Hv; left; by rewrite list_lookup_insert_ne in Hj'].
      rewrite list_lookup_insert_eq in Hj' by done. injection Hj' as <-. by exists x.
    + apply Hv. right. by destruct (elem_of_insert_worker _ _ _ _ _ Hk Hj').
Qed.

Lemma inv_steps n w : steps (start n) w -> inv w.
Proof.
  apply (rtc_ind_r inv); [apply inv_start|]. intros w1 w2 _ [k Hst] Hi.
  destruct Hst; [by apply inv_fetch|by eapply inv_run|by eapply inv_exit|by apply inv_store].
Qed.

(** *** Every run ends *)

Definition weight (x : Worker) : nat :=
  match x with
  | Exited => 0
  | Fetched i => if i <? length inputs then 4 else 1
  | Computed _ _ => 3
  | Fetching => 2
  end.
Definition measure (w : Wave) : nat := 3 * (length inputs - next w) + sum_list_with weight (workers w).

Lemma sum_insert ws k x y : ws !! k = Some x ->
  sum_list_with weight (<[k := y]> ws) + weight x = sum_list_with weight ws + weight y.
Proof.
  revert k. induction ws as [|z ws IH]; intros [|k]; [done..| |]; simpl; [intros [= ->]; lia|]. intros Hk.
  specialize (IH k Hk). lia.
Qed.

Lemma step_measure k w w' : step k w w' -> measure w' < measure w.
Proof.
  unfold measure. destruct 1 as [w Hk|w i x v Hk Hi _|w i Hk Hi|w i v Hk]; cbn [next workers].
  - pose proof (sum_insert _ _ _ (Fetched (next w)) Hk) as Hs. cbn [weight] in Hs. destruct (Nat.ltb_spec (next w) (length inputs)); lia.
  - pose proof (sum_insert _ _ _ (Computed i v) Hk) as Hs. cbn [weight] in Hs. apply lookup_lt_Some in Hi.
    destruct (Nat.ltb_spec i (length inputs)); lia.
  - pose proof (sum_insert _ _ _ Exited Hk) as Hs. cbn [weight] in Hs. apply lookup_ge_None in Hi.
    destruct (Nat.ltb_spec i (length inputs)); lia.
  - pose proof (sum_insert _ _ _ Fetching Hk) as Hs. cbn [weight] in Hs. lia.
Qed.

Lemma threaded_terminates n m w : nsteps (fun w w' => exists k, step k w w') m (start n) w -> m <= 3 * length inputs + 2 * n.
Proof.
  assert (forall w0, nsteps (fun w w' => exists k, step k w w') m w0 w -> m <= measure w0) as G.
  { intros w0 Hs. induction Hs as [|m w0 w1 w2 [k H01] _ IH]; [lia|]. apply step_measure in H01. lia. }
  intros Hs%G. unfold measure in Hs. cbn [next workers start] in Hs.
  assert (sum_list_with weight (replicate n Fetching) = 2 * n) as E by (clear; induction n; simpl; lia). lia.
Qed.

(** *** No run is stuck *)

Lemma joined_or_live w : joined w \/ exists k y, workers w !! k = Some y /\ y <> Exited.
Proof.
  unfold joined. induction (workers w) as [|x ws [IH|(k & y & Hk & Hy)]]; [by left| |by right; exists (S k), y].
  destruct x as [|i|i v|]; [right; by exists 0, Fetching|right; by exists 0, (Fetched i)|right; by exists 0, (Computed i v)|].
  left. by constructor.
Qed.

Lemma threaded_progress n w : (forall x, x ∈ inputs -> exists v, job x v) -> steps (start n) w ->
  joined w \/ exists k w', step k w w'.
Proof.
  intros Hjob Hi%inv_steps. destruct (joined_or_live w) as [|(k & y & Hk & Hy)]; [by left|right]. exists k.
  destruct y as [|i|i v|]; [eexists; by apply step_fetch| |eexists; by eapply step_store|done].
  destruct (inputs !! i) as [x|] eqn:Ex; [|eexists; by eapply step_exit].
  destruct (Hjob x) as [v Hv]; [by eapply list_elem_of_lookup_2|]. eexists. by eapply step_run.
Qed.

(** *** The joined results *)

Lemma workers_length n w : steps (start n) w -> length (workers w) = n.
Proof.
  apply (rtc_ind_r (fun w => length (workers w) = n)); [apply length_replicate|].
  intros w1 w2 _ [k Hst] <-. destruct Hst; apply length_insert.
Qed.

Lemma threaded_correct n w : (0 < length inputs -> 0 < n) -> steps (start n) w -> joined w ->
  exists out, collected w = Ok out /\ Forall2 job inputs out /\ ran w ≡ₚ seq 0 (length inputs).
Proof.
  intros Hn Hs Hj. pose proof (inv_steps _ _ Hs) as [Hl Ho Hd Ha Hr He Hv].
  assert (holding w = [] /\ finishing w = []) as [Eh Ef].
  { unfold holding, finishing. clear -Hj. induction Hj as [|x ws <- _ [IH1 IH2]]; [done|]. by rewrite !bind_cons, IH1, IH2. }
  rewrite Eh, Ef in *. cbn [app] in *.
  assert (0 < length inputs -> length inputs < next w) as Hnx.
  { intros H0. specialize (Hn H0). apply He. apply list_elem_of_lookup. exists 0. destruct (workers w !! 0) as [x|] eqn:Ex.
    - by rewrite (proj1 (Forall_lookup _ _) Hj _ _ Ex).
    - apply lookup_ge_None in Ex. assert (length (workers w) = n) as E; [|lia]. by apply (workers_length n). }
  assert (forall i, i < length inputs -> exists v, results w !! i = Some (Some v)) as Hres.
  { intros i Hi. destruct (proj1 (Hr i)) as [Hin|]; [apply Ha; lia|by apply elem_of_nil in Hin|done]. }
  assert (exists out, results w = Some <$> out) as [out Eo].
  { clear -Hres Hl. rewrite <- Hl in Hres. clear Hl. induction (results w) as [|r rs IH]; [by exists []|].
    destruct (Hres 0) as [v [= ->]]; [simpl; lia|]. destruct IH as [out ->]; [|by exists (v :: out)].
    intros i Hi. apply (Hres (S i)). simpl. lia. }
  exists out. split; [|split].
  - unfold collected. rewrite Eo. rewrite <- (list_fmap_id out) at 2. by apply mapO_fmap.
  - apply Forall2_same_length_lookup. rewrite Eo, length_fmap in Hl. split; [done|]. intros i x v Hx Hv'.
    destruct (Hv i v) as (x' & Hx' & ?); [left; by rewrite Eo, list_lookup_fmap, Hv'|]. congruence.
  - apply NoDup_Permutation; [done|apply NoDup_seq|]. intros i. rewrite elem_of_seq. split.
    + intros Hi%Hr. destruct Hi as [Hi|[v Hi]]; [by apply elem_of_nil in Hi|]. apply lookup_lt_Some in Hi. lia.
    + intros [_ Hi]. apply Ha; lia.
Qed.
End threaded.
