(* ===== verification/Time.v ===== *)
(** Durations and the monotonic clock: what [src/client/http.rs] and
    [http/wait.rs] use of [std::time] and [std::thread::sleep].

    A [Duration] is a bounded number of nanoseconds. The clock is a class over a
    world: reading it and sleeping are calls, and an [Instant] is a point of a
    platform's range. *)

From S2P Require Import Prelude State Bytes.
Local Open Scope N_scope.

(** * Durations *)

(** [u64] seconds and the nanoseconds of one more. *)
Definition DURATION_END : N := 2 ^ 64 * 1000000000.
Definition Duration : Type := sub (fun n => n <? DURATION_END).

(** A duration, saturating at [Duration::MAX]. *)
Lemma saturated n : (N.min n (DURATION_END - 1) <? DURATION_END) = true.
Proof. apply N.ltb_lt. unfold DURATION_END. lia. Qed.
Definition nanos (n : N) : Duration := Sub (N.min n (DURATION_END - 1)) (saturated n).

Definition from_millis (ms : u64) : Duration := nanos (val ms * 1000000).
Definition from_secs (s : u64) : Duration := nanos (val s * 1000000000).

Definition is_zero (d : Duration) : bool := val d =? 0.
(** [u64::try_from(d.as_millis()).unwrap_or(u64::MAX)] *)
Definition ms (d : Duration) : u64 := wrap 64 (N.min (val d / 1000000) (2 ^ 64 - 1)).

Definition dur_max (a b : Duration) : Duration := if val a <? val b then b else a.
Definition dur_min (a b : Duration) : Duration := if val a <=? val b then a else b.
Definition dur_saturating_sub (a b : Duration) : Duration := nanos (val a - val b).
Definition dur_saturating_mul (a : Duration) (n : u32) : Duration := nanos (val a * val n).

Lemma duration_bound (d : Duration) : val d < DURATION_END.
Proof. apply N.ltb_lt, (val_ok d). Qed.

Lemma val_nanos n : val (nanos n) = N.min n (DURATION_END - 1).
Proof. done. Qed.

Lemma val_dur_max a b : val (dur_max a b) = N.max (val a) (val b).
Proof. unfold dur_max. destruct (N.ltb_spec (val a) (val b)); lia. Qed.

Lemma val_dur_min a b : val (dur_min a b) = N.min (val a) (val b).
Proof. unfold dur_min. destruct (N.leb_spec (val a) (val b)); lia. Qed.

Lemma val_ms d : val (ms d) = N.min (val d / 1000000) (2 ^ 64 - 1).
Proof. unfold ms. apply val_wrap. lia. Qed.

Lemma val_from_millis m : val (from_millis m) = val m * 1000000.
Proof. unfold from_millis. rewrite val_nanos. pose proof (uint_bound m). unfold DURATION_END. lia. Qed.

(** * The clock *)

(** [Instant], in nanoseconds of the platform's clock. *)
Definition Instant : Type := N.

Class Monotonic (W : Type) : Type := {
  instant_now : W -> Instant * W;
  thread_sleep : Duration -> W -> W;
  INSTANT_MAX : N;
}.

Definition checked_add {W} `{Monotonic W} (from : Instant) (span : Duration) : option Instant :=
  if from + val span <=? INSTANT_MAX then Some (from + val span) else None.
(** [checked_duration_since] and [saturating_duration_since] *)
Definition checked_duration_since (later earlier : Instant) : option Duration :=
  if earlier <=? later then Some (nanos (later - earlier)) else None.
Definition saturating_duration_since (later earlier : Instant) : Duration := nanos (later - earlier).

(** What the platform documents: the clock never goes back, and a sleep lasts at
    least as long as asked. [time] is when a world is. *)
Class MonotonicLaws (W : Type) `{Monotonic W} : Type := {
  time : W -> Instant;
  now_late w : time w <= fst (instant_now w) /\ fst (instant_now w) <= time (snd (instant_now w));
  sleep_long d w : time w + val d <= time (thread_sleep d w);
}.
