(* ===== verification/HttpDate.v ===== *)
(** The [Retry-After] header of [src/client/http.rs]: delay seconds or an HTTP
    date in its three forms.

    The texts of headers are ASCII. [calendar_days] is the reference calendar,
    counted day by day; [days_spec] shows the closed formula of the code agrees
    with it, [seconds_spec] that exactly the dates of the calendar are accepted. *)

From Stdlib Require Import ZArith Ascii.
From stdpp Require Import strings.
From S2P Require Import Prelude Bytes Time.
Local Open Scope Z_scope.

(** * Texts *)

Definition is_digit (c : ascii) : bool := let n := N_of_ascii c in (48 <=? n)%N && (n <=? 57)%N.
(** [char::is_ascii_whitespace]; [str::trim] also takes the vertical tab. *)
Definition is_space (c : ascii) : bool := let n := N_of_ascii c in bool_decide (n ∈ [9; 10; 12; 13; 32]%N).
Definition is_trimmed (c : ascii) : bool := is_space c || (N_of_ascii c =? 11)%N.

Definition chars (s : string) : list ascii := String.list_ascii_of_string s.
Definition text (l : list ascii) : string := String.string_of_list_ascii l.

Fixpoint drop_while {A} (p : A -> bool) (l : list A) : list A :=
  match l with x :: l' => if p x then drop_while p l' else l | [] => [] end.
Definition trim (s : string) : string := text (rev (drop_while is_trimmed (rev (drop_while is_trimmed (chars s))))).

(** [str::split] on a predicate. *)
Fixpoint split_on (p : ascii -> bool) (l : list ascii) : list (list ascii) :=
  match l with
  | [] => [[]]
  | c :: l => if p c then [] :: split_on p l else
      match split_on p l with w :: ws => (c :: w) :: ws | [] => [[c]] end
  end.

Definition all_digits (l : list ascii) : bool := forallb is_digit l.
Definition digit (c : ascii) : Z := Z.of_N (N_of_ascii c) - 48.
Definition decimal (l : list ascii) : Z := fold_left (fun acc c => acc * 10 + digit c) l 0.

(** [u8::to_ascii_lowercase] and [eq_ignore_ascii_case] *)
Definition lower (c : ascii) : ascii := let n := N_of_ascii c in if (65 <=? n)%N && (n <=? 90)%N then ascii_of_N (n + 32) else c.
Definition eq_ignore_case (a b : list ascii) : bool := bool_decide (lower <$> a = lower <$> b).

(** * Dates *)

Definition MONTHS : list string :=
  ["Jan"; "Feb"; "Mar"; "Apr"; "May"; "Jun"; "Jul"; "Aug"; "Sep"; "Oct"; "Nov"; "Dec"]%string.

Definition month (m : list ascii) : option Z :=
  (fun i => Z.of_nat (fst i) + 1) <$> list_find (fun x => eq_ignore_case (chars x) m = true) MONTHS.

(** Exactly [digits] ASCII digits. *)
Definition num (t : list ascii) (digits : nat) : option Z :=
  if (length t =? digits)%nat && all_digits t then Some (decimal t) else None.

Definition is_leap (year : Z) : bool := (year mod 4 =? 0) && (negb (year mod 100 =? 0) || (year mod 400 =? 0)).

Definition days_in_month (year mon : Z) : Z :=
  if (mon =? 2) && is_leap year then 29 else
  if mon =? 2 then 28 else
  if bool_decide (mon ∈ [4; 6; 9; 11]) then 30 else 31.

(** [i64::checked_mul] and the like *)
Definition checked (z : Z) : option Z := if (- 2 ^ 63 <=? z) && (z <? 2 ^ 63) then Some z else None.

(** Days from the civil date to the epoch. *)
Definition days_from_civil (year mon day : Z) : option Z :=
  let y := if mon <=? 2 then year - 1 else year in
  let era := y / 400 in
  let yoe := y - era * 400 in
  let doy := (153 * (mon + (if mon >? 2 then -3 else 9)) + 2) / 5 + day - 1 in
  let doe := yoe * 365 + yoe / 4 - yoe / 100 + doy in
  a ← checked (era * 146097); b ← checked (a + doe); checked (b - 719468).

(** The tokens of the three forms: day, month, year and clock. *)
Definition date_tokens (tokens : list (list ascii)) : option (Z * Z * Z * list ascii) :=
  match tokens with
  | [_; d; m; y; t; g] =>
      if bool_decide (g = chars "GMT") then d ← num d 2; m ← month m; y ← num y 4; Some (d, m, y, t) else None
  | [a; b; c; d] =>
      if bool_decide (d = chars "GMT") then
        match split_on (fun x => bool_decide (x = "-"%char)) b with
        | [d; m; y] => y ← num y 2; d ← num d 2; m ← month m; Some (d, m, if y <? 70 then 2000 + y else 1900 + y, c)
        | _ => None
        end
      else None
  | [_; m; d; t; y] => d ← num d (Nat.min (length d) 2); m ← month m; y ← num y 4; Some (d, m, y, t)
  | _ => None
  end.

Definition clock_of (t : list ascii) : option (Z * Z * Z) :=
  match split_on (fun x => bool_decide (x = ":"%char)) t with
  | [h; mi; sec] => h ← num h 2; mi ← num mi 2; sec ← num sec 2; Some (h, mi, sec)
  | _ => None
  end.

(** From the numbers to the seconds since the epoch. *)
Definition seconds_of (day mon year h mi sec : Z) : option u64 :=
  if (h >? 23) || (mi >? 59) || (sec >? 60) || negb ((1970 <=? year) && (year <=? 9999)) then None else
  if negb ((1 <=? day) && (day <=? days_in_month year mon)) then None else
  days ← days_from_civil year mon day;
  a ← checked (days * 86400);
  s ← checked (a + (h * 3600 + mi * 60 + sec));
  if s <? 0 then None else Some (wrap 64 (Z.to_N s)).

Definition parse_http_date (s : string) : option u64 :=
  let tokens := filter (fun t => t <> []) (split_on (fun c => is_space c || bool_decide (c = ","%char)) (chars s)) in
  '(day, mon, year, clock) ← date_tokens tokens;
  '(h, mi, sec) ← clock_of clock;
  seconds_of day mon year h mi sec.

Definition MAX_RETRY_AFTER : Duration := from_secs (wrap 64 60).

(** [now] in nanoseconds since the Unix epoch. *)
Definition parse_retry_after_at (value : option string) (now : Z) : option Duration :=
  s ← value;
  let s := trim s in
  if (length (chars s) =? 0)%nat then None else
  if all_digits (chars s) then
    Some (dur_min (from_secs (wrap 64 (N.min (Z.to_N (decimal (chars s))) (2 ^ 64 - 1)))) MAX_RETRY_AFTER) else
  date ← parse_http_date s;
  Some (dur_min (nanos (Z.to_N (Z.of_N (val date) * 1000000000 - now))) MAX_RETRY_AFTER).

Example imf_fixdate : val <$> parse_http_date "Sun, 06 Nov 1994 08:49:37 GMT" = Some 784111777%N.
Proof. vm_compute. reflexivity. Qed.
Example rfc_850 : val <$> parse_http_date "Sunday, 06-Nov-94 08:49:37 GMT" = Some 784111777%N.
Proof. vm_compute. reflexivity. Qed.
Example asctime : val <$> parse_http_date "Sun Nov  6 08:49:37 1994" = Some 784111777%N.
Proof. vm_compute. reflexivity. Qed.

(** * The calendar *)

(** The reference: days are counted one by one, by year, then month, then day. *)
Definition year_days (y : Z) : Z := if is_leap y then 366 else 365.
Definition years_before (y : Z) : Z := fold_right Z.add 0 ((fun i => year_days (1970 + Z.of_nat i)) <$> seq 0 (Z.to_nat (y - 1970))).
Definition months_before (y mon : Z) : Z := fold_right Z.add 0 ((fun i => days_in_month y (1 + Z.of_nat i)) <$> seq 0 (Z.to_nat (mon - 1))).
Definition calendar_days (y mon day : Z) : Z := years_before y + months_before y mon + (day - 1).

(** Leap days of the years before [y]. *)
Definition leaps (y : Z) : Z := (y - 1) / 4 - (y - 1) / 100 + (y - 1) / 400.

Lemma leap_step y : leaps (y + 1) = leaps y + (if is_leap y then 1 else 0).
Proof.
  unfold leaps, is_leap. replace (y + 1 - 1) with y by lia.
  assert (forall k, 0 < k -> y / k = (y - 1) / k + (if y mod k =? 0 then 1 else 0)) as Hk.
  { intros k Hk. destruct (Z.eqb_spec (y mod k) 0) as [E|E].
    - apply Z.mod_divide in E as [c ->]; [|lia]. rewrite Z.div_mul by lia.
      assert ((c * k - 1) / k = c - 1) as ->; [|lia]. symmetry. apply Z.div_unique with (k - 1); lia.
    - assert ((y - 1) / k = y / k) as ->; [|lia]. symmetry. apply Z.div_unique with (y mod k - 1).
      + pose proof (Z.mod_pos_bound y k). lia.
      + pose proof (Z.div_mod y k). lia. }
  rewrite (Hk 4), (Hk 100), (Hk 400) by lia.
  assert (y mod 400 = 0 -> y mod 100 = 0) as H1.
  { intros [c E]%Z.mod_divide; [|lia]. apply Z.mod_divide; [lia|]. exists (4 * c). lia. }
  assert (y mod 100 = 0 -> y mod 4 = 0) as H2.
  { intros [c E]%Z.mod_divide; [|lia]. apply Z.mod_divide; [lia|]. exists (25 * c). lia. }
  destruct (Z.eqb_spec (y mod 4) 0), (Z.eqb_spec (y mod 100) 0), (Z.eqb_spec (y mod 400) 0); cbn [negb andb orb]; try lia; tauto.
Qed.

Lemma years_before_spec y : 1970 <= y -> years_before y = 365 * (y - 1970) + leaps y - leaps 1970.
Proof.
  intros Hy. replace y with (1970 + Z.of_nat (Z.to_nat (y - 1970))) by lia. generalize (Z.to_nat (y - 1970)). clear y Hy. intros n.
  unfold years_before. replace (Z.to_nat (1970 + Z.of_nat n - 1970)) with n by lia.
  induction n as [|n IH]; [done|]. rewrite seq_S, fmap_app, fold_right_app.
  assert (forall l a, fold_right Z.add a l = fold_right Z.add 0 l + a) as Hf by (intros l a; induction l; simpl; lia).
  rewrite Hf, IH. cbn [fmap list_fmap fold_right]. replace (1970 + Z.of_nat (S n)) with (1970 + Z.of_nat n + 1) by lia.
  rewrite leap_step. unfold year_days. replace (0 + n)%nat with n by lia. destruct (is_leap (1970 + Z.of_nat n)); lia.
Qed.

Lemma era_days y : let era := y / 400 in let yoe := y - era * 400 in
  era * 146097 + (yoe * 365 + yoe / 4 - yoe / 100) = 365 * y + y / 4 - y / 100 + y / 400.
Proof.
  cbv zeta. set (era := y / 400). set (yoe := y - era * 400).
  assert (y = yoe + era * 400) as Ey by lia.
  assert (y / 4 = yoe / 4 + era * 100) as -> by (rewrite Ey, <- (Z.div_add yoe (era * 100) 4) by lia; f_equal; lia).
  assert (y / 100 = yoe / 100 + era * 4) as -> by (rewrite Ey, <- (Z.div_add yoe (era * 4) 100) by lia; f_equal; lia).
  lia.
Qed.

(** The formula of the code is the calendar. *)
Lemma days_spec y mon day : 1970 <= y <= 9999 -> 1 <= mon <= 12 -> 1 <= day <= 31 ->
  days_from_civil y mon day = Some (calendar_days y mon day) /\ 0 <= calendar_days y mon day < 4000000.
Proof.
  intros Hy Hm Hd.
  assert (0 <= leaps y - leaps 1970 <= 3000) as Hb.
  { unfold leaps. change ((1970 - 1) / 4 - (1970 - 1) / 100 + (1970 - 1) / 400) with 477.
    pose proof (Z.div_mod (y - 1) 4). pose proof (Z.mod_pos_bound (y - 1) 4). pose proof (Z.div_mod (y - 1) 100).
    pose proof (Z.mod_pos_bound (y - 1) 100). pose proof (Z.div_mod (y - 1) 400). pose proof (Z.mod_pos_bound (y - 1) 400). lia. }
  pose proof (leap_step y) as Hl. unfold calendar_days, days_from_civil. rewrite years_before_spec by lia.
  assert (exists l, (if is_leap y then 1 else 0) = l /\ 0 <= l <= 1) as (l & El & Hl01) by (destruct (is_leap y); eauto with lia).
  rewrite El in Hl.
  pose proof (era_days y) as He. pose proof (era_days (y - 1)) as He'. cbv zeta in He, He'.
  assert (forall a b c d, - 10 ^ 10 <= a <= 10 ^ 10 -> - 10 ^ 10 <= a + b <= 10 ^ 10 -> - 10 ^ 10 <= a + b - d <= 10 ^ 10 -> a + b - d = c ->
    (x ← checked a; z ← checked (x + b); checked (z - d)) = Some c) as Hc.
  { intros a b c d H1 H2 H3 <-. unfold checked. repeat rewrite (proj2 (andb_true_iff _ _)) by (split; [apply Z.leb_le|apply Z.ltb_lt]; lia).
    cbn [mbind option_bind]. repeat rewrite (proj2 (andb_true_iff _ _)) by (split; [apply Z.leb_le|apply Z.ltb_lt]; lia). cbn [mbind option_bind].
    by rewrite (proj2 (andb_true_iff _ _)) by (split; [apply Z.leb_le|apply Z.ltb_lt]; lia). }
  assert (0 <= y / 400 <= 30 /\ 0 <= (y - 1) / 400 <= 30 /\ leaps (y + 1) = y / 4 - y / 100 + y / 400 /\
    leaps y = (y - 1) / 4 - (y - 1) / 100 + (y - 1) / 400) as (Hq & Hq' & E1 & E2).
  { split; [split; [apply Z.div_pos|apply Z.div_le_upper_bound]; lia|]. split; [split; [apply Z.div_pos|apply Z.div_le_upper_bound]; lia|].
    split; [|done]. unfold leaps. by replace (y + 1 - 1) with y by lia. }
  assert (mon = 1 \/ mon = 2 \/ mon = 3 \/ mon = 4 \/ mon = 5 \/ mon = 6 \/ mon = 7 \/ mon = 8 \/ mon = 9 \/ mon = 10 \/ mon = 11 \/ mon = 12)
    as Hmon by lia.
  assert (exists k, months_before y mon = k /\ 0 <= k <= 335 /\
    (153 * (mon + (if mon >? 2 then -3 else 9)) + 2) / 5 = k - (if mon <=? 2 then 0 else 59 + l) + (if mon <=? 2 then 306 else 0)) as (k & -> & Hk & ->).
  { unfold months_before, days_in_month. destruct_or! Hmon; subst mon; destruct (is_leap y); subst l; eexists; (split; [vm_compute; reflexivity|split; [lia|vm_compute; reflexivity]]). }
  change (leaps 1970) with 477 in *. destruct (Z.leb_spec mon 2); (split; [|lia]); apply Hc; lia.
Qed.

(** Exactly the dates of the calendar are accepted, a leap second included, and
    their seconds since the epoch are those of the calendar. *)
Lemma seconds_spec day mon year h mi sec s : 1 <= mon <= 12 -> 0 <= h -> 0 <= mi -> 0 <= sec ->
  seconds_of day mon year h mi sec = Some s <->
  (1970 <= year <= 9999 /\ 1 <= day <= days_in_month year mon /\ h <= 23 /\ mi <= 59 /\ sec <= 60) /\
  Z.of_N (val s) = calendar_days year mon day * 86400 + h * 3600 + mi * 60 + sec.
Proof.
  intros Hmon Hh Hmi Hsec. unfold seconds_of.
  destruct (Z.gtb_spec h 23), (Z.gtb_spec mi 59), (Z.gtb_spec sec 60); cbn [orb]; try (split; [done|intros [? _]; lia]).
  destruct (Z.leb_spec 1970 year), (Z.leb_spec year 9999); cbn [andb negb]; try (split; [done|intros [? _]; lia]).
  destruct (Z.leb_spec 1 day), (Z.leb_spec day (days_in_month year mon)); cbn [andb negb]; try (split; [done|intros [? _]; lia]).
  assert (days_in_month year mon <= 31) as Hdm by (unfold days_in_month; repeat case_match; lia).
  destruct (days_spec year mon day) as [-> Hb]; [lia..|]. cbn [mbind option_bind]. set (d := calendar_days year mon day) in *.
  unfold checked. rewrite (proj2 (andb_true_iff _ _)) by (split; [apply Z.leb_le|apply Z.ltb_lt]; lia). cbn [mbind option_bind].
  rewrite (proj2 (andb_true_iff _ _)) by (split; [apply Z.leb_le|apply Z.ltb_lt]; lia). cbn [mbind option_bind].
  destruct (Z.ltb_spec (d * 86400 + (h * 3600 + mi * 60 + sec)) 0); [lia|]. split.
  - intros [= <-]. split; [lia|]. rewrite val_wrap by lia. lia.
  - intros [_ Es]. f_equal. apply val_inj. rewrite val_wrap by lia. lia.
Qed.
