(* ===== verification/Transport.v ===== *)
(** One JSON-RPC exchange: the errors, the raw failures and the call of
    [src/client/http.rs].

    The network ([ureq]), JSON ([serde_json]), hexadecimal ([hex]), URLs ([url]),
    random bytes and the system clock are parameters; the texts of [Display],
    which nothing decides on, are one more. A response carries the bytes its
    reader gives and how it ended. *)

From Stdlib Require Import ZArith Ascii.
From stdpp Require Import strings.
From S2P Require Import Prelude State Bytes Error Cbor VerificationError Topology Batch Time HttpDate.
Local Open Scope N_scope.

Infix "+++" := String.append (at level 60, right associativity) : string_scope.

(** * Errors *)

Module HttpError.
Inductive t : Type :=
| Configuration (m : string)
| Transport (m : string)
| Http (status : N) (body : string)
| Rpc (code : Z) (message : string)
| Decode (m : string)
| ResponseTooLarge (limit : N)
| Rejected (m : string)
| Timeout
| Cancelled
| StateNotFound
| StateExpired
| ProofOfOtherData
| StateCertifiedWithOtherData
| StateUnknown
| CertifiedStateUnavailable
| StateIncluded
| ServerBusy
| OverloadTimeout (retry_after : option Duration) (cause : t).
End HttpError.
Abbreviation HttpError := HttpError.t.

Definition MAX_RESPONSE_BODY_BYTES : N := 8 * 1024 * 1024.
Definition MAX_ERROR_BODY_BYTES : N := 64 * 1024.
Definition MAX_PROOF_HEX_CHARS : N := MAX_RESPONSE_BODY_BYTES - 1024.

Definition RPC_STATE_NOT_FOUND : Z := -32020.
Definition RPC_INCLUSION_PENDING : Z := -32021.
Definition RPC_STATE_INCLUDED : Z := -32022.
Definition RPC_SERVER_BUSY : Z := -32023.
Definition RPC_INTERNAL_ERROR : Z := -32603.

(** * The parameters *)

(** [Display] of the errors, and of an invalid UTF-8 body. *)
Class Texts : Type := {
  show_error : Error -> string;
  show_cbor : CborError -> string;
  show_verification : VerificationError -> string;
  show_view : PartitionViewError -> string;
  show_http : HttpError -> string;
  show_utf8 : bytes -> string;
}.

(** [serde_json::Value]: its accessors and the values [json!] builds. [as_object]
    gives the entries in the order of the map. *)
Class Serde : Type := {
  Value : Type;
  json_from_str : string -> string + Value;
  json_to_string : Value -> string;
  as_str : Value -> option string;
  as_u64 : Value -> option u64;
  as_i64 : Value -> option Z;
  as_bool : Value -> option bool;
  as_array : Value -> option (list Value);
  as_object : Value -> option (list (string * Value));
  is_null : Value -> bool;
  is_number : Value -> bool;
  json_string : string -> Value;
  json_u64 : u64 -> Value;
  json_bool : bool -> Value;
  json_array : list Value -> Value;
  json_object : list (string * Value) -> Value;
}.

Class HexCodec : Type := { hex_encode : bytes -> string; hex_decode : string -> string + bytes }.

(** What the client asks of a parsed URL. *)
Record ParsedUrl : Type := {
  scheme : string; has_host : bool; username : string; has_password : bool; has_fragment : bool }.

(** A request of the agent, and what it answers. *)
Record HttpRequest : Type := {
  request_url : string; request_headers : list (string * string); request_timeout : option Duration; request_body : string }.

Inductive IoKind : Type := IoTimedOut | IoWouldBlock | IoOther.
Record IoError : Type := { io_kind : IoKind; io_text : string }.
Record Response : Type := { response_status : N; retry_after_header : option string; body_bytes : bytes; body_error : option IoError }.

Inductive UreqKind : Type := InvalidUrl | UnknownScheme | InvalidProxyUrl | ProxyUnauthorized | TooManyRedirects | OtherKind.
(** A link of an error's source chain: whether its [Debug] text names an invalid
    certificate, and the [io::Error] it is. *)
Record ErrorLink : Type := { invalid_certificate : bool; link_io : option IoKind }.
Record UreqTransport : Type := { ureq_kind : UreqKind; ureq_text : string; ureq_chain : list ErrorLink }.

Inductive Sent : Type :=
| SentOk (r : Response)
| SentStatus (r : Response)
| SentTransport (e : UreqTransport).

Class Host (W : Type) : Type := {
  ureq_send : HttpRequest -> W -> Sent * W;
  getrandom16 : W -> option (arr 16) * W;
  system_now : W -> Z * W;
  url_parse : string -> string + ParsedUrl;
}.

(** * Raw failures *)

Section transport.
Context `{Texts} `{Serde} `{HexCodec} {W : Type} `{Host W}.

(** [Value::get] *)
Definition get (v : Value) (k : string) : option Value :=
  m ← as_object v; snd <$> List.find (fun e => bool_decide (fst e = k)) m.

Inductive EnvelopeError : Type :=
| EnvelopeDecode (m : string)
| EnvelopeRpc (code : Z) (message : string) (data : option Value) (retry_after : option Duration)
| NullIdRpc (code : Z) (data : option Value) (retry_after : option Duration).

Inductive RawFailure : Type :=
| RawHttp (status : N) (body : string) (rpc : option EnvelopeError) (retry_after : option Duration) (too_large : option N)
    (interrupted : option RawFailure)
| RawTransport (m : string)
| RawFatal (m : string)
| RawTimedOut (m : string)
| RawEnvelope (e : EnvelopeError)
| RawTooLarge (limit : N)
| RawConfig (e : HttpError).

Definition is_timeout_kind (k : IoKind) : bool := match k with IoTimedOut | IoWouldBlock => true | IoOther => false end.

(** The walk along the source chain. *)
Fixpoint classify_chain (text : string) (chain : list ErrorLink) : RawFailure :=
  match chain with
  | [] => RawTransport text
  | e :: chain =>
      if invalid_certificate e then RawFatal text else
      match link_io e with
      | Some k => if is_timeout_kind k then RawTimedOut text else classify_chain text chain
      | None => classify_chain text chain
      end
  end.

Definition transport_failure (e : UreqTransport) : RawFailure :=
  match ureq_kind e with
  | OtherKind => classify_chain (ureq_text e) (ureq_chain e)
  | _ => RawFatal (ureq_text e)
  end.

Definition io_failure (e : IoError) : RawFailure :=
  if is_timeout_kind (io_kind e) then RawTimedOut (io_text e) else RawTransport (io_text e).

Definition string_of (b : bytes) : string := String.string_of_list_byte b.

(** Reading at most [limit + 1] bytes: an error of the reader counts only if it
    comes before them. *)
Definition read_response_raw (r : Response) (limit : N) : outcome RawFailure string :=
  let b := take (N.to_nat (limit + 1)) (body_bytes r) in
  _ ← match body_error r with
      | Some e => if len (body_bytes r) <=? limit then Err (io_failure e) else Ok tt
      | None => Ok tt
      end;
  if limit <? len b then Err (RawTooLarge limit) else
  if utf8_valid b then Ok (string_of b) else Err (RawEnvelope (EnvelopeDecode (show_utf8 b))).

Definition read_error_body (r : Response) : string * option N * option RawFailure :=
  match read_response_raw r MAX_ERROR_BODY_BYTES with
  | Ok body => (body, None, None)
  | Err (RawTooLarge limit) => (""%string, Some limit, None)
  | Err (RawTimedOut m) => (""%string, None, Some (RawTimedOut m))
  | Err (RawTransport m) => (""%string, None, Some (RawTransport m))
  | _ => (""%string, None, None)
  end.

(** * The envelope *)

Definition NULL_ID_MESSAGE : string := "invalid or missing JSON-RPC id".

(** An error answer to no request: an id of null and no result. *)
Definition null_id_error (object : Value) : option EnvelopeError :=
  id ← get object "id";
  if is_null id && negb (is_some (get object "result")) then
    error ← get object "error";
    code ← (c ← get error "code"; as_i64 c);
    _ ← (m ← get error "message"; as_str m);
    Some (NullIdRpc code (get error "data") None)
  else None.

Definition decode_rpc_envelope (text expected_id : string) : outcome EnvelopeError Value :=
  let decode m := EnvelopeDecode m in
  value ← match json_from_str text with inl e => Err (EnvelopeDecode e) | inr v => Ok v end;
  _ ← ok_or (decode "JSON-RPC response must be an object"%string) (as_object value);
  if negb (bool_decide ((v ← get value "jsonrpc"; as_str v) = Some "2.0"%string))
  then Err (decode "invalid or missing JSON-RPC version"%string) else
  match null_id_error value with
  | Some e => Err e
  | None =>
      response_id ← ok_or (decode "invalid or missing JSON-RPC id"%string) (v ← get value "id"; as_str v);
      if negb (bool_decide (response_id = expected_id)) then Err (decode "JSON-RPC id mismatch"%string) else
      match get value "result", get value "error" with
      | Some _, Some _ => Err (decode "JSON-RPC response contains both result and error"%string)
      | Some result, None => Ok result
      | None, Some error =>
          code ← ok_or (decode "invalid JSON-RPC error code"%string) (c ← get error "code"; as_i64 c);
          message ← ok_or (decode "invalid JSON-RPC error message"%string) (m ← get error "message"; as_str m);
          Err (EnvelopeRpc code message (get error "data") None)
      | None, None => Err (decode "JSON-RPC response contains neither result nor error"%string)
      end
  end.

(** The header's delay on an error that arrived with a 2xx status. *)
Definition with_retry_after (retry_after : option Duration) (e : EnvelopeError) : EnvelopeError :=
  match e with
  | EnvelopeRpc code message data _ => EnvelopeRpc code message data retry_after
  | NullIdRpc code data _ => NullIdRpc code data retry_after
  | EnvelopeDecode m => EnvelopeDecode m
  end.
End transport.
