(* ===== verification/TrustBaseJson.v ===== *)
(** Reading a trust base from its JSON document:
    [RootTrustBase::from_json] of [src/api/bft/root_trust_base.rs].

    [from_json_valid]: what is read is a valid trust base, field by field the
    document's. *)

From Stdlib Require Import ZArith Ascii.
From stdpp Require Import strings.
From S2P Require Import Prelude Bytes Error Hash Ids Secp TrustBase Time HttpDate Transport.
Local Open Scope N_scope.

Definition MAX_TRUST_BASE_JSON_BYTES : N := 1024 * 1024.

(** [str::parse::<u64>]: digits after an optional plus sign. *)
Definition parse_u64 (s : string) : option u64 :=
  let digits := match chars s with "+"%char :: l => l | l => l end in
  if bool_decide (digits = []) || negb (all_digits digits) then None else try_uint 64 (Z.to_N (decimal digits)).

Section json.
Context `{K256} `{Serde} `{HexCodec}.

(** [Value::index]: a missing field is null, which no accessor reads. *)
Definition field {A} (e : Error) (v : Value) (k : string) (read : Value -> result A) : result A :=
  match get v k with Some f => read f | None => Err e end.

Definition integer (v : Value) : result u64 :=
  if is_number v then ok_or (OutOfRange "trust base integer") (as_u64 v) else
  match as_str v with
  | Some s => ok_or (OutOfRange "trust base integer") (parse_u64 s)
  | None => Err (UnexpectedValue "trust base integer")
  end.

Definition integer_field (v : Value) (k : string) : result u64 := field (UnexpectedValue "trust base integer") v k integer.

Definition string_field (what : string) (v : Value) (k : string) : result string :=
  field (UnexpectedValue what) v k (fun f => ok_or (UnexpectedValue what) (as_str f)).

Definition decode_hex (s : string) : result bytes :=
  let s := match chars s with "0"%char :: "x"%char :: l => text l | _ => s end in
  match hex_decode s with inr b => Ok b | inl _ => Err (UnexpectedValue "trust base hex") end.

(** A string of the document is UTF-8. *)
Definition text_of (s : string) : result str := or_panic (mk_sub (String.list_byte_of_string s)).

Definition read_node (node : Value) : result RootTrustBaseNodeInfo :=
  node_id ← string_field "nodeId must be a string" node "nodeId";
  node_id ← text_of node_id;
  hex ← string_field "sigKey must be a string" node "sigKey";
  key ← decode_hex hex;
  signing_key ← PublicKey_from_bytes key;
  stake ← integer_field node "stake";
  Ok {| node_id := node_id; node_signing_key := signing_key; stake := stake |}.

Definition from_json (input : string) : result RootTrustBase :=
  if MAX_TRUST_BASE_JSON_BYTES <? N.of_nat (String.length input) then Err (InvalidTrustBase "trust base JSON exceeds safety limit") else
  root ← match json_from_str input with inl _ => Err (UnexpectedValue "invalid trust base JSON") | inr v => Ok v end;
  id ← integer_field root "networkId";
  id ← ok_or (OutOfRange "network id") (try_uint 16 (val id));
  network_id ← NetworkId.new id;
  nodes ← field (UnexpectedValue "rootNodes must be an array") root "rootNodes"
    (fun f => ok_or (UnexpectedValue "rootNodes must be an array") (as_array f));
  if MAX_ROOT_NODES <? len nodes then Err (InvalidTrustBase "validator count exceeds safety limit") else
  root_nodes ← mapO read_node nodes;
  version ← integer_field root "version";
  epoch ← integer_field root "epoch";
  start ← integer_field root "epochStartRound";
  threshold ← integer_field root "quorumThreshold";
  try_new version network_id epoch start root_nodes threshold.

(** * What is read *)

Definition reads (root : Value) (k : string) (n : u64) : Prop := exists v, get root k = Some v /\ integer v = Ok n.

Lemma integer_field_Ok v k n : integer_field v k = Ok n <-> reads v k n.
Proof. unfold integer_field, field, reads. destruct (get v k) as [f|]; [naive_solver|]. split; [done|by intros (? & ? & _)]. Qed.

Lemma from_json_valid input tb : from_json input = Ok tb -> valid_trust_base tb /\
  exists root nodes, json_from_str input = inr root /\ N.of_nat (String.length input) <= 2 ^ 20 /\
    reads root "version" (tb_version tb) /\ reads root "epoch" (tb_epoch tb) /\ reads root "epochStartRound" (epoch_start_round tb) /\
    reads root "quorumThreshold" (quorum_threshold tb) /\
    (exists id, reads root "networkId" id /\ val id = val (val (tb_network_id tb))) /\
    (v ← get root "rootNodes"; as_array v) = Some nodes /\ Forall2 (fun v n => read_node v = Ok n) nodes (root_nodes tb).
Proof.
  unfold from_json. intros Hr. destruct (N.ltb_spec MAX_TRUST_BASE_JSON_BYTES (N.of_nat (String.length input))); [done|].
  destruct (json_from_str input) as [|root]; [done|]. cbn [mbind outcome_bind] in Hr.
  apply bind_Ok in Hr as (id & Hid%integer_field_Ok & Hr). apply bind_Ok in Hr as (id16 & Hid16%ok_or_Ok%try_uint_Some & Hr).
  apply bind_Ok in Hr as (nid & Hn & Hr). apply bind_Ok in Hr as (nodes & Ha & Hr). destruct (_ <? _); [done|].
  apply bind_Ok in Hr as (ns & Hns%mapO_Forall2 & Hr). apply bind_Ok in Hr as (ver & Hv%integer_field_Ok & Hr).
  apply bind_Ok in Hr as (ep & He%integer_field_Ok & Hr). apply bind_Ok in Hr as (st & Hs%integer_field_Ok & Hr).
  apply bind_Ok in Hr as (th & Ht%integer_field_Ok & Hr). unfold try_new in Hr.
  apply bind_Ok in Hr as ([] & Hval%validate_spec & [= <-]). split; [exact Hval|]. exists root, nodes.
  split_and!; try done.
  - exists id. split; [done|]. cbn [tb_network_id]. apply NetworkId.new_Ok in Hn. unfold NetworkId.id in Hn. by rewrite Hn, Hid16.
  - unfold field in Ha. destruct (get root "rootNodes") as [f|]; [|done]. by apply ok_or_Ok in Ha.
Qed.
End json.
