(* ===== verification/Rpc.v ===== *)
(** The JSON-RPC client of [src/client/http.rs]: its configuration, one call,
    the reading of results, and idempotent submission. *)

From Stdlib Require Import ZArith Ascii.
From stdpp Require Import strings.
From S2P Require Import Prelude State Bytes Error Cbor Hash Codec Ids Bft Certificates VerificationError Secp Predicates TrustBase Seal Proofs Transactions Verify Topology ViewCodec Plan Batch Time HttpDate Transport.
Local Open Scope N_scope.

(** * Configuration *)

(** [HttpAggregatorClient]; the agent's own settings (timeout of 30 s, HTTPS only,
    no redirects) are the host's. *)
Record HttpAggregatorClient : Type := {
  url : string;
  api_key : option string;
  poll_interval : Duration;
  poll_attempts : u32;
  client_long_poll : bool;
  client_unknown_grace : u32;
  allow_insecure_http : bool;
}.

Definition DEFAULT_UNKNOWN_GRACE : u32 := wrap 32 2.

Definition http_new (url : string) : HttpAggregatorClient := {|
  url := url; api_key := None; poll_interval := from_secs (wrap 64 1); poll_attempts := wrap 32 15; client_long_poll := true;
  client_unknown_grace := DEFAULT_UNKNOWN_GRACE; allow_insecure_http := false |}.
Definition new_insecure_http (url : string) : HttpAggregatorClient := {|
  url := url; api_key := None; poll_interval := from_secs (wrap 64 1); poll_attempts := wrap 32 15; client_long_poll := true;
  client_unknown_grace := DEFAULT_UNKNOWN_GRACE; allow_insecure_http := true |}.

Definition with_api_key (self : HttpAggregatorClient) (key : string) : HttpAggregatorClient := {|
  url := url self; api_key := Some key; poll_interval := poll_interval self; poll_attempts := poll_attempts self;
  client_long_poll := client_long_poll self; client_unknown_grace := client_unknown_grace self;
  allow_insecure_http := allow_insecure_http self |}.
Definition with_polling (self : HttpAggregatorClient) (interval : Duration) (attempts : u32) : HttpAggregatorClient := {|
  url := url self; api_key := api_key self; poll_interval := interval; poll_attempts := attempts;
  client_long_poll := client_long_poll self; client_unknown_grace := client_unknown_grace self;
  allow_insecure_http := allow_insecure_http self |}.
Definition with_long_poll (self : HttpAggregatorClient) (enabled : bool) : HttpAggregatorClient := {|
  url := url self; api_key := api_key self; poll_interval := poll_interval self; poll_attempts := poll_attempts self;
  client_long_poll := enabled; client_unknown_grace := client_unknown_grace self; allow_insecure_http := allow_insecure_http self |}.
Definition with_unknown_grace (self : HttpAggregatorClient) (polls : u32) : HttpAggregatorClient := {|
  url := url self; api_key := api_key self; poll_interval := poll_interval self; poll_attempts := poll_attempts self;
  client_long_poll := client_long_poll self; client_unknown_grace := polls; allow_insecure_http := allow_insecure_http self |}.

Inductive SubmitOutcome : Type := Accepted | AlreadySubmitted.
Inductive SubmitReply : Type := ReplyAccepted | StateIdExists | QueueDuplicate (e : HttpError).

Section rpc.
Context `{Sha2} `{K256} `{Texts} `{Serde} `{HexCodec} {W : Type} `{Host W}.

Definition validate_endpoint (self : HttpAggregatorClient) : outcome HttpError ParsedUrl :=
  let config m := Err (HttpError.Configuration m) in
  parsed ← match url_parse (url self) with inl e => config ("invalid gateway URL: " +++ e)%string | inr p => Ok p end;
  let https := bool_decide (scheme parsed = "https"%string) in
  if negb (https || bool_decide (scheme parsed = "http"%string)) || negb (has_host parsed)
  then config "gateway URL must be an absolute HTTP(S) URL"%string else
  if negb (bool_decide (username parsed = ""%string)) || has_password parsed
  then config "gateway URL must not contain credentials"%string else
  if has_fragment parsed then config "gateway URL must not contain a fragment"%string else
  if negb https && negb (allow_insecure_http self) then config "gateway URL must use HTTPS"%string else
  if negb https && is_some (api_key self) then config "API keys must never be sent over plaintext HTTP"%string else
  Ok parsed.

Definition try_new_http (url : string) : outcome HttpError HttpAggregatorClient :=
  let client := http_new url in
  _ ← validate_endpoint client;
  Ok client.

(** * One call *)

Definition observe {E A} (f : W -> A * W) : M W E A := fun w => let '(a, w) := f w in (Ok a, w).

Definition request_id {E} : M W E string :=
  b ← observe getrandom16;
  mret (match b with Some b => hex_encode (val (b : arr 16)) | None => "0"%string end).

Definition parse_retry_after {E} (value : option string) : M W E (option Duration) :=
  now ← observe system_now;
  mret (parse_retry_after_at value now).

Definition rpc_raw (self : HttpAggregatorClient) (method : string) (params : Value) (headers : list (string * string))
    (timeout : option Duration) : M W RawFailure Value :=
  _ ← liftM (map_err RawConfig (validate_endpoint self));
  id ← request_id;
  let body := json_to_string (json_object [("id", json_string id); ("jsonrpc", json_string "2.0"); ("method", json_string method);
    ("params", params)])%string in
  sent ← observe (ureq_send {| request_url := url self; request_headers := ("Content-Type", "application/json")%string :: headers;
    request_timeout := timeout; request_body := body |});
  match sent with
  | SentTransport e => liftM (Err (transport_failure e))
  | SentStatus r =>
      retry_after ← parse_retry_after (retry_after_header r);
      let '(body, too_large, interrupted) := read_error_body r in
      let rpc := match decode_rpc_envelope body id with Err (EnvelopeRpc c m d t) => Some (EnvelopeRpc c m d t) | _ => None end in
      liftM (Err (RawHttp (response_status r) body rpc retry_after too_large interrupted))
  | SentOk r =>
      retry_after ← parse_retry_after (retry_after_header r);
      if negb ((200 <=? response_status r) && (response_status r <? 300)) then
        let '(body, too_large, interrupted) := read_error_body r in
        liftM (Err (RawHttp (response_status r) body None retry_after too_large interrupted))
      else
        text ← liftM (read_response_raw r MAX_RESPONSE_BODY_BYTES);
        liftM (map_err (fun e => RawEnvelope (with_retry_after retry_after e)) (decode_rpc_envelope text id))
  end.

Fixpoint raw_to_http (e : RawFailure) : HttpError :=
  match e with
  | RawHttp status body _ _ too_large interrupted =>
      match too_large with
      | Some limit => HttpError.ResponseTooLarge limit
      | None =>
          match interrupted with
          | Some (RawTimedOut m as cut) => raw_to_http cut
          | _ => HttpError.Http status body
          end
      end
  | RawTransport m | RawTimedOut m | RawFatal m => HttpError.Transport m
  | RawEnvelope (EnvelopeDecode m) => HttpError.Decode m
  | RawEnvelope (NullIdRpc _ _ _) => HttpError.Decode NULL_ID_MESSAGE
  | RawEnvelope (EnvelopeRpc code message _ _) => HttpError.Rpc code message
  | RawTooLarge limit => HttpError.ResponseTooLarge limit
  | RawConfig e => e
  end.

Definition rpc (self : HttpAggregatorClient) (method : string) (params : Value) (headers : list (string * string)) : M W HttpError Value :=
  map_errM raw_to_http (rpc_raw self method params headers None).

Definition enveloped (failure : RawFailure) : HttpError :=
  match failure with
  | RawHttp _ _ (Some (EnvelopeRpc code message _ _)) _ _ _ => HttpError.Rpc code message
  | other => raw_to_http other
  end.

Definition rpc_enveloped (self : HttpAggregatorClient) (method : string) (params : Value) (headers : list (string * string)) :
    M W HttpError Value :=
  map_errM enveloped (rpc_raw self method params headers None).

(** * Overload *)

Definition retryable_flag (data : option Value) : bool :=
  bool_decide ((d ← data; v ← get d "retryable"; as_bool v) = Some true).

Definition rpc_overload (e : EnvelopeError) : bool :=
  match e with
  | EnvelopeRpc code _ data _ | NullIdRpc code data _ => (code =? rpc_code.CONCURRENCY_LIMIT)%Z || retryable_flag data
  | EnvelopeDecode _ => false
  end.
Definition rpc_retry_after (e : EnvelopeError) : option Duration :=
  match e with EnvelopeRpc _ _ _ t | NullIdRpc _ _ t => t | EnvelopeDecode _ => None end.

Definition overload_of (failure : RawFailure) : option (option Duration) :=
  match failure with
  | RawHttp status _ rpc retry_after _ _ =>
      if bool_decide (status ∈ [502; 503; 504; 429]) || from_option rpc_overload false rpc then Some retry_after else None
  | RawEnvelope e => if rpc_overload e then Some (rpc_retry_after e) else None
  | _ => None
  end.

Definition overload_pause (failure : RawFailure) (retry_after : option Duration) (interval left_ : Duration) : outcome HttpError Duration :=
  let pause := dur_max interval (default (nanos 0) retry_after) in
  if val left_ <? val pause then Err (HttpError.OverloadTimeout retry_after (raw_to_http failure)) else Ok pause.

Definition transport_pause (interval left_ : Duration) : outcome HttpError Duration :=
  if val left_ <? val interval then Err HttpError.Timeout else Ok interval.

(** * Results *)

Definition UNSOLICITED_ECHO : string := "waitedMs echoed to a request without waitMs".

Definition parse_waited_ms (value : Value) : outcome string u64 :=
  match as_u64 value with
  | Some v => if val v <=? val MAX_WAIT_MS then Ok v else Err "malformed waitedMs"%string
  | None => Err "malformed waitedMs"%string
  end.

Definition error_echo_of (failure : RawFailure) : option Value :=
  match failure with
  | RawEnvelope (EnvelopeRpc _ _ data _) | RawHttp _ _ (Some (EnvelopeRpc _ _ data _)) _ _ _ => d ← data; get d "waitedMs"
  | _ => None
  end.

Definition decode_inclusion_proof_response (b : bytes) : outcome HttpError InclusionProofResponse :=
  let d := Decoder.new b in
  _ ← map_err (fun e => HttpError.Decode (show_cbor e)) (Decoder.finish d);
  map_err (fun e => HttpError.Decode (show_error e)) (from_cbor d).

Definition decode_non_inclusion_proof_response (b : bytes) : outcome HttpError NonInclusionProof :=
  let d := Decoder.new b in
  _ ← map_err (fun e => HttpError.Decode (show_cbor e)) (Decoder.finish d);
  items ← map_err (fun e => HttpError.Decode (show_cbor e)) (Decoder.array d (Some 2));
  i0 ← or_panic (items !! 0%nat);
  _ ← map_err (fun e => HttpError.Decode (show_cbor e)) (Decoder.uint i0);
  i1 ← or_panic (items !! 1%nat);
  map_err (fun e => HttpError.Decode (show_error e)) (from_cbor i1).

(** The bytes of a hexadecimal field within the limit. *)
Definition proof_hex {E} (too_large : N -> E) (bad : string -> E) (encoded : string) : outcome E bytes :=
  if MAX_PROOF_HEX_CHARS <? N.of_nat (String.length encoded) then Err (too_large MAX_PROOF_HEX_CHARS) else
  match hex_decode encoded with inl e => Err (bad e) | inr b => Ok b end.

Record V2Result : Type := { response : InclusionProofResponse; status : option ProofStatus.ProofStatus; waited_ms : option u64 }.

Definition decode_v2_result (result : Value) (wait_sent : bool) : outcome HttpError V2Result :=
  '(encoded, status, waited_ms) ← match as_str result with
    | Some s => Ok (s, None, None)
    | None =>
        _ ← ok_or (HttpError.Decode "expected hex string") (as_object result);
        proof ← ok_or (HttpError.Decode "status result lacks a proof string") (v ← get result "proof"; as_str v);
        let status := v ← get result "status"; s ← as_str v; ProofStatus.from_wire s in
        waited_ms ← match get result "waitedMs" with
          | Some v => if negb wait_sent then Err (HttpError.Decode UNSOLICITED_ECHO) else Some <$> map_err HttpError.Decode (parse_waited_ms v)
          | None => Ok None
          end;
        Ok (proof, status, waited_ms)
    end;
  b ← proof_hex HttpError.ResponseTooLarge HttpError.Decode encoded;
  r ← decode_inclusion_proof_response b;
  Ok {| response := r; status := status; waited_ms := waited_ms |}.

(** * Submission *)

Fixpoint contains_prefix (pat s : list ascii) : bool :=
  match pat, s with
  | [], _ => true
  | p :: pat, c :: s => bool_decide (p = c) && contains_prefix pat s
  | _, _ => false
  end.
Fixpoint contains (pat s : list ascii) : bool :=
  contains_prefix pat s || match s with [] => false | _ :: s => contains pat s end.

Definition is_queue_duplicate (code : Z) (data : option Value) : bool :=
  (code =? RPC_INTERNAL_ERROR)%Z &&
  match d ← data; as_str d with
  | Some d => let d := lower <$> chars d in contains (chars "duplicate key") d || contains (chars "e11000") d
  | None => false
  end.

Definition submit_inner (self : HttpAggregatorClient) (data : CertificationData) : M W HttpError SubmitReply :=
  let request := CertificationRequest_new data in
  let params := json_string (hex_encode (CertificationRequest_to_cbor request)) in
  let headers := ("X-State-ID", hex_encode (val (sid_bytes (cr_state_id request))))%string ::
    match api_key self with Some key => [("X-API-Key"%string, key)] | None => [] end in
  raw ← tryM (rpc_raw self "certification_request" params headers None);
  match raw with
  | inr result =>
      let status := default ""%string (s ← get result "status"; as_str s) in
      if bool_decide (status = "SUCCESS"%string) then mret ReplyAccepted else
      if bool_decide (status = "STATE_ID_EXISTS"%string) then mret StateIdExists else
      liftM (Err (HttpError.Rejected status))
  | inl (RawEnvelope (EnvelopeRpc code message data _) as failure) =>
      if is_queue_duplicate code data then mret (QueueDuplicate (HttpError.Rpc code message)) else liftM (Err (raw_to_http failure))
  | inl failure => liftM (Err (raw_to_http failure))
  end.

Definition resubmit_certification_request (self : HttpAggregatorClient) (data : CertificationData) : M W HttpError SubmitOutcome :=
  reply ← submit_inner self data;
  mret (match reply with ReplyAccepted => Accepted | _ => AlreadySubmitted end).

Definition http_submit (self : HttpAggregatorClient) (data : CertificationData) : M W HttpError unit :=
  reply ← submit_inner self data;
  match reply with
  | ReplyAccepted => mret tt
  | StateIdExists => liftM (Err (HttpError.Rejected "STATE_ID_EXISTS"))
  | QueueDuplicate error => liftM (Err error)
  end.

(** What a proof of other data means: only one that verifies is a lost race. *)
Definition conflict_error (proof : InclusionProof) (state_id : StateId) (trust_base : RootTrustBase) : outcome HttpError HttpError :=
  match verify_inclusion_proof_for trust_base proof state_id (reference_time proof) with
  | Ok _ => Ok HttpError.StateCertifiedWithOtherData
  | Err _ => Ok HttpError.ProofOfOtherData
  | Panic => Panic
  end.

(** * Lookups *)

Record WaitedLookup : Type := {
  wl_response : InclusionProofResponse; wl_status : option ProofStatus.ProofStatus; wl_waited_ms : option u64 }.

Definition lookup_params (state_id : StateId) : list (string * Value) :=
  [("stateId", json_string (hex_encode (val (sid_bytes state_id)))); ("includeStatus", json_bool true)]%string.
Definition wait_param (wait : option u64) : list (string * Value) :=
  match wait with Some w => [("waitMs"%string, json_u64 w)] | None => [] end.

Definition lookup_inclusion_proof (self : HttpAggregatorClient) (state_id : StateId) :
    M W HttpError (InclusionProofResponse * option ProofStatus.ProofStatus) :=
  result ← rpc self "get_inclusion_proof.v2" (json_object (lookup_params state_id)) [];
  parsed ← liftM (decode_v2_result result false);
  mret (response parsed, status parsed).

Definition lookup_inclusion_proof_with_wait (self : HttpAggregatorClient) (state_id : StateId) (wait : WaitRequest) (timeout : Duration) :
    M W HttpError WaitedLookup :=
  let sent := wait_on_wire (wait_ms wait) (ms timeout) (margin_ms wait) in
  result ← map_errM raw_to_http (rpc_raw self "get_inclusion_proof.v2" (json_object (lookup_params state_id ++ wait_param sent)) []
    (Some (dur_max timeout (from_millis (wrap 64 1)))));
  parsed ← liftM (decode_v2_result result (is_some sent));
  mret {| wl_response := response parsed; wl_status := status parsed; wl_waited_ms := waited_ms parsed |}.

Definition get_non_inclusion_proof (self : HttpAggregatorClient) (state_id : StateId) : M W HttpError NonInclusionProof :=
  let params := json_object [("stateId"%string, json_string (hex_encode (val (sid_bytes state_id))))] in
  let classify e := match e with
    | HttpError.Rpc code _ =>
        if (code =? RPC_STATE_NOT_FOUND)%Z then HttpError.CertifiedStateUnavailable else
        if (code =? RPC_STATE_INCLUDED)%Z then HttpError.StateIncluded else
        if (code =? RPC_SERVER_BUSY)%Z then HttpError.ServerBusy else e
    | _ => e
    end in
  result ← map_errM classify (rpc_enveloped self "get_non_inclusion_proof.v1" params []);
  encoded ← liftM (ok_or (HttpError.Decode "expected hex string") (as_str result));
  b ← liftM (proof_hex HttpError.ResponseTooLarge HttpError.Decode encoded);
  proof ← liftM (decode_non_inclusion_proof_response b);
  liftM (map_err (fun e => HttpError.Decode (show_verification e)) (for_state proof state_id)).
End rpc.
