(* ===== verification/Wait.v ===== *)
(** Waiting for an inclusion proof within one deadline:
    [src/client/http/wait.rs].

    The loop runs over a host with a clock; [fuel] bounds its iterations and
    those of its pauses. [wait_fuel] and [pause_fuel] are enough for every run
    whose clock does what it documents ([WaitSpec.v]). Counters are [u32]s that
    wrap, as they do in a release build. *)

From Stdlib Require Import ZArith.
From stdpp Require Import strings.
From S2P Require Import Prelude State Bytes Error Ids Proofs Batch Executor Time HttpDate Transport Rpc.
Local Open Scope N_scope.

Definition DEFAULT_PREFERRED_WAIT : Duration := from_secs (wrap 64 20).
Definition DEFAULT_MAX_REQUEST_TIMEOUT : Duration := from_secs (wrap 64 30).
Definition MIN_PAUSE : Duration := from_millis (wrap 64 10).
Definition SLEEP_SLICE : Duration := from_millis (wrap 64 50).
Definition THIRTY_YEARS : Duration := from_secs (wrap 64 (30 * 365 * 86400)).

Record WaitOptions : Type := {
  total : Duration;
  long_poll : bool;
  preferred_wait : Duration;
  margin : Duration;
  max_request_timeout : Duration;
  wait_poll_interval : option Duration;
  wait_unknown_grace : option u32;
  cancel : bool;
  plain_calls_keep_request_timeout : bool;
}.

Definition WaitOptions_new (total : Duration) : WaitOptions := {|
  total := total; long_poll := true; preferred_wait := DEFAULT_PREFERRED_WAIT; margin := from_millis DEFAULT_WAIT_MARGIN_MS;
  max_request_timeout := DEFAULT_MAX_REQUEST_TIMEOUT; wait_poll_interval := None; wait_unknown_grace := None; cancel := false;
  plain_calls_keep_request_timeout := false |}.
Definition keep_plain_request_timeout (self : WaitOptions) : WaitOptions := {|
  total := total self; long_poll := long_poll self; preferred_wait := preferred_wait self; margin := margin self;
  max_request_timeout := max_request_timeout self; wait_poll_interval := wait_poll_interval self; wait_unknown_grace := wait_unknown_grace self;
  cancel := cancel self; plain_calls_keep_request_timeout := true |}.
Definition with_wait_long_poll (self : WaitOptions) (enabled : bool) : WaitOptions := {|
  total := total self; long_poll := enabled; preferred_wait := preferred_wait self; margin := margin self;
  max_request_timeout := max_request_timeout self; wait_poll_interval := wait_poll_interval self; wait_unknown_grace := wait_unknown_grace self;
  cancel := cancel self; plain_calls_keep_request_timeout := plain_calls_keep_request_timeout self |}.
Definition with_preferred_wait (self : WaitOptions) (wait : Duration) : WaitOptions := {|
  total := total self; long_poll := long_poll self; preferred_wait := wait; margin := margin self;
  max_request_timeout := max_request_timeout self; wait_poll_interval := wait_poll_interval self; wait_unknown_grace := wait_unknown_grace self;
  cancel := cancel self; plain_calls_keep_request_timeout := plain_calls_keep_request_timeout self |}.
Definition with_margin (self : WaitOptions) (value : Duration) : WaitOptions := {|
  total := total self; long_poll := long_poll self; preferred_wait := preferred_wait self; margin := value;
  max_request_timeout := max_request_timeout self; wait_poll_interval := wait_poll_interval self; wait_unknown_grace := wait_unknown_grace self;
  cancel := cancel self; plain_calls_keep_request_timeout := plain_calls_keep_request_timeout self |}.
Definition with_max_request_timeout (self : WaitOptions) (max : Duration) : WaitOptions := {|
  total := total self; long_poll := long_poll self; preferred_wait := preferred_wait self; margin := margin self;
  max_request_timeout := max; wait_poll_interval := wait_poll_interval self; wait_unknown_grace := wait_unknown_grace self;
  cancel := cancel self; plain_calls_keep_request_timeout := plain_calls_keep_request_timeout self |}.
Definition with_poll_interval (self : WaitOptions) (interval : Duration) : WaitOptions := {|
  total := total self; long_poll := long_poll self; preferred_wait := preferred_wait self; margin := margin self;
  max_request_timeout := max_request_timeout self; wait_poll_interval := Some interval; wait_unknown_grace := wait_unknown_grace self;
  cancel := cancel self; plain_calls_keep_request_timeout := plain_calls_keep_request_timeout self |}.
Definition with_wait_unknown_grace (self : WaitOptions) (polls : u32) : WaitOptions := {|
  total := total self; long_poll := long_poll self; preferred_wait := preferred_wait self; margin := margin self;
  max_request_timeout := max_request_timeout self; wait_poll_interval := wait_poll_interval self; wait_unknown_grace := Some polls;
  cancel := cancel self; plain_calls_keep_request_timeout := plain_calls_keep_request_timeout self |}.
(** The token itself is the caller's, in the world. *)
Definition with_cancel (self : WaitOptions) : WaitOptions := {|
  total := total self; long_poll := long_poll self; preferred_wait := preferred_wait self; margin := margin self;
  max_request_timeout := max_request_timeout self; wait_poll_interval := wait_poll_interval self; wait_unknown_grace := wait_unknown_grace self;
  cancel := true; plain_calls_keep_request_timeout := plain_calls_keep_request_timeout self |}.

(** * The budget of one call *)

Record CallPlan : Type := { plan_wait_ms : option u64; plan_timeout_ms : u64 }.

Definition max_u64 (a b : u64) : u64 := if val a <=? val b then b else a.

Definition plan_call (remaining_ms : u64) (options : WaitOptions) (send_wait : bool) : CallPlan :=
  let preferred := ms (preferred_wait options) in
  let margin := ms (margin options) in
  let max := ms (max_request_timeout options) in
  let wait :=
    if send_wait && long_poll options
    then min_u64 (min_u64 (min_u64 preferred (saturating_sub remaining_ms margin)) (saturating_sub max margin)) MAX_WAIT_MS
    else wrap 64 0 in
  if 0 <? val wait
  then {| plan_wait_ms := Some wait; plan_timeout_ms := max_u64 (min_u64 (wrap 64 (val wait + val margin)) remaining_ms) (wrap 64 1) |}
  else {| plan_wait_ms := None;
          plan_timeout_ms := if plain_calls_keep_request_timeout options then max_u64 max (wrap 64 1)
                             else max_u64 (min_u64 max remaining_ms) (wrap 64 1) |}.

Definition far_deadline {W} `{Monotonic W} (from : Instant) (span : Duration) : Instant :=
  default from (match checked_add from span with Some t => Some t | None => checked_add from THIRTY_YEARS end).

(** * Accounting *)

Record WaitStats : Type := {
  requests_sent : u32;
  long_poll_requests : u32;
  pending : u32;
  unknown : u32;
  overloaded : u32;
  transport_failures : u32;
  immediate_rechecks : u32;
  wait_dropped_for_missing_echo : bool;
}.

Definition no_stats : WaitStats := {|
  requests_sent := wrap 32 0; long_poll_requests := wrap 32 0; pending := wrap 32 0; unknown := wrap 32 0; overloaded := wrap 32 0;
  transport_failures := wrap 32 0; immediate_rechecks := wrap 32 0; wait_dropped_for_missing_echo := false |}.

Definition bump (n : u32) : u32 := wrap 32 (val n + 1).

Definition note_request (wait : bool) (s : WaitStats) : WaitStats := {|
  requests_sent := bump (requests_sent s);
  long_poll_requests := if wait then bump (long_poll_requests s) else long_poll_requests s;
  pending := pending s; unknown := unknown s; overloaded := overloaded s; transport_failures := transport_failures s;
  immediate_rechecks := immediate_rechecks s; wait_dropped_for_missing_echo := wait_dropped_for_missing_echo s |}.
Definition note_pending (s : WaitStats) : WaitStats := {|
  requests_sent := requests_sent s; long_poll_requests := long_poll_requests s; pending := bump (pending s); unknown := unknown s;
  overloaded := overloaded s; transport_failures := transport_failures s; immediate_rechecks := immediate_rechecks s;
  wait_dropped_for_missing_echo := wait_dropped_for_missing_echo s |}.
Definition note_unknown (s : WaitStats) : WaitStats := {|
  requests_sent := requests_sent s; long_poll_requests := long_poll_requests s; pending := pending s; unknown := bump (unknown s);
  overloaded := overloaded s; transport_failures := transport_failures s; immediate_rechecks := immediate_rechecks s;
  wait_dropped_for_missing_echo := wait_dropped_for_missing_echo s |}.
Definition note_overloaded (s : WaitStats) : WaitStats := {|
  requests_sent := requests_sent s; long_poll_requests := long_poll_requests s; pending := pending s; unknown := unknown s;
  overloaded := bump (overloaded s); transport_failures := transport_failures s; immediate_rechecks := immediate_rechecks s;
  wait_dropped_for_missing_echo := wait_dropped_for_missing_echo s |}.
Definition note_transport_failure (s : WaitStats) : WaitStats := {|
  requests_sent := requests_sent s; long_poll_requests := long_poll_requests s; pending := pending s; unknown := unknown s;
  overloaded := overloaded s; transport_failures := bump (transport_failures s); immediate_rechecks := immediate_rechecks s;
  wait_dropped_for_missing_echo := wait_dropped_for_missing_echo s |}.
Definition note_recheck (s : WaitStats) : WaitStats := {|
  requests_sent := requests_sent s; long_poll_requests := long_poll_requests s; pending := pending s; unknown := unknown s;
  overloaded := overloaded s; transport_failures := transport_failures s; immediate_rechecks := bump (immediate_rechecks s);
  wait_dropped_for_missing_echo := wait_dropped_for_missing_echo s |}.
Definition note_dropped (s : WaitStats) : WaitStats := {|
  requests_sent := requests_sent s; long_poll_requests := long_poll_requests s; pending := pending s; unknown := unknown s;
  overloaded := overloaded s; transport_failures := transport_failures s; immediate_rechecks := immediate_rechecks s;
  wait_dropped_for_missing_echo := true |}.

(** The variables of the loop, with the world they run in. *)
Record Loop (W : Type) : Type := { host : W; stats : WaitStats; send_wait : bool; unknown_seen : u32 }.
Arguments host {W}. Arguments stats {W}. Arguments send_wait {W}. Arguments unknown_seen {W}.

Definition set_host {W} (w : W) (l : Loop W) : Loop W :=
  {| host := w; stats := stats l; send_wait := send_wait l; unknown_seen := unknown_seen l |}.
Definition set_stats {W} (f : WaitStats -> WaitStats) (l : Loop W) : Loop W :=
  {| host := host l; stats := f (stats l); send_wait := send_wait l; unknown_seen := unknown_seen l |}.
Definition drop_wait {W} (l : Loop W) : Loop W :=
  {| host := host l; stats := stats l; send_wait := false; unknown_seen := unknown_seen l |}.
Definition set_unknown {W} (n : u32) (l : Loop W) : Loop W :=
  {| host := host l; stats := stats l; send_wait := send_wait l; unknown_seen := n |}.

Section wait.
Context `{Texts} `{Serde} `{HexCodec} {W : Type} `{Host W} `{Monotonic W} `{CallerCancel W}.

Abbreviation LoopM := (M (Loop W) HttpError).

Definition on_host {E A} (m : M W E A) : M (Loop W) E A := zoom host set_host m.
Definition now {E} : M W E Instant := observe instant_now.

Definition cancelled {E} (options : WaitOptions) : M W E bool :=
  if cancel options then observe caller_cancelled else mret false.

(** * The pause *)

Fixpoint pause_until (fuel : nat) (end_ : Instant) (options : WaitOptions) : M W HttpError unit :=
  match fuel with
  | O => liftM Panic
  | S fuel =>
      c ← cancelled options;
      if c : bool then liftM (Err HttpError.Cancelled) else
      t ← now;
      if end_ <=? t then mret tt else
      _ ← modify (thread_sleep (dur_min (nanos (end_ - t)) SLEEP_SLICE));
      pause_until fuel end_ options
  end.

(** One slice per sleep, and one look at the clock. *)
Definition pause_fuel (from end_ : Instant) : nat := S (S (N.to_nat ((end_ - from) / val SLEEP_SLICE))).

Definition pause (total : Duration) (deadline : Instant) (options : WaitOptions) : M W HttpError unit :=
  t ← now;
  let end_ := N.min (far_deadline t total) deadline in
  pause_until (pause_fuel t end_) end_ options.

(** * One iteration *)

(** What the loop does next: return, or go round. *)
Abbreviation again := (mret None).

Definition spent (deadline : Instant) : M W HttpError (option Duration) :=
  t ← now; mret (match checked_duration_since deadline t with Some d => if is_zero d then None else Some d | None => None end).

Definition is_transport (raw : RawFailure + Value) : option bool :=
  match raw with inl (RawTransport _) => Some false | inl (RawTimedOut _) => Some true | _ => None end.

Definition cut_by_timeout (failure : RawFailure) : bool :=
  match failure with RawHttp _ _ _ _ _ (Some (RawTimedOut _)) => true | _ => false end.

(** A transport failure: a plain read after a pause, within the deadline. *)
Definition after_transport (options : WaitOptions) (deadline : Instant) (interval : Duration) (plan : CallPlan) (left_ms : u64)
    (timed_out : bool) : LoopM (option InclusionProof) :=
  c ← on_host (cancelled options);
  if c : bool then liftM (Err HttpError.Cancelled) else
  t ← on_host now;
  let left_ := saturating_duration_since deadline t in
  if is_zero left_ || (timed_out && (val left_ms <=? val (plan_timeout_ms plan))) then liftM (Err HttpError.Timeout) else
  _ ← modify (set_stats note_transport_failure);
  _ ← modify drop_wait;
  p ← liftM (transport_pause (dur_max interval MIN_PAUSE) left_);
  _ ← on_host (pause p deadline options);
  again.

(** An overload answer: likewise, after the larger of the interval and
    [Retry-After]. *)
Definition after_overload (options : WaitOptions) (deadline : Instant) (interval : Duration) (plan : CallPlan) (left_ms : u64)
    (failure : RawFailure) (retry_after : option Duration) : LoopM (option InclusionProof) :=
  c ← on_host (cancelled options);
  if c : bool then liftM (Err HttpError.Cancelled) else
  t ← on_host now;
  let left_ := saturating_duration_since deadline t in
  if is_zero left_ || (cut_by_timeout failure && (val left_ms <=? val (plan_timeout_ms plan))) then liftM (Err HttpError.Timeout) else
  _ ← modify (set_stats note_overloaded);
  _ ← (if is_some (plan_wait_ms plan) then modify drop_wait else mret tt);
  p ← liftM (overload_pause failure retry_after (dur_max interval MIN_PAUSE) left_);
  _ ← on_host (pause p deadline options);
  again.

(** A pending error of a legacy server. *)
Definition after_pending_error (options : WaitOptions) (deadline : Instant) (interval : Duration) (plan : CallPlan)
    (error_echo : option Value) : LoopM (option InclusionProof) :=
  _ ← modify (set_stats note_pending);
  _ ← modify (set_unknown (wrap 32 0));
  _ ← match error_echo with
      | Some echo => _ ← liftM (map_err HttpError.Decode (parse_waited_ms echo)); mret tt
      | None => if is_some (plan_wait_ms plan) then _ ← modify drop_wait; modify (set_stats note_dropped) else mret tt
      end;
  _ ← on_host (pause (dur_max interval MIN_PAUSE) deadline options);
  again.

(** A result. *)
Definition after_result (options : WaitOptions) (deadline : Instant) (interval : Duration) (grace : u32) (plan : CallPlan)
    (call_took : Duration) (result : Value) : LoopM (option InclusionProof) :=
  r ← liftM (decode_v2_result result (is_some (plan_wait_ms plan)));
  _ ← (if is_some (plan_wait_ms plan) && negb (is_some (waited_ms r))
       then _ ← modify drop_wait; modify (set_stats note_dropped) else mret tt);
  let pending_answer : LoopM (option InclusionProof) :=
    _ ← modify (set_stats note_pending);
    _ ← modify (set_unknown (wrap 32 0));
    let proven_wait := is_some (plan_wait_ms plan) && from_option (fun w : u64 => 0 <? val w) false (waited_ms r) in
    if proven_wait && (val (dur_max interval MIN_PAUSE) <=? val call_took) then
      _ ← modify (set_stats note_recheck); again
    else
      _ ← on_host (pause (if proven_wait then dur_max (dur_saturating_sub interval call_took) MIN_PAUSE else dur_max interval MIN_PAUSE)
        deadline options);
      again in
  match response r, status r with
  | Certified _ proof, _ => mret (Some proof)
  | NotCertified _ _, Some ProofStatus.Expired => liftM (Err HttpError.StateExpired)
  | NotCertified _ _, Some ProofStatus.Unknown =>
      _ ← modify (set_stats note_unknown);
      l ← State.get;
      _ ← modify (set_unknown (bump (unknown_seen l)));
      if val grace <? val (bump (unknown_seen l)) then liftM (Err HttpError.StateUnknown) else
      _ ← on_host (pause (dur_max interval MIN_PAUSE) deadline options);
      again
  | NotCertified _ _, _ => pending_answer
  end.

(** Any other error ends the wait. [timed_out] is whether the failure is a
    [TimedOut] one. *)
Definition terminal_error (plan : CallPlan) (left_ms : u64) (deadline : Instant) (timed_out : bool) (e : HttpError) :
    LoopM (option InclusionProof) :=
  match e with
  | HttpError.Rpc code _ => if (code =? RPC_STATE_NOT_FOUND)%Z then liftM (Err HttpError.StateNotFound) else liftM (Err e)
  | HttpError.Http status _ => if status =? 404 then liftM (Err HttpError.StateNotFound) else liftM (Err e)
  | HttpError.Transport _ =>
      if timed_out then
        if val left_ms <=? val (plan_timeout_ms plan) then liftM (Err HttpError.Timeout) else
        t ← on_host now; if deadline <=? t then liftM (Err HttpError.Timeout) else liftM (Err e)
      else liftM (Err e)
  | _ => liftM (Err e)
  end.

(** What one call's answer leads to. *)
Definition after_call (options : WaitOptions) (deadline : Instant) (interval : Duration) (grace : u32) (plan : CallPlan) (left_ms : u64)
    (call_took : Duration) (raw : RawFailure + Value) : LoopM (option InclusionProof) :=
  match is_transport raw with
  | Some timed_out => after_transport options deadline interval plan left_ms timed_out
  | None =>
      match raw with
      | inr result => after_result options deadline interval grace plan call_took result
      | inl failure =>
          let error_echo := if is_some (plan_wait_ms plan) then error_echo_of failure else None in
          match overload_of failure with
          | Some retry_after => after_overload options deadline interval plan left_ms failure retry_after
          | None =>
              match raw_to_http failure with
              | HttpError.Rpc code m as e =>
                  if (code =? RPC_INCLUSION_PENDING)%Z then after_pending_error options deadline interval plan error_echo
                  else terminal_error plan left_ms deadline false e
              | e => terminal_error plan left_ms deadline false e
              end
          end
      end
  end.

Definition wait_step (self : HttpAggregatorClient) (state_id : StateId) (options : WaitOptions) (deadline : Instant) (interval : Duration)
    (grace : u32) : LoopM (option InclusionProof) :=
  c ← on_host (cancelled options);
  if c : bool then liftM (Err HttpError.Cancelled) else
  left_ ← on_host (spent deadline);
  left_ ← liftM (ok_or HttpError.Timeout left_);
  let left_ms := max_u64 (ms left_) (wrap 64 1) in
  l ← State.get;
  let plan := plan_call left_ms options (send_wait l) in
  _ ← modify (set_stats (note_request (is_some (plan_wait_ms plan))));
  call_started ← on_host now;
  raw ← on_host (tryM (rpc_raw self "get_inclusion_proof.v2" (json_object (lookup_params state_id ++ wait_param (plan_wait_ms plan))) []
    (Some (from_millis (plan_timeout_ms plan)))));
  t ← on_host now;
  after_call options deadline interval grace plan left_ms (saturating_duration_since t call_started) raw.

(** * The loop *)

Fixpoint wait_loop (fuel : nat) (self : HttpAggregatorClient) (state_id : StateId) (options : WaitOptions) (deadline : Instant)
    (interval : Duration) (grace : u32) : LoopM InclusionProof :=
  match fuel with
  | O => liftM Panic
  | S fuel =>
      r ← wait_step self state_id options deadline interval grace;
      match r with
      | Some proof => mret proof
      | None => wait_loop fuel self state_id options deadline interval grace
      end
  end.

(** An iteration per shortest pause, and the one that finds the deadline spent. *)
Definition wait_fuel (from deadline : Instant) : nat := S (S (N.to_nat ((deadline - from) / val MIN_PAUSE))).

Definition wait_run (self : HttpAggregatorClient) (state_id : StateId) (options : WaitOptions) : LoopM InclusionProof :=
  started ← on_host now;
  let deadline := far_deadline started (total options) in
  wait_loop (wait_fuel started deadline) self state_id options deadline
    (default (poll_interval self) (wait_poll_interval options)) (default (client_unknown_grace self) (wait_unknown_grace options)).

(** The result with its accounting. *)
Definition wait_for_inclusion_proof_with_stats (self : HttpAggregatorClient) (state_id : StateId) (options : WaitOptions) (w : W) :
    outcome HttpError InclusionProof * WaitStats * W :=
  let '(r, l) := wait_run self state_id options {| host := w; stats := no_stats; send_wait := true; unknown_seen := wrap 32 0 |} in
  (r, stats l, host l).

Definition wait_for_inclusion_proof (self : HttpAggregatorClient) (state_id : StateId) (options : WaitOptions) : M W HttpError InclusionProof :=
  fun w => let '(r, _, w) := wait_for_inclusion_proof_with_stats self state_id options w in (r, w).
End wait.
