(* ===== verification/HttpClient.v ===== *)
(** The client over HTTP: what [src/client/http.rs] gives the rest of the SDK.

    Polling for a proof, submitting until certified, membership, batches, and the
    instances by which the HTTP client is the [AggregatorClient] of the flows and
    the [BatchAggregatorClient] of consolidation. *)

From Stdlib Require Import ZArith.
From stdpp Require Import strings.
From S2P Require Import Prelude State Bytes Error Cbor Hash Codec Ids Bft Certificates VerificationError Secp Predicates TrustBase Seal Proofs Transactions Verify Topology ViewCodec Flow Plan Batch Executor Time HttpDate Transport Rpc Wait.
Local Open Scope N_scope.

Definition UNCLASSIFIED : string := "".

Section http.
Context `{Sha2} `{K256} `{Texts} `{Serde} `{HexCodec} {W : Type} `{Host W} `{Monotonic W} `{CallerCancel W}.

(** * The proof of a state *)

(** [started.elapsed()], and what it leaves of the budget. *)
Definition budget_left {E} (budget : Duration) (started : Instant) : M W E Duration :=
  t ← now;
  mret (dur_saturating_sub budget (saturating_duration_since t started)).

(** [std::thread::sleep] between two attempts. *)
Definition between_attempts {E} (self : HttpAggregatorClient) (attempt : N) : M W E unit :=
  if attempt + 1 <? val (poll_attempts self) then modify (thread_sleep (poll_interval self)) else mret tt.

(** The attempts loop: [n] attempts are left from [attempt] on. *)
Fixpoint poll_loop (self : HttpAggregatorClient) (state_id : StateId) (budget : Duration) (started : Instant)
    (n : nat) (attempt : N) (unknown_seen : u32) : M W HttpError InclusionProof :=
  match n with
  | O => liftM (Err HttpError.Timeout)
  | S n =>
      let continue := poll_loop self state_id budget started n (attempt + 1) in
      let sleep_and_continue unknown := _ ← between_attempts self attempt; continue unknown in
      raw ← tryM (rpc_raw self "get_inclusion_proof.v2" (json_object (lookup_params state_id)) [] None);
      match raw with
      | inl failure =>
          match overload_of failure with
          | Some retry_after =>
              left_ ← budget_left budget started;
              pause ← liftM (overload_pause failure retry_after (poll_interval self) left_);
              _ ← modify (thread_sleep pause);
              continue unknown_seen
          | None =>
              if is_some (is_transport raw) then
                left_ ← budget_left budget started;
                pause ← liftM (transport_pause (poll_interval self) left_);
                _ ← modify (thread_sleep pause);
                continue unknown_seen
              else
                match raw_to_http failure with
                | HttpError.Rpc code m =>
                    if (code =? RPC_INCLUSION_PENDING)%Z then sleep_and_continue (wrap 32 0) else
                    if (code =? RPC_STATE_NOT_FOUND)%Z then liftM (Err HttpError.StateNotFound) else
                    liftM (Err (HttpError.Rpc code m))
                | HttpError.Http status m => liftM (Err (if status =? 404 then HttpError.StateNotFound else HttpError.Http status m))
                | e => liftM (Err e)
                end
          end
      | inr result =>
          r ← liftM (decode_v2_result result false);
          match response r, status r with
          | Certified _ proof, _ => mret proof
          | NotCertified _ _, Some ProofStatus.Expired => liftM (Err HttpError.StateExpired)
          | NotCertified _ _, Some ProofStatus.Unknown =>
              if val (client_unknown_grace self) <? val (bump unknown_seen) then liftM (Err HttpError.StateUnknown)
              else sleep_and_continue (bump unknown_seen)
          | NotCertified _ _, _ => sleep_and_continue (wrap 32 0)
          end
      end
  end.

Definition http_get_inclusion_proof (self : HttpAggregatorClient) (state_id : StateId) : M W HttpError InclusionProof :=
  let total := dur_saturating_mul (poll_interval self) (poll_attempts self) in
  if client_long_poll self && negb (is_zero total)
  then wait_for_inclusion_proof self state_id (keep_plain_request_timeout (WaitOptions_new total)) else
  started ← now;
  poll_loop self state_id (dur_saturating_mul (poll_interval self) (poll_attempts self)) started
    (N.to_nat (val (poll_attempts self))) 0 (wrap 32 0).

(** [impl AggregatorClient] *)
Definition http_aggregator (self : HttpAggregatorClient) : AggregatorClient W HttpError := {|
  submit_certification_request := http_submit self;
  get_inclusion_proof := http_get_inclusion_proof self |}.

(** * Submitting until certified *)

Definition resubmit_on (e : HttpError) : bool :=
  match e with HttpError.StateUnknown | HttpError.StateExpired => true | _ => false end.

(** The loop, with [left_] resubmissions still allowed. *)
Fixpoint wait_and_resubmit (self : HttpAggregatorClient) (data : CertificationData) (state_id : StateId)
    (on_other_data : InclusionProof -> StateId -> outcome HttpError HttpError) (left_ : nat) : M W HttpError InclusionProof :=
  r ← tryM (http_get_inclusion_proof self state_id);
  match r with
  | inl e =>
      match left_ with
      | S left_ =>
          if resubmit_on e then
            _ ← resubmit_certification_request self data;
            wait_and_resubmit self data state_id on_other_data left_
          else liftM (Err e)
      | O => liftM (Err e)
      end
  | inr proof =>
      if negb (bool_decide (certification_data proof = data)) then
        e ← liftM (on_other_data proof state_id);
        liftM (Err e)
      else mret proof
  end.

Definition submit_and_wait_with (self : HttpAggregatorClient) (data : CertificationData) (max_resubmits : u32)
    (on_other_data : InclusionProof -> StateId -> outcome HttpError HttpError) : M W HttpError InclusionProof :=
  let state_id := StateId_derive (cd_lock_script data) (cd_source_state_hash data) in
  _ ← resubmit_certification_request self data;
  wait_and_resubmit self data state_id on_other_data (N.to_nat (val max_resubmits)).

Definition submit_and_wait (self : HttpAggregatorClient) (data : CertificationData) (max_resubmits : u32) : M W HttpError InclusionProof :=
  submit_and_wait_with self data max_resubmits (fun _ _ => Ok HttpError.ProofOfOtherData).

Definition submit_and_wait_verified (self : HttpAggregatorClient) (data : CertificationData) (max_resubmits : u32)
    (trust_base : RootTrustBase) : M W HttpError InclusionProof :=
  submit_and_wait_with self data max_resubmits (fun proof state_id => conflict_error proof state_id trust_base).

(** * Membership *)

Inductive MembershipStatus : Type :=
| Included (proof : InclusionProof)
| Absent (proof : NonInclusionProof).

Definition membership_status (self : HttpAggregatorClient) (state_id : StateId) : M W HttpError MembershipStatus :=
  absent ← tryM (get_non_inclusion_proof self state_id);
  match absent with
  | inr proof => mret (Absent proof)
  | inl HttpError.StateIncluded => proof ← http_get_inclusion_proof self state_id; mret (Included proof)
  | inl error => liftM (Err error)
  end.

(** * Batches *)

(** [usize::try_from] cannot fail on a 64-bit platform. *)
Definition index_list (v : Value) : option (list N) :=
  option_map (fun a => omap (M := list) (fun i => option_map val (as_u64 i)) a) (as_array v).

Definition parse_indexes (value : Value) : list (string * list N) :=
  match as_object value with
  | Some classes =>
      let insert m '(class, v) := match index_list v with Some l => btree_insert (String.list_byte_of_string class) l m | None => m end in
      prod_map string_of id <$> foldl insert [] classes
  | None => from_option (fun l => [(UNCLASSIFIED, l)]) [] (index_list value)
  end.

Definition envelope_failure (e : EnvelopeError) : BatchFailure :=
  match e with
  | EnvelopeDecode m => DecodeFailure m
  | NullIdRpc _ _ _ => DecodeFailure NULL_ID_MESSAGE
  | EnvelopeRpc code message data _ =>
      let field k := d ← data; Transport.get d k in
      let text k := v ← field k; as_str v in
      Batch.Rpc code message (text "reason"%string) (text "detail"%string) (v ← field "retryable"%string; as_bool v)
        (from_option parse_indexes [] (field "indexes"%string))
  end.

Definition batch_failure (failure : RawFailure) : BatchFailure :=
  match failure with
  | RawHttp _ _ (Some e) _ _ _ => envelope_failure e
  | RawHttp _ _ None _ _ (Some (RawTimedOut _)) => BatchTimeout
  | RawHttp _ _ None _ (Some limit) _ => ResponseTooLarge limit
  | RawHttp status _ None _ None _ => Batch.Http status
  | RawTimedOut _ => BatchTimeout
  | RawTransport m | RawFatal m => Batch.Transport m
  | RawTooLarge limit => ResponseTooLarge limit
  | RawConfig e => Batch.Transport (show_http e)
  | RawEnvelope e => envelope_failure e
  end.

Definition batch_failure_waited (failure : RawFailure) (sent_wait_ms : option u64) : WaitedFailure :=
  let echo := if is_some sent_wait_ms then error_echo_of failure else None in
  match parse_waited_ms <$> echo with
  | None => WaitedFailure_new (batch_failure failure) None sent_wait_ms
  | Some (Ok ms) => WaitedFailure_new (batch_failure failure) (Some ms) sent_wait_ms
  | Some (Err m) => WaitedFailure_new (DecodeFailure m) None sent_wait_ms
  | Some Panic => WaitedFailure_new (batch_failure failure) None sent_wait_ms
  end.

Definition hex_field (v : Value) : outcome BatchFailure bytes :=
  s ← ok_or (DecodeFailure "expected a hex string") (as_str v);
  proof_hex ResponseTooLarge DecodeFailure s.

Definition decode_batch_proof (v : Value) : outcome BatchFailure BatchProof :=
  b ← hex_field v;
  r ← map_err (fun e => DecodeFailure (show_http e)) (decode_inclusion_proof_response b);
  match r with
  | Certified block_number proof => Ok {| block_number := block_number; bp_proof := proof |}
  | NotCertified _ _ => Err (DecodeFailure "batch carries an uncertified proof")
  end.

Definition known_field (wait_sent : bool) (k : string) : bool :=
  bool_decide (k = "proofs"%string) || bool_decide (k = "partitionView"%string) || (wait_sent && bool_decide (k = "waitedMs"%string)).

Definition decode_batch_result (result : Value) (wait_sent : bool) : outcome BatchFailure (InclusionProofBatch * option u64) :=
  object ← ok_or (DecodeFailure "batch result must be an object") (as_object result);
  if existsb (fun e => negb (known_field wait_sent (fst e))) object then Err (DecodeFailure "unknown field in batch result") else
  waited_ms ← match Transport.get result "waitedMs" with
    | None => Ok None
    | Some v => Some <$> map_err DecodeFailure (parse_waited_ms v)
    end;
  entries ← ok_or (DecodeFailure "missing proofs array") (v ← Transport.get result "proofs"; as_array v);
  proofs ← mapO decode_batch_proof entries;
  view ← match Transport.get result "partitionView" with
    | None => Ok None
    | Some v => b ← hex_field v; Some <$> map_err (fun e => DecodeFailure (show_view e)) (view_from_cbor b)
    end;
  Ok ({| batch_proofs := proofs; partition_view := view |}, waited_ms).

Definition state_count_error : BatchFailure :=
  Batch.Rpc rpc_code.INVALID_PARAMS "state id count out of range" (Some "invalid_request") (Some "state_count") (Some false) [].

Definition root_param (root : StateRoot) : string :=
  match root with Latest => "latest" | Exact root => hex_encode (val root) end.

Definition batch_call (self : HttpAggregatorClient) (request : BatchRequest) (options : RequestOptions) (wait : option WaitRequest) :
    M W WaitedFailure WaitedBatch :=
  let ids := state_ids request in
  if bool_decide (ids = []) || (MAX_BATCH_STATE_IDS <? N.of_nat (length ids)) then liftM (Err (WaitedFailure_from state_count_error)) else
  let params := [("stateIds", json_array ((fun s : StateId => json_string (hex_encode (val (sid_bytes s)))) <$> ids));
    ("stateRoot", json_string (root_param (state_root request)))]%string in
  let sent_wait_ms := match state_root request, wait with
    | Latest, Some wait => wait_on_wire (wait_ms wait) (timeout_ms options) (margin_ms wait)
    | _, _ => None
    end in
  result ← map_errM (fun f => batch_failure_waited f sent_wait_ms) (rpc_raw self "get_inclusion_proofs.v1"
    (json_object (params ++ wait_param sent_wait_ms)) [] (Some (from_millis (max_u64 (timeout_ms options) (wrap 64 1)))));
  '(batch, waited_ms) ← liftM (map_err (fun f => WaitedFailure_new f None sent_wait_ms) (decode_batch_result result (is_some sent_wait_ms)));
  mret (WaitedBatch_new batch waited_ms sent_wait_ms).

(** [impl BatchAggregatorClient] *)
#[export] Instance http_batch : BatchAggregatorClient W HttpAggregatorClient := {|
  get_inclusion_proofs self request options :=
    waited ← map_errM wf_failure (batch_call self request options None); mret (wb_batch waited);
  get_inclusion_proofs_with_wait self request options wait := batch_call self request options (Some wait) |}.
End http.
