(* ===== verification/Wp.v ===== *)
(** Weakest preconditions of the state monad: what a call establishes of its
    outcome and of the state it leaves, whatever the outcome. *)

From S2P Require Import Prelude State Bytes Batch Executor.

Definition wp {S E A} (m : M S E A) (Q : outcome E A -> S -> Prop) (s : S) : Prop := Q (fst (m s)) (snd (m s)).

(** What must hold after [m] for [Q] to hold after [m ≫= k]. *)
Definition next_of {S E A B} (k : A -> M S E B) (Q : outcome E B -> S -> Prop) : outcome E A -> S -> Prop := fun r s =>
  match r with
  | Ok a => wp (k a) Q s
  | Err e => Q (Err e) s
  | Panic => Q Panic s
  end.

Section rules.
Context {S E : Type}.
Implicit Types s : S.

Lemma wp_mono {A} (m : M S E A) P Q s : wp m P s -> (forall r s', P r s' -> Q r s') -> wp m Q s.
Proof. unfold wp. auto. Qed.

Lemma wp_bind {A B} (m : M S E A) (k : A -> M S E B) Q s : wp m (next_of k Q) s -> wp (m ≫= k) Q s.
Proof. unfold wp, next_of. rewrite bindM_run. by destruct (m s) as [[a|e|] s1]. Qed.

Lemma wp_ret {A} (a : A) Q s : Q (Ok a) s -> wp (mret a : M S E A) Q s.
Proof. done. Qed.

Lemma wp_lift {A} (r : outcome E A) Q s : Q r s -> wp (liftM r) Q s.
Proof. done. Qed.

Lemma wp_modify (f : S -> S) Q s : Q (Ok tt) (f s) -> wp (modify f : M S E unit) Q s.
Proof. done. Qed.

Lemma wp_get Q s : Q (Ok s) s -> wp (State.get : M S E S) Q s.
Proof. done. Qed.

(** A bind whose first part is known. *)
Lemma wp_seq {A B} (m : M S E A) (k : A -> M S E B) P Q s : wp m P s -> (forall r s', P r s' -> next_of k Q r s') -> wp (m ≫= k) Q s.
Proof. intros Hm HP. apply wp_bind. by eapply wp_mono. Qed.

Lemma wp_tryM {F A} (m : M S E A) (Q : outcome F (E + A) -> S -> Prop) s :
  wp m (fun r => Q match r with Ok a => Ok (inr a) | Err e => Ok (inl e) | Panic => Panic end) s -> wp (tryM m) Q s.
Proof. unfold wp. rewrite tryM_run. by destruct (m s) as [[a|e|] s1]. Qed.

Lemma wp_map_errM {F A} (f : E -> F) (m : M S E A) Q s : wp m (fun r => Q (map_err f r)) s -> wp (map_errM f m) Q s.
Proof. unfold wp, map_errM. by destruct (m s) as [r s1]. Qed.

Lemma wp_zoom {T A} (view : T -> S) (set : S -> T -> T) (m : M S E A) Q (t : T) :
  wp m (fun r s => Q r (set s t)) (view t) -> wp (zoom view set m) Q t.
Proof. unfold wp, zoom. by destruct (m (view t)) as [r s1]. Qed.

Lemma wp_Ok {A} (m : M S E A) Q s a s' : wp m Q s -> m s = (Ok a, s') -> Q (Ok a) s'.
Proof. unfold wp. intros Hq Em. by rewrite Em in Hq. Qed.
End rules.

(** ** Results, whatever the state *)

(** Every value [m] returns satisfies [Q]. *)
Definition yields {S E A} (Q : A -> Prop) (m : M S E A) : Prop := forall s a s', m s = (Ok a, s') -> Q a.

Section yields.
Context {S E : Type}.

Lemma yields_bind {A B} (Q : B -> Prop) (m : M S E A) (k : A -> M S E B) : (forall a, yields Q (k a)) -> yields Q (m ≫= k).
Proof. intros Hk s b s' (a & s1 & _ & Hb)%bindM_Ok. by eapply Hk. Qed.

Lemma yields_bind_of {A B} (P : A -> Prop) (Q : B -> Prop) (m : M S E A) (k : A -> M S E B) :
  yields P m -> (forall a, P a -> yields Q (k a)) -> yields Q (m ≫= k).
Proof. intros Hm Hk s b s' (a & s1 & Ha & Hb)%bindM_Ok. by eapply Hk; [eapply Hm|]. Qed.

Lemma yields_lift {A} (Q : A -> Prop) (r : outcome E A) : (forall a, r = Ok a -> Q a) -> yields Q (liftM r : M S E A).
Proof. intros Hr s a s' [E1 _]%liftM_Ok. by apply Hr. Qed.

Lemma yields_err {A} (Q : A -> Prop) (e : E) : yields Q (liftM (Err e) : M S E A).
Proof. by apply yields_lift. Qed.

Lemma yields_panic {A} (Q : A -> Prop) : yields Q (liftM Panic : M S E A).
Proof. by apply yields_lift. Qed.

Lemma yields_ret {A} (Q : A -> Prop) (a : A) : Q a -> yields Q (mret a : M S E A).
Proof. by intros Ha s b s' [= <- _]. Qed.

Lemma yields_map_errM {F A} (Q : A -> Prop) (f : E -> F) (m : M S E A) : yields Q m -> yields Q (map_errM f m).
Proof.
  intros Hm s a s'. unfold map_errM. destruct (m s) as [r s1] eqn:Em. intros [= Er ->]. apply map_err_Ok in Er as ->. by eapply Hm.
Qed.

Lemma yields_zoom {T A} (Q : A -> Prop) (view : T -> S) (set : S -> T -> T) (m : M S E A) : yields Q m -> yields Q (zoom view set m).
Proof. intros Hm t a t'. unfold zoom. destruct (m (view t)) as [r s1] eqn:Em. intros [= -> _]. by eapply Hm. Qed.
End yields.

(** ** Errors, whatever the state *)

(** Every error [m] raises satisfies [Q]. *)
Definition raises {S E A} (Q : E -> Prop) (m : M S E A) : Prop := forall s e s', m s = (Err e, s') -> Q e.

Section raises.
Context {S E : Type}.

Lemma raises_bind_of {A B} (P : A -> Prop) (Q : E -> Prop) (m : M S E A) (k : A -> M S E B) :
  raises Q m -> yields P m -> (forall a, P a -> raises Q (k a)) -> raises Q (m ≫= k).
Proof.
  intros Hm Hp Hk s e s'. rewrite bindM_run. destruct (m s) as [[a|e'|] s1] eqn:Em; [|intros [= <- _]; by eapply Hm|done].
  intros Hr. by eapply Hk; [eapply Hp|].
Qed.

Lemma raises_bind {A B} (Q : E -> Prop) (m : M S E A) (k : A -> M S E B) :
  raises Q m -> (forall a, raises Q (k a)) -> raises Q (m ≫= k).
Proof. intros Hm Hk. apply (raises_bind_of (fun _ => True)); [done|by intros ???|auto]. Qed.

Lemma raises_lift {A} (Q : E -> Prop) (r : outcome E A) : (forall e, r = Err e -> Q e) -> raises Q (liftM r : M S E A).
Proof. intros Hr s e s' [= E1 _]. by apply Hr. Qed.

Lemma raises_err {A} (Q : E -> Prop) (e : E) : Q e -> raises Q (liftM (Err e) : M S E A).
Proof. intros He. apply raises_lift. by intros ? [= <-]. Qed.

Lemma raises_panic {A} (Q : E -> Prop) : raises Q (liftM Panic : M S E A).
Proof. by apply raises_lift. Qed.

Lemma raises_ret {A} (Q : E -> Prop) (a : A) : raises Q (mret a : M S E A).
Proof. by intros s e s'. Qed.

Lemma raises_modify (Q : E -> Prop) (f : S -> S) : raises Q (modify f : M S E unit).
Proof. by intros s e s'. Qed.

Lemma raises_get (Q : E -> Prop) : raises Q (State.get : M S E S).
Proof. by intros s e s'. Qed.

Lemma raises_tryM {F A} (Q : F -> Prop) (m : M S E A) : raises Q (tryM m).
Proof. intros s e s'. rewrite tryM_run. by destruct (m s) as [[a|e'|] s1]. Qed.

Lemma tryM_yields {F A} (Q : E -> Prop) (m : M S E A) : raises Q m ->
  yields (fun r => match r with inl e => Q e | inr _ => True end) (tryM m : M S F (E + A)).
Proof.
  intros Hm s r s'. rewrite tryM_run. destruct (m s) as [[a|e'|] s1] eqn:Em; [by intros [= <- _]| |done].
  intros [= <- _]. by eapply Hm.
Qed.

Lemma raises_map_errM {F A} (P : E -> Prop) (Q : F -> Prop) (f : E -> F) (m : M S E A) :
  raises P m -> (forall e, P e -> Q (f e)) -> raises Q (map_errM f m).
Proof.
  intros Hm Hf s e s'. unfold map_errM. destruct (m s) as [r s1] eqn:Em. intros [= Er _].
  destruct r as [a|e'|]; cbn [map_err] in Er; [done| |done]. injection Er as <-. apply Hf. by eapply Hm.
Qed.

Lemma raises_zoom {T A} (Q : E -> Prop) (view : T -> S) (set : S -> T -> T) (m : M S E A) : raises Q m -> raises Q (zoom view set m).
Proof. intros Hm t e t'. unfold zoom. destruct (m (view t)) as [r s1] eqn:Em. intros [= -> _]. by eapply Hm. Qed.
End raises.

Create HintDb raises discriminated.
#[export] Hint Resolve raises_panic raises_ret raises_modify raises_get raises_tryM raises_zoom : raises.
Create HintDb yields discriminated.
#[export] Hint Resolve yields_bind yields_err yields_panic yields_ret : yields.
