(* ===== verification/RpcSpec.v ===== *)
(** What a JSON-RPC exchange establishes ([src/client/http.rs]).

    [envelope_spec]: a result is taken exactly from an object of version 2.0
    that carries the request's id, a result and no error. [decode_v2_result_wf]:
    a decoded result holds a decoded proof. Nothing here panics. *)

From Stdlib Require Import ZArith.
From stdpp Require Import strings.
From S2P Require Import Prelude State Bytes Error Cbor CborSpec CborRead Hash Codec CodecFacts Ids Bft BftSpec Certificates VerificationError Secp Predicates TrustBase Seal Proofs Transactions Verify Topology ViewCodec Plan Batch Time HttpDate Transport Rpc Wp.
Local Open Scope N_scope.

Section rpc.
Context `{Sha2} `{K256} `{Texts} `{Serde} `{HexCodec} {W : Type} `{Host W}.

(** * The envelope *)

(** [value] answers request [id] with [result]. *)
Record answers_with (value : Value) (id : string) (result : Value) : Prop := {
  aw_object : exists m, as_object value = Some m;
  aw_version : (v ← get value "jsonrpc"; as_str v) = Some "2.0"%string;
  aw_id : (v ← get value "id"; as_str v) = Some id;
  aw_result : get value "result" = Some result;
  aw_error : get value "error" = None;
}.

Lemma null_id_no_result value result : get value "result" = Some result -> null_id_error value = None.
Proof.
  unfold null_id_error. intros ->. destruct (get value "id") as [id|]; [|done]. cbn [mbind option_bind is_some negb].
  by rewrite andb_false_r.
Qed.

Lemma null_id_kind value e : null_id_error value = Some e -> exists code data, e = NullIdRpc code data None.
Proof.
  unfold null_id_error. intros (i & _ & Hr)%bind_Some. destruct (is_null i && _); [|done].
  apply bind_Some in Hr as (x & _ & (c & _ & (m & _ & [= <-])%bind_Some)%bind_Some). eauto.
Qed.

Lemma envelope_spec text id result :
  decode_rpc_envelope text id = Ok result <-> exists value, json_from_str text = inr value /\ answers_with value id result.
Proof.
  unfold decode_rpc_envelope. destruct (json_from_str text) as [e|value]; [split; [done|by intros (? & ? & _)]|]. rewrite bind_Ok_l. split.
  - intros (m & Hm%ok_or_Ok & Hr)%bind_Ok. case_bool_decide as Hv; [|done]. cbn [negb] in Hr.
    destruct (null_id_error value); [done|]. apply bind_Ok in Hr as (i & Hi%ok_or_Ok & Hr). case_bool_decide as Eid; [|done]. subst i.
    cbn [negb] in Hr. exists value. split; [done|]. destruct (get value "result") as [v|] eqn:Ev, (get value "error") as [e|] eqn:Ee; [done|..].
    + injection Hr as ->. split; eauto.
    + by apply bind_Ok in Hr as (? & _ & (? & _ & ?)%bind_Ok).
    + done.
  - intros (? & [= <-] & [[m Hm] Hv Hid Hr He]). rewrite Hm. cbn [ok_or mbind outcome_bind]. rewrite bool_decide_eq_true_2 by done.
    cbn [negb]. rewrite (null_id_no_result _ _ Hr), Hid. cbn [ok_or mbind outcome_bind]. rewrite bool_decide_eq_true_2 by done.
    cbn [negb]. by rewrite Hr, He.
Qed.

(** An error answer that may be acted on carries the request's id too. *)
Lemma envelope_error text id code message data retry_after :
  decode_rpc_envelope text id = Err (EnvelopeRpc code message data retry_after) ->
  exists value, json_from_str text = inr value /\ (v ← get value "id"; as_str v) = Some id /\ get value "result" = None.
Proof.
  unfold decode_rpc_envelope. destruct (json_from_str text) as [e|value]; [done|]. rewrite bind_Ok_l.
  destruct (as_object value) as [m|]; [|done]. cbn [ok_or mbind outcome_bind]. destruct (negb _); [done|].
  destruct (null_id_error value) as [e|] eqn:En; [apply null_id_kind in En as (? & ? & ->); done|].
  destruct (v ← get value "id"; as_str v) as [i|] eqn:Hi; [|done]. cbn [ok_or mbind outcome_bind]. case_bool_decide as Ei; [|done]. cbn [negb].
  subst i. destruct (get value "result") eqn:Er, (get value "error"); try done. intros _. by exists value.
Qed.

(** * The endpoint *)

(** Where a request may go: over TLS, or over plain HTTP when that was asked for
    and there is no key to leak; never with credentials or a fragment. *)
Record endpoint_ok (self : HttpAggregatorClient) (p : ParsedUrl) : Prop := {
  ep_parsed : url_parse (url self) = inr p;
  ep_host : has_host p = true;
  ep_secure : scheme p = "https"%string \/ (scheme p = "http"%string /\ allow_insecure_http self = true /\ api_key self = None);
  ep_user : username p = ""%string;
  ep_password : has_password p = false;
  ep_fragment : has_fragment p = false;
}.

Lemma endpoint_spec self p : validate_endpoint self = Ok p <-> endpoint_ok self p.
Proof.
  unfold validate_endpoint. destruct (url_parse (url self)) as [e|q] eqn:Eq; cbn [mbind outcome_bind]; [split; [done|intros []; congruence]|].
  split.
  - destruct (bool_decide_reflect (scheme q = "https"%string)) as [Hs|Hs], (bool_decide_reflect (scheme q = "http"%string)) as [Ht|Ht]; cbn [orb negb andb];
      try done; destruct (has_host q) eqn:Eh; cbn [negb]; try done.
    all: destruct (bool_decide_reflect (username q = ""%string)), (has_password q) eqn:Ep; cbn [negb orb]; try done.
    all: destruct (has_fragment q) eqn:Ef; [done|].
    all: try (destruct (allow_insecure_http self) eqn:Ea; cbn [negb]; [|done]; destruct (api_key self) eqn:Ek; cbn [is_some]; [done|]).
    all: intros [= <-]; split; auto.
  - intros [Hp Hh Hs Hu Hw Hf]. rewrite Eq in Hp. injection Hp as ->. rewrite Hh, Hu, Hw, Hf. rewrite (bool_decide_eq_true_2 (""%string = ""%string)) by done.
    destruct Hs as [->|(-> & -> & ->)]; reflexivity.
Qed.

(** * One call *)

(** The request of a call: one method under one id. *)
Definition request_of (self : HttpAggregatorClient) (method : string) (params : Value) (headers : list (string * string))
    (timeout : option Duration) (id : string) : HttpRequest := {|
  request_url := url self; request_headers := ("Content-Type", "application/json")%string :: headers; request_timeout := timeout;
  request_body := json_to_string (json_object [("id", json_string id); ("jsonrpc", json_string "2.0"); ("method", json_string method);
    ("params", params)])%string |}.

(** A call gives [v] exactly when the endpoint is a safe one and the request got
    a success answer that fits the limit and answers its id with [v]. *)
Record answered (self : HttpAggregatorClient) (method : string) (params : Value) (headers : list (string * string))
    (timeout : option Duration) (w : W) (v : Value) : Prop := {
  an_endpoint : exists p, endpoint_ok self p;
  an_answer : exists id w1 r text value,
    @request_id _ _ _ RawFailure w = (Ok id, w1) /\ fst (ureq_send (request_of self method params headers timeout id) w1) = SentOk r /\
    200 <= response_status r < 300 /\ read_response_raw r MAX_RESPONSE_BODY_BYTES = Ok text /\
    json_from_str text = inr value /\ answers_with value id v;
}.

Lemma request_id_returns {E} (w : W) : exists id w1, @request_id _ _ _ E w = (Ok id, w1).
Proof. unfold request_id. rewrite bindM_run. unfold observe. destruct (getrandom16 w) as [b w1]. eauto. Qed.

Lemma parse_retry_after_returns {E} value (w : W) : exists d w1, @parse_retry_after _ _ E value w = (Ok d, w1).
Proof. unfold parse_retry_after. rewrite bindM_run. unfold observe. destruct (system_now w) as [b w1]. eauto. Qed.

Lemma rpc_raw_spec self method params headers timeout w v :
  fst (rpc_raw self method params headers timeout w) = Ok v <-> answered self method params headers timeout w v.
Proof.
  destruct (@request_id_returns RawFailure w) as (id & w1 & Eid). unfold rpc_raw. rewrite bindM_run. unfold liftM at 1.
  destruct (validate_endpoint self) as [p|e|] eqn:Ev; cbn [map_err fst].
  2,3: split; [done|intros [(p & Hp%endpoint_spec) _]; congruence].
  apply endpoint_spec in Ev. rewrite bindM_run, Eid, bindM_run. unfold observe at 1. fold (request_of self method params headers timeout id).
  destruct (ureq_send (request_of self method params headers timeout id) w1) as [sent w2] eqn:Es.
  assert (answered self method params headers timeout w v <-> exists r text value, sent = SentOk r /\ 200 <= response_status r < 300 /\
    read_response_raw r MAX_RESPONSE_BODY_BYTES = Ok text /\ json_from_str text = inr value /\ answers_with value id v) as ->.
  { split.
    - intros [_ (i & w' & r & text & value & Ei & Hs & H')]. rewrite Eid in Ei. injection Ei as <- <-. rewrite Es in Hs. by exists r, text, value.
    - intros (r & text & value & -> & H'). split; [by exists p|]. exists id, w1, r, text, value. split; [done|]. split; [by rewrite Es|done]. }
  destruct sent as [r|r|e]; [| |split; [done|by intros (? & ? & ? & ? & _)]].
  all: rewrite bindM_run; destruct (@parse_retry_after_returns RawFailure (retry_after_header r) w2) as (retry & w3 & ->).
  2: destruct (read_error_body r) as [[??]?]; (split; [done|by intros (? & ? & ? & ? & _)]).
  destruct (N.leb_spec 200 (response_status r)), (N.ltb_spec (response_status r) 300); cbn [andb negb].
  2,3,4: destruct (read_error_body r) as [[??]?]; (split; [done|intros (? & ? & ? & [= <-] & ? & _); lia]).
  rewrite bindM_run. unfold liftM at 1. destruct (read_response_raw r MAX_RESPONSE_BODY_BYTES) as [text|e|] eqn:Et; cbn [fst].
  2,3: split; [done|intros (? & ? & ? & [= <-] & _ & ? & _); congruence].
  unfold liftM. cbn [fst]. rewrite map_err_Ok, envelope_spec. split.
  - intros (value & Hj & Ha). by exists r, text, value.
  - intros (? & ? & value & [= <-] & _ & Et' & Hj & Ha). rewrite Et in Et'. injection Et' as <-. by exists value.
Qed.

(** * Nothing panics *)

Lemma no_panic_validate self : no_panic (validate_endpoint self).
Proof. unfold validate_endpoint. solve_no_panic. Qed.

Lemma no_panic_read r limit : no_panic (read_response_raw r limit).
Proof. unfold read_response_raw. solve_no_panic. Qed.

Lemma no_panic_envelope text id : no_panic (decode_rpc_envelope text id).
Proof. unfold decode_rpc_envelope. solve_no_panic. Qed.

Lemma no_panic_waited v : no_panic (parse_waited_ms v).
Proof. unfold parse_waited_ms. solve_no_panic. Qed.

Lemma no_panic_hex {E} (f : N -> E) g s : no_panic (proof_hex f g s).
Proof. unfold proof_hex. solve_no_panic. Qed.

Lemma no_panic_response b : no_panic (decode_inclusion_proof_response b).
Proof.
  unfold decode_inclusion_proof_response. apply no_panic_bind; [|intros ? _]; apply no_panic_map_err; [|apply from_cbor_no_panic].
  apply no_panic_finish.
Qed.
#[local] Hint Resolve no_panic_waited no_panic_hex no_panic_response : outcome.

Lemma no_panic_v2 result sent : no_panic (decode_v2_result result sent).
Proof. unfold decode_v2_result. solve_no_panic. Qed.

Lemma no_panic_overload failure t i l : no_panic (overload_pause failure t i l).
Proof. unfold overload_pause. solve_no_panic. Qed.

Lemma no_panic_transport i l : no_panic (transport_pause i l).
Proof. unfold transport_pause. solve_no_panic. Qed.

(** * What is decoded *)

Lemma response_wf b r : decode_inclusion_proof_response b = Ok r -> wf r.
Proof. unfold decode_inclusion_proof_response. intros. inv_ok. by eapply from_cbor_wf. Qed.

Lemma decode_v2_result_wf result sent r : decode_v2_result result sent = Ok r -> wf (response r).
Proof. unfold decode_v2_result. intros ([[encoded status] waited] & _ & Hr)%bind_Ok. inv_ok. by eapply response_wf. Qed.
End rpc.
