(* ===== verification/WaitSpec.v ===== *)
(** The bounds of a wait ([src/client/http/wait.rs]).

    [plan_call_spec]: every call asks for a wait and a timeout inside the
    deadline. [wait_loop_spec]: over a host whose clock never goes back the loop
    returns, and the requests it sends are bounded by the deadline alone. *)

From Stdlib Require Import ZArith.
From stdpp Require Import strings.
From S2P Require Import Prelude State Bytes Error Cbor Hash Codec Ids Bft Certificates Secp Predicates TrustBase Seal Proofs Transactions Verify Topology ViewCodec Plan Batch Executor Time HttpDate Transport Rpc Wait Wp RpcSpec.
Local Open Scope N_scope.

(** * The budget of one call *)

Lemma val_max_u64 a b : val (max_u64 a b) = N.max (val a) (val b).
Proof. unfold max_u64. destruct (N.leb_spec (val a) (val b)); lia. Qed.

(** A wait is positive, at most what the caller prefers, and leaves its margin
    both in the deadline and in the longest call; then the call lasts exactly the
    wait and the margin. A call without one lasts at most the longest call, and the
    remaining time unless the option keeps the request timeout. *)
Lemma plan_call_spec remaining options send : 1 <= val remaining ->
  let plan := plan_call remaining options send in
  let m := val (ms (margin options)) in let longest := val (ms (max_request_timeout options)) in
  match plan_wait_ms plan with
  | Some w => send = true /\ long_poll options = true /\ 1 <= val w /\ val w <= val (ms (preferred_wait options)) /\
      val w <= 2 ^ 53 - 1 /\ val w + m <= val remaining /\ val w + m <= longest /\ val (plan_timeout_ms plan) = val w + m
  | None => 1 <= val (plan_timeout_ms plan) /\ val (plan_timeout_ms plan) <= N.max longest 1 /\
      (plain_calls_keep_request_timeout options = false -> val (plan_timeout_ms plan) <= val remaining)
  end.
Proof.
  intros Hr. unfold plan_call. cbv zeta. set (w := if send && long_poll options then _ else _).
  pose proof (uint_bound remaining). pose proof (uint_bound (ms (max_request_timeout options))).
  destruct (N.ltb_spec 0 (val w)) as [Hw|Hw]; cbn [plan_wait_ms plan_timeout_ms].
  - destruct (send && long_poll options) eqn:Es; [|by change (val w) with 0 in Hw; lia]. apply andb_true_iff in Es as [-> ->].
    assert (val w = N.min (N.min (N.min (val (ms (preferred_wait options))) (val remaining - val (ms (margin options))))
      (val (ms (max_request_timeout options)) - val (ms (margin options)))) (2 ^ 53 - 1)) as Ew.
    { unfold w. rewrite !val_min_u64, !val_saturating_sub. done. }
    rewrite val_max_u64, val_min_u64, val_wrap by lia. change (val (wrap 64 1)) with 1. split_and!; try done; lia.
  - destruct (plain_calls_keep_request_timeout options); rewrite val_max_u64, ?val_min_u64; change (val (wrap 64 1)) with 1; lia.
Qed.

(** * The host *)

(** No call of the host takes time back. [asked] is how many requests a world's
    agent has been handed: one more for each that is sent. *)
Class HostLaws (W : Type) `{Host W} `{MonotonicLaws W} `{CallerCancel W} : Type := {
  asked : W -> N;
  send_late rq w : time w <= time (snd (ureq_send rq w)) /\ asked (snd (ureq_send rq w)) = asked w + 1;
  random_late w : time w <= time (snd (getrandom16 w)) /\ asked (snd (getrandom16 w)) = asked w;
  system_late w : time w <= time (snd (system_now w)) /\ asked (snd (system_now w)) = asked w;
  cancel_late w : time w <= time (snd (caller_cancelled w)) /\ asked (snd (caller_cancelled w)) = asked w;
  now_quiet w : asked (snd (instant_now w)) = asked w;
  sleep_quiet d w : asked (thread_sleep d w) = asked w;
}.

Section wait.
Context `{Sha2} `{K256} `{Texts} `{Serde} `{HexCodec} {W : Type} `{Host W} `{Monotonic W} `{CallerCancel W} `{!MonotonicLaws W} `{!HostLaws W}.

(** From [t0] on, with [n] requests at most. *)
Definition since (t0 : Instant) (n : N) (w : W) : Prop := t0 <= time w /\ asked w <= n.

(** [m] does not panic, does not take time back and sends nothing beyond [n]. *)
Definition later {E A} (t0 : Instant) (n : N) (r : outcome E A) (w : W) : Prop := no_panic r /\ since t0 n w.

(** A reading of the clock lies between the moments before and after it. *)
Definition read {E} (t0 : Instant) (n : N) (r : outcome E Instant) (w : W) : Prop :=
  exists t, r = Ok t /\ t0 <= t /\ t <= time w /\ asked w <= n.

Lemma wp_now {E} w : wp (now : M W E Instant) (read (time w) (asked w)) w.
Proof.
  pose proof (now_late w). pose proof (now_quiet w). unfold wp, now, observe. destruct (instant_now w) as [t w']. exists t. cbn in *.
  split_and!; [done|lia..].
Qed.

(** A call that cannot fail. *)
Definition observed {E A} (t0 : Instant) (n : N) (r : outcome E A) (w : W) : Prop := exists a, r = Ok a /\ since t0 n w.

Lemma wp_observe {E A} (f : W -> A * W) n w : time w <= time (snd (f w)) /\ asked (snd (f w)) = n ->
  wp (observe f : M W E A) (observed (time w) n) w.
Proof. unfold wp, observe. destruct (f w) as [a w']. intros [Ht Hn]. exists a. split; [done|]. split; cbn in *; lia. Qed.

Lemma wp_observed {E A} (m : M W E A) t0 n w : wp m (observed t0 n) w -> wp m (later t0 n) w.
Proof. intros Hm. eapply wp_mono; [exact Hm|]. by intros ? w' (a & -> & ?). Qed.

Lemma wp_cancelled {E} options w : wp (cancelled options : M W E bool) (observed (time w) (asked w)) w.
Proof. unfold cancelled. destruct (cancel options); [apply wp_observe, cancel_late|]. apply wp_ret. eexists. split; [done|]. split; lia. Qed.

(** A bind after a call that sends at most [d] requests. *)
Lemma wp_later {E A B} d (m : M W E A) (k : A -> M W E B) Q t0 n w : since t0 n w -> wp m (later (time w) (asked w + d)) w ->
  (forall e w', since t0 (n + d) w' -> Q (Err e) w') -> (forall a w', since t0 (n + d) w' -> wp (k a) Q w') -> wp (m ≫= k) Q w.
Proof.
  intros [Ht Hn] Hm He Hk. eapply wp_seq; [exact Hm|]. intros [a|e|] w' [Hp [Hw Hw']]; [apply Hk|apply He|done]; split; lia.
Qed.

Lemma since_now w : since (time w) (asked w) w.
Proof. split; lia. Qed.

Lemma since_more t0 n m w : since t0 n w -> n <= m -> since t0 m w.
Proof. intros [? ?] ?. split; lia. Qed.

Lemma wp_quiet {E A B} (m : M W E A) (k : A -> M W E B) Q t0 n w : since t0 n w -> wp m (later (time w) (asked w)) w ->
  (forall e w', since t0 n w' -> Q (Err e) w') -> (forall a w', since t0 n w' -> wp (k a) Q w') -> wp (m ≫= k) Q w.
Proof. rewrite <- (N.add_0_r (asked w)), <- (N.add_0_r n) at 1. intros Hs Hm He Hk. eapply (wp_later 0); eauto; rewrite ?N.add_0_r; auto. Qed.

(** A call sends one request at most. *)
Lemma rpc_raw_later self method params headers timeout w :
  wp (rpc_raw self method params headers timeout) (later (time w) (asked w + 1)) w.
Proof.
  assert (forall E A (r : outcome E A) w', no_panic r -> since (time w) (asked w + 1) w' -> wp (liftM r) (later (time w) (asked w + 1)) w') as Hl by done.
  assert (forall E A (e : E) w', since (time w) (asked w) w' -> later (A := A) (time w) (asked w + 1) (Err e) w') as He.
  { intros E A e w' Hs. split; [done|]. eapply since_more; [exact Hs|lia]. }
  unfold rpc_raw. eapply wp_quiet; [apply since_now| |apply He|].
  { apply wp_lift. split; [apply no_panic_map_err, no_panic_validate|apply since_now]. }
  intros _ w1 La. eapply wp_quiet; [exact La| |apply He|].
  { unfold request_id. eapply wp_quiet; [apply since_now|apply wp_observed, wp_observe, random_late|done|done]. }
  intros id w2 Lb. eapply (wp_later 1); [exact Lb|apply wp_observed, wp_observe, send_late|done|].
  intros sent w3 Lc. destruct sent as [r|r|e]; [| |by apply Hl].
  all: eapply wp_quiet; [exact Lc| |done|].
  1,3: unfold parse_retry_after; eapply wp_quiet; [apply since_now|apply wp_observed, wp_observe, system_late|done|done].
  all: intros retry w4 Ld.
  - destruct (negb _).
    + destruct (read_error_body r) as [[??]?]. by apply Hl.
    + eapply wp_quiet; [exact Ld|apply wp_lift; split; [apply no_panic_read|apply since_now]|done|].
      intros text w5 Le. apply Hl; [|exact Le]. apply no_panic_map_err, no_panic_envelope.
  - destruct (read_error_body r) as [[??]?]. by apply Hl.
Qed.

(** * The pause *)

Definition SLICE : N := val SLEEP_SLICE.
Definition SHORTEST : N := val MIN_PAUSE.

(** It reaches its end unless it is cancelled. *)
Definition paused (t0 : Instant) (n : N) (end_ : Instant) (r : outcome HttpError unit) (w : W) : Prop :=
  since t0 n w /\ match r with Ok _ => end_ <= time w | Err e => e = HttpError.Cancelled | Panic => False end.

Lemma pause_until_spec options end_ fuel : forall w t0 n, since t0 n w -> end_ <= time w + SLICE * N.of_nat fuel ->
  wp (pause_until (S fuel) end_ options) (paused t0 n end_) w.
Proof.
  induction fuel as [|fuel IH]; intros w t0 n [Ht Hn] He.
  all: eapply wp_seq; [apply wp_cancelled|]; intros ? w1 (c & -> & Hw & Hw'); cbn [next_of].
  all: destruct c; [apply wp_lift; split; [split; lia|done]|].
  all: eapply wp_seq; [apply wp_now|]; intros ? w2 (t & -> & Hl & Hr & Ha); cbn [next_of].
  all: destruct (N.leb_spec end_ t) as [Hd|Hd]; [apply wp_ret; split; [split|]; lia|].
  - lia.
  - eapply wp_bind, wp_modify. cbn [next_of].
    pose proof (sleep_long (dur_min (nanos (end_ - t)) SLEEP_SLICE) w2) as Hs. rewrite val_dur_min, val_nanos in Hs.
    pose proof (sleep_quiet (dur_min (nanos (end_ - t)) SLEEP_SLICE) w2).
    fold SLICE in Hs. assert (SLICE <= DURATION_END - 1) by (vm_compute; discriminate).
    apply IH; [split|]; lia.
Qed.

Lemma far_deadline_spec (from : Instant) span : from + val THIRTY_YEARS <= INSTANT_MAX ->
  from + N.min (val span) (val THIRTY_YEARS) <= far_deadline from span.
Proof.
  intros Hroom. unfold far_deadline, checked_add. destruct (N.leb_spec (from + val span) INSTANT_MAX); cbn [default from_option]; unfold id; [lia|].
  rewrite (proj2 (N.leb_le _ _) Hroom). cbn [default from_option]. unfold id. lia.
Qed.

Lemma far_deadline_late (from : Instant) span : from <= far_deadline from span.
Proof. unfold far_deadline, checked_add. repeat (destruct (_ <=? _); cbn [default from_option]); unfold id; lia. Qed.

Lemma pause_spec total deadline options w : deadline + val THIRTY_YEARS <= INSTANT_MAX ->
  wp (pause total deadline options) (paused (time w) (asked w) (N.min (time w + N.min (val total) (val THIRTY_YEARS)) deadline)) w.
Proof.
  intros Hroom. unfold pause. eapply wp_seq; [apply wp_now|]. intros ? w1 (t & -> & Hl & Hr & Ha). cbn [next_of].
  set (end_ := N.min _ _). pose proof (far_deadline_late t total) as Hf. unfold pause_fuel.
  eapply wp_mono.
  - apply (pause_until_spec _ _ _ _ (time w) (asked w)); [split; lia|]. fold SLICE. assert (0 < SLICE) as Hs by (vm_compute; reflexivity).
    rewrite Nat2N.inj_succ, N2Nat.id, N.mul_succ_r. pose proof (N.div_mod (end_ - t) SLICE ltac:(lia)). pose proof (N.mod_upper_bound (end_ - t) SLICE ltac:(lia)). lia.
  - intros [u|e|] w2 [Ht Hq]; [|done..]. split; [done|]. destruct (N.le_gt_cases deadline t) as [Hd|Hd]; [lia|].
    pose proof (far_deadline_spec t total ltac:(lia)). lia.
Qed.

(** * One iteration *)

(** Where the loop is: from [t0] on, with [n] requests at most counted, and sent
    since the agent had been handed [base]. *)
Context (base : N).
Definition ready (t0 : Instant) (n : N) (l : Loop W) : Prop := since t0 (base + n) (host l) /\ val (requests_sent (stats l)) <= n.

(** What an iteration begun at [t0] leaves: a decoded proof, an error, or a later
    moment to go round from. *)
Definition ended (t0 : Instant) (n : N) (deadline : Instant) (r : outcome HttpError (option InclusionProof)) (l : Loop W) : Prop :=
  ready t0 n l /\ match r with
  | Ok (Some p) => wf p
  | Ok None => N.min (t0 + SHORTEST) deadline <= time (host l)
  | Err _ => True
  | Panic => False
  end.

Lemma wp_on_host {E A B} (m : M W E A) (k : A -> M (Loop W) E B) Q l :
  wp m (fun r w => next_of k Q r (set_host w l)) (host l) -> wp (on_host m ≫= k) Q l.
Proof. intros Hm. apply wp_bind. unfold on_host. by apply wp_zoom. Qed.

Context (options : WaitOptions) (deadline : Instant) (interval : Duration).
Context (room : deadline + val THIRTY_YEARS <= INSTANT_MAX).

Lemma ended_err t0 n e l : ready t0 n l -> wp (liftM (Err e)) (ended t0 n deadline) l.
Proof. intros Hl. by apply wp_lift. Qed.

Lemma ended_pause t0 n p l : ready t0 n l -> SHORTEST <= val p ->
  wp (_ ← on_host (pause p deadline options); mret None) (ended t0 n deadline) l.
Proof.
  intros [[Ht Hb] Hn] Hp. apply wp_on_host. eapply wp_mono; [by apply pause_spec|].
  assert (SHORTEST <= val THIRTY_YEARS) by (vm_compute; discriminate).
  intros [u|e|] w [[Hw Hb'] Hq]; cbn [next_of]; [apply wp_ret| |done]; (split; [split; [split; cbn [host set_host]; lia|exact Hn]|]); [|done].
  cbn [host set_host]. lia.
Qed.

Lemma at_least_shortest : SHORTEST <= val (dur_max interval MIN_PAUSE).
Proof. rewrite val_dur_max. fold SHORTEST. lia. Qed.

(** The clock and the cancellation flag, read by an iteration. *)
Lemma ready_cancelled {B} (k : bool -> M (Loop W) HttpError B) Q t0 n l : ready t0 n l ->
  (forall c l', ready t0 n l' -> time (host l) <= time (host l') -> send_wait l' = send_wait l -> wp (k c) Q l') -> wp (on_host (cancelled options) ≫= k) Q l.
Proof.
  intros [[Ht Hb] Hn] Hk. apply wp_on_host. eapply wp_mono; [apply wp_cancelled|]. intros ? w (c & -> & Hw & Hw'). cbn [next_of].
  apply Hk; [|done..]. split; [split; cbn [host set_host]; lia|done].
Qed.

Lemma ready_now {B} (k : Instant -> M (Loop W) HttpError B) Q t0 n l : ready t0 n l ->
  (forall t l', ready t0 n l' -> time (host l) <= t -> t <= time (host l') -> send_wait l' = send_wait l -> wp (k t) Q l') -> wp (on_host now ≫= k) Q l.
Proof.
  intros [[Ht Hb] Hn] Hk. apply wp_on_host. eapply wp_mono; [apply wp_now|]. intros ? w (t & -> & Hl & Hr & Ha). cbn [next_of].
  apply Hk; [|done..]. split; [split; cbn [host set_host]; lia|done].
Qed.

Lemma after_transport_spec plan left_ms timed_out t0 n l : ready t0 n l ->
  wp (after_transport options deadline interval plan left_ms timed_out) (ended t0 n deadline) l.
Proof.
  intros Hl. unfold after_transport. eapply ready_cancelled; [exact Hl|]. intros c l1 L1 _ _. destruct c; [by apply ended_err|].
  eapply ready_now; [exact L1|]. intros t l2 L2 _ _ _. destruct (_ || _); [by apply ended_err|].
  do 2 (apply wp_bind, wp_modify; cbn [next_of]). unfold transport_pause. destruct (_ <? _); [by apply ended_err|].
  apply wp_bind, wp_lift. cbn [next_of]. apply ended_pause; [exact L2|apply at_least_shortest].
Qed.

Lemma after_overload_spec plan left_ms failure retry t0 n l : ready t0 n l ->
  wp (after_overload options deadline interval plan left_ms failure retry) (ended t0 n deadline) l.
Proof.
  intros Hl. unfold after_overload. eapply ready_cancelled; [exact Hl|]. intros c l1 L1 _ _. destruct c; [by apply ended_err|].
  eapply ready_now; [exact L1|]. intros t l2 L2 _ _ _. destruct (_ || _); [by apply ended_err|].
  apply wp_bind, wp_modify. cbn [next_of]. apply wp_bind. destruct (is_some _); [apply wp_modify|apply wp_ret]; cbn [next_of].
  all: unfold overload_pause; destruct (_ <? _); [by apply ended_err|]; apply wp_bind, wp_lift; cbn [next_of].
  all: apply ended_pause; [exact L2|]; rewrite val_dur_max; pose proof at_least_shortest; lia.
Qed.

Lemma after_pending_error_spec plan echo t0 n l : ready t0 n l ->
  wp (after_pending_error options deadline interval plan echo) (ended t0 n deadline) l.
Proof.
  intros Hl. unfold after_pending_error. do 2 (apply wp_bind, wp_modify; cbn [next_of]).
  assert (forall l', ready t0 n l' -> wp (_ ← on_host (pause (dur_max interval MIN_PAUSE) deadline options); mret None) (ended t0 n deadline) l') as Hp.
  { intros l' Hl'. apply ended_pause; [done|apply at_least_shortest]. }
  apply wp_bind. destruct echo as [v|].
  - apply wp_bind, wp_lift. pose proof (no_panic_waited v) as Hn. destruct (parse_waited_ms v) as [x|e|]; cbn [map_err next_of]; [|done..].
    apply wp_ret. by apply Hp.
  - destruct (is_some _); [|apply wp_ret; by apply Hp]. apply wp_bind, wp_modify. cbn [next_of]. apply wp_modify. by apply Hp.
Qed.
(** A pending answer: an immediate recheck follows only a call that already took
    the interval. *)
Lemma after_result_spec grace plan call_took result t0 n l : ready t0 n l -> t0 + val call_took <= time (host l) ->
  wp (after_result options deadline interval grace plan call_took result) (ended t0 n deadline) l.
Proof.
  intros Hl Hc. unfold after_result. apply wp_bind, wp_lift. pose proof (no_panic_v2 result (is_some (plan_wait_ms plan))) as Hn.
  destruct (decode_v2_result _ _) as [r|e|] eqn:Er; [|done..]. apply decode_v2_result_wf in Er. cbn [next_of].
  cbv zeta. set (answer := _ ← modify (set_stats note_pending); _).
  assert (forall l', ready t0 n l' -> t0 + val call_took <= time (host l') -> wp answer (ended t0 n deadline) l') as Hans.
  { intros l' L C. unfold answer. do 2 (apply wp_bind, wp_modify; cbn [next_of]). pose proof at_least_shortest.
    destruct (_ && (_ <=? _)) eqn:Ep.
    - apply wp_bind, wp_modify. cbn [next_of]. apply wp_ret. split; [exact L|]. apply andb_true_iff in Ep as [_ Ht%N.leb_le].
      cbn [host set_stats set_unknown]. lia.
    - destruct (is_some _ && _); apply ended_pause; try exact L; rewrite val_dur_max; fold SHORTEST; lia. }
  clearbody answer. apply wp_bind. destruct (is_some _ && _); [apply wp_bind, wp_modify; cbn [next_of]; apply wp_modify|apply wp_ret]; cbn [next_of].
  all: destruct (response r) as [b proof|b uc]; [apply wp_ret; split; [exact Hl|exact Er]|].
  all: destruct (status r) as [[]|]; try (apply Hans; [exact Hl|exact Hc]); [by apply ended_err|].
  all: apply wp_bind, wp_modify; cbn [next_of]; apply wp_bind, wp_get; cbn [next_of]; apply wp_bind, wp_modify; cbn [next_of].
  all: destruct (_ <? _); [by apply ended_err|]; apply ended_pause; [exact Hl|apply at_least_shortest].
Qed.

Lemma terminal_error_spec plan left_ms e t0 n l : ready t0 n l -> wp (terminal_error plan left_ms deadline false e) (ended t0 n deadline) l.
Proof. intros Hl. unfold terminal_error. destruct e; repeat case_match; by apply ended_err. Qed.

Lemma after_call_spec grace plan left_ms call_took raw t0 n l : ready t0 n l -> t0 + val call_took <= time (host l) ->
  wp (after_call options deadline interval grace plan left_ms call_took raw) (ended t0 n deadline) l.
Proof.
  intros Hl Hc. unfold after_call. destruct (is_transport raw) as [b|]; [by apply after_transport_spec|].
  destruct raw as [failure|result]; [|by apply after_result_spec]. cbv zeta.
  destruct (overload_of failure); [by apply after_overload_spec|].
  destruct (raw_to_http failure); try (by apply terminal_error_spec).
  destruct (_ =? _)%Z; [by apply after_pending_error_spec|by apply terminal_error_spec].
Qed.

Lemma bump_le (k : u32) n : val k <= n -> val (bump k) <= n + 1.
Proof. intros Hk. unfold bump. cbn [val wrap]. pose proof (N.Div0.mod_le (val k + 1) (2 ^ 32)). lia. Qed.

(** An iteration sends and counts one request at most, and none at or after the
    deadline. *)
Lemma wait_step_spec self state_id grace n l : ready (time (host l)) n l ->
  wp (wait_step self state_id options deadline interval grace)
    (fun r l' => ended (time (host l)) (n + 1) deadline r l' /\
       (deadline <= time (host l) -> ready (time (host l)) n l' /\ exists e, r = Err e)) l.
Proof.
  intros Hl. unfold wait_step. set (t0 := time (host l)) in *.
  assert (forall e l', ready t0 n l' -> wp (liftM (Err e)) (fun (r : outcome HttpError (option InclusionProof)) l' =>
    ended t0 (n + 1) deadline r l' /\ (deadline <= t0 -> ready t0 n l' /\ exists e, r = Err e)) l') as Herr.
  { intros e l' Hl'. apply wp_lift. split; [|intros _; split; [done|by exists e]].
    split; [|done]. destruct Hl' as [Hs Hr]. split; [eapply since_more; [exact Hs|]|]; lia. }
  eapply ready_cancelled; [exact Hl|]. intros c l1 L1 T1 _. destruct c; [by apply Herr|].
  apply wp_on_host. unfold spent. eapply wp_seq; [apply wp_now|]. intros ? w2 (t & -> & Hb & Ha & Hn2). cbn [next_of]. apply wp_ret. cbn [next_of].
  set (l2 := set_host w2 l1). assert (ready t0 n l2) as L2 by (destruct L1 as [[? ?] ?]; split; [split; cbn; lia|done]).
  unfold checked_duration_since. destruct (N.leb_spec t deadline) as [Ht|Ht]; [|by apply wp_bind, Herr].
  destruct (is_zero (nanos (deadline - t))) eqn:Ez; [by apply wp_bind, Herr|].
  assert (t0 < deadline) as Hd.
  { unfold is_zero in Ez. apply N.eqb_neq in Ez. rewrite val_nanos in Ez. lia. }
  apply (wp_mono _ (ended t0 (n + 1) deadline)); [|intros r l' He; split; [exact He|intros; lia]].
  clear Herr. apply wp_bind, wp_lift. cbn [ok_or next_of]. apply wp_bind, wp_get. cbn [next_of]. cbv zeta.
  apply wp_bind, wp_modify. cbn [next_of]. match goal with |- wp _ _ ?x => set (l3 := x) end.
  assert (since t0 (base + n) (host l3) /\ val (requests_sent (stats l3)) <= n + 1) as [[L3 A3] N3].
  { destruct L2 as [Ls Ln]. split; [exact Ls|]. by apply bump_le. }
  clearbody l3. apply wp_on_host. eapply wp_mono; [apply wp_now|]. intros ? w4 (started & -> & B2 & B3 & A4). cbn [next_of].
  apply wp_on_host, wp_tryM. eapply wp_mono; [apply rpc_raw_later|]. intros r w5 [Hp [B1 A5]]. cbn [host set_host] in B1, A5.
  set (l5 := set_host w5 (set_host w4 l3)).
  assert (ready t0 (n + 1) l5) as L5 by (split; [split; cbn; lia|done]).
  assert (time (host l5) = time w5) as T5 by done. clearbody l5.
  destruct r as [v|e|]; cbn [next_of]; [| |done].
  all: eapply ready_now; [exact L5|]; intros t6 l6 L6 T6 T6' _; apply after_call_spec; [exact L6|].
  all: unfold saturating_duration_since; rewrite val_nanos; destruct L6 as [[? ?] ?]; lia.
Qed.

(** * The loop *)

Lemma wait_loop_spec self state_id grace fuel : forall l n, ready (time (host l)) n l ->
  deadline <= time (host l) + SHORTEST * N.of_nat fuel ->
  wp (wait_loop (S fuel) self state_id options deadline interval grace)
    (fun r l' => no_panic r /\ ready (time (host l)) (n + N.of_nat fuel) l' /\ forall p, r = Ok p -> wf p) l.
Proof.
  induction fuel as [|fuel IH]; intros l n Hn Hd; (eapply wp_seq; [by apply wait_step_spec|]); intros r l1 [[Hr He] Hlate].
  - destruct Hlate as [Hb [e ->]]; [lia|]. cbn [next_of]. split_and!; [done|by rewrite N.add_0_r|done].
  - destruct Hr as [[Ht Ha] Hc].
    assert (forall l', ready (time (host l1)) (n + 1 + N.of_nat fuel) l' -> ready (time (host l)) (n + N.of_nat (S fuel)) l') as Hup.
    { intros l' [[? ?] ?]. split; [split|]; lia. }
    assert (forall t, t <= time (host l1) -> ready t (n + 1) l1) as Hstop by (intros; split; [split; lia|done]).
    destruct r as [[p|]|e|]; cbn [next_of]; [| | |done].
    + apply wp_ret. split_and!; [done| |by intros ? [= <-]]. apply Hup. split; [split|]; lia.
    + eapply wp_mono; [apply (IH l1 (n + 1)); [apply Hstop|]; lia|]. intros r l2 (Hp & Hs2 & Hw). split_and!; [done|by apply Hup|done].
    + split_and!; [done| |done]. apply Hup. split; [split|]; lia.
Qed.
End wait.
