(* ===== verification/Consolidate.v ===== *)
(** The consolidation client: [src/client/consolidate/mod.rs], [direct.rs] and
    [error.rs].

    One attempt is a run over a world [W] that answers the clock, the caller's
    cancellation flag and the transport, each however it likes. [Shared] is what
    the jobs of a wave share: the world, the abort flag and the request counter;
    [Run] adds the seal session. The counters of admission work, an instrument of
    the scaling tests, and the texts of [Display] are left out. *)

From Stdlib Require Import ZArith.
From stdpp Require Import strings.
From S2P Require Import Prelude State Bytes Error Cbor Hash Codec ShardId ShardOps Search Ids Bft Certificates VerificationError Secp Predicates TrustBase Seal Proofs Transactions Verify Topology ViewCodec Assemble Plan Batch Executor.
Local Open Scope N_scope.

(** * Outcomes and errors *)

Inductive UnavailableReason : Type :=
| UnsupportedCapability | UnsupportedConfiguration | TargetNotRetained | TargetNotYetAvailable | PartitionViewUnavailable
| Busy | StatePending | StateExpired | StateUnknown | StateNotInRoot.

Inductive IntegrityError : Type :=
| ViewIntegrity (e : PartitionViewError)
| Evidence (e : VerificationError)
| Binding (shard : ShardId) (index : nat) (what : string)
| Context_ (what : string)
| RootSubstitution (shard : ShardId)
| Certificate (shard : ShardId) (what : string)
| VerificationIntegrity (e : VerificationError)
| Target (e : VerificationError).

(** The text of a configuration error, or the error whose text it is. *)
Inductive ConfigurationCause : Type := Message (m : string) | Router (e : PartitionViewError).

Inductive ConsolidationError : Type :=
| InvalidToken (e : VerificationError)
| Configuration (cause : ConfigurationCause)
| TooManyStates (shard : ShardId) (count limit : N)
| TransportError (shard : ShardId) (failure : BatchFailure)
| ServerError (shard : ShardId) (failure : BatchFailure)
| Rejected (shard : ShardId) (failure : BatchFailure)
| InvalidResponse (shard : ShardId) (what : string)
| Integrity (e : IntegrityError)
| DeadlineExpired
| AttemptCancelled.

Record ConsolidationSummary : Type := {
  sum_outer_proofs : N;
  sum_outer_seals_before : N;
  sum_outer_seals_after : N;
  sum_already_shared : bool;
  sum_shards : N;
  sum_requests : usize;
  sum_master : option ShardId;
  sum_master_round : option u64;
  sum_required_round : u64;
  sum_consolidation_quorum_checks : u64;
  sum_input_quorum_checks : u64;
  sum_verification_quorum_checks : u64;
  sum_certificates_derived : N;
}.

Inductive ConsolidationOutcome : Type :=
| Consolidated (token : Token) (summary : ConsolidationSummary)
| NotConsolidated (reason : UnavailableReason) (retryable : bool).

Record ProofBundle : Type := { bundle_proofs : list InclusionProof; bundle_summary : ConsolidationSummary }.

Inductive BundleOutcome : Type :=
| BundleConsolidated (bundle : ProofBundle)
| BundleUnavailable (reason : UnavailableReason) (retryable : bool).

(** Why an attempt stopped. *)
Inductive Stop : Type :=
| StopUnavailable (reason : UnavailableReason) (retryable : bool)
| StopError (e : ConsolidationError).

Definition cfg (m : string) : Stop := StopError (Configuration (Message m)).
Definition context_error (what : string) : Stop := StopError (Integrity (Context_ what)).

Definition stop_error (stop : Stop) : ConsolidationError :=
  match stop with StopError e => e | StopUnavailable _ _ => AttemptCancelled end.

Definition classify_unavailable (detail : option string) (retryable : option bool) : Stop :=
  let retry := default true retryable in
  match detail with
  | Some d =>
      if bool_decide (d = "unsupported_configuration"%string) then StopUnavailable UnsupportedConfiguration false
      else if bool_decide (d = detail.STATE_PENDING) then StopUnavailable StatePending retry
      else if bool_decide (d = detail.STATE_EXPIRED) then StopUnavailable StateExpired false
      else if bool_decide (d = detail.STATE_UNKNOWN) then StopUnavailable StateUnknown false
      else if bool_decide (d = detail.STATE_NOT_IN_ROOT) then StopUnavailable StateNotInRoot false
      else if bool_decide (d = "view_not_retained"%string) then StopUnavailable TargetNotRetained retry
      else if bool_decide (d = "partition_view_unavailable"%string) then StopUnavailable PartitionViewUnavailable retry
      else StopUnavailable TargetNotYetAvailable retry
  | None => StopUnavailable TargetNotYetAvailable retry
  end.

Definition classify (shard : ShardId) (failure : BatchFailure) : Stop :=
  match failure with
  | BatchTimeout => StopError DeadlineExpired
  | BatchCancelled => StopError AttemptCancelled
  | Transport _ | Http _ | ResponseTooLarge _ => StopError (TransportError shard failure)
  | DecodeFailure _ => StopError (InvalidResponse shard "undecodable response")
  | Rpc code _ _ detail retryable _ =>
      if (code =? rpc_code.METHOD_NOT_FOUND)%Z then StopUnavailable UnsupportedCapability false
      else if (code =? rpc_code.CONCURRENCY_LIMIT)%Z then StopUnavailable Busy true
      else if (code =? rpc_code.PROOF_UNAVAILABLE)%Z then classify_unavailable detail retryable
      else if (code =? rpc_code.INVALID_PARAMS)%Z || (code =? rpc_code.INVALID_REQUEST)%Z || (code =? rpc_code.LIMIT_EXCEEDED)%Z
      then StopError (Rejected shard failure)
      else StopError (ServerError shard failure)
  end.

(** * The long poll of the master request *)

Definition DEFAULT_TIMEOUT_MS : u64 := wrap 64 10000.

Record MasterLongPoll : Type := { preferred_ms : u64; lp_margin_ms : u64; max_request_ms : u64 }.
Definition MasterLongPoll_default : MasterLongPoll :=
  {| preferred_ms := wrap 64 20000; lp_margin_ms := wrap 64 2000; max_request_ms := wrap 64 30000 |}.

Definition wait_for (self : MasterLongPoll) (remaining_ms : u64) : option u64 :=
  let wait := min_u64 (min_u64 (min_u64 (preferred_ms self) (saturating_sub remaining_ms (lp_margin_ms self)))
    (saturating_sub (max_request_ms self) (lp_margin_ms self))) MAX_WAIT_MS in
  if 0 <? val wait then Some wait else None.

(** [ConsolidateOptions]; its cancel token is the world's. *)
Record ConsolidateOptions : Type := { opt_timeout_ms : u64; opt_master : option ShardId }.

Record ProofItem : Type := { item_state_id : StateId; item_proof : InclusionProof }.

Record Group : Type := { endpoint : nat; group_shard : ShardId; group_items : list nat; group_ids : list StateId }.

(** * The world *)

Record Shared (W : Type) : Type := { world : W; abort : bool; requests : usize }.
Arguments world {W}. Arguments abort {W}. Arguments requests {W}.

Definition set_world {W} (w : W) (s : Shared W) : Shared W := {| world := w; abort := abort s; requests := requests s |}.
Definition set_abort {W} (s : Shared W) : Shared W := {| world := world s; abort := true; requests := requests s |}.
Definition set_requests {W} (n : usize) (s : Shared W) : Shared W := {| world := world s; abort := abort s; requests := n |}.

Definition on_world {W E A} (m : M W E A) : M (Shared W) E A := zoom world set_world m.
Definition observe {W E A} (f : W -> A * W) : M W E A := fun w => let '(a, w) := f w in (Ok a, w).
Definition count_requests {W E} (n : N) : M (Shared W) E unit := modify (fun s => set_requests (add_u64 (requests s) n) s).

(** A loop that carries a value. *)
Fixpoint foldlM {S E A B} (f : B -> A -> M S E B) (b : B) (l : list A) : M S E B :=
  match l with
  | [] => mret b
  | x :: l => b ← f b x; foldlM f b l
  end.

Section client.
Context `{Sha2} `{K256} {W C : Type} `{BatchAggregatorClient W C} `{Clock W} `{CallerCancel W} `{WaveExecutor (Shared W)}.

Abbreviation SharedM := (M (Shared W) Stop).

(** [Budget::check]: the remaining milliseconds, or why the attempt must stop. *)
Definition budget_check (deadline_ms : u64) : SharedM u64 :=
  cancelled ← on_world (observe caller_cancelled);
  s ← State.get;
  if (cancelled : bool) || abort s then liftM (Err (StopError AttemptCancelled)) else
  now ← on_world (observe now_ms);
  let remaining := saturating_sub deadline_ms now in
  if val remaining =? 0 then liftM (Err (StopError DeadlineExpired)) else mret remaining.

Record ProofClient : Type := {
  client_topology : PartitionTopology;
  router : ShardRouter;
  client_trust_base : RootTrustBase;
  client_registry : MintJustificationRegistry;
  client_policy : VerificationPolicy;
  endpoints : list (ShardId * C);
  endpoint_by_shard : list (option nat);
  master_long_poll : option MasterLongPoll;
}.

Definition position {A} (p : A -> bool) (l : list A) : option nat := fst <$> list_find (fun x => p x = true) l.

Definition same_shard (a b : ShardId) : bool := bool_decide (a = b).

Fixpoint check_endpoints (r : ShardRouter) (before : list (ShardId * C)) (after : list (ShardId * C)) : outcome ConsolidationError unit :=
  match after with
  | [] => Ok tt
  | (shard, c) :: after =>
      if negb (existsb (same_shard shard) (shards r))
      then Err (Configuration (Message "endpoint shard is not in the topology")) else
      if existsb (fun e => same_shard (fst e) shard) before
      then Err (Configuration (Message "duplicate endpoint for a shard")) else
      check_endpoints r (before ++ [(shard, c)]) after
  end.

(** [ProofClient::new] *)
Definition proof_client_new (topology : PartitionTopology) (endpoints : list (ShardId * C)) (trust_base : RootTrustBase) :
    outcome ConsolidationError ProofClient :=
  _ ← map_err (fun _ => Configuration (Message "invalid trust base")) (validate trust_base);
  router ← map_err (fun e => Configuration (Router e)) (router_new topology);
  _ ← check_endpoints router [] endpoints;
  Ok {| client_topology := topology; router := router; client_trust_base := trust_base; client_registry := empty_registry;
        client_policy := default_policy; endpoints := endpoints;
        endpoint_by_shard := (fun s => position (fun e => same_shard (fst e) s) endpoints) <$> shards router;
        master_long_poll := None |}.

Definition with_master_long_poll (self : ProofClient) (long_poll : MasterLongPoll) : ProofClient :=
  {| client_topology := client_topology self; router := router self; client_trust_base := client_trust_base self;
     client_registry := client_registry self; client_policy := client_policy self; endpoints := endpoints self;
     endpoint_by_shard := endpoint_by_shard self; master_long_poll := Some long_poll |}.

Definition with_verification (self : ProofClient) (registry : MintJustificationRegistry) (policy : VerificationPolicy) : ProofClient :=
  {| client_topology := client_topology self; router := router self; client_trust_base := client_trust_base self;
     client_registry := registry; client_policy := policy; endpoints := endpoints self;
     endpoint_by_shard := endpoint_by_shard self; master_long_poll := master_long_poll self |}.

(** * Admission *)

(** The locals of the loop of [group]; [seen], a [BTreeMap], is the list of its
    entries in key order. *)
Record Admission : Type := {
  seen : list (bytes * nat);
  first_of : list nat;
  shard_of : list nat;
  slots : list (option Group);
}.

(** A new state joins its shard's group. *)
Definition join_group (self : ProofClient) (slots : list (option Group)) (si i : nat) (state_id : StateId) :
    outcome Stop (list (option Group)) :=
  shard ← or_panic (shards (router self) !! si);
  slot ← or_panic (slots !! si);
  g ← (match slot with
       | Some g => Ok g
       | None =>
           at_ ← or_panic (endpoint_by_shard self !! si);
           endpoint ← ok_or (cfg "no configured endpoint serves a state of the token") at_;
           Ok {| endpoint := endpoint; group_shard := shard; group_items := []; group_ids := [] |}
       end);
  let g := {| endpoint := endpoint g; group_shard := group_shard g; group_items := group_items g ++ [i];
              group_ids := group_ids g ++ [state_id] |} in
  if MAX_BATCH_STATE_IDS <? len (group_ids g)
  then Err (StopError (TooManyStates (group_shard g) (len (group_ids g)) MAX_BATCH_STATE_IDS)) else
  Ok (<[si := Some g]> slots).

Definition admit_item (self : ProofClient) (items : list ProofItem) (a : Admission) (e : nat * ProofItem) : outcome Stop Admission :=
  let '(i, item) := e in
  let cap := N.min (len (endpoints self) * MAX_BATCH_STATE_IDS) usize_max in
  let key := val (sid_bytes (item_state_id item)) in
  let si := route_index (router self) (item_state_id item) in
  match btree_get key (seen a) with
  | Some first =>
      o ← or_panic (items !! first);
      if negb (bool_decide (certification_data (item_proof o) = certification_data (item_proof item))) ||
         negb (val (reference_time (item_proof o)) =? val (reference_time (item_proof item)))
      then Err (cfg "conflicting inputs for one state id") else
      Ok {| seen := seen a; first_of := first_of a ++ [first]; shard_of := shard_of a ++ [si]; slots := slots a |}
  | None =>
      let seen := btree_insert key i (seen a) in
      shard ← or_panic (shards (router self) !! si);
      if cap <? len seen then Err (StopError (TooManyStates shard (len seen) cap)) else
      slots ← join_group self (slots a) si i (item_state_id item);
      Ok {| seen := seen; first_of := first_of a ++ [i]; shard_of := shard_of a ++ [si]; slots := slots |}
  end.

Definition admit_step (self : ProofClient) (items : list ProofItem) (deadline : u64) (a : Admission) (e : nat * ProofItem) :
    SharedM Admission :=
  _ ← (if (fst e mod 64 =? 0)%nat then _ ← budget_check deadline; mret tt else mret tt);
  liftM (admit_item self items a e).

(** [group]: the participating groups, and for every input the first input of its
    state and its shard index. *)
Definition group (self : ProofClient) (items : list ProofItem) (deadline : u64) : SharedM (list Group * list nat * list nat) :=
  if (length items =? 0)%nat then liftM (Err (cfg "nothing to consolidate")) else
  a ← foldlM (admit_step self items deadline)
    {| seen := []; first_of := []; shard_of := []; slots := replicate (length (shards (router self))) None |} (imap pair items);
  mret (omap id (slots a), first_of a, shard_of a).

(** * One request *)

Definition fetch (endpoints : list (ShardId * C)) (group : Group) (root : StateRoot) (deadline : u64)
    (long_poll : option MasterLongPoll) : SharedM InclusionProofBatch :=
  remaining ← budget_check deadline;
  '(shard, client) ← liftM (or_panic (endpoints !! endpoint group));
  let wait := match root with
              | Latest => lp ← long_poll; wait_for lp remaining
              | Exact _ => None
              end in
  let options := {| timeout_ms := match wait, long_poll with
                                  | Some wait_ms, Some lp => min_u64 remaining (saturating_add wait_ms (lp_margin_ms lp))
                                  | _, _ => remaining
                                  end |} in
  result ← (match wait with
    | Some wait_ms =>
        let wait := with_margin_ms (WaitRequest_new wait_ms) (from_option lp_margin_ms DEFAULT_WAIT_MARGIN_MS long_poll) in
        negotiated ← on_world (get_latest_negotiating_wait client (group_ids group) options wait (observe now_ms));
        _ ← count_requests (nb_requests negotiated);
        mret (sum_map wf_failure wb_batch (nb_result negotiated))
    | None =>
        _ ← count_requests 1;
        tryM (on_world (get_inclusion_proofs client {| state_ids := group_ids group; state_root := root |} options))
    end);
  after ← tryM (budget_check deadline);
  let stopped := match after with inl stop => Err stop | inr _ => Ok tt end in
  match result with
  | inr batch => _ ← liftM stopped; mret batch
  | inl failure => _ ← liftM stopped; liftM (Err (classify shard failure))
  end.

(** * Checking a batch *)

Definition check_served (group : Group) (items : list ProofItem) (first : UnicityCertificate) (e : nat * (nat * BatchProof)) :
    outcome Stop unit :=
  let '(k, (idx, served)) := e in
  original ← or_panic (items !! idx);
  let original := item_proof original in
  let binding what := StopError (Integrity (Binding (group_shard group) k what)) in
  if negb (bool_decide (certification_data (bp_proof served) = certification_data original))
  then Err (binding "certification data differs from the original"%string) else
  if negb (val (reference_time (bp_proof served)) =? val (reference_time original))
  then Err (binding "reference time differs from the original"%string) else
  if negb (bool_decide (unicity_certificate (bp_proof served) = first))
  then Err (StopError (InvalidResponse (group_shard group) "proofs of one batch carry different certificates")) else
  Ok tt.

Definition check_batch (group : Group) (items : list ProofItem) (batch : InclusionProofBatch) (exact : option (arr 32)) :
    outcome Stop unit :=
  let bad what := StopError (InvalidResponse (group_shard group) what) in
  if negb (length (batch_proofs batch) =? length (group_items group))%nat
  then Err (bad "proof count differs from the request"%string) else
  if is_some exact && is_some (partition_view batch) then Err (bad "exact-root response carries a partition view"%string) else
  first ← or_panic (batch_proofs batch !! 0%nat);
  let first := unicity_certificate (bp_proof first) in
  _ ← foldM (fun _ => check_served group items first) tt (imap pair (zip (group_items group) (batch_proofs batch)));
  match exact with
  | Some root => if bool_decide (hash (input_record first) = Some (val root)) then Ok tt
                 else Err (StopError (Integrity (RootSubstitution (group_shard group))))
  | None => Ok tt
  end.

(** * The direct target of an unsharded partition *)

Record DirectTarget : Type := { dt_uc : UnicityCertificate; dt_policy : arr 32 }.

(** The checks before the seal's. *)
Definition direct_checks (uc : UnicityCertificate) (topology : PartitionTopology) : outcome IntegrityError unit :=
  let shard := Bft.shard (shard_tree_certificate uc) in
  if negb (slength (val shard) =? 0) then Err (Context_ "direct target needs the empty shard id") else
  if negb (length (sibling_hash_list (shard_tree_certificate uc)) =? 0)%nat
  then Err (Context_ "empty shard id with a nonempty shard path") else
  if negb (bool_decide (partition_identifier (unicity_tree_certificate uc) = AGGREGATION_PARTITION_ID))
  then Err (Context_ "target is of another partition") else
  if match shard_conf_hash topology root with
     | Some pin => negb (bool_decide (val pin = shard_configuration_hash uc))
     | None => false
     end
  then Err (Context_ "target's shard configuration differs from the pin") else
  computed ← map_err (fun _ => Target SealRootMismatch) (computed_seal_hash uc);
  if negb (bool_decide (DataHash.data computed = seal_hash (unicity_seal uc))) then Err (Target SealRootMismatch) else Ok tt.

Definition direct_authenticate (uc : UnicityCertificate) (topology : PartitionTopology) : M SealSession IntegrityError DirectTarget :=
  _ ← liftM (direct_checks uc topology);
  let policy := view_policy (Some topology) in
  _ ← map_errM Target (authenticate_seal_under (unicity_seal uc) policy);
  mret {| dt_uc := uc; dt_policy := policy |}.

(** * The attempt *)

Record Run : Type := { shared : Shared W; session : SealSession }.
Definition set_shared (s : Shared W) (r : Run) : Run := {| shared := s; session := session r |}.
Definition set_session (s : SealSession) (r : Run) : Run := {| shared := shared r; session := s |}.

Abbreviation RunM := (M Run Stop).

Definition on_shared {A} (m : SharedM A) : RunM A := zoom shared set_shared m.
Definition on_session {E A} (f : E -> Stop) (m : M SealSession E A) : RunM A := zoom session set_session (map_errM f m).
Definition quorum_count : RunM u64 := r ← State.get; mret (quorum_checks (session_stats (session r))).

(** An item's evidence must belong to the configured partition, shard and pins. *)
Definition check_context (self : ProofClient) (e : ProofItem * nat) : outcome Stop unit :=
  let '(item, si) := e in
  let uc := unicity_certificate (item_proof item) in
  if negb (bool_decide (partition_identifier (unicity_tree_certificate uc) = AGGREGATION_PARTITION_ID))
  then Err (context_error "proof is of another partition") else
  let shard := Bft.shard (shard_tree_certificate uc) in
  routed ← or_panic (shards (router self) !! si);
  if negb (bool_decide (shard = routed)) then Err (context_error "proof is of another shard than the state routes to") else
  if match shard_conf_hash (client_topology self) shard with
     | Some pin => negb (bool_decide (val pin = shard_configuration_hash uc))
     | None => false
     end
  then Err (context_error "proof's shard configuration differs from the pin") else Ok tt.

(** The loop over the served proofs of one group: each becomes the replacement of
    its item, verified under the authenticated target's policy. *)
Definition place_one (items : list ProofItem) (g : Group) (cert : UnicityCertificate) (policy : arr 32)
    (replaced : list (option InclusionProof)) (e : nat * (nat * BatchProof)) : RunM (list (option InclusionProof)) :=
  let '(k, (idx, served)) := e in
  item ← liftM (or_panic (items !! idx));
  p ← liftM (map_err (fun what => StopError (Integrity (Binding (group_shard g) k what)))
    (replacement_proof (item_proof item) (bp_proof served) cert));
  _ ← on_session (fun e => StopError (Integrity (VerificationIntegrity e)))
    (verify_membership_under p (item_state_id item) (reference_time p) policy);
  _ ← liftM (or_panic (replaced !! idx));
  mret (<[idx := Some p]> replaced).

Definition place_all (items : list ProofItem) (g : Group) (batch : InclusionProofBatch) (cert : UnicityCertificate) (policy : arr 32)
    (replaced : list (option InclusionProof)) : RunM (list (option InclusionProof)) :=
  foldlM (place_one items g cert policy) replaced (imap pair (zip (group_items g) (batch_proofs batch))).

(** [place]: derives the group's certificate from the authenticated view. *)
Definition place (items : list ProofItem) (view : AuthenticatedView) (st : list (option InclusionProof) * N)
    (e : Group * InclusionProofBatch) : RunM (list (option InclusionProof) * N) :=
  let '(replaced, derived) := st in
  let '(g, batch) := e in
  shard_cert ← liftM (map_err (fun e => StopError (Integrity (ViewIntegrity e))) (certificate_of view (group_shard g)));
  cert ← liftM (ok_or (StopError (Integrity (Certificate (group_shard g) "no ordinary certificate for a shard holding proofs")))
    (sc_certificate shard_cert));
  replaced ← place_all items g batch cert (av_policy view) replaced;
  mret (replaced, derived + 1).

(** Every input gets the replacement of its first state. *)
Definition collect (first_of : list nat) (replaced : list (option InclusionProof)) : outcome Stop (list InclusionProof) :=
  mapO (fun f => r ← or_panic (replaced !! f); or_panic r) first_of.

(** The exact roots that the view names for the other groups. *)
Definition wave_job (view : AuthenticatedView) (g : Group) : outcome Stop (Group * arr 32) :=
  leaf ← ok_or (cfg "the authenticated view lacks a participating shard") (Assemble.leaf_of view (group_shard g));
  root ← ok_or (StopError (Integrity (Certificate (group_shard g) "participating shard has no certified state root in the view")))
    (h ← PartitionViewInputRecord.hash (PartitionViewLeaf.input_record leaf); try_arr 32 h);
  Ok (g, root).

(** One job of the wave: a failure aborts the others. *)
Definition run_job (self : ProofClient) (deadline : u64) (job : Group * arr 32) : SharedM (Stop + InclusionProofBatch) :=
  r ← tryM (fetch (endpoints self) (fst job) (Exact (snd job)) deadline None);
  _ ← match r with inl _ => modify set_abort | inr _ => mret tt end;
  mret r.

Definition is_cancel (stop : Stop) : bool :=
  match stop with StopError AttemptCancelled | StopError DeadlineExpired => true | _ => false end.

(** The originating failure rather than the cancellations it caused. *)
Definition note_stop (first : option Stop) (r : Stop + InclusionProofBatch) : option Stop :=
  match r with
  | inr _ => first
  | inl stop =>
      match first with
      | None => Some stop
      | Some s => if is_cancel s && negb (is_cancel stop) then Some stop else first
      end
  end.

Definition wave_batches (wave : list (Stop + InclusionProofBatch)) : list InclusionProofBatch :=
  omap (fun r => match r with inr b => Some b | inl _ => None end) wave.

Definition finish_summary (summary : ConsolidationSummary) (proofs : list InclusionProof) (requests : usize) (derived : N)
    (master : ShardId) (round : u64) (quorum : u64) : ConsolidationSummary := {|
  sum_outer_proofs := sum_outer_proofs summary;
  sum_outer_seals_before := sum_outer_seals_before summary;
  sum_outer_seals_after := distinct_seals proofs;
  sum_already_shared := sum_already_shared summary;
  sum_shards := sum_shards summary;
  sum_requests := requests;
  sum_master := Some master;
  sum_master_round := Some round;
  sum_required_round := sum_required_round summary;
  sum_consolidation_quorum_checks := quorum;
  sum_input_quorum_checks := sum_input_quorum_checks summary;
  sum_verification_quorum_checks := sum_verification_quorum_checks summary;
  sum_certificates_derived := derived;
|}.

Definition finish (summary : ConsolidationSummary) (proofs : list InclusionProof) (derived : N) (master : ShardId) (round : u64)
    (base_quorum : u64) : RunM ProofBundle :=
  r ← State.get;
  q ← quorum_count;
  mret {| bundle_proofs := proofs;
          bundle_summary := finish_summary summary proofs (requests (shared r)) derived master round (sub_u64 q base_quorum) |}.

Definition run_direct (self : ProofClient) (items : list ProofItem) (groups : list Group) (mg : Group) (first_of : list nat)
    (mbatch : InclusionProofBatch) (bound : RootRoundBound) (deadline : u64) (summary : ConsolidationSummary) (base_quorum : u64) :
    RunM ProofBundle :=
  if negb (length (shards (router self)) =? 1)%nat || negb (slength (val (group_shard mg)) =? 0) || negb (length groups =? 1)%nat
  then liftM (Err (context_error "unsharded certificate for a sharded configuration")) else
  first ← liftM (or_panic (batch_proofs mbatch !! 0%nat));
  let enclosing := unicity_certificate (bp_proof first) in
  target ← on_session (fun e => StopError (Integrity e)) (direct_authenticate enclosing (client_topology self));
  let master_round := root_chain_round_number (unicity_seal (dt_uc target)) in
  if val master_round <? val (bound_round bound) then liftM (Err (StopUnavailable TargetNotYetAvailable true)) else
  _ ← on_shared (budget_check deadline);
  replaced ← place_all items mg mbatch (dt_uc target) (dt_policy target) (replicate (length items) None);
  proofs ← liftM (collect first_of replaced);
  _ ← on_shared (budget_check deadline);
  finish summary proofs 0 (group_shard mg) master_round base_quorum.

(** The peers: their jobs, the wave, and the placing of their proofs. *)
Definition run_peers (self : ProofClient) (items : list ProofItem) (peers : list Group) (view : AuthenticatedView) (deadline : u64)
    (st : list (option InclusionProof) * N) : RunM (list (option InclusionProof) * N) :=
  jobs ← liftM (mapO (wave_job view) peers);
  wave ← on_shared (wave_run (run_job self deadline) jobs);
  if negb (length wave =? length jobs)%nat
  then liftM (Err (cfg "the wave executor returned a different number of results than jobs")) else
  match foldl note_stop None wave with
  | Some stop =>
      cancelled ← on_shared (on_world (observe caller_cancelled));
      liftM (Err (if cancelled : bool then StopError AttemptCancelled else stop))
  | None =>
      _ ← on_shared (budget_check deadline);
      foldlM (fun st (e : Group * arr 32 * InclusionProofBatch) =>
        let '(g, root, batch) := e in
        _ ← liftM (check_batch g items batch (Some root));
        place items view st (g, batch)) st (zip jobs (wave_batches wave))
  end.

(** The batch of the master carried its partition view. *)
Definition run_view (self : ProofClient) (items : list ProofItem) (groups : list Group) (mi : nat) (mg : Group) (first_of : list nat)
    (mbatch : InclusionProofBatch) (view : PartitionView) (bound : RootRoundBound) (deadline : u64)
    (summary : ConsolidationSummary) (base_quorum : u64) : RunM ProofBundle :=
  first ← liftM (or_panic (batch_proofs mbatch !! 0%nat));
  let enclosing := unicity_certificate (bp_proof first) in
  authenticated ← on_session (fun e => StopError (Integrity (ViewIntegrity e)))
    (authenticate view enclosing (Some (client_topology self)));
  let master_round := root_chain_round_number (av_seal authenticated) in
  if val master_round <? val (bound_round bound) then liftM (Err (StopUnavailable TargetNotYetAvailable true)) else
  _ ← on_shared (budget_check deadline);
  st ← place items authenticated (replicate (length items) None, 0) (mg, mbatch);
  st ← run_peers self items (delete mi groups) authenticated deadline st;
  proofs ← liftM (collect first_of (fst st));
  _ ← on_shared (budget_check deadline);
  finish summary proofs (snd st) (group_shard mg) master_round base_quorum.

(** The master wave and what follows it. *)
Definition run_fetch (self : ProofClient) (items : list ProofItem) (master : option ShardId) (groups : list Group)
    (first_of : list nat) (bound : RootRoundBound) (deadline : u64) (summary : ConsolidationSummary) (base_quorum : u64) :
    RunM ProofBundle :=
  let master_shard := default (bound_shard bound) master in
  mi ← liftM (ok_or (cfg "the master shard does not participate") (position (fun g => same_shard (group_shard g) master_shard) groups));
  mg ← liftM (or_panic (groups !! mi));
  _ ← on_shared (modify (set_requests (wrap 64 0)));
  mbatch ← on_shared (fetch (endpoints self) mg Latest deadline (master_long_poll self));
  _ ← liftM (check_batch mg items mbatch None);
  match partition_view mbatch with
  | Some view => run_view self items groups mi mg first_of mbatch view bound deadline summary base_quorum
  | None =>
      first ← liftM (or_panic (batch_proofs mbatch !! 0%nat));
      if negb (slength (val (Bft.shard (shard_tree_certificate (unicity_certificate (bp_proof first))))) =? 0)
      then liftM (Err (StopUnavailable PartitionViewUnavailable true)) else
      run_direct self items groups mg first_of mbatch bound deadline summary base_quorum
  end.

(** Whether the shared seal is also acceptable as a consolidation target. *)
Definition target_already (self : ProofClient) (items : list ProofItem) : RunM bool :=
  item ← liftM (or_panic (items !! 0%nat));
  r ← tryM (zoom session set_session (authenticate_seal_under (unicity_seal (unicity_certificate (item_proof item)))
    (view_policy (Some (client_topology self)))));
  mret (match r with inr _ => true | inl _ => false end).

Definition verify_evidence (items : list ProofItem) : RunM unit :=
  on_session (fun e => StopError (Integrity (Evidence e)))
    (forM_ (fun i => verify_membership_in (item_proof i) (item_state_id i) (reference_time (item_proof i))) items).

(** [run]. *)
Definition run (self : ProofClient) (items : list ProofItem) (master : option ShardId) (deadline : u64) (verified : bool) :
    RunM ProofBundle :=
  base_quorum ← quorum_count;
  '(groups, first_of, shard_of) ← on_shared (group self items deadline);
  _ ← on_shared (budget_check deadline);
  _ ← liftM (foldM (fun _ => check_context self) tt (zip items shard_of));
  _ ← (if verified then mret tt else verify_evidence items);
  bound ← liftM (map_err (fun e => StopError (Integrity (Evidence e)))
    (from_routed (router self) (zip (item_proof <$> items) shard_of)));
  _ ← on_shared (budget_check deadline);
  let before := distinct_seals (item_proof <$> items) in
  q ← quorum_count;
  let summary := {| sum_outer_proofs := len items; sum_outer_seals_before := before; sum_outer_seals_after := before;
    sum_already_shared := false; sum_shards := len groups; sum_requests := wrap 64 0; sum_master := None; sum_master_round := None;
    sum_required_round := bound_round bound; sum_consolidation_quorum_checks := sub_u64 q base_quorum;
    sum_input_quorum_checks := wrap 64 0; sum_verification_quorum_checks := wrap 64 0; sum_certificates_derived := 0 |} in
  shared_ ← (if before =? 1 then target_already self items else mret false);
  if shared_ : bool then
    q ← quorum_count;
    mret {| bundle_proofs := item_proof <$> items;
            bundle_summary := {| sum_outer_proofs := sum_outer_proofs summary; sum_outer_seals_before := before;
              sum_outer_seals_after := before; sum_already_shared := true; sum_shards := sum_shards summary; sum_requests := wrap 64 0;
              sum_master := None; sum_master_round := None; sum_required_round := bound_round bound;
              sum_consolidation_quorum_checks := sub_u64 q base_quorum; sum_input_quorum_checks := wrap 64 0;
              sum_verification_quorum_checks := wrap 64 0; sum_certificates_derived := 0 |} |}
  else run_fetch self items master groups first_of bound deadline summary base_quorum.

(** * The entry points *)

Definition start_shared (w : W) : Shared W := {| world := w; abort := false; requests := wrap 64 0 |}.

(** [run] in its session; the result as a value. *)
Definition run_attempt (self : ProofClient) (items : list ProofItem) (master : option ShardId) (deadline : u64) (s : SealSession)
    (verified : bool) : M (Shared W) ConsolidationError (Stop + ProofBundle) := fun sh =>
  let '(r, rs) := tryM (run self items master deadline verified) {| shared := sh; session := s |} in
  (r, shared rs).

Definition with_quorum_checks (summary : ConsolidationSummary) (input verification : u64) : ConsolidationSummary := {|
  sum_outer_proofs := sum_outer_proofs summary; sum_outer_seals_before := sum_outer_seals_before summary;
  sum_outer_seals_after := sum_outer_seals_after summary; sum_already_shared := sum_already_shared summary;
  sum_shards := sum_shards summary; sum_requests := sum_requests summary; sum_master := sum_master summary;
  sum_master_round := sum_master_round summary; sum_required_round := sum_required_round summary;
  sum_consolidation_quorum_checks := sum_consolidation_quorum_checks summary; sum_input_quorum_checks := input;
  sum_verification_quorum_checks := verification; sum_certificates_derived := sum_certificates_derived summary |}.

Definition items_of (token : Token) : list ProofItem :=
  (fun o => {| item_state_id := op_state_id o; item_proof := op_proof o |}) <$> outer_proofs token.

Definition consolidate_within (self : ProofClient) (token : Token) (master : option ShardId) (deadline : u64) :
    M (Shared W) ConsolidationError ConsolidationOutcome :=
  _ ← map_errM stop_error (budget_check deadline);
  let '(input_check, session) := verify_token_in_session token (new_session (client_trust_base self)) (client_registry self)
    (client_policy self) in
  _ ← liftM (map_err InvalidToken input_check);
  let input_quorum_checks := quorum_checks (session_stats session) in
  bundle ← run_attempt self (items_of token) master deadline session true;
  match bundle with
  | inl (StopUnavailable reason retryable) => mret (NotConsolidated reason retryable)
  | inl (StopError e) => liftM (Err e)
  | inr bundle =>
      let summary := bundle_summary bundle in
      if sum_already_shared summary
      then mret (Consolidated token (with_quorum_checks summary input_quorum_checks input_quorum_checks)) else
      rebuilt ← liftM (map_err (fun m => Configuration (Message m)) (rebuild_token token (bundle_proofs bundle)));
      let '(check, stats) := verify_token_with_memo_capacity rebuilt (client_trust_base self) (client_registry self)
        (client_policy self) DEFAULT_SEAL_MEMO_CAPACITY in
      _ ← liftM (map_err (fun e => Integrity (VerificationIntegrity e)) check);
      _ ← map_errM stop_error (budget_check deadline);
      mret (Consolidated rebuilt (with_quorum_checks summary input_quorum_checks (quorum_checks stats)))
  end.

Definition consolidate_proofs_within (self : ProofClient) (items : list ProofItem) (master : option ShardId) (deadline : u64) :
    M (Shared W) ConsolidationError BundleOutcome :=
  bundle ← run_attempt self items master deadline (new_session (client_trust_base self)) false;
  match bundle with
  | inr bundle => mret (BundleConsolidated bundle)
  | inl (StopUnavailable reason retryable) => mret (BundleUnavailable reason retryable)
  | inl (StopError e) => liftM (Err e)
  end.

(** An attempt starts its deadline at the clock's time. *)
Definition attempt {A} (timeout_ms : u64) (m : u64 -> M (Shared W) ConsolidationError A) : M W ConsolidationError A := fun w =>
  let '(now, w) := now_ms w in
  let '(r, s) := m (saturating_add now timeout_ms) (start_shared w) in
  (r, world s).

Definition consolidate (self : ProofClient) (token : Token) (options : ConsolidateOptions) : M W ConsolidationError ConsolidationOutcome :=
  attempt (opt_timeout_ms options) (consolidate_within self token (opt_master options)).

Definition consolidate_proofs (self : ProofClient) (items : list ProofItem) (options : ConsolidateOptions) :
    M W ConsolidationError BundleOutcome :=
  attempt (opt_timeout_ms options) (consolidate_proofs_within self items (opt_master options)).
End client.
