(* ===== verification/ConsolidateSpec.v ===== *)
(** Partial correctness of an attempt of the consolidation client
    ([src/client/consolidate/mod.rs]): [ensures] is a triple over a run whose
    session stays sound, [settles] one over a run that ends the attempt,
    [place_sound] shows that a placed proof replaces its
    input under the authenticated seal, and [fetch_decoded] and [wave_decoded]
    that the proofs a client handles are decoded ones. *)

From stdpp Require Import strings sorting.
From S2P Require Import Prelude State Bytes Error Cbor Hash Codec CodecFacts ShardId ShardOps Search Ids Bft BftSpec UcInterner Certificates VerificationError Secp Predicates TrustBase Seal SealSpec Proofs Transactions TransactionsSpec Verify VerifySpec TokenSpec History Topology ViewCodec Assemble AssembleSpec Plan Batch Executor Wp Consolidate.
Local Open Scope N_scope.

(** * Laws of the parameters *)

(** The transport hands over decoded proofs. *)
Class DecodedBatches `{Sha2} `{K256} (W C : Type) `{BatchAggregatorClient W C} : Prop := {
  decoded_batch : forall c req opts w b w', get_inclusion_proofs c req opts w = (Ok b, w') ->
    Forall (fun p => wf (bp_proof p)) (batch_proofs b);
  decoded_waited : forall c req opts wait w b w', get_inclusion_proofs_with_wait c req opts wait w = (Ok b, w') ->
    Forall (fun p => wf (bp_proof p)) (batch_proofs (wb_batch b));
}.

(** Every result of a wave is the result of one of its jobs. Neither the number
    nor the order of the results is assumed: the client checks what it uses. *)
Class WaveResults (S : Type) `{WaveExecutor S} : Prop := {
  wave_results : forall E A T (job : A -> M S E T) l s ts s', wave_run job l s = (Ok ts, s') ->
    forall t, t ∈ ts -> exists x s0 s1, x ∈ l /\ job x s0 = (Ok t, s1);
}.

#[export] Instance sequential_results S : @WaveResults S (SequentialExecutor S).
Proof.
  split. intros E A T job l. cbn [wave_run SequentialExecutor].
  induction l as [|x l IH]; intros s ts s' Hr; cbn [mapM_] in Hr; [injection Hr as <- <-; by intros ? ?%elem_of_nil|].
  apply bindM_Ok in Hr as (t & s1 & Ht & Hr). apply bindM_Ok in Hr as (us & s2 & Hu & [= <- <-]).
  intros u [->|Hin]%elem_of_cons; [exists x, s, s1; split; [left|done]|].
  destruct (IH _ _ _ Hu u Hin) as (y & a & b & Hy & Hj). exists y, a, b. split; [by right|done].
Qed.

Section attempt.
Context `{Sha2} `{K256} {W C : Type} `{BatchAggregatorClient W C} `{Clock W} `{CallerCancel W} `{WaveExecutor (Shared W)}.

(** The certificate memo of an attempt holds checks under any policy. *)
Definition any_policy (p : arr 32) : Prop := True.

Definition no_contexts (_ : NonInclusionContext) : Prop := False.

Abbreviation sound_session K := (session_of K (remembered any_policy no_contexts)).
Abbreviation Run := (@Consolidate.Run _ W).
Abbreviation RunM := (M Run Stop).

Lemma session_mono K (B B' : RootTrustBase -> arr 32 -> UnicityCertificate -> Prop) tb s :
  (forall p uc, B tb p uc -> B' tb p uc) -> session_of K B tb s -> session_of K B' tb s.
Proof.
  intros Hb [[Hv Hm (l & Hl & Hf)] <-]. split; [|done]. constructor; [done|done|]. exists l. split; [done|].
  eapply Forall_impl; [exact Hf|]. auto.
Qed.

(** * Partial correctness of a run *)

(** From a sound session, [m] leaves a sound session, and its value satisfies
    [Q]; [K] are the seals that the session meets. *)
Definition ensures {A} (K : UnicitySeal -> Prop) (tb : RootTrustBase) (m : RunM A) (Q : A -> Prop) : Prop :=
  forall r, sound_session K tb (session r) ->
  ((forall a, fst (m r) = Ok a -> Q a) /\ sound_session K tb (session (snd (m r)))) \/ memo_clash K tb.

(** The seals of [K] and those of a bundle. *)
Definition bundle_seals (K : UnicitySeal -> Prop) (b : ProofBundle) (seal : UnicitySeal) : Prop :=
  K seal \/ exists p, p ∈ bundle_proofs b /\ proof_seal p = seal.

(** From a sound session, the bundle that [m] returns satisfies [Q]; besides [K]
    its own seals are the only ones that matter. *)
Definition settles (K : UnicitySeal -> Prop) (tb : RootTrustBase) (m : RunM ProofBundle) (Q : ProofBundle -> Prop) : Prop :=
  forall r b r', sound_session K tb (session r) -> m r = (Ok b, r') -> Q b \/ memo_clash (bundle_seals K b) tb.

Section ensures.
Context (K : UnicitySeal -> Prop) (tb : RootTrustBase).

Lemma ensures_bind {A B} (m : RunM A) (k : A -> RunM B) (P : A -> Prop) (Q : B -> Prop) :
  ensures K tb m P -> (forall a, P a -> ensures K tb (k a) Q) -> ensures K tb (m ≫= k) Q.
Proof.
  intros Hm Hk r Hr. rewrite bindM_run. destruct (Hm r Hr) as [[HP Hs]|]; [|by right].
  destruct (m r) as [[a|e|] r1]; cbn [fst snd] in *; [|by left..]. by apply Hk; [apply HP|].
Qed.

Lemma ensures_mono {A} (m : RunM A) (P Q : A -> Prop) : ensures K tb m P -> (forall a, P a -> Q a) -> ensures K tb m Q.
Proof. intros Hm Hq r Hr. destruct (Hm r Hr) as [[HP Hs]|]; [left|by right]. split; auto. Qed.

Lemma ensures_lift {A} (x : outcome Stop A) : ensures K tb (liftM x) (fun a => x = Ok a).
Proof. intros r Hr. by left. Qed.

Lemma ensures_ret {A} (a : A) (Q : A -> Prop) : Q a -> ensures K tb (mret a) Q.
Proof. intros Ha r Hr. left. split; [by intros ? [= <-]|done]. Qed.

Lemma ensures_err {A} e (Q : A -> Prop) : ensures K tb (liftM (Err e)) Q.
Proof. intros r Hr. by left. Qed.

(** A call that only touches what the jobs share. *)
Lemma ensures_shared {A} (m : M (Shared W) Stop A) : ensures K tb (on_shared m) (fun a => exists s s', m s = (Ok a, s')).
Proof.
  intros r Hr. left. unfold on_shared, zoom. destruct (m (shared r)) as [x s] eqn:E. split; [|done].
  intros a [= ->]. by exists (shared r), s.
Qed.

Lemma ensures_quorum_count : ensures K tb quorum_count (fun _ => True).
Proof. intros r Hr. by left. Qed.

(** A call on the session. *)
Lemma ensures_answers {A} (f : VerificationError -> Stop) (m : SessionM A) v : answers any_policy no_contexts K tb (memo_clash K tb) m v ->
  ensures K tb (on_session f m) (fun a => v = Ok a).
Proof.
  intros Hm r Hr. unfold on_session, zoom, map_errM. destruct (Hm (session r) Hr) as [[E Hs]|]; [left|by right].
  destruct (m (session r)) as [x s]. cbn [fst snd] in *. subst x. split; [|done]. intros a Ha%map_err_Ok. done.
Qed.

Lemma ensures_session {E A} (f : E -> Stop) (m : M SealSession E A) (Q : A -> Prop) :
  (forall s, sound_session K tb s -> ((forall a, fst (m s) = Ok a -> Q a) /\ sound_session K tb (snd (m s))) \/ memo_clash K tb) ->
  ensures K tb (on_session f m) Q.
Proof.
  intros Hm r Hr. unfold on_session, zoom, map_errM. destruct (Hm _ Hr) as [[HQ Hs]|]; [left|by right].
  destruct (m (session r)) as [x s]. split; [|done]. intros a Ha%map_err_Ok. by apply HQ.
Qed.

Lemma ensures_foldlM {A B} (f : B -> A -> RunM B) (I : list A -> B -> Prop) l : forall before b, I before b ->
  (forall before x b, x ∈ l -> I before b -> ensures K tb (f b x) (I (before ++ [x]))) ->
  ensures K tb (foldlM f b l) (I (before ++ l)).
Proof.
  induction l as [|x l IH]; intros before b Hb Hf; cbn [foldlM]; [apply ensures_ret; by rewrite app_nil_r|].
  eapply ensures_bind; [apply Hf; [left|exact Hb]|]. intros b' Hb'. replace (before ++ x :: l) with ((before ++ [x]) ++ l) by by rewrite <- app_assoc.
  apply IH; [done|]. intros before' y b0 Hy. apply Hf. by right.
Qed.

Lemma memo_clash_mono (K' : UnicitySeal -> Prop) : (forall seal, K seal -> K' seal) -> memo_clash K tb -> memo_clash K' tb.
Proof. intros Hk (good & bad & ? & ? & ?). exists good, bad. auto. Qed.

Lemma settles_bind {A} (m : RunM A) (k : A -> RunM ProofBundle) (P : A -> Prop) (Q : ProofBundle -> Prop) :
  ensures K tb m P -> (forall a, P a -> settles K tb (k a) Q) -> settles K tb (m ≫= k) Q.
Proof.
  intros Hm Hk r b r' Hr E. apply bindM_Ok in E as (a & r1 & E1 & E2). destruct (Hm r Hr) as [[HP Hs]|Hc].
  - rewrite E1 in HP, Hs. exact (Hk a (HP a eq_refl) r1 b r' Hs E2).
  - right. revert Hc. apply memo_clash_mono. by left.
Qed.

Lemma settles_guard (c : bool) e (m : RunM ProofBundle) Q : (c = false -> settles K tb m Q) ->
  settles K tb (if c then liftM (Err e) else m) Q.
Proof. destruct c; [by intros _ r b r' _ [= ]|auto]. Qed.

(** A run that is sound for its own seals as well. *)
Lemma ensures_settles (m : RunM ProofBundle) Q :
  (forall r b r', m r = (Ok b, r') -> ensures (bundle_seals K b) tb m Q) -> settles K tb m Q.
Proof.
  intros Hm r b r' Hr E. destruct (Hm _ _ _ E r) as [[HQ _]|]; [|left|by right].
  - revert Hr. apply session_of_mono. by left.
  - apply HQ. by rewrite E.
Qed.
End ensures.

(** * A verified replacement *)

(** [p] replaces the evidence of [item] under [seal]. *)
Record replaces (tb : RootTrustBase) (seal : UnicitySeal) (item : ProofItem) (p : InclusionProof) : Prop := {
  re_proof : reproof (item_proof item) p;
  re_member : membership_verdict tb p (item_state_id item) (reference_time p) = Ok tt;
  re_seal : unicity_seal (unicity_certificate p) = seal;
  re_wf : wf p;
}.

Definition all_replace (tb : RootTrustBase) (seal : UnicitySeal) (items : list ProofItem) (replaced : list (option InclusionProof)) : Prop :=
  forall i p, replaced !! i = Some (Some p) -> exists item, items !! i = Some item /\ replaces tb seal item p.

Lemma place_one_sound K tb items g cert policy replaced e : all_replace tb (unicity_seal cert) items replaced -> K (unicity_seal cert) -> wf cert ->
  Forall (fun i => wf (item_proof i)) items -> wf (bp_proof (snd (snd e))) ->
  ensures K tb (place_one items g cert policy replaced e) (all_replace tb (unicity_seal cert) items).
Proof.
  intros Hall HK Hc Hi Hs. destruct e as [k [idx served]]. unfold place_one.
  eapply ensures_bind; [apply ensures_lift|]. intros item Hitem%or_panic_Ok.
  eapply ensures_bind; [apply ensures_lift|]. intros p (Ecd & Ert & Ep)%map_err_Ok%replacement_proof_spec.
  assert (unicity_certificate p = cert) as Euc by by rewrite Ep.
  eapply ensures_bind; [apply ensures_answers, answers_membership; [by rewrite Euc|by rewrite Euc|done]|]. intros [] Hm.
  eapply ensures_bind; [apply ensures_lift|]. intros _ _. apply ensures_ret. intros j q Hj.
  destruct (decide (j = idx)) as [->|Hne].
  - rewrite list_lookup_insert_eq in Hj.
    + injection Hj as <-. exists item. split; [done|]. rewrite Forall_lookup in Hi. specialize (Hi _ _ Hitem). constructor.
      * by rewrite Ep.
      * exact Hm.
      * by rewrite Euc.
      * rewrite Ep. destruct Hi as (Hcd & _), Hs as (_ & Hic & _). by split_and!.
    + apply lookup_lt_Some in Hj. by rewrite length_insert in Hj.
  - rewrite list_lookup_insert_ne in Hj by done. by apply Hall.
Qed.

Lemma place_all_sound K tb items g batch cert policy replaced : all_replace tb (unicity_seal cert) items replaced -> K (unicity_seal cert) -> wf cert ->
  Forall (fun i => wf (item_proof i)) items -> Forall (fun p => wf (bp_proof p)) (batch_proofs batch) ->
  ensures K tb (place_all items g batch cert policy replaced) (all_replace tb (unicity_seal cert) items).
Proof.
  intros Hall HK Hc Hi Hb. unfold place_all.
  apply (ensures_foldlM K tb _ (fun _ => all_replace tb (unicity_seal cert) items) _ []); [done|].
  intros _ [k [idx served]] b Hin Hr. apply place_one_sound; [done..|].
  apply elem_of_lookup_imap in Hin as (j & [x y] & [= -> -> ->] & Hz%list_elem_of_lookup_2). apply elem_of_zip_r in Hz.
  rewrite Forall_forall in Hb. by apply Hb.
Qed.

Lemma certificate_of_seal view shard sc c : certificate_of view shard = Ok sc -> sc_certificate sc = Some c ->
  unicity_seal c = av_seal view.
Proof.
  unfold certificate_of, derive. intros (i & _ & E)%bind_Ok. apply bind_Ok in E as (leaf & _ & E).
  apply bind_Ok in E as (t & _ & [= <-]). cbn [sc_certificate]. by intros [= <-].
Qed.

Lemma place_sound K tb items view st g batch : all_replace tb (av_seal view) items (fst st) -> K (av_seal view) -> wf (av_seal view) ->
  Forall (fun i => wf (item_proof i)) items -> Forall (fun p => wf (bp_proof p)) (batch_proofs batch) ->
  ensures K tb (place items view st (g, batch)) (fun st' => all_replace tb (av_seal view) items (fst st')).
Proof.
  destruct st as [replaced derived]. intros Hall HK Hw Hi Hb. unfold place.
  eapply ensures_bind; [apply ensures_lift|]. intros sc Hsc%map_err_Ok.
  eapply ensures_bind; [apply ensures_lift|]. intros cert Hcert%ok_or_Ok.
  pose proof (certificate_of_seal _ _ _ _ Hsc Hcert) as Es.
  eapply ensures_bind; [apply place_all_sound; [by rewrite Es|by rewrite Es|by rewrite <- Es in Hw|done..]|].
  intros replaced' Hr. apply ensures_ret. by rewrite Es in Hr.
Qed.

(** ** The seals of a bundle *)

(** Whatever the session answered, a placed proof carries the target's seal. *)
Definition all_sealed (seal : UnicitySeal) (replaced : list (option InclusionProof)) : Prop :=
  forall i p, replaced !! i = Some (Some p) -> proof_seal p = seal.

Lemma sealed_none seal n : all_sealed seal (replicate n None).
Proof. intros i p [Hi _]%lookup_replicate. done. Qed.

Lemma sealed_insert seal replaced i p : all_sealed seal replaced -> proof_seal p = seal -> all_sealed seal (<[i := Some p]> replaced).
Proof. intros Hr Hp j q [(-> & [= <-] & _)|[_ Hj]]%list_lookup_insert_Some; [done|by eapply Hr]. Qed.

Lemma foldlM_yields {S E A B} (f : B -> A -> M S E B) (I : B -> Prop) l : (forall b x, I b -> yields I (f b x)) ->
  forall b, I b -> yields I (foldlM f b l).
Proof.
  intros Hf. induction l as [|x l IH]; intros b Hb; cbn [foldlM]; [by apply yields_ret|].
  eapply yields_bind_of; [by apply Hf|]. intros b' Hb'. by apply IH.
Qed.

Lemma place_all_sealed items g batch cert policy replaced : all_sealed (unicity_seal cert) replaced ->
  yields (all_sealed (unicity_seal cert)) (place_all (W := W) items g batch cert policy replaced).
Proof.
  apply foldlM_yields. intros rs [k [idx served]] Hrs. unfold place_one. apply yields_bind. intros item.
  eapply yields_bind_of; [apply yields_lift; intros p Hp%map_err_Ok%replacement_proof_spec; exact Hp|]. intros p (_ & _ & Ep).
  apply yields_bind. intros _. apply yields_bind. intros _. apply yields_ret, sealed_insert; [done|]. by rewrite Ep.
Qed.

Lemma place_sealed items view st e : all_sealed (av_seal view) (fst st) ->
  yields (fun st' => all_sealed (av_seal view) (fst st')) (place (W := W) items view st e).
Proof.
  destruct st as [replaced derived], e as [g batch]. intros Hr. unfold place.
  eapply yields_bind_of; [apply yields_lift; intros sc Hsc%map_err_Ok; exact Hsc|]. intros sc Hsc.
  eapply yields_bind_of; [apply yields_lift; intros cert Hc%ok_or_Ok; exact Hc|]. intros cert Hcert.
  pose proof (certificate_of_seal _ _ _ _ Hsc Hcert) as Es. rewrite <- Es in *.
  eapply yields_bind_of; [by apply place_all_sealed|]. intros replaced' Hr'. by apply yields_ret.
Qed.

Lemma run_peers_sealed self items peers view deadline st : all_sealed (av_seal view) (fst st) ->
  yields (fun st' => all_sealed (av_seal view) (fst st')) (run_peers self items peers view deadline st).
Proof.
  intros Hst. unfold run_peers. apply yields_bind. intros jobs. apply yields_bind. intros wave. case_match; [apply yields_err|].
  case_match; [apply yields_bind; intros c; apply yields_err|]. apply yields_bind. intros _.
  apply foldlM_yields; [|done]. intros b [[g root] batch] Hb. apply yields_bind. intros _. by apply place_sealed.
Qed.

(** As many proofs as inputs, all under one seal. *)
Definition under_seal (n : nat) (seal : UnicitySeal) (b : ProofBundle) : Prop :=
  length (bundle_proofs b) = n /\ Forall (fun p => proof_seal p = seal) (bundle_proofs b).

Lemma collect_sealed seal replaced first_of proofs : all_sealed seal replaced -> collect first_of replaced = Ok proofs ->
  length proofs = length first_of /\ Forall (fun p => proof_seal p = seal) proofs.
Proof.
  intros Hr Hc%mapO_Forall2. split; [symmetry; by eapply Forall2_length|]. apply Forall_lookup. intros i p Hp.
  destruct (Forall2_lookup_r _ _ _ _ _ Hc Hp) as (f & _ & E). apply bind_Ok in E as (r & Er%or_panic_Ok & ->%or_panic_Ok).
  by eapply Hr.
Qed.

(** The target is the certificate of the first served proof. *)
Definition targeted (n : nat) (mbatch : InclusionProofBatch) (summary : ConsolidationSummary) (b : ProofBundle) : Prop :=
  sum_already_shared (bundle_summary b) = sum_already_shared summary /\
  exists first, batch_proofs mbatch !! 0%nat = Some first /\ under_seal n (proof_seal (bp_proof first)) b.

Lemma run_direct_targeted (self : @ProofClient _ C) items groups mg first_of mbatch bound deadline summary base :
  yields (targeted (length first_of) mbatch summary) (run_direct self items groups mg first_of mbatch bound deadline summary base).
Proof.
  unfold run_direct. case_match; [apply yields_err|].
  eapply yields_bind_of; [apply yields_lift; intros first Hf%or_panic_Ok; exact Hf|]. intros first Hfirst.
  eapply (yields_bind_of (fun t => dt_uc t = unicity_certificate (bp_proof first))).
  { unfold on_session. apply yields_zoom, yields_map_errM. unfold direct_authenticate. do 2 (apply yields_bind; intros _). by apply yields_ret. }
  intros t Et. case_match; [apply yields_err|]. apply yields_bind. intros _.
  eapply yields_bind_of; [apply place_all_sealed, sealed_none|]. intros replaced Hr.
  eapply yields_bind_of; [apply yields_lift; intros proofs Hp; exact (collect_sealed _ _ _ _ Hr Hp)|]. intros proofs Hp.
  apply yields_bind. intros _. unfold finish. do 2 (apply yields_bind; intros). apply yields_ret. split; [done|]. exists first. rewrite Et in Hp. by split.
Qed.

Lemma authenticate_with_seal view enclosing pins identity :
  yields (fun av => av_seal av = unicity_seal enclosing) (authenticate_with (S := SealSession) view enclosing pins identity).
Proof. unfold authenticate_with. do 3 (apply yields_bind; intros). by apply yields_ret. Qed.

Lemma run_view_targeted self items groups mi mg first_of mbatch view bound deadline summary base :
  yields (targeted (length first_of) mbatch summary) (run_view self items groups mi mg first_of mbatch view bound deadline summary base).
Proof.
  unfold run_view. eapply yields_bind_of; [apply yields_lift; intros first Hf%or_panic_Ok; exact Hf|]. intros first Hfirst.
  eapply (yields_bind_of (fun av => av_seal av = proof_seal (bp_proof first))).
  { unfold on_session. apply yields_zoom, yields_map_errM. intros s av s'. apply authenticate_with_seal. }
  intros av Ea. case_match; [apply yields_err|]. apply yields_bind. intros _.
  eapply yields_bind_of; [apply place_sealed, sealed_none|]. intros st Hst.
  eapply yields_bind_of; [by apply run_peers_sealed|]. intros st' Hst'.
  eapply yields_bind_of; [apply yields_lift; intros proofs Hp; exact (collect_sealed _ _ _ _ Hst' Hp)|]. intros proofs Hp.
  apply yields_bind. intros _. unfold finish. do 2 (apply yields_bind; intros). apply yields_ret. split; [done|]. exists first. rewrite Ea in Hp. by split.
Qed.

(** ** Served batches *)

Context {Hdec : DecodedBatches W C} {Hwave : WaveResults (Shared W)}.

Abbreviation decoded b := (Forall (fun p => wf (bp_proof p)) (batch_proofs b)).

Lemma negotiated_decoded {F} c ids opts wait now w nb w' wb :
  get_latest_negotiating_wait (F := F) c ids opts wait now w = (Ok nb, w') -> nb_result nb = inr wb -> decoded (wb_batch wb).
Proof.
  unfold get_latest_negotiating_wait. intros (t & w1 & _ & E)%bindM_Ok. apply bindM_Ok in E as (first & w2 & Ef & E).
  assert (first = inr wb -> decoded (wb_batch wb)) as Hfirst.
  { intros ->. rewrite tryM_run in Ef. destruct (get_inclusion_proofs_with_wait _ _ _ _ w1) as [[b|e|] ?] eqn:Eg; [|done..].
    injection Ef as -> <-. by eapply decoded_waited. }
  destruct (negb (wait_rejected first)); [injection E as <- <-; exact Hfirst|].
  apply bindM_Ok in E as (n & w3 & _ & E). destruct (_ =? 0); [injection E as <- <-; exact Hfirst|].
  apply bindM_Ok in E as (second & w4 & Es & [= <- <-]). cbn [nb_result]. rewrite tryM_run in Es.
  destruct (get_inclusion_proofs _ _ _ w3) as [[b|e|] ?] eqn:Eg; [injection Es as <- <-|injection Es as <- <-|done]; cbn [sum_map]; [|done].
  intros [= <-]. cbn. by eapply decoded_batch.
Qed.

Lemma fetch_decoded endpoints g root deadline lp s b s' : fetch endpoints g root deadline lp s = (Ok b, s') -> decoded b.
Proof.
  unfold fetch. intros (remaining & s1 & _ & E)%bindM_Ok. apply bindM_Ok in E as ([shard c] & s2 & _ & E).
  set (wait := match root with Latest => _ | Exact _ => None end) in E. set (options := {| timeout_ms := _ |}) in E.
  apply bindM_Ok in E as (result & s3 & Er & E). apply bindM_Ok in E as (after & s4 & _ & E).
  destruct result as [failure|batch]; [apply bindM_Ok in E as ([] & s5 & _ & [= ])|].
  apply bindM_Ok in E as ([] & s5 & _ & [= <- <-]). destruct wait as [wait_ms|].
  - apply bindM_Ok in Er as (nb & s6 & En & Er). apply bindM_Ok in Er as ([] & s7 & _ & [= Er <-]).
    unfold on_world, zoom in En. destruct (get_latest_negotiating_wait _ _ _ _ _ _) as [r w] eqn:Eg. injection En as -> <-.
    destruct (nb_result nb) as [e|wb] eqn:Eb; [done|]. injection Er as <-. by eapply negotiated_decoded.
  - apply bindM_Ok in Er as ([] & s6 & _ & Er). rewrite tryM_run in Er. unfold on_world, zoom in Er.
    destruct (get_inclusion_proofs _ _ _ _) as [[x|x|] w] eqn:Eg; [injection Er as -> <-|done..]. by eapply decoded_batch.
Qed.

Lemma wave_decoded self deadline jobs s wave s' : wave_run (run_job self deadline) jobs s = (Ok wave, s') ->
  Forall (fun b => decoded b) (wave_batches wave).
Proof.
  intros Hr. apply Forall_forall. intros b (r & Hin & Hb)%list_elem_of_omap. destruct r as [?|b']; [done|]. injection Hb as ->.
  destruct (wave_results _ _ _ _ _ _ _ _ Hr _ Hin) as (job & s0 & s1 & _ & Hj). unfold run_job in Hj.
  apply bindM_Ok in Hj as (r & s2 & Ht & Hj). apply bindM_Ok in Hj as ([] & s3 & _ & [= -> <-]).
  rewrite tryM_run in Ht. destruct (fetch _ _ _ _ _ s0) as [[x|x|] s4] eqn:Ef; [injection Ht as -> <-|done..].
  by eapply fetch_decoded.
Qed.
End attempt.
