(* ===== verification/HttpSpec.v ===== *)
(** What the HTTP client promises its callers ([src/client/http.rs]).

    [http_decoded] and [http_batches]: it is a transport of decoded proofs, as the
    construction flows and consolidation require of theirs.
    [submit_and_wait_spec]: a proof is returned only for the submitted data, and a
    lost race is reported only on authenticated evidence of another spend. *)

From Stdlib Require Import ZArith.
From stdpp Require Import strings.
From S2P Require Import Prelude State Bytes Error Cbor CborSpec CborRead Hash Codec CodecFacts Ids Bft BftSpec UcInterner Certificates VerificationError Secp Predicates TrustBase Seal SealSpec Proofs Transactions TransactionsSpec Verify VerifySpec TokenSpec History Topology ViewCodec Flow Assemble AssembleSpec Plan Batch Executor Time HttpDate Transport Rpc Wait HttpClient Wp RpcSpec WaitSpec Consolidate ConsolidateSpec.
Local Open Scope N_scope.

(** Under the binders of a continuation, not those of the judgement itself. *)
#[local] Ltac under := match goal with |- yields _ _ => fail 1 | |- raises _ _ => fail 1 | |- forall _, _ => intro end.

#[local] Ltac solve_yields := repeat first
  [ under
  | solve [auto with yields]
  | apply yields_ret; done
  | apply yields_bind
  | case_match ].

Section http.
Context `{Sha2} `{K256} `{Texts} `{Serde} `{HexCodec} {W : Type} `{Host W} `{Monotonic W} `{CallerCancel W}.

(** * Every returned proof is a decoded one *)

Definition found (o : option InclusionProof) : Prop := forall p, o = Some p -> wf p.

Lemma found_none : found None. Proof. done. Qed.
#[local] Hint Resolve found_none : yields.

Lemma after_result_found options deadline interval grace plan call_took result :
  yields found (after_result options deadline interval grace plan call_took result).
Proof.
  unfold after_result. eapply yields_bind_of; [apply yields_lift; intros r Hr; exact (decode_v2_result_wf _ _ _ Hr)|].
  intros r Hr. cbv beta in Hr. apply yields_bind. intros _. destruct (response r) as [b p|b uc].
  - apply yields_ret. intros ? [= <-]. exact Hr.
  - solve_yields.
Qed.

Lemma terminal_error_found plan left_ms deadline t e : yields found (terminal_error plan left_ms deadline t e).
Proof. unfold terminal_error. solve_yields. Qed.
#[local] Hint Resolve after_result_found terminal_error_found : yields.

Lemma wait_step_found self sid options deadline interval grace : yields found (wait_step self sid options deadline interval grace).
Proof. unfold wait_step, after_call, after_transport, after_overload, after_pending_error. solve_yields. Qed.

Lemma wait_loop_decoded self sid options deadline interval grace fuel :
  yields wf (wait_loop fuel self sid options deadline interval grace).
Proof.
  induction fuel as [|fuel IH]; cbn [wait_loop]; [apply yields_panic|].
  eapply yields_bind_of; [apply wait_step_found|]. intros [p|] Hp; [apply yields_ret; by apply Hp|done].
Qed.

Lemma wait_decoded self sid options : yields wf (wait_for_inclusion_proof self sid options).
Proof.
  intros w p w'. unfold wait_for_inclusion_proof, wait_for_inclusion_proof_with_stats. destruct (wait_run _ _ _ _) as [r l] eqn:Er.
  intros [= -> _]. revert Er. apply yields_bind. intros started. apply wait_loop_decoded.
Qed.

Lemma poll_loop_decoded self sid budget started n : forall attempt unknown, yields wf (poll_loop self sid budget started n attempt unknown).
Proof.
  induction n as [|n IH]; intros attempt unknown; cbn [poll_loop]; [apply yields_err|].
  apply yields_bind. intros [failure|result]; [solve_yields|].
  eapply yields_bind_of; [apply yields_lift; intros r Hr; exact (decode_v2_result_wf _ _ _ Hr)|].
  intros r Hr. cbv beta in Hr. destruct (response r) as [b p|b uc]; [apply yields_ret; exact Hr|solve_yields].
Qed.

Lemma http_proof_decoded self sid : yields wf (http_get_inclusion_proof self sid).
Proof.
  unfold http_get_inclusion_proof. destruct (_ && _); [apply wait_decoded|]. apply yields_bind. intros started. apply poll_loop_decoded.
Qed.

(** ** The contracts of the flows and of consolidation *)

Lemma http_decoded self : @decoded_proofs W HttpError (http_aggregator self).
Proof. intros sid w p w'. apply http_proof_decoded. Qed.

Lemma decode_batch_proof_wf v p : decode_batch_proof v = Ok p -> wf (bp_proof p).
Proof.
  unfold decode_batch_proof. intros (b & _ & (r & Hr%map_err_Ok & Hp)%bind_Ok)%bind_Ok.
  destruct r as [n q|]; [|done]. injection Hp as <-. exact (response_wf _ _ Hr).
Qed.

Lemma decode_batch_wf result sent b waited : decode_batch_result result sent = Ok (b, waited) ->
  Forall (fun p => wf (bp_proof p)) (batch_proofs b).
Proof.
  unfold decode_batch_result. intros (m & _ & Hr)%bind_Ok. destruct (existsb _ _); [done|].
  apply bind_Ok in Hr as (w & _ & (es & _ & (ps & Hps%mapO_Forall2 & (v & _ & [= <- _])%bind_Ok)%bind_Ok)%bind_Ok).
  cbn [batch_proofs]. clear -Hps. induction Hps; constructor; [by eapply decode_batch_proof_wf|done].
Qed.

Lemma batch_call_decoded self request options wait : 
  yields (fun b => Forall (fun p => wf (bp_proof p)) (batch_proofs (wb_batch b))) (batch_call self request options wait).
Proof.
  unfold batch_call. destruct (_ || _); [apply yields_err|]. apply yields_bind. intros result.
  apply (yields_bind_of (fun r => Forall (fun p => wf (bp_proof p)) (batch_proofs (fst r)))).
  { apply yields_lift. intros [b waited] Hb%map_err_Ok. exact (decode_batch_wf _ _ _ _ Hb). }
  intros [b waited] Hb. by apply yields_ret.
Qed.

#[export] Instance http_batches : DecodedBatches W HttpAggregatorClient.
Proof.
  split.
  - intros self req opts w b w' (waited & w1 & Hw & [= <- _])%bindM_Ok. exact (yields_map_errM _ _ _ (batch_call_decoded self req opts None) _ _ _ Hw).
  - intros self req opts wait w b w'. apply batch_call_decoded.
Qed.

(** * Submitting until certified *)

(** Authenticated evidence that another request spent the state of [data]. *)
Record lost_race (tb : RootTrustBase) (data : CertificationData) (p : InclusionProof) : Prop := {
  lr_other : certification_data p <> data;
  lr_state : StateId_derive (cd_lock_script (certification_data p)) (cd_source_state_hash (certification_data p)) =
    StateId_derive (cd_lock_script data) (cd_source_state_hash data);
  lr_included : exists b root, root_hash (input_record (unicity_certificate p)) = Ok (Some b) /\
    DataHash.new Sha256 (val b) = Ok root /\
    InclusionCertificate.verify (inclusion_certificate p) (StateId_derive (cd_lock_script data) (cd_source_state_hash data))
      (calculate_leaf_value (cd_transaction_hash (certification_data p)) (reference_time p)) root = true;
  lr_authenticated : authenticated tb (unicity_certificate p);
  lr_unlocked : exists pk, cd_lock_script (certification_data p) = from_predicate {| sp_public_key := pk |} /\
    verify_signature_unlock pk (cd_source_state_hash (certification_data p)) (cd_transaction_hash (certification_data p))
      (unlock_script (certification_data p)) = true;
}.

(** ** Which errors a lookup has *)

Lemma bind_Err {E A B} (m : outcome E A) (k : A -> outcome E B) e :
  (m ≫= k) = Err e <-> m = Err e \/ exists a, m = Ok a /\ k a = Err e.
Proof. destruct m; simpl; naive_solver. Qed.

(** Not the verdict on a race, which only its check raises. *)
Definition plain (e : HttpError) : Prop := e <> HttpError.StateCertifiedWithOtherData.
Definition raw_plain (f : RawFailure) : Prop := forall e, f = RawConfig e -> plain e.

Lemma raw_to_http_plain f : raw_plain f -> plain (raw_to_http f).
Proof.
  intros Hf. unfold plain. destruct f as [status body rpc retry too_large [cut|]|m|m|m|[m|c m d t|c d t]|limit|e]; cbn [raw_to_http];
    [destruct too_large; [|destruct cut]|destruct too_large|..]; try discriminate. by apply Hf.
Qed.

Lemma raw_plain_other f : (forall e, f <> RawConfig e) -> raw_plain f.
Proof. intros Hf e E1. by destruct (Hf e). Qed.

Lemma validate_plain self e : validate_endpoint self = Err e -> plain e.
Proof.
  unfold validate_endpoint. destruct (url_parse (url self)); cbn [mbind outcome_bind]; [by intros [= <-]|].
  repeat (case_match; [by intros [= <-]|]). done.
Qed.

Lemma transport_not_config e : raw_plain (transport_failure e).
Proof.
  apply raw_plain_other. intros x. unfold transport_failure. destruct (ureq_kind e); try done.
  induction (ureq_chain e) as [|[c k] l IH]; cbn [classify_chain]; [done|]. destruct (invalid_certificate _); [done|].
  destruct (link_io _); [|done]. by destruct (is_timeout_kind _).
Qed.

Lemma read_not_config r limit e : read_response_raw r limit = Err e -> raw_plain e.
Proof.
  intros Hr. apply raw_plain_other. intros x ->. revert Hr. unfold read_response_raw, io_failure. repeat case_match; simplify_eq/=; try done.
Qed.

#[local] Ltac raises_step := first
  [ under
  | solve [auto with raises]
  | apply raises_err; first [done | apply raw_plain_other; done]
  | apply raises_bind
  | case_match ].

Lemma raises_observe {E A} (Q : E -> Prop) (f : W -> A * W) : raises Q (observe f : M W E A).
Proof. intros s e s'. unfold observe. by destruct (f s). Qed.
#[local] Hint Resolve raises_observe : raises.

Lemma rpc_raw_plain self method params headers timeout : raises raw_plain (rpc_raw self method params headers timeout : M W RawFailure Value).
Proof.
  unfold rpc_raw. apply raises_bind; [apply raises_lift; intros e|intros _].
  { destruct (validate_endpoint self) as [p|x|] eqn:Ev; cbn [map_err]; [done| |done]. intros [= <-] ? [= <-]. by eapply validate_plain. }
  unfold request_id, parse_retry_after. repeat raises_step.
  - apply raises_lift. apply read_not_config.
  - apply raises_lift. intros e He. apply raw_plain_other. intros x ->. by destruct (decode_rpc_envelope _ _).
  - apply raises_err, transport_not_config.
Qed.

Lemma submit_plain self data : raises plain (resubmit_certification_request self data : M W HttpError SubmitOutcome).
Proof.
  unfold resubmit_certification_request, submit_inner. apply raises_bind; [|intros; apply raises_ret].
  eapply raises_bind_of; [apply raises_tryM|apply tryM_yields, rpc_raw_plain|]. intros [f|v] Hf; cbv beta iota in Hf.
  - pose proof (raw_to_http_plain _ Hf). repeat raises_step; by apply raises_err.
  - repeat raises_step.
Qed.

Lemma overload_plain f t i l e : raw_plain f -> overload_pause f t i l = Err e -> plain e.
Proof. intros Hf. unfold overload_pause. destruct (_ <? _); [by intros [= <-]|done]. Qed.

Lemma transport_plain i l e : transport_pause i l = Err e -> plain e.
Proof. unfold transport_pause. destruct (_ <? _); [by intros [= <-]|done]. Qed.

Lemma v2_plain result sent e : decode_v2_result result sent = Err e -> plain e.
Proof.
  unfold decode_v2_result. intros [Hr|([[x st] w] & _ & [Hr|(b & _ & [Hr|(? & _ & Hr)]%bind_Err)]%bind_Err)]%bind_Err.
  - destruct (as_str result); [done|]. apply bind_Err in Hr as [Hr|(? & _ & [Hr|(? & _ & [Hr|(? & _ & Hr)]%bind_Err)]%bind_Err)]; [..|done].
    + destruct (as_object result); [done|]. by injection Hr as <-.
    + destruct (v ← get result "proof"; as_str v); [done|]. by injection Hr as <-.
    + destruct (get result "waitedMs") as [v|]; [|done]. destruct (negb sent); [by injection Hr as <-|].
      destruct (parse_waited_ms v); [done| |done]. by injection Hr as <-.
  - unfold proof_hex in Hr. destruct (_ <? _); [by injection Hr as <-|]. destruct (hex_decode x); [by injection Hr as <-|done].
  - unfold decode_inclusion_proof_response in Hr. apply bind_Err in Hr as [Hr|(? & _ & Hr)].
    + destruct (Decoder.finish _); [done| |done]. by injection Hr as <-.
    + destruct (from_cbor _); [done| |done]. by injection Hr as <-.
  - done.
Qed.

Lemma echo_plain v e : map_err HttpError.Decode (parse_waited_ms v) = Err e -> plain e.
Proof. destruct (parse_waited_ms v); cbn [map_err]; [done| |done]. by intros [= <-]. Qed.

Lemma on_host_plain {A} (m : M W HttpError A) : raises plain m -> raises plain (on_host m).
Proof. apply raises_zoom. Qed.

Lemma cancelled_plain options : raises plain (cancelled options : M W HttpError bool).
Proof. unfold cancelled. destruct (cancel options); [apply raises_observe|apply raises_ret]. Qed.

Lemma pause_plain total deadline options : raises plain (pause total deadline options : M W HttpError unit).
Proof.
  unfold pause. apply raises_bind; [apply raises_observe|intros t]. generalize (pause_fuel t (N.min (far_deadline t total) deadline)).
  induction n as [|n IH]; cbn [pause_until]; [apply raises_panic|]. apply raises_bind; [apply cancelled_plain|intros [|]; [by apply raises_err|]].
  apply raises_bind; [apply raises_observe|intros t']. destruct (_ <=? _); [apply raises_ret|].
  apply raises_bind; [apply raises_modify|done].
Qed.

Lemma now_plain : raises plain (now : M W HttpError Instant).
Proof. apply raises_observe. Qed.
#[local] Hint Resolve on_host_plain cancelled_plain pause_plain now_plain : raises.

Lemma wait_step_plain self sid options deadline interval grace : raises plain (wait_step self sid options deadline interval grace).
Proof.
  unfold wait_step. apply raises_bind; [auto with raises|intros c]. destruct c; [by apply raises_err|].
  apply raises_bind; [apply on_host_plain; unfold spent; repeat raises_step|intros o].
  apply raises_bind; [destruct o; [apply raises_ret|by apply raises_err]|intros left_]. apply raises_bind; [auto with raises|intros l].
  cbv zeta. apply raises_bind; [auto with raises|intros _]. apply raises_bind; [auto with raises|intros started].
  eapply raises_bind_of; [apply raises_zoom, raises_tryM|apply yields_zoom, tryM_yields, rpc_raw_plain|]. intros raw Hraw.
  apply raises_bind; [auto with raises|intros t]. unfold after_call. destruct (is_transport raw).
  { unfold after_transport. repeat raises_step. by apply raises_lift, transport_plain. }
  destruct raw as [f|v]; cbv beta iota in Hraw.
  - destruct (overload_of f).
    { unfold after_overload. repeat raises_step; apply raises_lift; intros e; by apply overload_plain. }
    pose proof (raw_to_http_plain _ Hraw) as Hp. unfold terminal_error, after_pending_error. repeat raises_step; try by apply raises_err.
    all: apply raises_lift, echo_plain.
  - unfold after_result. repeat raises_step; try (apply raises_lift; intros e; apply v2_plain).
Qed.

Lemma wait_loop_plain self sid options deadline interval grace fuel :
  raises plain (wait_loop fuel self sid options deadline interval grace).
Proof.
  induction fuel as [|fuel IH]; cbn [wait_loop]; [apply raises_panic|].
  apply raises_bind; [apply wait_step_plain|intros [p|]; [apply raises_ret|done]].
Qed.

Lemma poll_loop_plain self sid budget started n : forall attempt unknown,
  raises plain (poll_loop self sid budget started n attempt unknown).
Proof.
  induction n as [|n IH]; intros attempt unknown; cbn [poll_loop]; [by apply raises_err|]. cbv zeta.
  eapply raises_bind_of; [apply raises_tryM|apply tryM_yields, rpc_raw_plain|]. intros [f|v] Hf; cbv beta iota in Hf.
  - pose proof (raw_to_http_plain _ Hf) as Hp. unfold budget_left, between_attempts. repeat raises_step; try done; try by apply raises_err.
    + apply raises_lift. intros e. by apply overload_plain.
    + by apply raises_lift, transport_plain.
  - unfold between_attempts. repeat raises_step; try done. apply raises_lift. intros e. apply v2_plain.
Qed.

Lemma lookup_plain self sid : raises plain (http_get_inclusion_proof self sid).
Proof.
  unfold http_get_inclusion_proof. destruct (_ && _).
  - intros w e w'. unfold wait_for_inclusion_proof, wait_for_inclusion_proof_with_stats. destruct (wait_run _ _ _ _) as [r l] eqn:Er.
    intros [= -> _]. revert Er. apply raises_bind; [auto with raises|]. intros started. apply wait_loop_plain.
  - apply raises_bind; [auto with raises|]. intros started. apply poll_loop_plain.
Qed.

(** ** The evidence of a lost race *)

(** The session is fresh and meets one seal, so its memo cannot err. *)
Lemma verify_for_sound tb p sid : wf p -> verify_inclusion_proof_for tb p sid (reference_time p) = Ok tt ->
  inclusion_verdict tb p sid (reference_time p) = Ok tt.
Proof.
  intros (_ & _ & Hw) Hv. set (K := eq (proof_seal p)).
  destruct (answers_inclusion ordinary (fun _ => False) K tb p sid (reference_time p) eq_refl Hw eq_refl (new_session tb) (session_ok_new K _ tb))
    as [[E1 _]|[]%one_seal_no_clash]; [by rewrite <- E1|]. by intros ? ? <- <-.
Qed.

Lemma lost_race_sound tb data p : certification_data p <> data ->
  inclusion_verdict tb p (StateId_derive (cd_lock_script data) (cd_source_state_hash data)) (reference_time p) = Ok tt -> lost_race tb data p.
Proof.
  intros Hne (? & (? & _ & (? & Hm & Hu)%bind_Ok)%bind_Ok & Hp)%bind_Ok.
  destruct x, x0, x1. apply membership_checks_sound in Hm as (Hs & _ & _ & _ & Hi & _). apply verify_predicate_sound in Hp.
  apply uc_verdict_sound in Hu. by split.
Qed.

Definition submitted (tb : RootTrustBase) (data : CertificationData) (r : outcome HttpError InclusionProof) : Prop :=
  match r with
  | Ok p => wf p /\ certification_data p = data
  | Err HttpError.StateCertifiedWithOtherData => exists p, wf p /\ lost_race tb data p
  | _ => True
  end.

Lemma conflict_sound tb data p e : wf p -> certification_data p <> data ->
  conflict_error p (StateId_derive (cd_lock_script data) (cd_source_state_hash data)) tb = Ok e -> submitted tb data (Err e).
Proof.
  intros Hw Hne. unfold conflict_error. destruct (verify_inclusion_proof_for _ _ _ _) as [[]|x|] eqn:Ev; intros [= <-]; [|done].
  cbn [submitted]. apply verify_for_sound in Ev; [|done]. exists p. split; [done|by apply lost_race_sound].
Qed.

Lemma plain_submitted tb data e : plain e -> submitted tb data (Err e).
Proof. unfold plain. destruct e; done. Qed.

Lemma submit_and_wait_spec self data max tb w : submitted tb data (fst (submit_and_wait_verified self data max tb w)).
Proof.
  unfold submit_and_wait_verified, submit_and_wait_with. cbv zeta. rewrite bindM_run.
  destruct (resubmit_certification_request self data w) as [[o|e|] w1] eqn:Es; [|by eapply plain_submitted, submit_plain|done].
  clear Es w o. set (sid := StateId_derive _ _). revert w1. induction (N.to_nat (val max)) as [|n IH]; intros w.
  all: cbn [wait_and_resubmit]; rewrite bindM_run, tryM_run; destruct (http_get_inclusion_proof self sid w) as [[p|e|] w1] eqn:Ep; try done.
  all: first [apply http_proof_decoded in Ep | apply lookup_plain in Ep].
  all: try (destruct (bool_decide_reflect (certification_data p = data)) as [Hd|Hd]; cbn [negb]; [by split|]; rewrite bindM_run; unfold liftM;
    destruct (conflict_error p sid tb) as [x|x|] eqn:Ec; cbn [fst]; [by eapply conflict_sound| |done];
    unfold conflict_error in Ec; by destruct (verify_inclusion_proof_for _ _ _ _)).
  - by apply plain_submitted.
  - destruct (resubmit_on e); [|by apply plain_submitted]. rewrite bindM_run.
    destruct (resubmit_certification_request self data w1) as [[o|x|] w2] eqn:Es; [apply IH|by eapply plain_submitted, submit_plain|done].
Qed.
End http.
