(* ===== verification/AdmissionSpec.v ===== *)
(** The contract of admission ([group] of [src/client/consolidate/mod.rs]): the
    groups are the distinct states of the input, by shard in canonical order, and
    every input is mapped to the first input of its state.

    [members] and [first_with] are the reference; [group_slots] and
    [group_has_first] show that the loop, with its map and its slots, computes
    them. *)

From stdpp Require Import sorting.
From S2P Require Import Prelude State Bytes Error Cbor Hash Codec ShardId ShardOps Search Ids Bft Certificates VerificationError Secp Predicates TrustBase Seal Proofs Transactions Verify Topology ViewCodec Assemble Plan Batch Executor Consolidate.
Local Open Scope N_scope.

(** * The map *)

Lemma btree_get_insert {V} k k' (v : V) m :
  btree_get k' (btree_insert k v m) = if bool_decide (k' = k) then Some v else btree_get k' m.
Proof.
  unfold btree_get. induction m as [|[k1 v1] m IH]; cbn [btree_insert List.find].
  - case_bool_decide as E; cbn [fst]; [subst; by rewrite bytes_cmp_refl|].
    destruct (bytes_cmp k' k) eqn:Ec; [by apply bytes_cmp_eq in Ec|done..].
  - destruct (bytes_cmp k k1) eqn:Ek; cbn [List.find fst].
    + apply bytes_cmp_eq in Ek as ->. destruct (bytes_cmp k' k1) eqn:Ec.
      * apply bytes_cmp_eq in Ec as ->. by rewrite bool_decide_eq_true_2.
      * rewrite bool_decide_eq_false_2; [done|]. intros ->. by rewrite bytes_cmp_refl in Ec.
      * rewrite bool_decide_eq_false_2; [done|]. intros ->. by rewrite bytes_cmp_refl in Ec.
    + destruct (bytes_cmp k' k) eqn:Ec.
      * apply bytes_cmp_eq in Ec as ->. by rewrite bool_decide_eq_true_2.
      * rewrite bool_decide_eq_false_2; [done|]. intros ->. by rewrite bytes_cmp_refl in Ec.
      * rewrite bool_decide_eq_false_2; [done|]. intros ->. by rewrite bytes_cmp_refl in Ec.
    + destruct (bytes_cmp k' k1) eqn:Ec; [|exact IH..].
      apply bytes_cmp_eq in Ec as ->. rewrite bool_decide_eq_false_2; [done|]. intros ->. by rewrite bytes_cmp_refl in Ek.
Qed.

Lemma btree_insert_length {V} k (v : V) m : btree_get k m = None -> length (btree_insert k v m) = S (length m).
Proof.
  unfold btree_get. induction m as [|[k1 v1] m IH]; cbn [btree_insert List.find fst]; [done|].
  destruct (bytes_cmp k k1) eqn:E; [done|done|]. intros Hn. cbn [length]. by rewrite IH.
Qed.

Section admission.
Context `{Sha2} `{K256} {W C : Type} `{BatchAggregatorClient W C} `{Clock W} `{CallerCancel W}.
Context (self : @ProofClient _ C).

Abbreviation ProofClient := (@Consolidate.ProofClient _ C).

Definition key_of (item : ProofItem) : bytes := val (sid_bytes (item_state_id item)).
Definition shard_index (item : ProofItem) : nat := route_index (router self) (item_state_id item).

(** * The reference *)

(** The first input with a given key. *)
Definition first_with (key : bytes) (items : list ProofItem) : option nat :=
  fst <$> list_find (fun item => key_of item = key) items.

(** The first inputs of their states that route to shard [si]. *)
Definition members (items : list ProofItem) (si : nat) : list nat :=
  omap (fun e => if bool_decide (first_with (key_of (snd e)) items = Some (fst e) /\ shard_index (snd e) = si) then Some (fst e) else None)
    (imap pair items).

(** Evidence about one state that the client may use for another item. *)
Record same_state (a b : ProofItem) : Prop := {
  ss_id : item_state_id a = item_state_id b;
  ss_data : certification_data (item_proof a) = certification_data (item_proof b);
  ss_time : reference_time (item_proof a) = reference_time (item_proof b);
}.

Lemma key_of_inj a b : key_of a = key_of b -> item_state_id a = item_state_id b.
Proof.
  unfold key_of. destruct (item_state_id a) as [x], (item_state_id b) as [y]. cbn. intros E%arr_ext. by rewrite E.
Qed.

Lemma first_with_snoc key items x : first_with key (items ++ [x]) =
  match first_with key items with Some i => Some i | None => if bool_decide (key_of x = key) then Some (length items) else None end.
Proof.
  unfold first_with. destruct (list_find _ items) as [[i y]|] eqn:E; cbn [fmap option_fmap option_map fst].
  - by rewrite (list_find_app_l _ _ _ _ _ E).
  - rewrite list_find_app_r by done. cbn. case_decide; case_bool_decide; done.
Qed.

Lemma first_with_Some key items i : first_with key items = Some i ->
  exists item, items !! i = Some item /\ key_of item = key /\ first_with (key_of item) items = Some i.
Proof.
  intros E. pose proof E as E'. unfold first_with in E'. destruct (list_find _ items) as [[j y]|] eqn:Ef; [|done]. injection E' as ->.
  apply list_find_Some in Ef as (Hy & Hk & _). exists y. rewrite Hk. done.
Qed.

Lemma first_with_in items i item : items !! i = Some item -> is_Some (first_with (key_of item) items).
Proof.
  intros Hi. unfold first_with. destruct (list_find_elem_of (fun x => key_of x = key_of item) items item) as [[j y] ->]; [|done|by exists j].
  by apply list_elem_of_lookup_2 in Hi.
Qed.

Lemma members_snoc items x si : members (items ++ [x]) si = members items si ++
  (if bool_decide (first_with (key_of x) items = None /\ shard_index x = si) then [length items] else []).
Proof.
  unfold members. rewrite imap_app, omap_app. f_equal.
  - apply list_omap_ext, Forall_Forall2_diag, Forall_forall. intros [i item] (j & y & [= -> ->] & Hy)%elem_of_lookup_imap. cbn [fst snd].
    rewrite first_with_snoc. by destruct (first_with_in _ _ _ Hy) as [k ->].
  - cbn [imap omap list_omap fst snd compose]. rewrite Nat.add_0_r, first_with_snoc, (bool_decide_eq_true_2 (key_of x = key_of x)) by done.
    destruct (first_with (key_of x) items) as [k|] eqn:Ek.
    + assert (k < length items)%nat as Hk.
      { destruct (first_with_Some _ _ _ Ek) as (y & Hy & _). by apply lookup_lt_Some in Hy. }
      rewrite !bool_decide_eq_false_2; [done|naive_solver|intros [[= ->] _]; lia].
    + case_bool_decide as E1; case_bool_decide as E2; naive_solver.
Qed.

Lemma members_lookup items si i : i ∈ members items si -> exists item, items !! i = Some item /\ shard_index item = si /\
  first_with (key_of item) items = Some i.
Proof.
  unfold members. intros ([j x] & (k & y & [= -> ->] & Hy)%elem_of_lookup_imap & E)%list_elem_of_omap. cbn [fst snd] in E.
  case_bool_decide as Hc; [|done]. injection E as ->. destruct Hc. by exists y.
Qed.

Lemma members_complete items i item f : items !! i = Some item -> first_with (key_of item) items = Some f ->
  f ∈ members items (shard_index item).
Proof.
  intros Hi Hf. destruct (first_with_Some _ _ _ Hf) as (y & Hy & Hk & Hfy). apply list_elem_of_omap.
  exists (f, y). split; [apply elem_of_lookup_imap; by exists f, y|]. cbn [fst snd].
  rewrite bool_decide_eq_true_2; [done|]. split; [done|]. unfold shard_index. by rewrite (key_of_inj _ _ Hk).
Qed.

(** What a slot holds after admitting [pre]. *)
Definition slot_ok (pre : list ProofItem) (si : nat) (o : option Group) : Prop :=
  match o with
  | None => members pre si = []
  | Some g => members pre si <> [] /\ group_items g = members pre si /\
      Forall2 (fun i id => item_state_id <$> pre !! i = Some id) (group_items g) (group_ids g) /\
      shards (router self) !! si = Some (group_shard g) /\ endpoint_by_shard self !! si = Some (Some (endpoint g)) /\
      len (group_ids g) <= MAX_BATCH_STATE_IDS
  end.

Record admitted (pre : list ProofItem) (a : Admission) : Prop := {
  ad_seen : forall key, btree_get key (seen a) = first_with key pre;
  ad_first : Forall2 (fun item f => first_with (key_of item) pre = Some f /\ exists o, pre !! f = Some o /\ same_state o item)
    pre (first_of a);
  ad_shard : shard_of a = shard_index <$> pre;
  ad_length : length (slots a) = length (shards (router self));
  ad_slots : forall si o, slots a !! si = Some o -> slot_ok pre si o;
}.

Lemma slot_ok_other pre x si o : (first_with (key_of x) pre = None -> shard_index x <> si) -> slot_ok pre si o -> slot_ok (pre ++ [x]) si o.
Proof.
  intros Hx. unfold slot_ok. assert (members (pre ++ [x]) si = members pre si) as ->.
  { rewrite members_snoc, bool_decide_eq_false_2, app_nil_r; [done|]. intros []. by apply Hx. }
  destruct o as [g|]; [|done]. intros (Q1 & Q2 & Q3 & Q4). do 2 (split; [done|]). split; [|done].
  eapply Forall2_impl; [exact Q3|]. intros i id (y & Hy & ->)%fmap_Some. by rewrite (lookup_app_l_Some _ _ _ _ Hy).
Qed.

Lemma first_snoc pre x fs f : Forall2 (fun item f => first_with (key_of item) pre = Some f /\ exists o, pre !! f = Some o /\ same_state o item) pre fs ->
  first_with (key_of x) (pre ++ [x]) = Some f -> (exists o, (pre ++ [x]) !! f = Some o /\ same_state o x) ->
  Forall2 (fun item f => first_with (key_of item) (pre ++ [x]) = Some f /\ exists o, (pre ++ [x]) !! f = Some o /\ same_state o item)
    (pre ++ [x]) (fs ++ [f]).
Proof.
  intros Hf Hx Ho. apply Forall2_app; [|by constructor]. eapply Forall2_impl; [exact Hf|]. intros item k (Hk & o & Hok & Hs).
  rewrite first_with_snoc, Hk. split; [done|]. exists o. split; [by apply lookup_app_l_Some|done].
Qed.

Lemma admit_again items pre x post a first o : items = pre ++ x :: post -> admitted pre a ->
  first_with (key_of x) pre = Some first -> items !! first = Some o -> same_state o x ->
  admitted (pre ++ [x]) {| seen := seen a; first_of := first_of a ++ [first]; shard_of := shard_of a ++ [shard_index x]; slots := slots a |}.
Proof.
  intros -> [Hs Hf Hsh Hl Hsl] Hx Ho Hsame. destruct (first_with_Some _ _ _ Hx) as (y & Hy & _).
  assert (o = y) as -> by (rewrite (lookup_app_l_Some _ _ _ _ Hy) in Ho; congruence).
  constructor; cbn [seen first_of shard_of slots].
  - intros key. rewrite first_with_snoc, Hs. destruct (first_with key pre) eqn:E; [done|]. rewrite bool_decide_eq_false_2; [done|].
    intros <-. congruence.
  - apply first_snoc; [done|by rewrite first_with_snoc, Hx|]. exists y. split; [by apply lookup_app_l_Some|done].
  - by rewrite Hsh, fmap_app.
  - done.
  - intros si s Hsi. apply slot_ok_other; [by rewrite Hx|auto].
Qed.

(** Joining a group keeps the other slots and appends the state to its own. *)
Lemma join_group_slots pre x slots slots' : first_with (key_of x) pre = None ->
  (forall si o, slots !! si = Some o -> slot_ok pre si o) ->
  join_group self slots (shard_index x) (length pre) (item_state_id x) = Ok slots' ->
  length slots' = length slots /\ forall si o, slots' !! si = Some o -> slot_ok (pre ++ [x]) si o.
Proof.
  intros Hx Hs E. unfold join_group in E. apply bind_Ok in E as (shard & Hshard%or_panic_Ok & E).
  apply bind_Ok in E as (slot & Hslot%or_panic_Ok & E). apply bind_Ok in E as (g & Hg & E).
  destruct (N.ltb_spec MAX_BATCH_STATE_IDS (len (group_ids g ++ [item_state_id x]))) as [Hlt|Hle]; cbn [group_ids] in E;
    (destruct (_ <? _) eqn:Ec; [done|]); [apply N.ltb_ge in Ec; lia|]. injection E as <-.
  split; [by rewrite length_insert|]. intros si o Hsi. destruct (decide (si = shard_index x)) as [->|Hne].
  2:{ rewrite list_lookup_insert_ne in Hsi by done. apply slot_ok_other; [done|auto]. }
  rewrite list_lookup_insert_eq in Hsi by (by apply lookup_lt_Some in Hslot). injection Hsi as <-.
  assert (members (pre ++ [x]) (shard_index x) = members pre (shard_index x) ++ [length pre]) as Hm
    by by rewrite members_snoc, bool_decide_eq_true_2.
  unfold slot_ok. cbn [endpoint group_shard group_items group_ids]. rewrite Hm. specialize (Hs _ _ Hslot).
  assert (group_items g = members pre (shard_index x) /\
    Forall2 (fun i id => item_state_id <$> pre !! i = Some id) (group_items g) (group_ids g) /\
    shards (router self) !! shard_index x = Some (group_shard g) /\
    endpoint_by_shard self !! shard_index x = Some (Some (endpoint g))) as (-> & Q2 & Q3 & Q4).
  { destruct slot as [g'|]; [injection Hg as <-; naive_solver|]. unfold slot_ok in Hs.
    apply bind_Ok in Hg as (at_ & Ha%or_panic_Ok & Hg). apply bind_Ok in Hg as (e & ->%ok_or_Ok & [= <-]).
    by rewrite Hs. }
  split_and!; [by destruct (members pre _)|done| |done..].
  apply Forall2_app.
  - eapply Forall2_impl; [exact Q2|]. intros i id (y & Hy & ->)%fmap_Some. by rewrite (lookup_app_l_Some _ _ _ _ Hy).
  - constructor; [|done]. by rewrite lookup_app_r, Nat.sub_diag by lia.
Qed.

Lemma admit_new pre x a slots' : admitted pre a -> first_with (key_of x) pre = None ->
  join_group self (slots a) (shard_index x) (length pre) (item_state_id x) = Ok slots' ->
  admitted (pre ++ [x]) {| seen := btree_insert (key_of x) (length pre) (seen a); first_of := first_of a ++ [length pre];
    shard_of := shard_of a ++ [shard_index x]; slots := slots' |}.
Proof.
  intros [Hs Hf Hsh Hl Hsl] Hx Hj. destruct (join_group_slots _ _ _ _ Hx Hsl Hj) as [Hl' Hsl'].
  constructor; cbn [seen first_of shard_of slots]; [| |by rewrite Hsh, fmap_app|congruence|done].
  - intros key. rewrite first_with_snoc, btree_get_insert, Hs. case_bool_decide as Ek.
    + rewrite Ek, Hx, bool_decide_eq_true_2; done.
    + destruct (first_with key pre); [done|]. rewrite bool_decide_eq_false_2; [done|]. by intros E; apply Ek.
  - apply first_snoc; [done| |].
    + by rewrite first_with_snoc, Hx, bool_decide_eq_true_2.
    + exists x. by rewrite lookup_app_r, Nat.sub_diag by lia.
Qed.

Lemma admit_keeps items pre x post a a' : items = pre ++ x :: post -> admitted pre a ->
  admit_item self items a (length pre, x) = Ok a' -> admitted (pre ++ [x]) a'.
Proof.
  intros Hi Ha E. unfold admit_item in E. fold (key_of x) in E. fold (shard_index x) in E.
  rewrite (ad_seen _ _ Ha) in E. destruct (first_with (key_of x) pre) as [first|] eqn:Ef.
  - apply bind_Ok in E as (o & Ho%or_panic_Ok & E).
    destruct (bool_decide (certification_data _ = _)) eqn:Ed; [|done]. apply bool_decide_eq_true in Ed.
    destruct (val (reference_time _) =? _) eqn:Et; [|done]. apply N.eqb_eq in Et. injection E as <-.
    eapply admit_again; [exact Hi|done|exact Ef|exact Ho|]. destruct (first_with_Some _ _ _ Ef) as (y & Hy & Hk & _).
    assert (o = y) as -> by (subst items; rewrite (lookup_app_l_Some _ _ _ _ Hy) in Ho; congruence).
    constructor; [by apply key_of_inj|done|by apply val_inj].
  - apply bind_Ok in E as (shard & _ & E). destruct (_ <? _); [done|].
    apply bind_Ok in E as (slots' & Hj & [= <-]). by apply admit_new.
Qed.

(** * The whole loop *)

Lemma admit_all items deadline : forall post pre a s a' s', items = pre ++ post -> admitted pre a ->
  foldlM (admit_step self items deadline) a (imap (fun i x => ((length pre + i)%nat, x)) post) s = (Ok a', s') -> admitted items a'.
Proof.
  induction post as [|x post IH]; intros pre a s a' s' Hi Ha E; cbn [foldlM imap] in E.
  - injection E as <- _. by rewrite Hi, app_nil_r.
  - apply bindM_Ok in E as (b & s1 & Eb & E). unfold admit_step in Eb. apply bindM_Ok in Eb as ([] & s2 & _ & Eb).
    apply liftM_Ok in Eb as [Eb _]. rewrite Nat.add_0_r in Eb.
    apply (IH (pre ++ [x]) b s1 a' s'); [by rewrite <- app_assoc|by eapply admit_keeps|].
    erewrite imap_ext; [exact E|]. intros i y _. cbn. rewrite length_app. cbn. f_equal. lia.
Qed.

Lemma group_slots items deadline s groups first_of shard_of s' :
  group self items deadline s = (Ok (groups, first_of, shard_of), s') ->
  items <> [] /\ exists a, admitted items a /\ groups = omap id (slots a) /\ first_of = Consolidate.first_of a /\ shard_of = Consolidate.shard_of a.
Proof.
  unfold group. destruct (length items =? 0)%nat eqn:El; [done|]. intros (a & s1 & Ea & E)%bindM_Ok. injection E as <- <- <- <-.
  split; [by destruct items|]. exists a. split_and!; [|done..]. eapply (admit_all items deadline items []); [done| |exact Ea].
  constructor; cbn; [done|constructor|done|by rewrite length_replicate|].
  intros si o Hsi. apply lookup_replicate in Hsi as [-> _]. done.
Qed.

(** The first input of every state is in the group of its shard. *)
Lemma group_has_first items a i item f : router_ok (router self) -> admitted items a -> items !! i = Some item -> Consolidate.first_of a !! i = Some f ->
  exists g, g ∈ omap id (slots a) /\ f ∈ group_items g /\ shards (router self) !! shard_index item = Some (group_shard g).
Proof.
  intros Hr Ha Hi Hf. destruct (Forall2_lookup_lr _ _ _ _ _ _ (ad_first _ _ Ha) Hi Hf) as (Hfirst & o & Ho & Hsame).
  pose proof (members_complete _ _ _ _ Hi Hfirst) as Hm.
  assert (exists s, slots a !! shard_index item = Some (Some s) /\ slot_ok items (shard_index item) (Some s)) as (g & Hg & _ & Eg & _ & Hs & _).
  { destruct (slots a !! shard_index item) as [[g|]|] eqn:Es.
    - exists g. split; [done|]. exact (ad_slots _ _ Ha _ _ Es).
    - pose proof (ad_slots _ _ Ha _ _ Es) as Hn. unfold slot_ok in Hn. rewrite Hn in Hm. by apply elem_of_nil in Hm.
    - destruct (@route_spec unit _ (item_state_id item) Hr) as (s & _ & Hs%lookup_lt_Some & _).
      apply lookup_ge_None in Es. rewrite (ad_length _ _ Ha) in Es. unfold shard_index in Es. lia. }
  exists g. split_and!; [|by rewrite Eg|done]. apply list_elem_of_omap. exists (Some g). split; [by eapply list_elem_of_lookup_2|done].
Qed.

End admission.
