(* ===== verification/RunSpec.v ===== *)
(** What an attempt of the consolidation client returns
    ([src/client/consolidate/mod.rs]), whatever the transport, the clock, the
    caller's cancellation and the executor do.

    [run_sound]: a bundle keeps the inputs as they are when they already share an
    acceptable seal, or it replaces them one by one, each proof verified against
    the trust base, all under one authenticated seal at least as new as all of
    the evidence. *)

From stdpp Require Import strings sorting.
From S2P Require Import Prelude State Bytes Error Cbor Hash Codec CodecFacts ShardId ShardOps Search Ids Bft BftSpec UcInterner Certificates VerificationError Secp Predicates TrustBase Seal SealSpec Proofs Transactions TransactionsSpec Verify VerifySpec TokenSpec History Topology ViewCodec Assemble AssembleSpec Plan Batch Executor Wp Consolidate ConsolidateSpec AdmissionSpec.
Local Open Scope N_scope.

Section run.
Context `{Sha2} `{K256} {W C : Type} `{BatchAggregatorClient W C} `{Clock W} `{CallerCancel W} `{WaveExecutor (Shared W)}.
Context {Hdec : DecodedBatches W C} {Hwave : WaveResults (Shared W)}.
Context (self : @ProofClient _ C) (tb : RootTrustBase).

Abbreviation sound_session K := (session_of K (remembered any_policy no_contexts)).
Abbreviation decoded b := (Forall (fun p => wf (bp_proof p)) (batch_proofs b)).
Abbreviation evidence items := (Forall (fun i => wf (item_proof i)) items).

(** * The bundle *)

Definition certificate_round (p : InclusionProof) : u64 := root_chain_round_number (unicity_seal (unicity_certificate p)).

(** One target for all the inputs. *)
Definition replaced_under (seal : UnicitySeal) (items : list ProofItem) (bound : u64) (proofs : list InclusionProof) : Prop :=
  seal_verdict tb seal = Ok tt /\ val bound <= val (root_chain_round_number seal) /\ Forall2 (replaces tb seal) items proofs.

Lemma same_replaces seal o item p : same_state o item -> replaces tb seal o p -> replaces tb seal item p.
Proof.
  intros [Ei Ed Et] [[Rd Rt] Hm Hs Hw]. constructor; [|by rewrite <- Ei|done..]. split; congruence.
Qed.

(** Collecting gives every input the replacement of the first of its state. *)
Lemma collect_replaces seal items a replaced proofs : admitted self items a -> all_replace tb seal items replaced ->
  collect (Consolidate.first_of a) replaced = Ok proofs -> Forall2 (replaces tb seal) items proofs.
Proof.
  intros Ha Hr Hc%mapO_Forall2. pose proof (ad_first _ _ _ Ha) as Hf.
  apply Forall2_same_length_lookup. split; [by rewrite (Forall2_length _ _ _ Hf), (Forall2_length _ _ _ Hc)|].
  intros i item p Hi Hp. destruct (Forall2_lookup_r _ _ _ _ _ Hc Hp) as (f & Hfi & Ep).
  apply bind_Ok in Ep as (r & Er%or_panic_Ok & ->%or_panic_Ok). destruct (Hr _ _ Er) as (o & Ho & Hrep).
  destruct (Forall2_lookup_lr _ _ _ _ _ _ Hf Hi Hfi) as (_ & o' & Ho' & Hsame). rewrite Ho in Ho'. injection Ho' as <-.
  by eapply same_replaces.
Qed.

Lemma none_replaced seal items n : all_replace tb seal items (replicate n None).
Proof. intros i p [Hi _]%lookup_replicate. done. Qed.

Lemma served_wf batch first : decoded batch -> batch_proofs batch !! 0%nat = Some first -> wf (bp_proof first).
Proof. intros Hd Hf. rewrite Forall_lookup in Hd. by eapply Hd. Qed.

(** [K] has the seal of the first served proof. *)
Definition knows_target (K : UnicitySeal -> Prop) (batch : InclusionProofBatch) : Prop :=
  forall first, batch_proofs batch !! 0%nat = Some first -> K (proof_seal (bp_proof first)).

Section sound.
Context (K : UnicitySeal -> Prop).

Lemma finish_sound summary proofs derived master round base (Q : ProofBundle -> Prop) :
  (forall b, bundle_proofs b = proofs -> sum_already_shared (bundle_summary b) = sum_already_shared summary ->
     sum_outer_seals_after (bundle_summary b) = distinct_seals proofs -> Q b) ->
  ensures (W := W) K tb (finish summary proofs derived master round base) Q.
Proof.
  intros Hq r Hr. left. split; [|done]. unfold finish. intros b E. injection E as <-. by apply Hq.
Qed.

(** * The targets *)

Lemma direct_authenticate_sound uc topology : K (unicity_seal uc) -> wf (unicity_seal uc) ->
  ensures (W := W) K tb (on_session (fun e => StopError (Integrity e)) (direct_authenticate uc topology))
    (fun t => dt_uc t = uc /\ seal_verdict tb (unicity_seal uc) = Ok tt).
Proof.
  intros HK Hw. apply ensures_session. intros s Hs. unfold direct_authenticate. rewrite bindM_run. unfold liftM.
  destruct (direct_checks uc topology) as [[]|e|]; [|by left..]. rewrite bindM_run. unfold map_errM.
  destruct (answers_seal any_policy no_contexts K tb (unicity_seal uc) (view_policy (Some topology)) HK Hw s Hs) as [[E Hs']|]; [left|by right].
  destruct (authenticate_seal_under _ _ s) as [r s1]. cbn [fst snd] in *. subst r.
  destruct (seal_verdict tb (unicity_seal uc)) as [[]|e|]; cbn [map_err]; [|done..].
  split; [|done]. intros t [= <-]. done.
Qed.

Lemma authenticate_session s view enclosing pins r s' : sound_session K tb s -> K (unicity_seal enclosing) -> wf (unicity_seal enclosing) ->
  authenticate view enclosing pins s = (r, s') -> sound_session K tb s'.
Proof.
  intros Hs HK Hw. unfold authenticate, authenticate_with. rewrite bindM_run. unfold liftM at 1.
  destruct (match pins with Some p => Ok p | None => _ end) as [topology|e|]; [|by intros [= <- <-]..]. rewrite bindM_run. unfold liftM at 1.
  destruct (verify_tree view enclosing topology) as [tree|e|]; [|by intros [= <- <-]..]. rewrite bindM_run. unfold map_errM.
  destruct (authenticate_seal_transparent K _ tb s (unicity_seal enclosing) (view_policy pins) Hs HK Hw) as [_ Hs1].
  change (authenticate_under (unicity_seal enclosing) (view_policy pins) s)
    with (authenticate_seal_under (unicity_seal enclosing) (view_policy pins) s).
  destruct (authenticate_seal_under _ _ s) as [[[]|e|] s1]; by intros [= <- <-].
Qed.

Lemma view_authenticate_sound view enclosing pins : K (unicity_seal enclosing) -> wf (unicity_seal enclosing) ->
  ensures (W := W) K tb (on_session (fun e => StopError (Integrity (ViewIntegrity e))) (authenticate view enclosing pins))
    (fun av => av_seal av = unicity_seal enclosing /\ seal_verdict tb (av_seal av) = Ok tt).
Proof.
  intros HK Hw. apply ensures_session. intros s Hs. destruct (authenticate view enclosing pins s) as [r s'] eqn:E. cbn [fst snd].
  destruct r as [av|e|].
  - destruct (authenticate_inv K _ tb s view enclosing pins av s' Hs HK Hw E) as [Hs' [|(_ & _ & Es & Hv & _)]]; [by right|left].
    split; [|done]. intros av' [= <-]. done.
  - left. split; [done|]. by eapply authenticate_session.
  - left. split; [done|]. by eapply authenticate_session.
Qed.
(** * The paths of an attempt *)

(** A fresh bundle: the proofs replace the inputs under one new target. *)
Definition fresh_bundle (items : list ProofItem) (bound : u64) (shared_before : bool) (b : ProofBundle) : Prop :=
  sum_already_shared (bundle_summary b) = shared_before /\ sum_outer_seals_after (bundle_summary b) = distinct_seals (bundle_proofs b) /\
  exists seal, replaced_under seal items bound (bundle_proofs b).

Lemma ensures_guard {A} (b : bool) e (m : M Run Stop A) (Q : A -> Prop) : (b = false -> ensures (W := W) K tb m Q) ->
  ensures K tb (if b then liftM (Err e) else m) Q.
Proof. destruct b; [intros _; apply ensures_err|auto]. Qed.

Lemma run_direct_sound items groups mg a mbatch bound deadline summary base : admitted self items a -> evidence items -> decoded mbatch ->
  knows_target K mbatch ->
  ensures K tb (run_direct self items groups mg (Consolidate.first_of a) mbatch bound deadline summary base)
    (fresh_bundle items (bound_round bound) (sum_already_shared summary)).
Proof.
  intros Ha Hi Hb HK. unfold run_direct. apply ensures_guard. intros _.
  eapply ensures_bind; [apply ensures_lift|]. intros first Hfirst%or_panic_Ok.
  pose proof (served_wf _ _ Hb Hfirst) as Hw%wf_proof_certificate. specialize (HK _ Hfirst).
  eapply ensures_bind; [by apply direct_authenticate_sound|]. intros t [Et Hv]. apply ensures_guard. intros Hround%N.ltb_ge.
  eapply ensures_bind; [apply ensures_shared|]. intros _ _.
  eapply ensures_bind; [apply place_all_sound; [apply none_replaced|by rewrite Et|by rewrite Et|done..]|]. intros replaced Hr.
  eapply ensures_bind; [apply ensures_lift|]. intros proofs Hp.
  eapply ensures_bind; [apply ensures_shared|]. intros _ _.
  apply finish_sound. intros b Eb Es Ed. rewrite Et in *. split_and!; [done|by rewrite Eb|].
  exists (unicity_seal (unicity_certificate (bp_proof first))). rewrite Eb. split_and!; [done|done|]. exact (collect_replaces _ _ _ _ _ Ha Hr Hp).
Qed.

Lemma run_peers_sound items peers view deadline st : evidence items -> K (av_seal view) -> wf (av_seal view) -> all_replace tb (av_seal view) items (fst st) ->
  ensures K tb (run_peers self items peers view deadline st) (fun st' => all_replace tb (av_seal view) items (fst st')).
Proof.
  intros Hi HK Hw Hst. unfold run_peers. eapply ensures_bind; [apply ensures_lift|]. intros jobs _.
  eapply ensures_bind; [apply ensures_shared|]. intros wave (s & s' & Hrun). apply ensures_guard. intros _.
  destruct (foldl note_stop None wave).
  { eapply ensures_bind; [apply ensures_shared|]. intros c _. apply ensures_err. }
  eapply ensures_bind; [apply ensures_shared|]. intros _ _.
  apply (ensures_foldlM K tb _ (fun _ st => all_replace tb (av_seal view) items (fst st)) _ []); [done|].
  intros _ [[g root] batch] b Hin Hb. eapply ensures_bind; [apply ensures_lift|]. intros _ _. apply place_sound; [done..|].
  pose proof (wave_decoded _ _ _ _ _ _ Hrun) as Hd. rewrite Forall_forall in Hd. apply Hd. by eapply elem_of_zip_r.
Qed.

Lemma run_view_sound items groups mi mg a mbatch view bound deadline summary base : admitted self items a -> evidence items -> decoded mbatch ->
  knows_target K mbatch ->
  ensures K tb (run_view self items groups mi mg (Consolidate.first_of a) mbatch view bound deadline summary base)
    (fresh_bundle items (bound_round bound) (sum_already_shared summary)).
Proof.
  intros Ha Hi Hb HK. unfold run_view. eapply ensures_bind; [apply ensures_lift|]. intros first Hfirst%or_panic_Ok.
  pose proof (served_wf _ _ Hb Hfirst) as Hw%wf_proof_certificate. specialize (HK _ Hfirst).
  eapply ensures_bind; [by apply view_authenticate_sound|]. intros av [Ea Hv]. apply ensures_guard. intros Hround%N.ltb_ge.
  assert (wf (av_seal av)) as Hws by (rewrite Ea; exact Hw). assert (K (av_seal av)) as HKs by (rewrite Ea; exact HK).
  eapply ensures_bind; [apply ensures_shared|]. intros _ _.
  eapply ensures_bind; [apply place_sound; [apply none_replaced|done..]|]. intros st Hst.
  eapply ensures_bind; [by apply run_peers_sound|]. intros st' Hst'.
  eapply ensures_bind; [apply ensures_lift|]. intros proofs Hp.
  eapply ensures_bind; [apply ensures_shared|]. intros _ _.
  apply finish_sound. intros b Eb Es Ed. split_and!; [done|by rewrite Eb|].
  exists (av_seal av). rewrite Eb. split_and!; [done|done|]. exact (collect_replaces _ _ _ _ _ Ha Hst' Hp).
Qed.

End sound.

Section settles.
Context (K : UnicitySeal -> Prop).

(** The target's seal is a seal of the bundle. *)
Lemma targeted_served items a mbatch summary b : items <> [] -> admitted self items a -> targeted (length (Consolidate.first_of a)) mbatch summary b ->
  knows_target (bundle_seals K b) mbatch.
Proof.
  intros Hne Ha (_ & first & Hf & Hl & Hs) first' Hf'. rewrite Hf in Hf'. injection Hf' as <-. right.
  rewrite <- (Forall2_length _ _ _ (ad_first _ _ _ Ha)) in Hl. destruct items as [|item items]; [done|]. destruct (bundle_proofs b) as [|p ps]; [done|].
  exists p. split; [left|]. by apply Forall_cons in Hs as [? _].
Qed.

Lemma run_fetch_settles items master groups a bound deadline summary base : items <> [] -> admitted self items a -> evidence items ->
  settles K tb (run_fetch self items master groups (Consolidate.first_of a) bound deadline summary base)
    (fresh_bundle items (bound_round bound) (sum_already_shared summary)).
Proof.
  intros Hne Ha Hi. unfold run_fetch. eapply settles_bind; [apply ensures_lift|]. intros mi _.
  eapply settles_bind; [apply ensures_lift|]. intros mg _. eapply settles_bind; [apply ensures_shared|]. intros _ _.
  eapply settles_bind; [apply ensures_shared|]. intros mbatch (s & s' & Hf). apply fetch_decoded in Hf.
  eapply settles_bind; [apply ensures_lift|]. intros _ _. destruct (partition_view mbatch).
  - apply ensures_settles. intros r b r' E%run_view_targeted. apply run_view_sound; [done..|]. by eapply targeted_served.
  - eapply settles_bind; [apply ensures_lift|]. intros first _. apply settles_guard. intros _.
    apply ensures_settles. intros r b r' E%run_direct_targeted. apply run_direct_sound; [done..|]. by eapply targeted_served.
Qed.

(** * The whole run *)

(** Every input passed its membership check. *)
Definition evidence_verified (items : list ProofItem) : Prop :=
  Forall (fun i => membership_verdict tb (item_proof i) (item_state_id i) (reference_time (item_proof i)) = Ok tt) items.

(** What a bundle is worth. *)
Definition bundle_sound (items : list ProofItem) (verified : bool) (b : ProofBundle) : Prop :=
  (verified = false -> evidence_verified items) /\
  (sum_already_shared (bundle_summary b) = true /\ bundle_proofs b = item_proof <$> items /\ val (sum_requests (bundle_summary b)) = 0 /\
     distinct_seals (item_proof <$> items) = 1 \/
   sum_already_shared (bundle_summary b) = false /\ sum_outer_seals_after (bundle_summary b) = distinct_seals (bundle_proofs b) /\
     exists seal bound, replaced_under seal items bound (bundle_proofs b) /\
       Forall (fun i => val (certificate_round (item_proof i)) <= val bound) items).

(** The session knows the seals of the evidence. *)
Abbreviation known items := (Forall (fun i => K (proof_seal (item_proof i))) items).

Lemma verify_evidence_sound items : evidence items -> known items ->
  ensures (W := W) K tb (verify_evidence items) (fun _ => evidence_verified items).
Proof.
  intros Hi HK. unfold verify_evidence.
  eapply ensures_mono; [apply ensures_answers, (answers_forM any_policy no_contexts K tb _ _
    (fun i => membership_verdict tb (item_proof i) (item_state_id i) (reference_time (item_proof i))) items)|].
  - intros i Hin. rewrite Forall_forall in Hi, HK. apply answers_membership; [by apply HK| |done]. by apply wf_proof_certificate, Hi.
  - intros [] (us & Hf%mapO_Forall2 & _)%bind_Ok. apply Forall_lookup. intros j i Hj.
    by destruct (Forall2_lookup_l _ _ _ _ _ Hf Hj) as ([] & _ & Hv).
Qed.

(** The bound is at least the round of every input. *)
Lemma routed_bound items a b : admitted self items a ->
  from_routed (router self) (zip (item_proof <$> items) (Consolidate.shard_of a)) = Ok b ->
  Forall (fun i => val (certificate_round (item_proof i)) <= val (bound_round b)) items.
Proof.
  intros Ha (k & p & j & Hk & (_ & Hmax & _) & Hr & _)%from_routed_spec. apply Forall_lookup. intros i item Hi. rewrite Hr.
  apply (Hmax i). rewrite (ad_shard _ _ _ Ha). rewrite lookup_zip_with, !list_lookup_fmap, Hi. done.
Qed.

Lemma target_already_session items : evidence items -> known items ->
  ensures (W := W) K tb (target_already self items) (fun _ => True).
Proof.
  intros Hi HK. unfold target_already. eapply ensures_bind; [apply ensures_lift|]. intros item Hitem%or_panic_Ok.
  rewrite Forall_lookup in Hi, HK. specialize (Hi _ _ Hitem). specialize (HK _ _ Hitem). apply wf_proof_certificate in Hi.
  intros r Hr. rewrite bindM_run, tryM_run. unfold zoom.
  destruct (answers_seal any_policy no_contexts K tb (unicity_seal (unicity_certificate (item_proof item))) (view_policy (Some (client_topology self))) HK Hi
    (session r) Hr) as [[_ Hs]|]; [left|by right].
  destruct (authenticate_seal_under _ _ (session r)) as [[[]|e|] s]; done.
Qed.

Theorem run_sound items master deadline verified : evidence items -> known items ->
  settles K tb (run self items master deadline verified) (bundle_sound items verified).
Proof.
  intros Hi HK. unfold run. eapply settles_bind; [apply ensures_quorum_count|]. intros base _.
  eapply settles_bind; [apply ensures_shared|]. intros [[groups first_of] shard_of] (s & s' & Hg).
  apply group_slots in Hg as (Hne & a & Ha & _ & -> & ->).
  eapply settles_bind; [apply ensures_shared|]. intros _ _. eapply settles_bind; [apply ensures_lift|]. intros _ _.
  eapply (settles_bind K tb _ _ (fun _ => verified = false -> evidence_verified items)).
  { destruct verified; [by apply ensures_ret|]. eapply ensures_mono; [by apply verify_evidence_sound|]. auto. }
  intros _ Hev. eapply settles_bind; [apply ensures_lift|]. intros bound Hb%map_err_Ok. apply (routed_bound _ _ _ Ha) in Hb.
  eapply settles_bind; [apply ensures_shared|]. intros _ _. eapply settles_bind; [apply ensures_quorum_count|]. intros q _.
  eapply (settles_bind K tb _ _ (fun already => already = true -> distinct_seals (item_proof <$> items) = 1)).
  { destruct (N.eqb_spec (distinct_seals (item_proof <$> items)) 1); [|by apply ensures_ret].
    eapply ensures_mono; [by apply target_already_session|]. done. }
  intros [] Hone.
  - eapply settles_bind; [apply ensures_quorum_count|]. intros q' _ r b r' _ [= <- _]. left. split; [done|]. left. cbn. auto.
  - intros r b r' Hr E. destruct (run_fetch_settles _ _ _ _ _ _ _ _ Hne Ha Hi r b r' Hr E) as [(Eb & Ed & seal & Hseal)|]; [left|by right].
    split; [done|]. right. split_and!; [exact Eb|exact Ed|]. by exists seal, (bound_round bound).
Qed.

(** A bundle has a proof for every item, and the items' own when they already
    share a seal. *)
Definition bundle_shape (items : list ProofItem) (b : ProofBundle) : Prop :=
  length (bundle_proofs b) = length items /\
  (sum_already_shared (bundle_summary b) = true -> bundle_proofs b = item_proof <$> items).

Lemma run_shape items master deadline verified : yields (bundle_shape items) (run self items master deadline verified).
Proof.
  unfold run. apply yields_bind. intros base.
  eapply (yields_bind_of (fun g => exists a, admitted self items a /\ snd (fst g) = Consolidate.first_of a)).
  { apply yields_zoom. intros s [[groups first_of] shard_of] s' Hg. apply group_slots in Hg as (_ & a & Ha & _ & -> & _). by exists a. }
  intros [[groups first_of] shard_of] (a & Ha & Ef). cbn [fst snd] in Ef. subst first_of.
  assert (length (Consolidate.first_of a) = length items) as El by (symmetry; eapply Forall2_length, (ad_first _ _ _ Ha)).
  do 7 (apply yields_bind; intros). case_match.
  - apply yields_bind. intros q. apply yields_ret. split; [apply length_fmap|done].
  - unfold run_fetch. do 5 (apply yields_bind; intros). case_match.
    + intros r b r' (Es & first & _ & Hl & _)%run_view_targeted. split; [congruence|]. by rewrite Es.
    + apply yields_bind. intros first. case_match; [apply yields_err|].
      intros r b r' (Es & first' & _ & Hl & _)%run_direct_targeted. split; [congruence|]. by rewrite Es.
Qed.
End settles.
End run.
