(* ===== verification/ClientSpec.v ===== *)
(** What the consolidation client promises about tokens
    ([src/client/consolidate/mod.rs]).

    [consolidate_verified]: a consolidated token is accepted, keeps its history,
    and carries one seal. [bundle_rebuilds]: a token that was accepted stays
    accepted with the proofs of a sound bundle, so the client's last check
    repeats what the bundle already guarantees. *)

From stdpp Require Import strings sorting.
From S2P Require Import Prelude State Bytes Error Cbor Hash Codec CodecFacts ShardId ShardOps Search Ids Bft BftSpec UcInterner Certificates VerificationError Secp Predicates TrustBase Seal SealSpec Proofs Transactions TransactionsSpec Verify VerifySpec TokenSpec History BigUint Asset Rsmst Payment PaymentSpec Topology ViewCodec Assemble AssembleSpec Plan Batch Executor Consolidate ConsolidateSpec AdmissionSpec RunSpec.
Local Open Scope N_scope.

(** * The proofs of a token *)

Section token.
Context `{Sha2} `{K256} (tb : RootTrustBase).

Lemma items_of_proofs t : item_proof <$> items_of t = op_proof <$> outer_proofs t.
Proof. unfold items_of. by rewrite <- list_fmap_compose. Qed.

Lemma items_of_split t : items_of t =
  {| item_state_id := StateId_derive (lock_script (cm_transaction (genesis t))) (source_state_hash (cm_transaction (genesis t)));
     item_proof := cm_inclusion_proof (genesis t) |} ::
  ((fun c => {| item_state_id := StateId_derive (lock_script (ct_transaction c)) (source_state_hash (ct_transaction c));
                item_proof := ct_inclusion_proof c |}) <$> transactions t).
Proof.
  unfold items_of, outer_proofs. rewrite fmap_cons, fmap_imap. f_equal.
  exact (imap_const (fun c => {| item_state_id := StateId_derive (lock_script (ct_transaction c)) (source_state_hash (ct_transaction c));
                                 item_proof := ct_inclusion_proof c |}) (transactions t)).
Qed.

Lemma items_of_wf t : token_wf t -> Forall (fun i => wf (item_proof i)) (items_of t).
Proof.
  intros (Hg & _ & Hp). rewrite items_of_split. constructor; [exact (proj2 Hg)|]. by rewrite Forall_fmap.
Qed.

(** Replacements of all the outer proofs prove the same history again. *)
Lemma replaced_reproved seal t t' : Forall2 (replaces tb seal) (items_of t) (op_proof <$> outer_proofs t') -> same_history t t' ->
  reproved tb t t'.
Proof.
  rewrite items_of_split, outer_proofs_proofs. intros Hr [Em Et]. apply Forall2_cons in Hr as [[Hg Hm _ _] Hr].
  constructor; [done|exact Hg|by rewrite Em|]. revert Et Hr. generalize (transactions t), (transactions t').
  intros ts. induction ts as [|c ts IH]; intros [|c' ts'] Et Hr; try done; rewrite !fmap_cons in *.
  injection Et as Ec Et. apply Forall2_cons in Hr as [[Hp Hmc _ _] Hr]. constructor; [|by apply IH].
  split; [done|]. split; [exact Hp|]. by rewrite Ec.
Qed.

Lemma replaced_wf seal items proofs : Forall2 (replaces tb seal) items proofs -> Forall wf proofs.
Proof. induction 1 as [|i p items proofs Hp _ IH]; constructor; [apply Hp|done]. Qed.

(** Proofs under one seal count one. *)
Lemma replaced_one_seal seal items proofs : items <> [] -> Forall2 (replaces tb seal) items proofs -> distinct_seals proofs = 1.
Proof.
  intros Hne Hf. assert (Forall (fun p => unicity_seal (unicity_certificate p) = seal /\ wf p) proofs) as Hall.
  { clear Hne. induction Hf as [|i p items proofs [] _ IH]; by constructor. }
  rewrite distinct_seals_spec.
  - assert ((fun p => unicity_seal (unicity_certificate p)) <$> proofs = replicate (length proofs) seal) as ->.
    { clear Hf. induction Hall as [|p ps [Hp _] _ IH]; [done|]. by rewrite fmap_cons, IH, Hp. }
    assert (forall n, remove_dups (replicate (S n) seal) = [seal]) as Hone.
    { induction n as [|n IH]; [done|]. change (replicate (S (S n)) seal) with (seal :: replicate (S n) seal). cbn [remove_dups].
      destruct (decide_rel _ _ _) as [|Hn]; [exact IH|]. destruct Hn. left. }
    apply Forall2_length in Hf. destruct items; [done|]. destruct proofs; [done|]. cbn [length]. by rewrite Hone.
  - eapply Forall_impl; [exact Hall|]. by intros p [_ Hp%wf_proof_certificate].
Qed.
End token.

(** * The registry of payments looks only at transactions *)

Section payment.
Context `{Sha2} `{K256} `{BigUintOps}.

Lemma payment_registry_stable decode type authorize registry :
  (forall g g' assets, cm_transaction g' = cm_transaction g -> authorize g' assets = authorize g assets) ->
  payment_registry decode type authorize = Ok registry -> registry_stable registry.
Proof.
  intros Ha E. injection E as <-. split; intros t v ->%map_get_one e g g' c Em _.
  - cbn [mj_verify SplitMintJustificationVerifier]. unfold split_verify. by rewrite Em.
  - cbn [td_verify PaymentDataVerifier]. unfold payment_data_verify. rewrite Em.
    rewrite !bindM_run. unfold liftM.
    destruct (ok_or _ (data _)) as [b|e'|]; [|done..]. rewrite !bindM_run. destruct (map_err _ (decode b)) as [assets|e'|]; [|done..].
    by rewrite (Ha g g').
Qed.
End payment.

(** * Consolidating *)

Section client.
Context `{Sha2} `{K256} {W C : Type} `{BatchAggregatorClient W C} `{Clock W} `{CallerCancel W} `{WaveExecutor (Shared W)}.
Context {Hdec : DecodedBatches W C} {Hwave : WaveResults (Shared W)}.
Context (embeds : CertifiedMintTransaction -> Token -> Prop) (justified data_ok : meaning) (self : @ProofClient _ C).
Context (Hreg : registry_ok embeds justified data_ok (client_registry self)).

Abbreviation tb := (client_trust_base self).
Abbreviation accepted t := (token_verdict (client_registry self) tb (client_policy self) t = Ok tt).
Abbreviation evidence items := (Forall (fun i => wf (item_proof i)) items).
Abbreviation sound_session K := (session_of K (remembered any_policy no_contexts)).

Lemma attempt_Ok {A} timeout (m : u64 -> M (Shared W) ConsolidationError A) w a w' : attempt timeout m w = (Ok a, w') ->
  exists deadline s s', m deadline s = (Ok a, s').
Proof.
  unfold attempt. destruct (now_ms w) as [now w1]. destruct (m _ _) as [r s] eqn:E. intros [= -> _]. by do 3 eexists.
Qed.

Lemma run_attempt_inv items master deadline s verified sh b sh' : run_attempt self items master deadline s verified sh = (Ok (inr b), sh') ->
  exists r', run self items master deadline verified {| shared := sh; session := s |} = (Ok b, r').
Proof.
  unfold run_attempt. rewrite tryM_run.
  destruct (run self items master deadline verified {| shared := sh; session := s |}) as [[b'|e|] rs]; intros [= Eb _]; [|done..].
  exists rs. by rewrite Eb.
Qed.

(** The seals of the items. *)
Definition item_seals (items : list ProofItem) (seal : UnicitySeal) : Prop := exists i, i ∈ items /\ proof_seal (item_proof i) = seal.

Lemma item_seals_known items : Forall (fun i => item_seals items (proof_seal (item_proof i))) items.
Proof. apply Forall_forall. intros i Hi. by exists i. Qed.

(** A bundle of bare proofs. *)
Lemma proofs_bundle_sound items options w b w' : evidence items ->
  consolidate_proofs self items options w = (Ok (BundleConsolidated b), w') ->
  length (bundle_proofs b) = length items /\
  (bundle_sound tb items false b \/ memo_clash (bundle_seals (item_seals items) b) tb).
Proof.
  intros Hi (deadline & s & s' & E)%attempt_Ok. unfold consolidate_proofs_within in E.
  apply bindM_Ok in E as (r & s1 & Er & E). destruct r as [[]|b']; [done|by apply liftM_Ok in E as [? _]|]. injection E as <- _.
  apply run_attempt_inv in Er as [r' Er]. split.
  - exact (proj1 (run_shape self _ _ _ _ _ _ _ Er)).
  - eapply (run_sound self tb); [done|apply item_seals_known| |exact Er]. apply session_ok_new.
Qed.

(** The session of a token's verification serves the attempt. *)
Lemma session_ordinary K s : session_of K (remembered ordinary no_contexts) tb s -> sound_session K tb s.
Proof. apply session_mono. intros p uc [Hr _]. split; [done|by left]. Qed.

(** The seals met on the way from one token to the other. *)
Definition rebuild_seals (t t' : Token) (seal : UnicitySeal) : Prop := run_seal embeds t seal \/ run_seal embeds t' seal.

Lemma items_run_seals t : Forall (fun i => run_seal embeds t (proof_seal (item_proof i))) (items_of t).
Proof.
  rewrite items_of_split. constructor; [exact (rs_genesis embeds t)|]. rewrite Forall_fmap. apply Forall_forall.
  intros c Hc. by apply (rs_transfer embeds t c).
Qed.

(** The proofs of a token's bundle are those of the rebuilt token. *)
Lemma bundle_run_seals b t t' seal : rebuild_token t (bundle_proofs b) = Ok t' ->
  bundle_seals (run_seal embeds t) b seal -> rebuild_seals t t' seal.
Proof.
  intros [Ep _]%rebuild_spec [Hk|(p & Hp & <-)]; [by left|right]. rewrite <- Ep, <- items_of_proofs in Hp.
  apply list_elem_of_fmap in Hp as (i & -> & Hi). pose proof (items_run_seals t') as Hf. rewrite Forall_forall in Hf. by apply Hf.
Qed.

(** An accepted token that a sound bundle re-proves is accepted. *)
Lemma bundle_rebuilds items verified b t t' : registry_stable (client_registry self) -> token_wf t -> items = items_of t -> accepted t ->
  bundle_sound tb items verified b -> rebuild_token t (bundle_proofs b) = Ok t' -> accepted t' \/ memo_clash (rebuild_seals t t') tb.
Proof.
  intros Hst Hw -> Ht [_ [(_ & Eb & _ & _)|(_ & _ & seal & bound & (_ & _ & Hr) & _)]] E.
  - rewrite Eb, items_of_proofs in E. assert (rebuild_token t (op_proof <$> outer_proofs t) = Ok t) as E' by by apply rebuild_spec.
    rewrite E' in E. injection E as <-. by left.
  - pose proof E as [Ep Hh]%rebuild_spec. rewrite <- Ep in Hr.
    apply (verdict_reproved embeds justified data_ok (client_registry self) Hreg tb (client_policy self) (rebuild_seals t t') t);
      [done|done| |by left|by right|by eapply replaced_reproved|done].
    eapply rebuild_wf; [exact E|done|]. rewrite <- Ep. by eapply replaced_wf.
Qed.

(** A proof per outer transaction rebuilds the token. *)
Lemma bundle_rebuild_total proofs t : length proofs = length (items_of t) -> exists t', rebuild_token t proofs = Ok t'.
Proof.
  rewrite items_of_split. cbn [length]. rewrite length_fmap. intros El. unfold rebuild_token. rewrite El, Nat.eqb_refl. cbn [negb].
  destruct proofs as [|p ps]; [done|]. cbn [lookup list_lookup or_panic]. rewrite bind_Ok_l. eauto.
Qed.

(** What a consolidated token is. *)
Definition consolidated (t t' : Token) (summary : ConsolidationSummary) : Prop :=
  accepted t /\ accepted t' /\ token_wf t' /\ same_history t t' /\ distinct_seals (op_proof <$> outer_proofs t') = 1 /\
  if sum_already_shared summary then t' = t else
  exists seal bound, replaced_under tb seal (items_of t) bound (op_proof <$> outer_proofs t') /\
    Forall (fun o => val (certificate_round (op_proof o)) <= val bound) (outer_proofs t).

(** The run inside a consolidation, and its last check. *)
Lemma consolidate_inv token options w t' summary w' : consolidate self token options w = (Ok (Consolidated t' summary), w') ->
  let '(check, session) := verify_token_in_session token (new_session tb) (client_registry self) (client_policy self) in
  check = Ok tt /\ exists master deadline sh b r',
    run self (items_of token) master deadline true {| shared := sh; session := session |} = (Ok b, r') /\
    sum_already_shared summary = sum_already_shared (bundle_summary b) /\ rebuild_token token (bundle_proofs b) = Ok t' /\
    (sum_already_shared (bundle_summary b) = false ->
     fst (verify_token_with_memo_capacity t' tb (client_registry self) (client_policy self) DEFAULT_SEAL_MEMO_CAPACITY) = Ok tt).
Proof.
  intros (deadline & s & s' & E)%attempt_Ok. unfold consolidate_within in E.
  apply bindM_Ok in E as (u & s1 & _ & E). destruct (verify_token_in_session _ _ _ _) as [check session].
  apply bindM_Ok in E as ([] & s2 & Et & E). apply liftM_Ok in Et as [Ht%map_err_Ok _]. split; [done|].
  apply bindM_Ok in E as (r & s3 & Er & E). destruct r as [[]|b]; [done|by apply liftM_Ok in E as [? _]|].
  apply run_attempt_inv in Er as [r' Er]. do 4 eexists. exists r'. split; [exact Er|].
  destruct (sum_already_shared (bundle_summary b)) eqn:Es.
  - injection E as <- <- _. split; [exact Es|]. split; [|done].
    destruct (run_shape self _ _ _ _ _ _ _ Er) as [_ ->]; [|done]. rewrite items_of_proofs. by apply rebuild_spec.
  - apply bindM_Ok in E as (t & s4 & Et & E). apply liftM_Ok in Et as [Et%map_err_Ok _].
    destruct (verify_token_with_memo_capacity _ _ _ _ _) as [check' stats] eqn:Ev.
    apply bindM_Ok in E as ([] & s5 & Et' & E). apply liftM_Ok in Et' as [->%map_err_Ok _].
    apply bindM_Ok in E as (u' & s6 & _ & E). injection E as <- <- _. split; [exact Es|]. split; [done|]. intros _. by rewrite Ev.
Qed.

Theorem consolidate_verified token options w t' summary w' : token_wf token ->
  consolidate self token options w = (Ok (Consolidated t' summary), w') ->
  consolidated token t' summary \/ memo_clash (rebuild_seals token t') tb.
Proof.
  intros Hw E%consolidate_inv. set (K := rebuild_seals token t').
  destruct (verify_in_session embeds justified data_ok (client_registry self) Hreg no_contexts (run_seal embeds token) tb (client_policy self)
    token (new_session tb) Hw (fun _ => id) (session_ok_new _ _ tb)) as [[Ev Hs]|Hc]; [|right; revert Hc; apply memo_clash_mono; by left].
  destruct (verify_token_in_session _ _ _ _) as [check session]. cbn [fst snd] in Ev, Hs. subst check.
  destruct E as (Ht & master & deadline & sh & b & r' & Er & Es & Et & Hv). pose proof Et as [Ep Hh]%rebuild_spec.
  destruct (run_sound self tb (run_seal embeds token) _ _ _ _ (items_of_wf _ Hw) (items_run_seals _) {| shared := sh; session := session |} _ _
    (session_ordinary _ _ Hs) Er) as [[_ Hb]|Hc]; [|right; revert Hc; apply memo_clash_mono; intros seal; by apply bundle_run_seals].
  destruct Hb as [(Eb & Ebp & _ & Hone)|(Eb & _ & seal & bound & Hr & Hbound)]; rewrite Eb in *.
  - left. rewrite items_of_proofs in *. rewrite Ebp in Et. assert (rebuild_token token (op_proof <$> outer_proofs token) = Ok token) as E'
      by by apply rebuild_spec. rewrite E' in Et. injection Et as <-. unfold consolidated. rewrite Es. by split_and!.
  - pose proof Hr as (_ & _ & Hrep). rewrite <- Ep in Hr, Hrep.
    assert (token_wf t') as Hwt by (eapply rebuild_wf; [exact Et|done|rewrite <- Ep; by eapply replaced_wf]).
    destruct (verify_with_capacity embeds justified data_ok (client_registry self) Hreg no_contexts K tb (client_policy self) t'
      DEFAULT_SEAL_MEMO_CAPACITY ltac:(by vm_compute) Hwt ltac:(by right)) as [Ev|]; [|by right].
    left. unfold consolidated. rewrite Es. split_and!; [done|rewrite <- Ev; by apply Hv|done..| |].
    + eapply replaced_one_seal; [|exact Hrep]. by rewrite items_of_split.
    + exists seal, bound. split; [done|]. unfold items_of in Hbound. by rewrite Forall_fmap in Hbound.
Qed.
End client.
