(* ===== verification/Toy.v ===== *)
(** Concrete instances of the library's parameters, for the examples and the
    witnesses only: a rolling hash in place of SHA-2 and the additive group of
    five elements in place of secp256k1. No theorem of the development uses
    them. *)

From S2P Require Import Prelude Bytes Error Hash Radix Secp.
Local Open Scope N_scope.

(** * A hash *)

Definition roll (h : N) (b : byte) : N := N.land (h * 257 + b2n b + 1) 0xffffff.

#[export] Instance toy_sha2 : Sha2 := {|
  Sha224_digest x := fit 28 (be_bytes 28 (foldl roll 7 x));
  Sha256_digest x := fit 32 (be_bytes 32 (foldl roll 7 x));
  Sha384_digest x := fit 48 (be_bytes 48 (foldl roll 7 x));
  Sha512_digest x := fit 64 (be_bytes 64 (foldl roll 7 x));
|}.

(** * A group of five elements *)

Inductive F5 : Type := F0 | F1 | F2 | F3 | F4.

#[export] Instance F5_eq_dec : EqDecision F5.
Proof. solve_decision. Defined.

Definition of5 (a : F5) : N := match a with F0 => 0 | F1 => 1 | F2 => 2 | F3 => 3 | F4 => 4 end.
Definition to5 (n : N) : F5 :=
  match n mod 5 with 0 => F0 | 1 => F1 | 2 => F2 | 3 => F3 | _ => F4 end.
Definition add5 (a b : F5) : F5 := to5 (of5 a + of5 b).
Definition mul5 (a b : F5) : F5 := to5 (of5 a * of5 b).
Definition neg5 (a : F5) : F5 := to5 (5 - of5 a).
Definition inv5 (a : F5) : F5 := mul5 a (mul5 a a).

(** The elements a signature or a key may hold. *)
Inductive U5 : Type := U1 | U2 | U3 | U4.
Definition unit5 (u : U5) : F5 := match u with U1 => F1 | U2 => F2 | U3 => F3 | U4 => F4 end.
Definition units5 : list U5 := [U1; U2; U3; U4].
Definition to_unit5 (a : F5) : U5 := match a with F2 => U2 | F3 => U3 | F4 => U4 | _ => U1 end.

Definition num32 (n : N) : arr 32 := fit 32 (be_bytes 32 n).

(** The points of one coordinate are [p] and [-p]. *)
Definition coordinate5 (p : F5) : N := N.min (of5 p) (5 - of5 p).
Definition odd5 (p : F5) : bool := of5 p <=? 2.

Definition sig_bytes5 (s : U5 * U5) : arr 64 := fit 64 (val (num32 (of5 (unit5 (fst s)))) ++ val (num32 (of5 (unit5 (snd s))))).

Definition encode5 (p : F5) : bytes := n2b (if odd5 p then 3 else 2) :: val (num32 (of5 p)).

(** A nonce for which the signature's scalar is not zero. *)
Definition sign5 (k : U5) (z : F5) : option ((U5 * U5) * byte) :=
  n ← head (filter (fun n => add5 z (mul5 (to5 (coordinate5 (unit5 n))) (unit5 k)) <> F0) units5);
  let r := to5 (coordinate5 (unit5 n)) in
  let s := mul5 (inv5 (unit5 n)) (add5 z (mul5 r (unit5 k))) in
  let high := 2 <? of5 s in
  Some ((to_unit5 r, to_unit5 (if high then neg5 s else s)),
        n2b (if odd5 (if high then neg5 (unit5 n) else unit5 n) then 1 else 0)).

#[export] Instance toy_k256 : K256 := {|
  Scalar := F5;
  Point := F5;
  K256Signature := U5 * U5;
  SigningKey := U5;
  from_sec1_bytes b := existsb (fun u => bool_decide (encode5 (unit5 u) = val b)) units5;
  RecoveryId_from_byte b := b2n b <? 4;
  K256Signature_from_slice b :=
    head (filter (fun s => sig_bytes5 s = b) (r ← units5; s ← units5; [(r, s)]));
  K256Signature_to_bytes := sig_bytes5;
  is_high_s s := 2 <? of5 (unit5 (snd s));
  split_scalars s := (unit5 (fst s), unit5 (snd s));
  Scalar_to_bytes a := num32 (of5 a);
  ORDER := 5;
  decompress x v :=
    head (filter (fun p => num32 (coordinate5 p) = x /\ odd5 p = v) (unit5 <$> units5));
  reduce_bytes d := to5 (be_value (val d));
  invert a := if bool_decide (a = F0) then None else Some (inv5 a);
  scalar_mul := mul5;
  scalar_neg := neg5;
  lincomb p a q b := add5 (mul5 a p) (mul5 b q);
  generator := F1;
  is_identity p := bool_decide (p = F0);
  encode_point := encode5;
  SigningKey_from_slice b := if len b =? 32 then Some (to_unit5 (to5 (be_value b mod 4 + 1))) else None;
  verifying_key := unit5;
  sign_prehash_recoverable k d :=
    d ← try_arr 32 d;
    sign5 k (to5 (be_value (val d)));
|}.

Lemma decompress5_inv x v p : decompress x v = Some p -> num32 (coordinate5 p) = x /\ odd5 p = v.
Proof.
  simpl. intros E. assert (p ∈ filter (fun p => num32 (coordinate5 p) = x /\ odd5 p = v) (unit5 <$> units5)) as Hin.
  { destruct (filter _ _); [done|]. injection E as ->. left. }
  by apply list_elem_of_filter in Hin as [? _].
Qed.

Lemma encode5_inj p q : encode5 p = encode5 q -> p = q.
Proof. destruct p, q; try reflexivity; intros E; exfalso; vm_compute in E; discriminate. Qed.

#[export] Instance toy_k256_laws : K256Laws.
Proof.
  refine {| padd := add5; pzero := F0; pneg := neg5; smul := mul5 : Scalar -> Point -> Point |}; simpl.
  - done.
  - by intros [] [].
  - by intros [] [] [].
  - by intros [].
  - by intros [].
  - by intros [] [] [].
  - by intros [] [] [].
  - by intros [] [].
  - by intros [] [] [].
  - intros [] b p; simpl; try discriminate; intros [= <-]; by destruct p.
  - done.
  - by intros [[] []].
  - intros x y v w p Hx Hy. apply decompress5_inv in Hx as [<- <-], Hy as [<- <-]. done.
  - intros p q _ _. apply encode5_inj.
Defined.

Lemma recovery5_ok k z s rid : sign5 k z = Some (s, rid) -> recovery_ok {| compact := sig_bytes5 s; recovery := rid |} = true.
Proof. destruct k, z; vm_compute; by intros [= <- <-]. Qed.

Lemma sign5_total k z : is_Some (sign5 k z).
Proof. destruct k, z; vm_compute; eauto. Qed.

(** Recovery undoes [sign5], whatever the digest is. *)
Definition recover5 (s : U5 * U5) (rid : byte) (z : F5) : result F5 :=
  let '(r, s) := (unit5 (fst s), unit5 (snd s)) in
  let v := b2n rid in
  if 3 <? v then Err (Crypto "invalid recovery id") else
  x ← (if negb (N.land v 2 =? 0) then
         lifted ← ok_or (Crypto "recovery lift overflows") (u256_checked_add (be_value (val (num32 (of5 r)))) 5);
         Ok (fit 32 (be_bytes 32 lifted))
       else Ok (num32 (of5 r)));
  big_r ← ok_or (Crypto "key recovery failed") (decompress x (negb (N.land v 1 =? 0)));
  t ← ok_or (Crypto "key recovery failed") (invert r);
  let a := scalar_mul s t in
  let b := scalar_neg (scalar_mul z t) in
  let q := lincomb big_r a generator b in
  if is_identity q then Err (Crypto "key recovery failed") else Ok q.

Lemma recover5_sign k z s rid : sign5 k z = Some (s, rid) -> recover5 s rid z = Ok (unit5 k).
Proof. intros E. destruct k, z; vm_compute in E; injection E as <- <-; vm_compute; reflexivity. Qed.

Lemma canonical5 s rid (H : recovery_ok {| compact := sig_bytes5 s; recovery := rid |} = true) :
  2 <? of5 (unit5 (snd s)) = false -> Signature.canonical (Sub _ H) = Ok (s : @K256Signature toy_k256).
Proof.
  intros Hs. unfold Signature.canonical. cbn [val compact].
  assert (@K256Signature_from_slice toy_k256 (sig_bytes5 s) = Some (s : @K256Signature toy_k256)) as -> by (destruct s as [[] []]; vm_compute; done).
  cbn [ok_or]. rewrite bind_Ok_l. change (@is_high_s toy_k256 (s : @K256Signature toy_k256)) with (2 <? of5 (unit5 (snd s))). by rewrite Hs.
Qed.

Lemma sign5_low k z s rid : sign5 k z = Some (s, rid) -> 2 <? of5 (unit5 (snd s)) = false.
Proof. destruct k, z; vm_compute; by intros [= <- <-]. Qed.

#[export] Instance toy_k256_sign_laws : K256SignLaws.
Proof.
  split.
  - intros k. assert (from_sec1_bytes (fit 33 (encode5 (unit5 k))) = true) as E by (destruct k; vm_compute; done).
    exists (Sub _ E). by destruct k.
  - intros k d Hd. assert (try_arr 32 d = Some (fit 32 d)) as Ed by (apply try_arr_Some, val_fit, Hd).
    unfold sign_prehash_recoverable, toy_k256. rewrite Ed. cbn [mbind option_bind].
    destruct (sign5_total k (to5 (be_value (val (fit 32 d))))) as [[s rid] Es].
    exists s, rid, (Sub _ (recovery5_ok _ _ _ _ Es)). split; [exact Es|]. split; [reflexivity|].
    unfold Signature.recover_point. rewrite Ed. cbn [ok_or]. rewrite bind_Ok_l.
    rewrite canonical5 by (eapply sign5_low, Es). rewrite bind_Ok_l.
    exact (recover5_sign _ _ _ _ Es).
Qed.

(** A hash that collides everywhere, to run the theorems that find a collision. *)
Definition flat_sha2 : Sha2 := {|
  Sha224_digest _ := fit 28 []; Sha256_digest _ := fit 32 []; Sha384_digest _ := fit 48 []; Sha512_digest _ := fit 64 [];
|}.
