(* ===== verification/Scenario.v ===== *)
(** Concrete runs over the toy instances of [Toy]: a network of three root
    nodes, a payment token, its split and the two output tokens, certified the way
    the tests of [src/payment/tests.rs] certify theirs ([valid_proof],
    [signed_uc]). Each object is built by the operations the development
    verifies; the witnesses of the properties apply the theorems to them. *)

From S2P Require Import Prelude State Bytes Error Cbor CborSpec CborRead Hash Codec CodecFacts Radix BigUint Rsmst ShardId Ids Bft UcInterner Certificates VerificationError Secp Predicates TrustBase Seal SealSpec Proofs Transactions TransactionsSpec Verify VerifySpec TokenSpec Asset Payment PaymentSpec Toy.
Local Open Scope N_scope.

(** The value of a computation that succeeds; [found] is its normal form. *)
Definition the {E A} (r : outcome E A) : is_ok r = true -> A :=
  match r with
  | Ok a => fun _ => a
  | _ => fun H => False_rect A (diff_false_true H)
  end.

Ltac found r := let x := eval vm_compute in r in match x with Ok ?a => exact a end.

(** Equality of values that carry different proofs. *)
Ltac by_decide := apply (bool_decide_unpack _); vm_compute; exact I.

(** * The network *)

Definition reference_now : u64 := wrap 64 100.

Definition name_a : str := Sub [n2b 0x41] eq_refl.
Definition name_b : str := Sub [n2b 0x42] eq_refl.
Definition name_c : str := Sub [n2b 0x43] eq_refl.

Definition signer_of (u : U5) : Secp256k1Signer := {| Secp.key := u : @SigningKey toy_k256 |}.

Lemma node_key_ok u : @from_sec1_bytes toy_k256 (fit 33 (encode5 (unit5 u))) = true.
Proof. by destruct u. Qed.

Definition node_key (u : U5) : PublicKey := Sub _ (node_key_ok u).

Definition node (name : str) (u : U5) : RootTrustBaseNodeInfo :=
  {| node_id := name; node_signing_key := node_key u; stake := wrap 64 1 |}.

(** Three nodes, two of which are a quorum. *)
Definition network : RootTrustBase := {|
  tb_version := wrap 64 0; tb_network_id := NetworkId.LOCAL; tb_epoch := wrap 64 0; epoch_start_round := wrap 64 0;
  root_nodes := [node name_a U1; node name_b U2; node name_c U3]; quorum_threshold := wrap 64 2 |}.

Definition seal_with (hash : bytes) (signatures : list (str * bytes)) : UnicitySeal := {|
  seal_network_id := NetworkId.LOCAL; root_chain_round_number := wrap 64 1; seal_epoch := wrap 64 0;
  seal_timestamp := wrap 64 (1700000000); seal_previous_hash := None; seal_hash := hash; signatures := signatures |}.

Definition certificate_with (state_root : option (arr 32)) (seal : UnicitySeal) : UnicityCertificate := {|
  input_record := {| round_number := wrap 64 0; ir_epoch := wrap 64 0; previous_hash := None; hash := val <$> state_root;
    summary_value := Some []; timestamp := reference_now;
    block_hash := match state_root with Some _ => Some (replicate 32 (n2b 5)) | None => None end;
    sum_of_earned_fees := wrap 64 0; executed_transactions_hash := None |};
  technical_record_hash := Some (replicate 32 (n2b 6));
  shard_configuration_hash := replicate 32 (n2b 0);
  shard_tree_certificate := {| shard := ShardId.root; sibling_hash_list := [] |};
  unicity_tree_certificate := {| partition_identifier := AGGREGATION_PARTITION_ID; steps := [] |};
  unicity_seal := seal;
|}.

(** [signed_uc]: the certificate of a state root, sealed by two of the nodes. *)
Definition sealed (state_root : option (arr 32)) : result UnicityCertificate :=
  h ← computed_seal_hash (certificate_with state_root (seal_with [] []));
  let digest := calculate_hash (seal_with (DataHash.data h) []) in
  a ← sign (signer_of U1) digest;
  c ← sign (signer_of U3) digest;
  Ok (certificate_with state_root (seal_with (DataHash.data h)
    [(name_a, Signature.encode a); (name_c, Signature.encode c)])).

(** [valid_proof]: the transaction is the only leaf of its tree. *)
Definition certify {T} `{Transaction T} (transaction : T) (owner : Secp256k1Signer) : result InclusionProof :=
  let tx_hash := calculate_transaction_hash transaction in
  let state_id := StateId_derive (lock_script transaction) (source_state_hash transaction) in
  let leaf := leaf_digest (sid_bytes state_id) (DataHash.data (calculate_leaf_value tx_hash reference_now)) in
  unlock ← sign_signature_unlock owner (source_state_hash transaction) tx_hash;
  uc ← sealed (Some (fit 32 (DataHash.data leaf)));
  Ok {| certification_data := CertificationData_from_transaction transaction unlock; reference_time := reference_now;
        inclusion_certificate := {| InclusionCertificate.bitmap := num32 0; InclusionCertificate.siblings := [] |};
        unicity_certificate := uc |}.

(** * A payment token *)

Definition owner (u : U5) : EncodedPredicate := from_predicate {| sp_public_key := node_key u |}.
Definition coin : TokenType := {| type_bytes := n2b <$> [1; 2; 3] |}.
Definition gold : AssetId := {| aid_bytes := n2b <$> [0x61] |}.
Definition iron : AssetId := {| aid_bytes := n2b <$> [0x62] |}.
Definition holding (id : AssetId) (n : N) : Asset := {| asset_id := id; asset_value := n : @BigUint N_ops |}.
Definition salted (n : N) : TokenSalt := {| salt_bytes := num32 n |}.
Definition later : option u64 := Some (wrap 64 1000).

Definition mint_with (to : U5) (n : N) (data justification : option bytes) : result CertifiedMintTransaction :=
  m ← MintTransaction_create NetworkId.LOCAL (owner to) coin (salted n) data justification later;
  k ← Minter.signer (token_id m);
  p ← certify m k;
  Ok {| cm_transaction := m; cm_inclusion_proof := p |}.

Definition treasure : PaymentAssetCollection := {| assets := [holding gold 10; holding iron 5] |}.
Definition source_genesis : CertifiedMintTransaction.
Proof. found (mint_with U1 7 (Some (to_cbor treasure)) None). Defined.

(** A token as its recipient reads it. *)
Definition source_bytes : bytes := Eval vm_compute in Token_to_cbor {| genesis := source_genesis; transactions := [] |}.
Definition source_token : Token.
Proof. found (Token_from_cbor source_bytes). Defined.

(** A plain transfer of it. *)
Definition transfer_of (t : Token) (to : EncodedPredicate) (n : N) (data : option bytes) : TransferTransaction :=
  let '(h, l) := latest_state t in
  {| transfer_source_state_hash := h; transfer_lock_script := l; transfer_recipient := to; transfer_expires_at := later;
     state_mask := val (num32 n); transfer_data := data |}.

Definition extend (t : Token) (tx : TransferTransaction) (from : U5) : result Token :=
  p ← certify tx (signer_of from);
  Ok {| genesis := genesis t; transactions := transactions t ++ [{| ct_transaction := tx; ct_inclusion_proof := p |}] |}.

Definition moved_bytes : bytes.
Proof. found (Token_to_cbor <$> extend source_token (transfer_of source_token (owner U2) 9 None) U1). Defined.
Definition moved_token : Token.
Proof. found (Token_from_cbor moved_bytes). Defined.

(** * Its split *)

Definition decode_assets : PaymentDataDecoder := from_cbor_bytes.

Definition share_1 : PaymentAssetCollection := {| assets := [holding gold 7; holding iron 5] |}.
Definition share_2 : PaymentAssetCollection := {| assets := [holding gold 3] |}.
Definition request_of (to : U5) (n : N) (share : PaymentAssetCollection) : SplitTokenRequest :=
  SplitTokenRequest_create (owner to) share coin (salted n).
Definition requests : list SplitTokenRequest := [request_of U2 21 share_1; request_of U3 22 share_2].

Definition the_split : Split.
Proof. found (build_split source_token treasure decode_assets requests (Some (num32 77)) later (Err (Crypto "no RNG"))). Defined.

Definition burned_bytes : bytes.
Proof. found (Token_to_cbor <$> extend source_token (burn_transaction (burn the_split)) U1). Defined.
Definition burned_token : Token.
Proof. found (Token_from_cbor burned_bytes). Defined.

Definition output_token (st : SplitToken) (to : U5) : result Token :=
  j ← SplitMintJustification_create burned_token (st_proofs st);
  m ← MintTransaction_create (st_network_id st) (st_recipient st) (st_token_type st) (st_salt st) (Some (st_payload st))
    (Some (SplitMintJustification_to_cbor j)) later;
  k ← Minter.signer (token_id m);
  p ← certify m k;
  Ok {| genesis := {| cm_transaction := m; cm_inclusion_proof := p |}; transactions := [] |}.

Definition split_token_1 : SplitToken.
Proof. found (or_panic (E := Error) (tokens the_split !! 0%nat)). Defined.
Definition split_token_2 : SplitToken.
Proof. found (or_panic (E := Error) (tokens the_split !! 1%nat)). Defined.
Definition output_bytes_1 : bytes.
Proof. found (Token_to_cbor <$> output_token split_token_1 U2). Defined.
Definition output_1 : Token.
Proof. found (Token_from_cbor output_bytes_1). Defined.
Definition output_bytes_2 : bytes.
Proof. found (Token_to_cbor <$> output_token split_token_2 U3). Defined.
Definition output_2 : Token.
Proof. found (Token_from_cbor output_bytes_2). Defined.

Definition allow_issuance : PaymentIssuancePolicy := fun _ _ => Ok tt.
Definition registry : MintJustificationRegistry := {|
  verifiers := [(SPLIT_MINT_JUSTIFICATION_TAG, SplitMintJustificationVerifier decode_assets)];
  data_verifiers := [(type_bytes coin, PaymentDataVerifier coin decode_assets allow_issuance)] |}.

Lemma registry_built : payment_registry decode_assets coin allow_issuance = Ok registry.
Proof. reflexivity. Qed.

Definition strict_policy : VerificationPolicy := {| limits := VerificationLimits_DEFAULT; require_token_data_verifier := true |}.

(** * The runs *)

Lemma source_read : Token_from_cbor source_bytes = Ok source_token.
Proof. vm_compute. reflexivity. Qed.
Lemma moved_read : Token_from_cbor moved_bytes = Ok moved_token.
Proof. vm_compute. reflexivity. Qed.
Lemma burned_read : Token_from_cbor burned_bytes = Ok burned_token.
Proof. vm_compute. reflexivity. Qed.
Lemma output_read_1 : Token_from_cbor output_bytes_1 = Ok output_1.
Proof. vm_compute. reflexivity. Qed.
Lemma output_read_2 : Token_from_cbor output_bytes_2 = Ok output_2.
Proof. vm_compute. reflexivity. Qed.

(** What is read is well-formed. *)
Lemma read_wf b t : Token_from_cbor b = Ok t -> token_wf t.
Proof. unfold Token_from_cbor. rewrite Token_from_cbor_direct. apply token_direct_wf. Qed.

(** * Absence *)

(** The tree of the snapshot: one leaf, and a state that is not in it. *)
Definition leaf_key : arr 32 := num32 0x51.
Definition leaf_value : arr 32 := num32 0x52.
Definition snapshot_tree : smt := SLeaf leaf_key (val leaf_value).
Definition fresh_state : StateId := {| sid_bytes := num32 0x53 |}.

Definition absence_proof : NonInclusionProof.
Proof.
  found (certificate ← NonInclusionCertificate.from_parts (num32 0) [] leaf_key leaf_value;
         uc ← sealed (Some (fit 32 (DataHash.data (smt_digest snapshot_tree))));
         Ok {| certificate := certificate; ni_unicity_certificate := uc; requested_state_id := Some fresh_state |}).
Defined.

Definition absent_outcome : NonInclusionOutcome.
Proof. found (verify_at_snapshot network absence_proof NonInclusionContext_new). Defined.

(** * The seals of the runs *)

(** Two of the nodes signed every seal above, so no two of them can clash in a
    memo: the theorems that allow for a collision among the seals of a run hold
    of these runs without it. *)
Definition good (seal : UnicitySeal) : Prop := quorum_met network seal = Ok tt.

Lemma no_good_collision K : (forall seal, K seal -> good seal) -> ~ seal_collision K network.
Proof. intros HK. apply all_good_no_clash. intros seal Hk _. by apply HK. Qed.

Definition all_good (seals : list UnicitySeal) : bool := forallb (fun s => is_ok (quorum_met network s)) seals.

Lemma all_good_in seals seal : all_good seals = true -> seal ∈ seals -> good seal.
Proof.
  unfold all_good. rewrite forallb_forall. intros Hg Hs%list_elem_of_In. specialize (Hg seal Hs). unfold good.
  by destruct (quorum_met network seal) as [[]| |].
Qed.

(** A token that embeds none. *)
Lemma plain_good embeds t seal : (forall t', ~ embeds (genesis t) t') -> all_good (outer_seals t) = true -> run_seal embeds t seal -> good seal.
Proof. intros He Hg [Hs|(t' & Ht & _)]%run_seal_inv; [by eapply all_good_in|by destruct (He t')]. Qed.

Lemma unjustified g : justification (cm_transaction g) = None -> forall t, ~ split_embeds g t.
Proof. intros E t (b & ? & ? & Eb & _). congruence. Qed.

Lemma source_good seal : run_seal split_embeds source_token seal -> good seal.
Proof. apply plain_good; [by apply unjustified|]. vm_compute. reflexivity. Qed.
Lemma moved_good seal : run_seal split_embeds moved_token seal -> good seal.
Proof. apply plain_good; [by apply unjustified|]. vm_compute. reflexivity. Qed.
Lemma burned_good seal : run_seal split_embeds burned_token seal -> good seal.
Proof. apply plain_good; [by apply unjustified|]. vm_compute. reflexivity. Qed.

(** The outputs embed the burned token and no other. *)
Lemma embeds_burned b j g t : justification (cm_transaction g) = Some b ->
  SplitMintJustification_from_cbor_with_limits b DecodeLimits_DEFAULT = Ok j ->
  encoded_token_len j = len (Token_to_cbor (j_token j)) -> SplitMintJustification_to_cbor j = b ->
  split_embeds g t -> t = j_token j.
Proof.
  intros Eg Ej El Eb. apply split_embeds_unique with b; [done| |done]. rewrite justification_from_cbor_direct in Ej.
  destruct (justification_direct_inv _ _ _ Ej) as (? & ? & ?). unfold justification_wf; tauto.
Qed.

Definition justification_bytes (t : Token) : result bytes := or_panic (justification (cm_transaction (genesis t))).
Definition justification_1 : SplitMintJustification.
Proof. found (b ← justification_bytes output_1; SplitMintJustification_from_cbor_with_limits b DecodeLimits_DEFAULT). Defined.
Definition justification_2 : SplitMintJustification.
Proof. found (b ← justification_bytes output_2; SplitMintJustification_from_cbor_with_limits b DecodeLimits_DEFAULT). Defined.

Lemma output_good_1 seal : run_seal split_embeds output_1 seal -> good seal.
Proof.
  intros [Hs|(t & Ht & Hr)]%run_seal_inv; [eapply all_good_in; [|exact Hs]; vm_compute; reflexivity|].
  apply (embeds_burned (SplitMintJustification_to_cbor justification_1) justification_1) in Ht as ->; [|vm_compute; reflexivity..].
  apply burned_good. assert (j_token justification_1 = burned_token) as <- by (vm_compute; reflexivity). exact Hr.
Qed.

Lemma output_good_2 seal : run_seal split_embeds output_2 seal -> good seal.
Proof.
  intros [Hs|(t & Ht & Hr)]%run_seal_inv; [eapply all_good_in; [|exact Hs]; vm_compute; reflexivity|].
  apply (embeds_burned (SplitMintJustification_to_cbor justification_2) justification_2) in Ht as ->; [|vm_compute; reflexivity..].
  apply burned_good. assert (j_token justification_2 = burned_token) as <- by (vm_compute; reflexivity). exact Hr.
Qed.
