(* ===== verification/ClientScenario.v ===== *)
(** A consolidation run over the toy instances: the outer proofs of the moved
    token of [Scenario], two trees under two seals, served again from one tree
    under one seal. *)

From Stdlib Require Import ZArith.
From stdpp Require Import strings.
From S2P Require Import Prelude State Bytes Error Cbor Hash Codec Radix BigUint Rsmst ShardId ShardOps Search Ids Bft UcInterner Certificates VerificationError Secp Predicates TrustBase Seal Proofs Transactions TransactionsSpec Verify Topology ViewCodec Assemble Plan Asset Payment Toy Scenario History Flow Batch Executor Consolidate ConsolidateSpec ClientSpec.
Local Open Scope N_scope.

(** ** The server *)

Definition state_leaf (o : OuterProof) : arr 32 * bytes :=
  (sid_bytes (op_state_id o), DataHash.data (calculate_leaf_value (cd_transaction_hash (certification_data (op_proof o))) reference_now)).

(** The first bit in which two keys differ. *)
Definition junction (k k' : arr 32) : N :=
  default 0 (List.find (fun d => negb (Bool.eqb (kbit (val k) d) (kbit (val k') d))) (N.of_nat <$> seq 0 256)).

(** The digest of a tree of two leaves. *)
Definition pair_digest (a b : arr 32 * bytes) : DataHash :=
  let d := junction (fst a) (fst b) in
  let '(l, r) := if kbit (val (fst a)) d then (b, a) else (a, b) in
  smt_digest (SNode d (region (fst a) d) (SLeaf (fst l) (snd l)) (SLeaf (fst r) (snd r))).

(** A proof of the first leaf in the tree of both. *)
Definition pair_proof (uc : UnicityCertificate) (o other : OuterProof) : InclusionProof :=
  let '(a, b) := (state_leaf o, state_leaf other) in {|
    certification_data := certification_data (op_proof o);
    reference_time := reference_time (op_proof o);
    inclusion_certificate := {|
      InclusionCertificate.bitmap := num32 (2 ^ (255 - junction (fst a) (fst b)));
      InclusionCertificate.siblings := [fit 32 (DataHash.data (leaf_digest (fst b) (snd b)))] |};
    unicity_certificate := uc |}.

Definition served_proofs (t : Token) : result (list InclusionProof) :=
  match outer_proofs t with
  | [o; o'] =>
      uc ← sealed (Some (fit 32 (DataHash.data (pair_digest (state_leaf o) (state_leaf o')))));
      Ok [pair_proof uc o o'; pair_proof uc o' o]
  | _ => Panic
  end.

(** The proofs as the transport decodes them. *)
Definition new_bytes : list bytes.
Proof. found (fmap (M := list) to_cbor <$> served_proofs moved_token). Defined.
Definition new_proofs : list InclusionProof.
Proof. found (mapO (fun b => from_cbor (A := InclusionProof) (with_limits b DecodeLimits_DEFAULT)) new_bytes). Defined.

(** It answers the states it knows, in the order of the request; the world is a
    clock that ticks when it is read. *)
Definition served (id : StateId) : outcome BatchFailure BatchProof :=
  p ← ok_or (DecodeFailure "unknown state") (snd <$> List.find (fun e => bool_decide (fst e = id))
    (zip (op_state_id <$> outer_proofs moved_token) new_proofs));
  Ok {| block_number := wrap 64 1; bp_proof := p |}.

Definition answer (req : BatchRequest) : outcome BatchFailure InclusionProofBatch :=
  proofs ← mapO served (state_ids req);
  Ok {| batch_proofs := proofs; partition_view := None |}.

#[export] Instance honest_server : BatchAggregatorClient N unit := {|
  get_inclusion_proofs _ req _ := liftM (answer req);
  get_inclusion_proofs_with_wait _ := default_with_wait (fun req _ => liftM (answer req));
|}.
#[export] Instance ticking : Clock N := {| now_ms n := (wrap 64 n, n + 1) |}.
#[export] Instance never_cancelled : CallerCancel N := {| caller_cancelled n := (false, n) |}.

(** ** The client *)

Definition client : @ProofClient _ unit := {|
  client_topology := single_shard; router := {| shards := [ShardId.root] |}; client_trust_base := network;
  client_registry := Scenario.registry; client_policy := strict_policy; endpoints := [(ShardId.root, tt)];
  endpoint_by_shard := [Some 0%nat]; master_long_poll := None |}.

Lemma client_built : (c ← proof_client_new single_shard [(ShardId.root, tt)] network; Ok (with_verification c Scenario.registry strict_policy)) = Ok client.
Proof. reflexivity. Qed.

Definition options : ConsolidateOptions := {| opt_timeout_ms := DEFAULT_TIMEOUT_MS; opt_master := None |}.

(** ** What it serves is decoded *)

Lemma new_proofs_read : mapO from_cbor ((fun b => with_limits b DecodeLimits_DEFAULT) <$> new_bytes) = Ok new_proofs.
Proof. vm_compute. reflexivity. Qed.

Lemma new_proofs_wf : Forall wf new_proofs.
Proof. exact (mapO_wf _ _ new_proofs_read). Qed.

Lemma answer_decoded req b : answer req = Ok b -> Forall (fun p => wf (bp_proof p)) (batch_proofs b).
Proof.
  unfold answer. intros (ps & Hps & [= <-])%bind_Ok. cbn [batch_proofs]. apply mapO_Forall2 in Hps.
  induction Hps as [|id p ids ps Hp _ IH]; constructor; [|done]. unfold served in Hp.
  apply bind_Ok in Hp as (q & Hq%ok_or_Ok & [= <-]). cbn [bp_proof].
  destruct (List.find _ _) as [[i x]|] eqn:Ef; [|done]. injection Hq as <-. apply List.find_some in Ef as [Hin _].
  pose proof new_proofs_wf as Hw. rewrite Forall_forall in Hw. apply Hw. apply list_elem_of_In, elem_of_zip_r in Hin. exact Hin.
Qed.

#[export] Instance honest_decoded : DecodedBatches N unit.
Proof.
  split.
  - intros c req opts w b w' E. cbn in E. unfold liftM in E. injection E as E _. by eapply answer_decoded.
  - intros c req opts wait w b w' E. cbn in E. apply bindM_Ok in E as (x & w1 & Ex & [= <- _]).
    unfold map_errM, liftM in Ex. injection Ex as Ex%map_err_Ok _. by eapply answer_decoded.
Qed.

(** ** The run *)

Definition consolidated_token (r : outcome ConsolidationError ConsolidationOutcome) : bool :=
  match r with Ok (Consolidated _ s) => negb (sum_already_shared s) | _ => false end.

Lemma consolidation_succeeds : consolidated_token (fst (consolidate client moved_token options 0)) = true.
Proof. vm_compute. reflexivity. Qed.

Definition found_bundle (r : outcome ConsolidationError BundleOutcome) : bool :=
  match r with Ok (BundleConsolidated b) => negb (sum_already_shared (bundle_summary b)) | _ => false end.

Lemma bundle_succeeds : found_bundle (fst (consolidate_proofs client (items_of moved_token) options 0)) = true.
Proof. vm_compute. reflexivity. Qed.

(** * An aggregator *)

(** It certifies what it was last given, in a tree of one leaf, and hands the
    proof over as the transport decodes it. *)
Definition last_submitted : Type := option CertificationData.

Definition proof_of (cd : CertificationData) (id : StateId) : result InclusionProof :=
  let leaf := leaf_digest (sid_bytes id) (DataHash.data (calculate_leaf_value (cd_transaction_hash cd) reference_now)) in
  uc ← sealed (Some (fit 32 (DataHash.data leaf)));
  Ok {| certification_data := cd; reference_time := reference_now;
        inclusion_certificate := {| InclusionCertificate.bitmap := num32 0; InclusionCertificate.siblings := [] |};
        unicity_certificate := uc |}.

#[export] Instance small_aggregator : AggregatorClient last_submitted Error := {|
  submit_certification_request cd _ := (Ok tt, Some cd);
  get_inclusion_proof id w := (cd ← or_panic w; p ← proof_of cd id; from_cbor (with_limits (to_cbor p) DecodeLimits_DEFAULT), w);
|}.

Lemma small_decoded : decoded_proofs (W := last_submitted) (E := Error).
Proof.
  intros id w p w' E. apply (f_equal fst) in E. cbn [get_inclusion_proof small_aggregator fst] in E. apply bind_Ok in E as (cd & _ & E). apply bind_Ok in E as (q & _ & E).
  by eapply from_cbor_wf.
Qed.
