(* ===== verification/HttpScenario.v ===== *)
(** A gateway over the toy instances: HTTP exchanges that end with the proof of
    the source token's mint.

    The host's clock ticks and sleeps exactly; its agent knows three documents.
    JSON is a type of values with a parser for those documents. *)

From Stdlib Require Import ZArith Ascii.
From stdpp Require Import strings.
From S2P Require Import Prelude State Bytes Error Cbor Hash Codec Ids Bft Certificates VerificationError Secp Predicates TrustBase Seal Proofs Transactions Verify Topology ViewCodec Plan Asset Payment Toy Scenario Batch Executor Time HttpDate Transport Rpc Wait HttpClient WaitSpec.
Local Open Scope N_scope.

(** ** JSON, hexadecimal and texts *)

Inductive Json : Type :=
| JNull
| JString (s : string)
| JNumber (n : u64)
| JBool (b : bool)
| JArray (l : list Json)
| JObject (m : list (string * Json)).

Definition hex_digit (n : N) : ascii := ascii_of_N (if n <? 10 then 48 + n else 87 + n).
Definition hex_text (b : bytes) : string :=
  String.string_of_list_ascii (concat ((fun x => [hex_digit (Byte.to_N x / 16); hex_digit (Byte.to_N x mod 16)]) <$> b)).

Definition hex_value (c : ascii) : option N :=
  let n := N_of_ascii c in
  if (48 <=? n) && (n <=? 57) then Some (n - 48) else if (97 <=? n) && (n <=? 102) then Some (n - 87) else None.
Fixpoint hex_bytes (l : list ascii) : option bytes :=
  match l with
  | [] => Some []
  | a :: b :: l => x ← hex_value a; y ← hex_value b; c ← Byte.of_N (16 * x + y); r ← hex_bytes l; Some (c :: r)
  | _ => None
  end.

#[export] Instance toy_hex : HexCodec := {|
  hex_encode := hex_text;
  hex_decode s := match hex_bytes (String.list_ascii_of_string s) with Some b => inr b | None => inl "not hexadecimal"%string end |}.

#[export] Instance toy_texts : Texts := {|
  show_error _ := "error"%string; show_cbor _ := "cbor"%string; show_verification _ := "verification"%string;
  show_view _ := "view"%string; show_http _ := "http"%string; show_utf8 _ := "utf8"%string |}.

(** ** What the gateway certifies *)

Definition the_proof : InclusionProof := cm_inclusion_proof (genesis source_token).
Definition the_data : CertificationData := certification_data the_proof.
Definition the_state : StateId := StateId_derive (cd_lock_script the_data) (cd_source_state_hash the_data).

(** The same state spent otherwise. *)
Definition other_data : CertificationData := {|
  cd_lock_script := cd_lock_script the_data; cd_source_state_hash := cd_source_state_hash the_data;
  cd_transaction_hash := cd_source_state_hash the_data; cd_expires_at := None; unlock_script := [] |}.

Definition certified_hex : string := Eval vm_compute in hex_text (to_cbor (Certified (wrap 64 1) the_proof)).
Definition pending_hex : string := Eval vm_compute in hex_text (to_cbor (NotCertified (wrap 64 1) (unicity_certificate the_proof))).

(** The agent cannot draw random bytes, so ids are ["0"]. *)
Definition reply (result : Json) : Json := JObject [("jsonrpc", JString "2.0"); ("id", JString "0"); ("result", result)]%string.

Definition documents : list (string * Json) := [
  ("certified", reply (JString certified_hex));
  ("pending", reply (JObject [("proof", JString pending_hex); ("status", JString "pending")]));
  ("accepted", reply (JObject [("status", JString "SUCCESS")]))]%string.

#[export] Instance toy_serde : Serde := {|
  Value := Json;
  json_from_str s := match List.find (fun e => bool_decide (fst e = s)) documents with Some e => inr (snd e) | None => inl "not JSON"%string end;
  json_to_string v := match v with
    | JObject m => match List.find (fun e => bool_decide (fst e = "method"%string)) m with Some (_, JString s) => s | _ => ""%string end
    | _ => ""%string
    end;
  as_str v := match v with JString s => Some s | _ => None end;
  as_u64 v := match v with JNumber n => Some n | _ => None end;
  as_i64 v := match v with JNumber n => Some (Z.of_N (val n)) | _ => None end;
  as_bool v := match v with JBool b => Some b | _ => None end;
  as_array v := match v with JArray l => Some l | _ => None end;
  as_object v := match v with JObject m => Some m | _ => None end;
  is_null v := match v with JNull => true | _ => false end;
  is_number v := match v with JNumber _ => true | _ => false end;
  json_string := JString; json_u64 := JNumber; json_bool := JBool; json_array := JArray; json_object := JObject |}.

(** ** The host *)

(** When it is, in nanoseconds, how many requests it has been sent and how many of
    them read a proof. *)
Record Net : Type := { moment : N; calls : N; reads : nat }.

Definition tick (d : N) (w : Net) : Net := {| moment := moment w + d; calls := calls w; reads := reads w |}.
Definition exchange (read : nat) (w : Net) : Net := {| moment := moment w + 5000000; calls := calls w + 1; reads := read + reads w |}.

Definition body_of (s : string) : Response :=
  {| response_status := 200; retry_after_header := None; body_bytes := String.list_byte_of_string s; body_error := None |}.
Definition busy : Response :=
  {| response_status := 503; retry_after_header := Some "2"%string; body_bytes := []; body_error := None |}.

(** Overloaded, then pending, then certified. *)
Definition served (n : nat) : Sent :=
  match n with O => SentStatus busy | S O => SentOk (body_of "pending") | _ => SentOk (body_of "certified") end.

#[export] Instance gateway : Host Net := {|
  ureq_send rq w :=
    if bool_decide (request_body rq = "get_inclusion_proof.v2"%string)
    then (served (reads w), exchange 1 w)
    else (SentOk (body_of "accepted"), exchange 0 w);
  getrandom16 w := (None, w);
  system_now w := (Z.of_N (moment w), w);
  url_parse s := inr {| scheme := "https"; has_host := true; username := ""; has_password := false; has_fragment := false |} |}.

#[export] Instance steady : Monotonic Net := {|
  instant_now w := (moment w, tick 1000 w);
  thread_sleep d w := tick (val d) w;
  INSTANT_MAX := 2 ^ 80 |}.
#[export] Instance undisturbed : CallerCancel Net := {| caller_cancelled w := (false, w) |}.

#[export, refine] Instance steady_laws : MonotonicLaws Net := {| time := moment |}.
Proof. all: intros; cbn; lia. Defined.
#[export, refine] Instance gateway_laws : HostLaws Net := {| asked := calls |}.
Proof.
  all: intros; cbn; try lia. destruct (bool_decide _); cbn; lia.
Defined.

(** ** Runs *)

Definition the_client : HttpAggregatorClient := http_new "https://gateway.example".
Definition one_minute : WaitOptions := WaitOptions_new (from_secs (wrap 64 60)).
Definition day_one : Net := {| moment := 1000; calls := 0; reads := 0 |}.

Definition the_wait := wait_for_inclusion_proof_with_stats the_client the_state one_minute day_one.

(** One overload, one pending answer, then the proof: three requests, and the
    pauses of two seconds and one. *)
Lemma wait_succeeds : is_ok (fst (fst the_wait)) = true /\ val (requests_sent (snd (fst the_wait))) = 3 /\
  3000000000 <= moment (snd the_wait).
Proof. vm_compute. split_and!; [done..|discriminate]. Qed.

Lemma submission_succeeds : is_ok (fst (submit_and_wait_verified the_client the_data (wrap 32 1) network day_one)) = true.
Proof. vm_compute. reflexivity. Qed.

Lemma race_is_lost :
  fst (submit_and_wait_verified the_client other_data (wrap 32 1) network day_one) = Err HttpError.StateCertifiedWithOtherData.
Proof. vm_compute. reflexivity. Qed.
