(* ===== verification/PropertiesVerify.v ===== *)
(** What verification promises, from its entry points: an accepted token is
    certified through all its embedded tokens, whatever the memos held; a
    session answers as a fresh verification would; a sealed certificate is
    accepted for its quorum. Each theorem is followed by a run of it on the
    objects of [Scenario]; the theorems the components' own files state are run
    here too. *)

From S2P Require Import Prelude State Bytes FifoIndex Error Cbor CborSpec CborRead Hash Codec CodecFacts Radix BigUint Rsmst ShardId Ids Bft BftSpec UcInterner Certificates VerificationError Secp Predicates TrustBase Seal SealSpec Proofs Transactions TransactionsSpec Verify VerifySpec TokenSpec SnapshotSpec Asset Payment PaymentSpec Ledger Toy Scenario.
Local Open Scope N_scope.

Section verify.
Context `{Sha2} `{K256}.
Context (embeds : CertifiedMintTransaction -> Token -> Prop) (justified data_ok : meaning).

Lemma accepted_certified registry tb pol token capacity : registry_ok embeds justified data_ok registry -> token_wf token ->
  fst (verify_token_with_memo_capacity token tb registry pol capacity) = Ok tt ->
  (valid_trust_base tb /\ token_certified justified data_ok registry (fuel_of pol) tb pol token) \/
  seal_collision (run_seal embeds token) tb.
Proof.
  intros Hr Hw E. set (K := run_seal embeds token). assert (val capacity <= MAX_CAPACITY) as Hc by exact (accepted_fits _ _ _ _ _ E).
  destruct (verify_with_capacity embeds justified data_ok registry Hr (fun _ => False) K tb pol token capacity Hc Hw (fun _ => id))
    as [E'|?%memo_clash_collision]; [|by right].
  rewrite E' in E. pose proof E as ([] & Hv%map_err_Ok%validate_spec & _)%bind_Ok.
  destruct (token_verdict_sound embeds justified data_ok registry Hr (fun _ => False) K tb pol token Hw (fun _ => id) E)
    as [|?%memo_clash_collision]; [by left|by right].
Qed.

Lemma accepted_genuine registry tb pol token capacity : registry_ok embeds justified data_ok registry -> token_wf token ->
  fst (verify_token_with_memo_capacity token tb registry pol capacity) = Ok tt ->
  genuine tb (token_type (minted token)) token \/ seal_collision (run_seal embeds token) tb.
Proof.
  intros Hr Hw E. destruct (accepted_certified _ _ _ _ _ Hr Hw E) as [[_ Hc]|]; [left|by right].
  destruct Hc as (_ & Hn & _ & Hg & _ & _ & Ht). by split.
Qed.

(** C3. A token that verification accepts, with whatever memo capacity, is
    certified: its genesis by the derived minter key and its transfers in order
    are certified by the trust base, its payload and justification are accepted
    by the registered verifiers, and so on for the tokens these embed -- or
    SHA-256 collides on the memo messages of a good and a bad seal that the token
    and the tokens it embeds carry. *)
Theorem verify_token_sound registry tb pol token capacity : registry_ok embeds justified data_ok registry -> token_wf token ->
  fst (verify_token_with_memo_capacity token tb registry pol capacity) = Ok tt ->
  (valid_trust_base tb /\ token_certified justified data_ok registry (fuel_of pol) tb pol token) \/
  seal_collision (run_seal embeds token) tb.
Proof. apply accepted_certified. Qed.

(** The seals of two runs. *)
Definition either_run (t t' : Token) (seal : UnicitySeal) : Prop := run_seal embeds t seal \/ run_seal embeds t' seal.

(** C7. No fork. Two accepted tokens of one id were minted alike and one's transfers
    begin with the other's, so that the longer history extends the shorter; or
    the two show a double spend that the trust base certified: two different
    transactions that spend one state, each with its proof, under two roots (or
    the two proofs hash colliding messages); or SHA-256 collides on the memo
    messages of a good and a bad seal of the two. The encodings of their
    transactions are of lengths that a [usize] holds. *)
Theorem one_history registry tb pol capacity t t' : registry_ok embeds justified data_ok registry ->
  token_wf t -> token_wf t' -> in_memory t -> in_memory t' -> Token_id t = Token_id t' ->
  fst (verify_token_with_memo_capacity t tb registry pol capacity) = Ok tt ->
  fst (verify_token_with_memo_capacity t' tb registry pol capacity) = Ok tt ->
  (minted t = minted t' /\
     ((ct_transaction <$> transactions t) `prefix_of` (ct_transaction <$> transactions t') \/
      (ct_transaction <$> transactions t') `prefix_of` (ct_transaction <$> transactions t)))
  \/ double_spend tb [t; t'] \/ seal_collision (either_run t t') tb.
Proof.
  intros Hr Hw Hw' Hm Hm' Eid E E'.
  apply (accepted_genuine _ _ _ _ _ Hr Hw) in E as [Hg|Hc]; [|right; right; revert Hc; apply seal_collision_mono; by left].
  apply (accepted_genuine _ _ _ _ _ Hr Hw') in E' as [Hg'|Hc]; [|right; right; revert Hc; apply seal_collision_mono; by right].
  destruct (spent_once_or_twice ([t; t'] ≫= spends)) as [Hl|Hl]; [left|right; left].
  2: { apply spent_twice_forked; [|done].
    rewrite Forall_cons, Forall_singleton. by split_and!; [|eapply genuine_proven| |eapply genuine_proven]. }
  rewrite !bind_cons in Hl.
  assert (minted t = minted t') as Em.
  { apply (one_mint tb _ _ t t' _ Hg Hg' Hl); [apply elem_of_app; left; left|apply elem_of_app; right; apply elem_of_app; left; left|exact Eid]. }
  split; [exact Em|]. destruct Hw as (_ & Hk & _), Hw' as (_ & Hk' & _). unfold minted, genesis_result_state_hash in *. rewrite <- Em in Hk'.
  apply (linked_comparable _ _ _ _ _ Hl Hk Hk'); intros c Hc; apply elem_of_app;
    [left|right; apply elem_of_app; left]; right; apply list_elem_of_fmap; by exists c.
Qed.

(** C12. The memos do not change an answer: verifying in a session that earlier
    verifications under this trust base have filled gives the verdict of a fresh
    verification with any memo capacity that fits, and leaves a session that does
    so again -- or SHA-256 collides on the memo messages of a good and a bad seal
    among those the session is used with. *)
Theorem session_answers_as_fresh registry contexts K tb pol token capacity s : registry_ok embeds justified data_ok registry ->
  token_wf token -> val capacity <= MAX_CAPACITY -> (forall seal, run_seal embeds token seal -> K seal) ->
  session_of K (remembered ordinary contexts) tb s ->
  (fst (verify_token_in_session token s registry pol) = fst (verify_token_with_memo_capacity token tb registry pol capacity) /\
   session_of K (remembered ordinary contexts) tb (snd (verify_token_in_session token s registry pol))) \/ seal_collision K tb.
Proof.
  intros Hr Hw Hc HK Hs.
  destruct (verify_with_capacity embeds justified data_ok registry Hr contexts K tb pol token capacity Hc Hw HK)
    as [->|?%memo_clash_collision]; [|by right].
  destruct (verify_in_session embeds justified data_ok registry Hr contexts K tb pol token s Hw HK Hs) as [|?%memo_clash_collision];
    [by left|by right].
Qed.

(** Authenticating a seal through the session's memo gives the verdict of
    checking it afresh, hit or miss, and keeps the session's invariant; the
    verdict is that of the checks and of the quorum of the seal itself. *)
Theorem seal_memo_transparent K B tb s seal policy : session_of K B tb s -> K seal -> wf seal ->
  (fst (authenticate_seal_under seal policy s) = seal_verdict tb seal \/ seal_collision K tb) /\
  session_of K B tb (snd (authenticate_seal_under seal policy s)).
Proof.
  intros Hs HK Hw. destruct (authenticate_seal_transparent K B tb s seal policy Hs HK Hw) as [[E|?%memo_clash_collision] Hs'];
    split; auto.
Qed.

(** C34. A trust base is accepted exactly when it is well-formed: version 0 or 1,
    1 to 4096 nodes, a threshold between 1 and their number, distinct node ids of 1
    to 256 bytes, distinct keys and positive stakes; and [try_new] keeps its
    arguments. *)
Theorem try_new_spec version network epoch start nodes threshold tb :
  try_new version network epoch start nodes threshold = Ok tb <->
  tb = {| tb_version := version; tb_network_id := network; tb_epoch := epoch; epoch_start_round := start;
          root_nodes := nodes; quorum_threshold := threshold |} /\ valid_trust_base tb.
Proof.
  unfold try_new. split.
  - intros ([] & Hv & [= <-])%bind_Ok. split; [done|]. by apply validate_spec.
  - intros [-> Hv]. by rewrite (proj2 (validate_spec _) Hv), bind_Ok_l.
Qed.

(** C31. A non-inclusion verification that answers, in a session of this trust
    base, answers for an authenticated certificate that satisfies the verifier's
    context, for the state the proof was requested for, by the checks of the
    proof alone -- when no certificate is remembered under the context's policy
    digest by the ordinary check; or SHA-256 collides on the memo messages of a
    good and a bad seal of the session, or on those of this context and another
    one that the session is used with. *)
Theorem non_inclusion_sound_in_session lax contexts K tb s proof target context out :
  wf (ni_unicity_certificate proof) -> K (unicity_seal (ni_unicity_certificate proof)) -> contexts context -> ~ lax (digest_of context) ->
  session_of K (remembered lax contexts) tb s ->
  fst (verify_non_inclusion_in proof target context s) = Ok out ->
  (valid_trust_base tb /\ strictly_authenticated tb context (ni_unicity_certificate proof) /\
   (forall requested, requested_state_id proof = Some requested -> requested = target) /\
   non_inclusion_checks proof target = Ok out) \/ seal_collision K tb \/ context_collision contexts context.
Proof.
  intros Hw HK HC Hl Hs E.
  destruct (answers_non_inclusion lax contexts K tb proof target context HK HC Hw Hl s Hs) as [[E' _]|[?%memo_clash_collision|?%context_clash_collision]]; auto.
  left. apply non_inclusion_verdict_sound. congruence.
Qed.
End verify.

(** * The theorems on the objects of [Scenario] *)

Abbreviation justified := (split_accepted decode_assets).
Abbreviation data_ok := (payment_authorized decode_assets allow_issuance).

Lemma scenario_registry_ok : registry_ok split_embeds justified data_ok registry.
Proof. exact (payment_registry_ok decode_assets coin allow_issuance registry registry_built). Qed.

(** The output of a split: a token that embeds another. *)
Lemma verify_token_sound_witness :
  valid_trust_base network /\ token_certified justified data_ok registry (fuel_of strict_policy) network strict_policy output_1.
Proof.
  destruct (verify_token_sound split_embeds justified data_ok registry network strict_policy output_1 (wrap 64 2)) as [Hc|Hc].
  - exact scenario_registry_ok.
  - exact (read_wf _ _ output_read_1).
  - vm_compute. reflexivity.
  - exact Hc.
  - destruct (no_good_collision _ output_good_1 Hc).
Defined.

Lemma moved_spent_once : spent_once ([source_token; moved_token] ≫= spends).
Proof.
  set (l := _ ≫= _). assert (Forall (fun s => Forall (fun s' => spent_state s = spent_state s' -> s = s') l) l) as Hf by by_decide.
  rewrite Forall_forall in Hf. intros s s' Hs Hs'. specialize (Hf s Hs). rewrite Forall_forall in Hf. by apply Hf.
Qed.

Lemma one_history_witness :
  minted source_token = minted moved_token /\
  ((ct_transaction <$> transactions source_token) `prefix_of` (ct_transaction <$> transactions moved_token) \/
   (ct_transaction <$> transactions moved_token) `prefix_of` (ct_transaction <$> transactions source_token)).
Proof.
  destruct (one_history split_embeds justified data_ok registry network strict_policy (wrap 64 2) source_token moved_token) as [Hc|[Hc|Hc]].
  - exact scenario_registry_ok.
  - exact (read_wf _ _ source_read).
  - exact (read_wf _ _ moved_read).
  - by_decide.
  - by_decide.
  - vm_compute. reflexivity.
  - vm_compute. reflexivity.
  - vm_compute. reflexivity.
  - exact Hc.
  - destruct (once_no_double network _ moved_spent_once Hc).
  - destruct (no_good_collision (either_run split_embeds source_token moved_token)); [|exact Hc].
    intros seal [Hr|Hr]; [exact (source_good seal Hr)|exact (moved_good seal Hr)].
Defined.

(** A session that has verified the source token: its memos are in use. *)
Definition used : SealSession := snd (verify_token_in_session source_token (new_session network) registry strict_policy).

Lemma used_session contexts : session_of good (remembered ordinary contexts) network used.
Proof.
  destruct (verify_in_session split_embeds justified data_ok registry scenario_registry_ok contexts good network strict_policy source_token
    (new_session network) (read_wf _ _ source_read) source_good (session_ok_new _ _ network)) as [[_ Hs]|Hc%memo_clash_collision]; [exact Hs|].
  by destruct (no_good_collision good (fun _ => id)).
Qed.

Lemma used_filled : (length (order (memo used)), length (order (bodies used))) = (1, 1)%nat.
Proof. vm_compute. reflexivity. Qed.

Lemma session_answers_as_fresh_witness :
  fst (verify_token_in_session moved_token used registry strict_policy)
   = fst (verify_token_with_memo_capacity moved_token network registry strict_policy (wrap 64 3)) /\
  session_of good (remembered ordinary (fun _ => False)) network (snd (verify_token_in_session moved_token used registry strict_policy)).
Proof.
  destruct (session_answers_as_fresh split_embeds justified data_ok registry (fun _ => False) good network strict_policy moved_token (wrap 64 3) used)
    as [Hc|Hc].
  - exact scenario_registry_ok.
  - exact (read_wf _ _ moved_read).
  - vm_compute. discriminate.
  - exact moved_good.
  - apply used_session.
  - exact Hc.
  - destruct (no_good_collision good (fun _ => id) Hc).
Defined.

Definition source_certificate : UnicityCertificate := unicity_certificate (cm_inclusion_proof (genesis source_token)).

Lemma source_certificate_wf : wf source_certificate.
Proof. exact (proj2 (proj2 (proj2 (proj1 (read_wf _ _ source_read))))). Qed.

Lemma source_seal_good : good (unicity_seal source_certificate).
Proof. vm_compute. reflexivity. Qed.

Lemma seal_memo_transparent_witness :
  (fst (authenticate_seal_under (unicity_seal source_certificate) zero_policy used)
     = seal_verdict network (unicity_seal source_certificate) \/ seal_collision good network) /\
  session_of good (remembered ordinary (fun _ => False)) network
    (snd (authenticate_seal_under (unicity_seal source_certificate) zero_policy used)).
Proof.
  apply (seal_memo_transparent good (remembered ordinary (fun _ => False)) network).
  - apply used_session.
  - exact source_seal_good.
  - exact source_certificate_wf.
Defined.

Lemma non_inclusion_sound_in_session_witness :
  valid_trust_base network /\
  strictly_authenticated network NonInclusionContext_new (ni_unicity_certificate absence_proof) /\
  (forall requested, requested_state_id absence_proof = Some requested -> requested = fresh_state) /\
  non_inclusion_checks absence_proof fresh_state = Ok absent_outcome.
Proof.
  destruct (non_inclusion_sound_in_session ordinary (eq NonInclusionContext_new) good network used absence_proof fresh_state
    NonInclusionContext_new absent_outcome) as [Hc|[Hc|Hc]].
  - cbn. split; [|vm_compute; done]. repeat split.
  - vm_compute. reflexivity.
  - reflexivity.
  - intros E. apply (f_equal val) in E. vm_compute in E. discriminate.
  - apply used_session.
  - vm_compute. reflexivity.
  - exact Hc.
  - destruct (no_good_collision good (fun _ => id) Hc).
  - destruct Hc as (other & Eo & Hne & _). destruct Hne. symmetry. exact Eo.
Defined.

(** A capacity that fits, one that no [Vec] can hold, and one that wraps. *)
Definition verdict_with (capacity : usize) : verdict unit :=
  fst (verify_token_with_memo_capacity output_1 network registry strict_policy capacity).

Lemma verify_token_total_witness :
  no_panic (verdict_with (wrap 64 4)) /\ verdict_with (wrap 64 (2 ^ 60)) = Panic /\ verdict_with (wrap 64 (2 ^ 64 - 1)) <> Ok tt.
Proof.
  assert (registry_returns registry) as Hr
    by (apply (payment_registry_returns decode_assets coin allow_issuance); [apply from_cbor_bytes_no_panic|done|exact registry_built]).
  split; [|split]; unfold verdict_with.
  - destruct (verify_token_total registry Hr network strict_policy output_1 (wrap 64 4)) as (Hc & _ & _). apply Hc. by vm_compute.
  - destruct (verify_token_total registry Hr network strict_policy output_1 (wrap 64 (2 ^ 60))) as (_ & Hc & _). apply Hc. by vm_compute.
  - destruct (verify_token_total registry Hr network strict_policy output_1 (wrap 64 (2 ^ 64 - 1))) as (_ & _ & Hc). apply Hc. by vm_compute.
Defined.

(** The source's mint, proved again: the same root under a seal of the next round. *)
Definition resealed : result UnicityCertificate :=
  let again := {| seal_network_id := NetworkId.LOCAL; root_chain_round_number := wrap 64 2; seal_epoch := wrap 64 0;
    seal_timestamp := wrap 64 1700000001; seal_previous_hash := None; seal_hash := seal_hash (unicity_seal source_certificate); signatures := [] |} in
  let under sigs := {| input_record := input_record source_certificate; technical_record_hash := technical_record_hash source_certificate;
    shard_configuration_hash := shard_configuration_hash source_certificate; shard_tree_certificate := shard_tree_certificate source_certificate;
    unicity_tree_certificate := unicity_tree_certificate source_certificate;
    unicity_seal := {| seal_network_id := seal_network_id again; root_chain_round_number := root_chain_round_number again;
      seal_epoch := seal_epoch again; seal_timestamp := seal_timestamp again; seal_previous_hash := seal_previous_hash again;
      seal_hash := seal_hash again; signatures := sigs |} |} in
  a ← sign (signer_of U1) (calculate_hash again);
  b ← sign (signer_of U2) (calculate_hash again);
  Ok (under [(name_a, Signature.encode a); (name_b, Signature.encode b)]).

Definition resealed_certificate : UnicityCertificate.
Proof. found resealed. Defined.

Definition source_proof : InclusionProof := cm_inclusion_proof (genesis source_token).
Definition source_proof_again : InclusionProof := {|
  certification_data := certification_data source_proof; reference_time := reference_time source_proof;
  inclusion_certificate := inclusion_certificate source_proof; unicity_certificate := resealed_certificate |}.

Lemma certified_once_witness : let tx := cm_transaction (genesis source_token) in
  source_proof <> source_proof_again /\
  ((transaction_to_cbor tx = transaction_to_cbor tx /\ reference_now = reference_now)
   \/ Collision (.∈ spend_messages source_proof source_proof_again tx tx reference_now reference_now)).
Proof.
  intros tx. split.
  - intros E. apply (f_equal (fun p => val (root_chain_round_number (proof_seal p)))) in E. vm_compute in E. discriminate.
  - apply (certified_once source_proof source_proof_again tx tx reference_now reference_now used (new_session network)); vm_compute; reflexivity.
Defined.

Lemma network_valid : valid_trust_base network.
Proof. apply validate_spec. vm_compute. reflexivity. Qed.

Lemma quorum_met_spec_witness :
  quorum_met network (unicity_seal source_certificate) = Ok tt <->
  2 <= len (filter (fun e => valid_entry network (DataHash.data (calculate_hash (unicity_seal source_certificate))) e = true)
        (signatures (unicity_seal source_certificate))).
Proof.
  apply (quorum_met_spec network (unicity_seal source_certificate)).
  - exact network_valid.
  - apply (bool_decide_unpack _). vm_compute. exact I.
Defined.

Lemma computed_seal_hash_binding_witness : exists h, computed_seal_hash source_certificate = Ok h /\
  computed_seal_hash resealed_certificate = Ok h /\ source_certificate <> resealed_certificate /\
  ((input_record source_certificate = input_record resealed_certificate /\
    technical_record_hash source_certificate = technical_record_hash resealed_certificate /\
    shard_configuration_hash source_certificate = shard_configuration_hash resealed_certificate) \/ Collision (fun _ => True)).
Proof.
  destruct (computed_seal_hash source_certificate) as [h|e|] eqn:E; [|exfalso; vm_compute in E; discriminate..].
  assert (forall uc, uc_hashed (fun _ => True) uc) as Hu by (intros uc; split; [done|]; split; [by split|]; intros r _; by repeat split).
  assert (small source_certificate) as Hs by (vm_compute; reflexivity).
  assert (small resealed_certificate) as Hs' by (vm_compute; reflexivity).
  assert (computed_seal_hash resealed_certificate = Ok h) as E' by exact E.
  exists h. split; [reflexivity|]. split; [exact E'|]. split.
  { intros Eq. apply (f_equal (fun c => val (root_chain_round_number (unicity_seal c)))) in Eq. vm_compute in Eq. discriminate. }
  exact (computed_seal_hash_binding (fun _ => True) source_certificate resealed_certificate h (Hu _) (Hu _) Hs Hs' eq_refl eq_refl E E').
Defined.

(** With a hash that collides everywhere one state is both in and out of one
    tree, and the collision is found. *)
Definition flat_absence : NonInclusionProof :=
  {| certificate := certificate absence_proof; ni_unicity_certificate := certificate_with (Some (num32 0)) (seal_with [] []);
     requested_state_id := None |}.
Definition flat_inclusion : InclusionProof :=
  {| certification_data := {| cd_lock_script := owner U1; cd_source_state_hash := @sha256 flat_sha2 []; cd_transaction_hash := @sha256 flat_sha2 [];
       cd_expires_at := None; unlock_script := [] |};
     reference_time := reference_now;
     inclusion_certificate := {| InclusionCertificate.bitmap := num32 0; InclusionCertificate.siblings := [] |};
     unicity_certificate := certificate_with (Some (num32 0)) (seal_with [] []) |}.
Definition flat_state : StateId := @StateId_derive flat_sha2 (owner U1) (@sha256 flat_sha2 []).
Definition flat_outcome : NonInclusionOutcome.
Proof. found (@non_inclusion_checks flat_sha2 flat_absence flat_state). Defined.

Lemma absent_excludes_inclusion_witness :
  @Collision flat_sha2 (.∈ @non_inclusion_messages flat_sha2 flat_absence flat_state
    ++ @inclusion_messages flat_sha2 flat_inclusion flat_state reference_now).
Proof.
  apply (@absent_excludes_inclusion flat_sha2 flat_absence flat_state (outcome_snapshot flat_outcome) flat_state flat_inclusion reference_now);
    vm_compute; reflexivity.
Defined.

Definition absent_root : arr 32.
Proof. found (ok_or NonInclusionCertificateInvalid (state_root (outcome_snapshot absent_outcome))). Defined.

Lemma outcome_truth_witness :
  (forall value, (sid_bytes fresh_state, value) ∉ smt_leaves snapshot_tree)
  \/ Collision (.∈ NonInclusionFacts.authenticated_messages (certificate absence_proof) fresh_state snapshot_tree).
Proof.
  apply (outcome_truth absence_proof fresh_state absent_outcome snapshot_tree absent_root).
  - vm_compute. reflexivity.
  - exact I.
  - vm_compute. reflexivity.
  - apply state_digest_Some, DataHash_new_Ok. vm_compute. split; reflexivity.
Defined.

Definition moved : CertifiedTransferTransaction.
Proof. found (or_panic (E := Error) (transactions moved_token !! 0%nat)). Defined.

Lemma latest_state_extends_witness : token_wf moved_token <->
  (source_state_hash (ct_transaction moved), lock_script (ct_transaction moved)) =
    latest_state {| genesis := genesis moved_token; transactions := [] |} /\ wf (ct_inclusion_proof moved).
Proof.
  apply (latest_state_extends (genesis moved_token) [] moved). destruct (read_wf _ _ moved_read) as (Hg & _). by split_and!.
Defined.

Lemma mint_derived_witness : let m := cm_transaction (genesis source_token) in
  token_id m = TokenId_derive (network_id m) (salt m) /\
  source_state m = MintTransactionState_derive (token_id m) /\
  exists pk, Minter.public_key (token_id m) = Ok pk /\ mint_lock_script m = from_predicate {| sp_public_key := pk |}.
Proof. exact (mint_derived (cm_transaction (genesis source_token)) (proj1 (proj1 (read_wf _ _ source_read)))). Defined.

(** A signature the minter made, and the key it recovers to. *)
Definition a_digest : bytes := replicate 32 (n2b 9).
Definition a_signature : Signature.
Proof.
  found ('(sig, rid) ← or_panic (E := Error) (@sign_prehash_recoverable toy_k256 U3 a_digest);
         Signature.new (@K256Signature_to_bytes toy_k256 sig) rid).
Defined.

Lemma recover_sound_witness : exists sig z R, Signature.canonical a_signature = Ok sig /\ val z = a_digest /\
  lift_x (fst (split_scalars sig)) (b2n (recovery (val a_signature))) = Some R /\
  smul (snd (split_scalars sig)) R = padd (smul (fst (split_scalars sig)) (F3 : Point)) (smul (reduce_bytes z) generator).
Proof. apply (recover_sound a_signature a_digest (F3 : @Point toy_k256)). vm_compute. reflexivity. Defined.

Lemma sign_unlock_verifies_witness : exists script pk,
  sign_signature_unlock (signer_of U2) (sha256 []) (sha256 [n2b 1]) = Ok script /\ public_key (signer_of U2) = Ok pk /\
  verify_signature_unlock pk (sha256 []) (sha256 [n2b 1]) script = true.
Proof. exact (sign_unlock_verifies (signer_of U2) (sha256 []) (sha256 [n2b 1])). Defined.

Definition a_script : bytes.
Proof. found (sign_signature_unlock (signer_of U2) (sha256 []) (sha256 [n2b 1])). Defined.

Lemma unlock_script_unique_witness : a_script = a_script.
Proof.
  apply (unlock_script_unique (node_key U2) (sha256 []) (sha256 [n2b 1])); [vm_compute; reflexivity..|reflexivity].
Defined.
