(* ===== verification/PropertiesPayment.v ===== *)
(** What the payment layer promises: a verified payment token is a certified
    issuance or an output of a certified burn; the outputs of one burn hold no
    more than was burned; the split a client builds is one its verifier accepts. *)

From S2P Require Import Prelude State Bytes Error Cbor CborSpec CborRead Hash Codec CodecFacts Radix BigUint Rsmst RsmstSpec ShardId Ids Bft UcInterner Certificates VerificationError Secp Predicates TrustBase Seal SealSpec Proofs Transactions TransactionsSpec Verify VerifySpec TokenSpec Asset Payment PaymentSpec SplitSpec Ledger Toy Scenario PropertiesVerify.
Local Open Scope N_scope.

Section payment.
Context `{Sha2} `{K256} `{BigUintLaws}.

(** C4. With the registry of the two payment verifiers, an accepted token is
    certified, and its genesis either carries no justification or is an output of
    a split: it embeds a token, itself accepted and certified, that ends in a burn
    committing to a manifest, under whose roots every output asset is proved with
    the sum of the burned token's asset. A payload decodes and is authorised -- or
    SHA-256 collides on the memo messages of a good and a bad seal that the token
    and the tokens it embeds carry. *)
Theorem payment_token_sound decode type authorize registry tb pol capacity token :
  decoder_ok decode -> payment_registry decode type authorize = Ok registry -> token_wf token ->
  fst (verify_token_with_memo_capacity token tb registry pol capacity) = Ok tt ->
  let certified_below := token_certified (split_accepted decode) (payment_authorized decode authorize) registry (N.to_nat (val (max_embedded_token_depth (limits pol)))) tb pol in
  let g := genesis token in
  (certified tb (cm_inclusion_proof g) (cm_transaction g) (reference_time (cm_inclusion_proof g)) /\
   Forall (fun t => certified tb (ct_inclusion_proof t) (ct_transaction t) (reference_time (ct_inclusion_proof t))) (transactions token) /\
   (justification (cm_transaction g) = None \/
    exists burned outputs source manifest proofs, certified_below burned /\ token_wf burned /\
      split_evidence decode (cm_transaction g) burned outputs source manifest proofs) /\
   (token_type (cm_transaction g) = type -> data (cm_transaction g) = None \/
    exists c, payload_decodes decode (cm_transaction g) c /\ authorize g c = Ok tt))
  \/ seal_collision (run_seal split_embeds token) tb.
Proof.
  intros Hd Er Hw E below g. destruct (accepted_certified _ _ _ _ _ _ _ _ (payment_registry_ok _ _ _ _ Er) Hw E) as [[_ Hc]|]; [left|by right].
  destruct Hc as (_ & _ & _ & Hc & Hdata & Hj & Ht). split_and!; [done|done|done|].
  intros Hty. destruct Hdata as [|[(c & ? & ?)|[_ Hn]]]; [by left|right; by exists c|].
  injection Er as <-. unfold map_get in Hn. cbn in Hn. fold g in Hn. rewrite Hty in Hn. by rewrite decide_True in Hn.
Qed.

(** The seals of several runs. *)
Definition any_run (tokens : list Token) (seal : UnicitySeal) : Prop := exists t, t ∈ tokens /\ run_seal split_embeds t seal.

(** C1. No inflation. Accepted payment tokens descend by splits from authorised
    issuances, every token on the way certified. When no two of them share an id
    and none is an ancestor of another, they hold together no more of any asset
    than was issued, each token id issued once; or their histories show a double
    spend that the trust base certified, two different transactions that spend one
    state, each with its proof, under two roots (or the two proofs hash colliding
    messages); or messages that the checks of their split proofs hash collide. The
    encodings of the transactions are of lengths that a [usize] holds. Or SHA-256 collides on the memo messages of a good
    and a bad seal that the tokens and those they embed carry. *)
Theorem no_inflation decode type authorize registry tb pol capacity tokens :
  decoder_ok decode -> payment_registry decode type authorize = Ok registry ->
  Forall (fun t => token_wf t /\ token_type (minted t) = type /\ is_Some (data (minted t)) /\
    fst (verify_token_with_memo_capacity t tb registry pol capacity) = Ok tt) tokens ->
  (exists D, holder <$> D = tokens /\ Forall (descent_ok decode tb type) D /\ Forall (fun d => issued decode authorize (origin d)) D /\
     forall id, NoDup (Token_id <$> tokens) -> (forall t d, t ∈ tokens -> d ∈ D -> Token_id t ∉ Token_id <$> ancestors d) ->
       Forall in_memory (D ≫= stages) ->
       (NoDup (token_id <$> issuances D) /\ sum_over (fun t => held decode id (minted t)) tokens <= sum_over (held decode id) (issuances D))
       \/ double_spend tb (D ≫= stages) \/ Collision (claim_messages (split_claims D)))
  \/ seal_collision (any_run tokens) tb.
Proof.
  intros Hd Er Hts. assert (Forall (fun t => exists d, descent_ok decode tb type d /\ holder d = t /\ issued decode authorize (origin d)) tokens
    \/ seal_collision (any_run tokens) tb) as [Hf|]; [|left|by right].
  - apply Forall_or, Forall_forall. intros t Ht. rewrite Forall_forall in Hts. destruct (Hts t Ht) as (Hw & Hty & Hdt & E).
    destruct (accepted_certified _ _ _ _ _ _ _ _ (payment_registry_ok _ _ _ _ Er) Hw E) as [[_ Hc]|Hc];
      [left; by eapply token_descends|right; revert Hc; apply seal_collision_mono; intros seal Hs; by exists t].
  - destruct (choose_Forall2 (fun t d => descent_ok decode tb type d /\ holder d = t /\ issued decode authorize (origin d)) tokens) as [D HD].
    { by apply Forall_forall. }
    assert (holder <$> D = tokens /\ Forall (fun d => descent_ok decode tb type d /\ issued decode authorize (origin d)) D) as [<- [Hok Hi]%Forall_and].
    { clear -HD. induction HD as [|t d ts D (? & <- & ?) _ [<- IH]]; [by split|]. split; [done|by constructor]. }
    exists D. split_and!; [done..|]. intros id Hnd Ha Hm. rewrite <- list_fmap_compose in Hnd.
    destruct (frontier_no_inflation decode type tb D (claim_messages (split_claims D)) id Hd Hok Hnd) as [[Hn Hs]|[Hl|]];
      [|apply split_claims_hashed| | |by right; right].
    + intros d d' Hin Hin'. apply Ha; [apply list_elem_of_fmap; by exists d|done].
    + left. split; [done|]. unfold sum_over in *. by rewrite <- list_fmap_compose.
    + right. left. by eapply double_spent_stages.
Qed.

(** [SplitManifest::from_cbor_bytes] accepts exactly the encodings of the
    manifests of 1 to 256 roots that fit its limits. *)
Theorem manifest_bytes b limits m : manifest_from_cbor_bytes b limits = Ok m <->
  manifest_wf m /\ manifest_to_cbor m = b /\ accepts limits b.
Proof.
  split.
  - intros E. pose proof E as [Hw Hb]%manifest_inv. split_and!; [done..|].
    by apply bind_Ok in E as ([] & ?%lift_Ok & _).
  - intros (Hw & <- & Ha). by apply manifest_round_trip.
Qed.

(** A split justification is read back from its bytes whenever they fit the
    limits; whatever is read holds a linked token and 1 to 256 well-formed
    proofs; no input makes the decoder panic. *)
Theorem justification_codec limits :
  (forall j, justification_wf j -> accepts limits (SplitMintJustification_to_cbor j) ->
    SplitMintJustification_from_cbor_with_limits (SplitMintJustification_to_cbor j) limits = Ok j) /\
  (forall b j, SplitMintJustification_from_cbor_with_limits b limits = Ok j ->
    token_wf (j_token j) /\ 0 < len (j_proofs j) <= MAX_PAYMENT_ASSETS /\ Forall wf (j_proofs j)) /\
  forall b, no_panic (SplitMintJustification_from_cbor_with_limits b limits).
Proof.
  assert (forall b, SplitMintJustification_from_cbor_with_limits b limits = justification_direct b limits) as Ed.
  { intros b. apply (agrees_justification b limits UcInterner.new), remembers_new. }
  split_and!.
  - intros j. apply justification_round_trip.
  - intros b j. rewrite Ed. apply justification_direct_inv.
  - intros b. rewrite Ed. apply justification_no_panic.
Qed.
End payment.

(** * The theorems on the objects of [Scenario] *)

Lemma payment_token_sound_witness :
  let below := token_certified (split_accepted decode_assets) (payment_authorized decode_assets allow_issuance) registry 32 network strict_policy in
  let g := genesis output_2 in
  certified network (cm_inclusion_proof g) (cm_transaction g) (reference_time (cm_inclusion_proof g)) /\
  Forall (fun t => certified network (ct_inclusion_proof t) (ct_transaction t) (reference_time (ct_inclusion_proof t))) (transactions output_2) /\
  (justification (cm_transaction g) = None \/
   exists burned outputs source manifest proofs, below burned /\ token_wf burned /\
     split_evidence decode_assets (cm_transaction g) burned outputs source manifest proofs) /\
  (token_type (cm_transaction g) = coin -> data (cm_transaction g) = None \/
   exists c, payload_decodes decode_assets (cm_transaction g) c /\ allow_issuance g c = Ok tt).
Proof.
  intros below g.
  destruct (payment_token_sound decode_assets coin allow_issuance registry network strict_policy (wrap 64 2) output_2) as [Hc|Hc].
  - exact default_decoder_ok.
  - exact registry_built.
  - exact (read_wf _ _ output_read_2).
  - vm_compute. reflexivity.
  - exact Hc.
  - destruct (no_good_collision _ output_good_2 Hc).
Defined.

(** The two outputs, as accepted: each with its burned token and its proofs. *)
Definition accepted_1 : accepted_output :=
  {| o_mint := cm_transaction (genesis output_1); o_burned := burned_token; o_assets := share_1; o_proofs := st_proofs split_token_1 |}.
Definition accepted_2 : accepted_output :=
  {| o_mint := cm_transaction (genesis output_2); o_burned := burned_token; o_assets := share_2; o_proofs := st_proofs split_token_2 |}.

Definition justification_with (proofs : list RsmstInclusionProof) : SplitMintJustification :=
  {| j_token := burned_token; j_proofs := proofs; encoded_token_len := 0 |}.

(** The outputs as the verifier checks them. *)
Definition checked_1 : split_output := {|
  so_mint := cm_transaction (genesis output_1); so_assets := share_1; so_justification := justification_with (st_proofs split_token_1) |}.
Definition checked_2 : split_output := {|
  so_mint := cm_transaction (genesis output_2); so_assets := share_2; so_justification := justification_with (st_proofs split_token_2) |}.

Lemma value_conserved_witness :
  foldr N.add 0 ((fun o => amount (asset_id (holding gold 10)) (so_assets o)) <$> [checked_1; checked_2]) <= value (asset_value (holding gold 10))
  \/ Collision (claim_messages (.∈ omap (fun o => claim_of (Token_id burned_token) (asset_id (holding gold 10)) (output_of o)) [checked_1; checked_2])).
Proof.
  apply (value_conserved decode_assets DecodeLimits_DEFAULT burned_token treasure (holding gold 10) [checked_1; checked_2]).
  - exact default_decoder_ok.
  - exists (to_cbor treasure). vm_compute. split; reflexivity.
  - left.
  - repeat (apply Forall_cons; split); [| |by apply Forall_nil].
    + split; [split; reflexivity|]. split; [exists (to_cbor share_1); vm_compute; split; reflexivity|]. split; [by_decide|]. vm_compute. reflexivity.
    + split; [split; reflexivity|]. split; [exists (to_cbor share_2); vm_compute; split; reflexivity|]. split; [by_decide|]. vm_compute. reflexivity.
  - apply (bool_decide_unpack _). vm_compute. exact I.
Defined.

Lemma split_built : build_split source_token treasure decode_assets requests (Some (num32 77)) later (Err (Crypto "no RNG")) = Ok the_split.
Proof. vm_compute. reflexivity. Qed.

Definition burn_certified : CertifiedTransferTransaction.
Proof. found (or_panic (E := Error) (last (transactions burned_token))). Defined.

Lemma burn_certified_by : burned_by source_token the_split burned_token.
Proof.
  split; [vm_compute; reflexivity|]. exists (ct_inclusion_proof burn_certified).
  transitivity (Some burn_certified); [vm_compute; reflexivity|].
  assert (ct_transaction burn_certified = burn_transaction (burn the_split)) as <- by by_decide.
  by destruct burn_certified.
Qed.

Lemma build_split_accepted_witness :
  split_checks decode_assets DecodeLimits_DEFAULT (cm_transaction (genesis output_1)) share_1
    (justification_with (st_proofs split_token_1)) = Ok tt.
Proof.
  apply (build_split_accepted decode_assets source_token treasure requests (Some (num32 77)) later (Err (Crypto "no RNG")) the_split
    split_token_1 (cm_transaction (genesis output_1)) burned_token (justification_with (st_proofs split_token_1))).
  - exact default_decoder_ok.
  - exists (to_cbor treasure). vm_compute. split; reflexivity.
  - exact split_built.
  - left.
  - constructor; by_decide.
  - exact burn_certified_by.
  - reflexivity.
  - reflexivity.
  - intros b Hb. vm_compute in Hb. injection Hb as <-. vm_compute. discriminate.
  - vm_compute. reflexivity.
Defined.

Lemma build_split_total_witness :
  value (asset_value (holding iron 5)) = foldr N.add 0 ((fun st => amount (asset_id (holding iron 5)) (st_assets st)) <$> tokens the_split).
Proof.
  apply (build_split_total decode_assets source_token treasure requests (Some (num32 77)) later (Err (Crypto "no RNG"))).
  - exact split_built.
  - right. left.
Defined.

Lemma commitment_inj_witness :
  let c n := split_output_commitment (Token_id source_token) NetworkId.LOCAL (owner U1) (salted 1) (Token_id output_1) coin n in
  (Token_id source_token = Token_id source_token /\ NetworkId.LOCAL = NetworkId.LOCAL /\ owner U1 = owner U1 /\
   salted 1 = salted 1 /\ Token_id output_1 = Token_id output_1 /\ coin = coin /\ [n2b 1] = [n2b 1]) \/ Collision (fun _ => True).
Proof. apply (commitment_inj (fun _ => True)); [exact I|exact I|vm_compute; reflexivity..]. Defined.

(** The descents of the two outputs from the token that was burned for both. *)
Definition descent_1 : descent :=
  {| origin := burned_token; links := [{| l_output := accepted_1; l_token := output_1 |}]; holder := output_1 |}.
Definition descent_2 : descent :=
  {| origin := burned_token; links := [{| l_output := accepted_2; l_token := output_2 |}]; holder := output_2 |}.

(** They spend no state twice, and share out exactly what was issued. *)
Lemma outputs_spent_once : spent_once ([descent_1; descent_2] ≫= histories).
Proof.
  assert (Forall (fun s => Forall (fun s' => spent_state s = spent_state s' -> s = s') ([descent_1; descent_2] ≫= histories))
    ([descent_1; descent_2] ≫= histories)) as Hf by by_decide.
  rewrite Forall_forall in Hf. intros s s' Hs Hs'. specialize (Hf s Hs). rewrite Forall_forall in Hf. by apply Hf.
Qed.

Lemma outputs_share_out : sum_over (fun t => held decode_assets (asset_id (holding gold 10)) (minted t)) [output_1; output_2] = 10 /\
  sum_over (held decode_assets (asset_id (holding gold 10))) (issuances [descent_1; descent_2]) = 10.
Proof. vm_compute. split; reflexivity. Qed.

Lemma no_inflation_witness : exists D, holder <$> D = [output_1; output_2] /\ Forall (descent_ok decode_assets network coin) D /\
  Forall (fun d => issued decode_assets allow_issuance (origin d)) D /\
  ((forall t d, t ∈ [output_1; output_2] -> d ∈ D -> Token_id t ∉ Token_id <$> ancestors d) -> Forall in_memory (D ≫= stages) ->
   10 <= sum_over (held decode_assets (asset_id (holding gold 10))) (issuances D) \/ double_spend network (D ≫= stages) \/
   Collision (claim_messages (split_claims D))).
Proof.
  destruct (no_inflation decode_assets coin allow_issuance registry network strict_policy (wrap 64 2) [output_1; output_2])
    as [(D & Hh & Hok & Hi & Hb)|Hc]; [exact default_decoder_ok|exact registry_built| | |].
  - repeat (apply Forall_cons; split); [| |by apply Forall_nil].
    + split; [exact (read_wf _ _ output_read_1)|]. vm_compute. split_and!; [done|by eexists|done].
    + split; [exact (read_wf _ _ output_read_2)|]. vm_compute. split_and!; [done|by eexists|done].
  - exists D. split_and!; [done..|]. intros Ha Hm.
    destruct (Hb (asset_id (holding gold 10))) as [[_ Hs]|]; [by_decide|done|done| |by right]. left.
    by rewrite (proj1 outputs_share_out) in Hs.
  - destruct (no_good_collision (any_run [output_1; output_2])); [|exact Hc].
    intros seal (t & Ht & Hr). apply elem_of_cons in Ht as [->|Ht]; [exact (output_good_1 seal Hr)|].
    apply list_elem_of_singleton in Ht as ->. exact (output_good_2 seal Hr).
Defined.
