(* ===== verification/PropertiesWire.v ===== *)
(** The wire: which bytes the CBOR decoder accepts, the round trips of its
    values, of the raw forms and of the trust structures, and that no input makes a
    decoder panic.

    The trees: what an inclusion certificate and a range-sum proof establish of
    the tree under a root, and that the trees a client builds prove every leaf. *)

From S2P Require Import Prelude State Bytes Error Cbor CborSpec CborRead CborMap Hash Codec CodecFacts Radix BigUint ShardId Ids Bft BftCodec FifoIndex UcInterner Certificates VerificationError Proofs Transactions TransactionsSpec Asset Rsmst RsmstSpec RsmstBuild Toy Scenario.
From Stdlib Require Import Permutation.
Local Open Scope N_scope.

(** * CBOR *)

(** C37. What the decoder recognises. [Decoder::finish] accepts a byte string
    exactly when it is one well-formed item -- every head minimal and definite,
    maps of an even number of items -- within all four limits: depth, collection
    sizes, number of items and input bytes. It leaves the order of map keys to
    [Decoder::map], which accepts exactly the maps among these whose own encoded
    keys ascend strictly, so without duplicates. *)
Theorem finish_recognises limits b :
  (Decoder.finish (with_limits b limits) = Ok tt <->
   exists i, b = enc i /\ fits limits 0 i = true /\ count i <= val (max_total_items limits) /\
     len b <= val (max_input_bytes limits)) /\
  ((exists entries, Decoder.map (with_limits b limits) = Ok entries) <->
   exists l, b = enc (IMap l) /\ within limits (IMap l) /\ ascending None ((fun e => enc (fst e)) <$> pairs l)).
Proof.
  split; [rewrite accepts_iff; split; intros (i & -> & Hi); by exists i|]. split.
  - intros [x (l & Eb & Hw & Ha & _)%map_inv]. simpl in Eb, Hw. by exists l.
  - intros (l & -> & Hw & Ha). eexists. by apply map_within.
Qed.

(** The two maps of the decoder's own test: [Decoder::map] rejects them, the one
    for its key order and the other for its duplicate key, [finish] does not. *)
Lemma finish_skips_key_order : let limits := DecodeLimits_DEFAULT in
  let unsorted := n2b <$> [0xa2; 0x02; 0x00; 0x01; 0x00] in let duplicate := n2b <$> [0xa2; 0x01; 0x00; 0x01; 0x01] in
  Decoder.finish (with_limits unsorted limits) = Ok tt /\ Decoder.finish (with_limits duplicate limits) = Ok tt /\
  Decoder.map (with_limits unsorted limits) = Err NonCanonicalMapOrder /\
  Decoder.map (with_limits duplicate limits) = Err DuplicateMapKey.
Proof. vm_compute. done. Qed.

(** The format is prefix-free: no accepted byte string is a proper prefix of
    another, whatever the limits of the two. *)
Theorem accepted_prefix_free limits limits' b r :
  Decoder.finish (with_limits b limits) = Ok tt -> Decoder.finish (with_limits (b ++ r) limits') = Ok tt -> r = [].
Proof.
  intros (i & -> & Hi & _)%accepts_iff Ha. pose proof (accepts_len _ _ Ha) as Hl.
  apply accepts_iff in Ha as (j & E & Hj & _). rewrite <- (app_nil_r (enc j)) in E.
  by destruct (enc_prefix_free i j r [] (fits_shape _ _ _ Hi) (fits_shape _ _ _ Hj) Hl E).
Qed.

(** A value is read exactly from its encoding, when that fits the limits:
    integers, byte strings, text, booleans, tags and arrays with an expected
    length or none. *)
Theorem values_decode d :
  (forall v, Decoder.uint d = Ok v -> dbytes d = encode_uint v) /\
  (forall b, Decoder.bytes_value d = Ok b -> dbytes d = encode_byte_string b) /\
  (forall s, Decoder.text d = Ok s -> dbytes d = encode_text_string s) /\
  (forall b, Decoder.bool d = Ok b -> dbytes d = encode_bool b) /\
  (forall t d', Decoder.tag d = Ok (t, d') -> dlimits d' = dlimits d /\ dbytes d = encode_tag t (dbytes d')) /\
  (forall n ds, Decoder.array d n = Ok ds ->
    dbytes d = encode_array (dbytes <$> ds) /\ length_ok n (len ds) /\ Forall (fun e => dlimits e = dlimits d) ds).
Proof.
  split_and!; intros *; [apply uint_inv|apply bytes_value_inv|apply text_inv|apply bool_inv| |].
  - intros E. by apply tag_inv in E as (? & ? & _).
  - intros (bs & -> & Hb & _ & Hl & _)%array_inv. rewrite <- list_fmap_compose.
    rewrite (list_fmap_ext _ id) by done. rewrite list_fmap_id. unfold len in *. rewrite length_fmap.
    split_and!; [done|done|]. by apply Forall_fmap, Forall_true.
Qed.

(** What the encoder writes the decoder reads, under any limits it fits. *)
Theorem values_encode limits :
  (forall v, accepts limits (encode_uint v) -> Decoder.uint (with_limits (encode_uint v) limits) = Ok v) /\
  (forall b, accepts limits (encode_byte_string b) -> Decoder.bytes_value (with_limits (encode_byte_string b) limits) = Ok b) /\
  (forall s, accepts limits (encode_text_string s) -> Decoder.text (with_limits (encode_text_string s) limits) = Ok s) /\
  (forall b, Decoder.bool (with_limits (encode_bool b) limits) = Ok b) /\
  (forall t b, is_item b -> accepts limits (encode_tag t b) ->
    Decoder.tag (with_limits (encode_tag t b) limits) = Ok (t, with_limits b limits)) /\
  (forall bs n, Forall is_item bs -> accepts limits (encode_array bs) -> length_ok n (len bs) ->
    Decoder.array (with_limits (encode_array bs) limits) n = Ok ((fun b => with_limits b limits) <$> bs)).
Proof.
  split_and!; intros *; [apply uint_enc|apply bytes_value_enc|apply text_enc|apply bool_enc| |].
  - intros Hb Ha. by apply tag_enc.
  - intros Hb Ha Hl. by apply array_enc.
Qed.

(** [encode_map] puts entries given in any order, duplicates included, into
    the canonical order with the last writer of each key, and [Decoder::map]
    reads exactly those back. *)
Theorem map_round_trip limits es : item_entries es -> accepts limits (encode_map es) ->
  exists kept, Decoder.map (with_limits (encode_map es) limits) =
      Ok ((fun e => (with_limits (fst e) limits, with_limits (snd e) limits)) <$> kept) /\
    ascending None (fst <$> kept) /\ NoDup (fst <$> kept) /\ (forall k, last_of k kept = last_of k es).
Proof.
  intros He Ha. pose proof (kept_ascending es) as Hk. exists (last_writers (sort_by key_lt es)).
  assert (encode_map es = encode_map (last_writers (sort_by key_lt es))) as E.
  { unfold encode_map. by rewrite (sort_ascending _ _ Hk). }
  rewrite E in *. split_and!.
  - apply map_enc; [|done..]. apply Forall_forall. intros e Hin%kept_subset. by apply (proj1 (Forall_forall _ _) He).
  - done.
  - by eapply ascending_bytes_NoDup.
  - intros k. by rewrite last_of_kept, last_of_sort.
Qed.

(** No operation of the decoder panics, on any bytes and under any limits: in
    particular no arithmetic overflows, no slice is out of range and the
    recursion over items ends before its fuel does. *)
Theorem decoder_never_panics d :
  no_panic (Decoder.finish d) /\ no_panic (Decoder.uint d) /\ no_panic (Decoder.bytes_value d) /\
  no_panic (Decoder.text d) /\ no_panic (Decoder.bool d) /\ no_panic (Decoder.tag d) /\ no_panic (Decoder.map d) /\
  (forall n, no_panic (Decoder.array d n)) /\ (forall t, no_panic (Decoder.expect_tag d t)).
Proof. split_and!; intros; auto with outcome. Qed.

(** * Raw forms *)

(** A hash imprint, a shard identifier, an inclusion and a non-inclusion
    certificate and a signature are each read from exactly one byte string: what a
    decoder accepts is what the encoder writes, and the reverse. *)
Theorem raw_forms_bijective `{Sha2} `{Secp.K256} :
  (forall b h, DataHash.from_imprint b = Ok h <-> DataHash.imprint h = b) /\
  (forall b s, ShardId.decode b = Ok s <-> ShardId.encode s = b) /\
  (forall b c, InclusionCertificate.decode b = Ok c <-> InclusionCertificate.encode c = b /\ InclusionCertificate.wf c) /\
  (forall b c, NonInclusionCertificate.decode b = Ok c <->
    NonInclusionCertificate.encode c = b /\ NonInclusionCertificate.wf c) /\
  (forall b s, Secp.Signature.decode b = Ok s <-> Secp.Signature.encode s = b).
Proof.
  split_and!; intros b x; split.
  - apply imprint_from_imprint.
  - intros <-. apply from_imprint_imprint.
  - apply decode_inv.
  - intros <-. apply decode_encode.
  - apply InclusionFacts.inclusion_encode_decode.
  - intros [<- Hw]. by apply InclusionFacts.inclusion_decode_encode.
  - apply NonInclusionFacts.non_inclusion_encode_decode.
  - intros [<- Hw]. by apply NonInclusionFacts.non_inclusion_decode_encode.
  - apply Secp.signature_encode_decode.
  - intros <-. apply Secp.signature_decode_encode.
Qed.

(** A unicity certificate is read back from its bytes; what is read is well
    formed (its seal's signatures in canonical order); and no input panics. *)
Theorem certificate_codec limits :
  (forall uc : UnicityCertificate, wf uc -> accepts limits (to_cbor uc) ->
    from_cbor (with_limits (to_cbor uc) limits) = Ok uc) /\
  (forall d (uc : UnicityCertificate), from_cbor d = Ok uc -> wf uc) /\
  (forall d, no_panic (from_cbor (A := UnicityCertificate) d)) /\
  (forall d (seal : UnicitySeal), from_cbor d = Ok seal ->
    to_cbor seal = dbytes d \/ (signatures seal = [] /\ encode seal false = dbytes d)).
Proof.
  split_and!; intros *; [apply from_to_cbor|apply from_cbor_wf|apply from_cbor_no_panic|apply seal_reencode].
Qed.

(** The answers of an aggregator, certified or not, and the non-inclusion
    proofs are read back from their bytes, and no input panics. *)
Theorem proof_codec limits :
  (forall r : InclusionProofResponse, wf r -> accepts limits (to_cbor r) ->
    from_cbor (with_limits (to_cbor r) limits) = Ok r) /\
  (forall p : NonInclusionProof, wf p -> accepts limits (to_cbor p) ->
    from_cbor (with_limits (to_cbor p) limits) = Ok p) /\
  (forall c : CertificationData, wf c -> accepts limits (to_cbor c) ->
    from_cbor (with_limits (to_cbor c) limits) = Ok c) /\
  (forall d (c : CertificationData), from_cbor d = Ok c -> wf c /\ to_cbor c = dbytes d) /\
  (forall d, no_panic (from_cbor (A := InclusionProofResponse) d) /\ no_panic (from_cbor (A := NonInclusionProof) d)).
Proof.
  split_and!; intros *; [apply from_to_cbor..| |].
  - intros E. split; [by eapply from_cbor_wf|by apply to_from_cbor].
  - split; apply from_cbor_no_panic.
Qed.

(** C36. A token is read back from its bytes when they fit the limits; whatever is
    read is well formed: the mint's identity and lock are the derived ones, and
    every transfer spends the state its predecessor left; no input panics. *)
Theorem token_codec `{Sha2} `{Secp.K256} limits :
  (forall t, token_wf t -> accepts limits (Token_to_cbor t) -> Token_from_cbor_with_limits (Token_to_cbor t) limits = Ok t) /\
  (forall b t, Token_from_cbor_with_limits b limits = Ok t ->
    wf (genesis t) /\ linked (genesis_result_state_hash (genesis t)) (recipient (cm_transaction (genesis t))) (transactions t)) /\
  (forall b, no_panic (Token_from_cbor_with_limits b limits)).
Proof.
  split_and!; intros *; [apply token_round_trip| |apply token_no_panic].
  rewrite Token_from_cbor_direct. intros (Hg & Hl & _)%token_direct_wf. done.
Qed.

(** * Trees *)

Section tree.
Context `{Sha2} `{BigUintLaws}.

(** The wire form of an amount is its minimal big-endian bytes: exactly the
    amounts from 1 to 2^256 - 1 have one, and it is read back as the amount. *)
Theorem amount_bytes b v :
  decode_positive_amount b = Ok v <-> encode_amount v = b /\ 0 < value v < 2 ^ 256.
Proof.
  rewrite <- is_valid_amount_spec. split; [intros [? ?]%decode_amount_inv; done|].
  intros [<- Hv]. by apply encode_decode_amount.
Qed.

(** C38. Building the tree of any entries with distinct keys and valid amounts
    succeeds when their sum is below 2^256 and fails otherwise; the root carries
    the sum, and every entry has a proof that verifies to it. *)
Theorem build_proves_all es t : insert_all es = Ok t -> es <> [] ->
  (total_of es < 2 ^ 256 /\ exists built, build t = Ok built /\ value (root_sum built) = total_of es /\
    forall e, e ∈ es -> exists p, proof built e.1.1 = Some p /\
      verify p e.1.1 e.1.2 e.2 (root_hash built) = Ok (root_sum built)) \/
  (2 ^ 256 <= total_of es /\ build t = Err (OutOfRange "RSMST internal sum exceeds 256 bits")).
Proof.
  intros Ht Hne. destruct (build_spec es t Ht Hne) as [(Hs & n & Hb & Hn & Hp)|]; [left|by right].
  split; [done|]. exists {| Rsmst.root := n |}. split; [done|].
  assert (forall e, e ∈ es -> value (n_sum n) = total_of es /\ exists p, proof {| Rsmst.root := n |} e.1.1 = Some p /\
    verify p e.1.1 e.1.2 e.2 (n_hash n) = Ok (n_sum n)) as Hall by (intros e He; by apply (built_proofs es t n e)).
  split; [|intros e He; apply (Hall e He)].
  destruct es as [|e es]; [done|]. apply (Hall e). left.
Qed.
End tree.

(** * The theorems on concrete values *)

Lemma accepted_prefix_free_witness : [] = @nil byte.
Proof.
  apply (accepted_prefix_free DecodeLimits_DEFAULT DecodeLimits_DEFAULT moved_bytes []); vm_compute; reflexivity.
Defined.

Definition shuffled : list (bytes * bytes) :=
  [(encode_uint (wrap 64 2), encode_bool true); (encode_uint (wrap 64 1), encode_null); (encode_uint (wrap 64 2), encode_bool false)].

Lemma map_round_trip_witness : exists kept, Decoder.map (with_limits (encode_map shuffled) DecodeLimits_DEFAULT) =
    Ok ((fun e => (with_limits (fst e) DecodeLimits_DEFAULT, with_limits (snd e) DecodeLimits_DEFAULT)) <$> kept) /\
  ascending None (fst <$> kept) /\ NoDup (fst <$> kept) /\ (forall k, last_of k kept = last_of k shuffled).
Proof.
  apply map_round_trip.
  - repeat (apply Forall_cons; split; [split; cbn [fst snd]; eauto with items|]). by apply Forall_nil.
  - vm_compute. reflexivity.
Defined.

Definition key_1 : arr 32 := num32 0x11.
Definition key_2 : arr 32 := num32 0x12.
Definition entries_12 : list (arr 32 * arr 32 * @BigUint N_ops) := [(key_1, num32 1, 10); (key_2, num32 2, 5)].
Definition tree_12 : Rsmst.
Proof. found (insert_all entries_12). Defined.

Lemma build_proves_all_witness :
  (total_of entries_12 < 2 ^ 256 /\ exists built, build tree_12 = Ok built /\ value (root_sum built) = total_of entries_12 /\
    forall e, e ∈ entries_12 -> exists p, proof built e.1.1 = Some p /\
      verify p e.1.1 e.1.2 e.2 (root_hash built) = Ok (root_sum built)) \/
  (2 ^ 256 <= total_of entries_12 /\ build tree_12 = Err (OutOfRange "RSMST internal sum exceeds 256 bits")).
Proof. apply build_proves_all; [vm_compute; reflexivity|discriminate]. Defined.

Definition built_12 : BuiltRsmst.
Proof. found (build tree_12). Defined.
Definition proof_1 : RsmstInclusionProof.
Proof. found (or_panic (E := Error) (proof built_12 key_1)). Defined.
Definition proof_2 : RsmstInclusionProof.
Proof. found (or_panic (E := Error) (proof built_12 key_2)). Defined.
Definition claim_1 : claim := {| c_key := key_1; c_data := num32 1; c_value := 10 : @BigUint N_ops; c_path := rev (steps proof_1) |}.
Definition claim_2 : claim := {| c_key := key_2; c_data := num32 2; c_value := 5 : @BigUint N_ops; c_path := rev (steps proof_2) |}.

Lemma claims_hold : holds (root_hash built_12, root_sum built_12) claim_1 /\ holds (root_hash built_12, root_sum built_12) claim_2.
Proof. split; apply verify_path; vm_compute; reflexivity. Qed.

Lemma hashed_all c : claim_hashed (fun _ => True) c.
Proof.
  split; [by intros ? ?|]. intros lh _. induction (c_path c) as [|s l IH]; [done|]. split; [done|].
  intros child _. unfold climb_hashed, node_hashed. by case_match.
Qed.

Lemma root_commits_sum_witness : root_sum built_12 = root_sum built_12 \/ Collision (fun _ => True).
Proof.
  apply (root_commits_sum (fun _ => True) (root_hash built_12) (root_sum built_12) (root_sum built_12) claim_1 claim_2);
    [apply claims_hold|apply claims_hold|apply hashed_all|apply hashed_all].
Defined.

Lemma build_Permutation_witness : build tree_12 = build {| leaves := rev (leaves tree_12) |}.
Proof. apply build_Permutation. apply Permutation_rev. Defined.

(** A tree of two leaves and the certificate of one of them. *)
Definition left_key : StateId := {| sid_bytes := fit 32 [n2b 1] |}.
Definition left_value : DataHash := sha256 [n2b 5].
Definition right_leaf : smt := SLeaf (fit 32 [n2b 129]) (DataHash.data (sha256 [n2b 6])).
Definition two_leaves : smt := SNode 0 (val (num32 0)) (SLeaf (sid_bytes left_key) (DataHash.data left_value)) right_leaf.
Definition left_certificate : InclusionCertificate.InclusionCertificate := {|
  InclusionCertificate.bitmap := fit 32 [n2b 128];
  InclusionCertificate.siblings := [fit 32 (DataHash.data (smt_digest right_leaf))] |}.

Lemma inclusion_sound_witness :
  (sid_bytes left_key, DataHash.data left_value) ∈ smt_leaves two_leaves \/
  Collision (.∈ fold_messages (InclusionCertificate.bitmap left_certificate) (InclusionCertificate.siblings left_certificate)
    (sid_bytes left_key) (sid_bytes left_key) (DataHash.data left_value) two_leaves).
Proof.
  apply (InclusionFacts.inclusion_sound left_certificate left_key left_value two_leaves).
  - repeat split; repeat constructor.
  - vm_compute. reflexivity.
Defined.
