(* ===== verification/PropertiesView.v ===== *)
(** What proof consolidation promises, from its entry points: routing, the shard
    tree, the partition view and the certificates assembled from it, the round
    bound and the rebuilt token; each with a run on a partition of two shards. *)

From stdpp Require Import sorting.
From S2P Require Import Prelude State Bytes Error Cbor CborSpec CborRead Hash Codec CodecFacts Radix BigUint Rsmst ShardId ShardOps Search Ids Bft BftSpec UcInterner Certificates VerificationError Secp Predicates TrustBase Seal SealSpec Proofs Transactions TransactionsSpec Verify VerifySpec TokenSpec Topology ShardTree ViewCodec Assemble AssembleSpec Plan Asset Payment PaymentSpec Toy Scenario PropertiesVerify.
Local Open Scope N_scope.

Section view.
Context `{Sha2} `{K256}.

(** C10. Every certificate of an authenticated partition view is accepted: when
    [authenticate] succeeds in a session of the trust base, [certificates] gives
    one certificate per shard of the view, in its order, each for its shard, all
    with the enclosing certificate's seal, each passing the checks the verifier
    makes of a certificate, and the enclosing certificate is one of them -- or
    SHA-256 collides on the memo messages of a good and a bad seal among those the
    session is used with. *)
Theorem view_certificates_accepted K B tb s v enclosing pins av :
  session_of K B tb s -> K (unicity_seal enclosing) -> wf (unicity_seal enclosing) ->
  fst (authenticate v enclosing pins s) = Ok av ->
  (exists cs, certificates av = Ok cs /\
    sc_shard_id <$> cs = PartitionViewLeaf.shard_id <$> view_leaves v /\
    (forall sc, sc ∈ cs -> exists c, sc_certificate sc = Some c /\ shard (shard_tree_certificate c) = sc_shard_id sc /\
       unicity_seal c = unicity_seal enclosing /\ uc_verdict tb c = Ok tt) /\
    exists sc, sc ∈ cs /\ sc_certificate sc = Some enclosing) \/ seal_collision K tb.
Proof.
  intros Hs HK Hw E. destruct (authenticate v enclosing pins s) as [r s'] eqn:Ea. simpl in E. subst r.
  destruct (view_certificates K B tb s v enclosing pins av s' Hs HK Hw Ea) as [?%memo_clash_collision|]; [by right|by left].
Qed.

(** C11. A pinned topology is enforced: the authenticated view has exactly the
    pinned shards in canonical order, its configuration hashes are the pinned
    ones, and [certificate_of] finds each shard's certificate -- or SHA-256 collides
    on the memo messages of a good and a bad seal among those the session is used
    with. *)
Theorem pins_enforced K B tb s v enclosing p av : session_of K B tb s -> K (unicity_seal enclosing) -> wf (unicity_seal enclosing) ->
  fst (authenticate v enclosing (Some p) s) = Ok av ->
  (canonical_order p = Ok (PartitionViewLeaf.shard_id <$> av_leaves av) /\ Forall (pin_matches p) (av_leaves av) /\
   forall i l, av_leaves av !! i = Some l ->
     leaf_of av (PartitionViewLeaf.shard_id l) = Some l /\ certificate_of av (PartitionViewLeaf.shard_id l) = derive av i) \/
  seal_collision K tb.
Proof.
  intros Hs HK Hw E. destruct (authenticate v enclosing (Some p) s) as [r s'] eqn:Ea. simpl in E. subst r.
  destruct (authenticate_inv K B tb _ _ _ _ _ _ Hs HK Hw Ea) as [_ [?%memo_clash_collision|(Hv & El & _ & _ & Hp & _)]]; [by right|left].
  destruct (proj1 (validate_structure_Ok v p) (Hp p eq_refl)) as (_ & _ & Ho & Hpins). rewrite El. do 2 (split; [done|]).
  intros i l Hi. apply certificate_of_spec; [done|by rewrite El].
Qed.

(** C14. The shard tree over the leaves of a scheme is built exactly when the
    shards tile the key space in order; every leaf then has a certificate with one
    sibling per bit of its shard, and folding it over the leaf's hash as the
    certificate verifier does gives the tree's root hash. *)
Theorem shard_tree_certifies ls : 2 * len ls < 2 ^ 32 ->
  ((exists tr, build ls = Ok tr) <-> tiles [] (paths (fst <$> ls))) /\
  forall tr, build ls = Ok tr -> exists root, root_hash tr = Ok root /\
    (forall s, s ∉ fst <$> ls -> certificate tr s = Err (LeafSetMismatch "shard is not in the tree")) /\
    forall i s h, ls !! i = Some (s, h) ->
    exists c, certificate tr s = Ok c /\ shard c = s /\ len (sibling_hash_list c) = slength (val s) /\
      forall d : DataHash, DataHash.data d = h ->
        exists r, foldM (shard_step s) d (imap pair (sibling_hash_list c)) = Ok r /\ DataHash.data r = root.
Proof.
  intros Hl. split.
  - split; [intros (tr & [t Ht]%build_inv); by eapply shape_tiles|]. intros [t Ht]%tiles_shape. eexists. by apply build_lays_out.
  - intros tr E. destruct (build_inv _ _ E) as [t Ht]. rewrite (build_lays_out _ _ Ht Hl) in E. injection E as <-.
    exists (tree_hash t). split; [by apply root_hash_spec|]. split; [by apply certificate_missing|]. intros i s h Hi.
    destruct (certificate_spec _ _ Ht Hl i s h Hi) as (sibs & Hp & Ec). eexists. split; [exact Ec|]. split; [done|]. split.
    + cbn [sibling_hash_list]. destruct (path_hashes_length _ _ _ Hp) as [_ Hlen]. rewrite length_to_bits in Hlen. unfold len. lia.
    + intros d Hd. exact (certificate_folds _ _ _ Ht i s h _ sibs d Hi eq_refl Hp Hd).
Qed.

(** C15. The shards of a topology: accepted exactly when the scheme is empty (one
    shard) or holds two to eight nonempty ids of at most 256 bits whose canonical
    order tiles the key space; the order returned is a permutation of the scheme.
    No scheme panics. *)
Theorem canonical_order_accepts t ids : canonical_order t <> Panic /\ (canonical_order t = Ok ids <->
  len (scheme t) <= 8 /\
  ((scheme t = [] /\ ids = [ShardId.root]) \/
   ((2 <= length (scheme t))%nat /\ Forall scheme_id_ok (scheme t) /\ ids ≡ₚ scheme t /\ tiles [] (paths ids)))).
Proof. split; [apply canonical_order_with_no_panic|apply canonical_order_with_spec]. Qed.

(** C17. A partition view is read from exactly the bytes it encodes to: whatever is
    accepted is within the bounds and re-encodes to the input, every view that
    encodes is read back, and no input panics. *)
Theorem view_round_trip v data : view_from_cbor data <> Panic /\ (view_from_cbor data = Ok v <-> view_to_cbor v = Ok data).
Proof. split; [apply view_from_cbor_no_panic|apply view_decodes]. Qed.

(** C16. Routing: over a valid topology every state id routes, without a panic,
    to the one shard whose id is a bit prefix of it. *)
Theorem route_unique topology r state_id : router_new topology = Ok r ->
  exists s, @route Error r state_id = Ok s /\ s ∈ shards r /\ is_prefix_of s (val (sid_bytes state_id)) = true /\
    forall t, t ∈ shards r -> is_prefix_of t (val (sid_bytes state_id)) = true -> t = s.
Proof.
  intros Hr%router_new_ok. destruct (@route_spec Error r state_id Hr) as (s & E & Hi & Hp & Hu).
  exists s. split; [done|]. split; [by eapply list_elem_of_lookup_2|]. done.
Qed.

(** C13. A round bound computed in a session of the trust base rests on proofs
    that all passed the membership check, is the newest round among their seals,
    first of its kind in input order, and names the shard that proof's state id
    routes to -- or SHA-256 collides on the memo messages of a good and a bad seal
    among those the session is used with. *)
Theorem round_bound_sound lax contexts K tb topology r evidence s b : session_of K (remembered lax contexts) tb s -> lax zero_policy ->
  router_new topology = Ok r ->
  Forall (fun e => wf (unicity_certificate (snd e)) /\ K (unicity_seal (unicity_certificate (snd e)))) evidence ->
  fst (from_proofs r evidence s) = Ok b ->
  (Forall (fun e => membership_verdict tb (snd e) (fst e) (reference_time (snd e)) = Ok tt) evidence /\
   exists i id p, evidence !! i = Some (id, p) /\ val (bound_round b) = seal_round p /\
     (forall j e, evidence !! j = Some e -> seal_round (snd e) <= seal_round p) /\
     (forall j e, (j < i)%nat -> evidence !! j = Some e -> seal_round (snd e) < seal_round p) /\
     is_prefix_of (bound_shard b) (val (sid_bytes id)) = true) \/ seal_collision K tb.
Proof.
  intros Hs Hp Hr%router_new_ok Hw E. destruct (from_proofs r evidence s) as [o s'] eqn:Ef. simpl in E. subst o.
  destruct (from_proofs_sound lax contexts K tb r evidence s b s' Hs Hp Hr Hw Ef) as [?%memo_clash_collision|]; [by right|by left].
Qed.

(** A rebuilt token is the given one with its outer-history proofs replaced
    in order: same transactions, token id, latest state and state ids; it is well
    formed if the replacements are; any other number of proofs is rejected. *)
Theorem rebuild_replaces_proofs t proofs : match rebuild_token t proofs with
  | Ok t' => length proofs = length (outer_proofs t) /\ op_proof <$> outer_proofs t' = proofs /\ same_history t t' /\
      Token_id t' = Token_id t /\ latest_state t' = latest_state t /\
      op_state_id <$> outer_proofs t' = op_state_id <$> outer_proofs t /\
      (token_wf t -> Forall wf proofs -> token_wf t')
  | Err _ => length proofs <> length (outer_proofs t)
  | Panic => False
  end.
Proof.
  assert (length (outer_proofs t) = (1 + length (transactions t))%nat) as Hlen by (unfold outer_proofs; simpl; by rewrite length_imap).
  destruct (rebuild_token t proofs) as [t'|e|] eqn:E.
  - split.
    { unfold rebuild_token in E. destruct (Nat.eqb_spec (length proofs) (1 + length (transactions t))); [lia|done]. }
    pose proof E as [Ep Hh]%rebuild_spec. do 2 (split; [done|]). destruct (same_history_keeps _ _ Hh) as (H1 & H2 & H3).
    do 3 (split; [done|]). by eapply rebuild_wf.
  - unfold rebuild_token in E. destruct (Nat.eqb_spec (length proofs) (1 + length (transactions t))); [|lia].
    destruct proofs; [done|discriminate].
  - unfold rebuild_token in E. destruct (Nat.eqb_spec (length proofs) (1 + length (transactions t))); [|done].
    destruct proofs; [done|discriminate].
Qed.
End view.

(** * A partition of two shards *)

Definition west : ShardId := fst (ShardOps.split ShardId.root).
Definition east : ShardId := snd (ShardOps.split ShardId.root).

Definition conf_hash : arr 32 := num32 0.
Definition two_shards : PartitionTopology := with_shard_conf_hash (topology_new [east; west]) east conf_hash.

Definition leaf_with (s : ShardId) (state_root : option (arr 32)) : PartitionViewLeaf := {|
  PartitionViewLeaf.shard_id := s;
  PartitionViewLeaf.input_record :=
    PartitionViewInputRecord.from_input_record (input_record (certificate_with state_root (seal_with [] [])));
  PartitionViewLeaf.tr_hash := replicate 32 (n2b 6);
  PartitionViewLeaf.shard_conf_hash := val conf_hash |}.

Definition two_leaves : list PartitionViewLeaf := [leaf_with west (Some (num32 0x61)); leaf_with east None].
Definition two_view : PartitionView := {| partition_id := AGGREGATION_PARTITION_ID; view_leaves := two_leaves |}.

(** The western shard's certificate, sealed by two of the nodes. *)
Definition west_with (c : ShardTreeCertificate) (seal : UnicitySeal) : UnicityCertificate :=
  let uc := certificate_with (Some (num32 0x61)) seal in
  {| input_record := input_record uc; technical_record_hash := technical_record_hash uc;
     shard_configuration_hash := shard_configuration_hash uc; shard_tree_certificate := c;
     unicity_tree_certificate := unicity_tree_certificate uc; unicity_seal := seal |}.

Definition enclosing_of : result UnicityCertificate :=
  c ← map_err (fun _ => Crypto "tree") (tree ← build (leaf_pair <$> two_leaves); certificate tree west);
  h ← computed_seal_hash (west_with c (seal_with [] []));
  let digest := calculate_hash (seal_with (DataHash.data h) []) in
  a ← sign (signer_of U1) digest;
  b ← sign (signer_of U3) digest;
  Ok (west_with c (seal_with (DataHash.data h) [(name_a, Signature.encode a); (name_c, Signature.encode b)])).

Definition enclosing_certificate : UnicityCertificate.
Proof. found enclosing_of. Defined.

Lemma enclosing_wf : wf (unicity_seal enclosing_certificate).
Proof. cbn. split; [|vm_compute; done]. repeat split. Qed.

Lemma enclosing_good : good (unicity_seal enclosing_certificate).
Proof. vm_compute. reflexivity. Qed.

(** In a session that has verified a token before. *)
Lemma authenticated_view : is_ok (fst (authenticate two_view enclosing_certificate (Some two_shards) used)) = true.
Proof. vm_compute. reflexivity. Qed.

Lemma view_certificates_accepted_witness : exists av,
  fst (authenticate two_view enclosing_certificate (Some two_shards) used) = Ok av /\
  exists cs, certificates av = Ok cs /\
    sc_shard_id <$> cs = PartitionViewLeaf.shard_id <$> view_leaves two_view /\
    (forall sc, sc ∈ cs -> exists c, sc_certificate sc = Some c /\ shard (shard_tree_certificate c) = sc_shard_id sc /\
       unicity_seal c = unicity_seal enclosing_certificate /\ uc_verdict network c = Ok tt) /\
    exists sc, sc ∈ cs /\ sc_certificate sc = Some enclosing_certificate.
Proof.
  destruct (proj1 (is_ok_Ok _) authenticated_view) as [av Hav]. exists av. split; [exact Hav|].
  destruct (view_certificates_accepted good (remembered ordinary (fun _ => False)) network used two_view enclosing_certificate (Some two_shards) av)
    as [Hc|Hc].
  - apply used_session.
  - exact enclosing_good.
  - exact enclosing_wf.
  - exact Hav.
  - exact Hc.
  - destruct (no_good_collision good (fun _ => id) Hc).
Defined.

Lemma pins_enforced_witness : exists av,
  fst (authenticate two_view enclosing_certificate (Some two_shards) used) = Ok av /\
  canonical_order two_shards = Ok (PartitionViewLeaf.shard_id <$> av_leaves av) /\
  Forall (pin_matches two_shards) (av_leaves av) /\
  forall i l, av_leaves av !! i = Some l ->
    leaf_of av (PartitionViewLeaf.shard_id l) = Some l /\ certificate_of av (PartitionViewLeaf.shard_id l) = derive av i.
Proof.
  destruct (proj1 (is_ok_Ok _) authenticated_view) as [av Hav]. exists av. split; [exact Hav|].
  destruct (pins_enforced good (remembered ordinary (fun _ => False)) network used two_view enclosing_certificate two_shards av) as [Hc|Hc].
  - apply used_session.
  - exact enclosing_good.
  - exact enclosing_wf.
  - exact Hav.
  - exact Hc.
  - destruct (no_good_collision good (fun _ => id) Hc).
Defined.

Lemma shard_tree_certifies_witness : let ls := [(west, [n2b 1]); (east, [n2b 2])] in
  ((exists tr, build ls = Ok tr) <-> tiles [] (paths (fst <$> ls))) /\
  forall tr, build ls = Ok tr -> exists root, root_hash tr = Ok root /\
    (forall s, s ∉ fst <$> ls -> certificate tr s = Err (LeafSetMismatch "shard is not in the tree")) /\
    forall i s h, ls !! i = Some (s, h) ->
    exists c, certificate tr s = Ok c /\ shard c = s /\ len (sibling_hash_list c) = slength (val s) /\
      forall d : DataHash, DataHash.data d = h ->
        exists r, foldM (shard_step s) d (imap pair (sibling_hash_list c)) = Ok r /\ DataHash.data r = root.
Proof. apply shard_tree_certifies. reflexivity. Defined.

Definition the_router : ShardRouter := {| shards := [west; east] |}.
Lemma router_read : router_new two_shards = Ok the_router.
Proof. reflexivity. Qed.

Lemma route_unique_witness : exists s, @route Error the_router fresh_state = Ok s /\ s ∈ shards the_router /\
  is_prefix_of s (val (sid_bytes fresh_state)) = true /\
  forall t, t ∈ shards the_router -> is_prefix_of t (val (sid_bytes fresh_state)) = true -> t = s.
Proof. apply (route_unique two_shards). exact router_read. Defined.

(** The outer history of a transferred token, in the unsharded partition. *)
Definition whole_router : ShardRouter := {| shards := [ShardId.root] |}.
Definition moved_evidence : list (StateId * InclusionProof) := (fun o => (op_state_id o, op_proof o)) <$> outer_proofs moved_token.

Lemma moved_evidence_wf :
  Forall (fun e => wf (unicity_certificate (snd e)) /\ good (unicity_seal (unicity_certificate (snd e)))) moved_evidence.
Proof.
  destruct (read_wf _ _ moved_read) as ([_ Hg] & _ & Ht). apply Forall_and. split.
  - unfold moved_evidence. rewrite Forall_fmap. assert (Forall wf (op_proof <$> outer_proofs moved_token)) as Hw.
    { rewrite outer_proofs_proofs. constructor; [exact Hg|by rewrite Forall_fmap]. }
    rewrite Forall_fmap in Hw. eapply Forall_impl; [exact Hw|]. intros o [_ [_ Ho]]. exact Ho.
  - repeat (apply Forall_cons; split); [vm_compute; reflexivity..|by apply Forall_nil].
Qed.

Lemma moved_bound : is_ok (fst (from_proofs whole_router moved_evidence used)) = true.
Proof. vm_compute. reflexivity. Qed.

Lemma round_bound_sound_witness : exists b,
  fst (from_proofs whole_router moved_evidence used) = Ok b /\
  Forall (fun e => membership_verdict network (snd e) (fst e) (reference_time (snd e)) = Ok tt) moved_evidence /\
  exists i id p, moved_evidence !! i = Some (id, p) /\ val (bound_round b) = seal_round p /\
    (forall j e, moved_evidence !! j = Some e -> seal_round (snd e) <= seal_round p) /\
    (forall j e, (j < i)%nat -> moved_evidence !! j = Some e -> seal_round (snd e) < seal_round p) /\
    is_prefix_of (bound_shard b) (val (sid_bytes id)) = true.
Proof.
  destruct (proj1 (is_ok_Ok _) moved_bound) as [b Hb]. exists b. split; [exact Hb|].
  destruct (round_bound_sound ordinary (fun _ => False) good network single_shard whole_router moved_evidence used b) as [Hc|Hc].
  - apply used_session.
  - reflexivity.
  - reflexivity.
  - exact moved_evidence_wf.
  - exact Hb.
  - exact Hc.
  - destruct (no_good_collision good (fun _ => id) Hc).
Defined.
