(* ===== verification/PropertiesClient.v ===== *)
(** What the clients promise, from their entry points: consolidation, its
    admission and its waves, the construction flows and the wait a transport may
    send; with runs against a small server. *)

From stdpp Require Import strings relations.
From S2P Require Import Prelude State Bytes FifoIndex Error Cbor Hash Codec CodecFacts Radix BigUint Rsmst ShardId ShardOps Search Ids Bft BftSpec UcInterner Certificates VerificationError Secp Predicates TrustBase Seal SealSpec Proofs Transactions TransactionsSpec Verify VerifySpec TokenSpec History Flow Asset Payment PaymentSpec Topology ViewCodec Assemble Plan Toy Scenario PropertiesVerify Batch Executor Consolidate ConsolidateSpec AdmissionSpec RunSpec ClientSpec ClientScenario.
Local Open Scope N_scope.

Section consolidation.
Context `{Sha2} `{K256} {W C : Type} `{BatchAggregatorClient W C} `{Clock W} `{CallerCancel W} `{WaveExecutor (Shared W)}.

(** C5. A consolidated token is accepted, is well formed, keeps the history of the
    accepted token it came from and carries one seal; unless it already shared
    one, every proof certifies what its original did under one authenticated
    seal at least as new as all of them. This holds whatever the clock and the
    cancellation do, for a transport that hands over decoded proofs and an
    executor that returns results of the jobs it was given; or SHA-256 collides
    on the memo messages of a good and a bad seal that the two tokens and those
    they embed carry. *)
Theorem consolidate_sound embeds justified data_ok (self : @ProofClient _ C) token options w t' summary :
  DecodedBatches W C -> WaveResults (Shared W) -> registry_ok embeds justified data_ok (client_registry self) -> token_wf token ->
  fst (consolidate self token options w) = Ok (Consolidated t' summary) ->
  consolidated self token t' summary \/ seal_collision (rebuild_seals embeds token t') (client_trust_base self).
Proof.
  intros Hd Hwv Hreg Hw E. destruct (consolidate self token options w) as [r w'] eqn:Er. cbn [fst] in E. subst r.
  destruct (consolidate_verified embeds justified data_ok self Hreg _ _ _ _ _ _ Hw Er) as [?|?%memo_clash_collision]; [by left|by right].
Qed.

(** C6. The proof bundle returned for the items of an accepted token rebuilds it,
    and the rebuilt token keeps the history and is accepted. This holds for a
    registry whose verifiers look at the transactions, as the payment registry's
    do, a transport that hands over decoded proofs and an executor that returns
    results of the jobs it was given; acceptance holds unless SHA-256 collides on
    the memo messages of a good and a bad seal that the two tokens and those they
    embed carry. *)
Theorem bundle_keeps_acceptance embeds justified data_ok (self : @ProofClient _ C) token options w b :
  DecodedBatches W C -> WaveResults (Shared W) -> registry_ok embeds justified data_ok (client_registry self) ->
  registry_stable (client_registry self) -> token_wf token ->
  token_verdict (client_registry self) (client_trust_base self) (client_policy self) token = Ok tt ->
  fst (consolidate_proofs self (items_of token) options w) = Ok (BundleConsolidated b) ->
  exists t', rebuild_token token (bundle_proofs b) = Ok t' /\ same_history token t' /\
    (token_verdict (client_registry self) (client_trust_base self) (client_policy self) t' = Ok tt \/
     seal_collision (rebuild_seals embeds token t') (client_trust_base self)).
Proof.
  intros Hd Hwv Hreg Hst Hw Ht E. destruct (consolidate_proofs self _ options w) as [r w'] eqn:Er. cbn [fst] in E. subst r.
  destruct (proofs_bundle_sound self _ _ _ _ _ (items_of_wf _ Hw) Er) as [Hl Hb].
  destruct (bundle_rebuild_total _ _ Hl) as [t' E]. exists t'. split; [done|]. split; [by apply rebuild_spec in E as [_ ?]|].
  destruct Hb as [Hb|Hc%memo_clash_collision].
  - destruct (bundle_rebuilds embeds justified data_ok self Hreg _ _ _ _ _ Hst Hw eq_refl Ht Hb E) as [?|?%memo_clash_collision]; [by left|by right].
  - right. revert Hc. apply seal_collision_mono. intros seal [(i & Hi & <-)|Hp].
    + left. pose proof (items_run_seals embeds token) as Hf. rewrite Forall_forall in Hf. by apply Hf.
    + apply (bundle_run_seals embeds b); [done|by right].
Qed.
End consolidation.

Section admission.
Context `{Sha2} `{K256} {W C : Type} `{BatchAggregatorClient W C} `{Clock W} `{CallerCancel W}.

(** C18. Admission groups the inputs by shard: every input is mapped to the first
    input of its state, which certifies the same at the same time, the groups
    hold each distinct state once, in canonical shard order, with the shard's
    endpoint and at most 256 states, and no first input is left out. *)
Theorem group_partitions (self : @ProofClient _ C) items deadline s groups first_of shard_of :
  router_new (client_topology self) = Ok (router self) -> fst (group self items deadline s) = Ok (groups, first_of, shard_of) ->
  items <> [] /\ shard_of = shard_index self <$> items /\
  Forall2 (fun item f => first_with (key_of item) items = Some f /\ exists o, items !! f = Some o /\ same_state o item) items first_of /\
  (exists slots, groups = omap id slots /\ length slots = length (shards (router self)) /\
     forall si o, slots !! si = Some o -> slot_ok self items si o) /\
  forall i item f, items !! i = Some item -> first_of !! i = Some f ->
    exists g, g ∈ groups /\ f ∈ group_items g /\ shards (router self) !! shard_index self item = Some (group_shard g).
Proof.
  intros Hs E. destruct (group self items deadline s) as [r s'] eqn:Eg. cbn [fst] in E. subst r.
  apply group_slots in Eg as (Hne & a & Ha & -> & -> & ->). pose proof Ha as [_ Hf Hsh Hl Hsl].
  split; [done|]. split; [done|]. split; [done|]. split; [by exists (slots a)|]. intros i item f. apply group_has_first; [|done].
  by eapply router_new_ok.
Qed.
End admission.

Section waves.
Context {I T : Type} (inputs : list I) (job : I -> T -> Prop) (max_parallel : nat).

(** C19. In every interleaving of its workers the threaded executor runs each job
    exactly once, collects the results in input order, takes a bounded number
    of steps and never blocks. *)
Theorem wave_runs_every_job (n := workers_of inputs (at_least_one max_parallel)) :
  (forall x, x ∈ inputs -> exists v, job x v) ->
  (forall m w, nsteps (fun w w' => exists k, step inputs job k w w') m (start inputs n) w -> (m <= 3 * length inputs + 2 * n)%nat) /\
  (forall w, steps inputs job (start inputs n) w -> joined w \/ exists k w', step inputs job k w w') /\
  forall w, steps inputs job (start inputs n) w -> joined w ->
    exists out, collected w = Ok out /\ Forall2 job inputs out /\ ran w ≡ₚ seq 0 (length inputs).
Proof.
  intros Hj. split; [|split].
  - intros m w. apply threaded_terminates.
  - intros w. by apply threaded_progress.
  - intros w. apply threaded_correct. unfold n, workers_of, at_least_one. lia.
Qed.
End waves.

Section flows.
Context `{Sha2} `{K256} {W E : Type} `{AggregatorClient W E}.

(** C21. A transfer succeeds exactly when the token verifies, has room for one
    more transfer and the aggregator returns a proof the trust base certifies
    for the transfer that spends its latest state; the result is that
    extension -- or SHA-256 collides on the memo messages of a good and a bad
    seal among those of the token's proofs and of the returned one. *)
Theorem transfer_exactly {P S} `{Predicate P} `{!Signer S} tb token (recipient : P) (signer : S) mask data exp w next w' :
  token_wf token -> decoded_proofs ->
  let tx := next_transfer token recipient mask data exp in
  (transfer tb token recipient signer mask data exp w = (Ok next, w') <->
   verify_token token tb = Ok tt /\ len (transactions token) + 1 <= val (max_token_transfers VerificationLimits_DEFAULT) /\
   exists p, Flow.certify tx signer w = (Ok p, w') /\ transaction_verdict tb p tx (reference_time p) = Ok tt /\
     next = {| genesis := genesis token; transactions := transactions token ++ [{| ct_transaction := tx; ct_inclusion_proof := p |}] |})
  \/ seal_collision (transfer_seals token tx signer w) tb.
Proof.
  intros Hw Hd tx. destruct (transfer_succeeds tb token recipient signer mask data exp w next w' Hw Hd) as [?|?%memo_clash_collision];
    [by left|by right].
Qed.

(** C22. A mint succeeds exactly when its network is the trust base's, it carries
    no justification and no oversized payload, and the aggregator returns a
    proof the trust base certifies for it; a mint with a justification never
    succeeds. *)
Theorem mint_exactly {P} `{Predicate P} tb network (recipient : P) ty salt data just exp w token w' : decoded_proofs ->
  mint tb network recipient ty salt data just exp w = (Ok token, w') <->
  validate tb = Ok tt /\ network = tb_network_id tb /\ just = None /\
  from_option (fun b => len b <= val (max_input_bytes DecodeLimits_DEFAULT)) True data /\
  exists tx signer p,
    MintTransaction_create network (from_predicate recipient) ty salt data just exp = Ok tx /\
    Minter.signer (token_id tx) = Ok signer /\ Flow.certify tx signer w = (Ok p, w') /\
    transaction_verdict tb p tx (reference_time p) = Ok tt /\
    token = {| genesis := {| cm_transaction := tx; cm_inclusion_proof := p |}; transactions := [] |}.
Proof. apply mint_succeeds. Qed.

(** C20. The verdict on a token, with any memo capacity that fits, is that of its
    history without memos: the trust base, the transfer limit, the mint, its
    registered claims and each transfer's own proof -- or SHA-256 collides on the
    memo messages of a good and a bad seal that the token and those it embeds
    carry. *)
Theorem verdict_of_history embeds justified data_ok registry tb pol token capacity :
  registry_ok embeds justified data_ok registry -> token_wf token -> val capacity <= MAX_CAPACITY ->
  fst (verify_token_with_memo_capacity token tb registry pol capacity) = history_verdict registry tb pol token \/
  seal_collision (run_seal embeds token) tb.
Proof.
  intros Hr Hw Hc. set (K := run_seal embeds token).
  destruct (verify_with_capacity embeds justified data_ok registry Hr (fun _ => False) K tb pol token capacity Hc Hw (fun _ => id))
    as [->|?%memo_clash_collision]; [|by right].
  destruct (token_verdict_history embeds justified data_ok registry Hr tb pol K token Hw (fun _ => id)) as [?|?%memo_clash_collision];
    [by left|by right].
Qed.
End flows.

(** * Runs *)

(** The consolidated token carries a seal the nodes signed, as its original. *)
Definition all_signed (r : outcome ConsolidationError ConsolidationOutcome) : bool :=
  match r with
  | Ok (Consolidated t _) => all_good (outer_seals t) && negb (is_some (justification (cm_transaction (genesis t))))
  | _ => false
  end.

Lemma consolidation_signed : all_signed (fst (consolidate client moved_token options 0)) = true.
Proof. vm_compute. reflexivity. Qed.

Lemma rebuilt_good t' : all_good (outer_seals t') && negb (is_some (justification (cm_transaction (genesis t')))) = true ->
  forall seal, rebuild_seals split_embeds moved_token t' seal -> good seal.
Proof.
  intros [Hg Hj]%andb_true_iff seal [Hs|Hs]; [by apply moved_good|]. revert Hs. apply plain_good; [|done]. apply unjustified.
  by destruct (justification _).
Qed.

Lemma consolidate_sound_witness : exists t' summary,
  fst (consolidate client moved_token options 0) = Ok (Consolidated t' summary) /\ consolidated client moved_token t' summary.
Proof.
  pose proof consolidation_signed as E. destruct (fst (consolidate client moved_token options 0)) as [[t' summary|]| |] eqn:Er; [|done..].
  exists t', summary. refine (conj eq_refl _).
  destruct (consolidate_sound split_embeds justified data_ok client moved_token options 0 t' summary) as [Hc|Hc].
  - exact honest_decoded.
  - exact (sequential_results _).
  - exact scenario_registry_ok.
  - exact (read_wf _ _ moved_read).
  - exact Er.
  - exact Hc.
  - destruct (no_good_collision _ (rebuilt_good t' E) Hc).
Defined.

(** The same for the bundle. *)
Definition bundle_signed (r : outcome ConsolidationError BundleOutcome) : bool :=
  match r with Ok (BundleConsolidated b) => all_good (proof_seal <$> bundle_proofs b) | _ => false end.

Lemma bundle_all_signed : bundle_signed (fst (consolidate_proofs client (items_of moved_token) options 0)) = true.
Proof. vm_compute. reflexivity. Qed.

Lemma rebuilt_from proofs t' : rebuild_token moved_token proofs = Ok t' -> all_good (proof_seal <$> proofs) = true ->
  all_good (outer_seals t') && negb (is_some (justification (cm_transaction (genesis t')))) = true.
Proof.
  intros [<- [-> _]]%rebuild_spec Hg. apply andb_true_iff. split; [|reflexivity].
  rewrite outer_proofs_proofs, fmap_cons, <- list_fmap_compose in Hg. exact Hg.
Qed.

Lemma bundle_keeps_acceptance_witness : exists b t',
  fst (consolidate_proofs client (items_of moved_token) options 0) = Ok (BundleConsolidated b) /\
  rebuild_token moved_token (bundle_proofs b) = Ok t' /\ same_history moved_token t' /\
  token_verdict Scenario.registry network strict_policy t' = Ok tt.
Proof.
  pose proof bundle_all_signed as E. destruct (fst (consolidate_proofs client (items_of moved_token) options 0)) as [[b|]| |] eqn:Er; [|done..].
  destruct (bundle_keeps_acceptance split_embeds justified data_ok client moved_token options 0 b) as (t' & Et & Hh & Hc).
  - exact honest_decoded.
  - exact (sequential_results _).
  - exact scenario_registry_ok.
  - by apply (payment_registry_stable decode_assets coin allow_issuance Scenario.registry).
  - exact (read_wf _ _ moved_read).
  - vm_compute. reflexivity.
  - exact Er.
  - exists b, t'. refine (conj eq_refl (conj Et (conj Hh _))). destruct Hc as [Hc|Hc]; [exact Hc|].
    destruct (no_good_collision _ (rebuilt_good t' (rebuilt_from _ _ Et E)) Hc).
Defined.

Lemma group_partitions_witness : exists groups first_of shard_of,
  fst (group client (items_of moved_token) (wrap 64 100) (start_shared 0)) = Ok (groups, first_of, shard_of) /\
  shard_of = shard_index client <$> items_of moved_token.
Proof.
  destruct (fst (group client (items_of moved_token) (wrap 64 100) (start_shared 0))) as [[[groups first_of] shard_of]| |] eqn:Eg;
    [|exfalso; revert Eg; vm_compute; discriminate..].
  exists groups, first_of, shard_of. split; [done|].
  apply (group_partitions client (items_of moved_token) (wrap 64 100) (start_shared 0) groups first_of shard_of).
  - reflexivity.
  - exact Eg.
Defined.

Definition squares (x y : nat) : Prop := y = (x * x)%nat.
Lemma wave_runs_every_job_witness :
  (forall x, x ∈ [1; 2; 3]%nat -> exists v, squares x v) /\
  forall w, steps [1; 2; 3]%nat squares (start [1; 2; 3]%nat 3) w -> joined w ->
    exists out, collected w = Ok out /\ Forall2 squares [1; 2; 3]%nat out /\ ran w ≡ₚ seq 0 3.
Proof.
  assert (forall x, x ∈ [1; 2; 3]%nat -> exists v, squares x v) as Hj by (intros x _; by exists (x * x)%nat).
  split; [exact Hj|]. apply (wave_runs_every_job [1; 2; 3]%nat squares 8 Hj).
Defined.

Definition heir : SignaturePredicate := {| sp_public_key := node_key U2 |}.

Definition moving : TransferTransaction := next_transfer source_token heir {| mask_bytes := num32 9 |} None later.

(** The proof the aggregator returns for it. *)
Lemma transfer_good seal : transfer_seals source_token moving (signer_of U1) None seal -> good seal.
Proof.
  intros [Hr|(p & w' & Ep & ->)].
  - revert Hr. apply plain_good; [by intros ? []|]. vm_compute. reflexivity.
  - apply (f_equal (fun r => match fst r with Ok q => is_ok (quorum_met network (proof_seal q)) | _ => false end)) in Ep. cbn [fst] in Ep.
    assert (is_ok (quorum_met network (proof_seal p)) = true) as Hq by (rewrite <- Ep; vm_compute; reflexivity).
    unfold good. by destruct (quorum_met network (proof_seal p)) as [[]| |].
Qed.

Lemma transfer_exactly_witness : let run := transfer network source_token heir (signer_of U1) {| mask_bytes := num32 9 |} None later None in
  is_ok (fst run) = true /\ forall next w',
  run = (Ok next, w') <->
   verify_token source_token network = Ok tt /\
   len (transactions source_token) + 1 <= val (max_token_transfers VerificationLimits_DEFAULT) /\
   exists p, Flow.certify moving (signer_of U1) None = (Ok p, w') /\
     transaction_verdict network p moving (reference_time p) = Ok tt /\
     next = {| genesis := genesis source_token; transactions := transactions source_token ++
       [{| ct_transaction := moving; ct_inclusion_proof := p |}] |}.
Proof.
  intros run. split; [vm_compute; reflexivity|]. subst run. intros next w'.
  destruct (transfer_exactly network source_token heir (signer_of U1) {| mask_bytes := num32 9 |} None later None next w') as [Hc|Hc].
  - exact (read_wf _ _ source_read).
  - exact small_decoded.
  - exact Hc.
  - destruct (no_good_collision _ transfer_good Hc).
Defined.

Lemma mint_exactly_witness :
  let run := mint network NetworkId.LOCAL heir coin (salted 31) None None later (None : last_submitted) in
  is_ok (fst run) = true /\ forall token w',
  run = (Ok token, w') <->
   validate network = Ok tt /\ NetworkId.LOCAL = tb_network_id network /\ @None bytes = None /\
   from_option (fun b => len b <= val (max_input_bytes DecodeLimits_DEFAULT)) True (@None bytes) /\
   exists tx signer p,
     MintTransaction_create NetworkId.LOCAL (from_predicate heir) coin (salted 31) None None later = Ok tx /\
     Minter.signer (token_id tx) = Ok signer /\ Flow.certify tx signer (None : last_submitted) = (Ok p, w') /\
     transaction_verdict network p tx (reference_time p) = Ok tt /\
     token = {| genesis := {| cm_transaction := tx; cm_inclusion_proof := p |}; transactions := [] |}.
Proof.
  intros run. split; [vm_compute; reflexivity|]. subst run. intros token w'.
  apply (mint_exactly network NetworkId.LOCAL heir coin (salted 31) None None later None token w').
  exact small_decoded.
Defined.

Lemma verdict_of_history_witness :
  fst (verify_token_with_memo_capacity output_1 network Scenario.registry strict_policy (wrap 64 2)) =
    history_verdict Scenario.registry network strict_policy output_1.
Proof.
  destruct (verdict_of_history split_embeds justified data_ok Scenario.registry network strict_policy output_1 (wrap 64 2)) as [Hc|Hc].
  - exact scenario_registry_ok.
  - exact (read_wf _ _ output_read_1).
  - by vm_compute.
  - exact Hc.
  - destruct (no_good_collision _ output_good_1 Hc).
Defined.
