(* ===== verification/PropertiesHttp.v ===== *)
(** What the HTTP client promises: its calls, its waits and its submissions, with
    runs against the gateway of [HttpScenario]. *)

From Stdlib Require Import ZArith.
From stdpp Require Import strings.
From S2P Require Import Prelude State Bytes Error Cbor Hash Codec Ids Bft Certificates VerificationError Secp Predicates TrustBase Seal SealSpec Proofs Transactions Verify VerifySpec TokenSpec Topology ViewCodec Plan Asset Payment Toy Scenario PropertiesVerify Batch Executor Time HttpDate Transport Rpc Wait HttpClient Wp RpcSpec WaitSpec HttpSpec HttpScenario.
Local Open Scope N_scope.

Section client.
Context `{Sha2} `{K256} `{Texts} `{Serde} `{HexCodec} {W : Type} `{Host W}.

(** C24. A JSON-RPC call gives a result exactly when its endpoint is a safe one
    and its request got a success answer within the size limit whose body is a
    JSON-RPC 2.0 object that carries the request's id, that result and no
    error. *)
Theorem call_answered self method params headers timeout (w : W) v :
  fst (rpc_raw self method params headers timeout w) = Ok v <-> answered self method params headers timeout w v.
Proof. apply rpc_raw_spec. Qed.

Context `{Monotonic W} `{CallerCancel W}.

(** C23. Submitting until certified returns only a decoded proof of the very data
    submitted, and reports a lost race only on a proof that the trust base
    authenticates of another request spending the same state. *)
Theorem submission_sound self data max tb (w : W) : 
  match fst (submit_and_wait_verified self data max tb w) with
  | Ok p => wf p /\ certification_data p = data
  | Err HttpError.StateCertifiedWithOtherData => exists p, wf p /\ lost_race tb data p
  | _ => True
  end.
Proof. apply submit_and_wait_spec. Qed.

(** C26. The plan of a call never overflows: a wait is positive, within the
    preferred wait, the remaining time and the longest call less the margin,
    and the call's timeout is exactly the wait and the margin; a call without
    a wait lasts at most the longest call and the remaining time, unless the
    request timeout is kept. *)
Theorem plan_within_budget remaining options send : 1 <= val remaining ->
  let plan := plan_call remaining options send in
  let m := val (ms (margin options)) in let longest := val (ms (max_request_timeout options)) in
  match plan_wait_ms plan with
  | Some w => send = true /\ long_poll options = true /\ 1 <= val w /\ val w <= val (ms (preferred_wait options)) /\
      val w <= 2 ^ 53 - 1 /\ val w + m <= val remaining /\ val w + m <= longest /\ val (plan_timeout_ms plan) = val w + m
  | None => 1 <= val (plan_timeout_ms plan) /\ val (plan_timeout_ms plan) <= N.max longest 1 /\
      (plain_calls_keep_request_timeout options = false -> val (plan_timeout_ms plan) <= val remaining)
  end.
Proof. apply plan_call_spec. Qed.

(** C25. Over a host whose clock never goes back a wait returns without a panic,
    sends and counts at most one proof request per ten milliseconds up to its
    deadline and one more, and returns only decoded proofs, whatever the server
    answers. *)
Theorem wait_bounded `{!MonotonicLaws W} `{!HostLaws W} self sid options (w : W) :
  let started := fst (instant_now w) in let deadline := far_deadline started (total options) in
  let most := (deadline - started) / val MIN_PAUSE + 1 in
  deadline + val THIRTY_YEARS <= INSTANT_MAX ->
  let '(r, stats, w') := wait_for_inclusion_proof_with_stats self sid options w in
  no_panic r /\ time w <= time w' /\ asked w' <= asked w + most /\ val (requests_sent stats) <= most /\ (forall p, r = Ok p -> wf p).
Proof.
  intros started deadline most Hroom. unfold wait_for_inclusion_proof_with_stats.
  set (l0 := {| host := w; stats := no_stats; send_wait := true; unknown_seen := wrap 32 0 |}).
  enough (wp (wait_run self sid options) (fun r l => no_panic r /\ ready (asked w) (time w) most l /\ (forall p, r = Ok p -> wf p)) l0) as Hwp.
  { unfold wp in Hwp. destruct (wait_run _ _ _ _) as [r l]. by destruct Hwp as (? & [[? ?] ?] & ?). }
  unfold wait_run. apply wp_on_host. unfold now, observe. unfold wp at 1. cbn [host l0].
  pose proof (now_late w) as [Hl Hr]. pose proof (now_quiet w) as Hq0. fold started in Hl, Hr.
  destruct (instant_now w) as [t w1] eqn:Et. cbn [fst snd next_of] in *. subst started.
  unfold wait_fuel. fold deadline. set (q := (deadline - t) / val MIN_PAUSE) in most.
  eapply wp_mono; [apply (wait_loop_spec (asked w) options deadline _ Hroom self sid _ (S (N.to_nat q)) _ 0)|].
  - split; [split; cbn; lia|done].
  - cbn [host set_host]. unfold SHORTEST. assert (0 < val MIN_PAUSE) as Hs by (vm_compute; reflexivity).
    pose proof (N.div_mod (deadline - t) (val MIN_PAUSE) ltac:(lia)) as Hq. pose proof (N.mod_upper_bound (deadline - t) (val MIN_PAUSE) ltac:(lia)) as Hu. fold q in Hq.
    rewrite Nat2N.inj_succ, N2Nat.id, N.mul_succ_r. lia.
  - intros r l (Hp & [[Ht Ha] Hn] & Hw). cbn [host set_host] in Ht. subst most. split_and!; [done|split; [split|]; lia|done].
Qed.
End client.

(** C27. The seconds of an HTTP date are those of the calendar counted day by day,
    and exactly the dates of the years 1970 to 9999 with a valid time of day,
    a leap second included, are accepted. *)
Theorem http_date_exact day mon year h mi sec s : (1 <= mon <= 12 -> 0 <= h -> 0 <= mi -> 0 <= sec ->
  seconds_of day mon year h mi sec = Some s <->
  (1970 <= year <= 9999 /\ 1 <= day <= days_in_month year mon /\ h <= 23 /\ mi <= 59 /\ sec <= 60) /\
  Z.of_N (val s) = calendar_days year mon day * 86400 + h * 3600 + mi * 60 + sec)%Z.
Proof. apply seconds_spec. Qed.

(** * Runs *)

Lemma wait_bounded_witness : let most := (far_deadline 1000 (from_secs (wrap 64 60)) - 1000) / val MIN_PAUSE + 1 in
  is_ok (fst (fst the_wait)) = true /\ calls (snd the_wait) <= most /\ val (requests_sent (snd (fst the_wait))) <= most.
Proof.
  intros most. split; [apply wait_succeeds|].
  pose proof (wait_bounded the_client the_state one_minute day_one) as Hb. cbv zeta in Hb. unfold the_wait.
  destruct (wait_for_inclusion_proof_with_stats the_client the_state one_minute day_one) as [[r s] w'].
  destruct Hb as (_ & _ & Ha & Hn & _); [vm_compute; discriminate|]. split; [exact Ha|exact Hn].
Defined.

Lemma plan_within_budget_witness : let plan := plan_call (wrap 64 9000) one_minute true in
  option_map val (plan_wait_ms plan) = Some 7000 /\ val (plan_timeout_ms plan) = 7000 + 2000.
Proof.
  intros plan. assert (option_map val (plan_wait_ms plan) = Some 7000) as Ew by (vm_compute; reflexivity). split; [exact Ew|].
  assert (1 <= val (wrap 64 9000)) as Hr by (vm_compute; discriminate).
  pose proof (plan_within_budget (wrap 64 9000) one_minute true Hr) as Hp. cbv zeta in Hp. fold plan in Hp.
  destruct (plan_wait_ms plan) as [w|]; [|discriminate Ew]. cbn [option_map] in Ew.
  destruct Hp as (_ & _ & _ & _ & _ & _ & _ & ->). injection Ew as ->. vm_compute. reflexivity.
Defined.

Lemma http_date_exact_witness : exists s, seconds_of 29 2 2024 12 0 0 = Some s /\
  Z.of_N (val s) = (calendar_days 2024 2 29 * 86400 + 12 * 3600 + 0 * 60 + 0)%Z.
Proof.
  assert (is_some (seconds_of 29 2 2024 12 0 0) = true) as Hs by (vm_compute; reflexivity).
  destruct (seconds_of 29 2 2024 12 0 0) as [s|] eqn:Es; [|discriminate Hs]. exists s. split; [reflexivity|].
  refine (proj2 (proj1 (http_date_exact 29 2 2024 12 0 0 s _ _ _ _) Es)); lia.
Defined.
